(* ===== verification/_CoqProject ===== *)
-Q . S2P
Prelude.v
Utf8.v
RustStr.v
NetAddr.v
AhoCorasick.v
Externals.v
Receipt.v
DoneDetector.v
DoneDetectorProofs.v
BudgetQueue.v
BudgetQueueProofs.v
Domain.v
HostBridge.v
HostBridgeProofs.v
Matching.v
Engine.v
EngineBoundary.v
EngineProofs.v
EngineTheorems.v
Tests.v
TestsProofs.v
Http.v
HttpProofs.v
Endpoints.v
Proxy.v
ProxyProofs.v
ProxyTheorems.v
Config.v
ConfigProofs.v
Watchers.v
Effects.v
Bootstrap.v
BootstrapProofs.v
Startup.v
StartupProofs.v
Listeners.v
Lifecycle.v
TaskProgram.v
Server.v
ServerProofs.v
EndToEnd.v
Live.v
LiveProofs.v
LiveStreams.v
LiveTheorems.v
