(* ===== verification/Prelude.v ===== *)
(** * Verification of zero_copy_pii_proxy

    The program is a proxy between clients and a language-model service.  It
    runs in an enclave, forwards a request upstream, replaces sensitive
    patterns in the streamed reply while it passes, and signs a receipt that
    ties the request, the delivered reply and the rules in force together.

    ** The program's parts and how they interact

    A request enters through the router and its middleware (origin check,
    client or admin authentication, body limit).  The proxy handler computes
    the receipt's fields, waits for a stream slot and for memory of its tenant,
    and sends the request upstream.  For a reply it spawns a task: every
    upstream chunk goes through the incremental redactor; the redacted text
    goes, for an event stream, through the end-of-stream detector, which
    inserts the receipt in front of the end marker; the result is cut into
    segments that hold permits of two semaphores until the client has taken
    them.  Rules and keys are replaced while the proxy runs, by an admin
    endpoint and by two file watchers.  Before it serves, [main] makes and
    attests its signing key and obtains its secrets from the key service; after
    a signal it drains its connections under a watchdog.  Outside the enclave a
    relay lets it reach the key service and nothing else.

    ** Which file models which part

    - [Prelude], [Utf8], [RustStr], [NetAddr]: bytes, results, shared tactics
      and hints; and what the source uses of the standard library: UTF-8
      validation, the methods of [str], the textual form of addresses.
    - [AhoCorasick], [Externals]: the crates the program calls, as classes of
      operations with classes of documented laws, each with an instance that
      satisfies the laws and can be evaluated.
    - [Engine] ([src/engine.rs]): [EngineState], [PiiVault], [redact_text],
      [determine_safe_boundary_state] and [StreamRedactor] with [push],
      [finish], [process_source], [redact_source].  [Matching],
      [EngineBoundary], [EngineProofs] hold the theory and [EngineTheorems] the
      theorems.
    - [Tests] (the property and unit tests of [src/lib.rs], [src/engine.rs] and
      [src/budget_queue.rs], [tests/proof_protocol.rs] and the fuzz target): each
      test as a function of what its harness supplies; [TestsProofs].
    - [Receipt] ([canonical_receipt_digest], [build_proxy_audit_frame] of
      [src/lib.rs]): the canonical encoding and the signed audit frame.
    - [DoneDetector] (the [DoneDetector] of [src/lib.rs]): [inspect], [finish]
      and [shutdown_events], branch by branch; [DoneDetectorProofs].
    - [BudgetQueue] ([src/budget_queue.rs]): budgets, permits, segments, the
      channel, [enqueue] and [BudgetedBody]; [BudgetQueueProofs].
    - [Proxy] ([proxy_with_upstream] of [src/lib.rs]): the stages of the handler
      and the streaming task; [ProxyProofs], [ProxyTheorems].  [TaskProgram] is the
      same task as a program that stops at every await.
    - [Http] (the middleware and [make_router] of [src/lib.rs]); [HttpProofs].
    - [Endpoints] ([attestation_document], [update_rules] and the metrics router
      of [src/lib.rs], [src/attestation.rs]).
    - [Config] (the configuration and the events of the file watchers of
      [src/main.rs]); [ConfigProofs].  [Watchers] makes threads of the watchers and
      interleaves them with the posts of administrators.
    - [Domain] ([src/domain.rs]): chunk records and per-choice buffers.
    - [HostBridge] ([src/vsock_host_bridge.rs] and the command line of
      [src/bin/vsock_host_bridge.rs]); [HostBridgeProofs].
    - [Effects]: programs as trees of commands, their executions, and a weakest
      precondition for them; the language of the next two files.
    - [Bootstrap] ([src/bootloader.rs], the key service part of
      [src/attestation.rs], [build_upstream_client] of [src/main.rs]): both copies of
      the attested decryption and what is built on them; [BootstrapProofs].
    - [Startup] ([main] of [src/main.rs] up to the point where it serves): [boot],
      made of [prepare_state] and [open_ports]; [StartupProofs].
    - [Listeners] ([src/tls.rs], [src/vsock_bridge.rs], the loops of
      [src/vsock_host_bridge.rs] and of both binaries): accept loops and tunnels as
      functions of what [accept] gives.
    - [Lifecycle] ([shutdown_signal] and the end of [main]): a timed state machine
      of the signal task, the watchdog, the servers and the process.
    - [Server]: any number of requests over one heap of semaphores and one tenant
      table, interleaved step by step, built from the operations of [Proxy] and
      [BudgetQueue]; [ServerProofs].
    - [EndToEnd]: start, reloads, authentication, handler, task and queue for one
      request.
    - [Live]: the whole proxy, interleaved action by action: the router with the
      keys in force, the handler with the rules in force, uploads, tasks as
      programs, queues, clients, both file watchers and the administrators.
      [LiveProofs] has the simulation of [Live] by [Server], [LiveStreams] the
      history of a stream as a run of its task, [LiveTheorems] the theorems.

    ** How code becomes definitions

    A byte string, and so a [str], is a list of bytes.  Machine integers are [Z]
    with their width written where it matters (lengths, permit counts, the
    length prefix of the canonical encoding).  A method that mutates [self]
    returns the new state beside its result, on its error paths too.  A
    function that can panic returns an [option], [None] being the panic; a
    fallible one a [result].  Shared objects behind an [Arc] (the semaphores) are
    addresses in a heap, and dropping a permit or a segment is an explicit
    operation where the compiler puts the drop.  An [await] is a place where
    others may act: [enqueue] and the admission of a request are resumable calls
    ([enqueue_step], [admit_step]), the queue's users are a step relation, and
    the task's [select!] loop is a function of the sequence of events in the
    order in which they are taken, and in [Live] a program whose rest waits while
    others act.  Start-up code is a program over commands: a
    command is one access to the environment, a file, the security module, the
    key service or the network, in the order of the source, and the theorems
    quantify over every answer.  Logging and metrics are left out, except for
    the two counters kept in statics (bytes in use, open event streams).

    ** What the theorems show

    - The engine: redacting chunk by chunk equals redacting the whole text
      ([stream_equals_one_shot]), for rules that fit into the buffer, chunk ends that
      do not cut a pattern in another case, and [separated] texts: occurrences of
      patterns do not overlap, and no part of a pattern that starts inside an
      occurrence runs past its end (all texts are separated when the rules cannot
      overlap); without these conditions every
      segment is still free of occurrences ([stream_segments_clean]), but two
      leaks exist, shown on concrete runs ([mixed_case_leak],
      [overlapping_rules_leak], both in [EngineTheorems]).  What each call emits, keeps and reports, a
      bound on what is kept, and that no call panics.
    - The tests: the fuzz target and the property test of the detector pass for
      every input, that of the protocol for everything its generator can make, and
      that of the redactor for every text without capitals; for others it fails
      ([redaction_property_test_fails]).  The unit tests pass by evaluation.
    - Receipts: different fields are hashed from different bytes, so their digests
      differ unless the hash collides on exactly these two encodings
      ([receipt_digest_binding]), and the signature in a frame verifies.
    - The detector: for every cut nothing is lost or reordered, and one receipt
      stands in front of the marker exactly when the marker occurs; the payload
      hash is right for streams in small chunks and, as [held_bytes_not_hashed]
      shows, not for others.
    - The queue: in every interleaving permits are conserved and the client
      receives what was enqueued, in order; [enqueue] completes when it can.
    - The task: whatever happens, the client gets only redacted text in order,
      at most one receipt and at most one terminal error; a complete response
      is delivered as its one-shot redaction.  Both are proved against the class
      [Sink], and [queue_implements_sink] shows that the queue is one, also while
      other streams use the same semaphores.  Every receipt that reaches the
      client is signed over the digest of the fields of this request.
    - The handler: every path gives back its slot and its memory, and the reply to
      an upstream error carries a receipt that verifies.
    - The HTTP front: without a key, the admin token or a configured origin the
      handlers have no influence on the response; with them the handler is
      reached with a limited body.
    - Endpoints, configuration, buffers and relay: fresh attestations, rule and
      key files read back, keys and rules that are those of the last good text or
      post in every interleaving ([keys_last_good], [rules_in_force]; an empty rule
      file counts as good, [empty_rule_file], and so does a post with an empty
      pattern, which gives rules that are not well formed,
      [empty_pattern_accepted]), buffers kept apart, and a relay that opens nothing
      but the key service (and, as [relay_never_connects] shows, not even that where
      host names have no colon).
    - Start-up: the key service is asked at most once and only for a key the
      security module has attested in the same run, the two copies of that code
      agree up to the wording of their errors ([unseal_copies_agree]), an honest outside returns what was sealed, and no port opens before
      every secret is there ([no_listener_before_secrets]).
    - Listeners: one silent peer stops the TLS listener
      ([tls_serves_until_silent]).
    - Shutdown: after a signal the servers have stopped or the watchdog has ended
      the process within its bound ([shutdown_completes], without file watchers);
      with one, a drained process waits for the watcher's thread ([exit_reasons],
      [drained_with_watcher]).
    - The server: for any number of requests in any interleaving, memory, slots
      and tenant shares stay within their limits, all of it comes back, and every
      stream is delivered in order.
    - The whole proxy: every step of [Live] is one of the server or invisible to it
      ([live_refines_server]), so its memory is bounded as well; in every
      interleaving a stream belongs to an accepted key and, unless its rules were
      posted with an empty pattern, carries only redacted text and at most one receipt
      for exactly this request ([live_end_to_end]); that receipt names the policy at
      the request, which need not be the one applied ([receipt_of_swapped_rules]); a
      stream that ends has delivered the one-shot redaction of the reply ([live_delivers]);
      and no task hangs, whatever its client does ([live_rounds_end]).

    ** Parameters

    Code outside the repository is an argument of the definitions that use it:
    the Aho-Corasick searcher, BLAKE3, Ed25519, Base64, hexadecimal and JSON
    encoders, tokio's semaphore, the header values of the [http] crate, the CBOR
    encoder, RSA, the security module, the key service, the network, the clock
    and the file system.  Of tokio's runtime [Lifecycle] uses what is documented:
    dropping it cancels tasks and waits for threads of [spawn_blocking].
    Laws are classes next to the operations; collisions of the hash are never
    excluded in general: a theorem about digests names the two texts that would
    have to collide ([collides]).

    ** Fuel and bounds

    Recursion that is not structural runs on fuel that is the length of its
    input: [slices] of the queue, [trim] and [split_whitespace], each of which
    consumes at least one byte per round.  Lemmas show that the fuel is enough
    (the segments of a payload concatenate to it).  Loops over events and bytes
    are structural.

    ** What is not modelled

    The log subscriber, trace output, and the metrics other than the two counters;
    the request-id and trace layers and the concurrency limit in front of the
    router, so that [Server] admits any number of requests; the texts that libraries
    append to error messages ([BootError] is the part the source spells out); the bytes copied between
    the two ends of a tunnel, which tokio copies; the derived serde code; and
    [setup_shutdown_signal] of [src/bin/vsock_host_bridge.rs], which nothing calls.  Time is an event
    that may come at any await, and is counted only in [Lifecycle].  An event of the
    key file empties the tenant table and stores the keys in one step ([auth_event]).  Memory the
    allocator uses and the scheduling of threads below the awaits are not covered.

    Left for extension: the shutdown of [Lifecycle] as a part of [Live], where the
    signal is an event that may reach any task at any time. *)

From Stdlib Require Export Strings.Byte.
From Stdlib Require Strings.String.
From Stdlib Require Export ZArith Lia.
From stdpp Require Export base list gmap numbers option strings.

(** ** Bytes *)

Abbreviation bytes := (list Byte.byte).

#[global] Instance byte_eq_dec : EqDecision Byte.byte := Byte.byte_eq_dec.

Definition byte_val (b : Byte.byte) : Z := Z.of_N (Byte.to_N b).

#[global] Program Instance byte_countable : Countable Byte.byte :=
  inj_countable Byte.to_N Byte.of_N _.
Next Obligation. intros b. apply Byte.of_to_N. Qed.

(** A byte-string literal: [bstr "abc"] is Rust's [b"abc"]. *)
Definition bstr (s : String.string) : bytes := String.list_byte_of_string s.
Arguments bstr _%_string.

(** [usize] is 64 bits wide on the targets of the repository. *)
Definition usize_max : Z := 2 ^ 64 - 1.
Definition u32_max : Z := 2 ^ 32 - 1.

(** Length of a byte string as a machine-sized integer. *)
Definition blen (l : bytes) : Z := Z.of_nat (length l).

(** ** Results and panics

    [Result E A] is Rust's [Result<A, E>].  A computation that may panic has
    type [option _], where [None] is the panic; the option monad of stdpp
    sequences such computations. *)
Inductive Result (E A : Type) : Type :=
| Ok (a : A)
| Err (e : E).
Arguments Ok {E A} a.
Arguments Err {E A} e.

#[global] Instance result_eq_dec {E A} `{EqDecision E, EqDecision A} :
  EqDecision (Result E A).
Proof. solve_decision. Defined.

(** ** Slices *)

(** The bytes of [l] from [s] (included) to [e] (excluded). *)
Definition sub {A} (s e : nat) (l : list A) : list A := take (e - s) (drop s l).
Arguments sub : simpl never.

(** [l[s..e]]: panics unless [s <= e <= l.len()]. *)
Definition slice {A} (s e : nat) (l : list A) : option (list A) :=
  if decide (s ≤ e ∧ e ≤ length l) then Some (sub s e l) else None.
Arguments slice : simpl never.

(** [hay.starts_with(needle)] and [hay.ends_with(needle)] on byte slices. *)
Definition starts_with (hay needle : bytes) : bool :=
  bool_decide (take (length needle) hay = needle).
Definition ends_with (hay needle : bytes) : bool :=
  (length needle <=? length hay)%nat &&
  bool_decide (drop (length hay - length needle) hay = needle).

(** [hay.windows(needle.len()).position(|w| w == needle)], for a needle that is
    not empty. *)
Fixpoint window_position (hay needle : bytes) : option nat :=
  if starts_with hay needle then Some 0
  else match hay with
       | [] => None
       | _ :: t => S <$> window_position t needle
       end.

#[global] Arguments Nat.ltb : simpl never.
#[global] Arguments Nat.leb : simpl never.
#[global] Arguments Nat.eqb : simpl never.

(** ** Automation

    [pxy] is the hint database of the development: the length and slice facts
    every component uses.  [simp_len] normalises lengths of list expressions;
    [solve_len] closes the arithmetic that remains. *)
Create HintDb pxy.

Ltac simp_len :=
  repeat (first [rewrite length_app in * | rewrite length_take in *
                | rewrite length_drop in * | rewrite length_fmap in *
                | progress cbn [length] in *]).
Ltac solve_len := unfold sub in *; simp_len; lia.

(** Case analysis on the boolean tests of the source. *)
Ltac bool_cases :=
  repeat match goal with
  | H : context [if ?b then _ else _] |- _ => destruct b eqn:?
  | |- context [if ?b then _ else _] => destruct b eqn:?
  end.

(** Turn boolean comparisons into propositions. *)
Ltac bool_props :=
  repeat match goal with
  | H : (_ && _) = true |- _ => apply andb_true_iff in H as [? ?]
  | H : (_ || _) = false |- _ => apply orb_false_iff in H as [? ?]
  | H : negb _ = true |- _ => apply negb_true_iff in H
  | H : negb _ = false |- _ => apply negb_false_iff in H
  | H : bool_decide _ = true |- _ => apply bool_decide_eq_true in H
  | H : bool_decide _ = false |- _ => apply bool_decide_eq_false in H
  end.

(** An equation both sides of which evaluate to the same value, checked by the
    virtual machine without reading the value back. *)
Ltac by_vm := match goal with |- _ = ?y => vm_cast_no_check (eq_refl y) end.

(** ** Lemmas on slices *)

Lemma sub_0 {A} (e : nat) (l : list A) : sub 0 e l = take e l.
Proof. unfold sub. by rewrite drop_0, Nat.sub_0_r. Qed.

Lemma sub_full {A} (l : list A) : sub 0 (length l) l = l.
Proof. rewrite sub_0. apply take_ge. lia. Qed.

Lemma length_sub {A} (s e : nat) (l : list A) :
  e ≤ length l → length (sub s e l) = e - s.
Proof. intros. solve_len. Qed.

Lemma sub_nil_iff {A} (s e : nat) (l : list A) : e ≤ s → sub s e l = [].
Proof. intros. unfold sub. by replace (e - s) with 0 by lia. Qed.

Lemma sub_app_adj {A} (a b c : nat) (l : list A) :
  a ≤ b ≤ c → sub a b l ++ sub b c l = sub a c l.
Proof.
  intros [H1 H2]. unfold sub.
  replace (drop b l) with (drop (b - a) (drop a l))
    by (rewrite drop_drop; f_equal; lia).
  rewrite take_take_drop. f_equal. lia.
Qed.

Lemma sub_app_l {A} (s e : nat) (l k : list A) :
  e ≤ length l → sub s e (l ++ k) = sub s e l.
Proof.
  intros He. unfold sub. destruct (decide (s ≤ length l)).
  - rewrite drop_app_le, take_app_le by solve_len. done.
  - replace (e - s) with 0 by lia. done.
Qed.

Lemma sub_app_r {A} (s e : nat) (l k : list A) :
  length l ≤ s → sub s e (l ++ k) = sub (s - length l) (e - length l) k.
Proof.
  intros Hs. unfold sub. rewrite drop_app_ge by lia.
  f_equal; lia.
Qed.

Lemma sub_sub {A} (a b s e : nat) (l : list A) :
  a + e ≤ b → sub s e (sub a b l) = sub (a + s) (a + e) l.
Proof.
  intros H. unfold sub.
  rewrite skipn_firstn_comm, take_take, drop_drop. f_equal; lia.
Qed.

Lemma slice_Some {A} (s e : nat) (l : list A) :
  s ≤ e → e ≤ length l → slice s e l = Some (sub s e l).
Proof. intros. unfold slice. by rewrite decide_True. Qed.

Lemma slice_Some_inv {A} (s e : nat) (l k : list A) :
  slice s e l = Some k → s ≤ e ∧ e ≤ length l ∧ k = sub s e l.
Proof. unfold slice. case_decide; [|done]. intros [= <-]. tauto. Qed.

(** ** Lemmas on prefixes, suffixes and windows *)

Lemma starts_with_spec hay needle :
  starts_with hay needle = true ↔ ∃ t, hay = needle ++ t.
Proof.
  unfold starts_with. rewrite bool_decide_eq_true. split.
  - intros H. exists (drop (length needle) hay).
    rewrite <-H at 1. by rewrite take_drop.
  - intros [t ->]. by rewrite take_app_length.
Qed.

Lemma ends_with_spec hay needle :
  ends_with hay needle = true ↔ ∃ t, hay = t ++ needle.
Proof.
  unfold ends_with. rewrite andb_true_iff, bool_decide_eq_true, Nat.leb_le. split.
  - intros [Hl H]. exists (take (length hay - length needle) hay).
    rewrite <-H at 2. by rewrite take_drop.
  - intros [t ->]. split; [solve_len|].
    rewrite length_app. replace (_ + _ - _) with (length t) by lia.
    apply drop_app_length.
Qed.

(** [needle] occurs somewhere in [hay]. *)
Definition contains (hay needle : bytes) : bool :=
  match window_position hay needle with Some _ => true | None => false end.

Lemma window_position_Some hay needle k :
  window_position hay needle = Some k → ∃ t, hay = take k hay ++ needle ++ t ∧ k ≤ length hay.
Proof.
  revert k. induction hay as [|b hay IH]; intros k; cbn;
    destruct (starts_with _ needle) eqn:E; intros H.
  - injection H as <-. apply starts_with_spec in E as [t Ht]. exists t. cbn. split; [done|lia].
  - done.
  - injection H as <-. apply starts_with_spec in E as [t Ht]. exists t. cbn. split; [done|lia].
  - destruct (window_position hay needle) as [j|] eqn:Ej; [|done]. injection H as <-.
    destruct (IH j eq_refl) as (t & Ht & Hj). exists t. cbn. split; [by f_equal|lia].
Qed.

Lemma window_position_None hay needle a t :
  window_position hay needle = None → hay ≠ a ++ needle ++ t.
Proof.
  revert a. induction hay as [|b hay IH]; intros a; cbn;
    destruct (starts_with _ needle) eqn:E; intros H Heq; try done.
  - destruct a; [|done]. cbn in Heq. assert (∃ t, [] = needle ++ t) as K by eauto.
    apply starts_with_spec in K. congruence.
  - destruct (window_position hay needle) as [j|] eqn:Ej; [done|].
    destruct a as [|a0 a].
    + assert (∃ t, b :: hay = needle ++ t) as K by eauto.
      apply starts_with_spec in K. congruence.
    + injection Heq as -> Heq. by eapply IH.
Qed.

(** The position found is the first one. *)
Lemma window_position_min hay needle k a t :
  window_position hay needle = Some k → hay = a ++ needle ++ t → k ≤ length a.
Proof.
  revert k a. induction hay as [|b hay IH]; intros k a; cbn;
    destruct (starts_with _ needle) eqn:E; intros H Heq; try (injection H as <-; lia); [done|].
  destruct (window_position hay needle) as [j|] eqn:Ej; [|done]. injection H as <-.
  destruct a as [|a0 a].
  - assert (∃ t, b :: hay = needle ++ t) as K by eauto. apply starts_with_spec in K. congruence.
  - injection Heq as _ Heq. specialize (IH j a eq_refl Heq). cbn. lia.
Qed.

Lemma contains_spec hay needle :
  contains hay needle = true ↔ ∃ a t, hay = a ++ needle ++ t.
Proof.
  unfold contains. split.
  - destruct (window_position hay needle) as [k|] eqn:E; [|done].
    apply window_position_Some in E as (t & Ht & _). eauto.
  - intros (a & t & H). destruct (window_position hay needle) as [k|] eqn:E; [done|].
    by apply (window_position_None _ _ a t) in E.
Qed.

(** Every element of a list but its last [n]; its last [n] elements. *)
Definition but_last {A} (n : nat) (l : list A) : list A := take (length l - n) l.
Definition last_n {A} (n : nat) (l : list A) : list A := drop (length l - n) l.
Arguments but_last : simpl never.
Arguments last_n : simpl never.

Lemma but_last_last_n {A} n (l : list A) : but_last n l ++ last_n n l = l.
Proof. apply take_drop. Qed.

Lemma length_last_n {A} n (l : list A) : length (last_n n l) = Nat.min n (length l).
Proof. unfold last_n. solve_len. Qed.

Lemma last_n_app_ge {A} n (l k : list A) : n ≤ length k → last_n n (l ++ k) = last_n n k.
Proof. intros H. unfold last_n. rewrite length_app, drop_app_ge by lia. f_equal. lia. Qed.

Lemma app_cong_len {A} (a b c d : nat) (l k : list A) :
  a = b → c = d → drop a l ++ drop c k = drop b l ++ drop d k.
Proof. by intros -> ->. Qed.

Lemma last_n_last_n_app {A} n (l k : list A) : last_n n (last_n n l ++ k) = last_n n (l ++ k).
Proof.
  destruct (decide (n ≤ length k)); [by rewrite !last_n_app_ge|].
  unfold last_n. rewrite !drop_app, !length_app, !length_drop.
  rewrite drop_drop. apply app_cong_len; lia.
Qed.

(** The last element, or else [a]. *)
Lemma default_last_app {A} (a : A) l k :
  default a (last (l ++ k)) = default (default a (last l)) (last k).
Proof. rewrite last_app. by destruct (last k). Qed.

Lemma default_last_cons {A} (a x : A) l : default a (last (x :: l)) = default x (last l).
Proof. apply (default_last_app a [x] l). Qed.

(** ** Runs inside runs *)

(** [t] occurs in [l] as a block. *)
Definition within {A} (t l : list A) : Prop := ∃ a b, l = a ++ t ++ b.

Lemma within_refl {A} (t : list A) : within t t.
Proof. exists [], []. by rewrite app_nil_r. Qed.
Lemma within_app_l {A} (t l k : list A) : within t l → within t (l ++ k).
Proof. intros (a & b & ->). exists a, (b ++ k). by rewrite <-!app_assoc. Qed.
Lemma within_app_r {A} (t l k : list A) : within t k → within t (l ++ k).
Proof. intros (a & b & ->). exists (l ++ a), b. by rewrite <-!app_assoc. Qed.
Lemma within_cons {A} (t k : list A) x : within t k → within t (x :: k).
Proof. apply (within_app_r t [x] k). Qed.
Lemma within_elem {A} (t l : list A) x : within t l → x ∈ t → x ∈ l.
Proof. intros (a & b & ->). rewrite !elem_of_app. tauto. Qed.
Lemma within_trans {A} (t l k : list A) : within t l → within l k → within t k.
Proof.
  intros (a & b & ->) (c & d & ->). exists (c ++ a), (b ++ d). by rewrite <-!app_assoc.
Qed.
#[export] Hint Resolve within_refl within_app_l within_app_r within_cons : pxy.
