(* ===== verification/Utf8.v ===== *)
(** * UTF-8: the part of [std::str] the proxy relies on

    [std::str::from_utf8] with its [Utf8Error] (the position of the first
    offending byte and, when the input is not merely truncated, the number of
    bytes to skip), and [str::is_char_boundary].  The validator follows the
    state machine of the standard library byte for byte, so that an incomplete
    sequence at the end of a chunk ([error_len = None]) is told apart from an
    invalid one. *)

From S2P Require Import Prelude.
Local Open Scope Z_scope.

Definition in_range (lo hi : Z) (b : Byte.byte) : bool :=
  (lo <=? byte_val b) && (byte_val b <=? hi).

(** Continuation bytes [0x80..=0xBF]. *)
Definition is_cont (b : Byte.byte) : bool := in_range 128 191 b.

(** Lead bytes, by the width of the sequence they open. *)
Definition lead1 (b : Byte.byte) : bool := in_range 0 127 b.
Definition lead2 (b : Byte.byte) : bool := in_range 194 223 b.
Definition lead3 (b : Byte.byte) : bool := in_range 224 239 b.
Definition lead4 (b : Byte.byte) : bool := in_range 240 244 b.

(** Second bytes allowed after a three or four byte lead: no overlong form, no
    surrogate, nothing above U+10FFFF. *)
Definition second3 (b0 b1 : Byte.byte) : bool :=
  (in_range 224 224 b0 && in_range 160 191 b1)
  || (in_range 225 236 b0 && in_range 128 191 b1)
  || (in_range 237 237 b0 && in_range 128 159 b1)
  || (in_range 238 239 b0 && in_range 128 191 b1).
Definition second4 (b0 b1 : Byte.byte) : bool :=
  (in_range 240 240 b0 && in_range 144 191 b1)
  || (in_range 241 243 b0 && in_range 128 191 b1)
  || (in_range 244 244 b0 && in_range 128 143 b1).

Record Utf8Error := { valid_up_to : nat; error_len : option nat }.

#[global] Instance utf8error_eq_dec : EqDecision Utf8Error.
Proof. solve_decision. Defined.

Fixpoint run_utf8 (bs : bytes) (pos : nat) : Result Utf8Error unit :=
  let short := Err {| valid_up_to := pos; error_len := None |} in
  let bad n := Err {| valid_up_to := pos; error_len := Some n |} in
  match bs with
  | [] => Ok tt
  | b0 :: t0 =>
    if lead1 b0 then run_utf8 t0 (pos + 1)
    else if lead2 b0 then
      match t0 with
      | [] => short
      | b1 :: t1 => if is_cont b1 then run_utf8 t1 (pos + 2) else bad 1%nat
      end
    else if lead3 b0 then
      match t0 with
      | [] => short
      | b1 :: t1 =>
        if second3 b0 b1 then
          match t1 with
          | [] => short
          | b2 :: t2 => if is_cont b2 then run_utf8 t2 (pos + 3) else bad 2%nat
          end
        else bad 1%nat
      end
    else if lead4 b0 then
      match t0 with
      | [] => short
      | b1 :: t1 =>
        if second4 b0 b1 then
          match t1 with
          | [] => short
          | b2 :: t2 =>
            if is_cont b2 then
              match t2 with
              | [] => short
              | b3 :: t3 => if is_cont b3 then run_utf8 t3 (pos + 4) else bad 3%nat
              end
            else bad 2%nat
          end
        else bad 1%nat
      end
    else bad 1%nat
  end%nat.

Definition from_utf8 (bs : bytes) : Result Utf8Error unit := run_utf8 bs 0.

Definition valid_utf8 (bs : bytes) : bool := bool_decide (from_utf8 bs = Ok tt).

(** [str::is_char_boundary]. *)
Definition is_char_boundary (s : bytes) (i : nat) : bool :=
  if (i =? 0)%nat then true
  else match s !! i with
       | None => (i =? length s)%nat
       | Some b => negb (is_cont b)
       end.

(** ** Encoded characters *)

(** The byte strings that encode one character. *)
Definition utf8_char (c : bytes) : bool :=
  match c with
  | [b0] => lead1 b0
  | [b0; b1] => lead2 b0 && is_cont b1
  | [b0; b1; b2] => lead3 b0 && second3 b0 b1 && is_cont b2
  | [b0; b1; b2; b3] => lead4 b0 && second4 b0 b1 && is_cont b2 && is_cont b3
  | _ => false
  end.

Ltac ranges :=
  unfold second3, second4, lead1, lead2, lead3, lead4, is_cont, in_range in *;
  rewrite ?andb_true_iff, ?orb_true_iff, ?andb_false_iff, ?orb_false_iff,
    ?negb_true_iff, ?negb_false_iff in *;
  rewrite ?Z.leb_le, ?Z.leb_gt in *.

Lemma utf8_char_shape c :
  utf8_char c = true →
  ∃ b t, c = b :: t ∧ is_cont b = false ∧ Forall (λ x, is_cont x = true) t ∧
         (length t ≤ 3)%nat.
Proof.
  destruct c as [|b0 [|b1 [|b2 [|b3 [|b4 c]]]]]; cbn; try done; intros H;
    eexists _, _; (split; [done|]); (split; [|split; [|cbn; lia]]);
    repeat constructor; ranges; lia.
Qed.

Lemma run_utf8_char c t pos :
  utf8_char c = true → run_utf8 (c ++ t) pos = run_utf8 t (pos + length c)%nat.
Proof.
  destruct c as [|b0 [|b1 [|b2 [|b3 [|b4 c]]]]]; cbn; try done; intros H;
    bool_props.
  - by rewrite H.
  - destruct (lead1 b0) eqn:E1; [ranges; lia|].
    by repeat match goal with H : _ = true |- _ => rewrite H; clear H end.
  - destruct (lead1 b0) eqn:E1; [ranges; lia|].
    destruct (lead2 b0) eqn:E2; [ranges; lia|].
    by repeat match goal with H : _ = true |- _ => rewrite H; clear H end.
  - destruct (lead1 b0) eqn:E1; [ranges; lia|].
    destruct (lead2 b0) eqn:E2; [ranges; lia|].
    destruct (lead3 b0) eqn:E3; [ranges; lia|].
    by repeat match goal with H : _ = true |- _ => rewrite H; clear H end.
Qed.

(** The validator stops at the first byte of [bs], with [error_len = o]. *)
Definition stuck (bs : bytes) (o : option nat) : Prop :=
  ∀ pos, run_utf8 bs pos = Err {| valid_up_to := pos; error_len := o |}.

Ltac by_tests :=
  repeat match goal with H : _ = true |- _ => rewrite H; clear H
                       | H : _ = false |- _ => rewrite H; clear H end; done.
Ltac utf8_stops o := right; exists o; intros ?; cbn; by_tests.
Ltac utf8_reads c t := left; exists c, t; cbn; by_tests.

Lemma utf8_cases bs :
  bs = [] ∨ (∃ c t, utf8_char c = true ∧ bs = c ++ t) ∨ ∃ o, stuck bs o.
Proof.
  destruct bs as [|b0 t0]; [by left|right].
  destruct (lead1 b0) eqn:E1; [utf8_reads [b0] t0|].
  destruct (lead2 b0) eqn:E2.
  { destruct t0 as [|b1 t1]; [utf8_stops (@None nat)|].
    destruct (is_cont b1) eqn:C1; [utf8_reads [b0; b1] t1|utf8_stops (Some 1%nat)]. }
  destruct (lead3 b0) eqn:E3.
  { destruct t0 as [|b1 t1]; [utf8_stops (@None nat)|].
    destruct (second3 b0 b1) eqn:S1; [|utf8_stops (Some 1%nat)].
    destruct t1 as [|b2 t2]; [utf8_stops (@None nat)|].
    destruct (is_cont b2) eqn:C2; [utf8_reads [b0; b1; b2] t2|utf8_stops (Some 2%nat)]. }
  destruct (lead4 b0) eqn:E4; [|utf8_stops (Some 1%nat)].
  destruct t0 as [|b1 t1]; [utf8_stops (@None nat)|].
  destruct (second4 b0 b1) eqn:S1; [|utf8_stops (Some 1%nat)].
  destruct t1 as [|b2 t2]; [utf8_stops (@None nat)|].
  destruct (is_cont b2) eqn:C2; [|utf8_stops (Some 2%nat)].
  destruct t2 as [|b3 t3]; [utf8_stops (@None nat)|].
  destruct (is_cont b3) eqn:C3; [utf8_reads [b0; b1; b2; b3] t3|utf8_stops (Some 3%nat)].
Qed.

Lemma utf8_char_nonempty c : utf8_char c = true → (0 < length c)%nat.
Proof. intros (b & t & -> & _)%utf8_char_shape. cbn. lia. Qed.

(** Every byte string is a sequence of characters followed by nothing or by the
    place where the validator stops. *)
Lemma utf8_split bs :
  ∃ cs rest, Forall (λ c, utf8_char c = true) cs ∧ bs = concat cs ++ rest ∧
             (rest = [] ∨ rest ≠ [] ∧ ∃ o, stuck rest o).
Proof.
  remember (length bs) as n eqn:En. revert bs En.
  induction n as [n IH] using lt_wf_ind. intros bs ->.
  destruct (utf8_cases bs) as [->|[(c & t & Hc & ->)|[o Ho]]].
  - exists [], []. naive_solver.
  - pose proof (utf8_char_nonempty c Hc).
    destruct (IH (length t)) with (bs := t) as (cs & r & Hcs & -> & Hr); [solve_len|done|].
    exists (c :: cs), r. split; [by constructor|]. split; [cbn; by rewrite app_assoc|done].
  - exists [], bs. split; [done|]. split; [done|]. destruct bs; [by left|right; eauto].
Qed.

Lemma run_utf8_chars cs t pos :
  Forall (λ c, utf8_char c = true) cs →
  run_utf8 (concat cs ++ t) pos = run_utf8 t (pos + length (concat cs))%nat.
Proof.
  intros H. revert pos. induction H as [|c cs Hc _ IH]; intros pos; cbn.
  - by rewrite Nat.add_0_r.
  - rewrite <-app_assoc, run_utf8_char, IH by done. rewrite length_app.
    f_equal. lia.
Qed.

Lemma valid_utf8_chars bs :
  valid_utf8 bs = true ↔ ∃ cs, Forall (λ c, utf8_char c = true) cs ∧ bs = concat cs.
Proof.
  unfold valid_utf8, from_utf8. rewrite bool_decide_eq_true. split.
  - intros H. destruct (utf8_split bs) as (cs & r & Hcs & -> & [->|[_ [o Ho]]]).
    + exists cs. by rewrite app_nil_r.
    + rewrite run_utf8_chars, Ho in H by done. done.
  - intros (cs & Hcs & ->). rewrite <-(app_nil_r (concat cs)).
    by rewrite run_utf8_chars.
Qed.

(** The position reported by the validator never precedes its start. *)
Lemma run_utf8_pos bs pos e : run_utf8 bs pos = Err e → (pos ≤ valid_up_to e)%nat.
Proof.
  destruct (utf8_split bs) as (cs & r & Hcs & -> & [->|[_ [o Ho]]]);
    rewrite run_utf8_chars by done; [done|].
  rewrite Ho. intros [= <-]. cbn. lia.
Qed.

Lemma valid_utf8_nil : valid_utf8 [] = true.
Proof. done. Qed.

Lemma valid_utf8_app a b :
  valid_utf8 a = true → valid_utf8 b = true → valid_utf8 (a ++ b) = true.
Proof.
  rewrite !valid_utf8_chars. intros (cs & Hcs & ->) (ds & Hds & ->).
  exists (cs ++ ds). rewrite concat_app. split; [by apply Forall_app|done].
Qed.

Lemma run_utf8_app a b pos :
  valid_utf8 a = true → run_utf8 (a ++ b) pos = run_utf8 b (pos + length a)%nat.
Proof. rewrite valid_utf8_chars. intros (cs & Hcs & ->). by apply run_utf8_chars. Qed.

Lemma run_utf8_shift bs pos :
  run_utf8 bs pos = match run_utf8 bs 0 with
                    | Ok a => Ok a
                    | Err e => Err {| valid_up_to := pos + valid_up_to e;
                                      error_len := error_len e |}
                    end.
Proof.
  destruct (utf8_split bs) as (cs & r & Hcs & -> & [->|[_ [o Ho]]]);
    rewrite !run_utf8_chars by done; [done|]. by rewrite !Ho.
Qed.

Lemma valid_utf8_app_inv a b :
  valid_utf8 a = true → valid_utf8 (a ++ b) = true → valid_utf8 b = true.
Proof.
  intros Ha Hab. unfold valid_utf8, from_utf8 in *.
  rewrite bool_decide_eq_true in *. rewrite run_utf8_app, run_utf8_shift in Hab.
  - by destruct (run_utf8 b 0) as [[]|].
  - unfold valid_utf8. by apply bool_decide_eq_true.
Qed.

(** A proper, non-empty prefix of a character is reported as incomplete. *)
Lemma utf8_char_prefix_stuck r s :
  utf8_char (r ++ s) = true → r ≠ [] → s ≠ [] → stuck r None ∧ (length r ≤ 3)%nat.
Proof.
  intros H Hr Hs.
  assert (length r ≤ 3)%nat.
  { destruct (utf8_char_shape _ H) as (b & t & E & _ & _ & Ht).
    apply (f_equal length) in E. destruct s; [done|]. solve_len. }
  split; [|done]. intros pos.
  destruct r as [|b0 [|b1 [|b2 [|b3 r]]]]; [done| | | |cbn in *; lia];
    destruct s as [|d0 [|d1 [|d2 [|d3 s]]]]; try done; cbn in H; try done; bool_props;
    cbn;
    (destruct (lead1 b0) eqn:E1; [ranges; lia|]);
    repeat match goal with H : ?x = true |- context [?x] => rewrite H end; try done;
    (destruct (lead2 b0) eqn:E2; [ranges; lia|]);
    repeat match goal with H : ?x = true |- context [?x] => rewrite H end; try done;
    (destruct (lead3 b0) eqn:E3; [ranges; lia|]);
    repeat match goal with H : ?x = true |- context [?x] => rewrite H end; done.
Qed.

(** An error that is not final leaves at most three bytes unread. *)
Lemma stuck_None_short r : stuck r None → (length r ≤ 3)%nat.
Proof.
  intros H. specialize (H 0%nat). destruct r as [|b0 t0]; cbn in *; [lia|].
  repeat match type of H with
  | run_utf8 _ _ = _ => apply run_utf8_pos in H; cbn in H; lia
  | (if ?b then _ else _) = _ => destruct b; try done
  | match ?t with [] => _ | _ => _ end = _ => destruct t; cbn; try lia
  end.
Qed.

(** What [from_utf8] says of the prefix it accepted. *)
Lemma from_utf8_Err bs e :
  from_utf8 bs = Err e →
  valid_utf8 (take (valid_up_to e) bs) = true ∧ (valid_up_to e < length bs)%nat ∧
  (error_len e = None → (length bs ≤ valid_up_to e + 3)%nat).
Proof.
  unfold from_utf8. intros H.
  destruct (utf8_split bs) as (cs & r & Hcs & -> & [->|[Hr [o Ho]]]);
    rewrite run_utf8_chars in H by done; [done|].
  rewrite Ho in H. injection H as <-. cbn. split_and!.
  - rewrite take_app_length. apply valid_utf8_chars. eauto.
  - destruct r; [done|]. solve_len.
  - intros ->. apply stuck_None_short in Ho. solve_len.
Qed.

(** A prefix of a valid text is valid or merely truncated, never rejected. *)
Lemma from_utf8_prefix a b :
  valid_utf8 (a ++ b) = true →
  from_utf8 a = Ok tt ∨
  ∃ e, from_utf8 a = Err e ∧ error_len e = None.
Proof.
  intros H. destruct (utf8_split a) as (cs & r & Hcs & -> & [->|[Hr [o Ho]]]).
  { left. unfold from_utf8. by rewrite run_utf8_chars. }
  right. unfold from_utf8. rewrite run_utf8_chars, Ho by done.
  eexists. split; [done|]. cbn.
  rewrite <-app_assoc in H.
  apply valid_utf8_app_inv in H; [|apply valid_utf8_chars; by eauto].
  apply valid_utf8_chars in H as ([|c ds] & Hds & E); cbn in E; [by destruct r|].
  apply Forall_cons in Hds as [Hc _].
  destruct (decide (length c ≤ length r)%nat) as [Hl|Hl].
  - assert (r = c ++ drop (length c) r) as Er.
    { apply (f_equal (take (length c))) in E.
      rewrite take_app_length, take_app_le in E by done.
      by rewrite <-E at 1; rewrite take_drop. }
    specialize (Ho 0%nat). rewrite Er, run_utf8_char in Ho by done.
    apply run_utf8_pos in Ho. cbn in Ho. pose proof (utf8_char_nonempty c Hc). lia.
  - assert (c = r ++ drop (length r) c) as Ec.
    { apply (f_equal (take (length r))) in E.
      rewrite take_app_length, take_app_le in E by lia.
      by rewrite E at 1; rewrite take_drop. }
    rewrite Ec in Hc.
    apply utf8_char_prefix_stuck in Hc as [Hn _]; [|done|].
    + specialize (Ho 0%nat). specialize (Hn 0%nat). congruence.
    + intros E0%(f_equal length). rewrite length_drop in E0. cbn in E0. lia.
Qed.

(** ** Character boundaries *)

Lemma valid_utf8_head b t : valid_utf8 (b :: t) = true → is_cont b = false.
Proof.
  rewrite valid_utf8_chars. intros ([|c cs] & Hcs & E); [done|].
  apply Forall_cons in Hcs as [Hc _].
  apply utf8_char_shape in Hc as (b' & t' & -> & Hb & _). cbn in E. congruence.
Qed.

(** Cutting a valid text at a character boundary leaves two valid texts. *)
Lemma char_boundary_split s k :
  valid_utf8 s = true → is_char_boundary s k = true → (k ≤ length s)%nat →
  valid_utf8 (take k s) = true ∧ valid_utf8 (drop k s) = true.
Proof.
  rewrite valid_utf8_chars. intros (cs & Hcs & ->). revert k.
  induction Hcs as [|c cs Hc Hcs IH]; intros k Hb Hk.
  { cbn in *. by replace k with 0%nat by lia. }
  destruct (decide (k = 0)%nat) as [->|Hk0].
  { split; [done|]. rewrite drop_0. apply valid_utf8_chars.
    exists (c :: cs). split; [by constructor|done]. }
  assert (Hcv : valid_utf8 c = true).
  { apply valid_utf8_chars. exists [c]. cbn. rewrite app_nil_r. split; [by constructor|done]. }
  cbn [concat] in *. destruct (decide (k < length c)%nat) as [Hlt|Hge].
  - exfalso. unfold is_char_boundary in Hb.
    apply utf8_char_shape in Hc as (b & t & -> & _ & Ht & _).
    destruct k as [|k]; [done|]. cbn in Hb, Hlt.
    destruct (lookup_lt_is_Some_2 t k) as [x Hx]; [lia|].
    rewrite (lookup_app_l_Some _ _ _ _ Hx) in Hb.
    rewrite Forall_lookup in Ht. rewrite (Ht _ _ Hx) in Hb. done.
  - rewrite take_app_ge, drop_app_ge by lia.
    destruct (IH (k - length c)%nat) as [H1 H2].
    + unfold is_char_boundary in *. destruct (k =? 0)%nat eqn:E; [apply Nat.eqb_eq in E; lia|].
      rewrite lookup_app_r in Hb by lia.
      destruct (k - length c =? 0)%nat eqn:E2; [done|].
      destruct (concat cs !! (k - length c)%nat) eqn:E3; [done|].
      rewrite length_app in Hb. rewrite Nat.eqb_eq in *. lia.
    + rewrite length_app in Hk. lia.
    + split; [by apply valid_utf8_app|done].
Qed.

(** ** [String::from_utf8_lossy] *)

(** U+FFFD REPLACEMENT CHARACTER. *)
Definition replacement_char : bytes := ["239"; "191"; "189"]%byte.

(** Each invalid sequence, and an unfinished one at the end, becomes one
    replacement character.  The fuel is the length of the input: every round
    consumes at least one byte. *)
Fixpoint utf8_lossy (fuel : nat) (bs : bytes) : bytes :=
  match fuel with
  | O => []
  | S fuel =>
    match from_utf8 bs with
    | Ok _ => bs
    | Err e =>
      take (valid_up_to e) bs ++ replacement_char ++
      match error_len e with
      | None => []
      | Some n => utf8_lossy fuel (drop (valid_up_to e + n) bs)
      end
    end
  end.

Definition from_utf8_lossy (bs : bytes) : bytes := utf8_lossy (S (length bs)) bs.

Lemma from_utf8_lossy_valid bs : valid_utf8 bs = true → from_utf8_lossy bs = bs.
Proof.
  unfold valid_utf8. intros H%bool_decide_eq_true. unfold from_utf8_lossy. cbn. by rewrite H.
Qed.
