(* ===== verification/RustStr.v ===== *)
(** * The [str] methods of the standard library the proxy uses

    A [&str] is its UTF-8 bytes.  Separators are ASCII characters, whose bytes
    occur in UTF-8 text only as themselves, so splitting works on bytes;
    [trim] and [split_whitespace] go by the Unicode property White_Space, given
    here by the UTF-8 encodings of its characters. *)

From S2P Require Import Prelude Utf8.

(** ** White space *)

(** The encodings of U+0009..U+000D, U+0020, U+0085, U+00A0, U+1680,
    U+2000..U+200A, U+2028, U+2029, U+202F, U+205F and U+3000. *)
Definition whitespace : list bytes :=
  [["009"]; ["010"]; ["011"]; ["012"]; ["013"]; [" "];
   ["194"; "133"]; ["194"; "160"]; ["225"; "154"; "128"];
   ["226"; "128"; "128"]; ["226"; "128"; "129"]; ["226"; "128"; "130"];
   ["226"; "128"; "131"]; ["226"; "128"; "132"]; ["226"; "128"; "133"];
   ["226"; "128"; "134"]; ["226"; "128"; "135"]; ["226"; "128"; "136"];
   ["226"; "128"; "137"]; ["226"; "128"; "138"];
   ["226"; "128"; "168"]; ["226"; "128"; "169"]; ["226"; "128"; "175"];
   ["226"; "129"; "159"]; ["227"; "128"; "128"]]%byte.

(** How many bytes of white space [s] starts, or ends, with: one character's. *)
Definition leading_ws (s : bytes) : option nat :=
  length <$> List.find (λ w, starts_with s w) whitespace.
Definition trailing_ws (s : bytes) : option nat :=
  length <$> List.find (λ w, ends_with s w) whitespace.

(** Every round removes a byte, so the length is enough fuel. *)
Fixpoint trim_start_fuel (fuel : nat) (s : bytes) : bytes :=
  match fuel with
  | O => s
  | S fuel => match leading_ws s with
              | Some n => trim_start_fuel fuel (drop n s)
              | None => s
              end
  end.
Definition trim_start (s : bytes) : bytes := trim_start_fuel (length s) s.

Fixpoint trim_end_fuel (fuel : nat) (s : bytes) : bytes :=
  match fuel with
  | O => s
  | S fuel => match trailing_ws s with
              | Some n => trim_end_fuel fuel (take (length s - n) s)
              | None => s
              end
  end.
Definition trim_end (s : bytes) : bytes := trim_end_fuel (length s) s.

Definition trim (s : bytes) : bytes := trim_end (trim_start s).

(** ** Splitting *)

(** [s.split(p)] for a set of ASCII characters. *)
Fixpoint split_by (p : Byte.byte → bool) (s : bytes) : list bytes :=
  match s with
  | [] => [[]]
  | b :: t =>
    if p b then [] :: split_by p t
    else match split_by p t with
         | piece :: pieces => (b :: piece) :: pieces
         | [] => [[b]]
         end
  end.

Definition is_byte (c b : Byte.byte) : bool := bool_decide (b = c).

(** [s.split_once(c)] and [s.rsplit_once(c)]. *)
Fixpoint split_once (c : Byte.byte) (s : bytes) : option (bytes * bytes) :=
  match s with
  | [] => None
  | b :: t => if is_byte c b then Some ([], t)
              else '(l, r) ← split_once c t; Some (b :: l, r)
  end.

Fixpoint rsplit_once (c : Byte.byte) (s : bytes) : option (bytes * bytes) :=
  match s with
  | [] => None
  | b :: t => match rsplit_once c t with
              | Some (l, r) => Some (b :: l, r)
              | None => if is_byte c b then Some ([], t) else None
              end
  end.

Definition strip_prefix (prefix s : bytes) : option bytes :=
  if starts_with s prefix then Some (drop (length prefix) s) else None.
Definition strip_suffix (suffix s : bytes) : option bytes :=
  if ends_with s suffix then Some (take (length s - length suffix) s) else None.

Definition LF : Byte.byte := "010"%byte.
Definition CR : Byte.byte := "013"%byte.

(** [s.lines()]: pieces up to a line feed, without it and without one carriage
    return before it; what follows the last line feed is a line unless empty. *)
Definition strip_cr (l : bytes) : bytes := default l (strip_suffix [CR] l).
Fixpoint lines_of (pieces : list bytes) : list bytes :=
  match pieces with
  | [] => []
  | [last] => match last with [] => [] | _ => [last] end
  | piece :: pieces => strip_cr piece :: lines_of pieces
  end.
Definition lines (s : bytes) : list bytes := lines_of (split_by (is_byte LF) s).

(** The first piece of [s.split(sep)], for a separator that is not empty. *)
Definition split_first (sep s : bytes) : bytes :=
  match window_position s sep with Some i => take i s | None => s end.

(** [s.split_whitespace()], by collecting characters that are not white space;
    on each round a white-space character or a byte is consumed. *)
Fixpoint split_ws_fuel (fuel : nat) (s acc : bytes) : list bytes :=
  let flush := match acc with [] => [] | _ => [acc] end in
  match fuel with
  | O => flush
  | S fuel =>
    match leading_ws s, s with
    | Some n, _ => flush ++ split_ws_fuel fuel (drop n s) []
    | None, b :: t => split_ws_fuel fuel t (acc ++ [b])
    | None, [] => flush
    end
  end.
Definition split_whitespace (s : bytes) : list bytes := split_ws_fuel (S (length s)) s [].

(** ** Numbers *)

Definition digit (b : Byte.byte) : option Z :=
  if in_range 48 57 b then Some (byte_val b - 48)%Z else None.

(** The digits of [s] after the number [acc], or an overflow beyond [max]. *)
Fixpoint parse_digits (max acc : Z) (s : bytes) : option Z :=
  match s with
  | [] => Some acc
  | b :: t => d ← digit b;
              let acc := (acc * 10 + d)%Z in
              if (acc <=? max)%Z then parse_digits max acc t else None
  end.

(** [s.parse::<uN>()] where [max] is the largest [uN]: an optional plus sign and
    at least one digit. *)
Definition parse_unsigned (max : Z) (s : bytes) : option Z :=
  match s with
  | [] => None
  | b :: t =>
    if is_byte "+"%byte b
    then match t with [] => None | _ => parse_digits max 0 t end
    else parse_digits max 0 s
  end.

(** ** Facts *)

Lemma starts_with_drop s w : starts_with s w = true → w ++ drop (length w) s = s.
Proof. intros [t ->]%starts_with_spec. by rewrite drop_app_length. Qed.

Lemma split_by_nonempty p s : split_by p s ≠ [].
Proof.
  destruct s as [|b s]; cbn; [done|].
  destruct (p b); [done|]. by destruct (split_by p s).
Qed.

(** The pieces contain no separator, and there is one more piece than separators. *)
Lemma split_by_pieces p s : Forall (λ piece, Forall (λ b, p b = false) piece) (split_by p s).
Proof.
  induction s as [|b s IH]; cbn; [by repeat constructor|].
  destruct (p b) eqn:E; [by repeat constructor|].
  destruct (split_by p s) as [|piece pieces]; [by repeat constructor|].
  apply Forall_cons in IH as [H1 H2]. by repeat constructor.
Qed.

Lemma split_by_app p a c b :
  p c = true → Forall (λ x, p x = false) a → split_by p (a ++ c :: b) = a :: split_by p b.
Proof.
  intros Hc Ha. induction Ha as [|x a Hx _ IH]; cbn; [by rewrite Hc|].
  by rewrite Hx, IH.
Qed.

Lemma split_by_none p a : Forall (λ x, p x = false) a → split_by p a = [a].
Proof. induction 1 as [|x a Hx _ IH]; cbn; [done|]. by rewrite Hx, IH. Qed.

Lemma split_once_spec c s l r :
  split_once c s = Some (l, r) → s = l ++ c :: r ∧ c ∉ l.
Proof.
  revert l. induction s as [|b s IH]; intros l; cbn; [done|]. unfold is_byte.
  case_bool_decide as Hb.
  - intros [= <- <-]. subst b. split; [done|apply not_elem_of_nil].
  - destruct (split_once c s) as [[l' r']|]; [|done]. cbn. intros [= <- <-].
    destruct (IH l' eq_refl) as [-> Hn]. split; [done|]. by apply not_elem_of_cons.
Qed.

Lemma rsplit_once_None c s : rsplit_once c s = None ↔ c ∉ s.
Proof.
  induction s as [|b s IH]; cbn; [split; [intros _; apply not_elem_of_nil|done]|].
  destruct (rsplit_once c s) as [[l r]|].
  - split; [done|]. intros Hn. apply (not_elem_of_cons s c b) in Hn as [_ Hn].
    by apply IH in Hn.
  - unfold is_byte. case_bool_decide as Hb.
    { subst. split; [done|]. intros []. left. }
    split; [|done]. intros _. apply not_elem_of_cons. split; [done|by apply IH].
Qed.

Lemma rsplit_once_spec c s l r :
  rsplit_once c s = Some (l, r) → s = l ++ c :: r ∧ c ∉ r.
Proof.
  revert l. induction s as [|b s IH]; intros l; cbn; [done|].
  destruct (rsplit_once c s) as [[l' r']|] eqn:E.
  - intros [= <- ->]. destruct (IH l' eq_refl) as [-> Hr]. done.
  - apply rsplit_once_None in E. unfold is_byte. case_bool_decide as Hb; [|done].
    intros [= <- <-]. by subst.
Qed.

Lemma rsplit_once_app c l r : c ∉ r → rsplit_once c (l ++ c :: r) = Some (l, r).
Proof.
  intros Hr. induction l as [|b l IH]; cbn; [|by rewrite IH].
  rewrite (proj2 (rsplit_once_None c r) Hr). unfold is_byte. by rewrite bool_decide_true.
Qed.

(** Joining the pieces with the separator gives the text back. *)
Lemma split_by_join c s p ps :
  split_by (is_byte c) s = p :: ps → s = p ++ concat (cons c <$> ps).
Proof.
  revert p ps. induction s as [|b s IH]; intros p ps; cbn; [by intros [= <- <-]|].
  destruct (is_byte c b) eqn:E.
  - apply bool_decide_eq_true in E as ->. intros [= <- <-].
    destruct (split_by (is_byte c) s) as [|q qs] eqn:Es.
    { by destruct (split_by_nonempty (is_byte c) s). }
    cbn. by rewrite (IH q qs eq_refl).
  - destruct (split_by (is_byte c) s) as [|q qs] eqn:Es.
    { by destruct (split_by_nonempty (is_byte c) s). }
    intros [= <- <-]. cbn. by rewrite (IH q qs eq_refl).
Qed.

(** A word is visible ASCII: no white space, and valid UTF-8. *)
Definition visible (b : Byte.byte) : bool := in_range 33 126 b.

Lemma leading_ws_first s n :
  leading_ws s = Some n →
  ∃ b t, s = b :: t ∧ b ∈ ["009"; "010"; "011"; "012"; "013"; " "; "194"; "225"; "226"; "227"]%byte.
Proof.
  unfold leading_ws. destruct (List.find _ whitespace) as [w|] eqn:E; [|done].
  apply find_some in E as [Hin [t ->]%starts_with_spec]. intros _.
  apply list_elem_of_In in Hin. unfold whitespace in Hin.
  repeat (apply elem_of_cons in Hin as [->|Hin];
    [do 2 eexists; split; [reflexivity|]; apply (bool_decide_unpack _); reflexivity|]).
  by apply elem_of_nil in Hin.
Qed.

Lemma leading_ws_visible b t : visible b = true → leading_ws (b :: t) = None.
Proof.
  intros Hv. destruct (leading_ws (b :: t)) as [n|] eqn:E; [|done].
  apply leading_ws_first in E as (b' & t' & [= <- <-] & Hin).
  repeat (apply elem_of_cons in Hin as [->|Hin]; [discriminate Hv|]).
  by apply elem_of_nil in Hin.
Qed.

Lemma leading_ws_space t : leading_ws (" "%byte :: t) = Some 1%nat.
Proof.
  unfold leading_ws, whitespace, starts_with. cbn. repeat case_bool_decide; try done.
  all: destruct t as [|? [|? ?]]; simplify_eq.
Qed.

Lemma split_ws_word fuel w t acc :
  Forall (λ b, visible b = true) w → (length w ≤ fuel)%nat →
  split_ws_fuel fuel (w ++ t) acc = split_ws_fuel (fuel - length w) t (acc ++ w).
Proof.
  intros Hw. revert fuel acc. induction Hw as [|b w Hb _ IH]; intros fuel acc Hf; cbn.
  { by rewrite Nat.sub_0_r, app_nil_r. }
  destruct fuel as [|fuel]; [cbn in Hf; lia|]. cbn -[leading_ws].
  rewrite leading_ws_visible by done. rewrite IH by (cbn in Hf; lia).
  by rewrite <-app_assoc.
Qed.

Lemma split_ws_space fuel w t :
  w ≠ [] → (0 < fuel)%nat →
  split_ws_fuel fuel (" "%byte :: t) w = w :: split_ws_fuel (fuel - 1) t [].
Proof.
  intros Hw Hf. destruct fuel as [|fuel]; [lia|]. cbn -[leading_ws]. rewrite leading_ws_space.
  destruct w; [done|]. cbn. by rewrite Nat.sub_0_r, drop_0.
Qed.

Lemma split_ws_end fuel w : w ≠ [] → split_ws_fuel fuel [] w = [w].
Proof. intros Hw. destruct w; [done|]. by destruct fuel. Qed.

(** Three words separated by single spaces. *)
Lemma split_whitespace_three a b c :
  Forall (λ x, visible x = true) a → Forall (λ x, visible x = true) b →
  Forall (λ x, visible x = true) c → a ≠ [] → b ≠ [] → c ≠ [] →
  split_whitespace (a ++ " "%byte :: b ++ " "%byte :: c) = [a; b; c].
Proof.
  intros Ha Hb Hc Na Nb Nc. unfold split_whitespace.
  set (fuel := S (length _)).
  assert (fuel = 3 + length a + length b + length c)%nat as Hf.
  { unfold fuel. rewrite length_app. cbn. rewrite length_app. cbn. lia. }
  rewrite split_ws_word by (done || lia). cbn [app].
  rewrite split_ws_space by (done || lia).
  rewrite split_ws_word by (done || lia). cbn [app].
  rewrite split_ws_space by (done || lia).
  rewrite <-(app_nil_r c) at 1. rewrite split_ws_word by (done || lia). cbn [app].
  by rewrite split_ws_end.
Qed.

Lemma valid_utf8_ascii s : Forall (λ b, lead1 b = true) s → valid_utf8 s = true.
Proof.
  intros Hs. apply bool_decide_eq_true. unfold from_utf8. generalize 0%nat.
  induction Hs as [|b s Hb _ IH]; intros pos; cbn; [done|]. rewrite Hb. apply IH.
Qed.

Lemma visible_lead1 b : visible b = true → lead1 b = true.
Proof. unfold visible, lead1, in_range. lia. Qed.

(** The first occurrence of a needle whose first byte does not occur before it. *)
Lemma window_position_fresh a c m t :
  c ∉ a → window_position (a ++ (c :: m) ++ t) (c :: m) = Some (length a).
Proof.
  intros Hc. destruct (window_position (a ++ (c :: m) ++ t) (c :: m)) as [k|] eqn:E.
  - pose proof (window_position_min _ _ _ a t E eq_refl) as Hle.
    apply window_position_Some in E as (t' & Ht & _). f_equal.
    destruct (decide (k = length a)) as [|Hne]; [done|].
    assert (take k (a ++ (c :: m) ++ t) = take k a) as Hk by (apply take_app_le; lia).
    rewrite Hk in Ht.
    assert ((a ++ (c :: m) ++ t) !! k = Some c) as Hl.
    { rewrite Ht, lookup_app_r; rewrite length_take; [|lia].
      by replace (k - Nat.min k (length a))%nat with 0%nat by lia. }
    rewrite lookup_app_l in Hl by lia. by destruct (Hc (list_elem_of_lookup_2 _ _ _ Hl)).
  - by destruct (window_position_None _ _ a t E).
Qed.

(** ** Trimming *)

Lemma trim_start_drop fuel s : ∃ k, trim_start_fuel fuel s = drop k s.
Proof.
  revert s. induction fuel as [|fuel IH]; intros s; cbn -[leading_ws]; [by exists 0%nat|].
  destruct (leading_ws s) as [n|]; [|by exists 0%nat].
  destruct (IH (drop n s)) as [k ->]. exists (n + k)%nat. by rewrite drop_drop.
Qed.

Lemma trim_end_take fuel s : ∃ k, trim_end_fuel fuel s = take k s.
Proof.
  revert s. induction fuel as [|fuel IH]; intros s; cbn -[trailing_ws].
  { exists (length s). by rewrite take_ge. }
  destruct (trailing_ws s) as [n|]; [|exists (length s); by rewrite take_ge].
  destruct (IH (take (length s - n) s)) as [k ->]. eexists. by rewrite take_take.
Qed.

(** What trimming leaves is part of the text. *)
Lemma trim_elem s b : b ∈ trim s → b ∈ s.
Proof.
  unfold trim, trim_end, trim_start.
  destruct (trim_start_drop (length s) s) as [k ->].
  destruct (trim_end_take (length (drop k s)) (drop k s)) as [j ->]. intros H.
  rewrite <-(take_drop k s). apply elem_of_app. right.
  rewrite <-(take_drop j (drop k s)). apply elem_of_app. by left.
Qed.

Lemma trailing_ws_last s n :
  trailing_ws s = Some n → ∃ b t, s = t ++ [b] ∧ visible b = false.
Proof.
  unfold trailing_ws. destruct (List.find _ whitespace) as [w|] eqn:E; [|done].
  apply find_some in E as [Hin [t ->]%ends_with_spec]. intros _.
  assert (Forall (λ w, ∃ e, last w = Some e ∧ visible e = false) whitespace) as Hf
    by (repeat constructor; eexists; done).
  rewrite Forall_forall in Hf. apply list_elem_of_In in Hin.
  destruct (Hf w Hin) as (e & He & Hv). apply last_Some in He as [w' ->].
  exists e, (t ++ w'). by rewrite app_assoc.
Qed.

(** Texts that begin and end with a visible character are already trimmed. *)
Definition clean (s : bytes) : bool :=
  match s with
  | [] => false
  | b :: _ => visible b && match last s with Some e => visible e | None => false end
  end.

Lemma trim_clean s : clean s = true → trim s = s.
Proof.
  intros H. assert (trim_start s = s) as E1.
  { unfold trim_start. destruct s as [|b s]; [done|]. cbn -[leading_ws]. cbn in H.
    apply andb_prop in H as [H _]. by rewrite leading_ws_visible. }
  unfold trim. rewrite E1. unfold trim_end.
  destruct s as [|b s]; [done|]. cbn [length trim_end_fuel].
  destruct (trailing_ws (b :: s)) as [n|] eqn:E; [|done].
  apply trailing_ws_last in E as (e & t & Ht & He). unfold clean in H.
  apply andb_prop in H as [_ H]. rewrite Ht, last_snoc in H. congruence.
Qed.

Lemma clean_nonempty s : clean s = true → s ≠ [].
Proof. by destruct s. Qed.

(** ** UTF-8 and the methods of [str]

    What the methods return of a valid text is valid again, which the type [&str]
    says in the source. *)

(** A text is valid on both sides of a character that starts in it. *)
Lemma valid_utf8_cut a b t :
  valid_utf8 (a ++ b :: t) = true → is_cont b = false →
  valid_utf8 a = true ∧ valid_utf8 (b :: t) = true.
Proof.
  intros Hv Hb. destruct (char_boundary_split (a ++ b :: t) (length a) Hv) as [H1 H2].
  - unfold is_char_boundary. destruct (_ =? 0)%nat; [done|].
    rewrite lookup_app_r, Nat.sub_diag by lia. cbn. by rewrite Hb.
  - rewrite length_app. lia.
  - by rewrite take_app_length in H1; rewrite drop_app_length in H2.
Qed.

Lemma valid_utf8_app_inv_r a b :
  valid_utf8 b = true → valid_utf8 (a ++ b) = true → valid_utf8 a = true.
Proof.
  intros Hb Hab. destruct b as [|x b]; [by rewrite app_nil_r in Hab|].
  by eapply valid_utf8_cut, valid_utf8_head.
Qed.

Lemma whitespace_valid w : In w whitespace → valid_utf8 w = true.
Proof.
  intros Hw. assert (forallb valid_utf8 whitespace = true) as H by by_vm.
  by apply (proj1 (forallb_forall _ _) H).
Qed.

Lemma trim_start_valid fuel s : valid_utf8 s = true → valid_utf8 (trim_start_fuel fuel s) = true.
Proof.
  revert s. induction fuel as [|fuel IH]; intros s Hs; cbn -[leading_ws]; [done|].
  unfold leading_ws. destruct (List.find _ whitespace) as [w|] eqn:E; cbn; [|done].
  apply find_some in E as [Hin%whitespace_valid [t ->]%starts_with_spec].
  rewrite drop_app_length. apply IH. by eapply valid_utf8_app_inv.
Qed.

Lemma trim_end_valid fuel s : valid_utf8 s = true → valid_utf8 (trim_end_fuel fuel s) = true.
Proof.
  revert s. induction fuel as [|fuel IH]; intros s Hs; cbn -[trailing_ws]; [done|].
  unfold trailing_ws. destruct (List.find _ whitespace) as [w|] eqn:E; cbn; [|done].
  apply find_some in E as [Hin%whitespace_valid [t ->]%ends_with_spec].
  rewrite length_app, Nat.add_sub, take_app_length. apply IH. by eapply valid_utf8_app_inv_r.
Qed.

Lemma trim_valid s : valid_utf8 s = true → valid_utf8 (trim s) = true.
Proof. intros Hs. by apply trim_end_valid, trim_start_valid. Qed.

Lemma lead1_not_cont b : lead1 b = true → is_cont b = false.
Proof. unfold lead1, is_cont, in_range. lia. Qed.

Lemma valid_utf8_ascii_cut a c t :
  valid_utf8 (a ++ c :: t) = true → lead1 c = true → valid_utf8 a = true ∧ valid_utf8 t = true.
Proof.
  intros Hv Hc. destruct (valid_utf8_cut _ _ _ Hv (lead1_not_cont _ Hc)) as [H1 H2].
  split; [done|]. apply (valid_utf8_app_inv [c]); [|done]. apply valid_utf8_ascii. by constructor.
Qed.

Lemma split_once_valid c s l r :
  lead1 c = true → valid_utf8 s = true → split_once c s = Some (l, r) →
  valid_utf8 l = true ∧ valid_utf8 r = true.
Proof. intros Hc Hs [-> _]%split_once_spec. by apply (valid_utf8_ascii_cut l c r). Qed.

Lemma split_by_valid p s :
  (∀ b, p b = true → lead1 b = true) → valid_utf8 s = true →
  Forall (λ piece, valid_utf8 piece = true) (split_by p s).
Proof.
  intros Hp. enough (∀ acc, Forall (λ b, p b = false) acc → valid_utf8 (acc ++ s) = true →
    Forall (λ piece, valid_utf8 piece = true) (split_by p (acc ++ s))) as H
    by (intros Hs; by apply (H [])).
  induction s as [|b s IH]; intros acc Ha Hs.
  - rewrite app_nil_r in *. rewrite split_by_none by done. by repeat constructor.
  - destruct (p b) eqn:Eb.
    + rewrite split_by_app by done. destruct (valid_utf8_ascii_cut _ _ _ Hs (Hp _ Eb)) as [H1 H2].
      constructor; [done|]. by apply (IH []).
    + replace (acc ++ b :: s) with ((acc ++ [b]) ++ s) in * by by rewrite <-app_assoc.
      apply IH; [|done]. apply Forall_app. by repeat constructor.
Qed.
