(* ===== verification/NetAddr.v ===== *)
(** * Textual network addresses ([std::net])

    The recursive-descent parser behind [str::parse::<IpAddr>] and
    [str::parse::<SocketAddr>].  A reader takes the text that is left and returns
    a value with what follows it; one that fails consumes nothing. *)

From S2P Require Import Prelude Utf8 RustStr.
Local Open Scope Z_scope.

Abbreviation reader A := (bytes → option (A * bytes)).

Definition read_given_char (c : Byte.byte) : reader unit :=
  λ s, match s with b :: t => if is_byte c b then Some (tt, t) else None | [] => None end.

(** [char::to_digit]. *)
Definition to_digit (radix : Z) (b : Byte.byte) : option Z :=
  let v := byte_val b in
  let d := if in_range 48 57 b then v - 48
           else if in_range 97 122 b then v - 87
           else if in_range 65 90 b then v - 55
           else radix in
  if d <? radix then Some d else None.

(** The longest run of digits: its value and their number. *)
Fixpoint read_digits (radix : Z) (acc : Z) (count : nat) (s : bytes) : Z * nat * bytes :=
  match s with
  | b :: t => match to_digit radix b with
              | Some d => read_digits radix (acc * radix + d) (S count) t
              | None => (acc, count, s)
              end
  | [] => (acc, count, s)
  end.

Definition starts_with_zero (s : bytes) : bool := starts_with s (bstr "0").

(** [read_number]: at most [max_digits] digits, if given, a value of at most
    [max], and no superfluous leading zero unless [allow_zero_prefix]. *)
Definition read_number (radix : Z) (max_digits : option nat) (allow_zero_prefix : bool)
    (max : Z) : reader Z :=
  λ s,
    let '(v, count, rest) := read_digits radix 0 0 s in
    if match max_digits with Some n => (n <? count)%nat | None => false end then None
    else if (count =? 0)%nat then None
    else if negb allow_zero_prefix && starts_with_zero s && (1 <? count)%nat then None
    else if v <=? max then Some (v, rest) else None.

Definition read_separator {A} (sep : Byte.byte) (index : nat) (inner : reader A) : reader A :=
  λ s, if (0 <? index)%nat
       then '(_, s) ← read_given_char sep s; inner s
       else inner s.

(** Reads the groups numbered [index] to 3 of an IPv4 address. *)
Fixpoint read_ipv4_groups (m index : nat) : reader (list Z) :=
  λ s, match m with
       | O => Some ([], s)
       | S n =>
         '(g, s) ← read_separator "."%byte index (read_number 10 (Some 3%nat) false 255) s;
         '(gs, s) ← read_ipv4_groups n (S index) s;
         Some (g :: gs, s)
       end.
Definition read_ipv4_addr : reader (list Z) := read_ipv4_groups 4 0.

(** [read_groups]: up to [m] groups of 16 bits, the last two of which may be
    written as an IPv4 address; tells whether they were. *)
Fixpoint read_groups (m index : nat) (s : bytes) : list Z * bool * bytes :=
  match m with
  | O => ([], false, s)
  | S n =>
    match (if (1 <? m)%nat then read_separator ":"%byte index read_ipv4_addr s else None) with
    | Some (v4, s) =>
      match v4 with
      | [a; b; c; d] => ([a * 256 + b; c * 256 + d], true, s)
      | _ => ([], true, s)
      end
    | None =>
      match read_separator ":"%byte index (read_number 16 (Some 4%nat) true 65535) s with
      | None => ([], false, s)
      | Some (g, s) => let '(gs, v4, s) := read_groups n (S index) s in (g :: gs, v4, s)
      end
    end
  end.

Definition read_ipv6_addr : reader (list Z) :=
  λ s,
    let '(head, head_ipv4, s) := read_groups 8 0 s in
    if (length head =? 8)%nat then Some (head, s)
    else if head_ipv4 then None
    else
      '(_, s) ← read_given_char ":"%byte s;
      '(_, s) ← read_given_char ":"%byte s;
      let limit := (8 - (length head + 1))%nat in
      let '(tail, _, s) := read_groups limit 0 s in
      Some (head ++ replicate (8 - length head - length tail) 0 ++ tail, s).

Inductive IpAddr := V4 (octets : list Z) | V6 (groups : list Z).

Definition read_ip_addr : reader IpAddr :=
  λ s, match read_ipv4_addr s with
       | Some (a, s) => Some (V4 a, s)
       | None => '(a, s) ← read_ipv6_addr s; Some (V6 a, s)
       end.

(** The whole text has to be read. *)
Definition parse_with {A} (r : reader A) (s : bytes) : option A :=
  match r s with Some (a, []) => Some a | _ => None end.

Definition parse_ip_addr : bytes → option IpAddr := parse_with read_ip_addr.

Record SocketAddr := { sa_ip : IpAddr; sa_port : Z; sa_scope_id : Z }.

Definition read_port : reader Z :=
  λ s, '(_, s) ← read_given_char ":"%byte s; read_number 10 None true 65535 s.

Definition read_scope_id : reader Z :=
  λ s, '(_, s) ← read_given_char "%"%byte s; read_number 10 None true u32_max s.

Definition read_socket_addr_v4 : reader SocketAddr :=
  λ s, '(a, s) ← read_ipv4_addr s;
       '(p, s) ← read_port s;
       Some ({| sa_ip := V4 a; sa_port := p; sa_scope_id := 0 |}, s).

Definition read_socket_addr_v6 : reader SocketAddr :=
  λ s, '(_, s) ← read_given_char "["%byte s;
       '(a, s) ← read_ipv6_addr s;
       let '(scope, s) := default (0, s) (read_scope_id s) in
       '(_, s) ← read_given_char "]"%byte s;
       '(p, s) ← read_port s;
       Some ({| sa_ip := V6 a; sa_port := p; sa_scope_id := scope |}, s).

Definition parse_socket_addr : bytes → option SocketAddr :=
  parse_with (λ s, match read_socket_addr_v4 s with
                   | Some r => Some r
                   | None => read_socket_addr_v6 s
                   end).

(** ** What address texts are made of *)

(** [r] only reads characters that satisfy [p]. *)
Definition reads_only {A} (p : Byte.byte → bool) (r : reader A) : Prop :=
  ∀ s a rest, r s = Some (a, rest) → ∃ read, s = read ++ rest ∧ Forall (λ b, p b = true) read.

(** Hexadecimal digits, dots and colons. *)
Definition ip_char (b : Byte.byte) : bool :=
  bool_decide (is_Some (to_digit 16 b)) || is_byte "."%byte b || is_byte ":"%byte b.

Lemma to_digit_ip_char radix b d : radix ≤ 16 → to_digit radix b = Some d → ip_char b = true.
Proof.
  intros Hr H. unfold ip_char. rewrite (bool_decide_true (is_Some _)); [done|].
  unfold to_digit in *. destruct (in_range 48 57 b); [|destruct (in_range 97 122 b);
    [|destruct (in_range 65 90 b)]];
    destruct (_ <? radix) eqn:E; try done; rewrite Z.ltb_lt in E; try lia;
    rewrite (proj2 (Z.ltb_lt _ _)) by lia; eauto.
Qed.

Lemma read_digits_only radix acc count s v n rest :
  radix ≤ 16 → read_digits radix acc count s = (v, n, rest) →
  ∃ read, s = read ++ rest ∧ Forall (λ b, ip_char b = true) read.
Proof.
  intros Hr. revert acc count. induction s as [|b s IH]; intros acc count; cbn.
  { intros [= <- <- <-]. by exists []. }
  destruct (to_digit radix b) as [d|] eqn:E.
  - intros H. destruct (IH _ _ H) as (read & -> & Hf). exists (b :: read).
    split; [done|]. constructor; [|done]. eauto using to_digit_ip_char.
  - intros [= <- <- <-]. by exists [].
Qed.

Lemma read_number_only radix md zp max :
  radix ≤ 16 → reads_only ip_char (read_number radix md zp max).
Proof.
  intros Hr s a rest. unfold read_number.
  destruct (read_digits radix 0 0 s) as [[v n] rest'] eqn:E. intros H.
  assert (rest' = rest) as <- by (repeat case_match; congruence).
  eauto using read_digits_only.
Qed.

Lemma read_given_only c : ip_char c = true → reads_only ip_char (read_given_char c).
Proof.
  intros Hc [|b s] a rest; cbn; [done|]. unfold is_byte. case_bool_decide as Hb; [|done].
  intros [= <- <-]. exists [b]. subst b. split; [done|]. by repeat constructor.
Qed.

(** Readers one after the other. *)
Lemma reads_only_bind {A B C} p (r : reader A) (k : A → reader B) (f : A → B → C) :
  reads_only p r → (∀ a, reads_only p (k a)) →
  reads_only p (λ s, '(a, s) ← r s; '(b, s) ← k a s; Some (f a b, s)).
Proof.
  intros Hr Hk s c rest. destruct (r s) as [[a s1]|] eqn:E1; cbn; [|done].
  destruct (k a s1) as [[b s2]|] eqn:E2; cbn; [|done]. intros [= <- <-].
  destruct (Hr _ _ _ E1) as (x & -> & Hx). destruct (Hk _ _ _ _ E2) as (y & -> & Hy).
  exists (x ++ y). rewrite <-app_assoc. split; [done|]. by apply Forall_app.
Qed.

Lemma read_separator_only {A} sep index (r : reader A) :
  ip_char sep = true → reads_only ip_char r → reads_only ip_char (read_separator sep index r).
Proof.
  intros Hs Hr s a rest. unfold read_separator. destruct (0 <? index)%nat; [|apply Hr].
  destruct (read_given_char sep s) as [[u s1]|] eqn:E; cbn; [|done]. intros E2.
  destruct (read_given_only _ Hs _ _ _ E) as (x & -> & Hx).
  destruct (Hr _ _ _ E2) as (y & -> & Hy).
  exists (x ++ y). rewrite <-app_assoc. split; [done|]. by apply Forall_app.
Qed.

Lemma read_ipv4_groups_only m index : reads_only ip_char (read_ipv4_groups m index).
Proof.
  revert index. induction m as [|m IH]; intros index.
  - intros s a rest [= <- <-]. by exists [].
  - apply (reads_only_bind _ (read_separator "."%byte index (read_number 10 (Some 3%nat) false 255))
             (λ _, read_ipv4_groups m (S index)) cons); [|eauto].
    by apply read_separator_only, read_number_only.
Qed.

Lemma read_groups_only m index s gs v4 rest :
  read_groups m index s = (gs, v4, rest) →
  ∃ read, s = read ++ rest ∧ Forall (λ b, ip_char b = true) read.
Proof.
  revert index s gs v4. induction m as [|m IH]; intros index s gs v4; cbn [read_groups].
  { intros [= <- <- <-]. by exists []. }
  destruct (if (1 <? S m)%nat then read_separator ":"%byte index read_ipv4_addr s else None)
    as [[v s1]|] eqn:E1.
  - assert (read_separator ":"%byte index read_ipv4_addr s = Some (v, s1)) as E
      by (by destruct (1 <? S m)%nat).
    intros H. assert (rest = s1) as -> by (repeat case_match; congruence).
    eapply read_separator_only; [| |exact E]; [done|apply read_ipv4_groups_only].
  - destruct (read_separator _ _ (read_number _ _ _ _) s) as [[g s2]|] eqn:E2.
    + destruct (read_groups m (S index) s2) as [[gs' v'] s3] eqn:E3. intros [= <- <- <-].
      destruct (read_separator_only ":"%byte index (read_number 16 (Some 4%nat) true 65535)
        eq_refl (read_number_only 16 _ _ _ (Z.le_refl 16)) _ _ _ E2) as (x & -> & Hx).
      destruct (IH _ _ _ _ E3) as (y & -> & Hy).
      exists (x ++ y). rewrite <-app_assoc. split; [done|]. by apply Forall_app.
    + intros [= <- <- <-]. by exists [].
Qed.

Lemma read_ipv6_only : reads_only ip_char read_ipv6_addr.
Proof.
  intros s a rest. unfold read_ipv6_addr.
  destruct (read_groups 8 0 s) as [[h v] s1] eqn:E1.
  destruct (read_groups_only _ _ _ _ _ _ E1) as (x & -> & Hx).
  destruct (length h =? 8)%nat. { intros [= <- <-]. eauto. }
  destruct v; [done|].
  destruct (read_given_char _ s1) as [[u s2]|] eqn:E2; cbn; [|done].
  destruct (read_given_char _ s2) as [[u' s3]|] eqn:E3; cbn; [|done].
  destruct (read_groups _ 0 s3) as [[t v] s4] eqn:E4. intros [= <- <-].
  destruct (read_given_only ":"%byte eq_refl _ _ _ E2) as (y & -> & Hy).
  destruct (read_given_only ":"%byte eq_refl _ _ _ E3) as (z & -> & Hz).
  destruct (read_groups_only _ _ _ _ _ _ E4) as (q & -> & Hq).
  exists (x ++ y ++ z ++ q). rewrite <-!app_assoc. split; [done|].
  repeat (apply Forall_app; split; [done|]). done.
Qed.

(** An address text is made of hexadecimal digits, dots and colons. *)
Lemma parse_ip_addr_chars s a : parse_ip_addr s = Some a → Forall (λ b, ip_char b = true) s.
Proof.
  unfold parse_ip_addr, parse_with, read_ip_addr.
  destruct (read_ipv4_addr s) as [[v rest]|] eqn:E.
  - destruct rest; [|done]. intros _. apply read_ipv4_groups_only in E as (x & -> & Hx).
    by rewrite app_nil_r.
  - destruct (read_ipv6_addr s) as [[v rest]|] eqn:E6; cbn; [|done].
    destruct rest; [|done]. intros _. apply read_ipv6_only in E6 as (x & -> & Hx).
    by rewrite app_nil_r.
Qed.
