(* ===== verification/AhoCorasick.v ===== *)
(** * The multi-pattern searcher the engine calls

    The [aho_corasick] crate is not part of the repository: it enters the
    development as the class [AhoCorasickApi], and what its documentation says
    of a searcher built with [ascii_case_insensitive(true)] and the default
    [MatchKind::Standard] is the class [AhoCorasickLaws]:

    - [find_iter] yields non-overlapping occurrences from left to right and, at
      each point, reports the occurrence that is seen first, that is, one whose
      end is the smallest (when several patterns end at the same place the
      documentation does not say which one is reported, and neither do the
      laws);
    - [find] is the first element of [find_iter].

    [NaiveSearch] is a brute-force searcher that satisfies the laws; concrete
    inputs are evaluated with it. *)

From S2P Require Import Prelude Utf8.

(** ** ASCII case folding *)

Definition to_ascii_lowercase (b : Byte.byte) : Byte.byte :=
  if in_range 65 90 b then default b (Byte.of_N (Byte.to_N b + 32)) else b.

Definition fold_case (l : bytes) : bytes := to_ascii_lowercase <$> l.

Lemma fold_case_app a b : fold_case (a ++ b) = fold_case a ++ fold_case b.
Proof. apply fmap_app. Qed.

Lemma fold_case_sub s e l : fold_case (sub s e l) = sub s e (fold_case l).
Proof. unfold sub, fold_case. by rewrite fmap_take, fmap_drop. Qed.

Lemma length_fold_case l : length (fold_case l) = length l.
Proof. apply length_fmap. Qed.

(** Folding only moves ASCII letters: continuation bytes stay what they are. *)
Lemma is_cont_lowercase b : is_cont (to_ascii_lowercase b) = is_cont b.
Proof. by destruct b; vm_compute. Qed.

(** ** Occurrences and matches *)

Record Match := { m_pattern : nat; m_start : nat; m_end : nat }.

(** Pattern number [i] occurs in [h] from [s] to [e], up to ASCII case. *)
Definition occurs (ps : list bytes) (h : bytes) (i s e : nat) : Prop :=
  ∃ p, ps !! i = Some p ∧ e = s + length p ∧ e ≤ length h ∧
       fold_case (sub s e h) = fold_case p.

(** Non-overlapping matches of [ps] in [h] from position [from] on, each being
    the one whose end is seen first. *)
Inductive std_matches (ps : list bytes) (h : bytes) : nat → list Match → Prop :=
| std_done from :
    (∀ i s e, occurs ps h i s e → s < from) →
    std_matches ps h from []
| std_next from m ms :
    occurs ps h (m_pattern m) (m_start m) (m_end m) →
    from ≤ m_start m →
    (∀ i s e, occurs ps h i s e → from ≤ s → m_end m ≤ e) →
    std_matches ps h (m_end m) ms →
    std_matches ps h from (m :: ms).

Class AhoCorasickApi := {
  AhoCorasick : Type;
  ac_build : list bytes → option AhoCorasick;
  ac_find_iter : AhoCorasick → bytes → list Match;
  ac_find : AhoCorasick → bytes → option Match
}.

Class AhoCorasickLaws `{!AhoCorasickApi} := {
  ac_find_iter_std ps a h :
    ac_build ps = Some a → Forall (λ p, p ≠ []) ps →
    std_matches ps h 0 (ac_find_iter a h);
  ac_find_head a h : ac_find a h = head (ac_find_iter a h)
}.

(** ** Consequences of the laws *)

Lemma occurs_bounds ps h i s e :
  Forall (λ p, p ≠ []) ps → occurs ps h i s e → s < e ∧ e ≤ length h ∧ i < length ps.
Proof.
  intros Hne (p & Hp & -> & He & _). rewrite Forall_lookup in Hne.
  pose proof (Hne _ _ Hp). split_and!; [destruct p; [done|cbn; lia]|done|].
  by eapply lookup_lt_Some.
Qed.

Lemma std_matches_weaken ps h from from' ms :
  from' ≤ from → (∀ i s e, occurs ps h i s e → from' ≤ s → from ≤ s) →
  std_matches ps h from ms → std_matches ps h from' ms.
Proof.
  intros Hle Hgap H. inversion H as [? Hd|? m ms' Ho Hs He Hr]; subst.
  - constructor. intros i s e Ho. destruct (decide (s < from')); [done|].
    pose proof (Hgap _ _ _ Ho ltac:(lia)). pose proof (Hd _ _ _ Ho). lia.
  - constructor; [done|lia| |done]. intros i s e Ho' Hs'. eauto.
Qed.

(** ** A brute-force searcher *)

Module NaiveSearch.

(** The first pattern that ends at [e] and starts at [from] or later. *)
Fixpoint find_end (ps : list bytes) (i : nat) (h : bytes) (from e : nat) : option Match :=
  match ps with
  | [] => None
  | p :: ps =>
    if (from + length p <=? e)%nat && bool_decide (fold_case (sub (e - length p) e h) = fold_case p)
    then Some {| m_pattern := i; m_start := e - length p; m_end := e |}
    else find_end ps (S i) h from e
  end.

Fixpoint scan (ps : list bytes) (h : bytes) (from e n : nat) : list Match :=
  match n with
  | 0 => []
  | S n => match find_end ps 0 h from e with
           | Some m => m :: scan ps h e (S e) n
           | None => scan ps h from (S e) n
           end
  end.

Definition find_iter (ps : list bytes) (h : bytes) : list Match :=
  scan ps h 0 1 (length h).

#[export] Instance api : AhoCorasickApi := {|
  AhoCorasick := list bytes;
  ac_build := Some;
  ac_find_iter := find_iter;
  ac_find ps h := head (find_iter ps h)
|}.

Lemma find_end_Some ps k h from e m :
  find_end ps k h from e = Some m → e ≤ length h →
  ∃ i p, ps !! i = Some p ∧ m = {| m_pattern := k + i; m_start := e - length p; m_end := e |} ∧
         from + length p ≤ e ∧ fold_case (sub (e - length p) e h) = fold_case p.
Proof.
  revert k. induction ps as [|p ps IH]; intros k H He; cbn in H; [done|].
  destruct (_ && _) eqn:E in H.
  - bool_props. apply Nat.leb_le in H0. injection H as <-.
    exists 0, p. rewrite Nat.add_0_r. done.
  - apply IH in H as (i & p' & Hi & -> & ?); [|done].
    exists (S i), p'. rewrite Nat.add_succ_r. done.
Qed.

Lemma find_end_None ps k h from e i s :
  find_end ps k h from e = None → occurs ps h i s e → s < from.
Proof.
  revert k i. induction ps as [|p ps IH]; intros k i H (q & Hq & -> & Hl & Hf);
    cbn in H; [done|].
  destruct (_ && _) eqn:E in H; [done|].
  destruct i as [|i]; cbn in Hq.
  - injection Hq as ->. apply andb_false_iff in E as [E|E].
    + apply Nat.leb_gt in E. lia.
    + apply bool_decide_eq_false in E. exfalso. apply E.
      by replace (s + length q - length q) with s by lia.
  - eapply IH; [done|]. exists q. eauto.
Qed.

Lemma scan_std ps h from e n :
  Forall (λ p, p ≠ []) ps →
  e + n = S (length h) → from < e →
  (∀ i s e', occurs ps h i s e' → from ≤ s → e ≤ e') →
  std_matches ps h from (scan ps h from e n).
Proof.
  intros Hne. revert from e. induction n as [|n IH]; intros from e Hn Hfe Hinv; cbn.
  { constructor. intros i s e' Ho. destruct (decide (s < from)); [done|].
    pose proof (Hinv _ _ _ Ho ltac:(lia)).
    apply occurs_bounds in Ho as (_ & ? & _); [lia|done]. }
  destruct (find_end ps 0 h from e) as [m|] eqn:E.
  - apply find_end_Some in E as (i & p & Hp & -> & Hl & Hf); [|lia]. cbn.
    assert (occurs ps h i (e - length p) e) as Ho by (exists p; split_and!; [done|lia..|done]).
    constructor; cbn; [done|lia| |].
    + intros j s e' Ho' Hs. eauto.
    + apply IH; [lia|lia|]. intros j s e' Ho' Hs.
      apply occurs_bounds in Ho' as (? & _); [lia|done].
  - apply IH; [lia|lia|]. intros i s e' Ho Hs.
    pose proof (Hinv _ _ _ Ho Hs). destruct (decide (e = e')) as [->|]; [|lia].
    pose proof (find_end_None _ _ _ _ _ _ _ E Ho). lia.
Qed.

#[export] Instance laws : AhoCorasickLaws.
Proof.
  split; [|done]. intros ps a h [= <-] Hne. cbn.
  apply scan_std; [done|lia|lia|]. intros i s e Ho _.
  apply occurs_bounds in Ho as [? _]; [lia|done].
Qed.

End NaiveSearch.
