(* ===== verification/Externals.v ===== *)
(** * Cryptography and serialization the proxy calls

    [blake3], [ed25519_dalek], [base64], [hex] and [serde_json] are crates the
    repository only calls.  Each is a class of operations with, next to it, a
    class of the documented facts the theorems use:

    - hashing a stream piecewise is hashing its concatenation;
    - a signature made with a key verifies under its public key;
    - the text encodings (hexadecimal, Base64, JSON) can be read back.

    [Transparent] instantiates all of them with the simplest functions that
    satisfy the laws (the identity for the digest), so that concrete runs can be
    evaluated and show what was hashed and signed. *)

From S2P Require Import Prelude.

Class Blake3Api := {
  Hasher : Type;
  hasher_new : Hasher;
  hasher_update : Hasher → bytes → Hasher;
  hasher_finalize : Hasher → bytes;
  blake3_hash : bytes → bytes
}.

Class Blake3Laws `{!Blake3Api} := {
  blake3_incremental chunks :
    hasher_finalize (foldl hasher_update hasher_new chunks) = blake3_hash (concat chunks)
}.

Class Ed25519Api := {
  SigningKey : Type;
  VerifyingKey : Type;
  verifying_key : SigningKey → VerifyingKey;
  vk_as_bytes : VerifyingKey → bytes;
  sign : SigningKey → bytes → bytes;
  verify : VerifyingKey → bytes → bytes → bool
}.

Class Ed25519Laws `{!Ed25519Api} := {
  verify_sign sk m : verify (verifying_key sk) m (sign sk m) = true
}.

(** [hex::encode] / [Hash::to_hex] and [base64::STANDARD], with their decoders. *)
Class EncodingApi := {
  hex_encode : bytes → bytes;
  hex_decode : bytes → option bytes;
  b64_encode : bytes → bytes;
  b64_decode : bytes → option bytes
}.

Class EncodingLaws `{!EncodingApi} := {
  hex_decode_encode b : hex_decode (hex_encode b) = Some b;
  b64_decode_encode b : b64_decode (b64_encode b) = Some b
}.

Lemma hex_encode_inj `{EncodingLaws} a b : hex_encode a = hex_encode b → a = b.
Proof.
  intros H'%(f_equal hex_decode). rewrite !hex_decode_encode in H'. by simplify_eq.
Qed.

(** [serde_json::to_string] of a string and [serde_json::to_vec] of a pair of
    string vectors; [None] is a serialization error. *)
Class SerdeJsonApi := {
  json_string : bytes → option bytes;
  json_policy : list bytes → list bytes → option bytes
}.

Class SerdeJsonLaws `{!SerdeJsonApi} := {
  json_policy_inj ps rs ps' rs' x :
    json_policy ps rs = Some x → json_policy ps' rs' = Some x → ps = ps' ∧ rs = rs'
}.

(** [x] and [y] are a collision of the hash.  A hash of fixed length has collisions,
    so a theorem about digests always names the two texts that would have to be
    one. *)
Definition collides `{Blake3Api} (x y : bytes) : Prop := x ≠ y ∧ blake3_hash x = blake3_hash y.

(** ** Streams of updates *)

(** The hasher [h] has absorbed exactly the bytes [d]. *)
Definition absorbed `{Blake3Api} (h : Hasher) (d : bytes) : Prop :=
  ∃ chunks, h = foldl hasher_update hasher_new chunks ∧ concat chunks = d.

Section Absorbed.
Context `{Blake3Laws}.

Lemma absorbed_new : absorbed hasher_new [].
Proof. by exists []. Qed.

Lemma absorbed_update h d x : absorbed h d → absorbed (hasher_update h x) (d ++ x).
Proof.
  intros (cs & -> & <-). exists (cs ++ [x]).
  rewrite foldl_app, concat_app. cbn. by rewrite app_nil_r.
Qed.

Lemma absorbed_finalize h d : absorbed h d → hasher_finalize h = blake3_hash d.
Proof. intros (cs & -> & <-). apply blake3_incremental. Qed.
End Absorbed.

#[export] Hint Resolve absorbed_new absorbed_update : pxy.

(** ** Instances for evaluation *)

Module Transparent.

#[export] Instance blake3 : Blake3Api := {|
  Hasher := bytes;
  hasher_new := [];
  hasher_update h x := h ++ x;
  hasher_finalize h := h;
  blake3_hash x := x
|}.

#[export] Instance blake3_laws : Blake3Laws.
Proof.
  split. intros cs. cbn.
  assert (∀ h : bytes, foldl (λ h x, h ++ x) h cs = h ++ concat cs) as E; [|by rewrite E].
  induction cs as [|c cs IH]; intros h; cbn; [by rewrite app_nil_r|].
  by rewrite IH, app_assoc.
Qed.

#[export] Instance ed25519 : Ed25519Api := {|
  SigningKey := bytes;
  VerifyingKey := bytes;
  verifying_key sk := sk;
  vk_as_bytes vk := vk;
  sign sk m := sk ++ m;
  verify vk m sg := bool_decide (sg = vk ++ m)
|}.

#[export] Instance ed25519_laws : Ed25519Laws.
Proof. split. intros sk m. by apply bool_decide_eq_true. Qed.

#[export] Instance encoding : EncodingApi := {|
  hex_encode b := b; hex_decode := Some; b64_encode b := b; b64_decode := Some
|}.

#[export] Instance encoding_laws : EncodingLaws.
Proof. by split. Qed.

(** Length-prefixed lists: one marker byte per element, a separator, then the
    elements, each with its own marker bytes. *)
Definition unary (n : nat) : bytes := replicate n "1"%byte ++ ["0"%byte].
Definition pack (l : list bytes) : bytes :=
  unary (length l) ++ concat ((λ b : bytes, unary (length b) ++ b) <$> l).

Lemma unary_inj n m x y : unary n ++ x = unary m ++ y → n = m ∧ x = y.
Proof.
  revert m. induction n as [|n IH]; intros [|m] E; cbn in E; try done.
  - by injection E as ->.
  - injection E as E. apply IH in E as [-> ->]. done.
Qed.

Lemma pack_inj l k x y : pack l ++ x = pack k ++ y → l = k ∧ x = y.
Proof.
  unfold pack. rewrite <-!app_assoc. intros [El E]%unary_inj.
  revert k El E. induction l as [|a l IH]; intros [|b k] El E; cbn in *; try done.
  rewrite <-!app_assoc in E. apply unary_inj in E as [Eab E].
  apply app_inj_1 in E as [-> E]; [|done].
  injection El as El. apply IH in E as [-> ->]; done.
Qed.

#[export] Instance serde_json : SerdeJsonApi := {|
  json_string b := Some ("034"%byte :: b ++ ["034"%byte]);
  json_policy ps rs := Some (pack ps ++ pack rs)
|}.

#[export] Instance serde_json_laws : SerdeJsonLaws.
Proof.
  split. intros ps rs ps' rs' x [= <-] [= E].
  apply pack_inj in E as [-> E].
  rewrite <-(app_nil_r (pack rs')), <-(app_nil_r (pack rs)) in E.
  by apply pack_inj in E as [-> _].
Qed.

End Transparent.
