(* ===== verification/Receipt.v ===== *)
(** * Signed redaction receipts ([src/lib.rs])

    [canonical_receipt_digest] hashes the seven fields of a receipt in a
    length-prefixed encoding; [build_proxy_audit_frame] wraps the JSON receipt
    and its signature in a server-sent event.  The clock is an argument. *)

From S2P Require Import Prelude Utf8 Externals.
Local Open Scope Z_scope.

Definition byte_of_Z (z : Z) : Byte.byte :=
  default "000"%byte (Byte.of_N (Z.to_N (z mod 256))).

(** [u64::to_be_bytes]. *)
Fixpoint be_bytes (n : nat) (z : Z) : bytes :=
  match n with
  | O => []
  | S n => byte_of_Z (z / 2 ^ (8 * Z.of_nat n)) :: be_bytes n z
  end.
Definition u64_to_be_bytes (z : Z) : bytes := be_bytes 8 z.
Arguments u64_to_be_bytes : simpl never.

(** The seven fields, in the order they are hashed. *)
Record ReceiptFields := {
  rf_request_id : bytes;
  rf_tenant_id : bytes;
  rf_upstream_url : bytes;
  rf_request_hash : bytes;
  rf_policy_digest : bytes;
  rf_pcr0 : bytes;
  rf_response_hash : bytes
}.

Definition field_list (f : ReceiptFields) : list bytes :=
  [rf_request_id f; rf_tenant_id f; rf_upstream_url f; rf_request_hash f;
   rf_policy_digest f; rf_pcr0 f; rf_response_hash f].

(** The loop that fills [canonical]. *)
Definition canonical_bytes (fields : list bytes) : bytes :=
  foldl (λ canonical field, canonical ++ u64_to_be_bytes (blen field) ++ field) [] fields.

Record AttestedReceipt := {
  ar_request_id : bytes;
  ar_tenant_id : bytes;
  ar_upstream_url : bytes;
  ar_request_hash : bytes;
  ar_payload_hash : bytes;
  ar_policy_digest : bytes;
  ar_pcr0 : bytes;
  ar_tuple_digest : bytes;
  ar_timestamp : Z
}.

(** [serde_json::to_vec] of a receipt: a record of strings and an integer always
    serializes, to UTF-8 text from which it can be read back. *)
Class ReceiptJsonApi := { json_receipt : AttestedReceipt → option bytes }.
Class ReceiptJsonLaws `{!ReceiptJsonApi} := {
  json_receipt_total r : ∃ j, json_receipt r = Some j ∧ valid_utf8 j = true
}.

Section Receipt.
Context {b3_api : Blake3Api} {sig_api : Ed25519Api} {enc_api : EncodingApi}
  {rj_api : ReceiptJsonApi}.

Definition canonical_receipt_digest (f : ReceiptFields) : bytes :=
  blake3_hash (canonical_bytes (field_list f)).

Definition newline : Byte.byte := "010"%byte.
Definition dquote : Byte.byte := "034"%byte.

Definition build_proxy_audit_frame (receipt_json signature : bytes) : bytes :=
  let receipt_json := from_utf8_lossy receipt_json in
  [newline] ++ bstr "event: proxy_audit" ++ [newline]
    ++ bstr "data: {" ++ [dquote] ++ bstr "receipt" ++ [dquote] ++ bstr ": "
    ++ receipt_json ++ bstr ", " ++ [dquote] ++ bstr "signature" ++ [dquote] ++ bstr ": "
    ++ [dquote] ++ signature ++ [dquote] ++ bstr "}" ++ [newline; newline].

(** The receipt for the fields [f] at time [now]. *)
Definition attested_receipt (f : ReceiptFields) (now : Z) : AttestedReceipt := {|
  ar_request_id := rf_request_id f;
  ar_tenant_id := rf_tenant_id f;
  ar_upstream_url := rf_upstream_url f;
  ar_request_hash := rf_request_hash f;
  ar_payload_hash := rf_response_hash f;
  ar_policy_digest := rf_policy_digest f;
  ar_pcr0 := rf_pcr0 f;
  ar_tuple_digest := hex_encode (canonical_receipt_digest f);
  ar_timestamp := now
|}.

(** The audit event for the fields [f]: serialize, sign, frame.  [None] is the
    panic of [expect("receipt should serialize")]. *)
Definition audit_frame (f : ReceiptFields) (private_key : SigningKey) (now : Z)
    : option bytes :=
  receipt_json ← json_receipt (attested_receipt f now);
  let signature := sign private_key (canonical_receipt_digest f) in
  Some (build_proxy_audit_frame receipt_json (b64_encode signature)).

End Receipt.

(** ** The encoding is injective *)

Lemma byte_of_Z_val z : byte_val (byte_of_Z z) = z mod 256.
Proof.
  unfold byte_of_Z, byte_val. pose proof (Z.mod_pos_bound z 256 ltac:(lia)) as Hb.
  destruct (Byte.of_N (Z.to_N (z mod 256))) as [b|] eqn:E; cbn.
  - apply Byte.to_of_N in E. rewrite E. rewrite Z2N.id by lia. done.
  - apply Byte.of_N_None_iff in E. lia.
Qed.

Lemma length_be_bytes n z : length (be_bytes n z) = n.
Proof. induction n; cbn; congruence. Qed.

Lemma be_bytes_inj n z z' :
  be_bytes n z = be_bytes n z' → z mod 2 ^ (8 * Z.of_nat n) = z' mod 2 ^ (8 * Z.of_nat n).
Proof.
  induction n as [|n IH]; intros E; [by rewrite !Z.mod_1_r|].
  cbn in E. injection E as Eb E. apply IH in E.
  apply (f_equal byte_val) in Eb. rewrite !byte_of_Z_val in Eb.
  replace (8 * Z.of_nat (S n)) with (8 * Z.of_nat n + 8) by lia.
  rewrite Z.pow_add_r by lia. change (2 ^ 8) with 256.
  rewrite !Z.rem_mul_r by (try apply Z.pow_nonzero; lia). congruence.
Qed.

Lemma u64_be_inj z z' :
  0 ≤ z < 2 ^ 64 → 0 ≤ z' < 2 ^ 64 → u64_to_be_bytes z = u64_to_be_bytes z' → z = z'.
Proof.
  intros H H' E%be_bytes_inj. change (8 * Z.of_nat 8) with 64 in E.
  by rewrite !Z.mod_small in E.
Qed.

Lemma canonical_bytes_cons fields :
  canonical_bytes fields = concat ((λ f, u64_to_be_bytes (blen f) ++ f) <$> fields).
Proof.
  unfold canonical_bytes.
  assert (∀ acc, foldl (λ canonical field, canonical ++ u64_to_be_bytes (blen field) ++ field)
                   acc fields
                 = acc ++ concat ((λ f, u64_to_be_bytes (blen f) ++ f) <$> fields)) as K;
    [|by rewrite K].
  induction fields as [|f fields IH]; intros acc; cbn; [by rewrite app_nil_r|].
  by rewrite IH, <-app_assoc.
Qed.

(** Two lists with as many fields, each shorter than 2^64 bytes. *)
Lemma canonical_bytes_inj fs fs' :
  length fs = length fs' →
  Forall (λ f, blen f < 2 ^ 64) fs → Forall (λ f, blen f < 2 ^ 64) fs' →
  canonical_bytes fs = canonical_bytes fs' → fs = fs'.
Proof.
  rewrite !canonical_bytes_cons. intros Hl H. revert fs' Hl.
  induction H as [|f fs Hf _ IH]; intros [|f' fs'] Hl H' E; try done.
  apply Forall_cons in H' as [Hf' H']. cbn in E. rewrite <-!app_assoc in E.
  apply app_inj_1 in E as [E1 E]; [|unfold u64_to_be_bytes; by rewrite !length_be_bytes].
  apply u64_be_inj in E1; [|unfold blen in *; lia..].
  apply app_inj_1 in E as [-> E]; [|unfold blen in E1; lia].
  f_equal. apply IH; [by injection Hl|done|done].
Qed.

(** A field longer than the machine's address space cannot exist. *)
Definition fields_bounded (f : ReceiptFields) : bool :=
  forallb (λ x, blen x <? 2 ^ 64) (field_list f).

Section Theorems.
Context {b3_api : Blake3Api} {sig_api : Ed25519Api} {enc_api : EncodingApi}
  {rj_api : ReceiptJsonApi}.

(** C15: The signed digest binds the seven fields: receipts that differ in request
    id, tenant, upstream, request hash, policy, PCR0 or response hash are hashed
    from different bytes, so no field can be shifted into its neighbour, and their
    tuple digests differ unless BLAKE3 collides on exactly these two encodings. *)
Theorem receipt_digest_binding f f' :
  fields_bounded f = true → fields_bounded f' = true → f ≠ f' →
  canonical_bytes (field_list f) ≠ canonical_bytes (field_list f') ∧
  (~ collides (canonical_bytes (field_list f)) (canonical_bytes (field_list f')) →
   canonical_receipt_digest f ≠ canonical_receipt_digest f').
Proof.
  unfold canonical_receipt_digest, fields_bounded. rewrite !forallb_forall. intros H H' Hne.
  assert (canonical_bytes (field_list f) ≠ canonical_bytes (field_list f')) as Hc.
  { intros Ec. apply canonical_bytes_inj in Ec; [|done|..].
    - destruct f, f'. unfold field_list in Ec. cbn in Ec. congruence.
    - apply Forall_forall. intros x Hx%list_elem_of_In. apply Z.ltb_lt. auto.
    - apply Forall_forall. intros x Hx%list_elem_of_In. apply Z.ltb_lt. auto. }
  split; [done|]. intros Hcol E. by apply Hcol.
Qed.

(** The signature in an audit frame can be checked: the frame carries, in
    Base64, a signature of the tuple digest that verifies under the proxy's
    public key, next to the JSON of a receipt whose [tuple_digest] field is that
    digest in hexadecimal. *)
Theorem audit_frame_verifies {sig_laws : Ed25519Laws} {enc_laws : EncodingLaws}
    {rj_laws : ReceiptJsonLaws} f key now :
  ∃ json sig64 sig, audit_frame f key now = Some (build_proxy_audit_frame json sig64) ∧
    json_receipt (attested_receipt f now) = Some json ∧
    from_utf8_lossy json = json ∧
    b64_decode sig64 = Some sig ∧
    verify (verifying_key key) (canonical_receipt_digest f) sig = true ∧
    hex_decode (ar_tuple_digest (attested_receipt f now)) = Some (canonical_receipt_digest f).
Proof.
  destruct (json_receipt_total (attested_receipt f now)) as (j & Hj & Hv).
  eexists j, _, _. unfold audit_frame. rewrite Hj. cbn. split_and!.
  - done.
  - done.
  - by apply from_utf8_lossy_valid.
  - apply b64_decode_encode.
  - apply verify_sign.
  - apply hex_decode_encode.
Qed.

End Theorems.

(** ** An instance for evaluation *)

Module TransparentReceipt.

(** The receipt's payload hash, between brackets, stands for its JSON text. *)
#[export] Instance receipt_json : ReceiptJsonApi := {|
  json_receipt r := Some (if valid_utf8 (ar_payload_hash r) then ar_payload_hash r else [])
|}.

#[export] Instance receipt_json_laws : ReceiptJsonLaws.
Proof.
  split. intros r. eexists. split; [reflexivity|].
  by destruct (valid_utf8 (ar_payload_hash r)) eqn:E.
Qed.

Definition fields : ReceiptFields := {|
  rf_request_id := bstr "request-1"; rf_tenant_id := bstr "tenant-1";
  rf_upstream_url := bstr "https://upstream.example"; rf_request_hash := bstr "request-hash-1";
  rf_policy_digest := bstr "policy-1"; rf_pcr0 := bstr "pcr0-1";
  rf_response_hash := bstr "9f3d74c4"
|}.

(** The same bytes in a row, with the end of the first field in the second. *)
Definition shifted : ReceiptFields := {|
  rf_request_id := bstr "request-"; rf_tenant_id := bstr "1tenant-1";
  rf_upstream_url := bstr "https://upstream.example"; rf_request_hash := bstr "request-hash-1";
  rf_policy_digest := bstr "policy-1"; rf_pcr0 := bstr "pcr0-1";
  rf_response_hash := bstr "9f3d74c4"
|}.

Definition key : @SigningKey Transparent.ed25519 := bstr "key".

End TransparentReceipt.

Import Transparent TransparentReceipt.

Lemma receipt_digest_binding_witness :
  concat (field_list fields) = concat (field_list shifted) ∧
  canonical_receipt_digest fields ≠ canonical_receipt_digest shifted.
Proof.
  split; [by_vm|]. apply (receipt_digest_binding fields shifted); [by_vm|by_vm| |].
  - discriminate.
  - intros [Hne Heq]. apply Hne. exact Heq.
Defined.

Lemma audit_frame_verifies_witness :
  ∃ json sig64 sig,
    audit_frame fields key 1700000000 = Some (build_proxy_audit_frame json sig64) ∧
    b64_decode sig64 = Some sig ∧
    verify (verifying_key key) (canonical_receipt_digest fields) sig = true.
Proof.
  destruct (audit_frame_verifies fields key 1700000000)
    as (json & sig64 & sig & H1 & _ & _ & H2 & H3 & _).
  exists json, sig64, sig. split; [exact H1|]. split; [exact H2|exact H3].
Defined.
