(* ===== verification/DoneDetector.v ===== *)
(** * The end-of-stream detector ([DoneDetector] of [src/lib.rs])

    The detector watches the redacted stream for the marker [data: [DONE]],
    which may be cut anywhere, holds back the bytes that could be the start of
    one, feeds a running digest with the payload it lets through and, when the
    marker is complete, emits a signed receipt in front of it.

    [inspect], [DoneDetector_finish] and [shutdown_events] return the events, the new
    detector and the new digest state; [None] is a panic.  The request hasher is
    shared with the task that reads the request body: its content at the time of
    the call is the argument [request_hasher]. *)

From S2P Require Import Prelude Utf8 Externals Receipt.

Definition SSE_DONE_MARKER : bytes := bstr "data: [DONE]".
Arguments SSE_DONE_MARKER : simpl never.

Inductive StreamEvent :=
| Data (b : bytes)
| AuditReceipt (b : bytes)
| DoneMarker (b : bytes).

Definition is_empty (b : bytes) : bool := match b with [] => true | _ => false end.

(** [a - b] on [usize]: a panic (in a checked build) when [b > a]. *)
Definition checked_sub (a b : nat) : option nat :=
  if (b <=? a)%nat then Some (a - b) else None.

Record DoneDetector := {
  dd_trailing : bytes;
  dd_completed : bool;
  dd_request_id : bytes;
  dd_tenant_id : bytes;
  dd_upstream_url : bytes;
  dd_policy_digest : bytes;
  dd_pcr0 : bytes
}.

Definition DoneDetector_new (request_id tenant_id upstream_url policy_digest pcr0 : bytes)
    : DoneDetector := {|
  dd_trailing := []; dd_completed := false; dd_request_id := request_id;
  dd_tenant_id := tenant_id; dd_upstream_url := upstream_url;
  dd_policy_digest := policy_digest; dd_pcr0 := pcr0
|}.

Definition set_trailing (d : DoneDetector) (trailing : bytes) : DoneDetector := {|
  dd_trailing := trailing; dd_completed := dd_completed d; dd_request_id := dd_request_id d;
  dd_tenant_id := dd_tenant_id d; dd_upstream_url := dd_upstream_url d;
  dd_policy_digest := dd_policy_digest d; dd_pcr0 := dd_pcr0 d
|}.

Definition set_completed (d : DoneDetector) : DoneDetector := {|
  dd_trailing := dd_trailing d; dd_completed := true; dd_request_id := dd_request_id d;
  dd_tenant_id := dd_tenant_id d; dd_upstream_url := dd_upstream_url d;
  dd_policy_digest := dd_policy_digest d; dd_pcr0 := dd_pcr0 d
|}.

Section Detector.
Context {b3_api : Blake3Api} {sig_api : Ed25519Api} {enc_api : EncodingApi}
  {rj_api : ReceiptJsonApi}.

(** The receipt fields for a payload hash and a request hash. *)
Definition receipt_fields (d : DoneDetector) (request_hash payload_hash : bytes)
    : ReceiptFields := {|
  rf_request_id := dd_request_id d; rf_tenant_id := dd_tenant_id d;
  rf_upstream_url := dd_upstream_url d; rf_request_hash := request_hash;
  rf_policy_digest := dd_policy_digest d; rf_pcr0 := dd_pcr0 d;
  rf_response_hash := payload_hash
|}.

Definition receipt_events (d : DoneDetector) (done : bytes) (private_key : SigningKey)
    (hasher request_hasher : Hasher) (now : Z) : option (list StreamEvent * DoneDetector) :=
  let payload_hash := hex_encode (hasher_finalize hasher) in
  let request_hash := hex_encode (hasher_finalize request_hasher) in
  audit ← audit_frame (receipt_fields d request_hash payload_hash) private_key now;
  Some ([AuditReceipt audit; DoneMarker done], set_completed d).

(** [bytes] contains the whole marker at [start]. *)
Definition inspect_whole (d : DoneDetector) (bytes : bytes) (start : nat)
    (private_key : SigningKey) (hasher request_hasher : Hasher) (now : Z)
    : option (list StreamEvent * DoneDetector * Hasher) :=
  let '(events, hasher, d) :=
    if negb (is_empty (dd_trailing d))
    then ([Data (dd_trailing d)], hasher_update hasher (dd_trailing d), set_trailing d [])
    else ([], hasher, d) in
  before_done ← slice 0 start bytes;
  let '(events, hasher) :=
    if negb (is_empty before_done)
    then (events ++ [Data before_done], hasher_update hasher before_done)
    else (events, hasher) in
  done ← slice start (length bytes) bytes;
  '(evs, d) ← receipt_events d done private_key hasher request_hasher now;
  Some (events ++ evs, d, hasher).

(** The marker starts at [start] of [probe], in the trailing bytes, and ends in
    [bytes]. *)
Definition inspect_straddling (d : DoneDetector) (bytes probe : bytes) (start : nat)
    (private_key : SigningKey) (hasher request_hasher : Hasher) (now : Z)
    : option (list StreamEvent * DoneDetector * Hasher) :=
  let marker_len := length SSE_DONE_MARKER in
  let trailing_len := length (dd_trailing d) in
  tail_len ← checked_sub trailing_len start;
  current_start ← checked_sub marker_len tail_len;
  before ← slice 0 start (dd_trailing d);
  let d := set_trailing d [] in
  done ← slice start (start + marker_len) probe;
  let '(events, hasher) :=
    if negb (is_empty before) then ([Data before], hasher_update hasher before)
    else ([], hasher) in
  '(evs, d) ← receipt_events d done private_key hasher request_hasher now;
  rest ← (if (current_start <? length bytes)%nat
          then b ← slice current_start (length bytes) bytes; Some [Data b]
          else Some []);
  Some (events ++ evs ++ rest, d, hasher).

(** No marker yet: let through what cannot be the start of one. *)
Definition inspect_hold (d : DoneDetector) (bytes : bytes) (hasher : Hasher)
    : option (list StreamEvent * DoneDetector * Hasher) :=
  let retain_len := length SSE_DONE_MARKER - 1 in
  if (retain_len <=? length bytes)%nat then
    let '(held, d) :=
      if is_empty (dd_trailing d) then (None, d)
      else (Some (dd_trailing d), set_trailing d []) in
    hasher ← (if negb (is_empty (dd_trailing d))
              then h ← held; Some (hasher_update hasher h)
              else Some hasher);
    let emit_len := length bytes - retain_len in
    data ← slice 0 emit_len bytes;
    let hasher := if negb (is_empty data) then hasher_update hasher data else hasher in
    kept ← slice emit_len (length bytes) bytes;
    let d := set_trailing d (dd_trailing d ++ kept) in
    let events := match held with Some h => [Data h] | None => [] end in
    let events := if negb (is_empty data) then events ++ [Data data] else events in
    Some (events, d, hasher)
  else
    let held := dd_trailing d ++ bytes in
    let d := set_trailing d [] in
    let emit_len := length held - retain_len in
    if (emit_len =? 0)%nat then
      Some ([], set_trailing d (dd_trailing d ++ held), hasher)
    else
      data ← slice 0 emit_len held;
      let hasher := hasher_update hasher data in
      kept ← slice emit_len (length held) held;
      Some ([Data data], set_trailing d (dd_trailing d ++ kept), hasher).

Definition inspect (d : DoneDetector) (bytes : bytes) (private_key : SigningKey)
    (hasher request_hasher : Hasher) (now : Z)
    : option (list StreamEvent * DoneDetector * Hasher) :=
  if dd_completed d then Some ([Data bytes], d, hasher)
  else
    let marker_len := length SSE_DONE_MARKER in
    match window_position bytes SSE_DONE_MARKER with
    | Some start => inspect_whole d bytes start private_key hasher request_hasher now
    | None =>
      let probe_len := Nat.min (length bytes) (marker_len - 1) in
      if negb (is_empty (dd_trailing d)) then
        let trailing_len := length (dd_trailing d) in
        if (trailing_len + probe_len <=? marker_len * 2)%nat then
          let probe := dd_trailing d ++ take probe_len bytes in
          match window_position probe SSE_DONE_MARKER with
          | Some start =>
            inspect_straddling d bytes probe start private_key hasher request_hasher now
          | None => inspect_hold d bytes hasher
          end
        else None
      else inspect_hold d bytes hasher
    end.

Definition DoneDetector_finish (d : DoneDetector) (hasher : Hasher)
    : list StreamEvent * DoneDetector * Hasher :=
  if is_empty (dd_trailing d) then ([], d, hasher)
  else ([Data (dd_trailing d)], set_trailing d [], hasher_update hasher (dd_trailing d)).

Definition shutdown_marker : bytes :=
  bstr "data: [ERROR: KILLED BY SHUTDOWN]" ++ [newline; newline].

Definition shutdown_events (d : DoneDetector) (private_key : SigningKey)
    (hasher request_hasher : Hasher) (now : Z)
    : option (list StreamEvent * DoneDetector * Hasher) :=
  if dd_completed d then Some ([], d, hasher)
  else
    let '(events, hasher, d) :=
      if negb (is_empty (dd_trailing d))
      then ([Data (dd_trailing d)], hasher_update hasher (dd_trailing d), set_trailing d [])
      else ([], hasher, d) in
    '(evs, d) ← receipt_events d shutdown_marker private_key hasher request_hasher now;
    Some (events ++ evs, d, hasher).

(** A caller's loop: inspect every chunk, then finish. *)
Fixpoint inspect_all (d : DoneDetector) (chunks : list bytes) (private_key : SigningKey)
    (hasher request_hasher : Hasher) (now : Z)
    : option (list StreamEvent * DoneDetector * Hasher) :=
  match chunks with
  | [] => Some (DoneDetector_finish d hasher)
  | c :: cs =>
    '(events, d, hasher) ← inspect d c private_key hasher request_hasher now;
    '(events', d, hasher) ← inspect_all d cs private_key hasher request_hasher now;
    Some (events ++ events', d, hasher)
  end.

End Detector.
