(* ===== verification/DoneDetectorProofs.v ===== *)
(** * Correctness of the end-of-stream detector

    However the stream is cut: nothing is lost or reordered, the marker is
    found exactly when it occurs, one receipt is emitted right in front of it,
    and no call panics.  The digest in the receipt covers the payload let
    through before it for the cuts of [hash_safe], and only for those: the last
    theorems are a run whose receipt leaves out eleven bytes and one in which a
    cut marker is overlooked. *)

From S2P Require Import Prelude Utf8 Externals Receipt DoneDetector.

Abbreviation marker := SSE_DONE_MARKER.

(** The stream bytes an event list forwards: everything but the receipts. *)
Definition event_bytes (e : StreamEvent) : bytes :=
  match e with Data b | DoneMarker b => b | AuditReceipt _ => [] end.
Definition forwarded (events : list StreamEvent) : bytes := concat (event_bytes <$> events).

Lemma forwarded_app a b : forwarded (a ++ b) = forwarded a ++ forwarded b.
Proof. unfold forwarded. by rewrite fmap_app, concat_app. Qed.

Lemma forwarded_data l : forwarded (Data <$> l) = concat l.
Proof.
  unfold forwarded. induction l as [|b l IH]; cbn in *; [done|]. by rewrite IH.
Qed.

(** What has gone through a detector that is still watching after [seen]. *)
Record watching (d : DoneDetector) (seen : bytes) : Prop := {
  w_completed : dd_completed d = false;
  w_trailing : dd_trailing d = last_n 11 seen;
  w_absent : contains seen marker = false
}.

Lemma is_empty_spec b : is_empty b = true ↔ b = [].
Proof. by destruct b. Qed.

(** ** Where the marker can be *)

Lemma last_n_sub {A} n (l : list A) : last_n n l = sub (length l - n) (length l) l.
Proof. unfold last_n, sub. symmetry. apply take_ge. solve_len. Qed.

Lemma sub_middle {A} (a m t : list A) : sub (length a) (length a + length m) (a ++ m ++ t) = m.
Proof.
  rewrite sub_app_r by lia. rewrite Nat.sub_diag.
  replace (length a + length m - length a) with (length m) by lia.
  rewrite sub_app_l by done. apply sub_full.
Qed.

Lemma contains_sub hay s e : contains (sub s e hay) marker = true → contains hay marker = true.
Proof.
  rewrite !contains_spec. unfold sub. intros (a & t & E).
  exists (take s hay ++ a), (t ++ drop (e - s) (drop s hay)).
  rewrite <-!app_assoc. rewrite (app_assoc marker), (app_assoc a), <-E.
  by rewrite !take_drop.
Qed.

Lemma contains_window hay i e :
  sub i (i + 12) hay = marker → i + 12 ≤ e → e ≤ length hay →
  ∀ s, s ≤ i → contains (sub s e hay) marker = true.
Proof.
  intros Hm He Hl s Hs. apply contains_spec.
  exists (sub s i hay), (sub (i + 12) e hay).
  rewrite <-Hm, !sub_app_adj by lia. done.
Qed.

(** A marker that is neither in what was seen nor in the chunk lies in the
    probe. *)
Lemma straddling_in_probe seen c :
  contains seen marker = false → contains c marker = false →
  contains (seen ++ c) marker = true →
  last_n 11 seen ≠ [] ∧
  contains (last_n 11 seen ++ take (Nat.min (length c) 11) c) marker = true.
Proof.
  intros Hs Hc H. apply contains_spec in H as (a & t & E).
  assert (sub (length a) (length a + 12) (seen ++ c) = marker) as Hm
    by (rewrite E; apply (sub_middle a marker t)).
  assert (length a + 12 ≤ length (seen ++ c)) as Hl.
  { rewrite E. rewrite !length_app. change (length marker) with 12. lia. }
  rewrite length_app in Hl.
  destruct (decide (length a + 12 ≤ length seen)) as [Hin|Hin].
  { exfalso. rewrite sub_app_l in Hm by done.
    pose proof (contains_window seen (length a) (length seen) Hm Hin ltac:(lia) 0 ltac:(lia)) as K.
    rewrite sub_full in K. congruence. }
  destruct (decide (length seen ≤ length a)) as [Hge|Hlt].
  { exfalso. rewrite sub_app_r in Hm by done.
    replace (length a + 12 - length seen) with (length a - length seen + 12) in Hm by lia.
    pose proof (contains_window c _ (length c) Hm ltac:(lia) ltac:(lia) 0 ltac:(lia)) as K.
    rewrite sub_full in K. congruence. }
  split.
  { intros E0%(f_equal length). rewrite length_last_n in E0. cbn [length] in E0. lia. }
  pose proof (contains_window (seen ++ c) (length a)
    (length seen + Nat.min (length c) 11) Hm ltac:(lia) ltac:(solve_len)
    (length seen - 11) ltac:(lia)) as K.
  rewrite <-(sub_app_adj _ (length seen)) in K by lia.
  rewrite sub_app_l, sub_app_r in K by lia.
  rewrite <-last_n_sub, Nat.sub_diag, sub_0 in K.
  by replace (length seen + Nat.min (length c) 11 - length seen)
    with (Nat.min (length c) 11) in K by lia.
Qed.

Section Proofs.
Context {b3_api : Blake3Api} {b3_laws : Blake3Laws} {sig_api : Ed25519Api}
  {enc_api : EncodingApi} {rj_api : ReceiptJsonApi} {rj_laws : ReceiptJsonLaws}.

Lemma audit_frame_total f key now : ∃ a, audit_frame f key now = Some a.
Proof.
  unfold audit_frame. destruct (json_receipt_total (attested_receipt f now)) as (j & -> & _).
  cbn. eauto.
Qed.

(** ** Holding back *)

Lemma inspect_hold_ok d c hasher :
  length (dd_trailing d) ≤ 11 →
  ∃ l h', inspect_hold d c hasher =
      Some (Data <$> l, set_trailing d (last_n 11 (dd_trailing d ++ c)), h') ∧
    concat l = but_last 11 (dd_trailing d ++ c) ∧
    (dd_trailing d = [] ∨ length c < 11 →
     ∀ x, absorbed hasher x → absorbed h' (x ++ concat l)).
Proof.
  intros Ht. unfold inspect_hold. change (length marker - 1) with 11.
  destruct (11 <=? length c)%nat eqn:E11.
  - apply Nat.leb_le in E11.
    assert (sub 0 (length c - 11) c = but_last 11 c) as Ebut by apply sub_0.
    destruct (is_empty (dd_trailing d)) eqn:Et; cbn;
      rewrite ?Et; cbn; rewrite !slice_Some by lia; cbn; rewrite <-last_n_sub, Ebut.
    + apply is_empty_spec in Et. rewrite Et. cbn.
      destruct (is_empty (but_last 11 c)) eqn:Eb; cbn.
      * apply is_empty_spec in Eb. exists [], hasher. cbn. rewrite Eb.
        split_and!; [done|done|]. intros _ x Hx. by rewrite app_nil_r.
      * exists [but_last 11 c], (hasher_update hasher (but_last 11 c)). cbn.
        rewrite app_nil_r. split_and!; [done|done|]. intros _ x Hx. eauto with pxy.
    + assert (but_last 11 (dd_trailing d ++ c) = dd_trailing d ++ but_last 11 c) as Eall.
      { unfold but_last. rewrite length_app, take_app_ge by lia. do 2 f_equal. lia. }
      rewrite last_n_app_ge by done. rewrite Eall.
      assert (dd_trailing d = [] ∨ length c < 11 → False) as Hno.
      { intros [E|?]; [by rewrite E in Et|lia]. }
      destruct (is_empty (but_last 11 c)) eqn:Eb; cbn.
      * apply is_empty_spec in Eb. rewrite Eb. exists [dd_trailing d], hasher. cbn.
        rewrite app_nil_r. split_and!; [done|done|tauto].
      * exists [dd_trailing d; but_last 11 c], (hasher_update hasher (but_last 11 c)). cbn.
        rewrite app_nil_r. split_and!; [done|done|tauto].
  - apply Nat.leb_gt in E11. set (held := dd_trailing d ++ c).
    destruct (length held - 11 =? 0)%nat eqn:E0; cbn.
    + apply Nat.eqb_eq in E0. exists [], hasher.
      assert (last_n 11 held = held) as -> by (unfold last_n; by rewrite E0).
      assert (but_last 11 held = []) as -> by (unfold but_last; by rewrite E0).
      split_and!; [done|done|]. intros _ x Hx. cbn. by rewrite app_nil_r.
    + rewrite !slice_Some by lia. cbn. rewrite <-last_n_sub, sub_0.
      exists [but_last 11 held], (hasher_update hasher (but_last 11 held)).
      cbn. rewrite app_nil_r. split_and!; [done|done|]. intros _ x Hx. eauto with pxy.
Qed.

(** ** Completing the marker *)

(** The events of a call that completes the marker: payload, one receipt over
    the digest state [h'], the marker, and what follows it. *)
Record completes (d : DoneDetector) (key : SigningKey) (rh : Hasher) (now : Z)
    (events : list StreamEvent) (h' : Hasher) (pre done post : bytes) : Prop := {
  c_frame : ∃ pre_l post_l frame,
    events = (Data <$> pre_l) ++ [AuditReceipt frame; DoneMarker done] ++ (Data <$> post_l) ∧
    concat pre_l = pre ∧ concat post_l = post ∧
    audit_frame (receipt_fields d (hex_encode (hasher_finalize rh))
                   (hex_encode (hasher_finalize h'))) key now = Some frame;
  c_marker : starts_with done marker = true
}.

(** Flushing a piece of payload that may be empty. *)
Lemma data_nonempty (b : bytes) :
  ∃ l, (if negb (is_empty b) then [Data b] else []) = Data <$> l ∧ concat l = b.
Proof. destruct b; [by exists []|]. eexists [_]. cbn. by rewrite app_nil_r. Qed.

Lemma absorbed_nonempty h x b :
  absorbed h x → absorbed (if negb (is_empty b) then hasher_update h b else h) (x ++ b).
Proof. destruct b; cbn; [by rewrite app_nil_r|]. eauto with pxy. Qed.

Lemma inspect_whole_ok d c start key h rh now :
  window_position c marker = Some start → dd_completed d = false →
  ∃ events h' done,
    inspect_whole d c start key h rh now = Some (events, set_completed (set_trailing d []), h') ∧
    completes d key rh now events h' (dd_trailing d ++ take start c) done [] ∧
    take start c ++ done = c ∧
    (∀ x, absorbed h x → absorbed h' (x ++ dd_trailing d ++ take start c)).
Proof.
  intros Hw Hc. apply window_position_Some in Hw as (t & Hm & Hl).
  unfold inspect_whole.
  assert (slice start (length c) c = Some (drop start c)) as Hdone.
  { rewrite slice_Some by lia. f_equal. unfold sub. apply take_ge. solve_len. }
  assert (drop start c = marker ++ t) as Hd.
  { rewrite Hm at 1. rewrite drop_app_ge; [|solve_len].
    rewrite length_take, Nat.min_l, Nat.sub_diag by lia. done. }
  set (h1 := if negb (is_empty (dd_trailing d)) then hasher_update h (dd_trailing d) else h).
  set (h2 := if negb (is_empty (take start c)) then hasher_update h1 (take start c) else h1).
  destruct (audit_frame_total (receipt_fields d (hex_encode (hasher_finalize rh))
              (hex_encode (hasher_finalize h2))) key now) as [frame Hframe].
  destruct (data_nonempty (dd_trailing d)) as (l1 & Hl1 & El1).
  destruct (data_nonempty (take start c)) as (l2 & Hl2 & El2).
  exists ((Data <$> (l1 ++ l2)) ++ [AuditReceipt frame; DoneMarker (drop start c)]),
    h2, (drop start c).
  split_and!.
  - rewrite (slice_Some 0 start c), sub_0, Hdone by lia. cbn. unfold receipt_events. rewrite fmap_app.
    rewrite <-Hl1, <-Hl2. unfold h2, h1 in *.
    assert (set_trailing d (dd_trailing d) = d) as Ed by (by destruct d).
    destruct (dd_trailing d) eqn:Et, (take start c) eqn:Eb; cbn in *;
      unfold receipt_fields in *; cbn in *; rewrite Hframe; cbn; rewrite ?Ed; done.
  - split; [|apply starts_with_spec; eauto].
    exists (l1 ++ l2), [], frame. rewrite concat_app, El1, El2. cbn.
    rewrite ?app_nil_r. done.
  - apply take_drop.
  - intros x Hx. rewrite app_assoc. unfold h2. apply absorbed_nonempty.
    unfold h1. by apply absorbed_nonempty.
Qed.

(** A marker found across the end of what was held splits the whole text. *)
Lemma straddling_split (held c : bytes) start t :
  let probe := held ++ take (Nat.min (length c) 11) c in
  probe = take start probe ++ marker ++ t → start ≤ length held → length held ≤ start + 12 →
  start + 12 + length t = length probe →
  held ++ c = take start held ++ marker ++ drop (12 - (length held - start)) c.
Proof.
  intros probe Hm Hs Hl Hlt.
  assert (held ++ c = probe ++ drop (Nat.min (length c) 11) c) as E
    by (unfold probe; by rewrite <-app_assoc, take_drop).
  assert (take start probe = take start held) as Etk by (unfold probe; by rewrite take_app_le by lia).
  rewrite <-(take_drop (start + 12) (held ++ c)). rewrite E at 1. rewrite take_app_le by lia.
  assert (take (start + 12) probe = take start held ++ marker) as ->.
  { rewrite Hm, Etk, app_assoc.
    rewrite take_app_le by (rewrite length_app; change (length marker) with 12; solve_len).
    apply take_ge. rewrite length_app. change (length marker) with 12. solve_len. }
  rewrite drop_app_ge by lia. rewrite <-app_assoc. do 3 f_equal. lia.
Qed.

(** The rest of a chunk after a marker, as data if there is any. *)
Lemma rest_as_data n (c : bytes) l :
  (if negb (is_empty (drop n c)) then [Data (drop n c)] else []) = Data <$> l →
  (if (n <? length c)%nat then slice n (length c) c ≫= λ b, Some [Data b] else Some [])
  = Some (Data <$> l).
Proof.
  intros <-. destruct (n <? length c)%nat eqn:E.
  - apply Nat.ltb_lt in E. rewrite slice_Some by lia. cbn.
    assert (sub n (length c) c = drop n c) as -> by (unfold sub; apply take_ge; solve_len).
    destruct (drop n c) eqn:E2; [|done].
    apply (f_equal length) in E2. rewrite length_drop in E2. cbn in E2. lia.
  - apply Nat.ltb_ge in E. by rewrite drop_ge by done.
Qed.

Lemma inspect_straddling_ok d c start key h rh now :
  let probe := dd_trailing d ++ take (Nat.min (length c) 11) c in
  window_position probe marker = Some start → length (dd_trailing d) ≤ 11 →
  ∃ events h' pre post,
    inspect_straddling d c probe start key h rh now
      = Some (events, set_completed (set_trailing d []), h') ∧
    completes d key rh now events h' pre marker post ∧
    pre ++ marker ++ post = dd_trailing d ++ c ∧
    (∀ x, absorbed h x → absorbed h' (x ++ pre)).
Proof.
  intros probe Hw Ht. apply window_position_Some in Hw as (t & Hm & Hl).
  assert (length probe = length (dd_trailing d) + Nat.min (length c) 11) as Hlp
    by (unfold probe; solve_len).
  assert (start + 12 + length t = length probe) as Hlt.
  { rewrite Hm. rewrite !length_app, length_take, Nat.min_l by lia. change (length marker) with 12. lia. }
  set (current := 12 - (length (dd_trailing d) - start)).
  assert (dd_trailing d ++ c = take start (dd_trailing d) ++ marker ++ drop current c) as Hall.
  { apply (straddling_split (dd_trailing d) c start t Hm); [lia..|done]. }
  set (h1 := if negb (is_empty (take start (dd_trailing d)))
             then hasher_update h (take start (dd_trailing d)) else h).
  destruct (audit_frame_total (receipt_fields d (hex_encode (hasher_finalize rh))
              (hex_encode (hasher_finalize h1))) key now) as [frame Hframe].
  destruct (data_nonempty (take start (dd_trailing d))) as (l1 & Hl1 & El1).
  destruct (data_nonempty (drop current c)) as (l2 & Hl2 & El2).
  exists ((Data <$> l1) ++ [AuditReceipt frame; DoneMarker marker] ++ (Data <$> l2)), h1,
    (take start (dd_trailing d)), (drop current c).
  split_and!; [| |by rewrite Hall|intros x Hx; by apply absorbed_nonempty].
  - unfold inspect_straddling, checked_sub. change (length marker) with 12.
    rewrite (proj2 (Nat.leb_le start (length (dd_trailing d)))) by lia. cbn.
    rewrite (proj2 (Nat.leb_le (length (dd_trailing d) - start) 12)) by lia. cbn.
    fold current. rewrite (slice_Some 0 start), sub_0 by lia. cbn.
    rewrite (slice_Some start (start + 12) probe) by lia. cbn.
    assert (sub start (start + 12) probe = marker) as ->.
    { pose proof (sub_middle (take start probe) marker t) as K. rewrite <-Hm in K.
      rewrite length_take, Nat.min_l in K by lia. exact K. }
    unfold receipt_events.
    assert ((if (current <? length c)%nat
             then slice current (length c) c ≫= λ b, Some [Data b] else Some [])
            = Some (Data <$> l2)) as ->.
    { by apply rest_as_data. }
    rewrite <-Hl1. unfold h1 in *. unfold receipt_fields in *.
    destruct (take start (dd_trailing d)); cbn in *; rewrite Hframe; done.
  - split; [|done]. exists l1, l2, frame. done.
Qed.

(** ** One call *)

(** The call lets payload through and keeps watching. *)
Definition passes (d : DoneDetector) (seen c : bytes) (h : Hasher)
    (r : option (list StreamEvent * DoneDetector * Hasher)) : Prop :=
  ∃ l h' d', r = Some (Data <$> l, d', h') ∧
    d' = set_trailing d (dd_trailing d') ∧ watching d' (seen ++ c) ∧
    but_last 11 seen ++ concat l = but_last 11 (seen ++ c) ∧
    (is_empty seen || (length c <? 11)%nat = true →
     ∀ x, absorbed h x → absorbed h' (x ++ concat l)).

(** The call completes the marker. *)
Definition concludes (d : DoneDetector) (seen c : bytes) (key : SigningKey) (h rh : Hasher)
    (now : Z) (r : option (list StreamEvent * DoneDetector * Hasher)) : Prop :=
  ∃ events h' pre done post,
    r = Some (events, set_completed (set_trailing d []), h') ∧
    completes d key rh now events h' pre done post ∧
    but_last 11 seen ++ pre ++ done ++ post = seen ++ c ∧
    (∀ x, absorbed h x → absorbed h' (x ++ pre)).

Lemma watching_trailing d seen c :
  watching d seen →
  length (dd_trailing d) ≤ 11 ∧ but_last 11 seen ++ dd_trailing d ++ c = seen ++ c.
Proof.
  intros [_ Ht _]. split; [rewrite Ht, length_last_n; lia|].
  rewrite Ht, app_assoc. by rewrite but_last_last_n.
Qed.

Lemma hold_passes d seen c h :
  watching d seen → contains (seen ++ c) marker = false →
  passes d seen c h (inspect_hold d c h).
Proof.
  intros Hw Hno. destruct (watching_trailing d seen c Hw) as [Hlt _]. destruct Hw as [Hc Ht Hs].
  destruct (inspect_hold_ok d c h Hlt) as (l & h' & Hi & Hl & Habs).
  eexists l, h', _. split_and!; [done|done| | |].
  - split; [done|cbn; by rewrite Ht, last_n_last_n_app|done].
  - rewrite Hl. apply (app_inv_tail (last_n 11 (seen ++ c))).
    rewrite but_last_last_n. rewrite <-(last_n_last_n_app _ seen c), <-Ht.
    rewrite <-app_assoc, but_last_last_n, Ht, app_assoc. by rewrite but_last_last_n.
  - intros Hsafe. apply Habs. apply orb_true_iff in Hsafe as [He|Hlen].
    + left. apply is_empty_spec in He. by rewrite Ht, He.
    + right. by apply Nat.ltb_lt.
Qed.

Lemma inspect_watching d seen c key h rh now :
  watching d seen →
  if contains (seen ++ c) marker
  then concludes d seen c key h rh now (inspect d c key h rh now)
  else passes d seen c h (inspect d c key h rh now).
Proof.
  intros Hw. destruct (watching_trailing d seen c Hw) as [Hlt Hseen].
  pose proof Hw as [Hc Ht Hs]. unfold inspect. rewrite Hc.
  destruct (window_position c marker) as [start|] eqn:Ew.
  { destruct (inspect_whole_ok d c start key h rh now Ew Hc)
      as (events & h' & done & Hi & Hcomp & Hsplit & Habs).
    assert (contains (seen ++ c) marker = true) as ->.
    { apply window_position_Some in Ew as (t & Hm & _). apply contains_spec.
      exists (seen ++ take start c), t. rewrite Hm at 1. by rewrite <-app_assoc. }
    eexists events, h', _, done, []. split_and!; [done..| |done].
    by rewrite app_nil_r, <-app_assoc, Hsplit. }
  assert (contains c marker = false) as Hcc by (unfold contains; by rewrite Ew).
  change (length marker) with 12. change (12 - 1) with 11. change (12 * 2) with 24.
  pose proof (straddling_in_probe seen c Hs Hcc) as Hprobe. rewrite <-Ht in Hprobe.
  destruct (is_empty (dd_trailing d)) eqn:Eem; cbn.
  { apply is_empty_spec in Eem.
    destruct (contains (seen ++ c) marker) eqn:E; [|by apply hold_passes].
    by destruct (Hprobe eq_refl). }
  rewrite (proj2 (Nat.leb_le (length (dd_trailing d) + Nat.min (length c) 11) 24)) by lia.
  destruct (window_position (dd_trailing d ++ take (Nat.min (length c) 11) c) marker)
    as [start|] eqn:Ep.
  - destruct (inspect_straddling_ok d c start key h rh now Ep Hlt)
      as (events & h' & pre & post & Hi & Hcomp & Hsplit & Habs).
    assert (contains (seen ++ c) marker = true) as ->.
    { apply contains_spec. exists (but_last 11 seen ++ pre), post.
      rewrite <-Hseen, <-Hsplit. by rewrite <-app_assoc. }
    exists events, h', pre, marker, post. split_and!; [done..| |done]. by rewrite Hsplit.
  - destruct (contains (seen ++ c) marker) eqn:E; [|by apply hold_passes].
    destruct (Hprobe eq_refl) as [_ Hp]. unfold contains in Hp. by rewrite Ep in Hp.
Qed.

(** ** Whole streams *)

(** The cuts for which the digest covers what is let through: until the marker
    is complete, only the first chunk may be longer than ten bytes. *)
Fixpoint hash_safe (seen : bytes) (chunks : list bytes) : bool :=
  match chunks with
  | [] => true
  | c :: cs => contains (seen ++ c) marker
               || ((is_empty seen || (length c <? 11)%nat) && hash_safe (seen ++ c) cs)
  end.

Lemma inspect_all_completed d chunks key h rh now :
  dd_completed d = true → dd_trailing d = [] →
  inspect_all d chunks key h rh now = Some (Data <$> chunks, d, h).
Proof.
  intros Hc Ht. induction chunks as [|c cs IH]; cbn.
  - unfold DoneDetector_finish. by rewrite Ht.
  - unfold inspect. rewrite Hc. cbn. by rewrite IH.
Qed.

(** The events of a whole run, by whether the marker occurs. *)
Definition run_spec (d : DoneDetector) (seen : bytes) (chunks : list bytes) (key : SigningKey)
    (h rh : Hasher) (now : Z) (events : list StreamEvent) : Prop :=
  if contains (seen ++ concat chunks) marker
  then ∃ pre done post frame payload_hash,
    events = (Data <$> pre) ++ [AuditReceipt frame; DoneMarker done] ++ (Data <$> post) ∧
    but_last 11 seen ++ concat pre ++ done ++ concat post = seen ++ concat chunks ∧
    starts_with done marker = true ∧
    audit_frame (receipt_fields d (hex_encode (hasher_finalize rh)) payload_hash) key now
      = Some frame ∧
    (hash_safe seen chunks = true → absorbed h (but_last 11 seen) →
     payload_hash = hex_encode (blake3_hash (but_last 11 seen ++ concat pre)))
  else ∃ l, events = Data <$> l ∧ but_last 11 seen ++ concat l = seen ++ concat chunks.

Lemma contains_app_l a b : contains a marker = true → contains (a ++ b) marker = true.
Proof.
  rewrite !contains_spec. intros (x & t & ->). exists x, (t ++ b). by rewrite <-!app_assoc.
Qed.

Lemma inspect_all_ok d seen chunks key h rh now :
  watching d seen →
  ∃ events d' h', inspect_all d chunks key h rh now = Some (events, d', h') ∧
    run_spec d seen chunks key h rh now events.
Proof.
  revert d seen h. induction chunks as [|c cs IH]; intros d seen h Hw; cbn [inspect_all].
  { destruct (watching_trailing d seen [] Hw) as [_ Hs]. rewrite !app_nil_r in Hs.
    unfold DoneDetector_finish, run_spec. cbn [concat]. rewrite app_nil_r.
    destruct Hw as [_ Ht ->]. destruct (is_empty (dd_trailing d)) eqn:E.
    - eexists [], _, _. split; [done|]. exists []. apply is_empty_spec in E.
      split; [done|]. cbn. by rewrite E in Hs.
    - eexists [_], _, _. split; [done|]. exists [dd_trailing d]. split; [done|].
      cbn. by rewrite app_nil_r. }
  pose proof (inspect_watching d seen c key h rh now Hw) as Hi.
  unfold run_spec. cbn [concat hash_safe]. rewrite app_assoc.
  destruct (contains (seen ++ c) marker) eqn:Em.
  - destruct Hi as (evs & h' & pre & done & post & -> & Hcomp & Hsplit & Habs). cbn.
    rewrite inspect_all_completed by done. cbn. rewrite contains_app_l by done.
    destruct Hcomp as [(l1 & l2 & frame & -> & <- & <- & Hframe) Hmark].
    eexists _, _, _. split; [done|]. exists l1, done, (l2 ++ cs), frame, (hex_encode (hasher_finalize h')).
    split_and!; [|rewrite concat_app|done|exact Hframe|].
    + by rewrite fmap_app, <-!app_assoc.
    + rewrite <-Hsplit, <-!app_assoc. done.
    + intros _ Ha. f_equal. apply absorbed_finalize. by apply Habs.
  - destruct Hi as (l & h' & d' & -> & Hd' & Hw' & Hl & Habs). cbn.
    destruct (IH d' (seen ++ c) h' Hw') as (evs & d2 & h2 & -> & Hrun). cbn.
    eexists _, _, _. split; [done|]. unfold run_spec in Hrun. cbn [orb].
    destruct (contains ((seen ++ c) ++ concat cs) marker).
    + destruct Hrun as (pre & done & post & frame & ph & -> & Hsplit & Hm & Hf & Hh).
      exists (l ++ pre), done, post, frame, ph. rewrite concat_app.
      split_and!; [by rewrite fmap_app, <-app_assoc| |done| |].
      * by rewrite <-Hsplit, <-Hl, <-!app_assoc.
      * by rewrite Hd' in Hf.
      * intros [Hs1 Hs2]%andb_true_iff Ha. rewrite Hh; [|done|rewrite <-Hl; by apply Habs].
        do 2 f_equal. by rewrite <-Hl, <-app_assoc.
    + destruct Hrun as (l' & -> & Hl'). exists (l ++ l'). rewrite concat_app, fmap_app.
      split; [done|]. by rewrite <-Hl', <-Hl, <-app_assoc.
Qed.

(** ** Theorems *)

Context (request_id tenant_id upstream_url policy_digest pcr0 : bytes).
Local Abbreviation d0 :=
  (DoneDetector_new request_id tenant_id upstream_url policy_digest pcr0).

Ltac start_run H :=
  unfold run_spec in H; change (but_last 11 (@nil Byte.byte)) with (@nil Byte.byte) in H;
  rewrite ?app_nil_l in H.

Lemma new_watching : watching d0 [].
Proof. by split. Qed.

(** The detector forwards the stream unchanged.  For every way of cutting a
    stream, inspecting the chunks and finishing never panics, and the events it
    emits, receipts aside, carry exactly the bytes of the stream in order. *)
Theorem detector_forwards_stream chunks key rh now :
  ∃ events d h, inspect_all d0 chunks key hasher_new rh now = Some (events, d, h) ∧
                forwarded events = concat chunks.
Proof.
  destruct (inspect_all_ok d0 [] chunks key hasher_new rh now new_watching)
    as (events & d & h & Hi & Hrun).
  exists events, d, h. split; [done|]. start_run Hrun.
  destruct (contains (concat chunks) marker).
  - destruct Hrun as (pre & done & post & frame & ph & -> & <- & _).
    rewrite !forwarded_app, !forwarded_data.
    change (forwarded [AuditReceipt frame; DoneMarker done]) with (done ++ []).
    by rewrite app_nil_r.
  - destruct Hrun as (l & -> & <-). by rewrite forwarded_data.
Qed.

(** C13: one receipt, in front of the marker, exactly when the marker occurs.
    If [data: [DONE]] occurs in the stream, however it is cut, the run emits
    payload, one audit receipt for this request, an event that starts with the
    marker, and then only data; if it does not occur, no receipt is emitted. *)
Theorem detector_one_receipt chunks key rh now :
  ∃ events d h, inspect_all d0 chunks key hasher_new rh now = Some (events, d, h) ∧
  if contains (concat chunks) marker
  then ∃ pre done post frame payload_hash,
    events = (Data <$> pre) ++ [AuditReceipt frame; DoneMarker done] ++ (Data <$> post) ∧
    concat pre ++ done ++ concat post = concat chunks ∧ starts_with done marker = true ∧
    audit_frame {| rf_request_id := request_id; rf_tenant_id := tenant_id;
                   rf_upstream_url := upstream_url;
                   rf_request_hash := hex_encode (hasher_finalize rh);
                   rf_policy_digest := policy_digest; rf_pcr0 := pcr0;
                   rf_response_hash := payload_hash |} key now = Some frame
  else ∃ l, events = Data <$> l.
Proof.
  destruct (inspect_all_ok d0 [] chunks key hasher_new rh now new_watching)
    as (events & d & h & Hi & Hrun).
  exists events, d, h. split; [done|]. start_run Hrun.
  destruct (contains (concat chunks) marker).
  - destruct Hrun as (pre & done & post & frame & ph & -> & Hs & Hm & Hf & _).
    exists pre, done, post, frame, ph. done.
  - destruct Hrun as (l & -> & _). eauto.
Qed.

(** C25: the receipt's payload hash covers the payload, for streams of which only
    the first chunk is longer than ten bytes before the marker is complete: it
    is the BLAKE3 hash of exactly the data forwarded in front of the receipt. *)
Theorem detector_hash_covers_payload chunks key rh now :
  contains (concat chunks) marker = true → hash_safe [] chunks = true →
  ∃ pre done post frame d h,
    inspect_all d0 chunks key hasher_new rh now
      = Some ((Data <$> pre) ++ [AuditReceipt frame; DoneMarker done] ++ (Data <$> post), d, h) ∧
    audit_frame (receipt_fields d0 (hex_encode (hasher_finalize rh))
                   (hex_encode (blake3_hash (concat pre)))) key now = Some frame.
Proof.
  intros Hm Hsafe. destruct (inspect_all_ok d0 [] chunks key hasher_new rh now new_watching)
    as (events & d & h & Hi & Hrun).
  start_run Hrun. rewrite Hm in Hrun.
  destruct Hrun as (pre & done & post & frame & ph & -> & _ & _ & Hf & Hh).
  exists pre, done, post, frame, d, h. split; [done|].
  rewrite (Hh Hsafe absorbed_new) in Hf. exact Hf.
Qed.

(** On shutdown a stream that is still open gets its receipt: the bytes held
    back are flushed and hashed, then come one receipt and the shutdown marker,
    and the detector is completed; a stream that already has its receipt gets
    nothing more. *)
Theorem shutdown_events_spec d key h rh now x :
  absorbed h x →
  (dd_completed d = true ∧ shutdown_events d key h rh now = Some ([], d, h)) ∨
  (dd_completed d = false ∧ ∃ pre frame d' h',
     shutdown_events d key h rh now
       = Some ((Data <$> pre) ++ [AuditReceipt frame; DoneMarker shutdown_marker], d', h') ∧
     concat pre = dd_trailing d ∧ dd_completed d' = true ∧ dd_trailing d' = [] ∧
     audit_frame (receipt_fields d (hex_encode (hasher_finalize rh))
                    (hex_encode (blake3_hash (x ++ dd_trailing d)))) key now = Some frame).
Proof.
  intros Ha. unfold shutdown_events. destruct (dd_completed d) eqn:Ec; [by left|right].
  split; [done|]. destruct (data_nonempty (dd_trailing d)) as (l & Hl & El).
  destruct (audit_frame_total (receipt_fields d (hex_encode (hasher_finalize rh))
              (hex_encode (blake3_hash (x ++ dd_trailing d)))) key now) as [frame Hframe].
  pose proof (absorbed_nonempty h x (dd_trailing d) Ha) as Hfin.
  apply absorbed_finalize in Hfin. exists l, frame.
  destruct (is_empty (dd_trailing d)) eqn:E; cbn in *; unfold receipt_events;
    rewrite Hfin; unfold receipt_fields in *; cbn in *; rewrite Hframe; cbn.
  - apply is_empty_spec in E. eexists _, _. rewrite <-Hl. by rewrite E in El |- *.
  - eexists _, _. rewrite <-Hl. done.
Qed.

End Proofs.

(** ** Concrete runs *)

Import Transparent TransparentReceipt.

Module DetectorDemo.

Definition detector : DoneDetector :=
  DoneDetector_new (bstr "request-1") (bstr "tenant-1") (bstr "https://upstream.example")
    (bstr "policy-1") (bstr "pcr0-1").

(** The marker cut in three. *)
Definition chunks : list bytes :=
  [bstr "data: {hello world} "; bstr "data: "; bstr "[DO"; bstr "NE] bye"].

(** Two long chunks in front of the marker. *)
Definition long_chunks : list bytes :=
  [bstr "data: hello world 1"; bstr "data: hello world 2"; bstr "data: [DONE]"].

(** A cut marker and a whole one in the same chunk. *)
Definition two_markers : list bytes := [bstr "data: [DO"; bstr "NE] data: [DONE]"].

Definition receipt_for (payload : bytes) : option bytes :=
  audit_frame (receipt_fields detector (hex_encode (hasher_finalize hasher_new))
                 (hex_encode (blake3_hash payload))) key 0.
End DetectorDemo.

Lemma detector_forwards_stream_witness :
  ∃ events d h,
    inspect_all DetectorDemo.detector DetectorDemo.chunks key hasher_new hasher_new 0
      = Some (events, d, h) ∧
    forwarded events = concat DetectorDemo.chunks.
Proof.
  apply (detector_forwards_stream (bstr "request-1") (bstr "tenant-1")
    (bstr "https://upstream.example") (bstr "policy-1") (bstr "pcr0-1")).
Defined.

Lemma detector_one_receipt_witness :
  ∃ pre done post frame d h,
    inspect_all DetectorDemo.detector DetectorDemo.chunks key hasher_new hasher_new 0
      = Some ((Data <$> pre) ++ [AuditReceipt frame; DoneMarker done] ++ (Data <$> post), d, h) ∧
    concat pre ++ done ++ concat post = concat DetectorDemo.chunks.
Proof.
  destruct (detector_one_receipt (bstr "request-1") (bstr "tenant-1")
    (bstr "https://upstream.example") (bstr "policy-1") (bstr "pcr0-1")
    DetectorDemo.chunks key hasher_new 0) as (events & d & h & Hi & Hrun).
  change (contains (concat DetectorDemo.chunks) marker) with true in Hrun.
  destruct Hrun as (pre & done & post & frame & ph & -> & Hs & _).
  exists pre, done, post, frame, d, h. split; [exact Hi|exact Hs].
Defined.

Lemma detector_hash_covers_payload_witness :
  ∃ pre done post frame d h,
    inspect_all DetectorDemo.detector DetectorDemo.chunks key hasher_new hasher_new 0
      = Some ((Data <$> pre) ++ [AuditReceipt frame; DoneMarker done] ++ (Data <$> post), d, h) ∧
    DetectorDemo.receipt_for (concat pre) = Some frame.
Proof.
  apply (detector_hash_covers_payload (bstr "request-1") (bstr "tenant-1")
    (bstr "https://upstream.example") (bstr "policy-1") (bstr "pcr0-1")
    DetectorDemo.chunks key hasher_new 0); reflexivity.
Defined.

Lemma shutdown_events_spec_witness :
  ∃ pre frame d' h',
    shutdown_events (set_trailing DetectorDemo.detector (bstr "data: [D")) key
      (hasher_update hasher_new (bstr "seen ")) hasher_new 0
    = Some ((Data <$> pre) ++ [AuditReceipt frame; DoneMarker shutdown_marker], d', h') ∧
    DetectorDemo.receipt_for (bstr "seen data: [D") = Some frame.
Proof.
  destruct (shutdown_events_spec (set_trailing DetectorDemo.detector (bstr "data: [D")) key
              (hasher_update hasher_new (bstr "seen ")) hasher_new 0 (bstr "seen "))
    as [[H _]|(_ & pre & frame & d' & h' & H1 & _ & _ & _ & H2)].
  - exists [bstr "seen "]. split; reflexivity.
  - discriminate H.
  - exists pre, frame, d', h'. split; [exact H1|exact H2].
Defined.

(** With two chunks of eleven bytes or more in front of the marker, the
    receipt does not cover the payload: the bytes held back from the first chunk
    are forwarded but never hashed, so the receipt is the one for a payload that
    lacks them ([llo world 1]). *)
Theorem held_bytes_not_hashed :
  ∃ pre frame d h,
    inspect_all DetectorDemo.detector DetectorDemo.long_chunks key hasher_new hasher_new 0
      = Some ((Data <$> pre) ++ [AuditReceipt frame; DoneMarker marker], d, h) ∧
    concat pre = bstr "data: hello world 1data: hello world 2" ∧
    DetectorDemo.receipt_for (bstr "data: hedata: hello world 2") = Some frame ∧
    DetectorDemo.receipt_for (concat pre) ≠ Some frame.
Proof.
  exists [bstr "data: he"; bstr "llo world 1"; bstr "data: he"; bstr "llo world 2"].
  eexists _, _, _. split; [vm_compute; reflexivity|]. split; [reflexivity|].
  split; [vm_compute; reflexivity|]. vm_compute. intros H. discriminate H.
Qed.

(** A marker cut by a chunk end is overlooked when the next chunk contains a
    whole one: the first marker is forwarded as data, in front of the receipt. *)
Theorem cut_marker_overlooked :
  ∃ frame d h,
    inspect_all DetectorDemo.detector DetectorDemo.two_markers key hasher_new hasher_new 0
      = Some ([Data (bstr "data: [DO"); Data (bstr "NE] "); AuditReceipt frame;
               DoneMarker marker], d, h).
Proof. eexists _, _, _. vm_compute. reflexivity. Qed.
