(* ===== verification/BudgetQueue.v ===== *)
(** * The byte-budgeted queue ([src/budget_queue.rs])

    Every segment that waits for a client holds permits of two semaphores: its
    tenant's and the global one.  Semaphores are shared through [Arc]s, so the
    model keeps them in a heap and budgets, permits and the tenant table hold
    their addresses; [World] is that heap together with the tenant table and the
    process-wide counter of bytes in use.

    The semaphore is tokio's: the class [SemaphoreApi] has the operations the
    proxy calls and [SemaphoreLaws] what their documentation says of the number
    of available permits.  Dropping a value is the explicit operation
    [drop_permit] or [drop_segment], written where the compiler puts it. *)

From S2P Require Import Prelude.
Local Open Scope Z_scope.

Class SemaphoreApi := {
  Semaphore : Type;
  sem_new : Z → Semaphore;
  available_permits : Semaphore → Z;
  try_acquire_many : Semaphore → Z → option Semaphore;
  add_permits : Semaphore → Z → Semaphore
}.

(** Nobody closes the semaphores of the proxy, so an attempt fails exactly when
    there are not enough permits. *)
Class SemaphoreLaws `{!SemaphoreApi} := {
  sem_new_available n : available_permits (sem_new n) = n;
  try_acquire_enough s n :
    0 ≤ n → n ≤ available_permits s →
    ∃ s', try_acquire_many s n = Some s' ∧ available_permits s' = available_permits s - n;
  try_acquire_short s n : available_permits s < n → try_acquire_many s n = None;
  add_permits_available s n :
    0 ≤ n → available_permits (add_permits s n) = available_permits s + n
}.

Definition GLOBAL_MEMORY_CHUNK : Z := 64 * 1024.
Definition DEFAULT_GLOBAL_MEMORY_BUDGET : Z := 256 * 1024 * 1024.
Definition TENANT_MEMORY_BUDGET : Z := 16 * 1024 * 1024.

Inductive BudgetError := Capacity | TenantLimitExceeded | GlobalLimitExceeded.

#[global] Instance budget_error_eq_dec : EqDecision BudgetError.
Proof. solve_decision. Defined.

(** The address of an [Arc<Semaphore>]. *)
Abbreviation sem_id := nat.

(** [OwnedSemaphorePermit]. *)
Record Permit := { p_sem : sem_id; num_permits : Z }.

Record ByteBudget := {
  bb_semaphore : sem_id;
  bb_global_memory : sem_id;
  bb_capacity : Z
}.

(** The address of an [Arc<DashMap<[u8; 32], Arc<Semaphore>>>]. *)
Abbreviation table_id := nat.

Record TenantBudget := { tb_tenant_budgets : table_id; tb_global_memory : sem_id }.

Record BudgetedSegment := {
  seg_bytes : bytes;
  seg_global_permit : Permit;
  seg_local_permit : Permit
}.

Section Budget.
Context {sem_api : SemaphoreApi}.

Record World := {
  w_sems : gmap sem_id Semaphore;
  w_tables : gmap table_id (gmap bytes sem_id);
  w_in_use : Z;
  w_next : nat
}.

Definition set_sems (w : World) (m : gmap sem_id Semaphore) : World :=
  {| w_sems := m; w_tables := w_tables w; w_in_use := w_in_use w; w_next := w_next w |}.
Definition set_in_use (w : World) (n : Z) : World :=
  {| w_sems := w_sems w; w_tables := w_tables w; w_in_use := n; w_next := w_next w |}.
Definition set_table (w : World) (t : table_id) (m : gmap bytes sem_id) : World :=
  {| w_sems := w_sems w; w_tables := <[t := m]> (w_tables w);
     w_in_use := w_in_use w; w_next := w_next w |}.

(** The entries of a tenant table. *)
Definition table (w : World) (t : table_id) : gmap bytes sem_id := default ∅ (w_tables w !! t).

(** [Arc::new(Semaphore::new(n))]. *)
Definition alloc_sem (w : World) (n : Z) : sem_id * World :=
  (w_next w,
   {| w_sems := <[w_next w := sem_new n]> (w_sems w); w_tables := w_tables w;
      w_in_use := w_in_use w; w_next := S (w_next w) |}).

(** ** Building budgets *)

Definition ByteBudget_from_global_shared (w : World) (global_memory : sem_id) (capacity : Z)
    : option (ByteBudget * World) :=
  if 0 <? capacity then
    let '(semaphore, w) := alloc_sem w capacity in
    Some ({| bb_semaphore := semaphore; bb_global_memory := global_memory;
             bb_capacity := capacity |}, w)
  else None.

Definition ByteBudget_new (w : World) (capacity : Z) : option (ByteBudget * World) :=
  let '(global_memory, w) := alloc_sem w DEFAULT_GLOBAL_MEMORY_BUDGET in
  ByteBudget_from_global_shared w global_memory capacity.

Definition ByteBudget_from_shared (w : World) (semaphore : sem_id) (capacity : Z)
    : option (ByteBudget * World) :=
  if 0 <? capacity then
    let '(global_memory, w) := alloc_sem w DEFAULT_GLOBAL_MEMORY_BUDGET in
    Some ({| bb_semaphore := semaphore; bb_global_memory := global_memory;
             bb_capacity := capacity |}, w)
  else None.

(** [tenant_budgets.entry(id).or_insert_with(..).clone()]. *)
Definition tenant_semaphore (w : World) (tenant_budgets : table_id) (tenant_id : bytes)
    : sem_id * World :=
  match table w tenant_budgets !! tenant_id with
  | Some semaphore => (semaphore, w)
  | None =>
    let '(semaphore, w) := alloc_sem w TENANT_MEMORY_BUDGET in
    (semaphore, set_table w tenant_budgets (<[tenant_id := semaphore]> (table w tenant_budgets)))
  end.

Definition ByteBudget_with_tenant (w : World) (tenant_id : bytes) (tenant_budgets : table_id)
    (global_memory : sem_id) (capacity : Z) : option (ByteBudget * World) :=
  if 0 <? capacity then
    let '(semaphore, w) := tenant_semaphore w tenant_budgets tenant_id in
    Some ({| bb_semaphore := semaphore; bb_global_memory := global_memory;
             bb_capacity := capacity |}, w)
  else None.

Definition TenantBudget_new (w : World) (global_memory : sem_id) : TenantBudget * World :=
  ({| tb_tenant_budgets := w_next w; tb_global_memory := global_memory |},
   {| w_sems := w_sems w; w_tables := <[w_next w := ∅]> (w_tables w);
      w_in_use := w_in_use w; w_next := S (w_next w) |}).

Definition for_tenant (w : World) (t : TenantBudget) (tenant_id : bytes) (capacity : Z)
    : option (ByteBudget * World) :=
  ByteBudget_with_tenant w tenant_id (tb_tenant_budgets t) (tb_global_memory t) capacity.

Definition available (w : World) (b : ByteBudget) : Z :=
  match w_sems w !! bb_semaphore b with Some s => available_permits s | None => 0 end.

(** ** Permits *)

(** [sem.clone().try_acquire_many_owned(n)]. *)
Definition acquire (w : World) (id : sem_id) (n : Z) : option (Permit * World) :=
  s ← w_sems w !! id;
  s' ← try_acquire_many s n;
  Some ({| p_sem := id; num_permits := n |}, set_sems w (<[id := s']> (w_sems w))).

(** Dropping an owned permit returns it to its semaphore. *)
Definition drop_permit (w : World) (p : Permit) : World :=
  match w_sems w !! p_sem p with
  | Some s => set_sems w (<[p_sem p := add_permits s (num_permits p)]> (w_sems w))
  | None => w
  end.

Definition tenant_permit (w : World) (b : ByteBudget) (n : Z)
    : Result BudgetError Permit * World :=
  if (n =? 0) || (bb_capacity b <? n) || (u32_max <? n) then (Err Capacity, w)
  else match acquire w (bb_semaphore b) n with
       | Some (p, w) => (Ok p, w)
       | None => (Err TenantLimitExceeded, w)
       end.

(** What polling [ByteBudget::reserve] gives: [Some None] is a refusal, [None]
    means the future is still waiting for permits. *)
Definition ByteBudget_reserve (w : World) (b : ByteBudget) (n : Z)
    : option (option Permit) * World :=
  if (n =? 0) || (bb_capacity b <? n) || (u32_max <? n) then (Some None, w)
  else match acquire w (bb_semaphore b) n with
       | Some (p, w) => (Some (Some p), w)
       | None => (None, w)
       end.

(** The counter is an [AtomicUsize]: additions and subtractions wrap. *)
Definition record_budget_in_use (w : World) (delta : Z) : World :=
  set_in_use w ((w_in_use w + delta) mod 2 ^ 64).

Definition BudgetedSegment_reserve (w : World) (b : ByteBudget) (data : bytes)
    : Result BudgetError BudgetedSegment * World :=
  match data with
  | [] => (Err Capacity, w)
  | _ =>
    match tenant_permit w b (blen data) with
    | (Err e, w) => (Err e, w)
    | (Ok local_permit, w) =>
      match acquire w (bb_global_memory b) (blen data) with
      | None => (Err GlobalLimitExceeded, drop_permit w local_permit)
      | Some (global_permit, w) =>
        (Ok {| seg_bytes := data; seg_global_permit := global_permit;
               seg_local_permit := local_permit |},
         record_budget_in_use w (blen data))
      end
    end
  end.

Definition permit_count (s : BudgetedSegment) : Z := num_permits (seg_local_permit s).

(** [Drop for BudgetedSegment], then the fields in declaration order. *)
Definition drop_segment (w : World) (s : BudgetedSegment) : World :=
  let w := record_budget_in_use w (- permit_count s) in
  let w := drop_permit w (seg_global_permit s) in
  drop_permit w (seg_local_permit s).

(** ** Slicing a payload into segments *)

(** [(0..bytes.len()).step_by(n)] and [bytes.slice(start..min(start + n, len))]:
    the payload in slices of [n] bytes.  The fuel is the payload's length, since
    every slice takes at least one byte. *)
Fixpoint slices (fuel : nat) (n : nat) (data : bytes) : list bytes :=
  match fuel, data with
  | O, _ | _, [] => []
  | S fuel, _ => take n data :: slices fuel n (drop n data)
  end.

Definition segments_of (b : ByteBudget) (data : bytes) : list bytes :=
  slices (length data) (Z.to_nat (bb_capacity b)) data.

(** ** The channel *)

(** A bounded [mpsc] channel: its capacity, the segments in it, whether the
    receiver and some sender are alive. *)
Record Channel := {
  ch_items : nat;
  ch_segments : list BudgetedSegment;
  ch_receiver : bool;
  ch_sender : bool
}.

Definition channel (items : nat) : option Channel :=
  if (0 <? items)%nat
  then Some {| ch_items := items; ch_segments := []; ch_receiver := true; ch_sender := true |}
  else None.

Definition set_segments (ch : Channel) (q : list BudgetedSegment) : Channel :=
  {| ch_items := ch_items ch; ch_segments := q; ch_receiver := ch_receiver ch;
     ch_sender := ch_sender ch |}.

(** The last sender is dropped. *)
Definition drop_sender (ch : Channel) : Channel :=
  {| ch_items := ch_items ch; ch_segments := ch_segments ch; ch_receiver := ch_receiver ch;
     ch_sender := false |}.

(** [EnqueueError::Closed] carries the segment that was not sent; every caller
    drops the error, and with it the segment, at once, so the model drops the
    segment where the error is made. *)
Inductive EnqueueError := EnqueueCapacity | EnqueueBudget (e : BudgetError) | EnqueueClosed.

(** Where a call of [enqueue] is: about to reserve the next slice, waiting in
    [send] with a reserved segment, or returned. *)
Inductive EnqueueState :=
| EnqReady (todo : list bytes)
| EnqSending (segment : BudgetedSegment) (todo : list bytes)
| EnqDone (r : Result EnqueueError unit).

Definition enqueue_start (b : ByteBudget) (data : bytes) : EnqueueState :=
  match data with [] => EnqDone (Ok tt) | _ => EnqReady (segments_of b data) end.

(** One poll of the [enqueue] future up to its next suspension point. *)
Definition enqueue_step (b : ByteBudget) (w : World) (ch : Channel) (st : EnqueueState)
    : EnqueueState * Channel * World :=
  match st with
  | EnqDone r => (EnqDone r, ch, w)
  | EnqReady [] => (EnqDone (Ok tt), ch, w)
  | EnqReady (data :: todo) =>
    match BudgetedSegment_reserve w b data with
    | (Err e, w) => (EnqDone (Err (EnqueueBudget e)), ch, w)
    | (Ok segment, w) => (EnqSending segment todo, ch, w)
    end
  | EnqSending segment todo =>
    if negb (ch_receiver ch) then (EnqDone (Err EnqueueClosed), ch, drop_segment w segment)
    else if (length (ch_segments ch) <? ch_items ch)%nat
    then (EnqReady todo, set_segments ch (ch_segments ch ++ [segment]), w)
    else (EnqSending segment todo, ch, w)
  end.

(** [enqueue_with_timeout]: when the timer fires the future is dropped, with the
    segment it holds, and the caller gets [EnqueueError::Capacity]. *)
Definition enqueue_timeout (w : World) (st : EnqueueState) : EnqueueState * World :=
  match st with
  | EnqSending segment _ => (EnqDone (Err EnqueueCapacity), drop_segment w segment)
  | EnqReady _ => (EnqDone (Err EnqueueCapacity), w)
  | EnqDone r => (EnqDone r, w)
  end.

(** The future polled [n] times with nobody reading in between. *)
Fixpoint enqueue_run (n : nat) (b : ByteBudget) (w : World) (ch : Channel) (st : EnqueueState)
    : EnqueueState * Channel * World :=
  match n with
  | O => (st, ch, w)
  | S n => let '(st, ch, w) := enqueue_step b w ch st in enqueue_run n b w ch st
  end.

(** ** The response body *)

Record BudgetedBody := { in_flight : option BudgetedSegment; ended : bool }.

Definition BudgetedBody_new : BudgetedBody := {| in_flight := None; ended := false |}.

Inductive PollFrame := PollReady (frame : option bytes) | PollPending.

Definition drop_option (w : World) (s : option BudgetedSegment) : World :=
  match s with Some s => drop_segment w s | None => w end.

Definition poll_frame (w : World) (ch : Channel) (body : BudgetedBody)
    : PollFrame * BudgetedBody * Channel * World :=
  if ended body then (PollReady None, body, ch, w)
  else
    let w := drop_option w (in_flight body) in
    match ch_segments ch with
    | segment :: q =>
      (PollReady (Some (seg_bytes segment)),
       {| in_flight := Some segment; ended := false |}, set_segments ch q, w)
    | [] =>
      if ch_sender ch
      then (PollPending, {| in_flight := None; ended := false |}, ch, w)
      else (PollReady None, {| in_flight := None; ended := true |}, ch, w)
    end.

Definition is_end_stream (body : BudgetedBody) : bool := ended body.

(** Dropping the body drops the receiver, which drains the channel. *)
Definition drop_body (w : World) (ch : Channel) (body : BudgetedBody) : Channel * World :=
  ({| ch_items := ch_items ch; ch_segments := []; ch_receiver := false;
      ch_sender := ch_sender ch |},
   drop_option (foldl drop_segment w (ch_segments ch)) (in_flight body)).

End Budget.
