(* ===== verification/BudgetQueueProofs.v ===== *)
(** * Correctness of the byte-budgeted queue

    Permits are conserved by every operation and interleaving, a payload is cut
    into segments that fit the budget, and what the client receives is what was
    enqueued, in order. *)

From S2P Require Import Prelude BudgetQueue.
Local Open Scope Z_scope.

(** ** Accounting *)

Section Accounting.
Context {sem_api : SemaphoreApi} {sem_laws : SemaphoreLaws}.

(** Permits of semaphore [id] among [ps]. *)
Definition held (ps : list Permit) (id : sem_id) : Z :=
  foldr (λ p n, (if decide (p_sem p = id) then num_permits p else 0) + n) 0 ps.
Arguments held : simpl never.

Definition segment_permits (s : BudgetedSegment) : list Permit :=
  [seg_global_permit s; seg_local_permit s].
Definition permits_of (segs : list BudgetedSegment) : list Permit :=
  concat (segment_permits <$> segs).

Definition local_total (segs : list BudgetedSegment) : Z :=
  foldr (λ s n, permit_count s + n) 0 segs.
Arguments local_total : simpl never.

Lemma local_total_cons s segs : local_total (s :: segs) = permit_count s + local_total segs.
Proof. done. Qed.

(** Every permit of semaphore [id], of which there are [total id], is either
    available or in one of the permits [ps]. *)
Record conserved (total : sem_id → Z) (w : World) (ps : list Permit) : Prop := {
  cons_sem id s : w_sems w !! id = Some s → available_permits s + held ps id = total id;
  cons_known p : p ∈ ps → is_Some (w_sems w !! p_sem p) ∧ 0 ≤ num_permits p
}.

(** The live segments [segs] and the other permits [ps] account for everything
    that is out, and the process-wide counter is the bytes of the segments. *)
Record accounted (total : sem_id → Z) (w : World)
    (segs : list BudgetedSegment) (ps : list Permit) : Prop := {
  acc_conserved : conserved total w (permits_of segs ++ ps);
  acc_in_use : w_in_use w = local_total segs mod 2 ^ 64
}.

#[global] Instance held_proper : Proper (Permutation ==> eq ==> eq) held.
Proof.
  intros ps ps' H id ? <-. unfold held. induction H; cbn in *; lia.
Qed.

Lemma held_cons p ps id :
  held (p :: ps) id = (if decide (p_sem p = id) then num_permits p else 0) + held ps id.
Proof. done. Qed.

Lemma held_app a b id : held (a ++ b) id = held a id + held b id.
Proof. unfold held. induction a as [|p a IH]; cbn in *; lia. Qed.

#[global] Instance conserved_proper total w :
  Proper (Permutation ==> iff) (conserved total w).
Proof.
  assert (∀ ps ps', ps ≡ₚ ps' → conserved total w ps → conserved total w ps') as K.
  { intros ps ps' H [H1 H2]. split.
    - intros id s Hs. rewrite <-H. auto.
    - intros p Hp. rewrite <-H in Hp. auto. }
  intros ps ps' H. split; apply K; [done|by symmetry].
Qed.

#[global] Instance permits_of_proper : Proper (Permutation ==> Permutation) permits_of.
Proof. intros a b H. unfold permits_of. by rewrite H. Qed.

#[global] Instance local_total_proper : Proper (Permutation ==> eq) local_total.
Proof. intros a b H. unfold local_total. induction H; cbn in *; lia. Qed.

#[global] Instance accounted_proper total w :
  Proper (Permutation ==> Permutation ==> iff) (accounted total w).
Proof.
  intros a b H ps ps' H'. split; intros [H1 H2]; split.
  - by rewrite <-H, <-H'.
  - by rewrite <-H.
  - by rewrite H, H'.
  - by rewrite H.
Qed.

Lemma conserved_acquire total w ps id n p w' :
  conserved total w ps → 0 ≤ n → acquire w id n = Some (p, w') →
  conserved total w' (p :: ps) ∧ p = {| p_sem := id; num_permits := n |} ∧
  w_in_use w' = w_in_use w.
Proof.
  intros [H1 H2] Hn. unfold acquire.
  destruct (w_sems w !! id) as [s|] eqn:Es; cbn; [|done].
  destruct (try_acquire_many s n) as [s'|] eqn:Ea; cbn; [|done]. intros [= <- <-].
  assert (available_permits s' = available_permits s - n) as Hs'.
  { destruct (decide (n ≤ available_permits s)) as [Hle|Hgt].
    - destruct (try_acquire_enough s n Hn Hle) as (s2 & E2 & ?). congruence.
    - rewrite try_acquire_short in Ea by lia. done. }
  split_and!; [|done|done]. split; cbn.
  - intros id' s'' Hl. rewrite lookup_insert in Hl. case_decide as Hd.
    + injection Hl as <-. subst id'. rewrite held_cons, decide_True by done. cbn.
      specialize (H1 _ _ Es). lia.
    + rewrite held_cons, decide_False by done. specialize (H1 _ _ Hl). lia.
  - intros q [->|Hq]%elem_of_cons; cbn.
    + split; [rewrite lookup_insert_eq; eauto|done].
    + destruct (H2 q Hq) as [Hk ?]. split; [|done].
      rewrite lookup_insert. case_decide; [eauto|done].
Qed.

Lemma conserved_drop total w p ps :
  conserved total w (p :: ps) → conserved total (drop_permit w p) ps.
Proof.
  intros [H1 H2]. destruct (H2 p ltac:(left)) as [[s Hs] Hn].
  unfold drop_permit. rewrite Hs. split; cbn.
  - intros id s' Hl. rewrite lookup_insert in Hl. case_decide as Hd.
    + injection Hl as <-. subst id. rewrite add_permits_available by done.
      specialize (H1 _ _ Hs). rewrite held_cons, decide_True in H1 by done. lia.
    + specialize (H1 _ _ Hl). rewrite held_cons, decide_False in H1 by done. lia.
  - intros q Hq. destruct (H2 q ltac:(by right)) as [Hk ?]. split; [|done].
    rewrite lookup_insert. case_decide; [eauto|done].
Qed.

Lemma drop_permit_in_use w p : w_in_use (drop_permit w p) = w_in_use w.
Proof. unfold drop_permit. by destruct (w_sems w !! p_sem p). Qed.

Lemma conserved_in_use total w ps n :
  conserved total (set_in_use w n) ps ↔ conserved total w ps.
Proof. split; intros [H1 H2]; by split. Qed.

(** ** Reserving and dropping a segment *)

Lemma accounted_drop total w s segs ps :
  accounted total w (s :: segs) ps → accounted total (drop_segment w s) segs ps.
Proof.
  intros [Hc Hu]. unfold drop_segment. split.
  - apply conserved_drop.
    assert (conserved total (drop_permit (record_budget_in_use w (- permit_count s))
              (seg_global_permit s)) (seg_local_permit s :: permits_of segs ++ ps)) as K;
      [|done].
    apply conserved_drop. by apply conserved_in_use.
  - rewrite !drop_permit_in_use. cbn. rewrite Hu, local_total_cons.
    rewrite Z.add_mod_idemp_l by done. f_equal. lia.
Qed.

Lemma accounted_drop_all total w segs' segs ps :
  accounted total w (segs' ++ segs) ps → accounted total (foldl drop_segment w segs') segs ps.
Proof.
  revert w. induction segs' as [|s segs' IH]; intros w H; cbn in *; [done|].
  apply IH. by apply accounted_drop.
Qed.

Lemma accounted_drop_option total w o segs ps :
  accounted total w (option_list o ++ segs) ps → accounted total (drop_option w o) segs ps.
Proof. destruct o; cbn; [apply accounted_drop|done]. Qed.

(** A segment that holds one permit per byte on either semaphore of [b]. *)
Definition segment_ok (b : ByteBudget) (s : BudgetedSegment) : Prop :=
  seg_local_permit s = {| p_sem := bb_semaphore b; num_permits := blen (seg_bytes s) |} ∧
  seg_global_permit s = {| p_sem := bb_global_memory b; num_permits := blen (seg_bytes s) |} ∧
  seg_bytes s ≠ [] ∧ blen (seg_bytes s) ≤ bb_capacity b.

Lemma tenant_permit_Ok w b n p w' :
  tenant_permit w b n = (Ok p, w') →
  n ≠ 0 ∧ n ≤ bb_capacity b ∧ acquire w (bb_semaphore b) n = Some (p, w').
Proof.
  unfold tenant_permit. destruct (_ || _) eqn:E; [done|].
  destruct (acquire _ _ _) as [[p' w2]|] eqn:Ea; [|done]. intros [= <- <-]. bool_props.
  rewrite Z.eqb_neq in *. rewrite Z.ltb_ge in *. done.
Qed.

Lemma tenant_permit_Err w b n e w' : tenant_permit w b n = (Err e, w') → w' = w.
Proof.
  unfold tenant_permit. destruct (_ || _); [by intros [= <- <-]|].
  destruct (acquire _ _ _) as [[p' w2]|]; [done|]. by intros [= <- <-].
Qed.

Lemma accounted_reserve total w b data segs ps r w' :
  accounted total w segs ps → BudgetedSegment_reserve w b data = (r, w') →
  match r with
  | Ok s => accounted total w' (s :: segs) ps ∧ segment_ok b s ∧ seg_bytes s = data
  | Err _ => accounted total w' segs ps
  end.
Proof.
  intros [Hc Hu]. unfold BudgetedSegment_reserve.
  destruct data as [|x data]; [by intros [= <- <-]|]. set (d := x :: data).
  destruct (tenant_permit w b (blen d)) as [[lp|e] w1] eqn:Et.
  2:{ intros [= <- <-]. by rewrite (tenant_permit_Err _ _ _ _ _ Et). }
  apply tenant_permit_Ok in Et as (Hn & Hcap & Ea).
  assert (0 ≤ blen d) as Hpos by (unfold blen; lia).
  destruct (conserved_acquire _ _ _ _ _ _ _ Hc Hpos Ea) as (Hc1 & Elp & Hu1).
  destruct (acquire w1 (bb_global_memory b) (blen d)) as [[gp w2]|] eqn:Eg;
    intros [= <- <-].
  - destruct (conserved_acquire _ _ _ _ _ _ _ Hc1 Hpos Eg) as (Hc2 & Egp & Hu2).
    split_and!; [|done|done]. split; cbn.
    + apply conserved_in_use. by subst.
    + rewrite Hu2, Hu1, Hu, local_total_cons. unfold permit_count. cbn. subst lp. cbn.
      rewrite Z.add_mod_idemp_l by done. f_equal. lia.
  - split; [by apply conserved_drop|]. by rewrite drop_permit_in_use, Hu1.
Qed.

(** ** Slices *)

Lemma slices_spec fuel n data :
  (0 < n)%nat → (length data ≤ fuel)%nat →
  concat (slices fuel n data) = data ∧
  Forall (λ s, s ≠ [] ∧ (length s ≤ n)%nat) (slices fuel n data).
Proof.
  intros Hn. revert data. induction fuel as [|fuel IH]; intros data Hl.
  { destruct data; [done|cbn in Hl; lia]. }
  destruct data as [|x data]; [done|]. cbn [slices].
  destruct (IH (drop n (x :: data))) as [H1 H2].
  { rewrite length_drop. cbn in *. lia. }
  split.
  - cbn [concat]. rewrite H1. apply take_drop.
  - constructor; [|done]. split; [destruct n; [lia|done]|]. rewrite length_take. lia.
Qed.

Lemma segments_of_spec b data :
  0 < bb_capacity b →
  concat (segments_of b data) = data ∧
  Forall (λ s, s ≠ [] ∧ blen s ≤ bb_capacity b) (segments_of b data).
Proof.
  intros Hb. unfold segments_of.
  destruct (slices_spec (length data) (Z.to_nat (bb_capacity b)) data) as [H1 H2]; [lia|lia|].
  split; [done|]. eapply Forall_impl; [exact H2|]. intros s [? ?]. split; [done|].
  unfold blen. lia.
Qed.

(** ** The queue, its producer and its consumer, interleaved *)

(** One stream: the future of the current [enqueue] call, the channel, the
    response body (until it is dropped), and what other streams hold of the
    shared semaphores.  The last three fields record history: the bytes already
    in the channel when the last call of [enqueue] began followed by that call's
    payload, the bytes put in the channel, and the bytes handed to the client. *)
Record Sys := {
  sy_world : World;
  sy_channel : Channel;
  sy_enqueue : EnqueueState;
  sy_body : option BudgetedBody;
  sy_other_segments : list BudgetedSegment;
  sy_other_permits : list Permit;
  sy_accepted : bytes;
  sy_sent : bytes;
  sy_received : bytes
}.

Definition queued (ch : Channel) : bytes := concat (seg_bytes <$> ch_segments ch).

(** The bytes a step of the producer has added to the channel. *)
Definition newly_queued (ch ch' : Channel) : bytes :=
  concat (seg_bytes <$> drop (length (ch_segments ch)) (ch_segments ch')).

Definition frame_bytes (f : PollFrame) : bytes :=
  match f with PollReady (Some b) => b | _ => [] end.

Variable b : ByteBudget.
Hypothesis b_capacity : 0 < bb_capacity b.

Inductive step : Sys → Sys → Prop :=
| step_begin w ch r body os op acc sent rcv data :
    ch_sender ch = true →
    step {| sy_world := w; sy_channel := ch; sy_enqueue := EnqDone r; sy_body := body;
            sy_other_segments := os; sy_other_permits := op;
            sy_accepted := acc; sy_sent := sent; sy_received := rcv |}
         {| sy_world := w; sy_channel := ch; sy_enqueue := enqueue_start b data;
            sy_body := body; sy_other_segments := os; sy_other_permits := op;
            sy_accepted := sent ++ data; sy_sent := sent; sy_received := rcv |}
| step_enqueue w ch st body os op acc sent rcv st' ch' w' :
    enqueue_step b w ch st = (st', ch', w') →
    step {| sy_world := w; sy_channel := ch; sy_enqueue := st; sy_body := body;
            sy_other_segments := os; sy_other_permits := op;
            sy_accepted := acc; sy_sent := sent; sy_received := rcv |}
         {| sy_world := w'; sy_channel := ch'; sy_enqueue := st'; sy_body := body;
            sy_other_segments := os; sy_other_permits := op;
            sy_accepted := acc; sy_sent := sent ++ newly_queued ch ch'; sy_received := rcv |}
| step_timeout w ch st body os op acc sent rcv st' w' :
    enqueue_timeout w st = (st', w') →
    step {| sy_world := w; sy_channel := ch; sy_enqueue := st; sy_body := body;
            sy_other_segments := os; sy_other_permits := op;
            sy_accepted := acc; sy_sent := sent; sy_received := rcv |}
         {| sy_world := w'; sy_channel := ch; sy_enqueue := st'; sy_body := body;
            sy_other_segments := os; sy_other_permits := op;
            sy_accepted := acc; sy_sent := sent; sy_received := rcv |}
| step_drop_sender w ch r body os op acc sent rcv :
    step {| sy_world := w; sy_channel := ch; sy_enqueue := EnqDone r; sy_body := body;
            sy_other_segments := os; sy_other_permits := op;
            sy_accepted := acc; sy_sent := sent; sy_received := rcv |}
         {| sy_world := w; sy_channel := drop_sender ch; sy_enqueue := EnqDone r;
            sy_body := body; sy_other_segments := os; sy_other_permits := op;
            sy_accepted := acc; sy_sent := sent; sy_received := rcv |}
| step_poll w ch st body os op acc sent rcv f body' ch' w' :
    poll_frame w ch body = (f, body', ch', w') →
    step {| sy_world := w; sy_channel := ch; sy_enqueue := st; sy_body := Some body;
            sy_other_segments := os; sy_other_permits := op;
            sy_accepted := acc; sy_sent := sent; sy_received := rcv |}
         {| sy_world := w'; sy_channel := ch'; sy_enqueue := st; sy_body := Some body';
            sy_other_segments := os; sy_other_permits := op;
            sy_accepted := acc; sy_sent := sent; sy_received := rcv ++ frame_bytes f |}
| step_drop_body w ch st body os op acc sent rcv ch' w' :
    drop_body w ch body = (ch', w') →
    step {| sy_world := w; sy_channel := ch; sy_enqueue := st; sy_body := Some body;
            sy_other_segments := os; sy_other_permits := op;
            sy_accepted := acc; sy_sent := sent; sy_received := rcv |}
         {| sy_world := w'; sy_channel := ch'; sy_enqueue := st; sy_body := None;
            sy_other_segments := os; sy_other_permits := op;
            sy_accepted := acc; sy_sent := sent; sy_received := rcv |}
| step_other_reserve w ch st body os op acc sent rcv b' data r w' :
    BudgetedSegment_reserve w b' data = (r, w') →
    step {| sy_world := w; sy_channel := ch; sy_enqueue := st; sy_body := body;
            sy_other_segments := os; sy_other_permits := op;
            sy_accepted := acc; sy_sent := sent; sy_received := rcv |}
         {| sy_world := w'; sy_channel := ch; sy_enqueue := st; sy_body := body;
            sy_other_segments := match r with Ok s => s :: os | Err _ => os end;
            sy_other_permits := op;
            sy_accepted := acc; sy_sent := sent; sy_received := rcv |}
| step_other_drop w ch st body s os op acc sent rcv :
    step {| sy_world := w; sy_channel := ch; sy_enqueue := st; sy_body := body;
            sy_other_segments := s :: os; sy_other_permits := op;
            sy_accepted := acc; sy_sent := sent; sy_received := rcv |}
         {| sy_world := drop_segment w s; sy_channel := ch; sy_enqueue := st; sy_body := body;
            sy_other_segments := os; sy_other_permits := op;
            sy_accepted := acc; sy_sent := sent; sy_received := rcv |}
| step_other_acquire w ch st body os op acc sent rcv id n p w' :
    0 ≤ n → acquire w id n = Some (p, w') →
    step {| sy_world := w; sy_channel := ch; sy_enqueue := st; sy_body := body;
            sy_other_segments := os; sy_other_permits := op;
            sy_accepted := acc; sy_sent := sent; sy_received := rcv |}
         {| sy_world := w'; sy_channel := ch; sy_enqueue := st; sy_body := body;
            sy_other_segments := os; sy_other_permits := p :: op;
            sy_accepted := acc; sy_sent := sent; sy_received := rcv |}
| step_other_release w ch st body os p op acc sent rcv :
    step {| sy_world := w; sy_channel := ch; sy_enqueue := st; sy_body := body;
            sy_other_segments := os; sy_other_permits := p :: op;
            sy_accepted := acc; sy_sent := sent; sy_received := rcv |}
         {| sy_world := drop_permit w p; sy_channel := ch; sy_enqueue := st; sy_body := body;
            sy_other_segments := os; sy_other_permits := op;
            sy_accepted := acc; sy_sent := sent; sy_received := rcv |}.

(** The segments a call of [enqueue] holds, and the bytes it still has to put in
    the channel. *)
Definition enqueue_segments (st : EnqueueState) : list BudgetedSegment :=
  match st with EnqSending s _ => [s] | _ => [] end.
Definition enqueue_todo (st : EnqueueState) : bytes :=
  match st with
  | EnqReady todo => concat todo
  | EnqSending s todo => seg_bytes s ++ concat todo
  | EnqDone _ => []
  end.

Definition body_segments (body : option BudgetedBody) : list BudgetedSegment :=
  match body with Some body => option_list (in_flight body) | None => [] end.

Definition live_segments (s : Sys) : list BudgetedSegment :=
  enqueue_segments (sy_enqueue s) ++ ch_segments (sy_channel s)
    ++ body_segments (sy_body s) ++ sy_other_segments s.

Record sys_inv (total : sem_id → Z) (s : Sys) : Prop := {
  inv_accounted : accounted total (sy_world s) (live_segments s) (sy_other_permits s);
  inv_bounded : (length (ch_segments (sy_channel s)) ≤ ch_items (sy_channel s))%nat;
  inv_receiver : ch_receiver (sy_channel s) = bool_decide (sy_body s ≠ None);
  inv_dropped : sy_body s = None → ch_segments (sy_channel s) = [];
  inv_ended body : sy_body s = Some body → ended body = true → ch_segments (sy_channel s) = []
                   ∧ in_flight body = None ∧ ch_sender (sy_channel s) = false;
  inv_sender : ch_sender (sy_channel s) = false → ∃ r, sy_enqueue s = EnqDone r;
  inv_fifo : sy_received s `prefix_of` sy_sent s;
  inv_queue : sy_body s ≠ None → sy_received s ++ queued (sy_channel s) = sy_sent s;
  inv_todo : match sy_enqueue s with
             | EnqDone (Err _) => sy_sent s `prefix_of` sy_accepted s
             | st => sy_sent s ++ enqueue_todo st = sy_accepted s
             end
}.


Lemma newly_queued_same ch : newly_queued ch ch = [].
Proof. unfold newly_queued. by rewrite drop_all. Qed.

Lemma newly_queued_push ch s :
  newly_queued ch (set_segments ch (ch_segments ch ++ [s])) = seg_bytes s.
Proof. unfold newly_queued. cbn. rewrite drop_app_length. cbn. by rewrite app_nil_r. Qed.

Lemma concat_snoc l s :
  concat (seg_bytes <$> (l ++ [s])) = concat (seg_bytes <$> l) ++ seg_bytes s.
Proof. rewrite fmap_app, concat_app. cbn. by rewrite app_nil_r. Qed.

(** Reordering the segments of an accounting. *)
Ltac acc_perm H := eapply accounted_proper; [| |exact H]; [solve_Permutation|done].
Ltac inv_split H := destruct H as [Ha Hb Hr Hd He Hs Hf Hq Ht]; cbn in *.

Lemma inv_begin total w ch r body os op acc sent rcv data :
  ch_sender ch = true →
  sys_inv total {| sy_world := w; sy_channel := ch; sy_enqueue := EnqDone r; sy_body := body;
    sy_other_segments := os; sy_other_permits := op;
    sy_accepted := acc; sy_sent := sent; sy_received := rcv |} →
  sys_inv total {| sy_world := w; sy_channel := ch; sy_enqueue := enqueue_start b data;
    sy_body := body; sy_other_segments := os; sy_other_permits := op;
    sy_accepted := sent ++ data; sy_sent := sent; sy_received := rcv |}.
Proof.
  intros Hsend H. inv_split H. constructor; cbn in *; try done.
  - unfold live_segments in *. cbn in *. by destruct data.
  - by rewrite Hsend.
  - destruct data as [|x data]; [done|]. cbn [enqueue_start enqueue_todo].
    by rewrite (proj1 (segments_of_spec b (x :: data) b_capacity)).
Qed.

Lemma inv_enqueue total w ch st body os op acc sent rcv st' ch' w' :
  enqueue_step b w ch st = (st', ch', w') →
  sys_inv total {| sy_world := w; sy_channel := ch; sy_enqueue := st; sy_body := body;
    sy_other_segments := os; sy_other_permits := op;
    sy_accepted := acc; sy_sent := sent; sy_received := rcv |} →
  sys_inv total {| sy_world := w'; sy_channel := ch'; sy_enqueue := st'; sy_body := body;
    sy_other_segments := os; sy_other_permits := op;
    sy_accepted := acc; sy_sent := sent ++ newly_queued ch ch'; sy_received := rcv |}.
Proof.
  intros E H. inv_split H. unfold live_segments in Ha; cbn in Ha.
  destruct st as [[|data todo]|s todo|r]; cbn in E.
  - injection E as <- <- <-. rewrite newly_queued_same, app_nil_r.
    constructor; cbn; eauto.
  - destruct (BudgetedSegment_reserve w b data) as [[s|e] w1] eqn:Er;
      injection E as <- <- <-; rewrite newly_queued_same, app_nil_r;
      apply (accounted_reserve _ _ _ _ _ _ _ _ Ha) in Er.
    + destruct Er as (Ha' & _ & <-). constructor; cbn; try done.
      intros Hx. by destruct (Hs Hx).
    + constructor; cbn; eauto. rewrite <-Ht. by apply prefix_app_r.
  - destruct (ch_receiver ch) eqn:Erc; cbn in E; [destruct (_ <? _)%nat eqn:El|];
      injection E as <- <- <-;
      rewrite ?newly_queued_push, ?newly_queued_same, ?app_nil_r.
    + apply Nat.ltb_lt in El. constructor; cbn; try done.
      * unfold live_segments; cbn. by acc_perm Ha.
      * simp_len. lia.
      * by rewrite Erc.
      * intros ->. by cbn in Hr.
      * intros b' Hb' Hend. destruct (He b' Hb' Hend) as (_ & _ & Hx). by destruct (Hs Hx).
      * intros Hx. by destruct (Hs Hx).
      * by apply prefix_app_r.
      * intros Hx. specialize (Hq Hx). unfold queued in *. cbn.
        by rewrite concat_snoc, app_assoc, Hq.
      * by rewrite <-app_assoc.
    + constructor; cbn; eauto.
    + constructor; cbn; eauto.
      * by apply accounted_drop.
      * rewrite <-Ht. by apply prefix_app_r.
  - injection E as <- <- <-. rewrite newly_queued_same, app_nil_r. constructor; cbn; eauto.
Qed.

Lemma inv_timeout total w ch st body os op acc sent rcv st' w' :
  enqueue_timeout w st = (st', w') →
  sys_inv total {| sy_world := w; sy_channel := ch; sy_enqueue := st; sy_body := body;
    sy_other_segments := os; sy_other_permits := op;
    sy_accepted := acc; sy_sent := sent; sy_received := rcv |} →
  sys_inv total {| sy_world := w'; sy_channel := ch; sy_enqueue := st'; sy_body := body;
    sy_other_segments := os; sy_other_permits := op;
    sy_accepted := acc; sy_sent := sent; sy_received := rcv |}.
Proof.
  intros E H. inv_split H. unfold live_segments in Ha; cbn in Ha.
  destruct st as [todo|s todo|r]; injection E as <- <-; constructor; cbn; eauto;
    try (rewrite <-Ht; by apply prefix_app_r).
  by apply accounted_drop.
Qed.

Lemma inv_poll total w ch st body os op acc sent rcv f body' ch' w' :
  poll_frame w ch body = (f, body', ch', w') →
  sys_inv total {| sy_world := w; sy_channel := ch; sy_enqueue := st; sy_body := Some body;
    sy_other_segments := os; sy_other_permits := op;
    sy_accepted := acc; sy_sent := sent; sy_received := rcv |} →
  sys_inv total {| sy_world := w'; sy_channel := ch'; sy_enqueue := st; sy_body := Some body';
    sy_other_segments := os; sy_other_permits := op;
    sy_accepted := acc; sy_sent := sent; sy_received := rcv ++ frame_bytes f |}.
Proof.
  intros E H. inv_split H. unfold live_segments in Ha; cbn in Ha. unfold poll_frame in E.
  destruct (ended body) eqn:Een.
  { injection E as <- <- <- <-. cbn. rewrite app_nil_r. constructor; cbn; eauto. }
  assert (accounted total (drop_option w (in_flight body))
            (enqueue_segments st ++ ch_segments ch ++ os) op) as Ha'.
  { apply accounted_drop_option. acc_perm Ha. }
  specialize (Hq ltac:(done)). unfold queued in Hq.
  destruct (ch_segments ch) as [|s q] eqn:Ech; [destruct (ch_sender ch) eqn:Esn|];
    injection E as <- <- <- <-; cbn in *; rewrite ?app_nil_r.
  - constructor; cbn; rewrite ?Ech, ?Esn; try done.
    + unfold live_segments; cbn. by rewrite Ech.
    + by intros b' [= <-].
    + intros _. unfold queued. by rewrite Ech.
  - constructor; cbn; rewrite ?Ech, ?Esn; try done.
    + unfold live_segments; cbn. by rewrite Ech.
    + by intros b' [= <-].
    + intros _. unfold queued. by rewrite Ech.
  - constructor; cbn; try done.
    + unfold live_segments; cbn. acc_perm Ha'.
    + lia.
    + by intros b' [= <-].
    + rewrite <-Hq, app_assoc. by apply prefix_app_r.
    + intros _. unfold queued; cbn. by rewrite <-app_assoc.
Qed.

Lemma inv_drop_body total w ch st body os op acc sent rcv ch' w' :
  drop_body w ch body = (ch', w') →
  sys_inv total {| sy_world := w; sy_channel := ch; sy_enqueue := st; sy_body := Some body;
    sy_other_segments := os; sy_other_permits := op;
    sy_accepted := acc; sy_sent := sent; sy_received := rcv |} →
  sys_inv total {| sy_world := w'; sy_channel := ch'; sy_enqueue := st; sy_body := None;
    sy_other_segments := os; sy_other_permits := op;
    sy_accepted := acc; sy_sent := sent; sy_received := rcv |}.
Proof.
  intros [= <- <-] H. inv_split H. unfold live_segments in Ha; cbn in Ha.
  constructor; cbn; try done; [|lia].
  unfold live_segments; cbn. apply accounted_drop_option, accounted_drop_all.
  acc_perm Ha.
Qed.

(** Every step keeps the invariant. *)
Lemma inv_step total s s' : step s s' → sys_inv total s → sys_inv total s'.
Proof.
  intros Hstep Hi. destruct Hstep;
    try solve [eauto using inv_begin, inv_enqueue, inv_timeout, inv_poll, inv_drop_body].
  - inv_split Hi. constructor; cbn; eauto.
    intros body' Hb' Hend. destruct (He body' Hb' Hend) as (? & ? & ?). done.
  - inv_split Hi. unfold live_segments in Ha; cbn in Ha. constructor; cbn; try done.
    unfold live_segments; cbn. rename H into Er.
    apply (accounted_reserve _ _ _ _ _ _ _ _ Ha) in Er. destruct r as [s|e]; [|done].
    destruct Er as [Er _]. acc_perm Er.
  - inv_split Hi. unfold live_segments in Ha; cbn in Ha. constructor; cbn; try done.
    unfold live_segments; cbn. apply accounted_drop. acc_perm Ha.
  - inv_split Hi. destruct Ha as [Hc Hu]. constructor; cbn; try done.
    destruct (conserved_acquire _ _ _ _ _ _ _ Hc H H0) as (Hc' & _ & Hu').
    split; cbn; [|by rewrite Hu']. eapply conserved_proper; [|exact Hc']. solve_Permutation.
  - inv_split Hi. destruct Ha as [Hc Hu]. constructor; cbn; try done.
    split; cbn; [|by rewrite drop_permit_in_use]. apply conserved_drop.
    eapply conserved_proper; [|exact Hc]. solve_Permutation.
Qed.

(** A stream when its handler has just made the channel and the body, in a world
    where other streams hold the segments [os] and the permits [op]. *)
Definition stream_init (w : World) (ch : Channel) os op : Sys :=
  {| sy_world := w; sy_channel := ch; sy_enqueue := EnqDone (Ok tt);
     sy_body := Some BudgetedBody_new; sy_other_segments := os; sy_other_permits := op;
     sy_accepted := []; sy_sent := []; sy_received := [] |}.

Lemma inv_init total w items ch os op :
  accounted total w os op → channel items = Some ch → sys_inv total (stream_init w ch os op).
Proof.
  intros Ha. unfold channel. destruct (0 <? items)%nat; [|done]. intros [= <-].
  constructor; cbn; try done; try lia; try (by intros ? [= <-]).
Qed.

Lemma inv_reachable total w items ch os op s :
  accounted total w os op → channel items = Some ch →
  rtc step (stream_init w ch os op) s → sys_inv total s.
Proof.
  intros Ha Hch. generalize (inv_init _ _ _ _ _ _ Ha Hch).
  generalize (stream_init w ch os op). intros s0 Hinv Hrtc. revert Hinv.
  induction Hrtc; eauto using inv_step.
Qed.

(** Whatever the producer, the client, the timers and the other streams do,
    in any order, every permit of every semaphore is either available or held by
    a live segment or an outstanding permit, and the process-wide counter is the
    number of bytes of the live segments (modulo the width of the counter).  In
    particular, once nothing is live every semaphore is full again. *)
Theorem budget_conserved total w items ch os op s :
  accounted total w os op → channel items = Some ch →
  rtc step (stream_init w ch os op) s →
  (∀ id sem, w_sems (sy_world s) !! id = Some sem →
     available_permits sem + held (permits_of (live_segments s) ++ sy_other_permits s) id
       = total id) ∧
  w_in_use (sy_world s) = local_total (live_segments s) mod 2 ^ 64 ∧
  (live_segments s = [] → sy_other_permits s = [] →
     w_in_use (sy_world s) = 0 ∧
     ∀ id sem, w_sems (sy_world s) !! id = Some sem → available_permits sem = total id).
Proof.
  intros Ha Hch Hr. destruct (inv_accounted _ _ (inv_reachable _ _ _ _ _ _ _ Ha Hch Hr))
    as [[H1 H2] H3].
  split_and!; [done|done|]. intros E1 E2. rewrite E1 in *. rewrite E2 in *.
  split; [by rewrite H3|]. intros id sem Hl. specialize (H1 _ _ Hl).
  unfold held in H1; cbn in H1. lia.
Qed.

(** The client receives a prefix of what was put in the channel, in order and
    without gaps, and what it has not received yet is in the channel; the channel
    never holds more than its capacity; a call of [enqueue] that returned [Ok]
    has put its whole payload in the channel, any other call a prefix of it; and
    the body only ends the stream when the client has everything. *)
Theorem queue_delivers total w items ch os op s :
  accounted total w os op → channel items = Some ch →
  rtc step (stream_init w ch os op) s →
  (length (ch_segments (sy_channel s)) ≤ ch_items (sy_channel s))%nat ∧
  sy_received s `prefix_of` sy_sent s ∧ sy_sent s `prefix_of` sy_accepted s ∧
  (sy_enqueue s = EnqDone (Ok tt) → sy_sent s = sy_accepted s) ∧
  (∀ body, sy_body s = Some body →
     sy_received s ++ queued (sy_channel s) = sy_sent s ∧
     (is_end_stream body = true → sy_received s = sy_sent s ∧ in_flight body = None)).
Proof.
  intros Ha Hch Hr. destruct (inv_reachable _ _ _ _ _ _ _ Ha Hch Hr)
    as [_ Hb Hrc Hd He Hs Hf Hq Ht].
  split_and!; [done|done| | |].
  - destruct (sy_enqueue s) as [todo|s0 todo|[[]|e]]; [..|done];
      rewrite <-Ht; by apply prefix_app_r.
  - intros E. rewrite E in Ht. cbn in Ht. by rewrite app_nil_r in Ht.
  - intros body Hbody. rewrite Hbody in Hq. specialize (Hq ltac:(done)). split; [done|].
    intros Hend. destruct (He body Hbody Hend) as (E & ? & ?). split; [|done].
    unfold queued in Hq. rewrite E in Hq. cbn in Hq. by rewrite app_nil_r in Hq.
Qed.

End Accounting.

(** ** What the operations return *)

Section Functional.
Context {sem_api : SemaphoreApi} {sem_laws : SemaphoreLaws}.

(** The permits a semaphore has left. *)
Definition avail (w : World) (id : sem_id) : option Z := available_permits <$> w_sems w !! id.

Lemma avail_record w n id : avail (record_budget_in_use w n) id = avail w id.
Proof. done. Qed.

Lemma avail_drop_permit w p id n :
  avail w (p_sem p) = Some n → 0 ≤ num_permits p →
  avail (drop_permit w p) id =
    if decide (id = p_sem p) then Some (n + num_permits p) else avail w id.
Proof.
  unfold avail, drop_permit. intros H Hn. destruct (w_sems w !! p_sem p) as [s|] eqn:E; [|done].
  cbn in *. injection H as <-. rewrite lookup_insert.
  destruct (decide (p_sem p = id)) as [->|Hd].
  - rewrite decide_True by done. cbn. by rewrite add_permits_available.
  - by rewrite decide_False.
Qed.

Lemma acquire_enough w id n m :
  avail w id = Some m → 0 ≤ n → n ≤ m →
  ∃ w', acquire w id n = Some ({| p_sem := id; num_permits := n |}, w') ∧
    w_in_use w' = w_in_use w ∧
    ∀ id', avail w' id' = if decide (id' = id) then Some (m - n) else avail w id'.
Proof.
  unfold avail, acquire. intros H Hn Hle. destruct (w_sems w !! id) as [s|] eqn:E; [|done].
  cbn in *. injection H as <-. destruct (try_acquire_enough s n Hn Hle) as (s' & E' & Hs').
  rewrite E'. cbn. eexists. split_and!; [done|done|]. intros id'. cbn. rewrite lookup_insert.
  destruct (decide (id = id')) as [->|Hd].
  - rewrite decide_True by done. cbn. by rewrite Hs'.
  - by rewrite decide_False.
Qed.

Lemma acquire_short w id n m : avail w id = Some m → m < n → acquire w id n = None.
Proof.
  unfold avail, acquire. intros H Hlt. destruct (w_sems w !! id) as [s|] eqn:E; [|done].
  cbn in *. injection H as <-. by rewrite try_acquire_short.
Qed.

(** A budget whose two semaphores are distinct and have [l] and [g] permits. *)
Definition budget_at (w : World) (b : ByteBudget) (l g : Z) : Prop :=
  bb_semaphore b ≠ bb_global_memory b ∧
  avail w (bb_semaphore b) = Some l ∧ avail w (bb_global_memory b) = Some g.

(** The outcome [reserve] promises for a payload of [n] bytes. *)
Definition reserve_outcome (b : ByteBudget) (l g n : Z) : option BudgetError :=
  if (n =? 0) || (bb_capacity b <? n) || (u32_max <? n) then Some Capacity
  else if l <? n then Some TenantLimitExceeded
  else if g <? n then Some GlobalLimitExceeded
  else None.

Lemma reserve_fits w b l g data :
  budget_at w b l g → reserve_outcome b l g (blen data) = None →
  ∃ s w', BudgetedSegment_reserve w b data = (Ok s, w') ∧
    segment_ok b s ∧ seg_bytes s = data ∧
    budget_at w' b (l - blen data) (g - blen data) ∧
    (∀ id, id ≠ bb_semaphore b → id ≠ bb_global_memory b → avail w' id = avail w id) ∧
    w_in_use w' = (w_in_use w + blen data) mod 2 ^ 64.
Proof.
  intros (Hd & Hl & Hg). unfold reserve_outcome, BudgetedSegment_reserve, tenant_permit.
  destruct (_ || _) eqn:E; [done|]. destruct (l <? _) eqn:El; [done|].
  destruct (g <? _) eqn:Eg; [done|]. intros _.
  rewrite Z.ltb_ge in *. assert (0 ≤ blen data) as Hp by (unfold blen; lia).
  destruct data as [|x data]; [done|].
  destruct (acquire_enough _ _ _ _ Hl Hp El) as (w1 & E1 & U1 & A1). rewrite E1.
  assert (avail w1 (bb_global_memory b) = Some g) as Hg1 by (rewrite A1, decide_False; done).
  destruct (acquire_enough _ _ _ _ Hg1 Hp Eg) as (w2 & E2 & U2 & A2). rewrite E2.
  do 2 eexists. split; [done|]. bool_props. rewrite Z.ltb_ge in *.
  split_and!; try done.
  - split_and!; [done| |]; rewrite avail_record, A2.
    + by rewrite decide_False, A1, decide_True by done.
    + by rewrite decide_True by done.
  - intros id ? ?. by rewrite avail_record, A2, decide_False, A1, decide_False by done.
  - cbn. by rewrite U2, U1.
Qed.

Lemma reserve_refused w b l g data e :
  budget_at w b l g → reserve_outcome b l g (blen data) = Some e →
  ∃ w', BudgetedSegment_reserve w b data = (Err e, w') ∧
    (∀ id, avail w' id = avail w id) ∧ w_in_use w' = w_in_use w.
Proof.
  intros (Hd & Hl & Hg). unfold reserve_outcome, BudgetedSegment_reserve, tenant_permit.
  destruct (_ || _) eqn:E.
  { intros [= <-]. exists w. by destruct data. }
  destruct data as [|x data]; [done|].
  assert (0 ≤ blen (x :: data)) as Hp by (unfold blen; lia).
  destruct (l <? _) eqn:El.
  { intros [= <-]. rewrite Z.ltb_lt in El. rewrite (acquire_short _ _ _ _ Hl El). eauto. }
  rewrite Z.ltb_ge in El. destruct (acquire_enough _ _ _ _ Hl Hp El) as (w1 & E1 & U1 & A1).
  destruct (g <? _) eqn:Eg; [|done]. intros [= <-]. rewrite Z.ltb_lt in Eg. rewrite E1.
  assert (avail w1 (bb_global_memory b) = Some g) as Hg1 by (rewrite A1, decide_False; done).
  rewrite (acquire_short _ _ _ _ Hg1 Eg). eexists. split; [done|].
  split; [|by rewrite drop_permit_in_use]. intros id.
  rewrite (avail_drop_permit _ _ _ (l - blen (x :: data))); cbn;
    [|by rewrite A1, decide_True|done].
  destruct (decide (id = bb_semaphore b)) as [->|Hid].
  - rewrite Hl. f_equal. lia.
  - by rewrite A1, decide_False.
Qed.

(** Reserving a segment in every case: an empty payload, one larger than the
    budget's capacity or than [u32::MAX], a tenant or a global semaphore without
    enough permits is refused with the matching error and nothing is kept, the
    tenant's permits included when the global semaphore refuses; otherwise the
    segment holds one permit per byte on either semaphore and the counter grows
    by the payload.  Dropping it gives everything back. *)
Theorem reserve_spec w b l g data :
  budget_at w b l g →
  match BudgetedSegment_reserve w b data with
  | (Err e, w') =>
      reserve_outcome b l g (blen data) = Some e ∧
      (∀ id, avail w' id = avail w id) ∧ w_in_use w' = w_in_use w
  | (Ok s, w') =>
      reserve_outcome b l g (blen data) = None ∧ segment_ok b s ∧ seg_bytes s = data ∧
      budget_at w' b (l - blen data) (g - blen data) ∧
      w_in_use w' = (w_in_use w + blen data) mod 2 ^ 64 ∧
      (∀ id, avail (drop_segment w' s) id = avail w id) ∧
      w_in_use (drop_segment w' s) = w_in_use w mod 2 ^ 64
  end.
Proof.
  intros Hb. destruct (reserve_outcome b l g (blen data)) as [e|] eqn:Eo.
  { destruct (reserve_refused _ _ _ _ _ _ Hb Eo) as (w' & -> & ?). done. }
  destruct (reserve_fits _ _ _ _ _ Hb Eo) as (s & w' & -> & Hs & Hd & Hb' & Hid & Hu).
  split_and!; try done.
  - intros id. destruct Hs as (Hlp & Hgp & _), Hb' as (Hne & Hl' & Hg'), Hb as (_ & Hl & Hg).
    assert (0 ≤ blen (seg_bytes s)) by (unfold blen; lia). unfold drop_segment.
    rewrite Hgp, Hlp, Hd in *.
    rewrite (avail_drop_permit _ _ _ (l - blen data)); cbn; [|rewrite
      (avail_drop_permit _ _ _ (g - blen data)); cbn; [by rewrite decide_False, avail_record|done|done]|done].
    rewrite (avail_drop_permit _ _ _ (g - blen data)); cbn; [|done|done].
    repeat case_decide; subst; rewrite ?Hl, ?Hg; try (f_equal; lia). by apply Hid.
  - unfold drop_segment. rewrite !drop_permit_in_use. cbn. rewrite Hu.
    destruct Hs as (Hlp & _). unfold permit_count. rewrite Hlp, Hd. cbn.
    rewrite Z.add_mod_idemp_l by done. f_equal. lia.
Qed.

Lemma enqueue_run_slices b todo : ∀ w ch l g,
  Forall (λ s, s ≠ [] ∧ blen s ≤ bb_capacity b) todo → bb_capacity b ≤ u32_max →
  budget_at w b l g → blen (concat todo) ≤ l → blen (concat todo) ≤ g →
  ch_receiver ch = true → (length (ch_segments ch) + length todo ≤ ch_items ch)%nat →
  ∃ segs w',
    enqueue_run (2 * length todo + 1) b w ch (EnqReady todo) =
      (EnqDone (Ok tt), set_segments ch (ch_segments ch ++ segs), w') ∧
    seg_bytes <$> segs = todo ∧ Forall (segment_ok b) segs ∧
    budget_at w' b (l - blen (concat todo)) (g - blen (concat todo)).
Proof.
  induction todo as [|d todo IH]; intros w ch l g Hf Hcap Hb Hl Hg Hrc Hroom.
  { exists [], w. cbn. rewrite app_nil_r, !Z.sub_0_r. split_and!; try done. by destruct ch. }
  apply Forall_cons in Hf as [[Hne Hd] Hf].
  cbn [concat] in *. unfold blen in Hl, Hg. rewrite length_app in Hl, Hg.
  assert (reserve_outcome b l g (blen d) = None) as Ho.
  { unfold reserve_outcome, blen in *. destruct d; [done|].
    rewrite (proj2 (Z.eqb_neq _ _)), !(proj2 (Z.ltb_ge _ _)); cbn in *; try done; lia. }
  destruct (reserve_fits _ _ _ _ _ Hb Ho) as (s & w1 & E1 & Hs & <- & Hb1 & _ & _).
  replace (2 * length (seg_bytes s :: todo) + 1)%nat with (S (S (2 * length todo + 1)))
    by (cbn; lia).
  cbn [enqueue_run enqueue_step]. rewrite E1. cbn [enqueue_run enqueue_step]. rewrite Hrc.
  cbn [length] in Hroom. rewrite (proj2 (Nat.ltb_lt _ _)) by lia. cbn [negb].
  destruct (IH w1 (set_segments ch (ch_segments ch ++ [s])) _ _ Hf Hcap Hb1)
    as (segs & w2 & E2 & Hsegs & Hok & Hb2); try done;
    [unfold blen; lia|unfold blen; lia|cbn; rewrite length_app; cbn; lia|].
  exists (s :: segs), w2. split_and!; [..|].
  - rewrite E2. cbn. by rewrite <-app_assoc.
  - cbn. by rewrite Hsegs.
  - by constructor.
  - replace (blen (seg_bytes s ++ concat todo)) with (blen (seg_bytes s) + blen (concat todo))
      by (unfold blen; rewrite length_app; lia).
    by rewrite !Z.sub_add_distr.
Qed.

(** C26: With permits for the payload, room in the channel and a live receiver,
    [enqueue] returns [Ok] after finitely many steps, and the channel has gained
    exactly the payload, cut into non-empty segments of at most the budget's
    capacity, each holding one permit per byte. *)
Theorem enqueue_completes b w ch l g data :
  0 < bb_capacity b ≤ u32_max → budget_at w b l g → blen data ≤ l → blen data ≤ g →
  ch_receiver ch = true →
  (length (ch_segments ch) + length (segments_of b data) ≤ ch_items ch)%nat →
  ∃ segs w',
    enqueue_run (2 * length (segments_of b data) + 1) b w ch (enqueue_start b data) =
      (EnqDone (Ok tt), set_segments ch (ch_segments ch ++ segs), w') ∧
    concat (seg_bytes <$> segs) = data ∧ Forall (segment_ok b) segs ∧
    budget_at w' b (l - blen data) (g - blen data).
Proof.
  intros Hcap Hb Hl Hg Hrc Hroom. destruct data as [|x data].
  { exists [], w. cbn. rewrite app_nil_r, !Z.sub_0_r. split_and!; try done. by destruct ch. }
  destruct (segments_of_spec b (x :: data)) as [Hc Hf]; [lia|].
  destruct (enqueue_run_slices b (segments_of b (x :: data)) w ch l g)
    as (segs & w' & E & Hs & Hok & Hb'); try done; [lia|by rewrite Hc|by rewrite Hc|].
  rewrite Hc in Hb'. exists segs, w'. split_and!; try done. by rewrite Hs.
Qed.

(** ** Tenants *)

(** Addresses in use are below the next one, and two entries of a table never
    share a semaphore. *)
Record world_wf (w : World) : Prop := {
  wf_sems id : is_Some (w_sems w !! id) → (id < w_next w)%nat;
  wf_entry t k id : table w t !! k = Some id → is_Some (w_sems w !! id);
  wf_inj t k k' id : table w t !! k = Some id → table w t !! k' = Some id → k = k'
}.

Lemma table_set_table w t m t' :
  table (set_table w t m) t' = if decide (t = t') then m else table w t'.
Proof. unfold table. cbn. rewrite lookup_insert. by case_decide. Qed.

Lemma tenant_semaphore_entry w t k :
  table (tenant_semaphore w t k).2 t !! k = Some (tenant_semaphore w t k).1.
Proof.
  unfold tenant_semaphore. destruct (table w t !! k) as [s|] eqn:E; [done|]. cbn.
  by rewrite table_set_table, decide_True, lookup_insert_eq.
Qed.

Lemma tenant_semaphore_other w t k t' k' :
  k' ≠ k ∨ t' ≠ t → table (tenant_semaphore w t k).2 t' !! k' = table w t' !! k'.
Proof.
  intros Hk. unfold tenant_semaphore. destruct (table w t !! k) as [s|] eqn:E; [done|]. cbn.
  rewrite table_set_table. case_decide as Ht; [|done]. subst t'.
  destruct Hk; [|done]. by rewrite lookup_insert_ne.
Qed.

Lemma tenant_semaphore_wf w t k : world_wf w → world_wf (tenant_semaphore w t k).2.
Proof.
  intros [H1 H2 H3]. unfold tenant_semaphore.
  destruct (table w t !! k) as [s|] eqn:E; [done|].
  assert (∀ t k id, table w t !! k = Some id → id ≠ w_next w) as Hfresh.
  { intros t0 k0 id H ->. apply H2, H1 in H. lia. }
  assert (∀ t' k' id, table (set_table (alloc_sem w TENANT_MEMORY_BUDGET).2 t
             (<[k := w_next w]> (table w t))) t' !! k' = Some id →
             (t' = t ∧ k' = k ∧ id = w_next w) ∨ table w t' !! k' = Some id) as Hcase.
  { intros t' k' id. rewrite table_set_table. case_decide as Ht; [|by right]. subst t'.
    rewrite lookup_insert. case_decide; [intros [= <-]; by left|by right]. }
  split; cbn -[table].
  - intros id. rewrite lookup_insert. case_decide as Hd; [lia|]. intros H. specialize (H1 _ H).
    lia.
  - intros t' k' id Hl. rewrite lookup_insert. case_decide; [done|].
    destruct (Hcase _ _ _ Hl) as [(_ & _ & ->)|Hold]; [done|eauto].
  - intros t' k1 k2 id Hl1 Hl2.
    destruct (Hcase _ _ _ Hl1) as [(-> & -> & E1)|Ho1], (Hcase _ _ _ Hl2) as [(E2 & -> & E3)|Ho2];
      try done; [by destruct (Hfresh _ _ _ Ho2)|subst; by destruct (Hfresh _ _ _ Ho1)|eauto].
Qed.

Lemma tenant_semaphore_hit w t k s :
  table w t !! k = Some s → tenant_semaphore w t k = (s, w).
Proof. unfold tenant_semaphore. by intros ->. Qed.

Lemma tenant_semaphore_fresh w t k :
  table w t !! k = None →
  avail (tenant_semaphore w t k).2 (tenant_semaphore w t k).1 = Some TENANT_MEMORY_BUDGET.
Proof.
  intros Hn. unfold tenant_semaphore. rewrite Hn. unfold avail. cbn.
  rewrite lookup_insert_eq. cbn. by rewrite sem_new_available.
Qed.

Lemma for_tenant_eq w tb k cap :
  0 < cap →
  for_tenant w tb k cap =
    Some ({| bb_semaphore := (tenant_semaphore w (tb_tenant_budgets tb) k).1;
             bb_global_memory := tb_global_memory tb; bb_capacity := cap |},
          (tenant_semaphore w (tb_tenant_budgets tb) k).2).
Proof.
  intros Hc. unfold for_tenant, ByteBudget_with_tenant. rewrite (proj2 (Z.ltb_lt _ _)) by done.
  by destruct (tenant_semaphore _ _ _).
Qed.


End Functional.

(** ** A semaphore that satisfies the laws, and a concrete stream *)

Module CounterSemaphore.

#[export] Instance counter_api : SemaphoreApi := {|
  Semaphore := Z;
  sem_new := λ n, n;
  available_permits := λ s, s;
  try_acquire_many := λ s n, if n <=? s then Some (s - n) else None;
  add_permits := Z.add
|}.

#[export] Instance counter_laws : SemaphoreLaws.
Proof.
  split; cbn; try done.
  - intros s n _ Hle. rewrite (proj2 (Z.leb_le _ _) Hle). eauto.
  - intros s n Hlt. by rewrite (proj2 (Z.leb_gt _ _)).
Qed.

(** A global semaphore of 8 permits, a tenant one of 6, segments of 3 bytes. *)
Definition world0 : World :=
  {| w_sems := ∅; w_tables := ∅; w_in_use := 0; w_next := 0 |}.
Definition world : World := (alloc_sem (alloc_sem world0 8).2 6).2.
Definition budget : ByteBudget :=
  {| bb_semaphore := 1%nat; bb_global_memory := 0%nat; bb_capacity := 3 |}.
Definition total (id : sem_id) : Z :=
  match id with O => 8 | S O => 6 | _ => 0 end.
Definition chan : Channel :=
  {| ch_items := 2; ch_segments := []; ch_receiver := true; ch_sender := true |}.

Lemma world_accounted : accounted total world [] [].
Proof.
  split; [|done]. split.
  - intros id s H. unfold world, world0, alloc_sem in H. cbn in H.
    apply lookup_insert_Some in H as [[<- <-]|[_ H]]; [done|].
    apply lookup_insert_Some in H as [[<- <-]|[_ H]]; [done|]. by rewrite lookup_empty in H.
  - intros p Hp. by apply elem_of_nil in Hp.
Qed.

Lemma world_budget : budget_at world budget 6 8.
Proof. split_and!; [done|vm_compute; done|vm_compute; done]. Qed.

(** The state after [enqueue] of six bytes has reserved and sent its first slice,
    the client has polled it, and the second slice has been reserved. *)
Definition midway : Sys :=
  let '(st1, ch1, w1) := enqueue_step budget world chan (enqueue_start budget (bstr "abcdef")) in
  let '(st2, ch2, w2) := enqueue_step budget w1 ch1 st1 in
  let '(_, body, ch3, w3) := poll_frame w2 ch2 BudgetedBody_new in
  let '(st4, ch4, w4) := enqueue_step budget w3 ch3 st2 in
  {| sy_world := w4; sy_channel := ch4; sy_enqueue := st4; sy_body := Some body;
     sy_other_segments := []; sy_other_permits := [];
     sy_accepted := bstr "abcdef"; sy_sent := bstr "abc"; sy_received := bstr "abc" |}.

Lemma midway_reachable : rtc (step budget) (stream_init world chan [] []) midway.
Proof.
  eapply rtc_l. { by apply (step_begin budget) with (data := bstr "abcdef"). }
  eapply rtc_l. { eapply (step_enqueue budget). vm_compute. reflexivity. }
  eapply rtc_l. { eapply (step_enqueue budget). vm_compute. reflexivity. }
  eapply rtc_l. { eapply (step_poll budget). vm_compute. reflexivity. }
  eapply rtc_l. { eapply (step_enqueue budget). vm_compute. reflexivity. }
  vm_compute. apply rtc_refl.
Qed.

End CounterSemaphore.
Import (hints) CounterSemaphore.

Lemma budget_conserved_witness :
  (∀ id sem, w_sems (sy_world CounterSemaphore.midway) !! id = Some sem →
     available_permits sem + held (permits_of (live_segments CounterSemaphore.midway)) id
       = CounterSemaphore.total id) ∧
  w_in_use (sy_world CounterSemaphore.midway) = 6.
Proof.
  destruct (budget_conserved CounterSemaphore.budget eq_refl CounterSemaphore.total
    CounterSemaphore.world 2 CounterSemaphore.chan [] [] CounterSemaphore.midway
    CounterSemaphore.world_accounted eq_refl CounterSemaphore.midway_reachable) as (H1 & H2 & _).
  split; [|vm_compute; reflexivity]. intros id sem H. specialize (H1 id sem H).
  rewrite app_nil_r in H1. exact H1.
Defined.

Lemma queue_delivers_witness :
  sy_received CounterSemaphore.midway = bstr "abc" ∧
  sy_received CounterSemaphore.midway ++ queued (sy_channel CounterSemaphore.midway)
    = sy_sent CounterSemaphore.midway.
Proof.
  destruct (queue_delivers CounterSemaphore.budget eq_refl CounterSemaphore.total
    CounterSemaphore.world 2 CounterSemaphore.chan [] [] CounterSemaphore.midway
    CounterSemaphore.world_accounted eq_refl CounterSemaphore.midway_reachable)
    as (_ & _ & _ & _ & H).
  split; [reflexivity|]. destruct (sy_body CounterSemaphore.midway) as [body|] eqn:E.
  - exact (proj1 (H body eq_refl)).
  - vm_compute in E. discriminate E.
Defined.

Lemma reserve_spec_witness :
  reserve_outcome CounterSemaphore.budget 6 8 (blen (bstr "abc")) = None ∧
  w_in_use (BudgetedSegment_reserve CounterSemaphore.world CounterSemaphore.budget
              (bstr "abc")).2 = 3.
Proof.
  pose proof (reserve_spec CounterSemaphore.world CounterSemaphore.budget 6 8 (bstr "abc")
                CounterSemaphore.world_budget) as H.
  split; [reflexivity|].
  destruct (BudgetedSegment_reserve _ _ _) as [[s|e] w'].
  - destruct H as (_ & _ & _ & _ & H & _). exact H.
  - destruct H as [H _]. vm_compute in H. discriminate H.
Defined.

Lemma enqueue_completes_witness :
  ∃ segs w', enqueue_run 5 CounterSemaphore.budget CounterSemaphore.world CounterSemaphore.chan
    (enqueue_start CounterSemaphore.budget (bstr "abcdef")) =
    (EnqDone (Ok tt), set_segments CounterSemaphore.chan segs, w') ∧
    concat (seg_bytes <$> segs) = bstr "abcdef".
Proof.
  destruct (enqueue_completes CounterSemaphore.budget CounterSemaphore.world
    CounterSemaphore.chan 6 8 (bstr "abcdef")) as (segs & w' & E & Hs & _).
  - split; [reflexivity|]. vm_compute. discriminate.
  - exact CounterSemaphore.world_budget.
  - vm_compute. discriminate.
  - vm_compute. discriminate.
  - reflexivity.
  - vm_compute. lia.
  - exists segs, w'. exact (conj E Hs).
Defined.

