(* ===== verification/Domain.v ===== *)
(** * Stream data and per-choice buffers ([src/domain.rs])

    The records a completion chunk is deserialized into, and the buffers that
    keep the text of several choices and tool calls apart across chunks.  A
    [String] is its UTF-8 bytes; [ensure_choice] returns a mutable reference, so
    its model takes the update made through it. *)

From S2P Require Import Prelude.

Record Function := { fn_name : bytes; fn_arguments : option bytes }.

Record ToolCall := {
  tc_name : bytes;
  tc_arguments : option bytes;
  tc_function : option Function
}.

Record Delta := {
  dl_role : option bytes;
  dl_content : option bytes;
  dl_tool_call : option ToolCall
}.

Record Choice := {
  c_index : nat;
  c_finish_reason : option bytes;
  c_delta : option Delta
}.

Record SSEChunk := {
  sc_id : option bytes;
  sc_object : option bytes;
  sc_created : option Z;
  sc_model : option bytes;
  sc_choices : list Choice
}.

(** ** Buffers of one choice *)

Record ChoiceState := {
  cs_index : nat;
  content_tail : bytes;
  tool_tails : gmap nat bytes
}.

Definition ChoiceState_new (index : nat) : ChoiceState :=
  {| cs_index := index; content_tail := []; tool_tails := ∅ |}.

Definition clear (c : ChoiceState) : ChoiceState :=
  {| cs_index := cs_index c; content_tail := []; tool_tails := ∅ |}.

Definition append_to_content_tail (c : ChoiceState) (s : bytes) : ChoiceState :=
  {| cs_index := cs_index c; content_tail := content_tail c ++ s; tool_tails := tool_tails c |}.

Definition take_content_tail (c : ChoiceState) : bytes * ChoiceState :=
  (content_tail c,
   {| cs_index := cs_index c; content_tail := []; tool_tails := tool_tails c |}).

Definition append_to_tool_tail (c : ChoiceState) (tool_index : nat) (s : bytes) : ChoiceState :=
  {| cs_index := cs_index c; content_tail := content_tail c;
     tool_tails := <[tool_index := default [] (tool_tails c !! tool_index) ++ s]> (tool_tails c) |}.

Definition take_tool_tail (c : ChoiceState) (tool_index : nat) : option bytes * ChoiceState :=
  (tool_tails c !! tool_index,
   {| cs_index := cs_index c; content_tail := content_tail c;
      tool_tails := delete tool_index (tool_tails c) |}).

(** ** Buffers of a stream *)

Record StreamState := { choices : list ChoiceState }.

Definition StreamState_new : StreamState := {| choices := [] |}.

(** The loop that pushes [additional] fresh choices. *)
Fixpoint push_choices (additional : nat) (cs : list ChoiceState) : list ChoiceState :=
  match additional with
  | O => cs
  | S additional => push_choices additional (cs ++ [ChoiceState_new (length cs)])
  end.

(** [index + 1] overflows for the largest index; [f] is what the caller does to
    the choice. *)
Definition ensure_choice (st : StreamState) (index : nat) (f : ChoiceState → ChoiceState)
    : option StreamState :=
  cs ← (if (length (choices st) <=? index)%nat then
          if (Z.of_nat index =? usize_max)%Z then None
          else Some (push_choices (index + 1 - length (choices st)) (choices st))
        else Some (choices st));
  c ← cs !! index;
  Some {| choices := <[index := f c]> cs |}.

Definition reset (st : StreamState) : StreamState :=
  let st := {| choices := clear <$> choices st |} in {| choices := [] |}.

(** ** Correctness *)

(** Every choice knows its own position. *)
Definition indexed (st : StreamState) : Prop :=
  ∀ i c, choices st !! i = Some c → cs_index c = i.

Lemma push_choices_spec n cs i :
  length (push_choices n cs) = (length cs + n)%nat ∧
  (i < length cs → push_choices n cs !! i = cs !! i)%nat ∧
  (length cs ≤ i < length cs + n → push_choices n cs !! i = Some (ChoiceState_new i))%nat.
Proof.
  revert cs. induction n as [|n IH]; intros cs; cbn.
  { split_and!; [lia|done|lia]. }
  destruct (IH (cs ++ [ChoiceState_new (length cs)])) as (H1 & H2 & H3).
  rewrite length_app in *. cbn in *. split_and!.
  - rewrite H1. lia.
  - intros Hi. rewrite H2 by lia. by apply lookup_app_l.
  - intros Hi. destruct (decide (i = length cs)) as [->|Hne].
    + rewrite H2 by lia. by rewrite lookup_app_r, Nat.sub_diag by lia.
    + apply H3. lia.
Qed.

(** What a choice holds: its buffers, or empty ones if it does not exist yet. *)
Definition choice_at (st : StreamState) (i : nat) : ChoiceState :=
  default (ChoiceState_new i) (choices st !! i).

Lemma ensure_choice_spec st index f :
  Z.of_nat index ≠ usize_max ∨ (index < length (choices st))%nat →
  ∃ st', ensure_choice st index f = Some st' ∧
    length (choices st') = Nat.max (length (choices st)) (S index) ∧
    ∀ i, choice_at st' i = if decide (i = index) then f (choice_at st i) else choice_at st i.
Proof.
  intros Hmax. unfold ensure_choice, choice_at.
  set (cs := if (length (choices st) <=? index)%nat then _ else _).
  assert (∃ l, cs = Some l ∧ length l = Nat.max (length (choices st)) (S index) ∧
    ∀ i, (i < length l)%nat → l !! i = Some (choice_at st i)) as (l & -> & Hlen & Hl).
  { unfold cs, choice_at. destruct (Nat.leb_spec (length (choices st)) index).
    - rewrite (proj2 (Z.eqb_neq _ _)) by lia. eexists. split; [done|]. split.
      + rewrite (proj1 (push_choices_spec _ _ 0)). lia.
      + intros i. rewrite (proj1 (push_choices_spec _ _ 0)). intros Hi.
        destruct (push_choices_spec (index + 1 - length (choices st)) (choices st) i)
          as (_ & H2 & H3).
        destruct (decide (i < length (choices st))%nat) as [Hlt|Hge].
        * rewrite H2 by done. by destruct (lookup_lt_is_Some_2 _ _ Hlt) as [c ->].
        * rewrite H3 by lia. by rewrite lookup_ge_None_2 by lia.
    - eexists. split; [done|]. split; [lia|]. intros i Hi.
      by destruct (lookup_lt_is_Some_2 _ _ Hi) as [c ->]. }
  cbn. rewrite Hl by lia. cbn. eexists. split; [done|]. cbn.
  rewrite length_insert. split; [done|]. intros i. unfold choice_at in *.
  destruct (decide (i = index)) as [->|Hne].
  - by rewrite list_lookup_insert_eq by lia.
  - rewrite list_lookup_insert_ne by done.
    destruct (decide (i < length l)%nat) as [Hlt|Hge]; [by rewrite Hl|].
    by rewrite (lookup_ge_None_2 l), (lookup_ge_None_2 (choices st)) by lia.
Qed.

(** ** Appending to many buffers *)

(** Text for a choice's content or for one of its tool calls. *)
Inductive Target := Content | Tool (tool_index : nat).
#[global] Instance target_eq_dec : EqDecision Target.
Proof. solve_decision. Defined.

Record Append := { ap_choice : nat; ap_target : Target; ap_text : bytes }.

Definition append (a : Append) (c : ChoiceState) : ChoiceState :=
  match ap_target a with
  | Content => append_to_content_tail c (ap_text a)
  | Tool t => append_to_tool_tail c t (ap_text a)
  end.

Definition take_tail (t : Target) (c : ChoiceState) : bytes * ChoiceState :=
  match t with
  | Content => take_content_tail c
  | Tool i => let '(tail, c) := take_tool_tail c i in (default [] tail, c)
  end.

Fixpoint append_all (st : StreamState) (l : list Append) : option StreamState :=
  match l with
  | [] => Some st
  | a :: l => st ← ensure_choice st (ap_choice a) (append a); append_all st l
  end.

(** The text of [l] meant for buffer [t] of choice [i], in order. *)
Definition text_for (i : nat) (t : Target) (l : list Append) : bytes :=
  concat (ap_text <$> filter (λ a, ap_choice a = i ∧ ap_target a = t) l).

Lemma text_for_cons i t a l :
  text_for i t (a :: l) =
    (if decide (ap_choice a = i ∧ ap_target a = t) then ap_text a else []) ++ text_for i t l.
Proof. unfold text_for. rewrite filter_cons. by case_decide. Qed.

Lemma take_append a c t :
  (take_tail t (append a c)).1 =
    (take_tail t c).1 ++ (if decide (ap_target a = t) then ap_text a else []).
Proof.
  unfold append. destruct (ap_target a) as [|u], t as [|v]; cbn; rewrite ?app_nil_r; try done.
  rewrite lookup_insert. destruct (decide (u = v)) as [->|Hne].
  - by rewrite decide_True.
  - rewrite (decide_False (P := Tool u = Tool v)) by congruence. by rewrite app_nil_r.
Qed.

Lemma take_after_take t u c :
  (take_tail u (take_tail t c).2).1 = if decide (u = t) then [] else (take_tail u c).1.
Proof.
  destruct t as [|v], u as [|w]; cbn; try done. rewrite lookup_delete.
  destruct (decide (v = w)) as [->|Hne].
  - by rewrite decide_True.
  - by rewrite (decide_False (P := Tool w = Tool v)) by congruence.
Qed.

(** C36: After any interleaving of appends to the contents and tool calls of any
    choices, what is taken from one buffer is exactly the text that was appended
    to it, in order: nothing crosses from one choice or tool call to another;
    taking it empties that buffer and leaves the others alone. *)
Theorem buffers_isolated l i t u :
  Forall (λ a, (Z.of_nat (ap_choice a) < usize_max)%Z) l →
  ∃ st, append_all StreamState_new l = Some st ∧
    (take_tail t (choice_at st i)).1 = text_for i t l ∧
    (take_tail u (take_tail t (choice_at st i)).2).1 =
      if decide (u = t) then [] else text_for i u l.
Proof.
  intros Hl.
  assert (∀ st0, ∃ st, append_all st0 l = Some st ∧ ∀ t,
    (take_tail t (choice_at st i)).1 = (take_tail t (choice_at st0 i)).1 ++ text_for i t l) as K.
  { induction Hl as [|a l Ha _ IH]; intros st0.
    { exists st0. split; [done|]. intros t'. by rewrite app_nil_r. }
    cbn [append_all]. destruct (ensure_choice_spec st0 (ap_choice a) (append a) ltac:(lia)) as (st1 & -> & _ & Hc).
    cbn [mbind option_bind]. destruct (IH st1) as (st & -> & Ht). exists st. split; [done|]. intros t'.
    rewrite Ht, Hc, text_for_cons.
    destruct (decide (i = ap_choice a)) as [->|Hne].
    - rewrite take_append, <-app_assoc. f_equal.
      repeat case_decide; try done; naive_solver.
    - by rewrite decide_False by naive_solver. }
  destruct (K StreamState_new) as (st & E & Ht). exists st. split; [done|].
  assert (∀ t, (take_tail t (choice_at StreamState_new i)).1 = []) as Hn by (by intros [|]).
  rewrite take_after_take, !Ht, !Hn. done.
Qed.

(** The invariant of the buffers: the choice at a position carries that index.
    Growing the vector up to a choice and appending to it keep it and never drop a
    choice, and a reset leaves nothing behind. *)
Theorem ensure_choice_indexed st index a st' :
  indexed st → ensure_choice st index (append a) = Some st' →
  indexed st' ∧ (index < length (choices st'))%nat ∧
  (length (choices st) ≤ length (choices st'))%nat ∧ choices (reset st') = [].
Proof.
  intros Hi E. assert (Z.of_nat index ≠ usize_max ∨ (index < length (choices st))%nat) as Hc.
  { unfold ensure_choice in E. destruct (Nat.leb_spec (length (choices st)) index); [|by right].
    destruct (Z.eqb_spec (Z.of_nat index) usize_max); [done|by left]. }
  destruct (ensure_choice_spec st index (append a) Hc) as (st2 & E2 & Hlen & Hat).
  rewrite E in E2. injection E2 as <-. split_and!; [|lia|lia|done].
  assert (∀ j, cs_index (choice_at st j) = j) as Hst.
  { intros j. unfold choice_at. destruct (choices st !! j) as [c|] eqn:Ej; [exact (Hi _ _ Ej)|done]. }
  intros i c Hl. specialize (Hat i). unfold choice_at in Hat at 1. rewrite Hl in Hat. cbn in Hat.
  subst c. destruct (decide (i = index)); [|done]. unfold append. destruct (ap_target a); apply Hst.
Qed.

Definition sample_appends : list Append :=
  [{| ap_choice := 1; ap_target := Content; ap_text := bstr "he" |};
   {| ap_choice := 0; ap_target := Tool 2; ap_text := bstr "xy" |};
   {| ap_choice := 1; ap_target := Content; ap_text := bstr "llo" |}].

Lemma buffers_isolated_witness :
  ∃ st, append_all StreamState_new sample_appends = Some st ∧
    (take_tail Content (choice_at st 1)).1 = bstr "hello".
Proof.
  destruct (buffers_isolated sample_appends 1 Content (Tool 2)) as (st & E & H & _).
  - repeat constructor.
  - exists st. split; [exact E|]. rewrite H. vm_compute. reflexivity.
Defined.

Lemma ensure_choice_indexed_witness :
  ∃ st', ensure_choice StreamState_new 2
    (append {| ap_choice := 2; ap_target := Content; ap_text := bstr "a" |}) = Some st' ∧
    indexed st' ∧ (2 < length (choices st'))%nat.
Proof.
  destruct (ensure_choice StreamState_new 2
    (append {| ap_choice := 2; ap_target := Content; ap_text := bstr "a" |})) as [st'|] eqn:E.
  - destruct (ensure_choice_indexed StreamState_new 2
      {| ap_choice := 2; ap_target := Content; ap_text := bstr "a" |} st') as (H1 & H2 & _).
    + intros i c H. destruct i; discriminate H.
    + exact E.
    + exists st'. exact (conj eq_refl (conj H1 H2)).
  - vm_compute in E. discriminate E.
Defined.
