(* ===== verification/HostBridge.v ===== *)
(** * The host side of the enclave's network
    ([src/vsock_host_bridge.rs], [src/bin/vsock_host_bridge.rs])

    The KMS relay accepts VSOCK connections of enclaves, reads an HTTP CONNECT
    request byte by byte, checks that it asks for a KMS endpoint and splices the
    connection to it.  Sockets are parameters: what a peer sends is a list of
    bytes, whether connecting, acknowledging and copying succeed are arguments,
    and the relay returns the actions it has taken on them.

    The tunnel binary's command line is [parse_args]. *)

From S2P Require Import Prelude Utf8 RustStr NetAddr.
Local Open Scope Z_scope.

Definition VMADDR_CID_ANY : Z := 4294967295.
Definition MAX_CONNECT_HEADERS : nat := Eval vm_compute in 4096%nat.
Arguments MAX_CONNECT_HEADERS : simpl never.

(** ** Reading the CONNECT request *)

(** One constructor per message of the source.  [RequestEmpty] is never returned:
    [split] always has a first piece. *)
Inductive RelayError :=
| HeadersExceed
| HeadersReadFailed
| HeadersNotAscii
| RequestEmpty
| MethodMissing
| AuthorityMissing
| VersionMissing
| InvalidRequestLine
| AuthorityNoPort
| TargetNotApproved
| ConnectFailed
| AcknowledgeFailed
| CopyFailed
| HandshakeTimedOut.

#[global] Instance relay_error_eq_dec : EqDecision RelayError.
Proof. solve_decision. Defined.

(** The scanner for the blank line; [None] leaves the loop. *)
Definition connect_state (state : nat) (b : Byte.byte) : option nat :=
  match state with
  | 0%nat => if is_byte CR b then Some 1%nat else Some 0%nat
  | 1%nat => if is_byte LF b then Some 2%nat
             else if is_byte CR b then Some 1%nat else Some 0%nat
  | 2%nat => if is_byte CR b then Some 3%nat else Some 0%nat
  | 3%nat => if is_byte LF b then None
             else if is_byte CR b then Some 1%nat else Some 0%nat
  | _ => if is_byte CR b then Some 1%nat else Some 0%nat
  end.

(** The reading loop: the handshake and what the peer has sent after it. *)
Fixpoint read_headers (input handshake : bytes) (state : nat)
    : Result RelayError (bytes * bytes) :=
  if (length handshake =? MAX_CONNECT_HEADERS)%nat then Err HeadersExceed
  else match input with
       | [] => Err HeadersReadFailed
       | byte :: input =>
         let handshake := handshake ++ [byte] in
         match connect_state state byte with
         | None => Ok (handshake, input)
         | Some state => read_headers input handshake state
         end
       end.

(** The request line of a handshake, checked. *)
Definition parse_request_line (handshake : bytes) : Result RelayError bytes :=
  if negb (valid_utf8 handshake) then Err HeadersNotAscii
  else
    let request_line := split_first [CR; LF] handshake in
    match split_whitespace request_line with
    | [] => Err MethodMissing
    | [_] => Err AuthorityMissing
    | [_; _] => Err VersionMissing
    | method :: authority :: version :: fields =>
      if negb (bool_decide (method = bstr "CONNECT"))
         || negb (bool_decide (version = bstr "HTTP/1.1"))
         || match fields with [] => false | _ => true end
      then Err InvalidRequestLine
      else Ok authority
    end.

Definition read_connect_target (input : bytes) : Result RelayError (bytes * bytes) :=
  match read_headers input [] 0 with
  | Err e => Err e
  | Ok (handshake, rest) =>
    match parse_request_line handshake with
    | Err e => Err e
    | Ok authority => Ok (authority, rest)
    end
  end.

(** ** The allow list *)

Definition region_char (b : Byte.byte) : bool :=
  in_range 97 122 b || in_range 48 57 b || is_byte "-"%byte b.

Definition approved_labels (labels : list bytes) : bool :=
  match labels with
  | [l0; l1; l2; l3] =>
    (bool_decide (l0 = bstr "kms") || bool_decide (l0 = bstr "kms-fips"))
      && bool_decide (l2 = bstr "amazonaws")
      && bool_decide (l3 = bstr "com")
      && negb (bool_decide (l1 = []))
      && forallb region_char l1
  | _ => false
  end.

Definition validate_kms_host (authority : bytes) : Result RelayError unit :=
  match rsplit_once ":"%byte authority with
  | None => Err AuthorityNoPort
  | Some (host, port) =>
    if negb (bool_decide (port = bstr "443")) || bool_decide (host = [])
       || bool_decide (is_Some (parse_ip_addr host))
    then Err TargetNotApproved
    else if approved_labels (split_by (is_byte "."%byte) host) then Ok tt
    else Err TargetNotApproved
  end.

(** ** Relaying one connection *)

Inductive RelayAction :=
| ActConnect (host : bytes) (port : Z)
| ActAcknowledge
| ActCopy (already_read : bytes).

(** How the network behaves: whether connecting to a host and port succeeds,
    whether the acknowledgement is written, whether the copy ends cleanly. *)
Record Network := {
  net_connect : bytes → Z → bool;
  net_acknowledge : bool;
  net_copy : bool
}.

Definition relay_connect_connection (net : Network) (input fallback_host : bytes)
    : Result RelayError unit * list RelayAction :=
  match read_connect_target input with
  | Err e => (Err e, [])
  | Ok (requested_host, rest) =>
    match validate_kms_host requested_host with
    | Err e => (Err e, [])
    | Ok _ =>
      let target_host := match requested_host with [] => fallback_host | _ => requested_host end in
      let acts := [ActConnect target_host 443] in
      if negb (net_connect net target_host 443) then (Err ConnectFailed, acts)
      else
        let acts := acts ++ [ActAcknowledge] in
        if negb (net_acknowledge net) then (Err AcknowledgeFailed, acts)
        else
          let acts := acts ++ [ActCopy rest] in
          if negb (net_copy net) then (Err CopyFailed, acts) else (Ok tt, acts)
    end
  end.

(** One round of the accept loop: a peer with an invalid CID is dropped; the
    others get a task.  [timed_out] is the number of actions taken when the three
    seconds were over, if they were: the task is then dropped where it is. *)
Definition accept_connection (net : Network) (peer_cid : Z) (input target_host : bytes)
    (timed_out : option nat) : option (Result RelayError unit * list RelayAction) :=
  if (peer_cid <=? 2) || (peer_cid =? VMADDR_CID_ANY) then None
  else
    let '(result, acts) := relay_connect_connection net input target_host in
    Some match timed_out with
         | Some n => (Err HandshakeTimedOut, take n acts)
         | None => (result, acts)
         end.

(** [kms.{region}.amazonaws.com], the target the daemon passes. *)
Definition daemon_target (aws_region : option bytes) : bytes :=
  bstr "kms." ++ default (bstr "us-east-1") aws_region ++ bstr ".amazonaws.com".

(** ** The tunnel's command line *)

Record BridgeConfig := {
  enclave_cid : Z;
  enclave_port : Z;
  listen_addr : SocketAddr
}.

Inductive ArgsError :=
| MissingValue (option : bytes)
| BadEnclaveCid
| BadEnclavePort
| BadListenAddress
| UnknownArgument (arg : bytes).

(** [exit(0)] after [--help], an error, or a configuration. *)
Inductive ArgsOutcome :=
| ExitHelp
| ArgsErr (e : ArgsError)
| ArgsOk (c : BridgeConfig).

Definition default_listen : SocketAddr :=
  {| sa_ip := V4 [0; 0; 0; 0]; sa_port := 3000; sa_scope_id := 0 |}.

Fixpoint parse_args_loop (args : list bytes) (cid port : option Z) (listen : option SocketAddr)
    : ArgsOutcome :=
  match args with
  | [] => ArgsOk {| enclave_cid := default 3 cid; enclave_port := default 3000 port;
                    listen_addr := default default_listen listen |}
  | arg :: args =>
    if bool_decide (arg = bstr "--enclave-cid") then
      match args with
      | [] => ArgsErr (MissingValue arg)
      | value :: args =>
        match parse_unsigned u32_max value with
        | None => ArgsErr BadEnclaveCid
        | Some v => parse_args_loop args (Some v) port listen
        end
      end
    else if bool_decide (arg = bstr "--enclave-port") then
      match args with
      | [] => ArgsErr (MissingValue arg)
      | value :: args =>
        match parse_unsigned u32_max value with
        | None => ArgsErr BadEnclavePort
        | Some v => parse_args_loop args cid (Some v) listen
        end
      end
    else if bool_decide (arg = bstr "--listen") then
      match args with
      | [] => ArgsErr (MissingValue arg)
      | value :: args =>
        match parse_socket_addr value with
        | None => ArgsErr BadListenAddress
        | Some v => parse_args_loop args cid port (Some v)
        end
      end
    else if bool_decide (arg = bstr "--help") then ExitHelp
    else ArgsErr (UnknownArgument arg)
  end.

(** The first argument is the program's name. *)
Definition parse_args (args : list bytes) : ArgsOutcome :=
  parse_args_loop (drop 1 args) None None None.
