(* ===== verification/HostBridgeProofs.v ===== *)
(** * What the KMS relay lets through

    The scanner finds the first blank line, a target is accepted exactly when it
    has the shape of a KMS endpoint, and the relay connects to nothing else. *)

From S2P Require Import Prelude Utf8 RustStr NetAddr HostBridge.
Local Open Scope Z_scope.

(** ** The scanner *)

Definition blank_line : bytes := [CR; LF; CR; LF].

Lemma ends_with_snoc h b m c :
  ends_with (h ++ [b]) (m ++ [c]) = bool_decide (b = c) && ends_with h m.
Proof.
  apply eq_bool_prop_intro. rewrite andb_True, !Is_true_true, bool_decide_eq_true, !ends_with_spec.
  split.
  - intros [t H]. rewrite app_assoc in H. apply app_inj_tail in H as [-> ->]. eauto.
  - intros [-> [t ->]]. exists t. by rewrite app_assoc.
Qed.

Lemma ends_with_nil h : ends_with h [] = true.
Proof. apply ends_with_spec. exists h. by rewrite app_nil_r. Qed.

Ltac snoc_ends h b m c :=
  let E := fresh in pose proof (ends_with_snoc h b m c) as E; cbn [app] in E; rewrite E; clear E.

(** The scanner's state is determined by the last bytes of the handshake. *)
Definition scan_state (h : bytes) : nat :=
  if ends_with h [CR; LF; CR] then 3
  else if ends_with h [CR] then 1
  else if ends_with h [CR; LF] then 2
  else 0.

Lemma connect_state_scan h b :
  connect_state (scan_state h) b =
    if ends_with (h ++ [b]) blank_line then None else Some (scan_state (h ++ [b])).
Proof.
  unfold scan_state, blank_line.
  snoc_ends h b [CR; LF; CR] LF. snoc_ends h b [CR; LF] CR. snoc_ends h b (@nil Byte.byte) CR.
  snoc_ends h b [CR] LF. rewrite ends_with_nil.
  assert (ends_with h [CR] = true → ends_with h [CR; LF] = false) as Hx.
  { destruct h as [|x l _] using rev_ind; [done|].
    snoc_ends l x (@nil Byte.byte) CR. snoc_ends l x [CR] LF.
    case_bool_decide; [|done]. subst x. done. }
  assert (ends_with h [CR; LF; CR] = true → ends_with h [CR] = true) as Hy.
  { destruct h as [|x l _] using rev_ind; [done|].
    snoc_ends l x [CR; LF] CR. snoc_ends l x (@nil Byte.byte) CR. rewrite ends_with_nil.
    by case_bool_decide. }
  unfold connect_state, is_byte.
  destruct (ends_with h [CR; LF; CR]) eqn:E3, (ends_with h [CR]) eqn:E1,
    (ends_with h [CR; LF]) eqn:E2;
    try (by specialize (Hx eq_refl)); try (by specialize (Hy eq_refl));
    repeat case_bool_decide; subst; try done.
Qed.

(** Number of bytes up to and including the first blank line, [h] being read. *)
Fixpoint first_blank (h input : bytes) : option nat :=
  match input with
  | [] => None
  | b :: t => if ends_with (h ++ [b]) blank_line then Some 1%nat
              else S <$> first_blank (h ++ [b]) t
  end.

Lemma first_blank_spec h input :
  match first_blank h input with
  | Some k => (0 < k ≤ length input)%nat ∧ ends_with (h ++ take k input) blank_line = true ∧
              ∀ j, (0 < j < k)%nat → ends_with (h ++ take j input) blank_line = false
  | None => ∀ j, (0 < j ≤ length input)%nat → ends_with (h ++ take j input) blank_line = false
  end.
Proof.
  revert h. induction input as [|b t IH]; intros h; cbn [first_blank length].
  { intros j Hj. lia. }
  destruct (ends_with (h ++ [b]) blank_line) eqn:E.
  { split_and!; [lia|lia|done|]. intros j Hj. lia. }
  specialize (IH (h ++ [b])).
  assert (∀ j, h ++ b :: take j t = (h ++ [b]) ++ take j t) as Hs
    by (intros j; by rewrite <-app_assoc).
  destruct (first_blank (h ++ [b]) t) as [k|]; cbn -[ends_with].
  - destruct IH as (H1 & H2 & H3). split_and!; [lia|lia| |].
    + by rewrite Hs.
    + intros [|[|j]] Hj; [lia|done|]. cbn [take]. rewrite (Hs (S j)). apply H3. lia.
  - intros [|[|j]] Hj; [lia|done|]. cbn [take]. rewrite (Hs (S j)). apply IH. lia.
Qed.

Lemma first_blank_window input :
  first_blank [] input = Nat.add 4 <$> window_position input blank_line.
Proof.
  pose proof (first_blank_spec [] input) as Hf. cbn [app] in Hf.
  assert (∀ j, ends_with (take j input) blank_line = true →
    ∃ a t, input = a ++ blank_line ++ t ∧ (length a + 4 ≤ j)%nat) as Hend.
  { intros j [a Ha]%ends_with_spec. exists a, (drop j input).
    rewrite app_assoc, <-Ha, take_drop. split; [done|].
    apply (f_equal length) in Ha. rewrite length_take, length_app in Ha.
    change (length blank_line) with 4%nat in Ha. lia. }
  destruct (window_position input blank_line) as [i|] eqn:Ew; cbn.
  - destruct (window_position_Some _ _ _ Ew) as (t & Ht & Hi).
    assert (length input = i + 4 + length t)%nat as Hlen.
    { apply (f_equal length) in Ht. rewrite !length_app, length_take in Ht. cbn in Ht. lia. }
    assert (ends_with (take (4 + i) input) blank_line = true) as He.
    { apply ends_with_spec. exists (take i input).
      rewrite Ht at 1. rewrite app_assoc.
      rewrite take_app_length'; [done|]. rewrite length_app, length_take. cbn. lia. }
    destruct (first_blank [] input) as [k|].
    + destruct Hf as (Hk & Hke & Hmin). destruct (Hend k Hke) as (a & t' & Heq & Ha).
      apply (window_position_min _ _ _ _ _ Ew) in Heq.
      destruct (decide (k = 4 + i)%nat) as [->|Hne]; [done|].
      rewrite Hmin in He; [done|lia].
    + rewrite Hf in He; [done|lia].
  - destruct (first_blank [] input) as [k|]; [|done]. destruct Hf as (Hk & Hke & _).
    destruct (Hend k Hke) as (a & t & Heq & _).
    by destruct (window_position_None _ _ _ _ Ew Heq).
Qed.

Lemma read_headers_first input h :
  (length h ≤ MAX_CONNECT_HEADERS)%nat →
  read_headers input h (scan_state h) =
    match first_blank h input with
    | Some k => if (length h + k <=? MAX_CONNECT_HEADERS)%nat
                then Ok (h ++ take k input, drop k input) else Err HeadersExceed
    | None => if (length h + length input <? MAX_CONNECT_HEADERS)%nat
              then Err HeadersReadFailed else Err HeadersExceed
    end.
Proof.
  revert h. induction input as [|b t IH]; intros h Hh; cbn [read_headers first_blank length].
  { rewrite Nat.add_0_r. destruct (Nat.eqb_spec (length h) MAX_CONNECT_HEADERS) as [E|E];
      destruct (Nat.ltb_spec (length h) MAX_CONNECT_HEADERS); try done; lia. }
  rewrite connect_state_scan.
  destruct (Nat.eqb_spec (length h) MAX_CONNECT_HEADERS) as [E|E].
  { destruct (ends_with (h ++ [b]) blank_line).
    - destruct (Nat.leb_spec (length h + 1) MAX_CONNECT_HEADERS); [lia|done].
    - pose proof (first_blank_spec (h ++ [b]) t) as Hf.
      destruct (first_blank (h ++ [b]) t) as [k|]; cbn [fmap option_fmap option_map].
      + destruct (Nat.leb_spec (length h + S k) MAX_CONNECT_HEADERS); [lia|done].
      + destruct (Nat.ltb_spec (length h + S (length t)) MAX_CONNECT_HEADERS); [lia|done]. }
  destruct (ends_with (h ++ [b]) blank_line).
  { destruct (Nat.leb_spec (length h + 1) MAX_CONNECT_HEADERS); [|lia]. done. }
  rewrite IH by (rewrite length_app; cbn; lia). rewrite length_app. cbn [length].
  destruct (first_blank (h ++ [b]) t) as [k|]; cbn [fmap option_fmap option_map].
  - replace (length h + 1 + k)%nat with (length h + S k)%nat by lia.
    cbn [take drop]. by rewrite <-app_assoc.
  - by replace (length h + 1 + length t)%nat with (length h + S (length t))%nat by lia.
Qed.

(** C27: The byte-by-byte scanner reads exactly up to the first blank line and
    leaves everything after it to the relayed connection; if the blank line is
    not within the first 4096 bytes, or the peer closes before it, the handshake
    is refused, and it always terminates. *)
Theorem read_headers_spec input :
  read_headers input [] 0 =
    match window_position input blank_line with
    | Some i => if (i + 4 <=? MAX_CONNECT_HEADERS)%nat
                then Ok (take (i + 4) input, drop (i + 4) input) else Err HeadersExceed
    | None => if (length input <? MAX_CONNECT_HEADERS)%nat
              then Err HeadersReadFailed else Err HeadersExceed
    end.
Proof.
  change 0%nat with (scan_state []) at 1. rewrite read_headers_first by (cbn; lia).
  rewrite first_blank_window.
  destruct (window_position input blank_line) as [i|]; [|done].
  cbn [fmap option_fmap option_map]. by rewrite (Nat.add_comm 4 i).
Qed.

(** ** The allow list *)

(** A KMS endpoint: [kms.<region>.amazonaws.com:443] or its FIPS variant. *)
Definition kms_authority (service region : bytes) : bytes :=
  service ++ bstr "." ++ region ++ bstr ".amazonaws.com:443".

Definition kms_endpoint (authority : bytes) : Prop :=
  ∃ service region, authority = kms_authority service region ∧
    (service = bstr "kms" ∨ service = bstr "kms-fips") ∧
    region ≠ [] ∧ Forall (λ b, region_char b = true) region.

Lemma region_char_facts b :
  region_char b = true → b ≠ "."%byte ∧ b ≠ ":"%byte.
Proof. intros H. split; intros ->; discriminate H. Qed.

Lemma not_ip s : ¬ ip_char "k"%byte = true → "k"%byte ∈ s → parse_ip_addr s = None.
Proof.
  intros Hk Hs. destruct (parse_ip_addr s) as [a|] eqn:E; [|done].
  apply parse_ip_addr_chars in E. rewrite Forall_forall in E. by destruct (Hk (E _ Hs)).
Qed.

Lemma approved_labels_spec labels :
  approved_labels labels = true ↔
    ∃ service region, labels = [service; region; bstr "amazonaws"; bstr "com"] ∧
      (service = bstr "kms" ∨ service = bstr "kms-fips") ∧
      region ≠ [] ∧ Forall (λ b, region_char b = true) region.
Proof.
  split.
  - destruct labels as [|l0 [|l1 [|l2 [|l3 [|]]]]]; try done. cbn -[bstr].
    intros H. repeat (apply andb_prop in H as [H ?]). apply orb_prop in H.
    bool_props. subst l2 l3. exists l0, l1. split_and!; [done| |done|].
    + destruct H as [H|H]; bool_props; auto.
    + rewrite Forall_forall. intros x Hx. rewrite forallb_forall in *.
      match goal with K : ∀ x, In x l1 → _ |- _ => apply K end. by apply list_elem_of_In.
  - intros (service & region & -> & Hs & Hr & Hf). cbn -[bstr].
    rewrite (bool_decide_true (bstr "amazonaws" = _)), (bool_decide_true (bstr "com" = _)) by done.
    rewrite (bool_decide_false (region = [])) by done.
    assert (forallb region_char region = true) as ->.
    { apply forallb_forall. intros x Hx. rewrite Forall_forall in Hf. apply Hf.
      by apply list_elem_of_In. }
    destruct Hs as [->| ->]; reflexivity.
Qed.

Lemma split_dots a region b c :
  Forall (λ x, is_byte "."%byte x = false) a → Forall (λ x, is_byte "."%byte x = false) region →
  Forall (λ x, is_byte "."%byte x = false) b → Forall (λ x, is_byte "."%byte x = false) c →
  split_by (is_byte "."%byte) (a ++ "."%byte :: region ++ "."%byte :: b ++ "."%byte :: c)
    = [a; region; b; c].
Proof.
  intros Ha Hr Hb Hc. rewrite !split_by_app by done. by rewrite split_by_none.
Qed.

Lemma validate_kms_host_iff authority :
  validate_kms_host authority = Ok tt ↔ kms_endpoint authority.
Proof.
  unfold validate_kms_host, kms_endpoint. split.
  - destruct (rsplit_once ":"%byte authority) as [[host port]|] eqn:Er; [|done].
    apply rsplit_once_spec in Er as [-> _].
    destruct (_ || _ || _) eqn:E; [done|]. bool_props.
    destruct (approved_labels _) eqn:Ea; [|done]. intros _. subst port.
    apply approved_labels_spec in Ea as (service & region & Hl & Hs & Hr & Hf).
    exists service, region. split_and!; try done.
    apply split_by_join in Hl as ->. unfold kms_authority.
    cbn -[bstr]. rewrite <-!app_assoc. f_equal. cbn. f_equal. by rewrite <-!app_assoc.
  - intros (service & region & -> & Hs & Hr & Hf).
    set (host := service ++ "."%byte :: region ++ "."%byte :: bstr "amazonaws" ++ "."%byte :: bstr "com").
    assert (kms_authority service region = host ++ ":"%byte :: bstr "443") as ->.
    { unfold kms_authority, host. cbn. rewrite <-!app_assoc. cbn. f_equal. f_equal.
      by rewrite <-app_assoc. }
    rewrite rsplit_once_app by (apply (bool_decide_unpack _); vm_compute; done).
    assert ("k"%byte ∈ host) as Hk by (unfold host; destruct Hs as [->| ->]; left).
    rewrite (not_ip host) by (done || discriminate).
    rewrite (bool_decide_true (bstr "443" = _)) by done.
    rewrite (bool_decide_false (host = [])) by (unfold host; by destruct service).
    cbn [negb orb]. rewrite (bool_decide_false (is_Some None)) by (by intros [? ?]).
    unfold host. rewrite split_dots.
    + rewrite (proj2 (approved_labels_spec _)); [done|]. eauto 10.
    + destruct Hs as [->| ->]; repeat constructor.
    + eapply Forall_impl; [exact Hf|]. intros x Hx. apply bool_decide_eq_false.
      by apply region_char_facts.
    + repeat constructor.
    + repeat constructor.
Qed.

(** C19: A CONNECT target is accepted exactly when it is
    [kms.<region>.amazonaws.com:443] or [kms-fips.<region>.amazonaws.com:443]
    with a non-empty region of lower-case letters, digits and hyphens: no other
    host, subdomain, port or IP address passes. *)
Theorem validate_kms_host_spec authority :
  validate_kms_host authority = Ok tt ↔ kms_endpoint authority.
Proof. apply validate_kms_host_iff. Qed.

(** ** The relay *)

(** C20: The relay acts only for a peer with an enclave's CID, only after a
    complete, well-formed CONNECT request for a KMS endpoint, and in a fixed
    order: connect to that very authority on port 443, acknowledge, then copy
    what the peer sent after the request.  It reports success only when all three
    were done; a peer with a reserved CID gets no task at all. *)
Theorem relay_only_kms net cid input target timed_out :
  match accept_connection net cid input target timed_out with
  | None => cid ≤ 2 ∨ cid = VMADDR_CID_ANY
  | Some (r, acts) =>
      2 < cid ∧ cid ≠ VMADDR_CID_ANY ∧
      (acts = [] ∧ r ≠ Ok tt ∨
       ∃ authority rest,
         read_connect_target input = Ok (authority, rest) ∧ kms_endpoint authority ∧
         acts `prefix_of` [ActConnect authority 443; ActAcknowledge; ActCopy rest] ∧
         (r = Ok tt → acts = [ActConnect authority 443; ActAcknowledge; ActCopy rest]))
  end.
Proof.
  unfold accept_connection. destruct (_ || _) eqn:E.
  { apply orb_prop in E as [E|E]; [left; lia|right; lia]. }
  bool_props. assert (2 < cid ∧ cid ≠ VMADDR_CID_ANY) as [Hc1 Hc2] by lia.
  destruct (relay_connect_connection net input target) as [r acts] eqn:Er.
  assert (acts = [] ∧ r ≠ Ok tt ∨
     ∃ authority rest, read_connect_target input = Ok (authority, rest) ∧
       kms_endpoint authority ∧
       acts `prefix_of` [ActConnect authority 443; ActAcknowledge; ActCopy rest] ∧
       (r = Ok tt → acts = [ActConnect authority 443; ActAcknowledge; ActCopy rest])) as Hr.
  { unfold relay_connect_connection in Er.
    destruct (read_connect_target input) as [[a rest]|e]; [|left; by simplify_eq].
    destruct (validate_kms_host a) as [[]|e] eqn:Ev; [|left; by simplify_eq].
    apply validate_kms_host_iff in Ev. right. exists a, rest.
    assert (match a with [] => target | _ => a end = a) as Ha.
    { destruct Ev as (s & g & -> & [->| ->] & _); done. }
    rewrite Ha in Er. split_and!; [done|done|..];
      repeat case_match; simplify_eq; try done; by eexists. }
  destruct timed_out as [n|]; [|split_and!; done]. split_and!; [done|done|].
  destruct Hr as [[-> _]|(a & rest & H1 & H2 & H3 & _)].
  - left. by rewrite take_nil.
  - right. exists a, rest. split_and!; [done|done| |done].
    destruct H3 as [k Hk]. exists (drop n acts ++ k). by rewrite app_assoc, take_drop.
Qed.

(** A numeric address: that of [std::net], or one with a scope behind it, which a
    resolver takes too. *)
Definition address_text (host : bytes) : Prop :=
  ∃ addr scope, is_Some (parse_ip_addr addr) ∧ (host = addr ∨ host = addr ++ "%"%byte :: scope).

Lemma kms_not_address service region :
  service = bstr "kms" ∨ service = bstr "kms-fips" → ~ address_text (kms_authority service region).
Proof.
  intros Hs ([|c addr] & scope & [a Ha] & E); [by vm_compute in Ha|].
  apply parse_ip_addr_chars, Forall_cons in Ha as [Hc _].
  assert (c = "k"%byte) as -> by (destruct Hs as [->| ->]; destruct E as [E|E]; by injection E).
  discriminate Hc.
Qed.

(** C37: The relay passes the whole authority, port included, to the resolver as
    the host.  A host with a colon is a numeric address or nothing at all, since
    names have none (RFC 952 and 1123), and no authority that passes the allow list
    is an address; so where only such hosts are resolved no connection to a KMS
    endpoint is ever made, whatever the enclave sends.  Nor is the configured
    fallback host used: the only host the relay tries is the authority itself. *)
Theorem relay_never_connects net input fallback_host :
  (∀ host port, ":"%byte ∈ host → ~ address_text host → net_connect net host port = false) →
  let outcome := relay_connect_connection net input fallback_host in
  outcome.1 ≠ Ok tt ∧
  (outcome.2 = [] ∨
   ∃ authority, kms_endpoint authority ∧ outcome = (Err ConnectFailed, [ActConnect authority 443])).
Proof.
  intros Hnet. unfold relay_connect_connection.
  destruct (read_connect_target input) as [[a rest]|e]; [|by auto].
  destruct (validate_kms_host a) as [[]|e] eqn:Ev; [|by auto].
  apply validate_kms_host_iff in Ev as Hk. pose proof Hk as (s & g & -> & Hs & _).
  assert (":"%byte ∈ kms_authority s g) as Hc.
  { unfold kms_authority. do 3 (apply elem_of_app; right). apply (bool_decide_unpack _).
    by vm_compute. }
  assert (match kms_authority s g with [] => fallback_host | _ => kms_authority s g end = kms_authority s g)
    as -> by (by destruct Hs as [->| ->]).
  rewrite Hnet by (done || by apply kms_not_address). cbn. split; [done|]. right. by eexists.
Qed.

(** It resolves numeric addresses and names. *)
Definition strict_network : Network := {|
  net_connect := λ host _, bool_decide (":"%byte ∉ host) || bool_decide (is_Some (parse_ip_addr host));
  net_acknowledge := true; net_copy := true
|}.

Definition connect_request : bytes :=
  bstr "CONNECT kms.eu-west-1.amazonaws.com:443 HTTP/1.1" ++ blank_line ++ bstr "hello".

Lemma relay_never_connects_witness :
  net_connect strict_network (bstr "::1") 443 = true ∧
  net_connect strict_network (bstr "kms.eu-west-1.amazonaws.com") 443 = true ∧
  (relay_connect_connection strict_network connect_request []).2 =
    [ActConnect (bstr "kms.eu-west-1.amazonaws.com:443") 443] ∧
  (relay_connect_connection strict_network connect_request []).1 ≠ Ok tt.
Proof.
  split; [by_vm|]. split; [by_vm|]. split; [by_vm|].
  destruct (relay_never_connects strict_network connect_request []) as [H _]; [|exact H].
  intros host port Hc Ha. cbn. apply orb_false_iff. split; apply bool_decide_eq_false; [tauto|].
  intros Hip. apply Ha. exists host, []. split; [exact Hip|left; reflexivity].
Defined.

(** The request an enclave writes for an authority is read back as that
    authority, and what it sends after the request is left untouched. *)
Theorem connect_request_roundtrip authority rest :
  authority ≠ [] → Forall (λ b, visible b = true) authority →
  (length authority ≤ 4000)%nat →
  read_connect_target (bstr "CONNECT " ++ authority ++ bstr " HTTP/1.1" ++ blank_line ++ rest)
    = Ok (authority, rest).
Proof.
  intros Hne Hv Hlen.
  set (line := bstr "CONNECT" ++ " "%byte :: authority ++ " "%byte :: bstr "HTTP/1.1").
  assert (bstr "CONNECT " ++ authority ++ bstr " HTTP/1.1" ++ blank_line ++ rest =
          line ++ blank_line ++ rest) as ->.
  { unfold line. cbn. do 8 f_equal. by rewrite <-app_assoc. }
  assert (Forall (λ b, lead1 b = true ∧ b ≠ CR) line) as Hline.
  { assert (Forall (λ b, lead1 b = true ∧ b ≠ CR) authority) as Ha.
    { eapply Forall_impl; [exact Hv|]. intros b Hb. split; [by apply visible_lead1|].
      intros ->. discriminate Hb. }
    unfold line. repeat (apply Forall_app; split); repeat constructor; try done.
    apply Forall_app. split; [done|]. repeat constructor; done. }
  assert (CR ∉ line) as Hcr.
  { intros H. rewrite Forall_forall in Hline. by destruct (Hline _ H). }
  assert (length line ≤ 4020)%nat as Hll.
  { unfold line. rewrite length_app. cbn. rewrite length_app. cbn. lia. }
  assert (valid_utf8 (line ++ blank_line) = true) as Hu.
  { apply valid_utf8_ascii, Forall_app. split; [|repeat constructor].
    eapply Forall_impl; [exact Hline|]. by intros b [? _]. }
  unfold read_connect_target.
  pose proof (read_headers_first (line ++ blank_line ++ rest) []) as E.
  change (scan_state []) with 0%nat in E. rewrite E by (cbn; lia). clear E.
  rewrite first_blank_window. unfold blank_line in *. rewrite window_position_fresh by done.
  cbn [fmap option_fmap option_map length].
  rewrite (proj2 (Nat.leb_le _ _)) by (unfold MAX_CONNECT_HEADERS; lia).
  cbn [app length]. change (line ++ CR :: LF :: CR :: LF :: rest) with
    (line ++ [CR; LF; CR; LF] ++ rest).
  rewrite app_assoc, take_app_length', drop_app_length' by (rewrite length_app; cbn; lia).
  unfold parse_request_line. rewrite Hu. cbn [negb].
  unfold split_first.
  pose proof (window_position_fresh line CR [LF] [CR; LF] Hcr) as Hw. cbn [app] in Hw.
  rewrite Hw, take_app_length. unfold line.
  rewrite split_whitespace_three; try done; by repeat constructor.
Qed.

Lemma connect_request_roundtrip_witness :
  read_connect_target connect_request = Ok (bstr "kms.eu-west-1.amazonaws.com:443", bstr "hello").
Proof.
  apply (connect_request_roundtrip (bstr "kms.eu-west-1.amazonaws.com:443") (bstr "hello")).
  - discriminate.
  - repeat constructor.
  - cbn. lia.
Defined.

(** ** The tunnel's command line *)

(** An option with a value that parses. *)
Definition valid_option (o : bytes * bytes) : Prop :=
  (o.1 = bstr "--enclave-cid" ∧ is_Some (parse_unsigned u32_max o.2)) ∨
  (o.1 = bstr "--enclave-port" ∧ is_Some (parse_unsigned u32_max o.2)) ∨
  (o.1 = bstr "--listen" ∧ is_Some (parse_socket_addr o.2)).

Definition option_args (o : bytes * bytes) : list bytes := [o.1; o.2].

(** What the last occurrence of [key] parses to, or [init]. *)
Definition last_value {A} (parse : bytes → option A) (key : bytes)
    (opts : list (bytes * bytes)) (init : option A) : option A :=
  foldl (λ acc o, if bool_decide (o.1 = key) then parse o.2 else acc) init opts.

Lemma parse_args_loop_options opts cid port listen :
  Forall valid_option opts →
  parse_args_loop (concat (option_args <$> opts)) cid port listen =
    ArgsOk {| enclave_cid :=
                default 3 (last_value (parse_unsigned u32_max) (bstr "--enclave-cid") opts cid);
              enclave_port :=
                default 3000 (last_value (parse_unsigned u32_max) (bstr "--enclave-port") opts port);
              listen_addr :=
                default default_listen (last_value parse_socket_addr (bstr "--listen") opts listen) |}.
Proof.
  intros Hv. revert cid port listen.
  induction Hv as [|[k v] opts Ho _ IH]; intros cid port listen; [done|].
  unfold valid_option in Ho. cbn [fst snd] in Ho.
  destruct Ho as [[-> [x Hx]]|[[-> [x Hx]]|[-> [x Hx]]]]; cbn -[parse_unsigned parse_socket_addr];
    rewrite Hx; apply IH.
Qed.

(** The tunnel takes its options in any order, the last one of a kind wins,
    and an option that is not given has its documented default: enclave CID 3,
    port 3000, listening on 0.0.0.0:3000. *)
Theorem parse_args_options program opts :
  Forall valid_option opts →
  parse_args (program :: concat (option_args <$> opts)) =
    ArgsOk {| enclave_cid :=
                default 3 (last_value (parse_unsigned u32_max) (bstr "--enclave-cid") opts None);
              enclave_port :=
                default 3000 (last_value (parse_unsigned u32_max) (bstr "--enclave-port") opts None);
              listen_addr :=
                default default_listen (last_value parse_socket_addr (bstr "--listen") opts None) |}.
Proof. intros H. unfold parse_args. cbn [drop]. by apply parse_args_loop_options. Qed.

Definition help_example : list (bytes * bytes) :=
  [(bstr "--enclave-cid", bstr "42"); (bstr "--listen", bstr "0.0.0.0:3000");
   (bstr "--enclave-port", bstr "3000")].

Lemma parse_args_options_witness :
  parse_args (bstr "vsock_host_bridge" :: concat (option_args <$> help_example)) =
    ArgsOk {| enclave_cid := 42; enclave_port := 3000; listen_addr := default_listen |}.
Proof.
  rewrite (parse_args_options (bstr "vsock_host_bridge") help_example).
  - vm_compute. reflexivity.
  - apply Forall_cons; split; [|apply Forall_cons; split; [|apply Forall_cons; split]];
      [left|right; right|right; left|apply Forall_nil_2];
      (split; [reflexivity|vm_compute; eexists; reflexivity]).
Defined.

(** The usage shown at the top of the binary's source passes [--vsock-port],
    which the parser does not know: the command is refused. *)
Theorem documented_usage_refused :
  parse_args [bstr "vsock_host_bridge"; bstr "--enclave-cid"; bstr "42";
              bstr "--listen"; bstr "0.0.0.0:3000"; bstr "--vsock-port"; bstr "3000"] =
    ArgsErr (UnknownArgument (bstr "--vsock-port")).
Proof. vm_compute. reflexivity. Qed.
