(* ===== verification/Matching.v ===== *)
(** * Theory of non-overlapping matches

    What redaction does to a haystack is [splice]: copy the gaps between the
    matches and put a replacement in the place of each match.  This file has
    the facts about [std_matches] the engine's theorems rest on: matches are
    unique in [separated] texts (all texts are when the patterns cannot overlap,
    [independent_separated]), they distribute over a cut no
    occurrence straddles, and the gaps they leave contain no occurrence. *)

From S2P Require Import Prelude Utf8 AhoCorasick.

(** ** Splicing replacements *)

Fixpoint splice (reps : list bytes) (h : bytes) (ms : list Match) (last : nat) : bytes :=
  match ms with
  | [] => drop last h
  | m :: ms => sub last (m_start m) h ++ default [] (reps !! m_pattern m)
                 ++ splice reps h ms (m_end m)
  end.

Definition shift_match (n : nat) (m : Match) : Match :=
  {| m_pattern := m_pattern m; m_start := n + m_start m; m_end := n + m_end m |}.

Lemma std_matches_bounds ps h from ms :
  Forall (λ p, p ≠ []) ps → std_matches ps h from ms →
  Forall (λ m, from ≤ m_start m ∧ m_start m < m_end m ∧ m_end m ≤ length h ∧
               m_pattern m < length ps) ms.
Proof.
  intros Hne. induction 1 as [|from m ms Ho Hs He _ IH]; constructor.
  - apply occurs_bounds in Ho as (? & ? & ?); [lia|done].
  - eapply Forall_impl; [exact IH|]. cbn. intros m' (? & ? & ? & ?).
    apply occurs_bounds in Ho as (? & ? & ?); [lia|done].
Qed.

(** The text between two consecutive matches contains no occurrence. *)
Lemma occurs_sub ps h a b i s e :
  Forall (λ p, p ≠ []) ps → b ≤ length h →
  occurs ps (sub a b h) i s e → occurs ps h i (a + s) (a + e).
Proof.
  intros Hne Hb Ho. pose proof (occurs_bounds _ _ _ _ _ Hne Ho) as (Hlt & _).
  destruct Ho as (p & Hp & -> & He & Hf). rewrite length_sub in He by done.
  exists p. split_and!; [done|lia|lia|].
  rewrite <-Hf, sub_sub by lia. done.
Qed.

Definition occurrence_free (ps : list bytes) (h : bytes) : Prop :=
  ∀ i s e, ¬ occurs ps h i s e.

Lemma std_done_free ps h from :
  Forall (λ p, p ≠ []) ps → from ≤ length h →
  (∀ i s e, occurs ps h i s e → s < from) → occurrence_free ps (sub from (length h) h).
Proof.
  intros Hne Hf H i s e Ho. apply occurs_sub in Ho; [|done|lia].
  apply H in Ho. lia.
Qed.

Lemma std_next_free ps h from m :
  Forall (λ p, p ≠ []) ps →
  occurs ps h (m_pattern m) (m_start m) (m_end m) →
  (∀ i s e, occurs ps h i s e → from ≤ s → m_end m ≤ e) →
  occurrence_free ps (sub from (m_start m) h).
Proof.
  intros Hne Hm H i s e Ho.
  pose proof (occurs_bounds _ _ _ _ _ Hne Hm) as (? & ? & _).
  pose proof (occurs_bounds _ _ _ _ _ Hne Ho) as (? & He & _).
  rewrite length_sub in He by lia.
  apply occurs_sub in Ho; [|done|lia]. apply H in Ho; lia.
Qed.

(** ** Pattern sets whose occurrences cannot overlap *)

(** Place [q] at offset 0 and [p] at offset [d < |q|]: the two agree, up to
    case, on the region they share. *)
Definition compatible (p q : bytes) (d : nat) : bool :=
  bool_decide (fold_case (take (length q - d) p) = fold_case (take (length p) (drop d q))).

Definition indexed {A} (l : list A) : list (nat * A) := imap pair l.

Definition independent (ps : list bytes) : bool :=
  forallb (λ ip : nat * bytes, forallb (λ jq : nat * bytes,
    forallb (λ d, negb (compatible ip.2 jq.2 d) || ((ip.1 =? jq.1) && (d =? 0))%nat)
            (seq 0 (length jq.2))) (indexed ps)) (indexed ps).

Lemma indexed_elem {A} (l : list A) i x : l !! i = Some x → (i, x) ∈ indexed l.
Proof.
  intros H. apply list_elem_of_lookup. exists i.
  unfold indexed. by rewrite list_lookup_imap, H.
Qed.

Lemma forallb_elem {A} (f : A → bool) l x : forallb f l = true → x ∈ l → f x = true.
Proof. rewrite forallb_forall. intros H Hx%list_elem_of_In. auto. Qed.

Lemma independent_spec ps i j p q d :
  independent ps = true → ps !! i = Some p → ps !! j = Some q → d < length q →
  fold_case (take (length q - d) p) = fold_case (take (length p) (drop d q)) →
  i = j ∧ d = 0.
Proof.
  intros H Hp Hq Hd E. unfold independent in H.
  eapply (forallb_elem _ _ (i, p)) in H; [|by apply indexed_elem].
  eapply (forallb_elem _ _ (j, q)) in H; [|by apply indexed_elem].
  eapply (forallb_elem _ _ d) in H; [|apply elem_of_seq; cbn; lia].
  cbn [fst snd] in H. apply orb_true_iff in H as [H|H]; bool_props.
  - unfold compatible in H. bool_props. done.
  - rewrite Nat.eqb_eq in *. done.
Qed.

(** Two windows of a text, seen through one another. *)
Lemma fold_window h s e p a b :
  fold_case (sub s e h) = fold_case p → s + b ≤ e →
  fold_case (sub (s + a) (s + b) h) = fold_case (sub a b p).
Proof.
  intros E Hb. rewrite !fold_case_sub in *. rewrite <-E. rewrite sub_sub by lia. done.
Qed.

Lemma compatible_windows h p q sp sq n :
  sq ≤ sp → sp < sq + length q → n = Nat.min (sq + length q) (sp + length p) →
  fold_case (sub sp n h) = fold_case (sub 0 (n - sp) p) →
  fold_case (sub sq (sq + length q) h) = fold_case q →
  fold_case (take (length q - (sp - sq)) p) = fold_case (take (length p) (drop (sp - sq) q)).
Proof.
  intros H1 H2 Hn Ep Eq.
  pose proof (fold_window _ _ _ _ (sp - sq) (n - sq) Eq ltac:(lia)) as E.
  replace (sq + (sp - sq)) with sp in E by lia.
  replace (sq + (n - sq)) with n in E by lia.
  rewrite Ep in E. rewrite sub_0 in E. unfold sub in E.
  replace (n - sq - (sp - sq)) with (n - sp) in E by lia.
  destruct (decide (sq + length q ≤ sp + length p)).
  - replace (n - sp) with (length q - (sp - sq)) in E by lia. rewrite E.
    rewrite !take_ge by solve_len. done.
  - replace (n - sp) with (length p) in E by lia. rewrite <-E.
    rewrite !take_ge by solve_len. done.
Qed.

(** Occurrences of independent patterns that share a byte are the same. *)
Lemma independent_overlap ps h i j s e s' e' :
  independent ps = true → occurs ps h i s e → occurs ps h j s' e' →
  s < e' → s' < e → i = j ∧ s = s' ∧ e = e'.
Proof.
  intros Hi. revert i j s e s' e'.
  assert (∀ i j s e s' e', occurs ps h i s e → occurs ps h j s' e' →
            s' ≤ s → s < e' → i = j ∧ s = s' ∧ e = e') as W.
  { intros i j s e s' e' (p & Hp & -> & He & Ep) (q & Hq & -> & He' & Eq) H1 H2.
    destruct (independent_spec ps i j p q (s - s') Hi Hp Hq) as [<- Hd]; [lia| |].
    - eapply (compatible_windows h p q s s'); [done|done|done| |done].
      pose proof (fold_window _ _ _ _ 0 (Nat.min (s' + length q) (s + length p) - s) Ep
                    ltac:(lia)) as E.
      rewrite Nat.add_0_r in E. rewrite <-E. f_equal. f_equal. lia.
    - split; [done|]. assert (q = p) by congruence. subst. lia. }
  intros i j s e s' e' Ho Ho' H1 H2. destruct (decide (s' ≤ s)).
  - eauto.
  - destruct (W j i s' e' s e Ho' Ho) as (-> & -> & ->); [lia|lia|done].
Qed.

(** ** Separated texts

    A condition on the text instead of the rules, in two parts.  [sep_occurs]:
    occurrences do not overlap, those that share a byte are the same.  [sep_starts]:
    no part of a pattern runs past the end of an occurrence: when a pattern starts inside an occurrence, and what is there
    of it reaches the occurrence's end, then it ends there and the occurrence is
    written exactly as its pattern. *)
Record separated (ps : list bytes) (h : bytes) : Prop := {
  sep_occurs i j s e s' e' :
    occurs ps h i s e → occurs ps h j s' e' → s < e' → s' < e → i = j ∧ s = s' ∧ e = e';
  sep_starts j q p s k n :
    ps !! j = Some q → occurs ps h j s (s + length q) → p ∈ ps →
    s < k → k < s + length q → s + length q ≤ k + n → n < length p → k + n ≤ length h →
    fold_case (sub k (k + n) h) = fold_case (take n p) →
    k + n = s + length q ∧ sub s (s + length q) h = q
}.

(** What is at a place inside an occurrence agrees with the rest of its pattern. *)
Lemma starts_compatible ps h j q p s k n :
  ps !! j = Some q → occurs ps h j s (s + length q) →
  s < k → k < s + length q → s + length q ≤ k + n → n < length p →
  fold_case (sub k (k + n) h) = fold_case (take n p) →
  fold_case (take (length q - (k - s)) p) = fold_case (take (length p) (drop (k - s) q)).
Proof.
  intros Hq (q' & Hq' & _ & _ & Ef) H1 H2 H3 H4 E. assert (q' = q) as -> by congruence.
  apply (compatible_windows h p q k s (s + length q)); [lia|lia|lia| |done].
  pose proof (fold_window h k (k + n) (take n p) 0 (s + length q - k) E ltac:(lia)) as E'.
  rewrite Nat.add_0_r in E'. replace (k + (s + length q - k)) with (s + length q) in E' by lia.
  rewrite E', !sub_0, take_take. f_equal. f_equal. lia.
Qed.

(** With rules that cannot overlap every text is separated. *)
Lemma independent_separated ps h : independent ps = true → separated ps h.
Proof.
  intros Hi. split.
  - intros. by eapply (independent_overlap ps h).
  - intros j q p s k n Hq Ho Hp H1 H2 H3 H4 _ E. apply list_elem_of_lookup in Hp as [i Hp].
    pose proof (starts_compatible _ _ _ _ _ _ _ _ Hq Ho H1 H2 H3 H4 E) as Ec.
    destruct (independent_spec ps i j p q (k - s) Hi Hp Hq ltac:(lia) Ec) as [_ ?]. lia.
Qed.

Lemma std_matches_unique ps h from ms ms' :
  separated ps h → Forall (λ p, p ≠ []) ps →
  std_matches ps h from ms → std_matches ps h from ms' → ms = ms'.
Proof.
  intros Hi Hne H. revert ms'.
  induction H as [from Hd|from m ms Ho Hs He Hr IH]; intros ms' H'.
  - inversion H' as [|? m' ? Ho' Hs']; subst; [done|]. apply Hd in Ho'. lia.
  - inversion H' as [? Hd'|? m' ms'' Ho' Hs' He' Hr']; subst; [apply Hd' in Ho; lia|].
    assert (m_end m = m_end m') as E.
    { pose proof (He _ _ _ Ho' Hs'). pose proof (He' _ _ _ Ho Hs). lia. }
    pose proof (occurs_bounds _ _ _ _ _ Hne Ho) as (? & _).
    pose proof (occurs_bounds _ _ _ _ _ Hne Ho') as (? & _).
    destruct (sep_occurs _ _ Hi _ _ _ _ _ _ Ho Ho') as (E1 & E2 & E3); [lia|lia|].
    assert (m = m') as <- by (destruct m, m'; cbn in *; congruence).
    f_equal. by apply IH.
Qed.

(** ** Cuts *)

(** Some occurrence starts before position [k] and ends after it. *)
Definition straddles (ps : list bytes) (h : bytes) (k : nat) : Prop :=
  ∃ i s e, occurs ps h i s e ∧ s < k ∧ k < e.

Lemma occurs_app_l ps A B i s e :
  e ≤ length A → occurs ps (A ++ B) i s e ↔ occurs ps A i s e.
Proof.
  intros He. unfold occurs. setoid_rewrite (sub_app_l s e A B He).
  split; intros (p & ? & ? & ? & ?); exists p; split_and!; try done; solve_len.
Qed.

Lemma occurs_app_r ps A B i s e :
  length A ≤ s →
  occurs ps (A ++ B) i s e ↔ s ≤ e ∧ occurs ps B i (s - length A) (e - length A).
Proof.
  intros Hs. unfold occurs. setoid_rewrite (sub_app_r s e A B Hs). split.
  - intros (p & ? & ? & ? & ?). split; [lia|]. exists p. split_and!; try done; solve_len.
  - intros (? & p & ? & ? & ? & ?). exists p. split_and!; try done; solve_len.
Qed.

(** The end of a separated text is separated. *)
Lemma separated_app_r ps A B : separated ps (A ++ B) → separated ps B.
Proof.
  assert (∀ i s e, occurs ps B i s e → occurs ps (A ++ B) i (length A + s) (length A + e)) as Hsh.
  { intros i s e Ho. apply occurs_app_r; [lia|].
    split; [destruct Ho as (? & _ & -> & _); lia|]. 
    by replace (length A + s - length A) with s by lia; replace (length A + e - length A) with e by lia. }
  intros [H1 H2]. split.
  - intros i j s e s' e' Ho Ho' ? ?.
    destruct (H1 _ _ _ _ _ _ (Hsh _ _ _ Ho) (Hsh _ _ _ Ho')) as (? & ? & ?); lia.
  - intros j q p s k n Hq Ho Hp ? ? ? ? ? E. apply Hsh in Ho.
    rewrite Nat.add_assoc in Ho.
    destruct (H2 j q p (length A + s) (length A + k) n Hq Ho Hp) as [? Es]; try lia.
    + solve_len.
    + rewrite sub_app_r by lia. rewrite <-E. f_equal. f_equal; lia.
    + split; [lia|]. rewrite sub_app_r in Es by lia. rewrite <-Es at 2. f_equal; lia.
Qed.

Lemma std_matches_shift ps A B from ms :
  std_matches ps B from ms →
  std_matches ps (A ++ B) (length A + from) (shift_match (length A) <$> ms).
Proof.
  induction 1 as [from Hd|from m ms Ho Hs He _ IH]; cbn.
  - constructor. intros i s e Ho. destruct (decide (length A ≤ s)); [|lia].
    apply occurs_app_r in Ho as [_ Ho]; [|done]. apply Hd in Ho. lia.
  - constructor; cbn; [|lia| |done].
    + apply occurs_app_r; [lia|]. split; [destruct Ho as (p & _ & -> & _); lia|].
      by replace (_ - _) with (m_start m) by lia; replace (_ - _) with (m_end m) by lia.
    + intros i s e Ho' Hs'. apply occurs_app_r in Ho' as [? Ho']; [|lia].
      apply He in Ho'; lia.
Qed.

Lemma std_matches_app ps A B from msA msB :
  Forall (λ p, p ≠ []) ps →
  ¬ straddles ps (A ++ B) (length A) → from ≤ length A →
  std_matches ps A from msA → std_matches ps B 0 msB →
  std_matches ps (A ++ B) from (msA ++ (shift_match (length A) <$> msB)).
Proof.
  intros Hne Hstr Hfrom HA HB. revert Hfrom.
  assert (∀ i s e, occurs ps (A ++ B) i s e → e ≤ length A ∨ length A ≤ s) as Hcut.
  { intros i s e Ho. destruct (decide (e ≤ length A)); [by left|right].
    destruct (decide (s < length A)); [|lia]. exfalso. apply Hstr. exists i, s, e. split_and!; [done|lia..]. }
  induction HA as [from Hd|from m ms Ho Hs He _ IH]; intros Hfrom; cbn.
  - apply std_matches_weaken with (length A); [done| |].
    + intros i s e Ho Hs. destruct (Hcut _ _ _ Ho) as [Hl|]; [|done].
      apply occurs_app_l in Ho; [|done]. apply Hd in Ho. lia.
    + rewrite <-(Nat.add_0_r (length A)) at 1. by apply std_matches_shift.
  - pose proof (occurs_bounds _ _ _ _ _ Hne Ho) as (? & ? & _).
    constructor; [by apply occurs_app_l|done| |by apply IH].
    intros i s e Ho' Hs'. destruct (Hcut _ _ _ Ho') as [Hl|]; [|].
    + apply occurs_app_l in Ho'; [|done]. eauto.
    + apply occurs_bounds in Ho' as (? & _); [lia|done].
Qed.

Lemma splice_shift reps A B ms k :
  splice reps (A ++ B) (shift_match (length A) <$> ms) (length A + k) = splice reps B ms k.
Proof.
  revert k. induction ms as [|m ms IH]; intros k; cbn.
  - rewrite drop_app_ge by lia. f_equal. lia.
  - rewrite IH, sub_app_r by lia. do 2 f_equal; lia.
Qed.

Lemma splice_app reps A B msA msB last :
  last ≤ length A → Forall (λ m, m_start m ≤ length A ∧ m_end m ≤ length A) msA →
  splice reps (A ++ B) (msA ++ (shift_match (length A) <$> msB)) last
  = splice reps A msA last ++ splice reps B msB 0.
Proof.
  intros Hl H. revert last Hl. induction H as [|m ms [Hs He] _ IH]; intros last Hl; cbn.
  - destruct msB as [|m msB]; cbn.
    + by rewrite drop_app_le.
    + rewrite splice_shift.
      rewrite <-(sub_app_adj last (length A) (length A + m_start m) (A ++ B)) by lia.
      rewrite (sub_app_l last), (sub_app_r (length A)) by lia. rewrite <-app_assoc. f_equal.
      * unfold sub. apply take_ge. solve_len.
      * rewrite Nat.sub_diag. do 2 f_equal. lia.
  - rewrite IH, sub_app_l by done. by rewrite <-!app_assoc.
Qed.

(** ** Occurrences and characters *)

Lemma lowercase_ascii b :
  to_ascii_lowercase b = b ∨ lead1 b = true ∧ lead1 (to_ascii_lowercase b) = true.
Proof. by destruct b; vm_compute; auto. Qed.

Lemma in_range_lowercase lo hi b :
  (128 ≤ lo)%Z → in_range lo hi (to_ascii_lowercase b) = in_range lo hi b.
Proof.
  intros H. destruct (lowercase_ascii b) as [->|[H1 H2]]; [done|].
  unfold lead1 in *. unfold in_range in *. bool_props. rewrite Z.leb_le in *.
  rewrite !(proj2 (Z.leb_gt lo _)) by lia. done.
Qed.

Lemma lead1_lowercase b : lead1 (to_ascii_lowercase b) = lead1 b.
Proof. destruct (lowercase_ascii b) as [->|[-> ->]]; done. Qed.

Lemma utf8_char_fold c : utf8_char (fold_case c) = utf8_char c.
Proof.
  destruct c as [|b0 [|b1 [|b2 [|b3 [|b4 c]]]]]; cbn; try done;
    unfold second3, second4, lead2, lead3, lead4, is_cont;
    rewrite ?lead1_lowercase, ?in_range_lowercase by lia; done.
Qed.

Lemma valid_utf8_fold l : valid_utf8 (fold_case l) = true ↔ valid_utf8 l = true.
Proof.
  rewrite !valid_utf8_chars. split; intros (cs & Hcs & E).
  - revert l E. induction Hcs as [|c cs Hc _ IH]; intros l E.
    + exists []. destruct l; done.
    + cbn in E. unfold fold_case in E. apply fmap_app_inv in E as (l1 & l2 & -> & E1 & ->).
      destruct (IH l2 (eq_sym E1)) as (cs' & Hcs' & ->). exists (l1 :: cs'). split; [|done].
      constructor; [|done]. by rewrite <-utf8_char_fold.
  - exists (fold_case <$> cs). subst l. split.
    + apply Forall_fmap. eapply Forall_impl; [done|]. intros c Hc. cbn. by rewrite utf8_char_fold.
    + clear Hcs. induction cs as [|c cs IH]; cbn; [done|]. by rewrite fold_case_app, IH.
Qed.

Lemma char_boundary_of_valid_drop s k :
  k ≤ length s → valid_utf8 (drop k s) = true → is_char_boundary s k = true.
Proof.
  intros Hk H. unfold is_char_boundary. destruct (k =? 0)%nat; [done|].
  destruct (s !! k) as [b|] eqn:E.
  - rewrite (drop_S _ _ _ E) in H. apply valid_utf8_head in H. by rewrite H.
  - apply lookup_ge_None in E. apply Nat.eqb_eq. lia.
Qed.

(** Occurrences of UTF-8 patterns in UTF-8 text start and end on character
    boundaries. *)
Lemma occurs_char_boundary ps h i s e :
  Forall (λ p, p ≠ []) ps → Forall (λ p, valid_utf8 p = true) ps → valid_utf8 h = true →
  occurs ps h i s e →
  is_char_boundary h s = true ∧ is_char_boundary h e = true.
Proof.
  intros Hne Hv Hh Ho. pose proof (occurs_bounds _ _ _ _ _ Hne Ho) as (Hse & Heh & _).
  destruct Ho as (p & Hp & -> & _ & Hf).
  assert (valid_utf8 p = true) as Hpv by (rewrite Forall_lookup in Hv; eauto).
  assert (is_char_boundary h s = true) as Hs.
  { unfold is_char_boundary. destruct (s =? 0)%nat; [done|].
    destruct (lookup_lt_is_Some_2 h s) as [b Hb]; [lia|]. rewrite Hb.
    destruct p as [|p0 p]; [cbn in *; lia|]. apply valid_utf8_head in Hpv.
    unfold sub in Hf. rewrite (drop_S _ _ _ Hb) in Hf. cbn [length] in Hf.
    replace (s + S (length p) - s) with (S (length p)) in Hf by lia.
    cbn in Hf. injection Hf as E _.
    rewrite <-is_cont_lowercase, E, is_cont_lowercase, Hpv. done. }
  split; [done|].
  apply char_boundary_of_valid_drop; [lia|].
  destruct (char_boundary_split h s) as [_ Hd]; [done|done|lia|].
  apply valid_utf8_app_inv with (sub s (s + length p) h).
  - apply valid_utf8_fold. rewrite Hf. by apply valid_utf8_fold.
  - unfold sub. replace (drop (s + length p) h) with (drop (s + length p - s) (drop s h))
      by (rewrite drop_drop; f_equal; lia).
    by rewrite take_drop.
Qed.

(** ** Words that keep a text from being separated

    When [p] can start inside [q], the text of an occurrence of [q] with the next
    letter of [p]; an occurrence of [q] itself when [p] lies inside it. *)
Definition clash_words (ps : list bytes) : list bytes :=
  ip ← indexed ps; jq ← indexed ps; d ← seq 0 (length jq.2);
  if compatible ip.2 jq.2 d && negb ((ip.1 =? jq.1)%nat && (d =? 0)%nat)
  then [jq.2 ++ take 1 (drop (length jq.2 - d) ip.2)] else [].

Lemma clash_words_elem ps i j p q d :
  ps !! i = Some p → ps !! j = Some q → d < length q → ¬ (i = j ∧ d = 0) →
  fold_case (take (length q - d) p) = fold_case (take (length p) (drop d q)) →
  q ++ take 1 (drop (length q - d) p) ∈ clash_words ps.
Proof.
  intros Hp Hq Hd Hne E. unfold clash_words.
  apply list_elem_of_bind. exists (i, p). split; [|by apply indexed_elem].
  apply list_elem_of_bind. exists (j, q). split; [|by apply indexed_elem].
  apply list_elem_of_bind. exists d. split; [|apply elem_of_seq; cbn; lia]. cbn [fst snd].
  unfold compatible. rewrite bool_decide_true by done.
  destruct ((i =? j)%nat && (d =? 0)%nat) eqn:Eb; cbn; [|by left].
  apply andb_prop in Eb as [?%Nat.eqb_eq ?%Nat.eqb_eq]. naive_solver.
Qed.

(** The clash word is there when [p] starts inside [q] and goes on past it or ends. *)
Lemma clash_occurs h p q s k n :
  fold_case (sub s (s + length q) h) = fold_case q → s + length q ≤ length h →
  s ≤ k → k < s + length q → n ≤ length p → k + n ≤ length h →
  fold_case (sub k (k + n) h) = fold_case (take n p) →
  n = length p ∨ s + length q < k + n →
  contains (fold_case h) (fold_case (q ++ take 1 (drop (length q - (k - s)) p))) = true.
Proof.
  intros Eq Hq H1 H2 H3 H4 Ep Hn. apply contains_spec.
  set (c := take 1 (drop (length q - (k - s)) p)).
  exists (fold_case (take s h)), (fold_case (drop (s + length q + length c) h)).
  assert (s + length q + length c ≤ length h) as Hl.
  { unfold c. rewrite length_take, length_drop. lia. }
  assert (fold_case (sub (s + length q) (s + length q + length c) h) = fold_case c) as Ec.
  { destruct (decide (length q - (k - s) < length p)) as [Hlt|Hge].
    2: { assert (c = []) as -> by (unfold c; by rewrite drop_ge by lia).
         cbn. by rewrite Nat.add_0_r, sub_nil_iff by lia. }
    assert (length c = 1) as Hc by (unfold c; rewrite length_take, length_drop; lia).
    pose proof (fold_window h k (k + n) (take n p) (length q - (k - s))
      (S (length q - (k - s))) Ep ltac:(lia)) as E.
    replace (k + (length q - (k - s))) with (s + length q) in E by lia.
    replace (k + S (length q - (k - s))) with (s + length q + 1) in E by lia.
    rewrite Hc, E. f_equal. unfold sub, c.
    replace (S (length q - (k - s)) - (length q - (k - s))) with 1 by lia.
    rewrite skipn_firstn_comm, take_take. f_equal. lia. }
  rewrite fold_case_app, <-Eq, <-Ec, <-!fold_case_app. f_equal.
  rewrite sub_app_adj by lia. rewrite <-(take_drop s h) at 1. f_equal.
  unfold sub. replace (s + length q + length c - s) with (length q + length c) by lia.
  rewrite <-(take_drop (length q + length c) (drop s h)) at 1. f_equal. rewrite drop_drop. f_equal. lia.
Qed.

(** Every occurrence is written as its pattern. *)
Definition exactly_written (ps : list bytes) (h : bytes) : Prop :=
  ∀ j q s, ps !! j = Some q → occurs ps h j s (s + length q) → sub s (s + length q) h = q.

(** A text without clash words is separated. *)
Lemma separated_clear ps h :
  exactly_written ps h →
  Forall (λ w, contains (fold_case h) (fold_case w) = false) (clash_words ps) → separated ps h.
Proof.
  intros Hex Hw. rewrite Forall_forall in Hw.
  assert (∀ i j s e s' e', occurs ps h i s e → occurs ps h j s' e' → s' ≤ s → s < e' →
    i = j ∧ s = s' ∧ e = e') as Hover.
  { intros i j s e s' e' (p & Hp & -> & He & Ep) (q & Hq & -> & He' & Eq) H1 H2.
    destruct (decide (i = j ∧ s - s' = 0)) as [[<- Hd]|Hne].
    { assert (q = p) as -> by congruence. lia. }
    exfalso. assert (fold_case (sub s (s + length p) h) = fold_case (take (length p) p)) as Ep'
      by (by rewrite firstn_all).
    pose proof (clash_occurs h p q s' s (length p) Eq He' H1 H2 ltac:(lia) He Ep' ltac:(by left)) as K.
    rewrite Hw in K; [done|]. apply (clash_words_elem ps i j); try done; [lia|].
    apply (compatible_windows h p q s s' (Nat.min (s' + length q) (s + length p))); [done|done|done| |done].
    pose proof (fold_window _ _ _ _ 0 (Nat.min (s' + length q) (s + length p) - s) Ep ltac:(lia)) as E.
    rewrite Nat.add_0_r in E. rewrite <-E. f_equal. f_equal. lia. }
  split.
  - intros i j s e s' e' Ho Ho' H1 H2. destruct (decide (s' ≤ s)); [by eapply Hover|].
    destruct (Hover j i s' e' s e Ho' Ho) as (-> & -> & ->); [lia|lia|done].
  - intros j q p s k n Hq Ho Hp H1 H2 H3 H4 H5 E. apply list_elem_of_lookup in Hp as [i Hp].
    destruct (decide (k + n = s + length q)) as [Hkn|Hkn]; [by split; [|by eapply Hex]|].
    pose proof Ho as (q' & Hq' & _ & Hl & Eq). assert (q' = q) as -> by congruence.
    exfalso. pose proof (clash_occurs h p q s k n Eq Hl ltac:(lia) H2 ltac:(lia) H5 E ltac:(right; lia)) as K.
    rewrite Hw in K; [done|]. apply (clash_words_elem ps i j); try done; [lia|lia|].
    by eapply (starts_compatible ps h j q p s k n).
Qed.

(** ** Text without capital letters *)

Definition lower (l : bytes) : bool := forallb (λ b, negb (in_range 65 90 b)) l.

Lemma fold_lower l : lower l = true → fold_case l = l.
Proof.
  induction l as [|b l IH]; [done|]. cbn [lower forallb]. intros [Hb Hl]%andb_prop.
  change (fold_case (b :: l)) with (to_ascii_lowercase b :: fold_case l). rewrite IH by done.
  unfold to_ascii_lowercase. by destruct (in_range 65 90 b).
Qed.

Lemma lower_app a b : lower (a ++ b) = lower a && lower b.
Proof. apply forallb_app. Qed.

Lemma lower_sub s e l : lower l = true → lower (sub s e l) = true.
Proof.
  unfold lower. rewrite !forallb_forall. intros H b Hb%list_elem_of_In. apply H, list_elem_of_In.
  unfold sub in Hb. rewrite <-(take_drop s l). apply elem_of_app. right.
  rewrite <-(take_drop (e - s) (drop s l)). apply elem_of_app. by left.
Qed.

Lemma lower_exactly_written ps h :
  lower h = true → forallb lower ps = true → exactly_written ps h.
Proof.
  intros Hh Hps j q s Hq (q' & Hq' & _ & _ & E). assert (q' = q) as -> by congruence.
  rewrite !fold_lower in E; [done| |by apply lower_sub].
  eapply (forallb_elem _ _ q) in Hps; [done|]. apply list_elem_of_lookup; eauto.
Qed.
