(* ===== verification/Engine.v ===== *)
(** * The redaction engine ([src/engine.rs])

    [EngineState] (the compiled rule set), [PiiVault] (rules plus derived
    tables), the one-shot [redact_text], the boundary computation
    [determine_safe_boundary_state] and the incremental [StreamRedactor].

    A Rust [str] is its UTF-8 byte string.  A function that can panic (an
    assertion, a slice out of range or off a character boundary, an index out
    of range, an [expect]) returns an [option], [None] being the panic.  A
    method that mutates [self] returns the new state next to its result, on its
    error paths too.  Logging and metrics have no effect on the results and are
    left out. *)

From S2P Require Import Prelude Utf8 AhoCorasick Externals.

Definition DEFAULT_MAX_BUFFER_CAPACITY : Z := 64 * 1024.

(** ** String slices *)

(** [&text[s..e]] on a [str]. *)
Definition str_slice (s e : nat) (text : bytes) : option bytes :=
  if (s <=? e)%nat && is_char_boundary text s && is_char_boundary text e
  then slice s e text else None.

Inductive OutputSegment :=
| Input (b : bytes)
| Replacement (b : bytes).

#[global] Instance output_segment_eq_dec : EqDecision OutputSegment.
Proof. solve_decision. Defined.

Definition segment_bytes (o : OutputSegment) : bytes :=
  match o with Input b | Replacement b => b end.

(** The bytes a list of segments puts on the wire. *)
Definition render (out : list OutputSegment) : bytes := concat (segment_bytes <$> out).

Inductive StreamRedactionError := BufferLimitExceeded | InvalidUtf8.

#[global] Instance stream_redaction_error_eq_dec : EqDecision StreamRedactionError.
Proof. solve_decision. Defined.

(** [std::borrow::Cow<str>]. *)
Inductive Cow := Borrowed (b : bytes) | Owned (b : bytes).
Definition cow_bytes (c : Cow) : bytes := match c with Borrowed b | Owned b => b end.

Section Engine.
Context {ac_api : AhoCorasickApi} {b3_api : Blake3Api}
  {enc_api : EncodingApi} {json_api : SerdeJsonApi}.

(** ** The compiled rules *)

Definition default_patterns : list bytes := [bstr "password"; bstr "secret"; bstr "ssn"].

Definition REDACTION_DFA : option AhoCorasick := ac_build default_patterns.

Definition build_redaction_dfa (patterns : list bytes) : option AhoCorasick :=
  if bool_decide (patterns = default_patterns) then REDACTION_DFA
  else ac_build patterns.

Record EngineState := {
  es_ac : AhoCorasick;
  es_max_pattern_len : nat;
  es_patterns : list bytes;
  es_replacements : list bytes;
  es_replacement_strings : list bytes
}.

(** [iter().map(String::len).max().unwrap_or(0)]. *)
Definition max_len (l : list bytes) : nat := max_list (length <$> l).

Definition EngineState_new (patterns replacements : list bytes) : option EngineState :=
  let replacement_strings := replacements in
  ac ← build_redaction_dfa patterns;
  Some {| es_ac := ac;
          es_max_pattern_len := max_len patterns;
          es_patterns := patterns;
          es_replacements := replacement_strings;
          es_replacement_strings := replacement_strings |}.

Definition policy_digest (st : EngineState) : option bytes :=
  canonical ← json_policy (es_patterns st) (es_replacement_strings st);
  Some (hex_encode (blake3_hash canonical)).

Record PiiVault := {
  pv_searcher : AhoCorasick;
  pv_max_pattern_len : nat;
  pv_patterns : list bytes;
  pv_replacements : list bytes;
  pv_replacement_strings : list bytes;
  pv_escaped_replacements : list bytes;
  pv_engine_state : EngineState
}.

Definition quote : Byte.byte := "034"%byte.

(** The body of the closure that fills [escaped_replacements]. *)
Definition escape_replacement (value : bytes) : option bytes :=
  let quoted := default [quote; quote] (json_string value) in
  if (2 <=? length quoted)%nat && starts_with quoted [quote] && ends_with quoted [quote]
  then str_slice 1 (length quoted - 1) quoted
  else Some quoted.

Definition PiiVault_new (patterns replacements : list bytes) : option PiiVault :=
  if negb (length patterns =? length replacements)%nat then None
  else
    searcher ← build_redaction_dfa patterns;
    escaped ← mapM escape_replacement replacements;
    engine_state ← EngineState_new patterns replacements;
    Some {| pv_searcher := searcher;
            pv_max_pattern_len := max_len patterns;
            pv_patterns := patterns;
            pv_replacements := replacements;
            pv_replacement_strings := replacements;
            pv_escaped_replacements := escaped;
            pv_engine_state := engine_state |}.

(** ** One-shot redaction *)

Fixpoint redact_text_loop (text : bytes) (replacement_strings : list bytes)
    (ms : list Match) (last : nat) (output : bytes) : option bytes :=
  match ms with
  | [] => rest ← str_slice last (length text) text; Some (output ++ rest)
  | mat :: ms =>
    if (last <=? m_start mat)%nat then
      before ← str_slice last (m_start mat) text;
      replacement ← replacement_strings !! m_pattern mat;
      redact_text_loop text replacement_strings ms (m_end mat)
        (output ++ before ++ replacement)
    else redact_text_loop text replacement_strings ms last output
  end.

Definition redact_text (text : bytes) (vault : PiiVault) : option Cow :=
  match ac_find (pv_searcher vault) text with
  | None => Some (Borrowed text)
  | Some _ =>
    Owned <$> redact_text_loop text (pv_replacement_strings vault)
                (ac_find_iter (pv_searcher vault) text) 0 []
  end.

(** ** The safe boundary *)

(** [while split_at > 0 && !text.is_char_boundary(split_at) { split_at -= 1 }]. *)
Fixpoint floor_char_boundary (text : bytes) (split_at : nat) : nat :=
  match split_at with
  | 0 => 0
  | S k => if is_char_boundary text split_at then split_at else floor_char_boundary text k
  end.

(** The inner loop: the longest proper prefix of [pattern] that ends [text]. *)
Definition retain_pattern (text : bytes) (retain : nat) (pattern : bytes) : nat :=
  let max_prefix := Nat.min (length pattern) (length text) in
  foldl (λ retain prefix_len,
           if ends_with text (take prefix_len pattern) then Nat.max retain prefix_len
           else retain)
        retain (seq 1 (max_prefix - 1)).

Definition determine_safe_boundary_state (text : bytes) (state : EngineState)
    : option (bytes * bytes) :=
  if (length text =? 0)%nat then Some ([], [])
  else if (length text <=? es_max_pattern_len state)%nat then Some ([], text)
  else if existsb (ends_with text) (es_patterns state) then Some (text, [])
  else
    let retain := foldl (retain_pattern text) 0 (es_patterns state) in
    if (retain =? 0)%nat then Some (text, [])
    else
      let split_at := floor_char_boundary text (length text - retain) in
      if (split_at =? 0)%nat then Some ([], text)
      else
        safe ← str_slice 0 split_at text;
        tail ← str_slice split_at (length text) text;
        Some (safe, tail).

Definition determine_safe_boundary (text : bytes) (vault : PiiVault)
    : option (bytes * bytes) :=
  determine_safe_boundary_state text (pv_engine_state vault).

(** ** The incremental redactor *)

Record StreamRedactor := {
  sr_state : EngineState;
  sr_pending : bytes;
  sr_max_capacity : Z
}.

Definition set_pending (r : StreamRedactor) (pending : bytes) : StreamRedactor :=
  {| sr_state := sr_state r; sr_pending := pending; sr_max_capacity := sr_max_capacity r |}.

Definition with_state_max_capacity (state : EngineState) (max_capacity : Z)
    : option StreamRedactor :=
  if (0 <? max_capacity)%Z
  then Some {| sr_state := state; sr_pending := []; sr_max_capacity := max_capacity |}
  else None.

Definition from_state (state : EngineState) : option StreamRedactor :=
  with_state_max_capacity state DEFAULT_MAX_BUFFER_CAPACITY.

Definition StreamRedactor_new (vault : PiiVault) : option StreamRedactor :=
  from_state (pv_engine_state vault).

Definition with_max_capacity (vault : PiiVault) (max_capacity : Z) : option StreamRedactor :=
  with_state_max_capacity (pv_engine_state vault) max_capacity.

Fixpoint redact_source_loop (replacements : list bytes) (source : bytes) (safe_len : nat)
    (ms : list Match) (last : nat) : option (list OutputSegment) :=
  match ms with
  | [] =>
    if (last <? safe_len)%nat
    then b ← slice last safe_len source; Some [Input b]
    else Some []
  | mat :: ms =>
    gap ← (if (last <? m_start mat)%nat
           then b ← slice last (m_start mat) source; Some [Input b]
           else Some []);
    replacement ← replacements !! m_pattern mat;
    rest ← redact_source_loop replacements source safe_len ms (m_end mat);
    Some (gap ++ Replacement replacement :: rest)
  end.

Definition redact_source (r : StreamRedactor) (source : bytes) (safe_len : nat)
    : option (list OutputSegment) :=
  hay ← slice 0 safe_len source;
  redact_source_loop (es_replacements (sr_state r)) source safe_len
    (ac_find_iter (es_ac (sr_state r)) hay) 0.

Definition valid_utf8_prefix (e : Utf8Error) : nat := valid_up_to e.

Definition process_source (r : StreamRedactor) (source : bytes) (flush_all : bool)
    : option (Result StreamRedactionError (list OutputSegment) * StreamRedactor) :=
  match (match from_utf8 source with
         | Ok _ => Some (length source)
         | Err e => match error_len e with
                    | None => Some (valid_utf8_prefix e)
                    | Some _ => None
                    end
         end) with
  | None => Some (Err InvalidUtf8, r)
  | Some valid_len =>
    if flush_all && negb (valid_len =? length source)%nat then Some (Err InvalidUtf8, r)
    else
      text ← slice 0 valid_len source;
      match from_utf8 text with
      | Err _ => Some (Err InvalidUtf8, r)
      | Ok _ =>
        safe_len ← (if flush_all then Some (length text)
                    else boundary ← determine_safe_boundary_state text (sr_state r);
                         Some (length boundary.1));
        output ← redact_source r source safe_len;
        let retained_end := if flush_all then length source else valid_len in
        kept ← (if (safe_len <? retained_end)%nat then slice safe_len retained_end source
                else Some []);
        unread ← (if negb flush_all && (valid_len <? length source)%nat
                  then slice valid_len (length source) source
                  else Some []);
        let r' := set_pending r (sr_pending r ++ kept ++ unread) in
        if (sr_max_capacity r <? blen (sr_pending r'))%Z
        then Some (Err BufferLimitExceeded, r')
        else Some (Ok output, r')
      end
  end.

Definition push (r : StreamRedactor) (chunk : bytes)
    : option (Result StreamRedactionError (list OutputSegment) * StreamRedactor) :=
  match chunk with
  | [] => Some (Ok [], r)
  | _ =>
    match sr_pending r with
    | [] => process_source r chunk false
    | pending => process_source (set_pending r []) (pending ++ chunk) false
    end
  end.

Definition finish (r : StreamRedactor)
    : option (Result StreamRedactionError (list OutputSegment) * StreamRedactor) :=
  match sr_pending r with
  | [] => Some (Ok [], r)
  | source => process_source (set_pending r []) source true
  end.

(** A caller's loop: push every chunk, stop at the first error, then finish. *)
Fixpoint push_all (r : StreamRedactor) (chunks : list bytes)
    : option (Result StreamRedactionError (list OutputSegment) * StreamRedactor) :=
  match chunks with
  | [] => finish r
  | chunk :: chunks =>
    res ← push r chunk;
    match res with
    | (Err e, r') => Some (Err e, r')
    | (Ok out, r') =>
      rest ← push_all r' chunks;
      match rest with
      | (Err e, r'') => Some (Err e, r'')
      | (Ok out', r'') => Some (Ok (out ++ out'), r'')
      end
    end
  end.

End Engine.
