(* ===== verification/EngineBoundary.v ===== *)
(** * Lemmas on the engine's operations

    Well-formed rule sets, what one call of [redact_source], [redact_text] and
    [determine_safe_boundary_state] returns, and the safety of the cut the
    boundary computation chooses. *)

From S2P Require Import Prelude Utf8 AhoCorasick Externals Matching Engine.

Section Boundary.
Context {ac_api : AhoCorasickApi} {ac_laws : AhoCorasickLaws}
  {b3_api : Blake3Api} {enc_api : EncodingApi} {json_api : SerdeJsonApi}.

(** The rule sets the engine is meant for: the automaton was built from the
    patterns, no pattern is empty, all are UTF-8 and each has a replacement. *)
Record engine_wf (st : EngineState) : Prop := {
  wf_built : ac_build (es_patterns st) = Some (es_ac st);
  wf_nonempty : Forall (λ p, p ≠ []) (es_patterns st);
  wf_utf8 : Forall (λ p, valid_utf8 p = true) (es_patterns st);
  wf_reps : length (es_patterns st) ≤ length (es_replacements st);
  wf_max : es_max_pattern_len st = max_len (es_patterns st)
}.

(** The cached automaton is the one that would have been built. *)
Lemma build_redaction_dfa_build ps : build_redaction_dfa ps = ac_build ps.
Proof. unfold build_redaction_dfa. case_bool_decide; [by subst|done]. Qed.

(** What a rule list has to satisfy for [EngineState_new] to be well formed. *)
Definition rules_ok (ps rs : list bytes) : bool :=
  forallb (λ p, negb (bool_decide (p = [])) && valid_utf8 p) ps
  && (length ps <=? length rs)%nat.

Lemma EngineState_new_wf ps rs st :
  EngineState_new ps rs = Some st → rules_ok ps rs = true →
  engine_wf st ∧ es_patterns st = ps ∧ es_replacements st = rs.
Proof.
  unfold EngineState_new, rules_ok. rewrite build_redaction_dfa_build.
  destruct (ac_build ps) as [a|] eqn:E; [|done]. cbn. intros [= <-].
  intros [Hps Hlen]%andb_true_iff. rewrite forallb_forall in Hps. apply Nat.leb_le in Hlen.
  split; [|done].
  split; cbn; try done; apply Forall_forall; intros p Hp%list_elem_of_In;
    specialize (Hps p Hp); bool_props; done.
Qed.

(** The reference: the gaps between the matches, and the replacements. *)
Definition redacted (st : EngineState) (h : bytes) : bytes :=
  splice (es_replacements st) h (ac_find_iter (es_ac st) h) 0.

(** A segment that leaks nothing by itself: input without any occurrence of a
    pattern, or a configured replacement. *)
Definition clean_segment (st : EngineState) (o : OutputSegment) : Prop :=
  match o with
  | Input b => occurrence_free (es_patterns st) b
  | Replacement b => b ∈ es_replacements st
  end.

Lemma engine_matches st h :
  engine_wf st → std_matches (es_patterns st) h 0 (ac_find_iter (es_ac st) h).
Proof. intros [Hb Hn _ _ _]. by apply ac_find_iter_std. Qed.

Lemma redact_source_loop_ok st source n ms from :
  engine_wf st → n ≤ length source → from ≤ n →
  std_matches (es_patterns st) (take n source) from ms →
  ∃ out, redact_source_loop (es_replacements st) source n ms from = Some out ∧
         render out = splice (es_replacements st) (take n source) ms from ∧
         Forall (clean_segment st) out.
Proof.
  intros [_ Hne _ Hreps _] Hn Hfrom H.
  assert (length (take n source) = n) as Hlen by solve_len.
  assert (∀ a b, b ≤ n → sub a b source = sub a b (take n source)) as Hsub.
  { intros a b Hb. rewrite <-(take_drop n source) at 1. rewrite sub_app_l; [done|lia]. }
  induction H as [from Hd|from m ms Ho Hs He _ IH]; cbn.
  - assert (from ≤ length (take n source)) as Hfl by lia.
    pose proof (std_done_free _ _ _ Hne Hfl Hd) as Hfree. rewrite Hlen in Hfree.
    destruct (from <? n)%nat eqn:E.
    + rewrite slice_Some by lia. cbn. eexists. split; [done|].
      rewrite Hsub by lia. split.
      * unfold render. cbn. rewrite app_nil_r. unfold sub. apply take_ge. solve_len.
      * by repeat constructor.
    + apply Nat.ltb_ge in E. eexists. split; [done|]. split; [|constructor].
      cbn. symmetry. apply drop_ge. lia.
  - pose proof (occurs_bounds _ _ _ _ _ Hne Ho) as (? & ? & Hpi).
    pose proof (std_next_free _ _ _ _ Hne Ho He) as Hfree.
    destruct (lookup_lt_is_Some_2 (es_replacements st) (m_pattern m)) as [rep Hrep]; [lia|].
    destruct IH as (out & -> & Hr & Hc); [lia|]. rewrite Hrep. cbn.
    assert (rep ∈ es_replacements st) by (apply list_elem_of_lookup; eauto).
    destruct (from <? m_start m)%nat eqn:E; cbn.
    + rewrite slice_Some by lia. cbn. eexists. split; [done|]. split.
      * unfold render in *. cbn. by rewrite Hr, Hsub by lia.
      * constructor; [by cbn; rewrite Hsub by lia|]. by constructor.
    + apply Nat.ltb_ge in E. eexists. split; [done|]. split.
      * unfold render in *. cbn. by rewrite Hr, sub_nil_iff by lia.
      * by constructor.
Qed.

Lemma redact_source_ok r source n :
  engine_wf (sr_state r) → n ≤ length source →
  ∃ out, redact_source r source n = Some out ∧
         render out = redacted (sr_state r) (take n source) ∧
         Forall (clean_segment (sr_state r)) out.
Proof.
  intros Hwf Hn. unfold redact_source. rewrite slice_Some, sub_0 by lia. cbn.
  apply redact_source_loop_ok; [done|done|lia|]. by apply engine_matches.
Qed.

(** ** One-shot redaction *)

Lemma str_slice_Some s e text :
  s ≤ e → e ≤ length text →
  is_char_boundary text s = true → is_char_boundary text e = true →
  str_slice s e text = Some (sub s e text).
Proof.
  intros Hse He H1 H2. unfold str_slice. rewrite H1, H2.
  rewrite (proj2 (Nat.leb_le s e)) by done. cbn. by apply slice_Some.
Qed.

Lemma char_boundary_len text : is_char_boundary text (length text) = true.
Proof.
  unfold is_char_boundary. destruct (_ =? 0)%nat; [done|].
  rewrite lookup_ge_None_2 by lia. apply Nat.eqb_refl.
Qed.

Lemma char_boundary_0 text : is_char_boundary text 0 = true.
Proof. done. Qed.

Lemma redact_text_loop_ok ps reps text ms from output :
  Forall (λ p, p ≠ []) ps → Forall (λ p, valid_utf8 p = true) ps →
  length ps ≤ length reps → valid_utf8 text = true →
  from ≤ length text → is_char_boundary text from = true →
  std_matches ps text from ms →
  redact_text_loop text reps ms from output = Some (output ++ splice reps text ms from).
Proof.
  intros Hne Hv Hreps Ht Hf Hb H. revert Hf Hb output.
  induction H as [from Hd|from m ms Ho Hs He _ IH]; intros Hf Hb output; cbn.
  - rewrite str_slice_Some by (done || lia || apply char_boundary_len). cbn.
    do 2 f_equal. unfold sub. apply take_ge. solve_len.
  - pose proof (occurs_bounds _ _ _ _ _ Hne Ho) as (? & ? & Hpi).
    destruct (occurs_char_boundary _ _ _ _ _ Hne Hv Ht Ho) as [B1 B2].
    rewrite (proj2 (Nat.leb_le from (m_start m))) by done.
    rewrite str_slice_Some by (done || lia). cbn.
    destruct (lookup_lt_is_Some_2 reps (m_pattern m)) as [rep Hrep]; [lia|].
    rewrite Hrep. cbn. rewrite IH by done. by rewrite <-!app_assoc.
Qed.

(** ** The retained suffix *)

Lemma retain_pattern_spec text retain pattern :
  let R := retain_pattern text retain pattern in
  retain ≤ R ∧
  (R = retain ∨ 0 < R < length pattern ∧ ends_with text (take R pattern) = true) ∧
  (∀ n, 0 < n → n < length pattern → n < length text →
        ends_with text (take n pattern) = true → n ≤ R).
Proof.
  cbn. unfold retain_pattern.
  set (step := λ retain prefix_len, _).
  set (max_prefix := Nat.min _ _).
  assert (∀ l ret, Forall (λ n, 0 < n < length pattern) l →
    let R := foldl step ret l in
    ret ≤ R ∧ (R = ret ∨ 0 < R < length pattern ∧ ends_with text (take R pattern) = true) ∧
    (∀ n, n ∈ l → ends_with text (take n pattern) = true → n ≤ R)) as K.
  { induction l as [|n l IH]; intros ret Hl; cbn.
    { split_and!; [done|by left|]. intros n Hn. by apply not_elem_of_nil in Hn. }
    apply Forall_cons in Hl as [Hn Hl]. destruct (IH (step ret n) Hl) as (I1 & I2 & I3).
    unfold step in I1, I2, I3 |- *. cbn in *.
    destruct (ends_with text (take n pattern)) eqn:E.
    - split_and!; [lia| |].
      + destruct I2 as [I2|I2]; [|by right]. fold step in I2 |- *. rewrite I2.
        destruct (decide (n ≤ ret)); [left; lia|right]. rewrite Nat.max_r by lia. done.
      + intros n' [->|Hn']%elem_of_cons; [lia|auto].
    - split_and!; [lia|done|]. intros n' [->|Hn']%elem_of_cons; [congruence|auto]. }
  destruct (K (seq 1 (max_prefix - 1)) retain) as (K1 & K2 & K3).
  - apply Forall_forall. intros n Hn%elem_of_seq. lia.
  - split_and!; [done|done|]. intros n H1 H2 H3 H4. apply K3; [|done].
    apply elem_of_seq. lia.
Qed.

(** The bytes held back: the longest proper pattern prefix that ends the text. *)
Definition retained (text : bytes) (ps : list bytes) : nat :=
  foldl (retain_pattern text) 0 ps.

Lemma retained_spec text ps :
  (retained text ps = 0 ∨
   ∃ p, p ∈ ps ∧ 0 < retained text ps < length p ∧
        ends_with text (take (retained text ps) p) = true) ∧
  (∀ p n, p ∈ ps → 0 < n → n < length p → n < length text →
          ends_with text (take n p) = true → n ≤ retained text ps).
Proof.
  unfold retained.
  assert (∀ l r0, let R := foldl (retain_pattern text) r0 l in
    r0 ≤ R ∧
    (R = r0 ∨ ∃ p, p ∈ l ∧ 0 < R < length p ∧ ends_with text (take R p) = true) ∧
    (∀ p n, p ∈ l → 0 < n → n < length p → n < length text →
            ends_with text (take n p) = true → n ≤ R)) as K.
  { induction l as [|q l IH]; intros r0; cbn.
    { split_and!; [done|by left|]. intros p n Hp. by apply not_elem_of_nil in Hp. }
    destruct (retain_pattern_spec text r0 q) as (P1 & P2 & P3).
    destruct (IH (retain_pattern text r0 q)) as (I1 & I2 & I3). split_and!; [lia| |].
    - destruct I2 as [I2|(p & Hp & ?)]; [|right; exists p; split; [by right|done]].
      rewrite I2. destruct P2 as [->|P2]; [by left|right; exists q; split; [by left|done]].
    - intros p n [->|Hp]%elem_of_cons ????; [|eauto].
      etransitivity; [|exact I1]. auto. }
  destruct (K ps 0) as (_ & K2 & K3). split; [|done].
  destruct K2 as [K2|K2]; [left; exact K2|by right].
Qed.

Lemma max_len_elem p ps : p ∈ ps → length p ≤ max_len ps.
Proof. intros H. apply max_list_elem_of_le. apply list_elem_of_fmap. eauto. Qed.

Lemma ends_with_take text p n :
  ends_with text (take n p) = true → n ≤ length p →
  n ≤ length text ∧ drop (length text - n) text = take n p.
Proof.
  unfold ends_with. intros H Hn. bool_props. rewrite Nat.leb_le in *.
  rewrite length_take in *. rewrite Nat.min_l in * by done. done.
Qed.

(** A text that ends with a prefix of a UTF-8 pattern can be cut in front of it. *)
Lemma pattern_prefix_boundary text p n :
  valid_utf8 p = true → 0 < n → n ≤ length p → ends_with text (take n p) = true →
  is_char_boundary text (length text - n) = true.
Proof.
  intros Hp Hn Hnp [Hl E]%ends_with_take; [|done].
  unfold is_char_boundary. destruct (_ =? 0)%nat eqn:E0; [done|].
  destruct p as [|b p]; [cbn in *; lia|]. destruct n as [|n]; [lia|]. cbn in E.
  destruct (text !! (length text - S n)) as [b'|] eqn:Eb.
  - rewrite (drop_S _ _ _ Eb) in E. injection E as -> _.
    apply valid_utf8_head in Hp. by rewrite Hp.
  - apply lookup_ge_None in Eb. lia.
Qed.

Lemma floor_char_boundary_id text k :
  is_char_boundary text k = true → floor_char_boundary text k = k.
Proof. intros H. destruct k; [done|]. cbn. by rewrite H. Qed.

(** ** The boundary computation

    It never panics, always returns a split of the text at a character
    boundary, and holds back at most the length of the longest pattern. *)
Inductive boundary_case (st : EngineState) (text : bytes) : nat → Prop :=
| boundary_short : length text ≤ es_max_pattern_len st → boundary_case st text 0
| boundary_match p :
    p ∈ es_patterns st → ends_with text p = true →
    boundary_case st text (length text)
| boundary_retain :
    es_max_pattern_len st < length text →
    (∀ p, p ∈ es_patterns st → ends_with text p = false) →
    boundary_case st text (length text - retained text (es_patterns st)).

Lemma safe_boundary_ok st text :
  engine_wf st → valid_utf8 text = true →
  ∃ k, determine_safe_boundary_state text st = Some (take k text, drop k text) ∧
       boundary_case st text k ∧ k ≤ length text ∧
       is_char_boundary text k = true ∧ length text - k ≤ es_max_pattern_len st.
Proof.
  intros Hwf Ht. destruct Hwf as [_ Hne Hutf _ Hmax].
  unfold determine_safe_boundary_state. fold (retained text (es_patterns st)).
  destruct (length text =? 0)%nat eqn:E0; [|apply Nat.eqb_neq in E0].
  { apply Nat.eqb_eq in E0. apply nil_length_inv in E0. subst text.
    exists 0. split_and!; [done|constructor; cbn; lia|done..|cbn; lia]. }
  destruct (length text <=? es_max_pattern_len st)%nat eqn:E1.
  { apply Nat.leb_le in E1. exists 0. rewrite drop_0, Nat.sub_0_r.
    split_and!; [done|by constructor|lia|done|done]. }
  apply Nat.leb_gt in E1.
  assert (∀ x : bytes, Some (x, []) = Some (take (length x) x, drop (length x) x)) as Hfull.
  { intros x. by rewrite take_ge, drop_ge by done. }
  destruct (existsb _ _) eqn:E2.
  { apply existsb_exists in E2 as (p & Hp%list_elem_of_In & Hend).
    exists (length text). split_and!; [apply Hfull|by econstructor|done| |lia].
    apply char_boundary_len. }
  assert (∀ p, p ∈ es_patterns st → ends_with text p = false) as E2'.
  { intros p Hp%list_elem_of_In. destruct (ends_with text p) eqn:E; [|done].
    rewrite (proj2 (existsb_exists _ _)) in E2; [done|eauto]. }
  pose proof (retained_spec text (es_patterns st)) as [Hr _].
  destruct (retained text (es_patterns st) =? 0)%nat eqn:E3.
  { apply Nat.eqb_eq in E3. exists (length text). split_and!; [apply Hfull| |done| |lia].
    - pose proof (boundary_retain st text E1 E2') as Hb. by rewrite E3, Nat.sub_0_r in Hb.
    - apply char_boundary_len. }
  apply Nat.eqb_neq in E3. destruct Hr as [?|(p & Hp & Hrp & Hend)]; [done|].
  pose proof (max_len_elem _ _ Hp).
  assert (valid_utf8 p = true) as Hpv by (rewrite Forall_forall in Hutf; auto).
  assert (is_char_boundary text (length text - retained text (es_patterns st)) = true) as Hb.
  { apply pattern_prefix_boundary with p; [done|lia..|done]. }
  rewrite floor_char_boundary_id by done.
  destruct (length text - retained text (es_patterns st) =? 0)%nat eqn:E4;
    [apply Nat.eqb_eq in E4; lia|].
  rewrite !str_slice_Some by (done || lia || apply char_boundary_len). cbn.
  rewrite sub_0. exists (length text - retained text (es_patterns st)).
  split_and!; [|by constructor|lia|done|lia].
  do 2 f_equal. unfold sub. apply take_ge. solve_len.
Qed.

End Boundary.
