(* ===== verification/EngineProofs.v ===== *)
(** * Correctness of the redaction engine

    The incremental redactor against the one-shot reference: what each [push]
    emits and keeps, the bound on what it keeps, UTF-8 handling, and the main
    theorem that a stream redacted chunk by chunk is the redaction of the whole
    text, whatever the chunking, for [separated] texts and
    streams whose chunk ends do not cut a pattern written in another case.
    Both conditions are needed: [EngineTheorems] exhibits leaks without them. *)

From S2P Require Import Prelude Utf8 AhoCorasick Externals Matching Engine EngineBoundary.

(** ** Chunk ends *)

(** Wherever the end of [text] agrees with a proper pattern prefix up to ASCII
    case, it agrees exactly. *)
Definition cut_exact (ps : list bytes) (text : bytes) : bool :=
  forallb (λ p, forallb (λ n,
      negb (bool_decide (fold_case (drop (length text - n) text) = fold_case (take n p)))
      || bool_decide (drop (length text - n) text = take n p))
    (seq 1 (length p - 1))) ps.

(** The longest prefix of a byte string [from_utf8] accepts. *)
Definition utf8_prefix (bs : bytes) : bytes :=
  match from_utf8 bs with Ok _ => bs | Err e => take (valid_up_to e) bs end.

(** [cut_exact] at the end of every chunk. *)
Fixpoint chunks_exact (ps : list bytes) (seen : bytes) (chunks : list bytes) : bool :=
  match chunks with
  | [] => true
  | c :: cs => cut_exact ps (utf8_prefix (seen ++ c)) && chunks_exact ps (seen ++ c) cs
  end.

Lemma cut_exact_spec ps text p n :
  cut_exact ps text = true → p ∈ ps → 0 < n → n < length p →
  fold_case (drop (length text - n) text) = fold_case (take n p) →
  drop (length text - n) text = take n p.
Proof.
  intros H Hp H0 Hn E. unfold cut_exact in H.
  eapply (forallb_elem _ _ p) in H; [|done].
  eapply (forallb_elem _ _ n) in H; [|apply elem_of_seq; lia].
  cbn in H. apply orb_true_iff in H as [H|H]; bool_props; done.
Qed.

Lemma cut_exact_suffix ps a text : cut_exact ps (a ++ text) = true → cut_exact ps text = true.
Proof.
  intros H. unfold cut_exact. apply forallb_forall. intros p Hp%list_elem_of_In.
  apply forallb_forall. intros n Hn%list_elem_of_In%elem_of_seq. apply orb_true_iff.
  destruct (decide (fold_case (drop (length text - n) text) = fold_case (take n p))) as [E|E];
    [right|left; by rewrite bool_decide_eq_false_2].
  assert (n ≤ length text) as Hl.
  { apply (f_equal length) in E. rewrite !length_fold_case in E. solve_len. }
  apply bool_decide_eq_true.
  assert (drop (length (a ++ text) - n) (a ++ text) = drop (length text - n) text) as Ed.
  { rewrite length_app, drop_app_ge by lia. f_equal. lia. }
  rewrite <-Ed. apply cut_exact_spec with ps; [done|done|lia|lia|]. by rewrite Ed.
Qed.

Lemma utf8_prefix_app a b : valid_utf8 a = true → utf8_prefix (a ++ b) = a ++ utf8_prefix b.
Proof.
  intros Ha. unfold utf8_prefix, from_utf8. rewrite run_utf8_app, run_utf8_shift by done.
  cbn. destruct (run_utf8 b 0) as [|e]; [done|]. cbn.
  rewrite take_app_ge by lia. do 2 f_equal. lia.
Qed.

Lemma chunks_exact_drop ps a seen chunks :
  valid_utf8 a = true → chunks_exact ps (a ++ seen) chunks = true →
  chunks_exact ps seen chunks = true.
Proof.
  intros Ha. revert seen. induction chunks as [|c cs IH]; intros seen H; [done|].
  cbn in *. bool_props. rewrite <-app_assoc in *. rewrite IH, andb_true_r by done.
  rewrite utf8_prefix_app in * by done. by eapply cut_exact_suffix.
Qed.

(** Without capital letters in the rules and in the text every cut is exact. *)
Lemma lower_cut_exact ps text :
  forallb lower ps = true → lower text = true → cut_exact ps text = true.
Proof.
  intros Hps Ht. unfold cut_exact. apply forallb_forall. intros p Hp%list_elem_of_In.
  apply forallb_forall. intros n _. apply (forallb_elem _ _ p) in Hps; [|done].
  rewrite fold_lower, fold_lower.
  - by case_bool_decide; [rewrite orb_true_r|].
  - rewrite <-(sub_0 n p). by apply lower_sub.
  - replace (drop (length text - n) text) with (sub (length text - n) (length text) text)
      by (unfold sub; apply take_ge; solve_len). by apply lower_sub.
Qed.

Lemma lower_chunks_exact ps seen chunks :
  forallb lower ps = true → lower (seen ++ concat chunks) = true →
  chunks_exact ps seen chunks = true.
Proof.
  intros Hps. revert seen. induction chunks as [|c cs IH]; intros seen Hl; cbn; [done|].
  cbn in Hl. rewrite app_assoc in Hl. rewrite IH, andb_true_r by done.
  apply lower_cut_exact; [done|]. rewrite lower_app in Hl. apply andb_prop in Hl as [Hl _].
  unfold utf8_prefix. destruct (from_utf8 _) as [|e]; [done|].
  rewrite <-sub_0. by apply lower_sub.
Qed.

Section Stream.
Context {ac_api : AhoCorasickApi} {ac_laws : AhoCorasickLaws}
  {b3_api : Blake3Api} {enc_api : EncodingApi} {json_api : SerdeJsonApi}.

(** ** The cut is safe *)

Lemma boundary_no_straddle st text k rest :
  engine_wf st → separated (es_patterns st) (text ++ rest) →
  cut_exact (es_patterns st) text = true → boundary_case st text k →
  ¬ straddles (es_patterns st) (text ++ rest) k.
Proof.
  intros [_ Hne _ _ Hmax] Hsep Hex Hk (i & s & e & Ho & Hsk & Hke).
  destruct Hk as [Hshort|p Hp Hend|Hlong Hnone]; [lia| |].
  - apply list_elem_of_lookup in Hp as [j Hj].
    apply ends_with_spec in Hend as [t ->]. rewrite length_app in *.
    assert (occurs (es_patterns st) ((t ++ p) ++ rest) j (length t) (length t + length p)) as Ho'.
    { exists p. split_and!; [done|done|solve_len|].
      rewrite sub_app_l by solve_len. rewrite sub_app_r by lia. rewrite Nat.sub_diag.
      replace (_ - _) with (length p) by lia. by rewrite sub_full. }
    destruct (sep_occurs _ _ Hsep _ _ _ _ _ _ Ho Ho') as (_ & _ & ->); lia.
  - pose proof Ho as (q & Hq & -> & He & Ef).
    destruct (retained_spec text (es_patterns st)) as [Hr Hmaxr].
    set (R := retained text (es_patterns st)) in *.
    assert (q ∈ es_patterns st) as Hqe by (apply list_elem_of_lookup; eauto).
    pose proof (max_len_elem _ _ Hqe).
    destruct (decide (s + length q ≤ length text)) as [Hin|Hout].
    + destruct Hr as [Hr|(p & Hp & Hrp & Hend)]; [lia|].
      apply ends_with_take in Hend as [Hrl Hend]; [|lia].
      destruct (sep_starts _ _ Hsep i q p s (length text - R) R Hq Ho Hp) as [Hl Eq]; try lia.
      * solve_len.
      * f_equal. rewrite sub_app_l by lia. unfold sub. rewrite Hend, take_take. f_equal. lia.
      * enough (ends_with text q = true) by (rewrite (Hnone q Hqe) in *; done).
        apply ends_with_spec. exists (take s text). rewrite sub_app_l in Eq by lia.
        rewrite <-Eq at 1. unfold sub. rewrite (take_ge (drop s text)) by solve_len.
        by rewrite take_drop.
    + specialize (Hmaxr q (length text - s) Hqe ltac:(lia) ltac:(lia) ltac:(lia)).
      enough (length text - s ≤ R) by lia. apply Hmaxr.
      assert (fold_case (drop s text) = fold_case (take (length text - s) q)) as E.
      { pose proof (fold_window _ _ _ _ 0 (length text - s) Ef ltac:(lia)) as E.
        rewrite Nat.add_0_r, sub_0 in E. rewrite <-E. f_equal.
        rewrite sub_app_l by lia. unfold sub. rewrite take_ge; [done|solve_len]. }
      replace s with (length text - (length text - s)) in E at 1 by lia.
      apply cut_exact_spec with (ps := es_patterns st) in E; [|done|done|lia|lia].
      apply ends_with_spec. exists (take s text). rewrite <-E.
      replace (length text - (length text - s)) with s by lia. by rewrite take_drop.
Qed.

Lemma redacted_nil st : engine_wf st → redacted st [] = [].
Proof.
  intros Hwf. unfold redacted. pose proof (engine_matches st [] Hwf) as H.
  destruct Hwf as [_ Hne _ _ _].
  inversion H as [|? m ms Ho]; subst; [done|].
  apply occurs_bounds in Ho as (? & ? & _); [cbn in *; lia|done].
Qed.

Lemma redacted_app st a b :
  engine_wf st → separated (es_patterns st) (a ++ b) →
  ¬ straddles (es_patterns st) (a ++ b) (length a) →
  redacted st (a ++ b) = redacted st a ++ redacted st b.
Proof.
  intros Hwf Hind Hs. pose proof (engine_matches st a Hwf) as Ma.
  pose proof (engine_matches st b Hwf) as Mb.
  pose proof (engine_matches st (a ++ b) Hwf) as Mab.
  destruct Hwf as [_ Hne _ _ _]. unfold redacted.
  pose proof (std_matches_app _ _ _ _ _ _ Hne Hs (Nat.le_0_l _) Ma Mb) as M.
  rewrite (std_matches_unique _ _ _ _ _ Hind Hne Mab M).
  apply splice_app; [lia|]. eapply Forall_impl; [by eapply std_matches_bounds|].
  cbn. lia.
Qed.

(** ** One call *)

Record redactor_wf (r : StreamRedactor) : Prop := {
  rwf_engine : engine_wf (sr_state r);
  rwf_capacity : (0 < sr_max_capacity r)%Z
}.

(** The validator accepts [bs], or only misses the end of a character. *)
Definition incomplete_ok (bs : bytes) : bool :=
  match from_utf8 bs with
  | Ok _ => true
  | Err e => bool_decide (error_len e = None)
  end.

Lemma utf8_prefix_spec bs :
  valid_utf8 (utf8_prefix bs) = true ∧ utf8_prefix bs = take (length (utf8_prefix bs)) bs ∧
  (incomplete_ok bs = true → length bs ≤ length (utf8_prefix bs) + 3).
Proof.
  unfold utf8_prefix, incomplete_ok. destruct (from_utf8 bs) as [[]|e] eqn:E.
  - split_and!; [by apply bool_decide_eq_true|by rewrite take_ge|lia].
  - apply from_utf8_Err in E as (Hv & Hlt & Hs). split_and!; [done| |].
    + f_equal. solve_len.
    + intros ?%bool_decide_eq_true. rewrite length_take, Nat.min_l by lia. auto.
Qed.

Lemma utf8_prefix_valid bs : valid_utf8 bs = true → utf8_prefix bs = bs.
Proof. unfold valid_utf8, utf8_prefix. intros ->%bool_decide_eq_true. done. Qed.

(** What a call on [source] emits and keeps, [k] being the cut. *)
Record emits (st : EngineState) (source : bytes) (k : nat) (out : list OutputSegment) : Prop := {
  em_case : boundary_case st (utf8_prefix source) k;
  em_le : k ≤ length (utf8_prefix source);
  em_boundary : is_char_boundary (utf8_prefix source) k = true;
  em_render : render out = redacted st (take k source);
  em_clean : Forall (clean_segment st) out;
  em_kept : length (drop k source) ≤ es_max_pattern_len st + 3
}.

Lemma process_source_rejects r source flush :
  incomplete_ok source = false →
  process_source r source flush = Some (Err InvalidUtf8, r).
Proof.
  unfold incomplete_ok, process_source. destruct (from_utf8 source) as [|e]; [done|].
  intros H%bool_decide_eq_false. by destruct (error_len e).
Qed.

(** The split of the source into text, valid remainder and unread bytes. *)
Lemma process_source_emits r source :
  engine_wf (sr_state r) → sr_pending r = [] → incomplete_ok source = true →
  ∃ k out, emits (sr_state r) source k out ∧
    process_source r source false =
      Some (if (sr_max_capacity r <? blen (drop k source))%Z
            then Err BufferLimitExceeded else Ok out,
            set_pending r (drop k source)).
Proof.
  intros Hwf Hp Hok.
  destruct (utf8_prefix_spec source) as (Hv & Htake & Hshort). specialize (Hshort Hok).
  destruct (safe_boundary_ok _ _ Hwf Hv) as (k & Hb & Hcase & Hk & Hcb & Hkept).
  set (text := utf8_prefix source) in *.
  assert (length text ≤ length source) as Hl by (rewrite Htake; solve_len).
  destruct (redact_source_ok r source k Hwf) as (out & Hout & Hrender & Hclean); [lia|].
  exists k, out. split; [split; try done; rewrite length_drop; lia|].
  assert (match from_utf8 source with
          | Ok _ => Some (length source)
          | Err e => match error_len e with
                     | None => Some (valid_utf8_prefix e) | Some _ => None end
          end = Some (length text)) as Hlen.
  { unfold text, utf8_prefix, incomplete_ok in *. destruct (from_utf8 source) as [|e] eqn:E; [done|].
    apply bool_decide_eq_true in Hok. rewrite Hok. unfold valid_utf8_prefix.
    apply from_utf8_Err in E as (_ & ? & _). f_equal. solve_len. }
  unfold process_source. rewrite Hlen. cbn.
  rewrite (slice_Some 0 (length text)), sub_0, <-Htake by lia. cbn.
  unfold valid_utf8 in Hv. apply bool_decide_eq_true in Hv. rewrite Hv, Hb. cbn.
  rewrite length_take, Nat.min_l by done. rewrite Hout. cbn.
  assert ((if (k <? length text)%nat then slice k (length text) source else Some [])
          = Some (sub k (length text) source)) as ->.
  { destruct (k <? length text)%nat eqn:E; [by apply slice_Some|].
    apply Nat.ltb_ge in E. by rewrite sub_nil_iff. }
  cbn. assert ((if (length text <? length source)%nat
     then slice (length text) (length source) source else Some [])
          = Some (sub (length text) (length source) source)) as ->.
  { destruct (length text <? length source)%nat eqn:E; [by apply slice_Some|].
    apply Nat.ltb_ge in E. by rewrite sub_nil_iff. }
  cbn. rewrite Hp. cbn [app]. rewrite sub_app_adj by lia.
  assert (sub k (length source) source = drop k source) as ->.
  { unfold sub. apply take_ge. solve_len. }
  by destruct (_ <? _)%Z.
Qed.

Lemma push_nonempty r chunk :
  chunk ≠ [] →
  push r chunk = process_source (set_pending r []) (sr_pending r ++ chunk) false.
Proof.
  intros Hc. unfold push. destruct chunk as [|b chunk]; [done|].
  destruct r as [st [|p pending] cap]; done.
Qed.

Lemma finish_ok r :
  redactor_wf r → valid_utf8 (sr_pending r) = true →
  ∃ out, finish r = Some (Ok out, set_pending r []) ∧
         render out = redacted (sr_state r) (sr_pending r) ∧
         Forall (clean_segment (sr_state r)) out.
Proof.
  intros [Hwf Hcap] Hv. unfold finish. destruct (sr_pending r) as [|b p] eqn:E.
  { exists []. rewrite redacted_nil by done. split_and!; [|done|constructor].
    destruct r; cbn in *; by subst. }
  rewrite <-E in *. clear b p E.
  unfold process_source. pose proof Hv as Hv'.
  unfold valid_utf8 in Hv'. apply bool_decide_eq_true in Hv'. rewrite Hv'. cbn.
  rewrite Nat.eqb_refl. cbn. rewrite slice_Some, sub_full by lia. cbn. rewrite Hv'. cbn.
  destruct (redact_source_ok (set_pending r []) (sr_pending r) (length (sr_pending r)))
    as (out & -> & Hr & Hc); [done|lia|]. cbn.
  rewrite Nat.ltb_irrefl. cbn.
  rewrite (proj2 (Z.ltb_ge (sr_max_capacity r) (blen []))) by (unfold blen; cbn; lia).
  exists out. split_and!; [done| |done]. by rewrite Hr, take_ge by done.
Qed.

Lemma finish_rejects r :
  valid_utf8 (sr_pending r) = false →
  finish r = Some (Err InvalidUtf8, set_pending r []).
Proof.
  intros Hv. unfold finish. destruct (sr_pending r) as [|b p] eqn:E; [done|].
  rewrite <-E in *. clear b p E.
  unfold valid_utf8 in Hv. apply bool_decide_eq_false in Hv.
  unfold process_source. destruct (from_utf8 (sr_pending r)) as [[]|e] eqn:E; [done|].
  apply from_utf8_Err in E as (_ & Hlt & _).
  destruct (error_len e); [done|]. unfold valid_utf8_prefix.
  rewrite (proj2 (Nat.eqb_neq (valid_up_to e) (length (sr_pending r)))) by lia. done.
Qed.

(** ** The vault *)

Lemma PiiVault_new_wf ps rs v :
  PiiVault_new ps rs = Some v → rules_ok ps rs = true →
  engine_wf (pv_engine_state v) ∧ pv_searcher v = es_ac (pv_engine_state v) ∧
  pv_replacement_strings v = es_replacements (pv_engine_state v) ∧
  es_patterns (pv_engine_state v) = ps ∧ es_replacements (pv_engine_state v) = rs.
Proof.
  intros H Hok. unfold PiiVault_new in H.
  destruct (negb _); [done|].
  destruct (build_redaction_dfa ps) as [a|] eqn:Ea; cbn in H; [|done].
  destruct (mapM escape_replacement rs) as [esc|]; cbn in H; [|done].
  destruct (EngineState_new ps rs) as [st|] eqn:Est; cbn in H; [|done].
  injection H as <-. cbn.
  destruct (EngineState_new_wf ps rs st Est Hok) as (Hwf & Hps & Hrs).
  split_and!; try done. destruct Hwf as [Hb _ _ _ _].
  rewrite Hps, <-build_redaction_dfa_build, Ea in Hb. by injection Hb.
Qed.

Lemma redact_text_ok v text :
  engine_wf (pv_engine_state v) → pv_searcher v = es_ac (pv_engine_state v) →
  pv_replacement_strings v = es_replacements (pv_engine_state v) →
  valid_utf8 text = true →
  ∃ c, redact_text text v = Some c ∧ cow_bytes c = redacted (pv_engine_state v) text.
Proof.
  intros Hwf Hs Hr Hv. unfold redact_text, redacted. rewrite Hs, Hr.
  pose proof (engine_matches _ text Hwf) as M. destruct Hwf as [_ Hne Hutf Hreps _].
  rewrite ac_find_head.
  destruct (ac_find_iter (es_ac (pv_engine_state v)) text) as [|m ms] eqn:E; cbn [head].
  - exists (Borrowed text). split; [done|]. by cbn; rewrite drop_0.
  - rewrite (redact_text_loop_ok _ _ _ _ 0 [] Hne Hutf Hreps Hv) by (done || lia).
    cbn [fmap option_fmap option_map]. eexists. split; [done|]. done.
Qed.

(** ** The stream *)

Lemma render_app a b : render (a ++ b) = render a ++ render b.
Proof. unfold render. by rewrite fmap_app, concat_app. Qed.

Lemma incomplete_ok_prefix a b : valid_utf8 (a ++ b) = true → incomplete_ok a = true.
Proof.
  intros H%from_utf8_prefix. unfold incomplete_ok.
  destruct H as [->|(e & -> & He)]; [done|]. by apply bool_decide_eq_true.
Qed.

Lemma push_ok r chunk rest :
  redactor_wf r → chunk ≠ [] →
  (Z.of_nat (es_max_pattern_len (sr_state r)) + 3 ≤ sr_max_capacity r)%Z →
  valid_utf8 (sr_pending r ++ chunk ++ rest) = true →
  ∃ k out, emits (sr_state r) (sr_pending r ++ chunk) k out ∧
    push r chunk = Some (Ok out, set_pending r (drop k (sr_pending r ++ chunk))).
Proof.
  intros [Hwf _] Hc Hcap Hv. rewrite push_nonempty by done.
  rewrite app_assoc in Hv.
  destruct (process_source_emits (set_pending r []) (sr_pending r ++ chunk))
    as (k & out & Hem & ->); [done|done|by eapply incomplete_ok_prefix|].
  exists k, out. split; [done|]. cbn in *. do 2 f_equal.
  rewrite (proj2 (Z.ltb_ge _ _)); [done|]. destruct Hem. unfold blen. lia.
Qed.

(** The emitted part is a run of whole characters in front of the kept part. *)
Lemma emits_split st source k out :
  emits st source k out →
  valid_utf8 (take k source) = true ∧ source = take k source ++ drop k source ∧
  take k source = take k (utf8_prefix source) ∧ length (take k source) = k.
Proof.
  intros [_ Hk Hb _ _ _]. destruct (utf8_prefix_spec source) as (Hv & Ht & _).
  assert (take k source = take k (utf8_prefix source)) as E.
  { rewrite Ht, take_take. f_equal. lia. }
  assert (length (utf8_prefix source) ≤ length source) by (rewrite Ht; solve_len).
  split_and!; [|by rewrite take_drop|done|solve_len].
  rewrite E. by apply char_boundary_split.
Qed.

Lemma push_all_ok chunks r :
  redactor_wf r → separated (es_patterns (sr_state r)) (sr_pending r ++ concat chunks) →
  (Z.of_nat (es_max_pattern_len (sr_state r)) + 3 ≤ sr_max_capacity r)%Z →
  valid_utf8 (sr_pending r ++ concat chunks) = true →
  chunks_exact (es_patterns (sr_state r)) (sr_pending r) chunks = true →
  ∃ out, push_all r chunks = Some (Ok out, set_pending r []) ∧
         render out = redacted (sr_state r) (sr_pending r ++ concat chunks) ∧
         Forall (clean_segment (sr_state r)) out.
Proof.
  revert r. induction chunks as [|c cs IH]; intros r Hr Hind Hcap Hv Hex; cbn [push_all].
  { cbn in *. rewrite app_nil_r in *. by apply finish_ok. }
  cbn [chunks_exact concat] in *. apply andb_true_iff in Hex as [Hcut Hex].
  destruct (decide (c = [])) as [->|Hc].
  { cbn. rewrite app_nil_r in Hex. destruct (IH r) as (out & -> & Hout); [done..|].
    by exists out. }
  destruct (push_ok r c (concat cs)) as (k & out & Hem & ->); [done..|]. cbn.
  set (source := sr_pending r ++ c) in *.
  destruct (emits_split _ _ _ _ Hem) as (Ha & Hsplit & Htext & Hlen).
  assert (sr_pending r ++ c ++ concat cs = take k source ++ drop k source ++ concat cs) as Eall.
  { rewrite (app_assoc (take k source)), <-Hsplit. by rewrite app_assoc. }
  rewrite Eall in *.
  destruct (IH (set_pending r (drop k source))) as (out' & -> & Hout' & Hclean'); cbn.
  - by destruct Hr.
  - by eapply separated_app_r.
  - done.
  - by eapply valid_utf8_app_inv.
  - rewrite Hsplit in Hex. by eapply chunks_exact_drop.
  - eexists. split; [done|]. destruct Hem as [Hcase Hk _ Hrender Hclean _].
    split; [|by apply Forall_app]. rewrite render_app, Hrender, Hout'. cbn.
    symmetry. apply redacted_app; [by destruct Hr|done|]. rewrite Hlen.
    assert (utf8_prefix source ++ drop (length (utf8_prefix source)) source ++ concat cs
      = take k source ++ drop k source ++ concat cs) as Esrc.
    { destruct (utf8_prefix_spec source) as (_ & Ht & _).
      rewrite Ht at 1. rewrite !app_assoc. by rewrite !take_drop. }
    rewrite <-Esrc. apply boundary_no_straddle; [by destruct Hr|by rewrite Esrc|done|done].
Qed.

End Stream.
