(* ===== verification/EngineTheorems.v ===== *)
(** * Properties of the redaction engine

    The theorems of the engine component, each with a concrete instance on the
    brute-force searcher and the transparent digest. *)

From S2P Require Import Prelude Utf8 AhoCorasick Externals Matching Engine EngineBoundary EngineProofs.

Section Theorems.
Context {ac_api : AhoCorasickApi} {ac_laws : AhoCorasickLaws}
  {b3_api : Blake3Api} {enc_api : EncodingApi} {json_api : SerdeJsonApi}.

Lemma with_max_capacity_wf v cap r :
  with_max_capacity v cap = Some r → engine_wf (pv_engine_state v) →
  redactor_wf r ∧ sr_state r = pv_engine_state v ∧ sr_pending r = [] ∧ sr_max_capacity r = cap.
Proof.
  unfold with_max_capacity, with_state_max_capacity.
  destruct (0 <? cap)%Z eqn:E; [|done]. intros [= <-] Hwf. apply Z.ltb_lt in E. done.
Qed.

(** Streaming redaction against one-shot redaction. *)
Lemma push_all_one_shot ps rs v cap r chunks :
  PiiVault_new ps rs = Some v → with_max_capacity v cap = Some r →
  rules_ok ps rs = true → separated ps (concat chunks) →
  (Z.of_nat (max_len ps) + 3 ≤ cap)%Z →
  valid_utf8 (concat chunks) = true → chunks_exact ps [] chunks = true →
  ∃ out r' c, push_all r chunks = Some (Ok out, r') ∧ sr_pending r' = [] ∧
              redact_text (concat chunks) v = Some c ∧ render out = cow_bytes c.
Proof.
  intros Hv Hr Hok Hind Hcap Hutf Hex.
  destruct (PiiVault_new_wf _ _ _ Hv Hok) as (Hwf & Hs & Hreps & Eps & _).
  destruct (with_max_capacity_wf _ _ _ Hr Hwf) as (Hrwf & Est & Epend & Ecap).
  destruct (redact_text_ok v (concat chunks)) as (c & Hc & Ec); [done..|].
  pose proof (wf_max _ Hwf) as Hmax. rewrite Eps in Hmax.
  destruct (push_all_ok chunks r) as (out & Hout & Hrender & _).
  - done.
  - by rewrite Est, Eps, Epend.
  - by rewrite Est, Ecap, Hmax.
  - by rewrite Epend.
  - by rewrite Est, Eps, Epend.
  - exists out, (set_pending r []), c. rewrite Hrender, Ec, Est, Epend. done.
Qed.

(** C4: streaming redaction is one-shot redaction.  For rules without empty
    patterns, a UTF-8 text that is [separated] (occurrences do not overlap, and no
    part of a pattern runs past the end of one; with rules that cannot overlap, every
    text), a buffer at least three bytes longer than the longest pattern, and any way
    of cutting the text into chunks that does not cut a pattern written in another case, pushing
    the chunks and finishing succeeds, leaves nothing pending, and puts on the wire
    exactly the bytes [redact_text] returns for the whole text. *)
Theorem stream_equals_one_shot ps rs v cap r chunks :
  PiiVault_new ps rs = Some v → with_max_capacity v cap = Some r →
  rules_ok ps rs = true → separated ps (concat chunks) →
  (Z.of_nat (max_len ps) + 3 ≤ cap)%Z →
  valid_utf8 (concat chunks) = true → chunks_exact ps [] chunks = true →
  ∃ out r' c, push_all r chunks = Some (Ok out, r') ∧ sr_pending r' = [] ∧
              redact_text (concat chunks) v = Some c ∧ render out = cow_bytes c.
Proof. apply push_all_one_shot. Qed.

Lemma push_clean r chunk out r' :
  engine_wf (sr_state r) → push r chunk = Some (Ok out, r') →
  Forall (clean_segment (sr_state r)) out ∧ sr_state r' = sr_state r.
Proof.
  intros Hwf H. destruct (decide (chunk = [])) as [->|Hc].
  { cbn in H. injection H as <- <-. split; [constructor|done]. }
  rewrite push_nonempty in H by done.
  destruct (incomplete_ok (sr_pending r ++ chunk)) eqn:E.
  - destruct (process_source_emits (set_pending r []) _ Hwf eq_refl E) as (k & o & Hem & E').
    rewrite E' in H. destruct (_ <? _)%Z; [done|]. injection H as <- <-.
    destruct Hem. done.
  - by rewrite process_source_rejects in H.
Qed.

Lemma finish_clean r out r' :
  redactor_wf r → finish r = Some (Ok out, r') → Forall (clean_segment (sr_state r)) out.
Proof.
  intros Hr H. destruct (valid_utf8 (sr_pending r)) eqn:E.
  - destruct (finish_ok r Hr E) as (o & Ho & _ & Hc). rewrite Ho in H. by injection H as <- <-.
  - by rewrite finish_rejects in H.
Qed.

Lemma push_capacity r chunk res r' :
  push r chunk = Some (res, r') → engine_wf (sr_state r) →
  sr_max_capacity r' = sr_max_capacity r.
Proof.
  intros H Hwf. destruct (decide (chunk = [])) as [->|Hc]; [by injection H as _ <-|].
  rewrite push_nonempty in H by done.
  destruct (incomplete_ok (sr_pending r ++ chunk)) eqn:E.
  - destruct (process_source_emits (set_pending r []) _ Hwf eq_refl E) as (k & o & _ & E').
    rewrite E' in H. by injection H as _ <-.
  - rewrite process_source_rejects in H by done. by injection H as _ <-.
Qed.

(** C14: no segment leaks a pattern by itself.  Whatever the rules (overlapping
    or not, but without empty patterns) and the chunking, every segment of a successful run is either a
    configured replacement or a piece of the input in which no pattern occurs,
    in any ASCII case. *)
Theorem stream_segments_clean r chunks out r' :
  redactor_wf r → push_all r chunks = Some (Ok out, r') →
  Forall (clean_segment (sr_state r)) out.
Proof.
  revert r out. induction chunks as [|c cs IH]; intros r out Hr H; cbn in H.
  { by eapply finish_clean. }
  destruct (push r c) as [[[o|] r1]|] eqn:Ep; cbn in H; try done.
  destruct (push_all r1 cs) as [[[o'|] r2]|] eqn:Ea; cbn in H; try done.
  injection H as <- <-. pose proof (push_capacity _ _ _ _ Ep (rwf_engine _ Hr)) as Ecap.
  destruct (push_clean _ _ _ _ (rwf_engine _ Hr) Ep) as [Hc Est].
  apply Forall_app. split; [done|]. rewrite <-Est. apply IH; [|done].
  destruct Hr. split; [by rewrite Est|lia].
Qed.

(** A push never panics and its outcome is determined by the source (what
    was pending, then the chunk).  An empty chunk does nothing; a source with an
    invalid (not merely unfinished) sequence is rejected and the pending bytes
    are dropped; otherwise the source is cut at a character boundary, the part
    before the cut is emitted redacted, the part after it is kept, and the call
    fails with [BufferLimitExceeded] exactly when the kept part is longer than
    the capacity. *)
Theorem push_spec r chunk :
  redactor_wf r →
  let source := sr_pending r ++ chunk in
  (chunk = [] ∧ push r chunk = Some (Ok [], r)) ∨
  (chunk ≠ [] ∧ incomplete_ok source = false ∧
   push r chunk = Some (Err InvalidUtf8, set_pending r [])) ∨
  (chunk ≠ [] ∧ incomplete_ok source = true ∧
   ∃ k out, valid_utf8 (take k source) = true ∧
     render out = redacted (sr_state r) (take k source) ∧
     push r chunk =
       Some (if (sr_max_capacity r <? blen (drop k source))%Z
             then Err BufferLimitExceeded else Ok out,
             set_pending r (drop k source))).
Proof.
  intros Hr source. destruct (decide (chunk = [])) as [->|Hc]; [by left|right].
  rewrite push_nonempty by done. fold source.
  destruct (incomplete_ok source) eqn:E; [right|left].
  - destruct (process_source_emits (set_pending r []) source (rwf_engine _ Hr) eq_refl E)
      as (k & out & Hem & ->).
    split_and!; [done..|]. exists k, out.
    destruct (emits_split _ _ _ _ Hem) as [Hv _]. split_and!; [done|by destruct Hem|done].
  - by rewrite process_source_rejects.
Qed.

(** C24: what the redactor keeps between two chunks is bounded by the longest
    pattern plus an unfinished character, so that with a capacity of at least
    that size a push never fails for lack of buffer. *)
Theorem push_pending_bounded r chunk res r' :
  redactor_wf r → push r chunk = Some (res, r') →
  length (sr_pending r) ≤ es_max_pattern_len (sr_state r) + 3 →
  length (sr_pending r') ≤ es_max_pattern_len (sr_state r) + 3 ∧
  ((Z.of_nat (es_max_pattern_len (sr_state r)) + 3 ≤ sr_max_capacity r)%Z →
   res ≠ Err BufferLimitExceeded).
Proof.
  intros Hr H Hp. destruct (decide (chunk = [])) as [->|Hc].
  { injection H as <- <-. done. }
  rewrite push_nonempty in H by done.
  destruct (incomplete_ok (sr_pending r ++ chunk)) eqn:E.
  - destruct (process_source_emits (set_pending r []) _ (rwf_engine _ Hr) eq_refl E)
      as (k & out & Hem & E'). rewrite E' in H. injection H as <- <-.
    destruct Hem as [_ _ _ _ _ Hkept]. cbn in *. split; [done|]. intros Hcap.
    rewrite (proj2 (Z.ltb_ge _ _)); [done|]. unfold blen. lia.
  - rewrite process_source_rejects in H by done. injection H as <- <-. cbn. split; [lia|done].
Qed.

(** A run that succeeds has read a UTF-8 text: bytes that are not UTF-8,
    however they are cut into chunks, never get through. *)
Theorem stream_ok_valid r chunks out r' :
  redactor_wf r → push_all r chunks = Some (Ok out, r') →
  valid_utf8 (sr_pending r ++ concat chunks) = true.
Proof.
  revert r out. induction chunks as [|c cs IH]; intros r out Hr H; cbn in H.
  { cbn. rewrite app_nil_r. destruct (valid_utf8 (sr_pending r)) eqn:E; [done|].
    by rewrite finish_rejects in H. }
  destruct (push r c) as [[[o|] r1]|] eqn:Ep; cbn in H; try done.
  destruct (push_all r1 cs) as [[[o'|] r2]|] eqn:Ea; cbn in H; try done.
  injection H as _ <-. pose proof (push_capacity _ _ _ _ Ep (rwf_engine _ Hr)) as Ecap.
  destruct (push_clean _ _ _ _ (rwf_engine _ Hr) Ep) as [_ Est].
  apply IH in Ea; [|destruct Hr; split; [by rewrite Est|lia]]. cbn.
  destruct (decide (c = [])) as [->|Hc]; [by injection Ep as _ <-|].
  rewrite push_nonempty in Ep by done. rewrite app_assoc.
  destruct (incomplete_ok (sr_pending r ++ c)) eqn:E;
    [|by rewrite process_source_rejects in Ep].
  destruct (process_source_emits (set_pending r []) _ (rwf_engine _ Hr) eq_refl E)
    as (k & o1 & Hem & E'). rewrite E' in Ep. injection Ep as _ <-. cbn in Ea.
  destruct (emits_split _ _ _ _ Hem) as (Hv & Hsplit & _).
  rewrite Hsplit, <-app_assoc. by apply valid_utf8_app.
Qed.

(** One-shot redaction never panics on a UTF-8 text (every slice it takes is
    on a character boundary), returns the text itself, borrowed, exactly when no
    pattern occurs in it, and otherwise an owned copy that keeps the text
    between the matches and puts each match's replacement in its place. *)
Theorem redact_text_spec ps rs v text :
  PiiVault_new ps rs = Some v → rules_ok ps rs = true → valid_utf8 text = true →
  (occurrence_free ps text ∧ redact_text text v = Some (Borrowed text)) ∨
  (¬ occurrence_free ps text ∧
   redact_text text v = Some (Owned (splice rs text (ac_find_iter (pv_searcher v) text) 0))).
Proof.
  intros Hv Hok Ht. destruct (PiiVault_new_wf _ _ _ Hv Hok) as (Hwf & Hs & Hreps & Eps & Ers).
  pose proof (engine_matches _ text Hwf) as M. destruct Hwf as [_ Hne Hutf Hlen _].
  rewrite Eps, Ers in *. rewrite <-Hs in *.
  unfold redact_text. rewrite ac_find_head, Hreps.
  destruct (ac_find_iter (pv_searcher v) text) as [|m ms] eqn:E; cbn [head].
  - left. split; [|done]. inversion M as [? Hd|]; subst. intros i s e Ho.
    apply Hd in Ho. lia.
  - right. split.
    + inversion M; subst. intros Hfree. by eapply Hfree.
    + by rewrite (redact_text_loop_ok ps rs text (m :: ms) 0 []) by (done || lia).
Qed.

(** The boundary computation returns a split of the text at a character
    boundary, never panics, and holds back at most the longest pattern's length;
    the loop that moves the cut back to a character boundary never has to. *)
Theorem safe_boundary_spec st text :
  engine_wf st → valid_utf8 text = true →
  ∃ safe tail, determine_safe_boundary_state text st = Some (safe, tail) ∧
    safe ++ tail = text ∧ valid_utf8 safe = true ∧ valid_utf8 tail = true ∧
    length tail ≤ es_max_pattern_len st ∧
    (0 < retained text (es_patterns st) →
     let cut := length text - retained text (es_patterns st) in
     floor_char_boundary text cut = cut).
Proof.
  intros Hwf Ht. destruct (safe_boundary_ok st text Hwf Ht) as (k & -> & _ & Hk & Hb & Hl).
  destruct (char_boundary_split text k Ht Hb Hk) as [H1 H2].
  exists (take k text), (drop k text). split_and!; [done|by rewrite take_drop|done|done| |].
  - rewrite length_drop. lia.
  - intros Hr. apply floor_char_boundary_id.
    destruct (retained_spec text (es_patterns st)) as [[E|(p & Hp & Hrp & He)] _]; [lia|].
    apply pattern_prefix_boundary with p; [|lia|lia|done].
    destruct Hwf as [_ _ Hutf _ _]. rewrite Forall_forall in Hutf. auto.
Qed.

(** The policy digest identifies the rule set: engines with different patterns or
    replacements have different digests, unless the hash collides on exactly their
    two policies. *)
Theorem policy_digest_binding {enc_laws : EncodingLaws} {json_laws : SerdeJsonLaws} st st' x y :
  json_policy (es_patterns st) (es_replacement_strings st) = Some x →
  json_policy (es_patterns st') (es_replacement_strings st') = Some y →
  (es_patterns st, es_replacement_strings st) ≠ (es_patterns st', es_replacement_strings st') →
  ~ collides x y → policy_digest st ≠ policy_digest st'.
Proof.
  unfold policy_digest. intros E E' Hne Hc. rewrite E, E'. cbn.
  intros [= Heq%hex_encode_inj]. destruct (decide (x = y)) as [->|Hxy]; [|by apply Hc].
  destruct (json_policy_inj _ _ _ _ _ E E') as [H1 H2]. congruence.
Qed.

(** ** No call panics *)

Lemma push_total r c :
  redactor_wf r →
  ∃ res r', push r c = Some (res, r') ∧ redactor_wf r' ∧ sr_state r' = sr_state r ∧
    ∀ outs, res = Ok outs → Forall (clean_segment (sr_state r)) outs.
Proof.
  intros Hr. destruct (push r c) as [[res r']|] eqn:E.
  - exists res, r'. split; [done|].
    assert (sr_state r' = sr_state r) as Hst.
    { destruct (decide (c = [])) as [->|Hc]; [by injection E as <- <-|].
      rewrite push_nonempty in E by done.
      destruct (incomplete_ok (sr_pending r ++ c)) eqn:Ei.
      - destruct (process_source_emits (set_pending r []) _ (rwf_engine _ Hr) eq_refl Ei)
          as (k & o & _ & E'). rewrite E' in E. by injection E as <- <-.
      - rewrite process_source_rejects in E by done. by injection E as <- <-. }
    split_and!; [|done|].
    + split; [rewrite Hst; apply Hr|]. rewrite (push_capacity _ _ _ _ E (rwf_engine _ Hr)). apply Hr.
    + intros outs ->. by apply (push_clean _ _ _ _ (rwf_engine _ Hr) E).
  - exfalso. destruct (decide (c = [])) as [->|Hc]; [done|]. rewrite push_nonempty in E by done.
    destruct (incomplete_ok (sr_pending r ++ c)) eqn:Ei.
    + destruct (process_source_emits (set_pending r []) _ (rwf_engine _ Hr) eq_refl Ei)
        as (k & o & _ & E'). by rewrite E' in E.
    + by rewrite process_source_rejects in E by done.
Qed.

Lemma finish_total r :
  redactor_wf r →
  ∃ res r', finish r = Some (res, r') ∧ redactor_wf r' ∧
    ∀ outs, res = Ok outs → Forall (clean_segment (sr_state r)) outs.
Proof.
  intros Hr. destruct (valid_utf8 (sr_pending r)) eqn:E.
  - destruct (finish_ok r Hr E) as (out & -> & _ & Hc). eexists _, _. split; [done|].
    split; [by destruct Hr|]. by intros ? [= <-].
  - rewrite finish_rejects by done. eexists _, _. split; [done|]. split; [by destruct Hr|done].
Qed.

End Theorems.

(** ** Concrete runs *)

Import NaiveSearch Transparent.

Module Demo.

Definition masks : list bytes := [bstr "[REDACTED]"; bstr "[REDACTED]"; bstr "[REDACTED]"].

Definition engine : EngineState := {|
  es_ac := default_patterns : AhoCorasick; es_max_pattern_len := 8;
  es_patterns := default_patterns; es_replacements := masks; es_replacement_strings := masks
|}.

Definition vault : PiiVault := {|
  pv_searcher := default_patterns : AhoCorasick; pv_max_pattern_len := 8;
  pv_patterns := default_patterns; pv_replacements := masks; pv_replacement_strings := masks;
  pv_escaped_replacements := masks; pv_engine_state := engine
|}.

Definition redactor : StreamRedactor := {|
  sr_state := engine; sr_pending := []; sr_max_capacity := 64
|}.

Definition chunks : list bytes := [bstr "Hello, my pass"; bstr "word is s"; []; bstr "ecret."].

Lemma engine_ok : engine_wf engine.
Proof.
  destruct (EngineState_new_wf default_patterns masks engine) as [H _]; done.
Defined.

Lemma redactor_ok : redactor_wf redactor.
Proof. split; [apply engine_ok|done]. Defined.

Definition run_output : list OutputSegment :=
  match push_all redactor chunks with Some (Ok out, _) => out | _ => [] end.

Lemma run_chunks : push_all redactor chunks = Some (Ok run_output, redactor).
Proof. by_vm. Defined.

(** Two rules of which one ends the way the other starts. *)
Definition overlap_rules : list bytes := [bstr "class"; bstr "ssnum"].
Definition overlap_masks : list bytes := [bstr "[REDACTED]"; bstr "[REDACTED]"].

Definition overlap_engine : EngineState := {|
  es_ac := overlap_rules : AhoCorasick; es_max_pattern_len := 5;
  es_patterns := overlap_rules; es_replacements := overlap_masks;
  es_replacement_strings := overlap_masks
|}.

Definition overlap_vault : PiiVault := {|
  pv_searcher := overlap_rules : AhoCorasick; pv_max_pattern_len := 5;
  pv_patterns := overlap_rules; pv_replacements := overlap_masks;
  pv_replacement_strings := overlap_masks; pv_escaped_replacements := overlap_masks;
  pv_engine_state := overlap_engine
|}.

Definition overlap_redactor : StreamRedactor := {|
  sr_state := overlap_engine; sr_pending := [];
  sr_max_capacity := DEFAULT_MAX_BUFFER_CAPACITY
|}.
End Demo.

Lemma stream_equals_one_shot_witness :
  independent default_patterns = true ∧
  ∃ out r' c, push_all Demo.redactor Demo.chunks = Some (Ok out, r') ∧ sr_pending r' = [] ∧
    redact_text (concat Demo.chunks) Demo.vault = Some c ∧ render out = cow_bytes c.
Proof.
  split; [vm_compute; reflexivity|].
  apply (stream_equals_one_shot default_patterns Demo.masks Demo.vault 64 Demo.redactor Demo.chunks);
    try by_vm; [apply independent_separated; by_vm|]. vm_compute. intros H; discriminate H.
Defined.

Lemma stream_segments_clean_witness :
  Forall (clean_segment Demo.engine) Demo.run_output.
Proof.
  apply (stream_segments_clean Demo.redactor Demo.chunks Demo.run_output Demo.redactor).
  - apply Demo.redactor_ok.
  - apply Demo.run_chunks.
Defined.

Lemma push_spec_witness :
  ∃ k out, valid_utf8 (take k (bstr "my pass")) = true ∧
    render out = redacted Demo.engine (take k (bstr "my pass")) ∧
    push Demo.redactor (bstr "my pass") =
      Some (Ok out, set_pending Demo.redactor (drop k (bstr "my pass"))).
Proof.
  destruct (push_spec Demo.redactor (bstr "my pass") Demo.redactor_ok)
    as [[H _]|[(_ & H & _)|(_ & _ & k & out & Hv & Hr & Hp)]].
  - discriminate H.
  - vm_compute in H. discriminate H.
  - exists k, out. split; [exact Hv|]. split; [exact Hr|].
    assert (∃ o r, push Demo.redactor (bstr "my pass") = Some (Ok o, r)) as (o & r & E)
      by (exists [], (set_pending Demo.redactor (bstr "my pass")); by_vm).
    rewrite E in Hp |- *. destruct (_ <? _)%Z; [discriminate Hp|exact Hp].
Defined.

Lemma push_pending_bounded_witness :
  ∃ res r', push Demo.redactor (bstr "Hello, my pass") = Some (res, r') ∧
    length (sr_pending r') ≤ 11 ∧ res ≠ Err BufferLimitExceeded.
Proof.
  exists (Ok [Input (bstr "Hello, my ")]), (set_pending Demo.redactor (bstr "pass")).
  split; [by_vm|].
  destruct (push_pending_bounded Demo.redactor (bstr "Hello, my pass")
              (Ok [Input (bstr "Hello, my ")]) (set_pending Demo.redactor (bstr "pass")))
    as [H1 H2].
  - apply Demo.redactor_ok.
  - by_vm.
  - cbn. lia.
  - split; [exact H1|]. apply H2. cbn. lia.
Defined.

Lemma stream_ok_valid_witness : valid_utf8 (concat Demo.chunks) = true.
Proof.
  apply (stream_ok_valid Demo.redactor Demo.chunks Demo.run_output Demo.redactor).
  - apply Demo.redactor_ok.
  - apply Demo.run_chunks.
Defined.

Lemma redact_text_spec_witness :
  redact_text (bstr "my SECRET") Demo.vault = Some (Owned (bstr "my [REDACTED]")).
Proof.
  destruct (redact_text_spec default_patterns Demo.masks Demo.vault (bstr "my SECRET"))
    as [[H _]|[_ ->]].
  - reflexivity.
  - reflexivity.
  - reflexivity.
  - exfalso. apply (H 1 3 9). exists (bstr "secret"). vm_compute. repeat split; lia.
  - vm_compute. reflexivity.
Defined.

Lemma safe_boundary_spec_witness :
  ∃ safe tail, determine_safe_boundary_state (bstr "Hello, my pass") Demo.engine = Some (safe, tail) ∧
    safe ++ tail = bstr "Hello, my pass" ∧ length tail ≤ 8.
Proof.
  destruct (safe_boundary_spec Demo.engine (bstr "Hello, my pass") Demo.engine_ok)
    as (safe & tail & H1 & H2 & _ & _ & H3 & _); [reflexivity|]. eauto.
Defined.

(** ** Where the conditions of the main theorem fail

    The searcher folds ASCII case, the boundary computation does not; and the
    boundary computation may cut through a complete occurrence. *)

(** A pattern in capitals that is cut by a chunk end leaks.  With the
    default rules, the chunks [hello my PASS] and [WORD] come out unredacted,
    although the same text in one piece is redacted. *)
Theorem mixed_case_leak :
  let chunks := [bstr "hello my PASS"; bstr "WORD"] in
  ∃ out r', push_all Demo.redactor chunks = Some (Ok out, r') ∧
    render out = bstr "hello my PASSWORD" ∧
    redact_text (concat chunks) Demo.vault = Some (Owned (bstr "hello my [REDACTED]")).
Proof.
  exists [Input (bstr "hello my PASS"); Input (bstr "WORD")], Demo.redactor.
  split; [by_vm|]. split; by_vm.
Qed.

(** A complete occurrence leaks when the text after it starts another
    pattern.  With the rules [class] and [ssnum], the chunk [the classn] is cut
    inside [class], because [ssn] is held back as a prefix of [ssnum]; after the
    next chunk the occurrence of [class] is no longer found. *)
Theorem overlapping_rules_leak :
  PiiVault_new Demo.overlap_rules Demo.overlap_masks = Some Demo.overlap_vault ∧
  StreamRedactor_new Demo.overlap_vault = Some Demo.overlap_redactor ∧
  let chunks := [bstr "the classn"; bstr "ow"] in
  ∃ out r', push_all Demo.overlap_redactor chunks = Some (Ok out, r') ∧
    render out = bstr "the classnow" ∧
    redact_text (concat chunks) Demo.overlap_vault = Some (Owned (bstr "the [REDACTED]now")).
Proof.
  split; [by_vm|]. split; [by_vm|].
  exists [Input (bstr "the cla"); Input (bstr "ssnow")], Demo.overlap_redactor.
  split; [by_vm|]. split; by_vm.
Qed.
