(* ===== verification/Tests.v ===== *)
(** * The tests of the repository, as definitions

    The property tests and unit tests of [src/lib.rs], [src/engine.rs] and
    [src/budget_queue.rs], the property test of [tests/proof_protocol.rs] and the
    fuzz target, each as a function of what its harness supplies: the generated
    input, the key, the time.  A test ends with a [Verdict]; a panic, an
    [unwrap] of nothing and an assertion that does not hold all are [Failed].

    [TestsProofs] shows which of them pass for every input. *)

From S2P Require Import Prelude Utf8 AhoCorasick Externals Receipt DoneDetector BudgetQueue Matching Engine.

Inductive Verdict := Passed | Rejected | Failed.

#[global] Instance verdict_eq_dec : EqDecision Verdict.
Proof. solve_decision. Defined.

(** [assert!], and [unwrap] or [expect]. *)
Definition ensure (b : bool) (k : Verdict) : Verdict := if b then k else Failed.
Definition unwrap {A} (o : option A) (k : A → Verdict) : Verdict :=
  match o with Some a => k a | None => Failed end.
Definition unwrap_ok {E A} (r : Result E A) (k : A → Verdict) : Verdict :=
  match r with Ok a => k a | Err _ => Failed end.

Module TestNotations.
Notation "x ←! e ; k" := (unwrap e (λ x, k))
  (at level 20, e at level 100, k at level 200, right associativity).
Notation "' p ←! e ; k" := (unwrap e (λ z, match z with p => k end))
  (at level 20, p pattern, e at level 100, k at level 200, right associativity).
End TestNotations.
Import TestNotations.

(** A byte string as chunks of one byte. *)
Definition single_bytes (input : bytes) : list bytes := (λ b, [b]) <$> input.

(** [events.iter().position(..)]. *)
Fixpoint position {A} (f : A → bool) (l : list A) : option nat :=
  match l with
  | [] => None
  | x :: l => if f x then Some 0%nat else S <$> position f l
  end.

(** [rendered.iter().rposition(..)]. *)
Definition rposition {A} (f : A → bool) (l : list A) : option nat :=
  k ← position f (reverse l); Some (length l - 1 - k)%nat.

Definition is_audit (e : StreamEvent) : bool := match e with AuditReceipt _ => true | _ => false end.
Definition is_done (e : StreamEvent) : bool := match e with DoneMarker _ => true | _ => false end.
Definition event_bytes (e : StreamEvent) : bytes :=
  match e with Data b | AuditReceipt b | DoneMarker b => b end.

Definition mask : bytes := bstr "[REDACTED]".

Section Tests.
Context {ac_api : AhoCorasickApi} {b3_api : Blake3Api} {sig_api : Ed25519Api} {enc_api : EncodingApi}
  {json_api : SerdeJsonApi} {rj_api : ReceiptJsonApi} {sem_api : SemaphoreApi}.

(** ** Property tests of [src/lib.rs] *)

(** An error of the redactor ends the test without a verdict on the output. *)
Definition arbitrary_fragments_preserve_valid_redacted_data (input : bytes) : Verdict :=
  if negb (valid_utf8 input) then Passed
  else
    vault ←! PiiVault_new [bstr "password"; bstr "secret"] [mask; mask];
    expected ←! redact_text input vault;
    redactor ←! StreamRedactor_new vault;
    '(result, _) ←! push_all redactor (single_bytes input);
    match result with
    | Err _ => Passed
    | Ok output => ensure (bool_decide (render output = cow_bytes expected)) Passed
    end.

(** [DoneDetector::default()]. *)
Definition DoneDetector_default : DoneDetector := DoneDetector_new [] [] [] [] [].

(** The calls of [inspect], one after the other. *)
Fixpoint inspect_each (d : DoneDetector) (chunks : list bytes) (key : SigningKey)
    (hasher : Hasher) (now : Z) : option (list StreamEvent * DoneDetector * Hasher) :=
  match chunks with
  | [] => Some ([], d, hasher)
  | c :: chunks =>
    '(events, d, hasher) ← inspect d c key hasher hasher_new now;
    '(events', d, hasher) ← inspect_each d chunks key hasher now;
    Some (events ++ events', d, hasher)
  end.

(** The data events, and all but the receipts. *)
Definition data_bytes (events : list StreamEvent) : bytes :=
  concat (omap (λ e, match e with Data b => Some b | _ => None end) events).
Definition rebuilt_bytes (events : list StreamEvent) : bytes :=
  concat (omap (λ e, match e with Data b | DoneMarker b => Some b | _ => None end) events).

Definition fragmented_done_marker_has_one_ordered_receipt (key : SigningKey) (now : Z)
    (input : bytes) : Verdict :=
  if contains input SSE_DONE_MARKER then Rejected
  else
    '(events, _, _) ←! inspect_each DoneDetector_default
                         (single_bytes (input ++ SSE_DONE_MARKER)) key hasher_new now;
    ensure (length (filter is_audit events) =? 1)%nat (
    ensure (length (filter is_done events) =? 1)%nat (
    audit_index ←! position is_audit events;
    done_index ←! position is_done events;
    ensure (audit_index <? done_index)%nat (
    let payload := data_bytes events in
    let rebuilt := rebuilt_bytes events in
    ensure (ends_with rebuilt SSE_DONE_MARKER) (
    ensure (bool_decide (payload = input)) (
    ensure (bool_decide (blake3_hash payload =
              blake3_hash (take (length rebuilt - length SSE_DONE_MARKER) rebuilt))) Passed))))).

(** ** The fuzz target *)

Definition segments_nonempty (outputs : list OutputSegment) : bool :=
  forallb (λ o, negb (is_empty (segment_bytes o))) outputs.

(** The loop over the bytes: a chunk the redactor refuses is skipped. *)
Fixpoint fuzz_pushes (redactor : StreamRedactor) (data : bytes) : option StreamRedactor :=
  match data with
  | [] => Some redactor
  | byte :: data =>
    '(result, redactor) ← push redactor [byte];
    match result with
    | Ok outputs => if segments_nonempty outputs then fuzz_pushes redactor data else None
    | Err _ => fuzz_pushes redactor data
    end
  end.

Definition fuzz_target_1 (key : SigningKey) (now : Z) (data : bytes) : Verdict :=
  vault ←! PiiVault_new [bstr "password"; bstr "secret"; bstr "data: [DONE]"] [mask; mask; mask];
  redactor ←! with_max_capacity vault (64 * 1024);
  redactor ←! fuzz_pushes redactor data;
  '(result, _) ←! finish redactor;
  ensure (match result with Ok outputs => segments_nonempty outputs | Err _ => true end) (
  '(events1, d, hasher) ←! inspect DoneDetector_default data key hasher_new hasher_new now;
  '(events2, d, hasher) ←! inspect d SSE_DONE_MARKER key hasher hasher_new now;
  let '(events3, _, _) := DoneDetector_finish d hasher in
  let marker_events := events1 ++ events2 ++ events3 in
  let audits := length (filter is_audit marker_events) in
  let dones := length (filter is_done marker_events) in
  ensure (audits <=? 1)%nat (
  ensure (dones <=? 1)%nat (
  if (dones =? 1)%nat then
    ensure (audits =? 1)%nat (
    audit_index ←! position is_audit marker_events;
    done_index ←! position is_done marker_events;
    ensure (audit_index <? done_index)%nat Passed)
  else Passed))).

(** ** The property test of [tests/proof_protocol.rs] *)

Definition proof_rules : list bytes :=
  [bstr "password"; bstr "secret"; bstr "email@example.com"; bstr "ssn-123-45-6789";
   bstr "token-abc123"; bstr "user_42"].

(** What the generator puts one after the other: the characters of the noise, the
    fragments, which are the patterns, and the separators.  It makes at most 48
    parts of at most 24 characters; here there is no limit. *)
Definition noise_chars : list bytes :=
  [["a"]; ["195"; "169"]; ["195"; "159"]; ["228"; "184"; "173"]; ["240"; "159"; "154"; "128"];
   ["240"; "159"; "153"; "130"]; ["206"; "169"]; ["194"; "181"]; ["1"]; [" "]]%byte.
Definition proof_tokens : list bytes :=
  proof_rules ++ noise_chars ++ [bstr "-"; bstr "::"; [newline]].
Definition generated (input : bytes) : Prop :=
  ∃ parts, Forall (λ part, part ∈ proof_tokens) parts ∧ input = concat parts.

(** [(1..=7).cycle().take(n)]. *)
Definition chunk_sizes (n : nat) : list nat := (λ i, S (i mod 7)) <$> seq 0 n.

(** The chunks the loop pushes. *)
Fixpoint fragments (sizes : list nat) (cursor : nat) (input : bytes) : list bytes :=
  match sizes with
  | [] => []
  | size :: sizes =>
    if (length input <=? cursor)%nat then []
    else
      let next := Nat.min (cursor + size) (length input) in
      sub cursor next input :: fragments sizes next input
  end.

Definition proof_stream_fragmentation_equivalence (input : bytes) : Verdict :=
  vault ←! PiiVault_new proof_rules (replicate 6 mask);
  redactor ←! StreamRedactor_new vault;
  '(unfragmented, _) ←! push_all redactor [input];
  unwrap_ok unfragmented (λ unfragmented,
  '(fragmented, _) ←! push_all redactor
                        (fragments (chunk_sizes (Nat.max (length input) 1)) 0 input);
  unwrap_ok fragmented (λ fragmented,
  ensure (bool_decide (render fragmented = render unfragmented)) Passed)).

(** ** Unit tests of [src/engine.rs] *)

Definition test_vault : option PiiVault :=
  PiiVault_new [bstr "password"; bstr "secret"] [mask; mask].

Definition redacts_to (text expected : bytes) : Verdict :=
  vault ←! test_vault;
  redacted ←! redact_text text vault;
  ensure (bool_decide (cow_bytes redacted = expected)) Passed.

Definition test_basic_redaction : Verdict :=
  redacts_to (bstr "my password is secret") (bstr "my [REDACTED] is [REDACTED]").

Definition redaction_matches_ascii_case_insensitively : Verdict :=
  redacts_to (bstr "My PASSWORD is SECRET") (bstr "My [REDACTED] is [REDACTED]").

Definition passing_frame_is_sliced_without_copying : Verdict :=
  let source := bstr "prefix suffix" in
  configured ←! test_vault;
  redactor ←! StreamRedactor_new configured;
  '(result, _) ←! push redactor source;
  unwrap_ok result (λ output, ensure (bool_decide (output = [Input source])) Passed).

Definition test_boundary_hold_partial_pii : Verdict :=
  configured ←! PiiVault_new [bstr "xxxxx"; bstr "pass"] [mask; mask];
  split ←! determine_safe_boundary (bstr "my pass") configured;
  ensure (bool_decide (split = (bstr "my pass", []))) Passed.

Definition rocket : bytes := ["240"; "159"; "154"; "128"]%byte.

Definition test_utf8_char_boundary_panic_trap : Verdict :=
  configured ←! PiiVault_new [rocket ++ bstr "abc"] [mask];
  split ←! determine_safe_boundary (bstr "Hello " ++ rocket) configured;
  ensure (bool_decide (split = (bstr "Hello ", rocket))) Passed.

Definition split_utf8_and_pii_are_redacted : Verdict :=
  configured ←! PiiVault_new [bstr "password"; bstr "email@example.com"] [mask; mask];
  redactor ←! StreamRedactor_new configured;
  '(result, _) ←! push_all redactor
    [bstr "hello " ++ take 2 rocket; drop 2 rocket ++ bstr " password e"; bstr "mail@example.com"];
  unwrap_ok result (λ output,
  ensure (bool_decide (render output = bstr "hello " ++ rocket ++ bstr " [REDACTED] [REDACTED]")) Passed).

Definition pending_state_has_a_hard_bound : Verdict :=
  configured ←! PiiVault_new [bstr "sensitive"] [mask];
  redactor ←! with_max_capacity configured 8;
  '(result, _) ←! push redactor (bstr "123456789");
  ensure (bool_decide (result = Err BufferLimitExceeded)) Passed.

Definition redacted_stream_has_expected_blake3_receipt : Verdict :=
  configured ←! PiiVault_new [bstr "password"] [mask];
  redactor ←! StreamRedactor_new configured;
  '(result, _) ←! push_all redactor [bstr "password stays private"];
  unwrap_ok result (λ outputs,
  let hasher := foldl (λ h o, hasher_update h (segment_bytes o)) hasher_new outputs in
  ensure (bool_decide (hasher_finalize hasher = blake3_hash (bstr "[REDACTED] stays private"))) Passed).

(** ** Unit tests of [src/lib.rs] *)

Definition proxy_audit_frame_is_emitted_before_done_event_and_signature_checks
    (key : SigningKey) : Verdict :=
  let receipt_hash := bstr "9f3d74c42bb0c3d4d908a3d77dcb75a6c4df9c1d89b24fd9ba3c4405d5a2dc81" in
  let tuple_digest := canonical_receipt_digest {|
    rf_request_id := bstr "request-1"; rf_tenant_id := bstr "tenant-1";
    rf_upstream_url := bstr "https://upstream.example/v1/chat/completions";
    rf_request_hash := bstr "request-hash-1"; rf_policy_digest := bstr "policy-1";
    rf_pcr0 := bstr "pcr0-1"; rf_response_hash := receipt_hash |} in
  let signature_b64 := b64_encode (sign key tuple_digest) in
  let frame := build_proxy_audit_frame receipt_hash signature_b64 in
  let done := SSE_DONE_MARKER ++ [newline; newline] in
  let combined := frame ++ done in
  frame_index ←! window_position combined frame;
  done_index ←! window_position combined done;
  ensure (frame_index <? done_index)%nat (
  signature ←! b64_decode signature_b64;
  ensure (verify (verifying_key key) tuple_digest signature) Passed).

Definition audit_event : bytes := bstr "event: proxy_audit".

Definition fragmented_done_marker_emits_audit_receipt (key : SigningKey) (now : Z) : Verdict :=
  let input := bstr "data: {" ++ [dquote] ++ bstr "content" ++ [dquote] ++ bstr ":" ++ [dquote]
    ++ bstr "safe" ++ [dquote] ++ bstr "}" ++ [newline; newline] ++ SSE_DONE_MARKER ++ [newline; newline] in
  '(events, _, _) ←! inspect_each DoneDetector_default (single_bytes input) key hasher_new now;
  let rendered := concat (event_bytes <$> events) in
  audit_index ←! window_position rendered audit_event;
  done_index ←! window_position rendered SSE_DONE_MARKER;
  ensure (audit_index <? done_index)%nat Passed.

Definition fragmented_done_marker_preserves_bytes_and_hashes_payload_once
    (key : SigningKey) (now : Z) : Verdict :=
  let input := bstr "data: safe" ++ [newline; newline] ++ SSE_DONE_MARKER ++ [newline; newline] in
  marker_start ←! window_position input SSE_DONE_MARKER;
  let expected_payload := take marker_start input in
  let expected_digest := hex_encode (blake3_hash expected_payload) in
  '(events, _, _) ←! inspect_each DoneDetector_default (single_bytes input) key hasher_new now;
  let rendered := concat (event_bytes <$> events) in
  audit_start ←! window_position rendered audit_event;
  audit_start ←! rposition (λ b, bool_decide (b = newline)) (take audit_start rendered);
  offset ←! window_position (drop audit_start rendered) [newline; newline];
  let audit_end := (audit_start + offset + 2)%nat in
  let without_audit := take audit_start rendered ++ drop audit_end rendered in
  ensure (bool_decide (without_audit = input)) (
  ensure (bool_decide (take audit_start rendered = expected_payload)) (
  ensure (contains (from_utf8_lossy (sub audit_start audit_end rendered)) expected_digest) Passed)).

(** ** Unit tests of [src/budget_queue.rs] and of [tests/proof_protocol.rs] *)

Definition empty_world : World := {| w_sems := ∅; w_tables := ∅; w_in_use := 0%Z; w_next := 0%nat |}.

(** The receiver's loop beside the task: the task runs when the channel is empty.
    [None] when an assertion fails or the fuel runs out. *)
Fixpoint receive_all (fuel : nat) (b : ByteBudget) (w : World) (ch : Channel) (st : EnqueueState)
    (output : bytes) : option (EnqueueState * World * bytes) :=
  match fuel with
  | O => None
  | S fuel =>
    match ch_segments ch with
    | segment :: q =>
      if (permit_count segment <=? bb_capacity b)%Z
      then receive_all fuel b (drop_segment w segment) (set_segments ch q) st
             (output ++ seg_bytes segment)
      else None
    | [] =>
      match st with
      | EnqDone _ => Some (st, w, output)
      | _ => let '(st, ch, w) := enqueue_step b w ch st in receive_all fuel b w ch st output
      end
    end
  end.

Definition oversized_segment_is_sliced_to_fit_without_deadlock : Verdict :=
  let '(semaphore, w) := alloc_sem empty_world 16%Z in
  '(budget, w) ←! ByteBudget_from_shared w semaphore 4%Z;
  ch ←! channel 4;
  let source := bstr "abcdefghij" in
  '(st, w, output) ←! receive_all 20 budget w ch (enqueue_start budget source) [];
  ensure (match st with EnqDone (Ok _) => true | _ => false end) (
  ensure (bool_decide (output = source)) (
  ensure (available w budget <=? 16)%Z Passed)).

(** [sender.send(segment).await] with room in the channel, or without a receiver. *)
Definition send (b : ByteBudget) (w : World) (ch : Channel) (segment : BudgetedSegment)
    : EnqueueState * Channel * World := enqueue_step b w ch (EnqSending segment []).

Definition dropped_receiver_releases_unsent_permit : Verdict :=
  '(budget, w) ←! ByteBudget_new empty_world 8%Z;
  ch ←! channel 1;
  let '(segment, w) := BudgetedSegment_reserve w budget (bstr "1234") in
  unwrap_ok segment (λ segment,
  let '(ch, w) := drop_body w ch BudgetedBody_new in
  let '(st, _, w) := send budget w ch segment in
  ensure (match st with EnqDone (Err _) => true | _ => false end) (
  ensure (available w budget =? 8)%Z Passed)).

Definition dropped_body_releases_in_flight_permit : Verdict :=
  '(budget, w) ←! ByteBudget_new empty_world 8%Z;
  ch ←! channel 1;
  let '(segment, w) := BudgetedSegment_reserve w budget (bstr "1234") in
  unwrap_ok segment (λ segment,
  let '(_, ch, w) := send budget w ch segment in
  let '(polled, body, ch, w) := poll_frame w ch BudgetedBody_new in
  ensure (match polled with PollReady (Some _) => true | _ => false end) (
  ensure (available w budget =? 4)%Z (
  let '(_, w) := drop_body w ch body in
  ensure (available w budget =? 8)%Z Passed))).

Definition oversized_reservation_returns_without_waiting : Verdict :=
  '(budget, w) ←! ByteBudget_new empty_world 4%Z;
  match ByteBudget_reserve w budget 5%Z with (Some None, _) => Passed | _ => Failed end.

Definition idle_completion_releases_all_application_byte_budget : Verdict :=
  let text := bstr "complete stream" in
  '(budget, w) ←! ByteBudget_new empty_world 1024%Z;
  ch ←! channel 1;
  let '(segment, w) := BudgetedSegment_reserve w budget text in
  unwrap_ok segment (λ segment,
  let '(_, ch, w) := send budget w ch segment in
  let '(first, body, ch, w) := poll_frame w (drop_sender ch) BudgetedBody_new in
  ensure (match first with PollReady (Some data) => bool_decide (data = text) | _ => false end) (
  let '(last, body, ch, w) := poll_frame w ch body in
  ensure (match last with PollReady None => true | _ => false end) (
  let '(_, w) := drop_body w ch body in
  ensure (w_in_use w =? 0)%Z Passed))).

End Tests.

(** ** Instances for the unit tests

    A digest of four bytes, written in hexadecimal, so that digests, signatures and
    receipts are text in one line as the real ones are. *)
Module ToyCrypto.
Local Open Scope Z_scope.

Definition hex_digit (n : Z) : Byte.byte := byte_of_Z (if n <? 10 then 48 + n else 87 + n).
Definition hex (l : bytes) : bytes :=
  concat ((λ b, [hex_digit (byte_val b / 16); hex_digit (byte_val b mod 16)]) <$> l).
Definition from_digit (b : Byte.byte) : Z := if byte_val b <? 58 then byte_val b - 48 else byte_val b - 87.
Fixpoint unhex (l : bytes) : bytes :=
  match l with
  | a :: b :: l => byte_of_Z (16 * from_digit a + from_digit b) :: unhex l
  | _ => []
  end.
Definition digest (l : bytes) : bytes :=
  be_bytes 4 (foldl (λ acc b, (acc * 31 + byte_val b + 7) mod 2 ^ 32) 1 l).

#[export] Instance toy_blake3 : Blake3Api := {|
  Hasher := bytes; hasher_new := []; hasher_update h x := h ++ x;
  hasher_finalize := digest; blake3_hash := digest
|}.
#[export] Instance toy_ed25519 : Ed25519Api := {|
  SigningKey := bytes; VerifyingKey := bytes; verifying_key sk := sk; vk_as_bytes vk := vk;
  sign sk m := digest (sk ++ m); verify vk m sg := bool_decide (sg = digest (vk ++ m))
|}.
#[export] Instance toy_encoding : EncodingApi := {|
  hex_encode := hex; hex_decode l := Some (unhex l); b64_encode := hex; b64_decode l := Some (unhex l)
|}.
#[export] Instance toy_receipt_json : ReceiptJsonApi := {|
  json_receipt r := Some (bstr "{" ++ ar_payload_hash r ++ bstr "," ++ ar_tuple_digest r ++ bstr "}")
|}.
#[export] Instance toy_json : SerdeJsonApi := {|
  json_string s := Some ([dquote] ++ s ++ [dquote]); json_policy ps rs := Some (concat (ps ++ rs))
|}.
Definition key : bytes := replicate 32 "003"%byte.
End ToyCrypto.
