(* ===== verification/TestsProofs.v ===== *)
(** * The tests of the repository hold

    The fuzz target and a property test pass for every input, the two other
    property tests for every input of a kind that is named, and the unit tests
    pass. *)

From S2P Require Import Prelude Utf8 AhoCorasick Externals Receipt DoneDetector DoneDetectorProofs BudgetQueue BudgetQueueProofs Matching Engine EngineBoundary EngineProofs EngineTheorems Tests.

Section Proofs.
Context {ac_api : AhoCorasickApi} {ac_laws : AhoCorasickLaws} {b3_api : Blake3Api}
  {b3_laws : Blake3Laws} {sig_api : Ed25519Api} {enc_api : EncodingApi} {json_api : SerdeJsonApi}
  {rj_api : ReceiptJsonApi} {rj_laws : ReceiptJsonLaws}.

(** ** Segments are never empty *)

Lemma slice_nonempty {A} s e (l b : list A) : slice s e l = Some b → s < e → b ≠ [].
Proof.
  intros (Hb1 & Hb2 & ->)%slice_Some_inv Hlt E%(f_equal length). rewrite length_sub in E by lia.
  cbn in E. lia.
Qed.

Lemma redact_source_loop_nonempty reps source safe_len ms : ∀ last out,
  Forall (λ rep, rep ≠ []) reps →
  redact_source_loop reps source safe_len ms last = Some out →
  Forall (λ o, segment_bytes o ≠ []) out.
Proof.
  induction ms as [|m ms IH]; intros last out Hreps; cbn.
  - destruct (last <? safe_len)%nat eqn:E; [|by intros [= <-]]. apply Nat.ltb_lt in E.
    destruct (slice last safe_len source) as [b|] eqn:Eb; cbn; [|done]. intros [= <-].
    constructor; [by eapply slice_nonempty|done].
  - destruct (last <? m_start m)%nat eqn:E; cbn.
    + destruct (slice last (m_start m) source) as [b|] eqn:Eb; cbn; [|done].
      apply Nat.ltb_lt in E. destruct (reps !! m_pattern m) as [rep|] eqn:Er; cbn; [|done].
      destruct (redact_source_loop _ _ _ _ _) as [rest|] eqn:El; cbn; [|done]. intros [= <-].
      constructor; [by eapply slice_nonempty|]. constructor; [|by eapply IH].
      rewrite Forall_lookup in Hreps. by eapply Hreps.
    + destruct (reps !! m_pattern m) as [rep|] eqn:Er; cbn; [|done].
      destruct (redact_source_loop _ _ _ _ _) as [rest|] eqn:El; cbn; [|done]. intros [= <-].
      constructor; [|by eapply IH]. rewrite Forall_lookup in Hreps. by eapply Hreps.
Qed.

Lemma process_source_nonempty r source flush out r' :
  Forall (λ rep, rep ≠ []) (es_replacements (sr_state r)) →
  process_source r source flush = Some (Ok out, r') → segments_nonempty out = true.
Proof.
  intros Hreps H.
  enough (∃ k, redact_source r source k = Some out) as [k Hk].
  { unfold redact_source in Hk. destruct (slice 0 k source); cbn in Hk; [|done].
    apply redact_source_loop_nonempty in Hk; [|done]. apply forallb_forall.
    intros o Ho%list_elem_of_In. rewrite Forall_forall in Hk. specialize (Hk o Ho).
    by destruct (segment_bytes o). }
  unfold process_source in H. destruct (match from_utf8 source with Ok _ => _ | _ => _ end) as [valid_len|];
    [|done]. destruct (flush && _); [done|].
  destruct (slice 0 valid_len source) as [text|]; cbn [mbind option_bind] in H; [|done].
  destruct (from_utf8 text); [|done].
  destruct (if flush then Some _ else _) as [safe_len|]; cbn [mbind option_bind] in H; [|done].
  destruct (redact_source r source safe_len) as [output|] eqn:E; cbn [mbind option_bind] in H; [|done].
  destruct (if (safe_len <? _)%nat then _ else _); cbn [mbind option_bind] in H; [|done].
  destruct (if negb flush && _ then _ else _); cbn [mbind option_bind] in H; [|done].
  destruct (_ <? _)%Z; [done|]. injection H as <- <-. by exists safe_len.
Qed.

Lemma push_segments_nonempty r chunk out r' :
  Forall (λ rep, rep ≠ []) (es_replacements (sr_state r)) →
  push r chunk = Some (Ok out, r') → segments_nonempty out = true.
Proof.
  intros Hreps. destruct (decide (chunk = [])) as [->|Hc]; [by intros [= <- <-]|].
  rewrite push_nonempty by done. by apply process_source_nonempty.
Qed.

Lemma finish_segments_nonempty r out r' :
  Forall (λ rep, rep ≠ []) (es_replacements (sr_state r)) →
  finish r = Some (Ok out, r') → segments_nonempty out = true.
Proof.
  intros Hreps. unfold finish. destruct (sr_pending r); [by intros [= <- <-]|].
  by apply process_source_nonempty.
Qed.

Lemma fuzz_pushes_ok data : ∀ r,
  redactor_wf r → Forall (λ rep, rep ≠ []) (es_replacements (sr_state r)) →
  ∃ r', fuzz_pushes r data = Some r' ∧ redactor_wf r' ∧ sr_state r' = sr_state r.
Proof.
  induction data as [|b data IH]; intros r Hr Hreps; cbn -[push]; [by exists r|].
  destruct (push_total r [b] Hr) as (res & r1 & E & Hr1 & Hst & _). rewrite E. cbn -[push].
  rewrite <-Hst in Hreps. destruct (IH r1 Hr1 Hreps) as (r' & -> & Hr' & Hst').
  exists r'. rewrite Hst', Hst. split; [|done]. destruct res as [out|]; [|done].
  rewrite Hst in Hreps. by rewrite (push_segments_nonempty _ _ _ _ Hreps E).
Qed.

(** ** One receipt and one marker *)

Lemma filter_events (f : StreamEvent → bool) l :
  (∀ b, f (Data b) = false) → filter f (Data <$> l) = [].
Proof.
  intros Hf. induction l as [|b l IH]; [done|]. rewrite fmap_cons.
  rewrite filter_cons_False; [exact IH|]. rewrite Hf. by intros [].
Qed.

Lemma position_data (f : StreamEvent → bool) l rest :
  (∀ b, f (Data b) = false) →
  position f ((Data <$> l) ++ rest) = Nat.add (length l) <$> position f rest.
Proof.
  intros Hf. induction l as [|b l IH]; cbn; [by destruct (position f rest)|].
  rewrite Hf, IH. by destruct (position f rest).
Qed.

(** What the detector emits around the marker. *)
Lemma receipt_shape pre frame done post :
  let events := (Data <$> pre) ++ AuditReceipt frame :: DoneMarker done :: (Data <$> post) in
  length (filter is_audit events) = 1 ∧ length (filter is_done events) = 1 ∧
  position is_audit events = Some (length pre) ∧ position is_done events = Some (S (length pre)) ∧
  data_bytes events = concat pre ++ concat post ∧
  rebuilt_bytes events = concat pre ++ done ++ concat post.
Proof.
  assert (∀ l : list bytes, omap (λ e, match e with Data b => Some b | _ => None end) (Data <$> l) = l)
    as E1 by (intros l; induction l; cbn; congruence).
  assert (∀ l : list bytes, omap (λ e, match e with Data b | DoneMarker b => Some b | _ => None end)
    (Data <$> l) = l) as E2 by (intros l; induction l; cbn; congruence).
  intros events. unfold events, data_bytes, rebuilt_bytes.
  change (AuditReceipt frame :: DoneMarker done :: (Data <$> post))
    with ([AuditReceipt frame; DoneMarker done] ++ (Data <$> post)).
  rewrite !filter_app, !filter_events, !position_data, !omap_app, !E1, !E2, !concat_app by done.
  cbn. rewrite Nat.add_0_r, Nat.add_1_r, !app_nil_r. by repeat (case_decide; [|tauto]).
Qed.

(** The calls of the tests are those of a run with [finish]. *)
Lemma inspect_all_each d chunks key now : ∀ h,
  inspect_all d chunks key h hasher_new now =
  '(events, d, h) ← inspect_each d chunks key h now;
  let '(last, d, h) := DoneDetector_finish d h in Some (events ++ last, d, h).
Proof.
  revert d. induction chunks as [|c chunks IH]; intros d h; cbn [inspect_all inspect_each].
  { cbn. by destruct (DoneDetector_finish d h) as [[??]?]. }
  destruct (inspect d c key h hasher_new now) as [[[events d1] h1]|]; cbn; [|done].
  rewrite IH. destruct (inspect_each d1 chunks key h1 now) as [[[events' d2] h2]|]; cbn; [|done].
  destruct (DoneDetector_finish d2 h2) as [[last d3] h3]. by rewrite <-app_assoc.
Qed.

(** Of a stream with the marker the detector makes this. *)
Lemma marker_run chunks key now :
  contains (concat chunks) SSE_DONE_MARKER = true →
  ∃ pre frame done post d h,
    inspect_all DoneDetector_default chunks key hasher_new hasher_new now =
      Some ((Data <$> pre) ++ AuditReceipt frame :: DoneMarker done :: (Data <$> post), d, h) ∧
    concat pre ++ done ++ concat post = concat chunks ∧ starts_with done SSE_DONE_MARKER = true.
Proof.
  intros Hm. destruct (inspect_all_ok DoneDetector_default [] chunks key hasher_new hasher_new now)
    as (events & d & h & Hi & Hrun); [by split|].
  unfold run_spec in Hrun. cbn [app] in Hrun. rewrite Hm in Hrun.
  destruct Hrun as (pre & done & post & frame & _ & -> & Hs & Hd & _).
  by exists pre, frame, done, post, d, h.
Qed.

Lemma contains_snoc data : contains (data ++ SSE_DONE_MARKER) SSE_DONE_MARKER = true.
Proof. apply contains_spec. exists data, []. by rewrite app_nil_r. Qed.

(** C23: The fuzz target never fails: whatever bytes it is given, no call
    panics, no segment is empty, and there is one receipt at most, with one marker
    after it. *)
Theorem fuzz_target_passes vault key now data :
  PiiVault_new [bstr "password"; bstr "secret"; bstr "data: [DONE]"] [mask; mask; mask]
    = Some vault →
  fuzz_target_1 key now data = Passed.
Proof.
  intros Hv. unfold fuzz_target_1. rewrite Hv. cbn [unwrap].
  destruct (PiiVault_new_wf _ _ _ Hv ltac:(by_vm)) as (Hwf & _ & _ & _ & Ereps).
  unfold with_max_capacity, with_state_max_capacity. cbn [Z.ltb Z.compare unwrap].
  destruct (fuzz_pushes_ok data {| sr_state := pv_engine_state vault; sr_pending := [];
    sr_max_capacity := 64 * 1024 |}) as (r & Er & Hr & Hst).
  { by split. }
  { cbn. rewrite Ereps. by repeat constructor. }
  change (0 <? 64 * 1024)%Z with true. cbn [unwrap]. rewrite Er. cbn [unwrap].
  destruct (finish_total r Hr) as (res & r' & Ef & _). rewrite Ef. cbn [unwrap].
  assert (match res with Ok outputs => segments_nonempty outputs | Err _ => true end = true) as ->.
  { destruct res as [out|]; [|done]. eapply finish_segments_nonempty, Ef.
    rewrite Hst. cbn. rewrite Ereps. by repeat constructor. }
  cbn [ensure]. destruct (marker_run [data; SSE_DONE_MARKER] key now)
    as (pre & frame & done & post & d & h & Hi & _).
  { cbn. rewrite app_nil_r. apply contains_snoc. }
  cbn [inspect_all] in Hi.
  destruct (inspect DoneDetector_default data key hasher_new hasher_new now) as [[[e1 d1] h1]|];
    cbn [mbind option_bind unwrap] in *; [|done].
  destruct (inspect d1 SSE_DONE_MARKER key h1 hasher_new now) as [[[e2 d2] h2]|];
    cbn [mbind option_bind unwrap] in *; [|done].
  destruct (DoneDetector_finish d2 h2) as [[e3 d3] h3]. injection Hi as He _ _. rewrite He.
  destruct (receipt_shape pre frame done post) as (-> & -> & -> & -> & _). cbn.
  by rewrite (proj2 (Nat.ltb_lt _ _)) by lia.
Qed.

Lemma concat_single_bytes l : concat (single_bytes l) = l.
Proof. induction l as [|b l IH]; [done|]. cbn. by f_equal. Qed.

(** The marker does not overlap itself. *)
Lemma marker_no_border k :
  0 < k → k < length SSE_DONE_MARKER →
  take (length SSE_DONE_MARKER - k) SSE_DONE_MARKER ≠ drop k SSE_DONE_MARKER.
Proof.
  intros H1 H2. change (length SSE_DONE_MARKER) with 12 in *.
  do 12 (destruct k as [|k]; [first [lia|by vm_compute]|]). lia.
Qed.

(** After a text without it, the marker is found where it was put. *)
Lemma marker_at_end input a z :
  contains input SSE_DONE_MARKER = false →
  a ++ SSE_DONE_MARKER ++ z = input ++ SSE_DONE_MARKER → a = input ∧ z = [].
Proof.
  intros Hc E. pose proof (f_equal length E) as El. rewrite !length_app in El.
  destruct (decide (z = [])) as [->|Hz].
  { rewrite app_nil_r in E. by apply app_inv_tail in E. }
  exfalso. assert (0 < length z) by (destruct z; [done|cbn; lia]).
  destruct (decide (length SSE_DONE_MARKER ≤ length z)) as [Hl|Hl].
  - assert (input = a ++ SSE_DONE_MARKER ++ take (length z - length SSE_DONE_MARKER) z) as Ei.
    { rewrite <-(take_app_length input SSE_DONE_MARKER), <-E, app_assoc, take_app_ge by solve_len.
      rewrite <-app_assoc. do 3 f_equal. solve_len. }
    rewrite (proj2 (contains_spec _ _)) in Hc; [done|]. rewrite Ei. eauto.
  - apply (marker_no_border (length z)); [lia|lia|].
    pose proof (f_equal (drop (length input)) E) as Ed.
    rewrite drop_app_length, drop_app_ge in Ed by lia.
    rewrite drop_app_le in Ed by lia.
    replace (length input - length a) with (length z) in Ed by lia.
    assert (take (length SSE_DONE_MARKER - length z) (drop (length z) SSE_DONE_MARKER ++ z)
      = drop (length z) SSE_DONE_MARKER) as Et
      by (rewrite take_app_le by solve_len; apply take_ge; solve_len).
    by rewrite Ed in Et.
Qed.

(** The calls without [finish] emit everything when the stream ends with the
    marker. *)
Lemma inspect_each_done chunks key now pre frame done post d h :
  inspect_all DoneDetector_default chunks key hasher_new hasher_new now =
    Some ((Data <$> pre) ++ AuditReceipt frame :: DoneMarker done :: (Data <$> post), d, h) →
  concat post = [] →
  ∃ d' h', inspect_each DoneDetector_default chunks key hasher_new now =
    Some ((Data <$> pre) ++ AuditReceipt frame :: DoneMarker done :: (Data <$> post), d', h').
Proof.
  rewrite inspect_all_each. intros Hi Hp.
  destruct (inspect_each _ _ _ _ _) as [[[evs d1] h1]|]; cbn in Hi; [|done].
  exists d1, h1. do 3 f_equal. unfold DoneDetector_finish in Hi.
  destruct (dd_trailing d1) as [|b t] eqn:Et; cbn in Hi; injection Hi as Hi _ _;
    [by rewrite app_nil_r in Hi|]. exfalso.
  destruct post as [|x post _] using rev_ind.
  - replace (AuditReceipt frame :: DoneMarker done :: (Data <$> [])) with
      ([AuditReceipt frame] ++ [DoneMarker done]) in Hi by done.
    rewrite app_assoc in Hi. by apply app_inj_tail in Hi as [_ ?].
  - rewrite fmap_app in Hi. cbn in Hi. rewrite !app_comm_cons, app_assoc in Hi.
    apply app_inj_tail in Hi as [_ [= <-]]. rewrite concat_app in Hp.
    by apply app_nil in Hp as [_ Hp].
Qed.

(** The property test of the detector passes for every input: fed byte by
    byte, any text without a marker and then the marker come out with one receipt
    in front of the marker, the text is what the data events carry, and what is
    hashed is the text. *)
Theorem receipt_property_test key now input :
  fragmented_done_marker_has_one_ordered_receipt key now input =
  if contains input SSE_DONE_MARKER then Rejected else Passed.
Proof.
  unfold fragmented_done_marker_has_one_ordered_receipt.
  destruct (contains input SSE_DONE_MARKER) eqn:Hc; [done|].
  destruct (marker_run (single_bytes (input ++ SSE_DONE_MARKER)) key now)
    as (pre & frame & done & post & d & h & Hi & Hs & Hd).
  { rewrite concat_single_bytes. apply contains_snoc. }
  rewrite concat_single_bytes in Hs. apply starts_with_spec in Hd as [z ->].
  rewrite <-app_assoc in Hs. destruct (marker_at_end _ _ _ Hc Hs) as [Hpre [-> Hpost]%app_nil].
  rewrite app_nil_r in *. destruct (inspect_each_done _ _ _ _ _ _ _ _ _ Hi Hpost) as (d' & h' & ->).
  cbn [unwrap]. destruct (receipt_shape pre frame SSE_DONE_MARKER post) as (-> & -> & -> & -> & -> & ->).
  rewrite Hpre, Hpost, !app_nil_r. cbn [Nat.eqb ensure unwrap].
  rewrite (proj2 (Nat.ltb_lt _ _)) by lia. cbn [ensure].
  rewrite (proj2 (ends_with_spec _ _)) by eauto. rewrite length_app, Nat.add_sub, take_app_length.
  by rewrite !bool_decide_true.
Qed.

(** ** Streaming and one-shot redaction *)

(** The property test of the redactor passes for every text without capital
    letters: byte by byte, the stream is redacted as the whole text is. *)
Theorem redaction_property_test vault input :
  PiiVault_new [bstr "password"; bstr "secret"] [mask; mask] = Some vault → lower input = true →
  arbitrary_fragments_preserve_valid_redacted_data input = Passed.
Proof.
  intros Hv Hl. unfold arbitrary_fragments_preserve_valid_redacted_data.
  destruct (valid_utf8 input) eqn:Hu; cbn [negb]; [|done]. rewrite Hv. cbn [unwrap].
  pose proof (concat_single_bytes input) as Hc.
  destruct (push_all_one_shot [bstr "password"; bstr "secret"] [mask; mask] vault
    DEFAULT_MAX_BUFFER_CAPACITY {| sr_state := pv_engine_state vault; sr_pending := [];
      sr_max_capacity := DEFAULT_MAX_BUFFER_CAPACITY |} (single_bytes input))
    as (out & r' & c & Hp & _ & Hr & E); rewrite ?Hc in *; try done.
  - apply independent_separated. by_vm.
  - apply lower_chunks_exact; [by_vm|]. cbn [app]. by rewrite Hc.
  - rewrite Hr. cbn [unwrap]. unfold StreamRedactor_new, from_state, with_state_max_capacity.
    change (0 <? DEFAULT_MAX_BUFFER_CAPACITY)%Z with true. cbn [unwrap]. rewrite Hp. cbn [unwrap].
    by rewrite E, bool_decide_true.
Qed.

(** The chunks of the generator's loop are the text. *)
Lemma concat_fragments input sizes : ∀ cursor,
  Forall (λ n, 0 < n) sizes → length input ≤ cursor + length sizes →
  concat (fragments sizes cursor input) = drop cursor input.
Proof.
  induction sizes as [|size sizes IH]; intros cursor Hs Hl; cbn.
  { cbn in Hl. by rewrite drop_ge by lia. }
  apply Forall_cons in Hs as [Hsize Hs]. cbn in Hl.
  destruct (length input <=? cursor)%nat eqn:E.
  { apply Nat.leb_le in E. by rewrite drop_ge. }
  apply Nat.leb_gt in E. cbn. rewrite IH by (done || lia).
  replace (drop cursor input) with (sub cursor (length input) input)
    by (unfold sub; apply take_ge; solve_len).
  rewrite <-(sub_app_adj cursor (Nat.min (cursor + size) (length input)) (length input) input) by lia.
  f_equal. unfold sub. symmetry. apply take_ge. solve_len.
Qed.

Lemma chunk_sizes_pos n : Forall (λ k, 0 < k) (chunk_sizes n).
Proof. apply Forall_forall. intros k (i & -> & _)%list_elem_of_fmap. lia. Qed.

(** *** What the generator makes *)

(** A scanner for [eto], which all generated texts avoid. *)
Definition scan (state : nat) (b : Byte.byte) : nat :=
  if (state =? 3)%nat then 3
  else if bool_decide (b = "e"%byte) then 1
  else if (state =? 1)%nat && bool_decide (b = "t"%byte) then 2
  else if (state =? 2)%nat && bool_decide (b = "o"%byte) then 3
  else 0.

Lemma scan_stuck l : foldl scan 3 l = 3.
Proof. by induction l. Qed.

Lemma scan_range state b : state ≤ 3 → scan state b ≤ 3.
Proof. intros H. unfold scan. repeat case_match; lia. Qed.

Lemma scan_finds text :
  contains text (bstr "eto") = true → foldl scan 0 text = 3.
Proof.
  intros (a & z & ->)%contains_spec. rewrite !foldl_app.
  assert (∀ s, s ≤ 3 → foldl scan s a ≤ 3) as Ha.
  { induction a as [|b a IH]; intros s Hs; cbn; [done|]. apply IH. by apply scan_range. }
  specialize (Ha 0 ltac:(lia)). destruct (foldl scan 0 a) as [|[|[|[|]]]] eqn:E; try lia; apply scan_stuck.
Qed.

Lemma generated_scan parts : ∀ state,
  state = 0 ∨ state = 2 → Forall (λ part, part ∈ proof_tokens) parts →
  let state' := foldl scan state (concat parts) in state' = 0 ∨ state' = 2.
Proof.
  induction parts as [|part parts IH]; intros state Hs Hp; cbn; [done|].
  apply Forall_cons in Hp as [Hpart Hp]. rewrite foldl_app. apply IH; [|done].
  assert (forallb (λ s, forallb (λ token, existsb (Nat.eqb (foldl scan s token)) [0; 2])
    proof_tokens) [0; 2] = true) as K by by_vm.
  eapply (forallb_elem _ _ state) in K; [|by destruct Hs as [->| ->]; [left|right; left]].
  eapply (forallb_elem _ _ part) in K; [|done].
  apply existsb_exists in K as (s & Hin & ->%Nat.eqb_eq). destruct Hin as [<-|[<-|[]]]; auto.
Qed.

Lemma generated_tokens (f : bytes → bool) parts :
  (∀ a b, f a = true → f b = true → f (a ++ b) = true) → f [] = true →
  forallb f proof_tokens = true → Forall (λ part, part ∈ proof_tokens) parts →
  f (concat parts) = true.
Proof.
  intros Happ Hnil Ht Hp. induction Hp as [|part parts Hpart _ IH]; cbn; [done|].
  apply Happ; [|done]. by apply (forallb_elem _ _ part) in Ht.
Qed.

Lemma generated_ok input :
  generated input → valid_utf8 input = true ∧ lower input = true ∧ separated proof_rules input.
Proof.
  intros (parts & Hp & ->).
  assert (lower (concat parts) = true) as Hl.
  { apply generated_tokens; [|done|by_vm|done]. intros a b Ha Hb. by rewrite lower_app, Ha, Hb. }
  split_and!; [|done|].
  - apply generated_tokens; [by apply valid_utf8_app|done|by_vm|done].
  - apply separated_clear; [by apply lower_exactly_written; [|by_vm]|].
    assert (clash_words proof_rules = [bstr "secreto"]) as -> by by_vm. constructor; [|done].
    rewrite fold_lower by done. change (fold_case (bstr "secreto")) with (bstr "secr" ++ bstr "eto").
    destruct (contains (concat parts) (bstr "secr" ++ bstr "eto")) eqn:E; [|done]. exfalso.
    assert (contains (concat parts) (bstr "eto") = true) as Hf%scan_finds.
    { apply contains_spec in E as (a & z & E). apply contains_spec.
      exists (a ++ bstr "secr"), z. rewrite E. by rewrite <-!app_assoc. }
    destruct (generated_scan parts 0 ltac:(by left) Hp); lia.
Qed.

(** C40: The property test of the protocol passes for everything its generator can
    make, of any length: cutting the text into chunks of one to seven bytes does
    not change what comes out. *)
Theorem fragmentation_property_test vault input :
  PiiVault_new proof_rules (replicate 6 mask) = Some vault → generated input →
  proof_stream_fragmentation_equivalence input = Passed.
Proof.
  intros Hv (Hu & Hl & Hsep)%generated_ok. unfold proof_stream_fragmentation_equivalence.
  rewrite Hv. cbn [unwrap]. unfold StreamRedactor_new, from_state, with_state_max_capacity.
  change (0 <? DEFAULT_MAX_BUFFER_CAPACITY)%Z with true. cbn [unwrap].
  assert (∀ chunks, concat chunks = input → ∃ out r' c, redact_text input vault = Some c ∧
    push_all {| sr_state := pv_engine_state vault; sr_pending := [];
      sr_max_capacity := DEFAULT_MAX_BUFFER_CAPACITY |} chunks = Some (Ok out, r') ∧
    render out = cow_bytes c) as Hpush.
  { intros chunks Hc. destruct (push_all_one_shot proof_rules (replicate 6 mask) vault
      DEFAULT_MAX_BUFFER_CAPACITY {| sr_state := pv_engine_state vault; sr_pending := [];
      sr_max_capacity := DEFAULT_MAX_BUFFER_CAPACITY |} chunks)
      as (out & r' & c & Hp & _ & Hr & E); rewrite ?Hc in *; try done; [|by exists out, r', c].
    apply lower_chunks_exact; [by_vm|]. cbn [app]. by rewrite Hc. }
  destruct (Hpush [input]) as (out & r' & c & Hr & -> & E); [by apply app_nil_r|].
  destruct (Hpush (fragments (chunk_sizes (Nat.max (length input) 1)) 0 input))
    as (out2 & r2 & c2 & Hr2 & E2 & E3).
  { rewrite concat_fragments; [apply drop_0|apply chunk_sizes_pos|].
    unfold chunk_sizes. rewrite length_fmap, length_seq. lia. }
  cbn [unwrap unwrap_ok]. rewrite E2. cbn [unwrap unwrap_ok].
  rewrite Hr in Hr2. injection Hr2 as <-. by rewrite E, E3, bool_decide_true.
Qed.

End Proofs.

(** ** Concrete runs *)

Module TestDemo.
Import ToyCrypto.
Import (hints) NaiveSearch CounterSemaphore.

(** The unit tests, with the brute-force searcher, the toy digest and counters. *)
Definition unit_tests : list Verdict :=
  [test_basic_redaction; redaction_matches_ascii_case_insensitively;
   passing_frame_is_sliced_without_copying; test_boundary_hold_partial_pii;
   test_utf8_char_boundary_panic_trap; split_utf8_and_pii_are_redacted;
   pending_state_has_a_hard_bound; redacted_stream_has_expected_blake3_receipt;
   proxy_audit_frame_is_emitted_before_done_event_and_signature_checks key;
   fragmented_done_marker_emits_audit_receipt key 0;
   fragmented_done_marker_preserves_bytes_and_hashes_payload_once key 0;
   oversized_segment_is_sliced_to_fit_without_deadlock;
   dropped_receiver_releases_unsent_permit; dropped_body_releases_in_flight_permit;
   oversized_reservation_returns_without_waiting;
   idle_completion_releases_all_application_byte_budget].

Lemma unit_tests_pass : unit_tests = replicate 16 Passed.
Proof. by_vm. Qed.

(** With capital letters the property test of the redactor fails: a pattern that is
    cut while it is written in another case is not held back. *)
Lemma redaction_property_test_fails :
  arbitrary_fragments_preserve_valid_redacted_data (bstr "xxPASSWORD") = Failed.
Proof. by_vm. Qed.
End TestDemo.

Import NaiveSearch Transparent TransparentReceipt.

Definition vault_of (rules : list bytes) : PiiVault :=
  match PiiVault_new rules (replicate (length rules) mask) with
  | Some vault => vault
  | None => EngineTheorems.Demo.vault
  end.

Lemma fuzz_target_passes_witness :
  fuzz_target_1 key 0 (bstr "a password, data: [DONE] and data: [DO") = Passed.
Proof.
  apply (fuzz_target_passes (vault_of [bstr "password"; bstr "secret"; bstr "data: [DONE]"])).
  by_vm.
Defined.

Lemma redaction_property_test_witness :
  arbitrary_fragments_preserve_valid_redacted_data (bstr "xxpassword secret") = Passed.
Proof.
  apply (redaction_property_test (vault_of [bstr "password"; bstr "secret"])); by_vm.
Defined.

Lemma fragmentation_property_test_witness :
  proof_stream_fragmentation_equivalence (concat [bstr "secret"; bstr "token-abc123"; bstr " "; bstr "::"])
    = Passed.
Proof.
  apply (fragmentation_property_test (vault_of proof_rules)); [by_vm|].
  exists [bstr "secret"; bstr "token-abc123"; bstr " "; bstr "::"]. split; [|reflexivity].
  repeat (apply Forall_cons; split; [apply (bool_decide_unpack _); vm_compute; exact I|]).
  apply Forall_nil_2.
Defined.
