(* ===== verification/Http.v ===== *)
(** * The HTTP front: middleware and routing ([src/lib.rs])

    Requests and responses carry the parts the proxy looks at.  A middleware is
    a function of the request and of [next], the rest of the stack; [Err status]
    is the early return of a status code, which axum turns into an empty response
    ([into_response]).  [make_router] stacks the layers and routes the way the
    source builds them; the handlers are arguments, and so is axum's own reply to
    an unknown path or method.

    A [HeaderValue] is its bytes; [to_str] and [from_str] of the [http] crate are
    parameters. *)

From S2P Require Import Prelude Utf8 RustStr Externals.
Local Open Scope Z_scope.

Class HeaderApi := {
  header_to_str : bytes → option bytes;
  header_from_str : bytes → option bytes
}.

(** The conversions keep the bytes; printable ASCII converts. *)
Class HeaderLaws `{!HeaderApi} := {
  header_to_str_bytes v s : header_to_str v = Some s → s = v;
  header_from_str_bytes s v : header_from_str s = Some v → v = s;
  header_to_str_ascii v : Forall (λ b, in_range 32 126 b = true) v → header_to_str v = Some v
}.

Definition StatusCode_OK : Z := 200.
Definition BAD_REQUEST : Z := 400.
Definition UNAUTHORIZED : Z := 401.
Definition FORBIDDEN : Z := 403.
Definition PAYLOAD_TOO_LARGE : Z := 413.
Definition INTERNAL_SERVER_ERROR : Z := 500.
Definition BAD_GATEWAY : Z := 502.
Definition SERVICE_UNAVAILABLE : Z := 503.

(** ** Errors *)

(** A [dyn Error]: one of the proxy's own body errors, or a foreign one without or
    with a source. *)
Inductive DynError :=
| LimitExceeded (limit : Z)
| Upstream (error : DynError)
| Foreign
| ForeignFrom (source : DynError).

Definition error_source (e : DynError) : option DynError :=
  match e with
  | LimitExceeded _ => None
  | Upstream e => Some e
  | Foreign => None
  | ForeignFrom e => Some e
  end.

Fixpoint contains_body_limit_error (error : DynError) : bool :=
  match error with
  | LimitExceeded _ => true
  | Upstream e => contains_body_limit_error e
  | ForeignFrom e => contains_body_limit_error e
  | Foreign => false
  end.

(** ** Messages *)

(** Headers in order; names are lower case. *)
Abbreviation Headers := (list (bytes * bytes)).

(** [HeaderMap::get]: the first value. *)
Definition header_get (name : bytes) (hs : Headers) : option bytes :=
  snd <$> List.find (λ h, bool_decide (h.1 = name)) hs.

(** [HeaderMap::insert]: replaces every value of the name. *)
Definition header_insert (name value : bytes) (hs : Headers) : Headers :=
  filter (λ h, h.1 ≠ name) hs ++ [(name, value)].

Record Request := {
  rq_method : bytes;
  rq_path : bytes;
  rq_headers : Headers;
  rq_tenant : option bytes;
  rq_body : list (Result DynError bytes)
}.

Definition set_body (r : Request) (body : list (Result DynError bytes)) : Request :=
  {| rq_method := rq_method r; rq_path := rq_path r; rq_headers := rq_headers r;
     rq_tenant := rq_tenant r; rq_body := body |}.
Definition set_tenant (r : Request) (tenant : bytes) : Request :=
  {| rq_method := rq_method r; rq_path := rq_path r; rq_headers := rq_headers r;
     rq_tenant := Some tenant; rq_body := rq_body r |}.

Inductive ResponseBody := Full (b : bytes) | Streaming.

Record Response := { rs_status : Z; rs_headers : Headers; rs_body : ResponseBody }.

Definition empty_response (status : Z) : Response :=
  {| rs_status := status; rs_headers := []; rs_body := Full [] |}.

Definition into_response (r : Result Z Response) : Response :=
  match r with Ok r => r | Err status => empty_response status end.

Definition set_headers (r : Response) (hs : Headers) : Response :=
  {| rs_status := rs_status r; rs_headers := hs; rs_body := rs_body r |}.

Section Http.
Context {hdr_api : HeaderApi} {b3_api : Blake3Api}.

(** The value of a header as text. *)
Definition header_str (name : bytes) (hs : Headers) : option bytes :=
  v ← header_get name hs; header_to_str v.

(** ** The body limit *)

Definition MAX_BODY_SIZE : Z := 2 * 1024 * 1024.

Definition saturating_add (a b : Z) : Z := Z.min (a + b) usize_max.

(** The stream made by [unfold], polled to the end. *)
Fixpoint limited_stream (total : Z) (body : list (Result DynError bytes))
    : list (Result DynError bytes) :=
  match body with
  | [] => []
  | Ok bytes :: body =>
    let next_total := saturating_add total (blen bytes) in
    (if MAX_BODY_SIZE <? next_total then Err (LimitExceeded MAX_BODY_SIZE) else Ok bytes)
      :: limited_stream next_total body
  | Err error :: body => Err (Upstream error) :: limited_stream total body
  end.

Definition enforce_body_limit (req : Request) (next : Request → Response) : Result Z Response :=
  let length :=
    s ← header_str (bstr "content-length") (rq_headers req); parse_unsigned usize_max s in
  if match length with Some length => MAX_BODY_SIZE <? length | None => false end
  then Err PAYLOAD_TOO_LARGE
  else Ok (next (set_body req (limited_stream 0 (rq_body req)))).

(** ** Authentication *)

(** [subtle]'s constant-time comparison. *)
Definition ct_eq (a b : bytes) : bool := bool_decide (a = b).

Definition require_auth (auth_keyring : list bytes) (req : Request) (next : Request → Response)
    : Result Z Response :=
  match (hv ← header_get (bstr "authorization") (rq_headers req);
         s ← header_to_str hv;
         strip_prefix (bstr "Bearer ") s) with
  | Some token =>
    let token_hash := blake3_hash token in
    let authenticated :=
      foldl (λ authenticated valid_hash, authenticated || ct_eq token_hash valid_hash)
        false auth_keyring in
    if authenticated then Ok (next (set_tenant req token_hash)) else Err UNAUTHORIZED
  | None => Err UNAUTHORIZED
  end.

Definition auth_middleware (admin_bearer_token_hash : bytes) (auth_keyring : list bytes)
    (req : Request) (next : Request → Response) : Result Z Response :=
  match header_get (bstr "authorization") (rq_headers req) with
  | None => Err UNAUTHORIZED
  | Some header =>
    match header_to_str header with
    | None => Err UNAUTHORIZED
    | Some value =>
      match strip_prefix (bstr "Bearer ") value with
      | None => Err UNAUTHORIZED
      | Some token =>
        let token_hash := blake3_hash token in
        if ct_eq token_hash admin_bearer_token_hash then Ok (next req)
        else if existsb (ct_eq token_hash) auth_keyring then Err FORBIDDEN
        else Err UNAUTHORIZED
      end
    end
  end.

(** ** Cross-origin requests *)

Definition cors_headers (allowed_origin : option bytes) (headers : Headers) : Headers :=
  let headers :=
    match allowed_origin with
    | Some origin =>
      match header_from_str origin with
      | Some value => header_insert (bstr "access-control-allow-origin") value headers
      | None => headers
      end
    | None => headers
    end in
  let headers := header_insert (bstr "access-control-allow-headers")
                   (bstr "Authorization, Content-Type") headers in
  header_insert (bstr "access-control-allow-methods") (bstr "GET, POST, OPTIONS") headers.

Definition cors_middleware (allowed_origins : list bytes) (req : Request)
    (next : Request → Response) : Result Z Response :=
  let origin := header_str (bstr "origin") (rq_headers req) in
  let allowed_origin :=
    match origin with
    | Some value => if existsb (λ allowed, bool_decide (allowed = value)) allowed_origins
                    then Some value else None
    | None => None
    end in
  if bool_decide (is_Some origin) && bool_decide (allowed_origin = None) then Err FORBIDDEN
  else if bool_decide (rq_method req = bstr "OPTIONS") then
    let resp := empty_response StatusCode_OK in
    Ok (set_headers resp (cors_headers allowed_origin (rs_headers resp)))
  else
    let resp := next req in
    Ok (set_headers resp (cors_headers allowed_origin (rs_headers resp))).

(** ** Routing *)

Record Handlers := {
  h_proxy : Request → Response;
  h_update_rules : Request → Response;
  h_metrics : Request → Response;
  h_attestation : Request → Response;
  h_fallback : Request → Response
}.

Record RouterState := {
  auth_keyring : list bytes;
  admin_bearer_token_hash : bytes;
  allowed_origins : list bytes
}.

Definition is_get (req : Request) : bool :=
  bool_decide (rq_method req = bstr "GET") || bool_decide (rq_method req = bstr "HEAD").
Definition is_post (req : Request) : bool := bool_decide (rq_method req = bstr "POST").

(** The routes.  [layer] around the chat route also covers its reply to a wrong
    method; [route_layer] around the admin routes does not. *)
Definition routes (st : RouterState) (h : Handlers) (req : Request) : Response :=
  let path := rq_path req in
  if bool_decide (path = bstr "/_attestation") then
    if is_get req then h_attestation h req else h_fallback h req
  else if bool_decide (path = bstr "/v1/chat/completions") then
    into_response (require_auth (auth_keyring st) req
      (λ req, if is_post req then h_proxy h req else h_fallback h req))
  else if bool_decide (path = bstr "/_admin/rules") then
    if is_post req
    then into_response (auth_middleware (admin_bearer_token_hash st) (auth_keyring st) req
           (h_update_rules h))
    else h_fallback h req
  else if bool_decide (path = bstr "/_admin/metrics") then
    if is_get req
    then into_response (auth_middleware (admin_bearer_token_hash st) (auth_keyring st) req
           (h_metrics h))
    else h_fallback h req
  else h_fallback h req.

Definition make_router (st : RouterState) (h : Handlers) (req : Request) : Response :=
  into_response (cors_middleware (allowed_origins st) req (λ req,
    into_response (enforce_body_limit req (routes st h)))).

End Http.
