(* ===== verification/HttpProofs.v ===== *)
(** * What the HTTP front lets through

    The body limit, the keys, the admin token and the origins decide which
    handler sees a request; a handler that may not see it has no influence on the
    response. *)

From S2P Require Import Prelude Utf8 RustStr Externals Http.
Local Open Scope Z_scope.

(** ** The body limit *)

(** The bytes a body delivers. *)
Definition ok_bytes (body : list (Result DynError bytes)) : bytes :=
  concat (omap (λ r, match r with Ok b => Some b | Err _ => None end) body).

(** A body whose errors are wrapped and that is otherwise unchanged. *)
Definition wrap_errors (body : list (Result DynError bytes)) : list (Result DynError bytes) :=
  (λ r, match r with Ok b => Ok b | Err e => Err (Upstream e) end) <$> body.

Lemma limited_over total body :
  MAX_BODY_SIZE < total → total ≤ usize_max → ok_bytes (limited_stream total body) = [].
Proof.
  revert total. induction body as [|[b|e] body IH]; intros total Ht Hmax; cbn; [done| |].
  - assert (MAX_BODY_SIZE < saturating_add total (blen b) ≤ usize_max) as [H1 H2]
      by (unfold saturating_add, blen; lia).
    rewrite (proj2 (Z.ltb_lt _ _) H1). cbn. by apply IH.
  - by apply IH.
Qed.

Lemma limited_stream_spec body total :
  0 ≤ total ≤ MAX_BODY_SIZE →
  total + blen (ok_bytes (limited_stream total body)) ≤ MAX_BODY_SIZE ∧
  ok_bytes (limited_stream total body) `prefix_of` ok_bytes body ∧
  (total + blen (ok_bytes body) ≤ MAX_BODY_SIZE → limited_stream total body = wrap_errors body) ∧
  (MAX_BODY_SIZE < total + blen (ok_bytes body) →
     Err (LimitExceeded MAX_BODY_SIZE) ∈ limited_stream total body).
Proof.
  revert total. induction body as [|[b|e] body IH]; intros total Ht; cbn -[blen MAX_BODY_SIZE].
  - unfold blen; cbn. split_and!; try done; [lia|]. unfold MAX_BODY_SIZE in *. lia.
  - assert (0 ≤ blen b) as Hb by (unfold blen; lia).
    assert (∀ x y, blen (x ++ y) = blen x + blen y) as Happ
      by (intros; unfold blen; rewrite length_app; lia).
    unfold ok_bytes in *. cbn [omap list_omap concat].
    destruct (Z.ltb_spec MAX_BODY_SIZE (saturating_add total (blen b))) as [Hlt|Hge].
    + assert (MAX_BODY_SIZE < total + blen b) as Hov
        by (unfold saturating_add, usize_max, MAX_BODY_SIZE in *; lia).
      fold (ok_bytes (limited_stream (saturating_add total (blen b)) body)).
      rewrite limited_over by (done || unfold saturating_add; lia).
      split_and!; [unfold blen; cbn; lia|apply prefix_nil| |by left].
      rewrite Happ. intros H. unfold blen in *. lia.
    + assert (saturating_add total (blen b) = total + blen b) as E
        by (unfold saturating_add, usize_max, MAX_BODY_SIZE in *; lia).
      rewrite E in *. destruct (IH (total + blen b)) as (H1 & H2 & H3 & H4); [lia|].
      cbn [omap list_omap concat]. rewrite !Happ. split_and!.
      * lia.
      * by apply prefix_app.
      * intros H. unfold wrap_errors in *. cbn. f_equal. apply H3. lia.
      * intros H. right. apply H4. lia.
  - destruct (IH total Ht) as (H1 & H2 & H3 & H4). split_and!; try done.
    + intros H. unfold wrap_errors in *. cbn. f_equal. by apply H3.
    + intros H. right. by apply H4.
Qed.

(** C18: Whatever its framing, the body handed on delivers at most two mebibytes,
    a prefix of what the client sent; a body within the limit is passed unchanged
    (with its errors wrapped), a larger one ends up in the limit error. *)
Theorem body_limit_enforced body :
  blen (ok_bytes (limited_stream 0 body)) ≤ MAX_BODY_SIZE ∧
  ok_bytes (limited_stream 0 body) `prefix_of` ok_bytes body ∧
  (blen (ok_bytes body) ≤ MAX_BODY_SIZE → limited_stream 0 body = wrap_errors body) ∧
  (MAX_BODY_SIZE < blen (ok_bytes body) →
     Err (LimitExceeded MAX_BODY_SIZE) ∈ limited_stream 0 body).
Proof. destruct (limited_stream_spec body 0) as (H1 & H2 & H3 & H4); [done|]. done. Qed.

(** The error [n] sources below [e]. *)
Fixpoint nth_source (n : nat) (e : DynError) : option DynError :=
  match n with O => Some e | S n => e' ← error_source e; nth_source n e' end.

(** The proxy recognises its own limit error at any depth of an error's chain
    of sources, and only that error. *)
Theorem body_limit_error_found e :
  contains_body_limit_error e = true ↔ ∃ n limit, nth_source n e = Some (LimitExceeded limit).
Proof.
  assert (∀ e e', error_source e = Some e' → (∀ l, e ≠ LimitExceeded l) →
    (∃ n limit, nth_source n e' = Some (LimitExceeded limit)) ↔
    (∃ n limit, nth_source n e = Some (LimitExceeded limit))) as Hs.
  { intros e0 e' E Hl. split.
    - intros (n & l & H). exists (S n), l. cbn. by rewrite E.
    - intros ([|n] & l & H); cbn in H; [naive_solver|]. rewrite E in H. eauto. }
  induction e as [l|e IH| |e IH]; cbn.
  - split; [|done]. intros _. by exists 0%nat, l.
  - rewrite IH. by apply Hs.
  - split; [done|]. by intros ([|n] & l & H).
  - rewrite IH. by apply Hs.
Qed.

(** ** Headers *)

Lemma header_get_app name a b :
  header_get name (a ++ b) =
    match header_get name a with Some v => Some v | None => header_get name b end.
Proof.
  unfold header_get. induction a as [|[k v] a IH]; cbn; [done|]. by case_bool_decide.
Qed.

Lemma header_get_filter name other hs :
  header_get name (filter (λ h, h.1 ≠ other) hs) =
    if decide (name = other) then None else header_get name hs.
Proof.
  unfold header_get. induction hs as [|[k v] hs IH]; [by case_decide|].
  rewrite filter_cons. cbn [fst]. destruct (decide (k ≠ other)) as [Hk|Hk].
  - cbn. case_bool_decide as Hn; [|done]. subst k. by rewrite decide_False.
  - cbn. rewrite IH. case_decide as Hn; [done|].
    rewrite bool_decide_false; [done|]. intros ->. by apply Hk.
Qed.

Lemma header_get_insert name other v hs :
  header_get name (header_insert other v hs) =
    if decide (name = other) then Some v else header_get name hs.
Proof.
  unfold header_insert. rewrite header_get_app, header_get_filter.
  destruct (decide (name = other)) as [->|Hne].
  - unfold header_get. cbn. by rewrite bool_decide_true.
  - destruct (header_get name hs); [done|]. unfold header_get. cbn.
    by rewrite bool_decide_false by congruence.
Qed.

Section Gates.
Context {hdr_api : HeaderApi} {hdr_laws : HeaderLaws} {b3_api : Blake3Api}.

(** ** Keys *)

(** The token a request presents. *)
Definition bearer_token (req : Request) : option bytes :=
  hv ← header_get (bstr "authorization") (rq_headers req);
  s ← header_to_str hv;
  strip_prefix (bstr "Bearer ") s.

Lemma ct_any h l b :
  foldl (λ authenticated valid_hash, authenticated || ct_eq h valid_hash) b l
    = b || bool_decide (h ∈ l).
Proof.
  revert b. induction l as [|k l IH]; intros b; cbn.
  { rewrite (bool_decide_false (h ∈ [])) by (by intros ?%elem_of_nil). by rewrite orb_false_r. }
  rewrite IH, <-orb_assoc. f_equal. unfold ct_eq.
  apply eq_bool_prop_intro. rewrite orb_True, !bool_decide_spec, elem_of_cons. done.
Qed.

Lemma existsb_ct h l : existsb (ct_eq h) l = bool_decide (h ∈ l).
Proof.
  apply eq_bool_prop_intro. rewrite Is_true_true, existsb_exists, bool_decide_spec.
  split.
  - intros (x & Hx & E). apply bool_decide_eq_true in E as ->. by apply list_elem_of_In.
  - intros H. exists h. split; [by apply list_elem_of_In|]. by apply bool_decide_eq_true.
Qed.

Lemma require_auth_eq keyring req next :
  require_auth keyring req next =
    match bearer_token req with
    | Some token => if bool_decide (blake3_hash token ∈ keyring)
                    then Ok (next (set_tenant req (blake3_hash token))) else Err UNAUTHORIZED
    | None => Err UNAUTHORIZED
    end.
Proof.
  unfold require_auth, bearer_token. destruct (_ ≫= _) as [token|]; [|done].
  by rewrite ct_any.
Qed.

(** A client is let through exactly when it presents a bearer token whose
    digest is in the keyring, and then the request is tagged with that digest as
    its tenant; everyone else gets 401. *)
Theorem require_auth_spec keyring req next :
  require_auth keyring req next =
    match bearer_token req with
    | Some token => if bool_decide (blake3_hash token ∈ keyring)
                    then Ok (next (set_tenant req (blake3_hash token))) else Err UNAUTHORIZED
    | None => Err UNAUTHORIZED
    end.
Proof. apply require_auth_eq. Qed.

Lemma auth_middleware_eq admin keyring req next :
  auth_middleware admin keyring req next =
    match bearer_token req with
    | Some token =>
        if decide (blake3_hash token = admin) then Ok (next req)
        else if decide (blake3_hash token ∈ keyring) then Err FORBIDDEN else Err UNAUTHORIZED
    | None => Err UNAUTHORIZED
    end.
Proof.
  unfold auth_middleware, bearer_token.
  destruct (header_get _ _) as [v|]; cbn; [|done].
  destruct (header_to_str v) as [s|]; cbn; [|done].
  destruct (strip_prefix _ s) as [token|]; [|done]. unfold ct_eq at 1. rewrite existsb_ct.
  by repeat case_bool_decide; repeat case_decide.
Qed.

(** An administrator is let through exactly with the admin token; a valid
    client key that is not the admin token gets 403, anything else 401. *)
Theorem auth_middleware_spec admin keyring req next :
  auth_middleware admin keyring req next =
    match bearer_token req with
    | Some token =>
        if decide (blake3_hash token = admin) then Ok (next req)
        else if decide (blake3_hash token ∈ keyring) then Err FORBIDDEN else Err UNAUTHORIZED
    | None => Err UNAUTHORIZED
    end.
Proof. apply auth_middleware_eq. Qed.

(** ** The whole stack *)

Definition with_proxy (h : Handlers) (p : Request → Response) : Handlers :=
  {| h_proxy := p; h_update_rules := h_update_rules h; h_metrics := h_metrics h;
     h_attestation := h_attestation h; h_fallback := h_fallback h |}.

Definition with_admin (h : Handlers) (u m : Request → Response) : Handlers :=
  {| h_proxy := h_proxy h; h_update_rules := u; h_metrics := m;
     h_attestation := h_attestation h; h_fallback := h_fallback h |}.

(** The stack depends on the routes only. *)
Lemma make_router_ext st h h' req :
  (∀ body, routes st h (set_body req body) = routes st h' (set_body req body)) →
  make_router st h req = make_router st h' req.
Proof.
  intros H. unfold make_router, cors_middleware.
  assert (enforce_body_limit req (routes st h) = enforce_body_limit req (routes st h')) as ->;
    [|done].
  unfold enforce_body_limit. by rewrite H.
Qed.

(** C16: Without a token whose digest is in the keyring, the proxy handler has no
    influence on the response: whatever it would do, the reply is the same. *)
Theorem proxy_gate st h p req :
  (∀ token, bearer_token req = Some token → blake3_hash token ∉ auth_keyring st) →
  make_router st h req = make_router st (with_proxy h p) req.
Proof.
  intros Hk. apply make_router_ext. intros body. unfold routes. cbn [rq_path set_body].
  repeat (case_bool_decide; [try done|]); try done.
  rewrite !require_auth_eq. change (bearer_token (set_body req body)) with (bearer_token req).
  destruct (bearer_token req) as [token|]; [|done].
  by rewrite bool_decide_false by (by apply Hk).
Qed.

(** C17: Without the admin token, the admin handlers have no influence on the
    response: no client key, and no request without a token, can change the rules
    or read the metrics. *)
Theorem admin_gate st h u m req :
  (∀ token, bearer_token req = Some token → blake3_hash token ≠ admin_bearer_token_hash st) →
  make_router st h req = make_router st (with_admin h u m) req.
Proof.
  intros Hk. apply make_router_ext. intros body. unfold routes. cbn [rq_path set_body].
  repeat (case_bool_decide; [try done|]); try done;
    (destruct (is_post _) || destruct (is_get _)); try done;
    rewrite !auth_middleware_eq;
    change (bearer_token (set_body req body)) with (bearer_token req);
    (destruct (bearer_token req) as [token|]; [|done]);
    by rewrite !(decide_False (P := blake3_hash token = _)) by (by apply Hk).
Qed.

(** The origin a request names is acceptable. *)
Definition origin_ok (allowed : list bytes) (req : Request) : Prop :=
  match header_str (bstr "origin") (rq_headers req) with Some o => o ∈ allowed | None => True end.

Definition declared_ok (req : Request) : Prop :=
  match s ← header_str (bstr "content-length") (rq_headers req); parse_unsigned usize_max s with
  | Some n => n ≤ MAX_BODY_SIZE | None => True end.

Lemma existsb_origin o (allowed : list bytes) :
  existsb (λ a, bool_decide (a = o)) allowed = bool_decide (o ∈ allowed).
Proof.
  apply eq_bool_prop_intro. rewrite Is_true_true, existsb_exists, bool_decide_spec. split.
  - intros (x & Hx & E). apply bool_decide_eq_true in E as <-. by apply list_elem_of_In.
  - intros H. exists o. split; [by apply list_elem_of_In|]. by apply bool_decide_eq_true.
Qed.

(** A request of a known client to the chat endpoint reaches the proxy
    handler, tagged with its tenant and with its body limited, and the response is
    the handler's with the cross-origin headers set. *)
Theorem proxy_reached st h req token :
  rq_path req = bstr "/v1/chat/completions" → rq_method req = bstr "POST" →
  bearer_token req = Some token → blake3_hash token ∈ auth_keyring st →
  origin_ok (allowed_origins st) req → declared_ok req →
  let resp := h_proxy h (set_tenant (set_body req (limited_stream 0 (rq_body req)))
                (blake3_hash token)) in
  make_router st h req =
    set_headers resp (cors_headers (header_str (bstr "origin") (rq_headers req))
      (rs_headers resp)).
Proof.
  intros Hp Hm Ht Hk Ho Hd resp. unfold make_router, cors_middleware, enforce_body_limit.
  unfold origin_ok in Ho. unfold declared_ok in Hd. rewrite Hm.
  rewrite (bool_decide_false (bstr "POST" = bstr "OPTIONS")) by done.
  assert (routes st h (set_body req (limited_stream 0 (rq_body req))) = resp) as Hr.
  { unfold routes. cbn [rq_path set_body]. rewrite Hp.
    rewrite bool_decide_false by done. rewrite bool_decide_true by done.
    rewrite require_auth_eq.
    change (bearer_token (set_body req _)) with (bearer_token req). rewrite Ht.
    rewrite bool_decide_true by done. unfold is_post. cbn [rq_method set_body set_tenant].
    by rewrite Hm, bool_decide_true by done. }
  assert (match s ← header_str (bstr "content-length") (rq_headers req);
            parse_unsigned usize_max s with
          | Some length => MAX_BODY_SIZE <? length | None => false end = false) as El.
  { destruct (_ ≫= _); [by apply Z.ltb_ge|done]. }
  rewrite El. cbn [into_response]. rewrite Hr.
  destruct (header_str (bstr "origin") (rq_headers req)) as [o|].
  - by rewrite existsb_origin, (bool_decide_true (o ∈ allowed_origins st)), andb_false_r by done.
  - rewrite (bool_decide_false (is_Some None)) by (by intros []). done.
Qed.

(** C32: A request whose origin header is text and not configured is refused with 403
    before any handler sees it; and a response names an allowed origin only if it
    is the request's own origin and a configured one (unless the handler itself
    set the header). *)
Theorem origins_enforced st h req :
  match header_str (bstr "origin") (rq_headers req) with
  | Some o =>
      (o ∉ allowed_origins st → make_router st h req = empty_response FORBIDDEN)
  | None => True
  end ∧
  ∀ v, header_get (bstr "access-control-allow-origin") (rs_headers (make_router st h req)) = Some v →
    (∀ req, header_get (bstr "access-control-allow-origin")
              (rs_headers (routes st h req)) = None) →
    header_str (bstr "origin") (rq_headers req) = Some v ∧ v ∈ allowed_origins st.
Proof.
  unfold make_router, cors_middleware. split.
  - destruct (header_str (bstr "origin") (rq_headers req)) as [o|]; [|done]. intros Ho.
    by rewrite existsb_origin, (bool_decide_false (o ∈ allowed_origins st)) by done.
  - intros v Hv Hh.
    set (ao := match header_str (bstr "origin") (rq_headers req) with Some _ => _ | None => _ end) in Hv.
    assert (∀ hs, header_get (bstr "access-control-allow-origin") hs = None →
      header_get (bstr "access-control-allow-origin") (cors_headers ao hs) = Some v →
      ao = Some v) as Hc.
    { intros hs Hn. unfold cors_headers. rewrite !header_get_insert.
      rewrite !decide_False by done. destruct ao as [o|]; [|by rewrite Hn].
      destruct (header_from_str o) as [w|] eqn:Ew; [|by rewrite Hn].
      rewrite header_get_insert, decide_True by done. intros [= <-].
      by rewrite (header_from_str_bytes _ _ Ew). }
    assert (ao = Some v) as Hao.
    { destruct (_ && _) in Hv; [done|]. destruct (bool_decide _) in Hv; cbn in Hv.
      - by apply (Hc []).
      - eapply Hc; [|exact Hv]. unfold enforce_body_limit.
        match goal with |- context [if ?c then Err _ else _] => destruct c end; [done|apply Hh]. }
    unfold ao in Hao. destruct (header_str _ _) as [o|]; [|done].
    rewrite existsb_origin in Hao. case_bool_decide; [|done]. by injection Hao as <-.
Qed.

End Gates.

(** ** Concrete requests *)

Module AsciiHeaders.

Definition printable (b : Byte.byte) : bool := in_range 32 126 b || is_byte "009"%byte b.

#[export] Instance ascii_headers : HeaderApi := {|
  header_to_str v := if forallb printable v then Some v else None;
  header_from_str s := if forallb printable s then Some s else None
|}.

#[export] Instance ascii_header_laws : HeaderLaws.
Proof.
  split; cbn.
  - intros v s. destruct (forallb printable v); congruence.
  - intros v s. destruct (forallb printable v); congruence.
  - intros v Hv. assert (forallb printable v = true) as ->; [|done].
    apply forallb_forall. intros b Hb. rewrite Forall_forall in Hv.
    unfold printable. by rewrite (Hv b) by (by apply list_elem_of_In).
Qed.

End AsciiHeaders.
Import (hints) AsciiHeaders Transparent.

Module HttpDemo.

Definition state : RouterState := {|
  auth_keyring := [bstr "client-key"]; admin_bearer_token_hash := bstr "admin-key";
  allowed_origins := [bstr "https://app.example"]
|}.

(** Handlers that say which of them answered. *)
Definition reply (status : Z) (_ : Request) : Response :=
  {| rs_status := status; rs_headers := []; rs_body := Full [] |}.
Definition handlers : Handlers := {|
  h_proxy := reply 201; h_update_rules := reply 202; h_metrics := reply 203;
  h_attestation := reply 204; h_fallback := reply 404
|}.

Definition request (path token : bytes) : Request := {|
  rq_method := bstr "POST"; rq_path := path;
  rq_headers := [(bstr "authorization", bstr "Bearer " ++ token);
                 (bstr "origin", bstr "https://app.example")];
  rq_tenant := None; rq_body := [Ok (bstr "{}")]
|}.

End HttpDemo.
Import HttpDemo.

Lemma proxy_gate_witness :
  rs_status (make_router state handlers (request (bstr "/v1/chat/completions") (bstr "no-key"))) = 401 ∧
  make_router state handlers (request (bstr "/v1/chat/completions") (bstr "no-key")) =
    make_router state (with_proxy handlers (reply 299))
      (request (bstr "/v1/chat/completions") (bstr "no-key")).
Proof.
  split; [by_vm|].
  apply (proxy_gate state handlers (reply 299)
           (request (bstr "/v1/chat/completions") (bstr "no-key"))).
  intros token H. assert (bearer_token (request (bstr "/v1/chat/completions") (bstr "no-key"))
    = Some (bstr "no-key")) as E by by_vm.
  rewrite E in H. injection H as <-. apply (bool_decide_unpack _). vm_compute. exact I.
Defined.

Lemma admin_gate_witness :
  rs_status (make_router state handlers (request (bstr "/_admin/rules") (bstr "client-key"))) = 403 ∧
  make_router state handlers (request (bstr "/_admin/rules") (bstr "client-key")) =
    make_router state (with_admin handlers (reply 298) (reply 299))
      (request (bstr "/_admin/rules") (bstr "client-key")).
Proof.
  split; [by_vm|].
  apply (admin_gate state handlers (reply 298) (reply 299)
           (request (bstr "/_admin/rules") (bstr "client-key"))).
  intros token H. assert (bearer_token (request (bstr "/_admin/rules") (bstr "client-key"))
    = Some (bstr "client-key")) as E by by_vm.
  rewrite E in H. injection H as <-. discriminate.
Defined.

Lemma proxy_reached_witness :
  rs_status (make_router state handlers
    (request (bstr "/v1/chat/completions") (bstr "client-key"))) = 201.
Proof.
  rewrite (proxy_reached state handlers (request (bstr "/v1/chat/completions") (bstr "client-key"))
             (bstr "client-key")).
  - reflexivity.
  - reflexivity.
  - reflexivity.
  - by_vm.
  - apply (bool_decide_unpack _). vm_compute. exact I.
  - assert (header_str (bstr "origin")
      (rq_headers (request (bstr "/v1/chat/completions") (bstr "client-key")))
      = Some (bstr "https://app.example")) as E by by_vm.
    unfold origin_ok. rewrite E. apply (bool_decide_unpack _). vm_compute. exact I.
  - exact I.
Defined.

Lemma origins_enforced_witness :
  header_str (bstr "origin")
    (rq_headers (request (bstr "/v1/chat/completions") (bstr "client-key"))) =
    Some (bstr "https://app.example") ∧
  bstr "https://app.example" ∈ allowed_origins state.
Proof.
  apply (origins_enforced state handlers (request (bstr "/v1/chat/completions") (bstr "client-key"))).
  - by_vm.
  - intros req. unfold routes, require_auth, auth_middleware.
    repeat (match goal with |- context [if ?c then _ else _] => destruct c end); try reflexivity;
      repeat (case_match; try reflexivity).
Defined.
