(* ===== verification/Endpoints.v ===== *)
(** * The attestation and rule endpoints ([src/lib.rs], [src/attestation.rs])

    [attestation_endpoint] is the handler [attestation_document] of [lib.rs]; the
    document comes from the enclave's security module (the [nitro] feature, a
    parameter) or from the local mock, a CBOR map whose encoder ([ciborium]) is a
    parameter.  [update_rules] compiles new rules and swaps them in.  [admin_metrics]
    and [make_metrics_router] are the metrics port. *)

From S2P Require Import Prelude Utf8 AhoCorasick Externals Engine EngineBoundary Http.
Local Open Scope Z_scope.

Definition ATTESTATION_NONCE_LEN : nat := 32.

(** [Err] stands for the message about the length. *)
Definition validate_nonce (nonce : option bytes) : Result bytes unit :=
  match nonce with
  | Some nonce =>
    if negb (length nonce =? ATTESTATION_NONCE_LEN)%nat
    then Err (bstr "attestation nonce must be exactly 32 bytes") else Ok tt
  | None => Ok tt
  end.

(** The values of the mock's map: texts, byte strings and an empty array; its keys
    are texts. *)
Inductive CborValue := CText (t : bytes) | CBytes (b : bytes) | CEmptyArray.
Abbreviation CborMap := (list (bytes * CborValue)).

Class CborApi := { cbor_encode : CborMap → option bytes }.
Class CborLaws `{!CborApi} := {
  cbor_encode_inj v w x : cbor_encode v = Some x → cbor_encode w = Some x → v = w
}.

Definition mock_document (public_key nonce pcr0 : bytes) : CborMap :=
  [(bstr "format", CText (bstr "local-mock-not-nitro"));
   (bstr "user_data", CBytes public_key);
   (bstr "public_key", CBytes public_key);
   (bstr "nonce", CBytes nonce);
   (bstr "pcr0", CText pcr0);
   (bstr "certificate", CBytes []);
   (bstr "cabundle", CEmptyArray)].

Section Endpoints.
Context {ac_api : AhoCorasickApi} {b3_api : Blake3Api} {sig_api : Ed25519Api}
  {enc_api : EncodingApi} {json_api : SerdeJsonApi} {cbor_api : CborApi}.

(** With the [nitro] feature: the module gets the nonce and the key. *)
Definition attestation_document_nitro (nsm : option bytes → bytes → Result bytes bytes)
    (public_key : bytes) (nonce : option bytes) : Result bytes bytes :=
  match validate_nonce nonce with
  | Err e => Err e
  | Ok _ => nsm nonce public_key
  end.

(** Without it; [None] is the panic when [MOCK_PCR0] is not set. *)
Definition attestation_document_mock (mock_pcr0 : option bytes) (public_key : bytes)
    (nonce : option bytes) : option (Result bytes bytes) :=
  match validate_nonce nonce with
  | Err e => Some (Err e)
  | Ok _ =>
    pcr0 ← mock_pcr0;
    Some match cbor_encode (mock_document public_key (default [] nonce) pcr0) with
         | Some encoded => Ok encoded
         | None => Err (bstr "failed to encode mock attestation")
         end
  end.

(** The handler: the reply's status and body. *)
Definition attestation_endpoint (document : bytes → option bytes → Result bytes bytes)
    (proxy_private_key : SigningKey) (query_nonce : option bytes) : Z * bytes :=
  match query_nonce with
  | None => (BAD_REQUEST, bstr "nonce query parameter is required")
  | Some encoded_nonce =>
    match (match hex_decode encoded_nonce with
           | Some n => Some n
           | None => b64_decode encoded_nonce
           end) with
    | None => (BAD_REQUEST, bstr "nonce must be hex or standard base64")
    | Some nonce =>
      if negb (length nonce =? 32)%nat
      then (BAD_REQUEST, bstr "nonce must decode to exactly 32 bytes")
      else match document (vk_as_bytes (verifying_key proxy_private_key)) (Some nonce) with
           | Err error => (BAD_GATEWAY, error)
           | Ok document => (StatusCode_OK, b64_encode document)
           end
    end
  end.

(** The reply and the rules in force after it; a panic of the compiler task is
    caught by its handle. *)
Definition update_rules (engine_state : EngineState) (patterns : list bytes) : Z * EngineState :=
  match patterns with
  | [] => (BAD_REQUEST, engine_state)
  | _ =>
    match EngineState_new patterns ((λ _, bstr "[REDACTED]") <$> patterns) with
    | None => (INTERNAL_SERVER_ERROR, engine_state)
    | Some compiled => (StatusCode_OK, compiled)
    end
  end.

(** ** Metrics *)

(** [metrics_handle.render()]. *)
Definition admin_metrics (rendered : bytes) : Response :=
  {| rs_status := StatusCode_OK; rs_headers := []; rs_body := Full rendered |}.

(** The router of the metrics port; [fallback] is axum's own reply. *)
Definition make_metrics_router (rendered : bytes) (fallback : Request → Response) (req : Request)
    : Response :=
  if bool_decide (rq_path req = bstr "/health") then
    if is_get req
    then {| rs_status := StatusCode_OK; rs_headers := []; rs_body := Full (bstr "ok") |}
    else fallback req
  else if bool_decide (rq_path req = bstr "/metrics") then
    if is_get req
    then {| rs_status := StatusCode_OK; rs_headers := []; rs_body := Full rendered |}
    else fallback req
  else fallback req.

(** ** Correctness *)

(** C34: The endpoint vouches only for a fresh nonce: it replies with a document
    exactly when the query carries 32 bytes in hexadecimal or Base64 and the
    document is then issued for exactly these bytes and the proxy's public key;
    without that the module is not asked at all. *)
Theorem attestation_fresh {enc_laws : EncodingLaws} document key query body :
  attestation_endpoint document key query = (StatusCode_OK, body) ↔
    ∃ encoded nonce doc,
      query = Some encoded ∧
      (hex_decode encoded = Some nonce ∨
       hex_decode encoded = None ∧ b64_decode encoded = Some nonce) ∧
      length nonce = 32%nat ∧
      document (vk_as_bytes (verifying_key key)) (Some nonce) = Ok doc ∧
      b64_decode body = Some doc ∧ body = b64_encode doc.
Proof.
  unfold attestation_endpoint. split.
  - destruct query as [encoded|]; [|done].
    destruct (match hex_decode encoded with Some n => _ | None => _ end) as [nonce|] eqn:En; [|done].
    destruct (Nat.eqb_spec (length nonce) 32) as [Hl|]; cbn [negb]; [|done].
    destruct (document _ _) as [doc|e] eqn:Ed; [|done]. intros [= <-].
    exists encoded, nonce, doc. rewrite b64_decode_encode. split_and!; try done.
    destruct (hex_decode encoded); [left; congruence|by right].
  - intros (encoded & nonce & doc & -> & Hn & Hl & Hd & _ & ->).
    assert (match hex_decode encoded with Some n => Some n | None => b64_decode encoded end
            = Some nonce) as -> by (by destruct Hn as [->|[-> ->]]).
    rewrite (proj2 (Nat.eqb_eq _ _) Hl). cbn [negb]. by rewrite Hd.
Qed.

(** A mock document, if two parties obtain the same one, was made for the
    same key and the same nonce: it cannot be replayed for another challenge. *)
Theorem mock_document_binding {cbor_laws : CborLaws} pcr0 key nonce key' nonce' doc :
  attestation_document_mock pcr0 key (Some nonce) = Some (Ok doc) →
  attestation_document_mock pcr0 key' (Some nonce') = Some (Ok doc) →
  key = key' ∧ nonce = nonce' ∧ length nonce = ATTESTATION_NONCE_LEN.
Proof.
  unfold attestation_document_mock, validate_nonce.
  destruct (Nat.eqb_spec (length nonce) ATTESTATION_NONCE_LEN) as [Hl|]; cbn [negb]; [|done].
  destruct (Nat.eqb_spec (length nonce') ATTESTATION_NONCE_LEN); cbn [negb]; [|done].
  destruct pcr0 as [p|]; cbn [mbind option_bind]; [|done].
  destruct (cbor_encode (mock_document key _ p)) as [x|] eqn:E1; [|done].
  destruct (cbor_encode (mock_document key' _ p)) as [y|] eqn:E2; [|done].
  intros [= ->] [= ->]. pose proof (cbor_encode_inj _ _ _ E1 E2) as E.
  unfold mock_document in E. cbn [default] in E. by simplify_eq.
Qed.

(** New rules take effect only as a whole: an empty list and rules that cannot
    be compiled leave the rules in force untouched; otherwise exactly the given
    patterns are in force, each with the standard mask, and non-empty patterns
    give a well-formed engine. *)
Theorem update_rules_spec {ac_laws : AhoCorasickLaws} engine patterns :
  let '(status, engine') := update_rules engine patterns in
  (status = StatusCode_OK ∧ patterns ≠ [] ∧ es_patterns engine' = patterns ∧
   es_replacement_strings engine' = replicate (length patterns) (bstr "[REDACTED]") ∧
   (Forall (λ p, p ≠ [] ∧ valid_utf8 p = true) patterns → engine_wf engine')) ∨
  (engine' = engine ∧
   (status = BAD_REQUEST ∧ patterns = [] ∨
    status = INTERNAL_SERVER_ERROR ∧ build_redaction_dfa patterns = None)).
Proof.
  unfold update_rules. destruct patterns as [|p ps]; [by right; auto|].
  assert ((λ _ : bytes, bstr "[REDACTED]") <$> (p :: ps)
          = replicate (length (p :: ps)) (bstr "[REDACTED]")) as ->.
  { generalize (p :: ps). intros l. induction l as [|x l IH]; [done|]. cbn -[bstr]. by f_equal. }
  destruct (EngineState_new (p :: ps) _) as [engine'|] eqn:En.
  - left. assert (es_patterns engine' = p :: ps ∧
      es_replacement_strings engine' = replicate (length (p :: ps)) (bstr "[REDACTED]")) as [? ?].
    { unfold EngineState_new in En. destruct (build_redaction_dfa _); [|done].
      by injection En as <-. }
    split_and!; try done. intros Hp.
    apply (EngineState_new_wf _ _ _ En). unfold rules_ok. apply andb_true_iff. split.
    + apply forallb_forall. intros q Hq%list_elem_of_In. rewrite Forall_forall in Hp.
      destruct (Hp q Hq) as [Hne ->]. by rewrite bool_decide_false.
    + rewrite length_replicate. by apply Nat.leb_le.
  - right. split; [done|]. right. split; [done|]. unfold EngineState_new in En.
    by destruct (build_redaction_dfa (p :: ps)).
Qed.

End Endpoints.

(** ** Concrete replies *)

Import NaiveSearch Transparent.

Module EndpointDemo.

Lemma pack_inj_eq l k : pack l = pack k → l = k.
Proof.
  intros E. assert (pack l ++ [] = pack k ++ []) as [? _]%pack_inj by (by rewrite E). done.
Qed.

(** Distinct tags keep the fields of the map apart. *)
Definition encode_field (kv : bytes * CborValue) : bytes :=
  pack (kv.1 :: match kv.2 with
                | CText t => [bstr "t"; t] | CBytes b => [bstr "b"; b] | CEmptyArray => [bstr "a"]
                end).

#[export] Instance cbor : CborApi := {| cbor_encode m := Some (pack (encode_field <$> m)) |}.

#[global] Instance encode_field_inj : Inj (=) (=) encode_field.
Proof.
  intros [k a] [k' a'] E%pack_inj_eq. cbn [fst snd] in E. destruct a, a'; by simplify_eq.
Qed.

#[export] Instance cbor_laws : CborLaws.
Proof.
  split. intros v w x [= <-] E. injection E as E%pack_inj_eq. by apply (inj _) in E.
Qed.

Definition key : @SigningKey Transparent.ed25519 := bstr "key".
Definition nonce : bytes := replicate 32 "x"%byte.

End EndpointDemo.
Import EndpointDemo.

Lemma attestation_fresh_witness :
  ∃ encoded n doc, Some nonce = Some encoded ∧
    (hex_decode encoded = Some n ∨ hex_decode encoded = None ∧ b64_decode encoded = Some n) ∧
    length n = 32%nat ∧ doc = bstr "doc".
Proof.
  assert (attestation_endpoint (λ _ _, Ok (bstr "doc")) key (Some nonce)
          = (StatusCode_OK, bstr "doc")) as E by by_vm.
  destruct (proj1 (attestation_fresh (λ _ _, Ok (bstr "doc")) key (Some nonce) (bstr "doc")) E)
    as (e & n & doc & H1 & H2 & H3 & H4 & _).
  exists e, n, doc. injection H4 as <-. exact (conj H1 (conj H2 (conj H3 eq_refl))).
Defined.

Lemma mock_document_binding_witness :
  ∃ doc, attestation_document_mock (Some (bstr "pcr0")) (bstr "key") (Some nonce) = Some (Ok doc) ∧
    length nonce = ATTESTATION_NONCE_LEN.
Proof.
  destruct (attestation_document_mock (Some (bstr "pcr0")) (bstr "key") (Some nonce))
    as [[doc|e]|] eqn:E; [|discriminate E..].
  exists doc. split; [reflexivity|].
  apply (mock_document_binding (Some (bstr "pcr0")) (bstr "key") nonce (bstr "key") nonce doc E E).
Defined.

Lemma update_rules_spec_witness :
  let '(status, engine') := update_rules
    {| es_ac := [bstr "old"] : AhoCorasick; es_max_pattern_len := 3; es_patterns := [bstr "old"];
       es_replacements := [bstr "X"]; es_replacement_strings := [bstr "X"] |}
    [bstr "secret"; bstr "ssn"] in
  status = StatusCode_OK ∧ es_patterns engine' = [bstr "secret"; bstr "ssn"].
Proof.
  pose proof (update_rules_spec
    {| es_ac := [bstr "old"] : AhoCorasick; es_max_pattern_len := 3; es_patterns := [bstr "old"];
       es_replacements := [bstr "X"]; es_replacement_strings := [bstr "X"] |}
    [bstr "secret"; bstr "ssn"]) as H.
  destruct (update_rules _ _) as [status engine'].
  destruct H as [(H1 & _ & H2 & _)|(_ & [[_ H]|[_ H]])].
  - exact (conj H1 H2).
  - discriminate H.
  - discriminate H.
Defined.
