(* ===== verification/Proxy.v ===== *)
(** * The proxy handler ([proxy_with_upstream] of [src/lib.rs])

    The handler prepares the receipt's fields, is admitted by two semaphores,
    sends the request upstream and either replies at once or spawns the task
    that streams the redacted response.

    - [prepare], [admit_step], [send_failed], [terminal_error_response] and
      [start_stream] are the stages of the handler, in order;
    - [task_step] is one round of the task's [select!] loop and [finalize] what
      follows the loop; [run_task] is the task on a sequence of events, in the
      order in which [select!] takes them;
    - the task writes through [Sink], the interface of [enqueue_with_timeout];
      the byte-budgeted queue implements it.

    The request hasher is fed by the upload, which may still go on, also while
    the task waits for the client in the middle of an event: every event carries
    the states of the hasher and of the clock that its outputs meet in turn. *)

From S2P Require Import Prelude Utf8 AhoCorasick Externals Receipt DoneDetector BudgetQueue Engine Http.
Local Open Scope Z_scope.

(** ** Writing to the client *)

Class Sink (S : Type) := {
  sink_enqueue : S → bytes → Result EnqueueError unit * S;
  sink_delivered : S → bytes
}.

(** What the task relies on: a payload that was accepted is delivered after what
    came before; of one that was not, a prefix may be. *)
Class SinkLaws (S : Type) `{!Sink S} := {
  sink_accepted (s s' : S) b :
    sink_enqueue s b = (Ok tt, s') → sink_delivered s' = sink_delivered s ++ b;
  sink_refused (s s' : S) b e :
    sink_enqueue s b = (Err e, s') →
    ∃ p, p `prefix_of` b ∧ sink_delivered s' = sink_delivered s ++ p
}.

Section Writing.
Context {S : Type} {sink : Sink S}.

Definition terminal_frame (reason : bytes) : bytes :=
  bstr "data: {" ++ [dquote] ++ bstr "error" ++ [dquote] ++ bstr ": " ++ [dquote]
    ++ bstr "proxy_terminated" ++ [dquote] ++ bstr ", " ++ [dquote] ++ bstr "reason" ++ [dquote]
    ++ bstr ": " ++ [dquote] ++ reason ++ [dquote] ++ bstr "}" ++ [newline; newline].

Definition send_terminal_error (s : S) (reason : bytes) : S :=
  (sink_enqueue s (terminal_frame reason)).2.

(** The bytes an event puts on the wire. *)
Definition wire_bytes (e : StreamEvent) : bytes :=
  match e with Data b | AuditReceipt b | DoneMarker b => b end.

Fixpoint forward_stream_events (events : list StreamEvent) (s : S) : Result unit unit * S :=
  match events with
  | [] => (Ok tt, s)
  | event :: events =>
    match sink_enqueue s (wire_bytes event) with
    | (Ok _, s) => forward_stream_events events s
    | (Err _, s) => (Err tt, s)
    end
  end.

End Writing.

(** ** The streaming task *)

Section Task.
Context {S : Type} {sink : Sink S} {ac_api : AhoCorasickApi} {b3_api : Blake3Api}
  {sig_api : Ed25519Api} {enc_api : EncodingApi} {rj_api : ReceiptJsonApi}.

Record Task := {
  tk_is_sse : bool;
  tk_private_key : SigningKey;
  tk_redactor : StreamRedactor;
  tk_detector : DoneDetector;
  tk_hasher : Hasher
}.

Definition set_redactor (t : Task) (r : StreamRedactor) : Task :=
  {| tk_is_sse := tk_is_sse t; tk_private_key := tk_private_key t; tk_redactor := r;
     tk_detector := tk_detector t; tk_hasher := tk_hasher t |}.
Definition set_detector (t : Task) (d : DoneDetector) (h : Hasher) : Task :=
  {| tk_is_sse := tk_is_sse t; tk_private_key := tk_private_key t;
     tk_redactor := tk_redactor t; tk_detector := d; tk_hasher := h |}.

(** The clock and the request hasher when the task reads them. *)
Record Moment := { mo_now : Z; mo_request_hasher : Hasher }.

(** The moments at which the outputs of one event are inspected, in order: the
    task waits for the client between two of them. *)
Definition Moments : Type := nat → Moment.
Definition later (mos : Moments) : Moments := λ i, mos (1 + i)%nat.

Inductive TaskEvent :=
| EvClosed
| EvShutdown (value : bool)
| EvIdle
| EvItem (item : option (Result unit bytes)).

(** How the task ended: the client had gone, it gave up, or it ran to the end of
    the function, with whether upstream had reached the end of its stream. *)
Inductive TaskEnd := EndClosed | EndAborted | EndFinished (reached_eof : bool).

Inductive TaskState := Running (t : Task) | Ended (t : Task) (e : TaskEnd).

(** The reason a failed [enqueue] is reported with. *)
Definition enqueue_failure (e : EnqueueError) : bytes :=
  match e with
  | EnqueueBudget TenantLimitExceeded => bstr "tenant_limit_exceeded"
  | EnqueueBudget GlobalLimitExceeded => bstr "global_limit_exceeded"
  | _ => bstr "downstream_enqueue_failed"
  end.

(** The loop over the redactor's outputs, and the one after [finish], which
    reports nothing when a plain body cannot be queued ([report]).  [Err] leaves
    the task. *)
Fixpoint forward_outputs (report : bool) (t : Task) (mos : Moments) (outputs : list OutputSegment)
    (s : S) : option (Result unit Task * S) :=
  match outputs with
  | [] => Some (Ok t, s)
  | output :: outputs =>
    let bytes := segment_bytes output in
    if tk_is_sse t then
      '(events, d, h) ← inspect (tk_detector t) bytes (tk_private_key t) (tk_hasher t)
                          (mo_request_hasher (mos 0%nat)) (mo_now (mos 0%nat));
      match forward_stream_events events s with
      | (Ok _, s) => forward_outputs report (set_detector t d h) (later mos) outputs s
      | (Err _, s) => Some (Err tt, s)
      end
    else
      let h := hasher_update (tk_hasher t) bytes in
      match sink_enqueue s bytes with
      | (Ok _, s) => forward_outputs report (set_detector t (tk_detector t) h) mos outputs s
      | (Err e, s) =>
        Some (Err tt, if report then send_terminal_error s (enqueue_failure e) else s)
      end
  end.

(** What follows the loop. *)
Definition finalize (reached_eof : bool) (t : Task) (mos : Moments) (s : S)
    : option (TaskState * S) :=
  '(res, r) ← finish (tk_redactor t);
  let t := set_redactor t r in
  match res with
  | Err _ => Some (Ended t EndAborted, send_terminal_error s (bstr "redaction_finish_failed"))
  | Ok outputs =>
    '(res, s) ← forward_outputs false t mos outputs s;
    match res with
    | Err _ => Some (Ended t EndAborted, s)
    | Ok t =>
      if tk_is_sse t then
        let '(events, d, h) := DoneDetector_finish (tk_detector t) (tk_hasher t) in
        match forward_stream_events events s with
        | (Ok _, s) => Some (Ended (set_detector t d h) (EndFinished reached_eof), s)
        | (Err _, s) => Some (Ended t EndAborted, s)
        end
      else Some (Ended t (EndFinished reached_eof), s)
    end
  end.

(** A chunk from upstream. *)
Definition on_chunk (t : Task) (mos : Moments) (chunk : bytes) (s : S) : option (TaskState * S) :=
  '(res, r) ← push (tk_redactor t) chunk;
  let t := set_redactor t r in
  match res with
  | Err _ => Some (Ended t EndAborted, send_terminal_error s (bstr "redaction_failed"))
  | Ok outputs =>
    '(res, s) ← forward_outputs true t mos outputs s;
    match res with
    | Err _ => Some (Ended t EndAborted, s)
    | Ok t => Some (Running t, s)
    end
  end.

(** The shutdown signal. *)
Definition on_shutdown (t : Task) (mos : Moments) (s : S) : option (TaskState * S) :=
  '(events, d, h) ← shutdown_events (tk_detector t) (tk_private_key t) (tk_hasher t)
                      (mo_request_hasher (mos 0%nat)) (mo_now (mos 0%nat));
  let t := set_detector t d h in
  match forward_stream_events events s with
  | (Err _, s) => Some (Ended t EndAborted, s)
  | (Ok _, s) => finalize false t (later mos) s
  end.

Definition task_step (t : Task) (mos : Moments) (ev : TaskEvent) (s : S)
    : option (TaskState * S) :=
  match ev with
  | EvClosed => Some (Ended t EndClosed, s)
  | EvShutdown true => on_shutdown t mos s
  | EvShutdown false => Some (Running t, s)
  | EvIdle => Some (Ended t EndAborted, send_terminal_error s (bstr "upstream_idle_timeout"))
  | EvItem None => finalize true t mos s
  | EvItem (Some (Err _)) =>
    Some (Ended t EndAborted, send_terminal_error s (bstr "upstream_read_failed"))
  | EvItem (Some (Ok chunk)) => on_chunk t mos chunk s
  end.

Fixpoint run_task (t : Task) (events : list (Moments * TaskEvent)) (s : S)
    : option (TaskState * S) :=
  match events with
  | [] => Some (Running t, s)
  | (mos, ev) :: events =>
    '(st, s) ← task_step t mos ev s;
    match st with
    | Running t => run_task t events s
    | Ended t e => Some (Ended t e, s)
    end
  end.

End Task.

(** ** The handler *)

Definition MAX_ACTIVE_UPSTREAM_STREAMS : Z := 1000.
Definition OUTPUT_BYTE_BUDGET : Z := 2 * 1024 * 1024.

(** The environment variables the handler reads. *)
Record Env := { PCR0_HASH : option bytes; MOCK_PCR0 : option bytes }.

(** The shared semaphores and tables, and the counter of open event streams. *)
Record ProxyWorld `{!SemaphoreApi} := { pw_world : World; pw_active : Z }.

(** The part of [AppState] the handler uses, with the addresses of what is
    shared. *)
Record AppState `{!Ed25519Api} := {
  upstream_url : bytes;
  proxy_private_key : SigningKey;
  stream_limit : sem_id;
  global_memory : sem_id;
  tenant_budgets : table_id
}.

(** [serde_json::to_vec] of the reply to a failed request: its receipt and
    signature. *)
Class TerminalJsonApi := { json_terminal : AttestedReceipt → bytes → option bytes }.

Section Handler.
Context {hdr_api : HeaderApi} {sem_api : SemaphoreApi} {ac_api : AhoCorasickApi}
  {b3_api : Blake3Api} {sig_api : Ed25519Api} {enc_api : EncodingApi} {json_api : SerdeJsonApi}
  {rj_api : ReceiptJsonApi} {tj_api : TerminalJsonApi}.

Definition increment_active_sse_streams (pw : ProxyWorld) : ProxyWorld :=
  {| pw_world := pw_world pw; pw_active := (pw_active pw + 1) mod 2 ^ 64 |}.
Definition decrement_active_sse_streams (pw : ProxyWorld) : ProxyWorld :=
  {| pw_world := pw_world pw; pw_active := (pw_active pw - 1) mod 2 ^ 64 |}.

Record Prepared := {
  pp_request_id_header : option bytes;
  pp_request_id : bytes;
  pp_tenant_id : bytes;
  pp_content_type : option bytes;
  pp_policy_digest : bytes;
  pp_pcr0 : bytes
}.

(** Up to the first semaphore.  [ext_request_id] is the [RequestId] extension;
    [None] is the panic when no PCR0 is configured. *)
Definition prepare (env : Env) (engine : EngineState) (ext_request_id : option bytes)
    (req : Request) : option Prepared :=
  let request_id_header :=
    match ext_request_id with
    | Some id => Some id
    | None => header_get (bstr "x-request-id") (rq_headers req)
    end in
  let request_id := default (bstr "missing") (request_id_header ≫= header_to_str) in
  let tenant_id := default (replicate 32 "000"%byte) (rq_tenant req) in
  receipt_policy_digest ← policy_digest engine;
  receipt_pcr0 ← match PCR0_HASH env with Some v => Some v | None => MOCK_PCR0 env end;
  Some {| pp_request_id_header := request_id_header; pp_request_id := request_id;
          pp_tenant_id := tenant_id;
          pp_content_type := header_get (bstr "content-type") (rq_headers req);
          pp_policy_digest := receipt_policy_digest; pp_pcr0 := receipt_pcr0 |}.

(** The request body as it is sent: every chunk also goes into the hasher. *)
Definition upload (h : Hasher) (body : list (Result DynError bytes)) : Hasher :=
  foldl (λ h r, match r with Ok chunk => hasher_update h chunk | Err _ => h end) h body.

(** *** Admission *)

Inductive AdmitState :=
| WaitSlot
| WaitMemory (slot : Permit)
| AdmitDone (slot memory : Permit)
| Refused (r : Response).

Definition memory_exhausted : Response :=
  {| rs_status := SERVICE_UNAVAILABLE; rs_headers := [];
     rs_body := Full (bstr "proxy memory capacity exhausted") |}.

(** One poll of the two [acquire]s.  The stream limit is never closed. *)
Definition admit_step (st : AppState) (w : World) (a : AdmitState) : AdmitState * World :=
  match a with
  | WaitSlot =>
    match acquire w (stream_limit st) 1 with
    | Some (slot, w) => (WaitMemory slot, w)
    | None => (WaitSlot, w)
    end
  | WaitMemory slot =>
    match acquire w (global_memory st) GLOBAL_MEMORY_CHUNK with
    | Some (memory, w) => (AdmitDone slot memory, w)
    | None => (WaitMemory slot, w)
    end
  | a => (a, w)
  end.

(** The two seconds for the memory are over. *)
Definition admit_timeout (w : World) (a : AdmitState) : AdmitState * World :=
  match a with
  | WaitMemory slot => (Refused memory_exhausted, drop_permit w slot)
  | a => (a, w)
  end.

(** *** Sending upstream *)

Definition upstream_headers (p : Prepared) : Headers :=
  match pp_content_type p with Some v => [(bstr "content-type", v)] | None => [] end
  ++ match pp_request_id_header p with Some v => [(bstr "x-request-id", v)] | None => [] end.

Inductive SendResult :=
| Sent (status : Z) (headers : Headers)
| SendFailed (e : DynError)
| SendTimedOut.

(** The reply when nothing came back. *)
Definition send_failed (e : option DynError) : Response :=
  match e with
  | Some e => if contains_body_limit_error e then empty_response PAYLOAD_TOO_LARGE
              else empty_response BAD_GATEWAY
  | None => empty_response BAD_GATEWAY
  end.

Definition is_success (status : Z) : bool := (200 <=? status) && (status <? 300).

Definition terminal_fields (st : AppState) (p : Prepared) (request_hash : bytes)
    : ReceiptFields := {|
  rf_request_id := pp_request_id p; rf_tenant_id := hex_encode (pp_tenant_id p);
  rf_upstream_url := upstream_url st; rf_request_hash := request_hash;
  rf_policy_digest := pp_policy_digest p; rf_pcr0 := pp_pcr0 p;
  rf_response_hash := hex_encode (blake3_hash (bstr "TERMINAL_ERROR"))
|}.

(** The signed reply to an upstream error; [None] if it does not serialize. *)
Definition terminal_error_response (st : AppState) (p : Prepared) (request_hasher : Hasher)
    (now status : Z) (headers : Headers) : option Response :=
  let request_hash := hex_encode (hasher_finalize request_hasher) in
  let fields := terminal_fields st p request_hash in
  let signature := b64_encode (sign (proxy_private_key st) (canonical_receipt_digest fields)) in
  terminal_body ← json_terminal (attested_receipt fields now) signature;
  Some {| rs_status := status;
          rs_headers :=
            match header_get (bstr "retry-after") headers with
            | Some v => [(bstr "retry-after", v)] | None => []
            end ++ [(bstr "content-type", bstr "application/json");
                    (bstr "x-redaction-digest", hex_encode (blake3_hash terminal_body))];
          rs_body := Full terminal_body |}.

(** *** Streaming *)

Definition is_event_stream (content_type : option bytes) : bool :=
  match content_type ≫= header_to_str with
  | Some value => contains (fold_case value) (bstr "text/event-stream")
  | None => false
  end.

(** What the handler returns: a reply, or a streaming response with the task it
    has spawned, its budget and channel, and the permits the task owns. *)
Inductive Outcome :=
| Replied (r : Response)
| Spawned (r : Response) (t : Task) (b : ByteBudget) (ch : Channel) (slot memory : Permit).

Definition stream_response (content_type : option bytes) : Response :=
  {| rs_status := StatusCode_OK;
     rs_headers := match content_type with Some v => [(bstr "content-type", v)] | None => [] end;
     rs_body := Streaming |}.

(** [engine] is what the cell holds at this point.  [None] is a panic. *)
Definition start_stream (st : AppState) (p : Prepared) (engine : EngineState)
    (headers : Headers) (slot memory : Permit) (pw : ProxyWorld) : option (Outcome * ProxyWorld) :=
  let content_type := header_get (bstr "content-type") headers in
  let is_sse := is_event_stream content_type in
  let pw := if is_sse then increment_active_sse_streams pw else pw in
  ch ← channel 32;
  '(b, w) ← ByteBudget_with_tenant (pw_world pw) (pp_tenant_id p) (tenant_budgets st)
              (global_memory st) OUTPUT_BYTE_BUDGET;
  redactor ← from_state engine;
  let t := {| tk_is_sse := is_sse; tk_private_key := proxy_private_key st;
              tk_redactor := redactor;
              tk_detector := DoneDetector_new (pp_request_id p) (hex_encode (pp_tenant_id p))
                               (upstream_url st) (pp_policy_digest p) (pp_pcr0 p);
              tk_hasher := hasher_new |} in
  Some (Spawned (stream_response content_type) t b ch slot memory,
        {| pw_world := w; pw_active := pw_active pw |}).

(** From the result of the request on; every early return drops the permits. *)
Definition after_send (st : AppState) (p : Prepared) (engine : EngineState)
    (request_hasher : Hasher) (now : Z) (slot memory : Permit) (pw : ProxyWorld)
    (res : SendResult) : option (Outcome * ProxyWorld) :=
  let released :=
    {| pw_world := drop_permit (drop_permit (pw_world pw) memory) slot;
       pw_active := pw_active pw |} in
  match res with
  | SendFailed e => Some (Replied (send_failed (Some e)), released)
  | SendTimedOut => Some (Replied (send_failed None), released)
  | Sent status headers =>
    if negb (is_success status) then
      r ← terminal_error_response st p request_hasher now status headers;
      Some (Replied r, released)
    else start_stream st p engine headers slot memory pw
  end.

(** When the task is over its locals are dropped: the permits, then the guard. *)
Definition task_cleanup (t : Task) (slot memory : Permit) (pw : ProxyWorld) : ProxyWorld :=
  let pw := {| pw_world := drop_permit (drop_permit (pw_world pw) memory) slot;
               pw_active := pw_active pw |} in
  if tk_is_sse t then decrement_active_sse_streams pw else pw.

End Handler.
