(* ===== verification/ProxyProofs.v ===== *)
(** * Correctness of the streaming task

    Everything the task writes is redacted text in order, at most one receipt and
    at most one terminal error, whatever upstream, the client, the queue and the
    shutdown signal do; and a run to the end of the upstream response delivers
    the one-shot redaction of the whole response. *)

From S2P Require Import Prelude Utf8 AhoCorasick Externals Receipt DoneDetector DoneDetectorProofs BudgetQueue Matching Engine EngineBoundary EngineProofs EngineTheorems Http Proxy.
Local Open Scope Z_scope.

(** ** Logs *)

(** What a list of events puts on the wire; the part of it that is response text;
    the receipts in it. *)
Definition wire (log : list StreamEvent) : bytes := concat (wire_bytes <$> log).

Definition payload_bytes (e : StreamEvent) : bytes :=
  match e with
  | Data b => b
  | AuditReceipt _ => []
  | DoneMarker b => if decide (b = shutdown_marker) then [] else b
  end.
Definition payload (log : list StreamEvent) : bytes := concat (payload_bytes <$> log).

Definition is_receipt (e : StreamEvent) : bool :=
  match e with AuditReceipt _ => true | _ => false end.
Definition receipts (log : list StreamEvent) : nat := length (List.filter is_receipt log).

Lemma wire_app a b : wire (a ++ b) = wire a ++ wire b.
Proof. unfold wire. by rewrite fmap_app, concat_app. Qed.
Lemma payload_app a b : payload (a ++ b) = payload a ++ payload b.
Proof. unfold payload. by rewrite fmap_app, concat_app. Qed.
Lemma receipts_app a b : receipts (a ++ b) = (receipts a + receipts b)%nat.
Proof. unfold receipts. by rewrite List.filter_app, length_app. Qed.
Lemma payload_data l : payload (Data <$> l) = concat l.
Proof. unfold payload. induction l as [|b l IH]; cbn in *; [done|]. by rewrite IH. Qed.
Lemma receipts_data l : receipts (Data <$> l) = 0%nat.
Proof. unfold receipts. induction l; done. Qed.

Section Proofs.
Context {S : Type} {sink : Sink S} {sink_laws : SinkLaws S}
  {ac_api : AhoCorasickApi} {ac_laws : AhoCorasickLaws}
  {b3_api : Blake3Api} {b3_laws : Blake3Laws} {sig_api : Ed25519Api} {enc_api : EncodingApi}
  {json_api : SerdeJsonApi} {rj_api : ReceiptJsonApi} {rj_laws : ReceiptJsonLaws}.

(** ** Genuine receipts *)

Section Genuine.

(** The identity of a stream: its detector, the key, and the moments of its
    events. *)
Context (d0 : DoneDetector) (key0 : SigningKey) (good : Moment → Prop).

(** A detector with the same identity issues the same receipts. *)
Definition same_ids (d : DoneDetector) : Prop :=
  ∀ rh ph, receipt_fields d rh ph = receipt_fields d0 rh ph.

(** A receipt is signed with the key, over the identity and the request hash at
    the moment it was issued. *)
Definition genuine (e : StreamEvent) : Prop :=
  match e with
  | AuditReceipt a => ∃ mo ph, good mo ∧
      audit_frame (receipt_fields d0 (hex_encode (hasher_finalize (mo_request_hasher mo)))
        (hex_encode (hasher_finalize ph))) key0 (mo_now mo) = Some a
  | _ => True
  end.

Lemma genuine_data l : Forall genuine (Data <$> l).
Proof. induction l; by constructor. Qed.

(** [s'] has delivered the whole log; or a prefix of it, perhaps followed by
    (part of) a terminal error. *)
Definition complete (s s' : S) (log : list StreamEvent) : Prop :=
  sink_delivered s' = sink_delivered s ++ wire log ∧ Forall genuine log.

Definition partial (s s' : S) (log : list StreamEvent) : Prop :=
  ∃ x y, sink_delivered s' = sink_delivered s ++ x ++ y ∧ x `prefix_of` wire log ∧
    (y = [] ∨ ∃ reason, y `prefix_of` terminal_frame reason) ∧ Forall genuine log.

Lemma complete_nil s : complete s s [].
Proof. unfold complete. by rewrite app_nil_r. Qed.

Lemma complete_app s1 s2 s3 a b :
  complete s1 s2 a → complete s2 s3 b → complete s1 s3 (a ++ b).
Proof.
  unfold complete. intros [H1 G1] [H2 G2]. rewrite H2, H1, wire_app, app_assoc.
  split; [done|]. by apply Forall_app.
Qed.

Lemma complete_partial s s' log : complete s s' log → partial s s' log.
Proof. intros [H G]. exists (wire log), []. rewrite app_nil_r. eauto. Qed.

Lemma partial_app s1 s2 s3 a b :
  complete s1 s2 a → partial s2 s3 b → partial s1 s3 (a ++ b).
Proof.
  intros [H1 G1] (x & y & H & Hx & Hy & G2). exists (wire a ++ x), y.
  split_and!; [|by rewrite wire_app; apply prefix_app|done|by apply Forall_app].
  rewrite H, H1. by rewrite <-!app_assoc.
Qed.

Lemma partial_terminal s s' log reason x :
  sink_delivered s' = sink_delivered s ++ x → x `prefix_of` wire log → Forall genuine log →
  partial s (send_terminal_error s' reason) log.
Proof.
  intros H Hx G. unfold send_terminal_error.
  destruct (sink_enqueue s' (terminal_frame reason)) as [[[]|e] s2] eqn:E; cbn.
  - apply sink_accepted in E. exists x, (terminal_frame reason).
    rewrite E, H, <-app_assoc. split_and!; eauto.
  - apply sink_refused in E as (p & Hp & E). exists x, p. rewrite E, H, <-app_assoc.
    split_and!; eauto.
Qed.

Lemma terminal_only s reason : partial s (send_terminal_error s reason) [].
Proof. apply (partial_terminal s s [] reason []); [by rewrite app_nil_r|apply prefix_nil|done]. Qed.

Lemma forward_events_spec events s :
  Forall genuine events →
  match forward_stream_events events s with
  | (Ok _, s') => complete s s' events
  | (Err _, s') => ∃ x, x `prefix_of` wire events ∧ sink_delivered s' = sink_delivered s ++ x
  end.
Proof.
  revert s. induction events as [|e events IH]; intros s G; cbn [forward_stream_events].
  { apply complete_nil. }
  apply Forall_cons in G as [Ge G].
  destruct (sink_enqueue s (wire_bytes e)) as [[[]|er] s1] eqn:E.
  - apply sink_accepted in E. specialize (IH s1 G).
    destruct (forward_stream_events events s1) as [[[]|[]] s2].
    + unfold complete in *. destruct IH as [IH _]. rewrite IH, E. cbn. rewrite <-app_assoc.
      split; [done|by constructor].
    + destruct IH as (x & Hx & H). exists (wire_bytes e ++ x). rewrite H, E.
      split; [by apply prefix_app|by rewrite app_assoc].
  - apply sink_refused in E as (p & Hp & E). exists p. split; [|done]. cbn.
    by apply prefix_app_r.
Qed.

Lemma prefix_partial s s' log x :
  x `prefix_of` wire log → sink_delivered s' = sink_delivered s ++ x → Forall genuine log →
  partial s s' log.
Proof. intros Hx H G. exists x, []. rewrite app_nil_r. eauto. Qed.

(** ** The detector inside the task *)

(** It is still watching, or it has given its receipt and holds nothing; it keeps
    its identity. *)
Definition det_ok (d : DoneDetector) : Prop :=
  ((∃ seen, watching d seen) ∨ (dd_completed d = true ∧ dd_trailing d = [])) ∧ same_ids d.

(** How many receipts a detector has given. *)
Definition given (d : DoneDetector) : nat := if dd_completed d then 1 else 0.

Lemma marker_not_shutdown done : starts_with done SSE_DONE_MARKER = true → done ≠ shutdown_marker.
Proof. intros H ->. discriminate H. Qed.

Lemma receipt_log_facts pre frame done post :
  payload ((Data <$> pre) ++ [AuditReceipt frame; DoneMarker done] ++ (Data <$> post)) =
    concat pre ++ payload_bytes (DoneMarker done) ++ concat post ∧
  receipts ((Data <$> pre) ++ [AuditReceipt frame; DoneMarker done] ++ (Data <$> post)) = 1%nat.
Proof.
  rewrite !payload_app, !receipts_app, !payload_data, !receipts_data.
  split; [|done]. f_equal. unfold payload at 1. cbn. by rewrite app_nil_r.
Qed.

Lemma genuine_receipt_log d h f pre done post mo :
  same_ids d → good mo →
  audit_frame (receipt_fields d (hex_encode (hasher_finalize (mo_request_hasher mo)))
    (hex_encode (hasher_finalize h))) key0 (mo_now mo) = Some f →
  Forall genuine ((Data <$> pre) ++ [AuditReceipt f; DoneMarker done] ++ (Data <$> post)).
Proof.
  intros Hid Hmo Hf. rewrite Hid in Hf. rewrite !Forall_app. split; [apply genuine_data|].
  split; [|apply genuine_data]. constructor; [by exists mo, h|by repeat constructor].
Qed.

Lemma inspect_conserve d c h mo :
  det_ok d → good mo →
  ∃ events d' h', inspect d c key0 h (mo_request_hasher mo) (mo_now mo) = Some (events, d', h') ∧
    det_ok d' ∧ Forall genuine events ∧
    payload events ++ dd_trailing d' = dd_trailing d ++ c ∧
    (receipts events + given d)%nat = given d'.
Proof.
  intros [[[seen Hw]|[Hc Ht]] Hid] Hmo.
  - pose proof (inspect_watching d seen c key0 h (mo_request_hasher mo) (mo_now mo) Hw) as Hi.
    destruct (watching_trailing d seen c Hw) as [_ Hs].
    pose proof Hw as [Hcomp Htr _]. unfold given. rewrite Hcomp.
    destruct (contains (seen ++ c) SSE_DONE_MARKER).
    + destruct Hi as (evs & h' & pre & done & post & -> & [(l1 & l2 & f & -> & E1 & E2 & Ef) Hm] & Hsp & _).
      eexists _, _, _. split; [done|]. split; [split; [by right|done]|].
      split; [by apply (genuine_receipt_log d h' f l1 done l2 mo)|].
      destruct (receipt_log_facts l1 f done l2) as [-> ->]. cbn [dd_trailing set_completed set_trailing].
      split; [|done]. unfold payload_bytes. rewrite decide_False by (by apply marker_not_shutdown).
      rewrite E1, E2, app_nil_r. rewrite <-Hs in Hsp. by apply app_inv_head in Hsp.
    + destruct Hi as (l & h' & d' & -> & Hd' & Hw' & Hl & _).
      eexists _, _, _. split; [done|]. split; [split; [by left; eauto|by rewrite Hd']|].
      split; [apply genuine_data|].
      rewrite payload_data, receipts_data. destruct Hw' as [-> Ht' _]. split; [|done].
      apply (app_inv_head (but_last 11 seen)). rewrite app_assoc, Hl, Ht', Hs.
      apply but_last_last_n.
  - unfold inspect, given. rewrite Hc. eexists _, _, _. split; [done|].
    split; [split; [by right|done]|]. split; [by apply (genuine_data [c])|]. rewrite Ht, Hc. cbn. by rewrite !app_nil_r.
Qed.

Lemma shutdown_conserve d h mo :
  det_ok d → good mo →
  ∃ events d' h', shutdown_events d key0 h (mo_request_hasher mo) (mo_now mo) = Some (events, d', h') ∧
    det_ok d' ∧ Forall genuine events ∧
    payload events = dd_trailing d ∧ dd_trailing d' = [] ∧
    (receipts events + given d)%nat = given d'.
Proof.
  intros [Hd Hid] Hmo. unfold shutdown_events, given. destruct (dd_completed d) eqn:Ec.
  { destruct Hd as [[seen [Hf _ _]]|[_ Ht]]; [congruence|]. eexists _, _, _. split; [done|].
    rewrite Ht, Ec. split_and!; try done. split; [by right|done]. }
  set (h1 := if negb (is_empty (dd_trailing d)) then hasher_update h (dd_trailing d) else h).
  destruct (audit_frame_total (receipt_fields d (hex_encode (hasher_finalize (mo_request_hasher mo)))
    (hex_encode (hasher_finalize h1))) key0 (mo_now mo)) as [frame Hf].
  destruct (is_empty (dd_trailing d)) eqn:E; cbn in *; unfold receipt_events, receipt_fields in *;
    cbn in *; rewrite Hf; cbn; eexists _, _, _; (split; [done|]).
  - apply is_empty_spec in E. rewrite E. split_and!; try done; [split; [by right|done]|].
    by apply (genuine_receipt_log d h frame [] shutdown_marker [] mo).
  - split_and!; try done; [split; [by right|done]| |].
    + by apply (genuine_receipt_log d h1 frame [dd_trailing d] shutdown_marker [] mo).
    + unfold payload. cbn. by rewrite app_nil_r.
Qed.

(** ** The loops over the redactor's outputs *)

Record task_ok (t : Task) : Prop := {
  ok_redactor : redactor_wf (tk_redactor t);
  ok_detector : det_ok (tk_detector t);
  ok_key : tk_private_key t = key0;
  ok_plain : tk_is_sse t = false → dd_trailing (tk_detector t) = []
}.

Abbreviation trailing t := (dd_trailing (tk_detector t)).
Abbreviation given_by t := (given (tk_detector t)).

(** Only the detector and the digest have changed. *)
Definition same_task (t t' : Task) : Prop :=
  tk_is_sse t' = tk_is_sse t ∧ tk_redactor t' = tk_redactor t ∧
  tk_private_key t' = tk_private_key t.

Lemma given_le d : (given d ≤ 1)%nat.
Proof. unfold given. destruct (dd_completed d); lia. Qed.

(** What forwarding [text] after [t] ends with. *)
Definition forwarded (t : Task) (s : S) (text : bytes) (res : Result unit Task) (s' : S)
    (log : list StreamEvent) : Prop :=
  match res with
  | Ok t' => complete s s' log ∧ task_ok t' ∧ same_task t t' ∧
      payload log ++ trailing t' = trailing t ++ text ∧
      (receipts log + given_by t)%nat = given_by t'
  | Err _ => partial s s' log ∧ payload log `prefix_of` trailing t ++ text ∧
      (receipts log + given_by t ≤ 1)%nat
  end.

(** Forwarding goes on after a first part. *)
Lemma forwarded_after t t1 s s1 evs bs text res s' log :
  complete s s1 evs → same_task t t1 → payload evs ++ trailing t1 = trailing t ++ bs →
  (receipts evs + given_by t)%nat = given_by t1 →
  forwarded t1 s1 text res s' log → forwarded t s (bs ++ text) res s' (evs ++ log).
Proof.
  intros Hc (Hs1 & Hs2 & Hs3) Hp Hr. unfold forwarded. rewrite payload_app, receipts_app.
  destruct res as [t'|[]].
  - intros (H1 & H2 & (Ht1 & Ht2 & Ht3) & H4 & H5).
    split_and!; [by eapply complete_app|done|split_and!; congruence| |lia].
    rewrite <-app_assoc, H4, app_assoc, Hp. by rewrite <-app_assoc.
  - intros (H1 & H2 & H3). split_and!; [by eapply partial_app| |lia].
    rewrite app_assoc, <-Hp, <-app_assoc. by apply prefix_app.
Qed.

Lemma payload_one b : payload [Data b] = b.
Proof. unfold payload. cbn. by rewrite app_nil_r. Qed.

Lemma wire_data b : wire [Data b] = b.
Proof. unfold wire. cbn. by rewrite app_nil_r. Qed.

Definition good_at (mos : Moments) : Prop := ∀ i, good (mos i).

Lemma good_later mos : good_at mos → good_at (later mos).
Proof. intros H i. apply H. Qed.

Lemma forward_outputs_spec report outs : ∀ mos t s,
  task_ok t → good_at mos →
  ∃ res s' log, forward_outputs report t mos outs s = Some (res, s') ∧
    forwarded t s (render outs) res s' log.
Proof.
  induction outs as [|o outs IH]; intros mos t s Hok Hmo.
  { exists (Ok t), s, []. split; [done|]. split_and!; try done; [apply complete_nil|].
    cbn. by rewrite app_nil_r. }
  change (render (o :: outs)) with (segment_bytes o ++ render outs).
  cbn [forward_outputs]. destruct (tk_is_sse t) eqn:Esse.
  - destruct (inspect_conserve (tk_detector t) (segment_bytes o) (tk_hasher t) (mos 0%nat) (ok_detector _ Hok) (Hmo 0%nat))
      as (evs & d & h & Ei & Hd & Hgen & Hp & Hr). rewrite (ok_key _ Hok), Ei.
    cbn [mbind option_bind]. pose proof (forward_events_spec evs s Hgen) as Hf.
    destruct (forward_stream_events evs s) as [[[]|[]] s1].
    + destruct (IH (later mos) (set_detector t d h) s1) as (res & s' & log & -> & Hres); [|by apply good_later|].
      { split; [apply Hok|done|apply Hok|]. cbn. by rewrite Esse. }
      exists res, s', (evs ++ log). split; [done|].
      apply (forwarded_after t (set_detector t d h) s s1); [done|done|exact Hp|exact Hr|exact Hres].
    + destruct Hf as (x & Hx & Hs). exists (Err tt), s1, evs. split; [done|].
      split_and!; [by eapply prefix_partial| |].
      * rewrite app_assoc, <-Hp, <-app_assoc. by apply prefix_app_r.
      * rewrite Hr. apply given_le.
  - destruct (sink_enqueue s (segment_bytes o)) as [[[]|e] s1] eqn:Ee.
    + apply sink_accepted in Ee.
      destruct (IH mos (set_detector t (tk_detector t) (hasher_update (tk_hasher t) (segment_bytes o))) s1)
        as (res & s' & log & -> & Hres); [|done|].
      { split; [apply Hok|apply Hok|apply Hok|]. cbn. intros _. by apply Hok. }
      exists res, s', ([Data (segment_bytes o)] ++ log). split; [done|].
      eapply (forwarded_after t); [| | | |exact Hres]; [|done| |done].
      * split; [by rewrite wire_data|]. by apply (genuine_data [_]).
      * rewrite payload_one. cbn. by rewrite (ok_plain _ Hok Esse), app_nil_r.
    + apply sink_refused in Ee as (p & Hp & Ee).
      exists (Err tt), (if report then send_terminal_error s1 (enqueue_failure e) else s1),
        [Data (segment_bytes o)]. split; [done|].
      rewrite <-(wire_data (segment_bytes o)) in Hp. pose proof (genuine_data [segment_bytes o]).
      split_and!; [destruct report; [by eapply partial_terminal|by eapply prefix_partial]| |apply given_le].
      rewrite payload_one, (ok_plain _ Hok Esse). cbn [app]. by apply prefix_app_r.
Qed.

(** ** The steps of the task *)

(** What a step or a run that has ended has written, [outs] being what the
    redactor put out from the state [t] on. *)
Definition ended_ok (t : Task) (s : S) (e : TaskEnd) (s' : S) (outs : list OutputSegment) : Prop :=
  Forall (clean_segment (sr_state (tk_redactor t))) outs ∧
  ∃ log, partial s s' log ∧ payload log `prefix_of` trailing t ++ render outs ∧
    (receipts log + given_by t ≤ 1)%nat ∧
    (e = EndFinished true → complete s s' log ∧ payload log = trailing t ++ render outs).

(** The same for one that goes on as [t']. *)
Definition running_ok (t : Task) (s : S) (t' : Task) (s' : S) (outs : list OutputSegment) : Prop :=
  task_ok t' ∧ sr_state (tk_redactor t') = sr_state (tk_redactor t) ∧
  Forall (clean_segment (sr_state (tk_redactor t))) outs ∧
  ∃ log, complete s s' log ∧ payload log ++ trailing t' = trailing t ++ render outs ∧
    (receipts log + given_by t)%nat = given_by t'.

(** A log that says nothing, with or without a terminal error. *)
Lemma ended_silent t s e s' :
  partial s s' [] → e ≠ EndFinished true → ended_ok t s e s' [].
Proof.
  intros Hp He. split; [constructor|]. exists []. split_and!; try done.
  - apply prefix_nil.
  - apply given_le.
Qed.

Lemma finish_detector_spec t :
  let '(events, d, h) := DoneDetector_finish (tk_detector t) (tk_hasher t) in
  payload events = trailing t ∧ receipts events = 0%nat ∧ Forall genuine events.
Proof.
  unfold DoneDetector_finish. destruct (is_empty (trailing t)) eqn:E.
  - apply is_empty_spec in E. by rewrite E.
  - unfold payload. cbn. rewrite app_nil_r. split_and!; [done..|]. by apply (genuine_data [_]).
Qed.

Lemma finalize_spec eof t mos s :
  task_ok t → good_at mos →
  ∃ t' e s' outs, finalize eof t mos s = Some (Ended t' e, s') ∧ ended_ok t s e s' outs ∧
    (e = EndFinished true → ∃ r', finish (tk_redactor t) = Some (Ok outs, r')).
Proof.
  intros Hok Hmo. unfold finalize.
  destruct (finish_total (tk_redactor t) (ok_redactor _ Hok)) as (res & r' & -> & Hr' & Hclean).
  cbn [mbind option_bind]. destruct res as [outs|er].
  2:{ eexists _, _, _, []. split; [done|]. split; [|done].
      apply ended_silent; [apply terminal_only|done]. }
  specialize (Hclean outs eq_refl).
  destruct (forward_outputs_spec false outs mos (set_redactor t r') s)
    as (res & s1 & log & -> & Hres); [split; [done|apply Hok..]|done|].
  cbn [mbind option_bind]. unfold forwarded in Hres. cbn [tk_detector set_redactor] in Hres. destruct res as [t1|[]].
  2:{ destruct Hres as (H1 & H2 & H3). eexists _, EndAborted, s1, outs. split; [done|].
      split; [|done]. split; [done|]. exists log. done. }
  destruct Hres as (H1 & H2 & (Es & _ & _) & H4 & H5).
  destruct (tk_is_sse t1) eqn:Esse.
  - pose proof (finish_detector_spec t1) as Hfin.
    destruct (DoneDetector_finish _ _) as [[evs d] h]. destruct Hfin as (Hpay & Hrec & Hgen).
    pose proof (forward_events_spec evs s1 Hgen) as Hf.
    pose proof (given_le (tk_detector t1)) as Hg.
    destruct (forward_stream_events evs s1) as [[[]|[]] s2].
    + eexists _, _, s2, outs. split; [done|]. split; [|eauto]. split; [done|].
      exists (log ++ evs). rewrite payload_app, receipts_app, Hpay, Hrec, H4.
      split_and!; [by apply complete_partial; eapply complete_app|done|lia|].
      intros _. split; [by eapply complete_app|done].
    + destruct Hf as (x & Hx & Hs). eexists _, EndAborted, s2, outs. split; [done|]. split; [|done].
      split; [done|]. exists (log ++ evs). rewrite payload_app, receipts_app, Hpay, Hrec, H4.
      split_and!; [|done|lia|done]. eapply partial_app; [done|]. by eapply prefix_partial.
  - eexists _, _, s1, outs. split; [done|]. split; [|eauto]. split; [done|]. exists log.
    rewrite (ok_plain _ H2 Esse), app_nil_r in H4. pose proof (given_le (tk_detector t1)).
    split_and!; [by apply complete_partial|by rewrite H4|lia|done].
Qed.

Lemma on_chunk_spec t mos c s :
  task_ok t → good_at mos →
  (∃ t' s' outs, on_chunk t mos c s = Some (Running t', s') ∧ running_ok t s t' s' outs ∧
     push (tk_redactor t) c = Some (Ok outs, tk_redactor t')) ∨
  (∃ t' e s' outs, on_chunk t mos c s = Some (Ended t' e, s') ∧ ended_ok t s e s' outs ∧
     e ≠ EndFinished true).
Proof.
  intros Hok Hmo. unfold on_chunk.
  destruct (push_total (tk_redactor t) c (ok_redactor _ Hok)) as (res & r' & -> & Hr' & Hst & Hclean).
  cbn [mbind option_bind]. destruct res as [outs|er].
  2:{ right. eexists _, _, _, []. split; [done|]. split; [|done].
      apply ended_silent; [apply terminal_only|done]. }
  specialize (Hclean outs eq_refl).
  destruct (forward_outputs_spec true outs mos (set_redactor t r') s)
    as (res & s1 & log & -> & Hres); [split; [done|apply Hok..]|done|].
  cbn [mbind option_bind]. unfold forwarded in Hres. cbn [tk_detector set_redactor] in Hres. destruct res as [t1|[]].
  - destruct Hres as (H1 & H2 & (Es & Er & _) & H4 & H5). left. exists t1, s1, outs.
    cbn in Er. split; [done|]. rewrite Er. split; [|done]. split_and!; [done|by rewrite Er|done|].
    by exists log.
  - destruct Hres as (H1 & H2 & H3). right. eexists _, EndAborted, s1, outs. split; [done|].
    split; [|done]. split; [done|]. exists log. done.
Qed.

Lemma on_shutdown_spec t mos s :
  task_ok t → good_at mos →
  ∃ t' e s' outs, on_shutdown t mos s = Some (Ended t' e, s') ∧ ended_ok t s e s' outs ∧
    e ≠ EndFinished true.
Proof.
  intros Hok Hmo. unfold on_shutdown.
  destruct (shutdown_conserve (tk_detector t) (tk_hasher t) (mos 0%nat) (ok_detector _ Hok) (Hmo 0%nat))
    as (evs & d & h & Ei & Hd & Hgen & Hp & Ht & Hg). rewrite (ok_key _ Hok), Ei.
  cbn [mbind option_bind]. pose proof (forward_events_spec evs s Hgen) as Hf.
  destruct (forward_stream_events evs s) as [[[]|[]] s1].
  - destruct (finalize_spec false (set_detector t d h) (later mos) s1) as (t' & e & s' & outs & E & Hend & _).
    { split; [apply Hok|done|apply Hok|]. by intros _. }
    { by apply good_later. }
    exists t', e, s', outs. split; [done|].
    assert (e ≠ EndFinished true) as He.
    { unfold finalize in E. intros ->.
      destruct (finish _) as [[[o|] r']|]; cbn in E; try done.
      destruct (forward_outputs _ _ _ _ _) as [[[t1|] s2]|]; cbn in E; try done.
      destruct (tk_is_sse t1); [|done]. destruct (DoneDetector_finish _ _) as [[? ?] ?].
      by destruct (forward_stream_events _ _) as [[[]|[]] ?]. }
    split; [|done]. destruct Hend as [Hc (log & H1 & H2 & H3 & _)]. split; [done|].
    exists (evs ++ log). cbn [tk_detector set_detector] in *. rewrite Ht in H2.
    split_and!; [by eapply partial_app| |rewrite receipts_app; lia|done].
    rewrite payload_app, Hp. by apply prefix_app.
  - destruct Hf as (x & Hx & Hs). eexists _, EndAborted, s1, []. split; [done|]. split; [|done].
    split; [constructor|]. exists evs. pose proof (given_le d).
    split_and!; [by eapply prefix_partial| |lia|done]. rewrite Hp. by apply prefix_app_r.
Qed.

(** ** Runs *)

Lemma running_running t s t1 s1 outs1 t2 s2 outs2 :
  running_ok t s t1 s1 outs1 → running_ok t1 s1 t2 s2 outs2 →
  running_ok t s t2 s2 (outs1 ++ outs2).
Proof.
  intros (H1 & H2 & H3 & log1 & H4 & H5 & H6) (G1 & G2 & G3 & log2 & G4 & G5 & G6).
  split_and!; [done|congruence|apply Forall_app; split; [done|by rewrite <-H2]|].
  exists (log1 ++ log2). rewrite payload_app, receipts_app, render_app.
  split_and!; [by eapply complete_app| |lia].
  by rewrite <-app_assoc, G5, app_assoc, H5, <-app_assoc.
Qed.

Lemma running_ended t s t1 s1 outs1 e s2 outs2 :
  running_ok t s t1 s1 outs1 → ended_ok t1 s1 e s2 outs2 →
  ended_ok t s e s2 (outs1 ++ outs2).
Proof.
  intros (H1 & H2 & H3 & log1 & H4 & H5 & H6) (G1 & log2 & G2 & G3 & G4 & G5).
  split; [apply Forall_app; split; [done|by rewrite <-H2]|].
  exists (log1 ++ log2). rewrite payload_app, receipts_app, render_app, app_assoc, <-H5, <-app_assoc.
  split_and!; [by eapply partial_app|by apply prefix_app|lia|].
  intros He. destruct (G5 He) as [G6 G7]. split; [by eapply complete_app|by rewrite G7].
Qed.

(** The chunks the task has taken when it sees the end of the stream. *)
Fixpoint chunks_of (events : list (Moments * TaskEvent)) : list bytes :=
  match events with
  | (_, EvItem (Some (Ok c))) :: events => c :: chunks_of events
  | (_, EvShutdown false) :: events => chunks_of events
  | _ => []
  end.

Lemma run_task_spec events : ∀ t s,
  task_ok t → Forall good_at events.*1 →
  ∃ st s' outs, run_task t events s = Some (st, s') ∧
    match st with
    | Running t' => running_ok t s t' s' outs
    | Ended t' e => ended_ok t s e s' outs ∧
        (e = EndFinished true →
         ∃ r', push_all (tk_redactor t) (chunks_of events) = Some (Ok outs, r'))
    end.
Proof.
  induction events as [|[mos ev] events IH]; intros t s Hok Hgood; cbn [run_task].
  { exists (Running t), s, []. split; [done|]. split_and!; [done|done|constructor|].
    exists []. cbn. rewrite app_nil_r. split_and!; [apply complete_nil|done|done]. }
  apply Forall_cons in Hgood as [Hmo Hgood]. cbn [fst] in Hmo.
  assert (∀ e s', partial s s' [] → e ≠ EndFinished true → task_step t mos ev s = Some (Ended t e, s') →
    ∃ st s' outs, ('(st, s) ← task_step t mos ev s;
      match st with Running t => run_task t events s | Ended t e => Some (Ended t e, s) end)
        = Some (st, s') ∧
      match st with
      | Running t' => running_ok t s t' s' outs
      | Ended t' e => ended_ok t s e s' outs ∧
          (e = EndFinished true →
           ∃ r', push_all (tk_redactor t) (chunks_of ((mos, ev) :: events)) = Some (Ok outs, r'))
      end) as Hquick.
  { intros e s' Hp He ->. eexists (Ended t e), s', []. split; [done|].
    split; [by apply ended_silent|done]. }
  destruct ev as [|[|]| |[[c|[]]|]].
  - by apply (Hquick EndClosed s); [apply complete_partial, complete_nil|..].
  - destruct (on_shutdown_spec t mos s Hok Hmo) as (t' & e & s' & outs & E & Hend & He).
    cbn [task_step]. rewrite E. cbn. exists (Ended t' e), s', outs. done.
  - cbn [task_step mbind option_bind]. destruct (IH t s Hok Hgood) as (st & s' & outs & E & Hst).
    exists st, s', outs. done.
  - by eapply (Hquick EndAborted); [apply terminal_only|..].
  - cbn [task_step chunks_of push_all]. destruct (on_chunk_spec t mos c s Hok Hmo)
      as [(t1 & s1 & outs1 & E & Hrun & Hpush)|(t' & e & s' & outs & E & Hend & He)].
    + rewrite E. cbn [mbind option_bind].
      destruct (IH t1 s1) as (st & s' & outs & E2 & Hst); [by destruct Hrun|done|].
      exists st, s', (outs1 ++ outs). split; [done|]. destruct st as [t'|t' e].
      * by eapply running_running.
      * destruct Hst as [Hst Hp]. split; [by eapply running_ended|]. intros He.
        destruct (Hp He) as [r' Hp']. exists r'. rewrite Hpush. cbn. by rewrite Hp'.
    + rewrite E. cbn [mbind option_bind]. exists (Ended t' e), s', outs. done.
  - by eapply (Hquick EndAborted); [apply terminal_only|..].
  - cbn [task_step chunks_of push_all].
    destruct (finalize_spec true t mos s Hok Hmo) as (t' & e & s' & outs & -> & Hend & Hp).
    cbn [mbind option_bind]. exists (Ended t' e), s', outs. done.
Qed.

(** ** A reliable client *)

Definition reliable : Prop := ∀ (s : S) b, ∃ s', sink_enqueue s b = (Ok tt, s').

Lemma reliable_events evs s : reliable → ∃ s', forward_stream_events evs s = (Ok tt, s').
Proof.
  intros Hrel. revert s. induction evs as [|e evs IH]; intros s; cbn; [eauto|].
  destruct (Hrel s (wire_bytes e)) as [s1 ->]. apply IH.
Qed.

Lemma reliable_outputs report mos outs t s :
  reliable → good_at mos → task_ok t → ∃ t' s', forward_outputs report t mos outs s = Some (Ok t', s').
Proof.
  intros Hrel. revert mos t s. induction outs as [|o outs IH]; intros mos t s Hmo Hok; cbn; [eauto|].
  destruct (tk_is_sse t) eqn:Esse.
  - destruct (inspect_conserve (tk_detector t) (segment_bytes o) (tk_hasher t) (mos 0%nat) (ok_detector _ Hok) (Hmo 0%nat))
      as (evs & d & h & Ei & Hd & _). rewrite (ok_key _ Hok), Ei.
    cbn. destruct (reliable_events evs s Hrel) as [s1 ->]. apply IH; [by apply good_later|].
    split; [apply Hok|done|apply Hok|]. cbn. by rewrite Esse.
  - destruct (Hrel s (segment_bytes o)) as [s1 ->]. apply IH; [done|].
    split; [apply Hok|apply Hok|apply Hok|]. cbn. intros _. by apply Hok.
Qed.

Lemma reliable_finalize t mos s outs r' :
  reliable → good_at mos → task_ok t → finish (tk_redactor t) = Some (Ok outs, r') →
  ∃ t' s', finalize true t mos s = Some (Ended t' (EndFinished true), s').
Proof.
  intros Hrel Hmo Hok Hf. unfold finalize. rewrite Hf. cbn [mbind option_bind].
  destruct (finish_total _ (ok_redactor _ Hok)) as (res & r2 & E & Hr2 & _).
  rewrite Hf in E. injection E as <- <-.
  destruct (reliable_outputs false mos outs (set_redactor t r') s) as (t1 & s1 & ->);
    [done|done|split; [done|apply Hok..]|]. cbn [mbind option_bind].
  destruct (tk_is_sse t1); [|eauto]. destruct (DoneDetector_finish _ _) as [[evs d] h].
  destruct (reliable_events evs s1 Hrel) as [s2 ->]. eauto.
Qed.

(** Upstream sends the chunks and ends the stream. *)
Definition whole_response (chunks : list (Moments * bytes)) (at_end : Moments)
    : list (Moments * TaskEvent) :=
  ((λ mc, (mc.1, EvItem (Some (Ok mc.2)))) <$> chunks) ++ [(at_end, EvItem None)].

Lemma chunks_of_whole chunks at_end : chunks_of (whole_response chunks at_end) = chunks.*2.
Proof.
  induction chunks as [|[mos c] chunks IH]; [done|].
  change (c :: chunks_of (whole_response chunks at_end) = c :: chunks.*2). by rewrite IH.
Qed.

Lemma run_reliable chunks at_end : ∀ t s outs r',
  reliable → task_ok t → Forall good_at (whole_response chunks at_end).*1 →
  push_all (tk_redactor t) (chunks.*2) = Some (Ok outs, r') →
  ∃ t' s', run_task t (whole_response chunks at_end) s = Some (Ended t' (EndFinished true), s').
Proof.
  induction chunks as [|[mos c] chunks IH]; intros t s outs r' Hrel Hok Hgood Hp;
    apply Forall_cons in Hgood as [Hmo Hgood]; cbn [fst] in Hmo.
  - cbn in Hp |- *. destruct (reliable_finalize t at_end s outs r' Hrel Hmo Hok Hp) as (t' & s' & ->).
    cbn. eauto.
  - cbn [fmap list_fmap snd push_all] in Hp.
    destruct (push (tk_redactor t) c) as [[[o|e] r1]|] eqn:Epush; cbn in Hp; try done.
    destruct (push_all r1 _) as [[[o'|e] r2]|] eqn:Eall; cbn in Hp; try done.
    destruct (push_total _ c (ok_redactor _ Hok)) as (res & r3 & E & Hr3 & _).
    rewrite Epush in E. injection E as <- <-.
    cbn [whole_response fmap list_fmap app run_task task_step fst snd]. unfold on_chunk.
    rewrite Epush. cbn [mbind option_bind].
    destruct (reliable_outputs true mos o (set_redactor t r1) s) as (t1 & s1 & Efo);
      [done|done|split; [done|apply Hok..]|].
    rewrite Efo. cbn [mbind option_bind].
    destruct (forward_outputs_spec true o mos (set_redactor t r1) s)
      as (res & s1' & log & E & Hres); [split; [done|apply Hok..]|done|].
    rewrite Efo in E. injection E as <- <-. destruct Hres as (_ & Hok1 & (_ & Er & _) & _).
    eapply (IH t1 s1 o' r2); [done|done|done|]. by rewrite Er.
Qed.

End Genuine.

Abbreviation trailing t := (dd_trailing (tk_detector t)).
Abbreviation given_by t := (given (tk_detector t)).

(** ** Theorems *)

Context {hdr_api : HeaderApi} {sem_api : SemaphoreApi}.

(** The fields of the receipts of a stream. *)
Definition stream_fields (st : AppState) (p : Prepared) (request_hash payload_hash : bytes)
    : ReceiptFields := {|
  rf_request_id := pp_request_id p; rf_tenant_id := hex_encode (pp_tenant_id p);
  rf_upstream_url := upstream_url st; rf_request_hash := request_hash;
  rf_policy_digest := pp_policy_digest p; rf_pcr0 := pp_pcr0 p;
  rf_response_hash := payload_hash
|}.

Lemma start_stream_task st p engine headers slot memory pw r t b ch pw' :
  start_stream st p engine headers slot memory pw = Some (Spawned r t b ch slot memory, pw') →
  engine_wf engine →
  task_ok (tk_detector t) (tk_private_key t) t ∧ trailing t = [] ∧ given_by t = 0%nat ∧ sr_state (tk_redactor t) = engine ∧
  sr_pending (tk_redactor t) = [] ∧ sr_max_capacity (tk_redactor t) = DEFAULT_MAX_BUFFER_CAPACITY ∧
  tk_is_sse t = is_event_stream (header_get (bstr "content-type") headers) ∧
  tk_private_key t = proxy_private_key st ∧
  (∀ rh ph, receipt_fields (tk_detector t) rh ph = stream_fields st p rh ph).
Proof.
  unfold start_stream. intros E Hwf. destruct (channel 32) as [ch0|]; cbn in E; [|done].
  destruct (ByteBudget_with_tenant _ _ _ _ _) as [[b0 w]|]; cbn in E; [|done].
  injection E as <- <- <- <- <-. cbn. split_and!; try done.
  split; cbn; [split; done| |done|done]. split; [|done]. left. exists []. by split.
Qed.

(** The task reads the clock and the request hasher at this moment. *)
Definition met (events : list (Moments * TaskEvent)) (mo : Moment) : Prop :=
  ∃ mos i, mos ∈ events.*1 ∧ mo = mos i.

(** A run from the start of a stream: the log and what of it is delivered. *)
Lemma task_run_spec st p engine headers slot memory pw r t b ch pw' events s :
  start_stream st p engine headers slot memory pw = Some (Spawned r t b ch slot memory, pw') →
  engine_wf engine →
  ∃ state s' outs log,
    run_task t events s = Some (state, s') ∧ Forall (clean_segment engine) outs ∧
    (∃ x y, sink_delivered s' = sink_delivered s ++ x ++ y ∧ x `prefix_of` wire log ∧
       (y = [] ∨ ∃ reason, y `prefix_of` terminal_frame reason) ∧
       ∀ frame, AuditReceipt frame ∈ log →
         ∃ mo ph, met events mo ∧
           audit_frame (stream_fields st p (hex_encode (hasher_finalize (mo_request_hasher mo)))
             (hex_encode (hasher_finalize ph))) (proxy_private_key st) (mo_now mo) = Some frame) ∧
    payload log `prefix_of` render outs ∧ (receipts log ≤ 1)%nat ∧
    ∀ t', state = Ended t' (EndFinished true) →
      sink_delivered s' = sink_delivered s ++ wire log ∧ payload log = render outs ∧
      ∃ r', push_all (tk_redactor t) (chunks_of events) = Some (Ok outs, r').
Proof.
  intros E Hwf. destruct (start_stream_task _ _ _ _ _ _ _ _ _ _ _ _ E Hwf)
    as (Hok & Htr & Hgiven & Hst & _ & _ & _ & Hkey & Hids).
  assert (∀ log, Forall (genuine (tk_detector t) (tk_private_key t) (met events)) log →
    ∀ frame, AuditReceipt frame ∈ log → ∃ mo ph, met events mo ∧
      audit_frame (stream_fields st p (hex_encode (hasher_finalize (mo_request_hasher mo)))
        (hex_encode (hasher_finalize ph))) (proxy_private_key st) (mo_now mo) = Some frame) as Hgen.
  { intros log Hf frame Hin. rewrite Forall_forall in Hf. destruct (Hf _ Hin) as (mo & ph & Hmo & Ha).
    exists mo, ph. split; [done|]. by rewrite Hkey, Hids in Ha. }
  destruct (run_task_spec _ _ (met events) events t s Hok) as (state & s' & outs & Hrun & Hstate).
  { apply Forall_forall. intros mos Hin i. by exists mos, i. }
  exists state, s', outs. destruct state as [t'|t' e].
  - destruct Hstate as (_ & _ & Hc & log & [H1 Hg] & H2 & H3). rewrite Hst in Hc.
    exists log. pose proof (given_le (tk_detector t')). rewrite Htr in H2. cbn in H2.
    split_and!; [done|done| |rewrite <-H2; by apply prefix_app_r|lia|done].
    exists (wire log), []. rewrite app_nil_r. split_and!; eauto.
  - destruct Hstate as [[Hc (log & (x & y & H1 & H2 & H3 & Hg) & H4 & H5 & H6)] Hpush]. rewrite Hst in Hc.
    rewrite Htr in H4, H6. exists log. split_and!; [done|done| |done|lia|].
    + exists x, y. split_and!; eauto.
    + intros t'' [= <- ->]. destruct (H6 eq_refl) as [[H7 _] H8].
      split_and!; [done|done|by apply Hpush].
Qed.

(** Whatever upstream sends and in whatever order chunks, errors, timeouts, a
    shutdown, a lost client and queue failures come, the task does not panic, and
    the client receives a prefix of the task's log, perhaps followed by (part of)
    one terminal error frame.  The text in the log is a prefix of what the
    redactor put out, in order, every segment of which is a replacement or free of
    patterns; the log has at most one receipt, and it is signed with the proxy's
    key over this request's identity, tenant, upstream, policy and measurement and
    the hash of what had been uploaded at that moment. *)
Theorem stream_task_safe st p engine headers slot memory pw r t b ch pw' events s :
  start_stream st p engine headers slot memory pw = Some (Spawned r t b ch slot memory, pw') →
  engine_wf engine →
  ∃ state s' outs log x y,
    run_task t events s = Some (state, s') ∧
    sink_delivered s' = sink_delivered s ++ x ++ y ∧
    x `prefix_of` wire log ∧ (y = [] ∨ ∃ reason, y `prefix_of` terminal_frame reason) ∧
    payload log `prefix_of` render outs ∧ Forall (clean_segment engine) outs ∧
    (receipts log ≤ 1)%nat ∧
    ∀ frame, AuditReceipt frame ∈ log →
      ∃ mo ph, met events mo ∧
        audit_frame (stream_fields st p (hex_encode (hasher_finalize (mo_request_hasher mo)))
          (hex_encode (hasher_finalize ph))) (proxy_private_key st) (mo_now mo) = Some frame.
Proof.
  intros E Hwf. destruct (task_run_spec _ _ _ _ _ _ _ _ _ _ _ _ events s E Hwf)
    as (state & s' & outs & log & Hrun & Hc & (x & y & H1 & H2 & H3 & Hg) & H4 & H5 & _).
  exists state, s', outs, log, x, y. split_and!; try done.
Qed.

(** The redactor of a stream against one-shot redaction. *)
Lemma started_one_shot ps rs v st p headers slot memory pw r t b ch pw' chunks :
  PiiVault_new ps rs = Some v → rules_ok ps rs = true → separated ps (concat chunks) →
  Z.of_nat (max_len ps) + 3 ≤ DEFAULT_MAX_BUFFER_CAPACITY →
  start_stream st p (pv_engine_state v) headers slot memory pw
    = Some (Spawned r t b ch slot memory, pw') →
  valid_utf8 (concat chunks) = true → chunks_exact ps [] chunks = true →
  ∃ out r' c, push_all (tk_redactor t) chunks = Some (Ok out, r') ∧
    redact_text (concat chunks) v = Some c ∧ render out = cow_bytes c.
Proof.
  intros Hv Hrules Hsep Hcap E Hutf Hex.
  destruct (PiiVault_new_wf _ _ _ Hv Hrules) as (Hwf & Hs & Hreps & Eps & _).
  destruct (start_stream_task _ _ _ _ _ _ _ _ _ _ _ _ E Hwf) as (Hok & _ & _ & Hst & Hpend & Hmax & _).
  destruct (redact_text_ok v (concat chunks)) as (c & Hc & Ec); [done..|].
  pose proof (wf_max _ Hwf) as Hml. rewrite Eps in Hml.
  destruct (push_all_ok chunks (tk_redactor t)) as (out & Hout & Hrender & _);
    [apply Hok|by rewrite Hst, Eps, Hpend|by rewrite Hst, Hmax, Hml|by rewrite Hpend
    |by rewrite Hst, Eps, Hpend|].
  eexists out, _, c. split_and!; [done|done|]. by rewrite Hrender, Ec, Hst, Hpend.
Qed.

(** C3: A response that arrives completely is delivered completely: with a client
    that keeps reading, the task runs to the end, and what the client receives,
    the receipt aside, is exactly what one-shot redaction makes of the whole
    response body, whether it is an event stream or not, under the conditions of
    [stream_equals_one_shot]: rules without empty patterns that fit into the buffer, a
    UTF-8 body that is [separated] for them, and chunks that do not end inside a
    pattern written in another case. *)
Theorem stream_task_delivers ps rs v st p headers slot memory pw r t b ch pw' chunks at_end s :
  PiiVault_new ps rs = Some v → rules_ok ps rs = true → separated ps (concat chunks.*2) →
  Z.of_nat (max_len ps) + 3 ≤ DEFAULT_MAX_BUFFER_CAPACITY →
  start_stream st p (pv_engine_state v) headers slot memory pw
    = Some (Spawned r t b ch slot memory, pw') →
  valid_utf8 (concat chunks.*2) = true → chunks_exact ps [] chunks.*2 = true →
  reliable →
  ∃ t' s' log c,
    run_task t (whole_response chunks at_end) s = Some (Ended t' (EndFinished true), s') ∧
    sink_delivered s' = sink_delivered s ++ wire log ∧
    redact_text (concat chunks.*2) v = Some c ∧ payload log = cow_bytes c ∧
    (receipts log ≤ 1)%nat.
Proof.
  intros Hv Hrules Hind Hcap E Hutf Hex Hrel.
  destruct (PiiVault_new_wf _ _ _ Hv Hrules) as (Hwf & _).
  destruct (start_stream_task _ _ _ _ _ _ _ _ _ _ _ _ E Hwf) as (Hok & _).
  destruct (started_one_shot _ _ _ _ _ _ _ _ _ _ _ _ _ _ _ Hv Hrules Hind Hcap E Hutf Hex)
    as (out & r' & c & Hout & Hc & Ec).
  assert (Forall (good_at (λ _, True)) (whole_response chunks at_end).*1) as Hall by (by apply Forall_forall).
  destruct (run_reliable _ _ _ chunks at_end t s _ _ Hrel Hok Hall Hout) as (t' & s' & Hrun).
  destruct (task_run_spec _ _ _ _ _ _ _ _ _ _ _ _ (whole_response chunks at_end) s E Hwf)
    as (state & s2 & outs & log & Hrun2 & _ & _ & _ & Hrec & Hend).
  rewrite Hrun in Hrun2. injection Hrun2 as <- <-.
  destruct (Hend _ eq_refl) as (H7 & H8 & r2 & Hr2). rewrite chunks_of_whole, Hout in Hr2.
  injection Hr2 as <- <-.
  exists t', s', log, c. split_and!; [done|done|done|by rewrite H8|done].
Qed.

End Proofs.
