(* ===== verification/ProxyTheorems.v ===== *)
(** * The proxy handler and the queue under it

    What the handler holds and gives back, what its receipts are bound to, and
    that the byte-budgeted queue implements the interface the task writes
    through, also while other streams use the same semaphores; then concrete runs. *)

From S2P Require Import Prelude Utf8 AhoCorasick Externals Receipt DoneDetector DoneDetectorProofs BudgetQueue BudgetQueueProofs Matching Engine EngineBoundary EngineProofs EngineTheorems Http HttpProofs Proxy ProxyProofs.
Local Open Scope Z_scope.

(** ** The queue as a sink *)

Section Queue.
Context {sem_api : SemaphoreApi}.

(** What happens between two steps of the producer: the client reads, leaves or
    does nothing, and other streams change the shared world in any way. *)
Inductive ClientAction := ClientPoll | ClientLeave | ClientIdle | OtherStreams (w : World).

(** A stream's queue with the rest of the client's behaviour; [qs_sent] records
    what has been put in the channel. *)
Record QueueSink := {
  qs_world : World;
  qs_channel : Channel;
  qs_body : option BudgetedBody;
  qs_client : list ClientAction;
  qs_sent : bytes
}.

Definition client_step (w : World) (ch : Channel) (body : option BudgetedBody) (a : ClientAction)
    : option BudgetedBody * Channel * World :=
  match body, a with
  | Some body, ClientPoll =>
    let '(_, body, ch, w) := poll_frame w ch body in (Some body, ch, w)
  | Some body, ClientLeave => let '(ch, w) := drop_body w ch body in (None, ch, w)
  | body, OtherStreams w => (body, ch, w)
  | body, _ => (body, ch, w)
  end.

(** [enqueue_with_timeout] against the client: they take turns until the call
    returns; the timer fires when the client's actions are used up. *)
Fixpoint queue_run (b : ByteBudget) (acts : list ClientAction) (w : World) (ch : Channel)
    (body : option BudgetedBody) (st : EnqueueState) (sent : bytes)
    : Result EnqueueError unit * QueueSink :=
  let result r w ch body := (r, {| qs_world := w; qs_channel := ch; qs_body := body;
    qs_client := acts; qs_sent := sent |}) in
  match st with
  | EnqDone r => result r w ch body
  | _ =>
    match acts with
    | [] =>
      match enqueue_timeout w st with
      | (EnqDone r, w) => result r w ch body
      | (_, w) => result (Err EnqueueCapacity) w ch body
      end
    | a :: acts =>
      let '(st, ch', w) := enqueue_step b w ch st in
      let sent := sent ++ newly_queued ch ch' in
      let '(body, ch', w) := client_step w ch' body a in
      queue_run b acts w ch' body st sent
    end
  end.

Definition queue_sink (b : ByteBudget) : Sink QueueSink := {|
  sink_enqueue s data :=
    queue_run b (qs_client s) (qs_world s) (qs_channel s) (qs_body s)
      (enqueue_start b data) (qs_sent s);
  sink_delivered s := qs_sent s
|}.

(** What is still to come of a payload [data] of which [sent] has gone out. *)
Definition on_track (before data sent : bytes) (st : EnqueueState) : Prop :=
  match st with
  | EnqDone (Err _) => ∃ p, p `prefix_of` data ∧ sent = before ++ p
  | st => sent ++ enqueue_todo st = before ++ data
  end.

Lemma reserve_bytes w b data s w' :
  BudgetedSegment_reserve w b data = (Ok s, w') → seg_bytes s = data.
Proof.
  unfold BudgetedSegment_reserve. destruct data as [|x data]; [done|].
  destruct (tenant_permit _ _ _) as [[lp|e] w1]; [|done].
  destruct (acquire w1 _ _) as [[gp w2]|]; [|done]. by intros [= <- <-].
Qed.

(** Part of a payload: what precedes the rest. *)
Lemma sent_part (before data sent rest : bytes) :
  before `prefix_of` sent → sent ++ rest = before ++ data →
  ∃ p, p `prefix_of` data ∧ sent = before ++ p.
Proof.
  intros [p ->] H. rewrite <-app_assoc in H. apply app_inv_head in H as <-.
  exists p. split; [by apply prefix_app_r|done].
Qed.

Lemma enqueue_step_track b w ch st st' ch' w' before data sent :
  enqueue_step b w ch st = (st', ch', w') → before `prefix_of` sent →
  on_track before data sent st →
  on_track before data (sent ++ newly_queued ch ch') st' ∧
  before `prefix_of` sent ++ newly_queued ch ch'.
Proof.
  intros E Hb Ht. split; [|by apply prefix_app_r].
  destruct st as [[|d todo]|s todo|r]; cbn in E.
  - injection E as <- <- <-. by rewrite newly_queued_same, app_nil_r.
  - destruct (BudgetedSegment_reserve w b d) as [[s|e] w1] eqn:Er; injection E as <- <- <-;
      rewrite newly_queued_same, app_nil_r.
    + apply reserve_bytes in Er as Hs. cbn in *. by rewrite Hs.
    + cbn in *. by eapply sent_part.
  - destruct (ch_receiver ch); cbn in E; [destruct (_ <? _)%nat|]; injection E as <- <- <-;
      rewrite ?newly_queued_push, ?newly_queued_same, ?app_nil_r.
    + cbn in *. by rewrite <-app_assoc.
    + done.
    + cbn in *. by eapply sent_part.
  - injection E as <- <- <-. by rewrite newly_queued_same, app_nil_r.
Qed.

Lemma queue_run_track b acts before data : ∀ w ch body st sent r s',
  queue_run b acts w ch body st sent = (r, s') → before `prefix_of` sent →
  on_track before data sent st → on_track before data (qs_sent s') (EnqDone r).
Proof.
  induction acts as [|a acts IH]; intros w ch body st sent r s' E Hb Ht.
  - destruct st as [todo|s todo|r0]; cbn in E; injection E as <- <-; cbn [qs_sent];
      [by eapply sent_part|by eapply sent_part|done].
  - cbn [queue_run] in E.
    assert (∀ r0, st = EnqDone r0 → on_track before data (qs_sent s') (EnqDone r)) as Hdone.
    { intros r0 ->. by injection E as <- <-. }
    destruct (enqueue_step b w ch st) as [[st1 ch1] w1] eqn:Es.
    destruct (enqueue_step_track _ _ _ _ _ _ _ _ _ _ Es Hb Ht) as [H1 H2].
    destruct (client_step w1 ch1 body a) as [[body1 ch2] w2].
    destruct st as [todo|s todo|r0]; [by eapply IH|by eapply IH|by eapply Hdone].
Qed.

Lemma queue_sink_laws b : 0 < bb_capacity b → @SinkLaws QueueSink (queue_sink b).
Proof.
  intros Hcap.
  assert (∀ s data r s', @sink_enqueue _ (queue_sink b) s data = (r, s') →
    on_track (qs_sent s) data (qs_sent s') (EnqDone r)) as K.
  { intros s data r s' E. eapply (queue_run_track _ _ (qs_sent s) data); [exact E|done|].
    unfold enqueue_start. destruct data as [|x data]; [done|]. cbn [on_track enqueue_todo].
    by rewrite (proj1 (segments_of_spec b (x :: data) Hcap)). }
  split.
  - intros s s' data E. specialize (K _ _ _ _ E). cbn in K. by rewrite app_nil_r in K.
  - intros s s' data e E. exact (K _ _ _ _ E).
Qed.

(** The byte-budgeted queue implements the interface the task relies on: in
    every interleaving with the client and with other streams, a call of [enqueue_with_timeout] that
    returns [Ok] has put exactly its payload in the channel, after everything
    before it; one that fails, for lack of budget, because the client left or
    because the timer fired, has put a prefix of it there. *)
Theorem queue_implements_sink b : 0 < bb_capacity b → @SinkLaws QueueSink (queue_sink b).
Proof. apply queue_sink_laws. Qed.

End Queue.

(** ** Permits *)

Section Handler.
Context {hdr_api : HeaderApi} {sem_api : SemaphoreApi} {sem_laws : SemaphoreLaws}
  {ac_api : AhoCorasickApi} {b3_api : Blake3Api} {sig_api : Ed25519Api}
  {enc_api : EncodingApi} {json_api : SerdeJsonApi} {rj_api : ReceiptJsonApi}
  {tj_api : TerminalJsonApi}.

(** The permits a request holds while it is being admitted. *)
Definition admit_permits (a : AdmitState) : list Permit :=
  match a with
  | WaitSlot | Refused _ => []
  | WaitMemory slot => [slot]
  | AdmitDone slot memory => [memory; slot]
  end.

(** Admission never loses a permit: polling takes exactly the permits the
    state then holds, a request that gives up waiting for memory returns its slot
    and is answered with 503, and a request that is admitted holds one stream slot
    and one memory chunk. *)
Theorem admission_conserves total st w ps a :
  conserved total w (admit_permits a ++ ps) →
  (let '(a', w') := admit_step st w a in
   conserved total w' (admit_permits a' ++ ps) ∧
   (∀ slot memory, a' = AdmitDone slot memory → a ≠ a' →
      memory = {| p_sem := global_memory st; num_permits := GLOBAL_MEMORY_CHUNK |})) ∧
  (let '(a', w') := admit_timeout w a in
   conserved total w' (admit_permits a' ++ ps) ∧
   (∀ slot, a = WaitMemory slot → a' = Refused memory_exhausted)).
Proof.
  intros H. split.
  - destruct a as [|slot|slot memory|r]; cbn in *; try (by split; [|naive_solver]).
    + destruct (acquire w (stream_limit st) 1) as [[slot w']|] eqn:E; [|by split].
      destruct (conserved_acquire _ _ _ _ 1 _ _ H ltac:(lia) E) as (H' & _). by split.
    + destruct (acquire w (global_memory st) GLOBAL_MEMORY_CHUNK) as [[m w']|] eqn:E; [|by split].
      destruct (conserved_acquire _ _ _ _ GLOBAL_MEMORY_CHUNK _ _ H ltac:(done) E)
        as (H' & -> & _). split; [done|]. intros ? ? [= -> ->] _. done.
  - destruct a as [|slot|slot memory|r]; cbn in *; try (by split; [|naive_solver]).
    split; [by apply conserved_drop|]. by intros ? [= ->].
Qed.

Lemma conserved_drop2 total w a b ps :
  conserved total w (a :: b :: ps) → conserved total (drop_permit (drop_permit w a) b) ps.
Proof. intros H. by apply conserved_drop, conserved_drop. Qed.

(** Building a budget for a tenant may add a semaphore; nothing else changes. *)
Lemma conserved_with_tenant total w ps k t g cap b w' :
  world_wf w → conserved total w ps → ByteBudget_with_tenant w k t g cap = Some (b, w') →
  ∃ total', (∀ id, is_Some (w_sems w !! id) → total' id = total id) ∧ conserved total' w' ps.
Proof.
  intros Hwf Hc. unfold ByteBudget_with_tenant. destruct (0 <? cap); [|done].
  unfold tenant_semaphore. destruct (table w t !! k) as [s|] eqn:E; cbn.
  { intros [= <- <-]. by exists total. }
  intros [= <- <-]. assert (w_sems w !! w_next w = None) as Hfresh.
  { destruct (w_sems w !! w_next w) eqn:El; [|done].
    pose proof (wf_sems _ Hwf (w_next w) ltac:(eauto)). lia. }
  destruct Hc as [H1 H2].
  assert (held ps (w_next w) = 0) as Hheld.
  { clear H1. unfold held. induction ps as [|p ps IH]; [done|]. cbn.
    rewrite decide_False, IH; [done| |].
    - intros q Hq. apply H2. by right.
    - intros Ep. destruct (H2 p ltac:(left)) as [[x Hx] _]. congruence. }
  exists (λ id, if decide (id = w_next w) then TENANT_MEMORY_BUDGET else total id). split.
  { intros id Hid. rewrite decide_False; [done|]. intros ->. rewrite Hfresh in Hid.
    by destruct Hid. }
  split; cbn.
  - intros id s. rewrite lookup_insert. destruct (decide (w_next w = id)) as [<-|Hne].
    + rewrite decide_True by done. intros [= <-]. rewrite sem_new_available. lia.
    + rewrite decide_False by done. apply H1.
  - intros p Hp. destruct (H2 p Hp) as [Hk ?]. split; [|done]. rewrite lookup_insert.
    case_decide; [eauto|done].
Qed.

(** An admitted request gives back what it holds on every path: an upstream
    failure, a timeout or an upstream error status returns both permits with the
    reply; a streaming response keeps them until the task ends, however it ends,
    and then the permits and the count of open event streams are as before. *)
Theorem permits_released total st p engine rh now slot memory pw ps res out pw' :
  conserved total (pw_world pw) (memory :: slot :: ps) → world_wf (pw_world pw) →
  0 ≤ pw_active pw < 2 ^ 64 →
  after_send st p engine rh now slot memory pw res = Some (out, pw') →
  match out with
  | Replied _ => conserved total (pw_world pw') ps ∧ pw_active pw' = pw_active pw
  | Spawned _ t _ _ slot' memory' =>
      slot' = slot ∧ memory' = memory ∧
      (∃ total', (∀ id, is_Some (w_sems (pw_world pw) !! id) → total' id = total id) ∧
         conserved total' (pw_world pw') (memory :: slot :: ps)) ∧
      pw_active (task_cleanup t slot memory pw') = pw_active pw ∧
      ∀ total2 pw2 ps2, conserved total2 (pw_world pw2) (memory :: slot :: ps2) →
        conserved total2 (pw_world (task_cleanup t slot memory pw2)) ps2
  end.
Proof.
  intros Hc Hwf Hact. unfold after_send. destruct res as [status headers|e|].
  - destruct (negb (is_success status)).
    { destruct (terminal_error_response _ _ _ _ _ _) as [r|]; cbn; [|done].
      intros [= <- <-]. split; [by apply conserved_drop2|done]. }
    unfold start_stream. set (sse := is_event_stream _).
    destruct (channel 32) as [ch|]; cbn [mbind option_bind]; [|done].
    destruct (ByteBudget_with_tenant _ _ _ _ _) as [[b w]|] eqn:Eb; cbn [mbind option_bind]; [|done].
    destruct (from_state engine) as [rd|]; cbn [mbind option_bind]; [|done].
    intros [= <- <-]. split_and!; try done.
    + assert (pw_world (if sse then increment_active_sse_streams pw else pw) = pw_world pw) as Ew
        by (by destruct sse).
      rewrite Ew in Eb. by apply (conserved_with_tenant _ _ _ _ _ _ _ _ _ Hwf Hc Eb).
    + unfold task_cleanup. cbn [tk_is_sse]. destruct sse; cbn; [|done].
      rewrite Zminus_mod_idemp_l. replace (pw_active pw + 1 - 1) with (pw_active pw) by lia.
      by apply Z.mod_small.
    + intros total2 pw2 ps2 H2. unfold task_cleanup. cbn [tk_is_sse].
      by destruct sse; cbn; apply conserved_drop2.
  - intros [= <- <-]. split; [by apply conserved_drop2|done].
  - intros [= <- <-]. split; [by apply conserved_drop2|done].
Qed.

(** ** Receipts *)

(** C33: The reply to an upstream error carries a signed receipt: the signature is
    the proxy's, over the digest of exactly this request's identity, tenant,
    upstream, request hash, policy and measurement with the fixed payload hash of
    an error; the digest header matches the body; the upstream status and
    retry-after are passed on, and nothing of the upstream body is. *)
Theorem terminal_receipt_verifies {sig_laws : Ed25519Laws} {enc_laws : EncodingLaws}
    st p rh now status headers resp :
  terminal_error_response st p rh now status headers = Some resp →
  let fields := terminal_fields st p (hex_encode (hasher_finalize rh)) in
  ∃ body sig64 sig,
    rs_body resp = Full body ∧ json_terminal (attested_receipt fields now) sig64 = Some body ∧
    b64_decode sig64 = Some sig ∧
    verify (verifying_key (proxy_private_key st)) (canonical_receipt_digest fields) sig = true ∧
    header_get (bstr "x-redaction-digest") (rs_headers resp) = Some (hex_encode (blake3_hash body)) ∧
    header_get (bstr "retry-after") (rs_headers resp) = header_get (bstr "retry-after") headers ∧
    rs_status resp = status.
Proof.
  unfold terminal_error_response. set (fields := terminal_fields _ _ _).
  destruct (json_terminal _ _) as [body|] eqn:Ej; cbn [mbind option_bind]; [|done].
  intros [= <-]. exists body.
  exists (b64_encode (sign (proxy_private_key st) (canonical_receipt_digest fields))).
  exists (sign (proxy_private_key st) (canonical_receipt_digest fields)).
  rewrite b64_decode_encode, verify_sign. cbn [rs_body rs_headers rs_status].
  rewrite !header_get_app. split_and!; try done;
    destruct (header_get (bstr "retry-after") headers); by vm_compute.
Qed.

End Handler.

(** ** Concrete runs *)

Import NaiveSearch Transparent TransparentReceipt.
Import (hints) CounterSemaphore AsciiHeaders.

Module ProxyDemo.

(** A client that accepts everything at once. *)
#[export] Instance list_sink : Sink bytes := {|
  sink_enqueue s b := (Ok tt, s ++ b);
  sink_delivered s := s
|}.

#[export] Instance list_sink_laws : SinkLaws bytes.
Proof. split; cbn; [congruence|done]. Qed.

#[export] Instance terminal_json : TerminalJsonApi := {|
  json_terminal r sig := Some (ar_tuple_digest r ++ sig)
|}.

Definition app : AppState := {|
  upstream_url := bstr "https://upstream.example"; proxy_private_key := key;
  stream_limit := 1%nat; global_memory := 0%nat; tenant_budgets := 5%nat
|}.

Definition prepared (policy : bytes) : Prepared := {|
  pp_request_id_header := None; pp_request_id := bstr "missing"; pp_tenant_id := bstr "tenant-1";
  pp_content_type := None; pp_policy_digest := policy; pp_pcr0 := bstr "pcr0-1"
|}.

Definition slot : Permit := {| p_sem := 1%nat; num_permits := 1 |}.
Definition memory : Permit := {| p_sem := 0%nat; num_permits := 2 |}.

(** The world of the queue's examples with the two permits taken. *)
Definition pworld : ProxyWorld :=
  {| pw_world := {| w_sems := <[1%nat := 5]> (<[0%nat := 6]> ∅); w_tables := ∅;
                    w_in_use := 0; w_next := 2 |};
     pw_active := 3 |}.

Definition sse_headers : Headers := [(bstr "content-type", bstr "Text/Event-Stream; charset=utf-8")].

Definition task (is_sse : bool) (policy : bytes) : Task := {|
  tk_is_sse := is_sse; tk_private_key := key;
  tk_redactor := {| sr_state := EngineTheorems.Demo.engine; sr_pending := [];
                    sr_max_capacity := DEFAULT_MAX_BUFFER_CAPACITY |};
  tk_detector := DoneDetector_new (bstr "missing") (bstr "tenant-1")
                   (bstr "https://upstream.example") policy (bstr "pcr0-1");
  tk_hasher := hasher_new
|}.

Definition budget : ByteBudget :=
  {| bb_semaphore := 2%nat; bb_global_memory := 0%nat; bb_capacity := OUTPUT_BYTE_BUDGET |}.
Definition chan : Channel :=
  {| ch_items := 32; ch_segments := []; ch_receiver := true; ch_sender := true |}.
Definition pworld' (is_sse : bool) : ProxyWorld :=
  {| pw_world := (tenant_semaphore (pw_world pworld) 5 (bstr "tenant-1")).2;
     pw_active := if is_sse then 4 else 3 |}.

Lemma started policy :
  start_stream app (prepared policy) EngineTheorems.Demo.engine sse_headers slot memory pworld =
    Some (Spawned (stream_response (Some (bstr "Text/Event-Stream; charset=utf-8")))
            (task true policy) budget chan slot memory, pworld' true).
Proof. by_vm. Qed.

Definition now : Moments := λ _, {| mo_now := 0; mo_request_hasher := hasher_new |}.

Definition chunks : list (Moments * bytes) :=
  [(now, bstr "data: my pass"); (now, bstr "word data: [DO"); (now, bstr "NE]")].

Definition total (id : sem_id) : Z := match id with O => 8 | 1%nat => 6 | _ => 0 end.

Lemma pworld_conserved : conserved total (pw_world pworld) [memory; slot].
Proof.
  split.
  - intros id s H. cbn in H. apply lookup_insert_Some in H as [[<- <-]|[_ H]]; [done|].
    apply lookup_insert_Some in H as [[<- <-]|[_ H]]; [done|]. by rewrite lookup_empty in H.
  - intros p Hp. apply elem_of_cons in Hp as [->|Hp]; [|apply elem_of_cons in Hp as [->|Hp]];
      [| |by apply elem_of_nil in Hp]; (split; [vm_compute; eauto|done]).
Qed.

Lemma pworld_wf : world_wf (pw_world pworld).
Proof.
  split.
  - intros id [s H]. cbn in *. apply lookup_insert_Some in H as [[<- _]|[_ H]]; [lia|].
    apply lookup_insert_Some in H as [[<- _]|[_ H]]; [lia|]. by rewrite lookup_empty in H.
  - intros t k id H. unfold table in H. cbn in H. by rewrite lookup_empty in H.
  - intros t k k' id H. unfold table in H. cbn in H. by rewrite lookup_empty in H.
Qed.

End ProxyDemo.
Import ProxyDemo.

Lemma queue_implements_sink_witness :
  ∃ s', @sink_enqueue _ (queue_sink CounterSemaphore.budget)
    {| qs_world := CounterSemaphore.world; qs_channel := CounterSemaphore.chan;
       qs_body := Some BudgetedBody_new; qs_client := replicate 8 ClientPoll; qs_sent := [] |}
    (bstr "abcdef") = (Ok tt, s') ∧ qs_sent s' = bstr "abcdef".
Proof.
  pose proof (queue_implements_sink CounterSemaphore.budget eq_refl) as L.
  set (s0 := {| qs_world := CounterSemaphore.world; qs_channel := CounterSemaphore.chan;
       qs_body := Some BudgetedBody_new; qs_client := replicate 8 ClientPoll; qs_sent := [] |}).
  destruct (@sink_enqueue _ (queue_sink CounterSemaphore.budget) s0 (bstr "abcdef"))
    as [r s'] eqn:E.
  assert (r = Ok tt) as ->.
  { change r with (r, s').1. rewrite <-E. by_vm. }
  exists s'. split; [reflexivity|].
  exact (@sink_accepted _ (queue_sink CounterSemaphore.budget) L s0 s' (bstr "abcdef") E).
Defined.

Lemma admission_conserves_witness :
  conserved total (admit_timeout (pw_world pworld) (WaitMemory slot)).2 [memory].
Proof.
  assert (conserved total (pw_world pworld) (admit_permits (WaitMemory slot) ++ [memory])) as H.
  { eapply conserved_proper; [|exact pworld_conserved]. apply Permutation_swap. }
  destruct (admission_conserves total app (pw_world pworld) [memory] (WaitMemory slot) H)
    as [_ [H' _]]. exact H'.
Defined.

Lemma permits_released_witness :
  ∃ pw', after_send app (prepared (bstr "policy-1")) EngineTheorems.Demo.engine hasher_new 0 slot memory
    pworld SendTimedOut = Some (Replied (empty_response BAD_GATEWAY), pw') ∧
    conserved total (pw_world pw') [] ∧ pw_active pw' = 3.
Proof.
  eexists. split; [reflexivity|].
  apply (permits_released total app (prepared (bstr "policy-1")) EngineTheorems.Demo.engine
    hasher_new 0 slot memory pworld [] SendTimedOut (Replied (empty_response BAD_GATEWAY))).
  - exact pworld_conserved.
  - exact pworld_wf.
  - split; [discriminate|reflexivity].
  - reflexivity.
Defined.

Lemma terminal_receipt_verifies_witness :
  ∃ resp body, terminal_error_response app (prepared (bstr "policy-1")) hasher_new 0 429
      [(bstr "retry-after", bstr "7")] = Some resp ∧
    rs_body resp = Full body ∧ rs_status resp = 429 ∧
    header_get (bstr "retry-after") (rs_headers resp) = Some (bstr "7").
Proof.
  destruct (terminal_error_response app (prepared (bstr "policy-1")) hasher_new 0 429
      [(bstr "retry-after", bstr "7")]) as [resp|] eqn:E; [|discriminate E].
  destruct (terminal_receipt_verifies app (prepared (bstr "policy-1")) hasher_new 0 429
    [(bstr "retry-after", bstr "7")] resp E) as (body & sig64 & sig & H1 & _ & _ & _ & _ & H2 & H3).
  exists resp, body. split; [reflexivity|]. split; [exact H1|]. split; [exact H3|exact H2].
Defined.

Lemma stream_task_safe_witness :
  ∃ state s' outs log x y,
    run_task (task true (bstr "policy-1")) [(now, EvItem (Some (Ok (bstr "my secret is out"))));
      (now, EvItem (Some (Err tt)))] [] = Some (state, s') ∧
    s' = x ++ y ∧ x `prefix_of` wire log ∧
    payload log `prefix_of` render outs ∧ (receipts log ≤ 1)%nat.
Proof.
  destruct (stream_task_safe (S := bytes) app (prepared (bstr "policy-1")) EngineTheorems.Demo.engine
    sse_headers slot memory pworld
    (stream_response (Some (bstr "Text/Event-Stream; charset=utf-8")))
    (task true (bstr "policy-1")) budget chan (pworld' true)
    [(now, EvItem (Some (Ok (bstr "my secret is out")))); (now, EvItem (Some (Err tt)))] []
    (started (bstr "policy-1")) EngineTheorems.Demo.engine_ok)
    as (state & s' & outs & log & x & y & H1 & H2 & H3 & _ & H4 & _ & H5 & _).
  exists state, s', outs, log, x, y. exact (conj H1 (conj H2 (conj H3 (conj H4 H5)))).
Defined.

Lemma stream_task_delivers_witness :
  ∃ t' s' log, run_task (task true (bstr "policy-1")) (whole_response chunks now) []
      = Some (Ended t' (EndFinished true), s') ∧
    s' = wire log ∧ payload log = bstr "data: my [REDACTED] data: [DONE]".
Proof.
  assert (redact_text (concat chunks.*2) EngineTheorems.Demo.vault
    = Some (Owned (bstr "data: my [REDACTED] data: [DONE]"))) as Er by by_vm.
  destruct (stream_task_delivers (S := bytes) default_patterns EngineTheorems.Demo.masks
    EngineTheorems.Demo.vault app (prepared (bstr "policy-1")) sse_headers slot memory pworld
    (stream_response (Some (bstr "Text/Event-Stream; charset=utf-8")))
    (task true (bstr "policy-1")) budget chan (pworld' true) chunks now [])
    as (t' & s' & log & c & H1 & H2 & H3 & H4 & _).
  - by_vm.
  - by_vm.
  - apply independent_separated; by_vm.
  - discriminate.
  - exact (started (bstr "policy-1")).
  - by_vm.
  - by_vm.
  - intros s b. eexists. reflexivity.
  - exists t', s', log. split; [exact H1|]. split; [exact H2|].
    rewrite H4. rewrite Er in H3. injection H3 as <-. reflexivity.
Defined.

(** ** Receipts that do not say what was sent *)

(** On shutdown the receipt covers only what the redactor had let go.  A stream
    that has sent [hello my pass] gets [hello my ], a receipt over that text and
    the shutdown marker, and then the held-back [pass], which no receipt covers. *)
Theorem shutdown_text_after_receipt :
  ∃ t' frame,
    run_task (task true (bstr "policy-1"))
      [(now, EvItem (Some (Ok (bstr "hello my pass")))); (now, EvShutdown true)] [] =
      Some (Ended t' (EndFinished false),
            bstr "hello my " ++ frame ++ shutdown_marker ++ bstr "pass") ∧
    audit_frame (receipt_fields (tk_detector (task true (bstr "policy-1")))
      (hex_encode (hasher_finalize hasher_new))
      (hex_encode (blake3_hash (bstr "hello my ")))) key 0 = Some frame.
Proof.
  destruct (audit_frame (receipt_fields (tk_detector (task true (bstr "policy-1")))
      (hex_encode (hasher_finalize hasher_new))
      (hex_encode (blake3_hash (bstr "hello my ")))) key 0) as [frame|] eqn:E; [|discriminate E].
  eexists (set_detector (set_redactor (task true (bstr "policy-1"))
      (set_pending (tk_redactor (task true (bstr "policy-1"))) []))
      (set_completed (tk_detector (task true (bstr "policy-1")))) (bstr "hello my ")), frame.
  split; [|reflexivity].
  replace frame with (default [] (Some frame)) by done. rewrite <-E. by_vm.
Qed.

(** The shutdown branch does not ask whether the response is an event stream:
    a plain body of which nothing was sent yet is delivered after a receipt event
    and the shutdown marker, in the middle of a document that is not an event
    stream. *)
Theorem shutdown_events_in_plain_body :
  ∃ t' frame,
    run_task (task false (bstr "policy-1"))
      [(now, EvItem (Some (Ok (bstr "[1, 2]")))); (now, EvShutdown true)] [] =
      Some (Ended t' (EndFinished false), frame ++ shutdown_marker ++ bstr "[1, 2]") ∧
    starts_with frame ([newline] ++ bstr "event: proxy_audit") = true.
Proof.
  destruct (audit_frame (receipt_fields (tk_detector (task true (bstr "policy-1")))
      (hex_encode (hasher_finalize hasher_new))
      (hex_encode (blake3_hash []))) key 0) as [frame|] eqn:E; [|discriminate E].
  eexists (set_detector (set_redactor (task false (bstr "policy-1"))
      (set_pending (tk_redactor (task false (bstr "policy-1"))) []))
      (set_completed (tk_detector (task false (bstr "policy-1")))) (bstr "[1, 2]")), frame.
  replace frame with (default [] (Some frame)) by done. rewrite <-E. split; by_vm.
Qed.
