(* ===== verification/Config.v ===== *)
(** * Configuration and hot reload ([src/main.rs])

    The rule file, the key file and the origin list, and what the two watcher
    threads do with an event of the file watcher.  The watcher ([notify]) and the
    file system are parameters: an event carries the paths it reports, and a
    read attempt yields the file's text or fails. *)

From S2P Require Import Prelude Utf8 RustStr AhoCorasick Externals BudgetQueue Engine.

(** ** Parsing *)

(** The entries of [ALLOWED_ORIGINS]; none when the variable is unset. *)
Definition parse_allowed_origins (origins : option bytes) : list bytes :=
  match origins with
  | Some origins =>
    filter (λ origin, origin ≠ []) (trim <$> split_by (is_byte ","%byte) origins)
  | None => []
  end.

Definition default_pii_patterns : bytes := bstr "password,secret,ssn".

(** The text of the rules: the configured file if it can be read, else
    [PII_PATTERNS], else the default. *)
Definition pii_source (config_path : option bytes) (read : bytes → option bytes)
    (pii_patterns : option bytes) : bytes :=
  match path ← config_path; read path with
  | Some content => content
  | None => default default_pii_patterns pii_patterns
  end.

(** One entry: [pattern:replacement], or a pattern alone. *)
Definition parse_rule (raw : bytes) : option (bytes * bytes) :=
  let entry := trim raw in
  if bool_decide (entry = []) then None
  else match split_once ":"%byte entry with
       | Some (pattern, replacement) =>
         if negb (bool_decide (trim pattern = [])) && negb (bool_decide (trim replacement = []))
         then Some (trim pattern, trim replacement)
         else Some (entry, bstr "[REDACTED]")
       | None => Some (entry, bstr "[REDACTED]")
       end.

Definition rule_separator (b : Byte.byte) : bool := is_byte LF b || is_byte ","%byte b.

Definition parse_pii_config (source : bytes) : list bytes * list bytes :=
  foldl (λ '(patterns, replacements) raw,
           match parse_rule raw with
           | Some (pattern, replacement) => (patterns ++ [pattern], replacements ++ [replacement])
           | None => (patterns, replacements)
           end) ([], []) (split_by rule_separator source).

(** ** Watching *)

(** A path is the list of its components. *)
Inductive Component := RootDir | CurDir | ParentDir | Normal (name : bytes).
#[global] Instance component_eq_dec : EqDecision Component.
Proof. solve_decision. Defined.
Abbreviation Path := (list Component).

Definition file_name (p : Path) : option bytes :=
  match last p with Some (Normal name) => Some name | _ => None end.

(** The configured file itself, or the [..data] link of a mounted volume. *)
Definition concerns (path event_path : Path) : bool :=
  bool_decide (event_path = path) || bool_decide (file_name event_path = Some (bstr "..data")).

(** [for delay in [100, 500, 1_000, 2_000]]: the first attempt that succeeds. *)
Definition read_attempts (read : nat → option bytes) : option bytes :=
  match read 0%nat with
  | Some c => Some c
  | None => match read 1%nat with
            | Some c => Some c
            | None => match read 2%nat with Some c => Some c | None => read 3%nat end
            end
  end.

(** The text an event leads to: none for an error of the watcher ([None]), for
    paths that are not concerned and for a file that cannot be read. *)
Definition reload_text (path : Path) (event : option (list Path)) (read : nat → option bytes)
    : option bytes :=
  match event with
  | None => None
  | Some paths => if negb (existsb (concerns path) paths) then None else read_attempts read
  end.

Section Config.
Context {ac_api : AhoCorasickApi} {b3_api : Blake3Api} {enc_api : EncodingApi}
  {json_api : SerdeJsonApi} {sem_api : SemaphoreApi}.

Definition hash_keyring (source : bytes) : list bytes :=
  blake3_hash <$> filter (λ token, token ≠ []) (trim <$> lines source).

(** What the auth watcher changes: the tenant table, then the keyring. *)
Definition clear_table (w : World) (t : table_id) : World := set_table w t ∅.

Record AuthState := { au_keyring : list bytes; au_world : World }.

(** One event.  [t] is the tenant table the proxy shares with the watcher. *)
Definition auth_event (path : Path) (t : table_id) (st : AuthState)
    (event : option (list Path)) (read : nat → option bytes) : AuthState :=
  match reload_text path event read with
  | None => st
  | Some contents =>
    let next_keyring := hash_keyring contents in
    if bool_decide (next_keyring = []) then st
    else {| au_keyring := next_keyring; au_world := clear_table (au_world st) t |}
  end.

Record RulesState := { ru_engine : EngineState; ru_vault : PiiVault }.

(** The rules of a text; [None] when building them panics. *)
Definition compile_rules (contents : bytes) : option RulesState :=
  let '(patterns, replacements) := parse_pii_config contents in
  next_vault ← PiiVault_new patterns replacements;
  next_engine_state ← EngineState_new patterns replacements;
  Some {| ru_engine := next_engine_state; ru_vault := next_vault |}.

(** One event of the rules watcher; [None] when the thread panics. *)
Definition pii_event (path : Path) (st : RulesState)
    (event : option (list Path)) (read : nat → option bytes) : option RulesState :=
  match reload_text path event read with
  | None => Some st
  | Some contents => compile_rules contents
  end.

(** The rules the proxy starts with. *)
Definition initial_rules (source : bytes) : option RulesState :=
  let '(pattern_values, replacement_values) := parse_pii_config source in
  vault ← PiiVault_new pattern_values replacement_values;
  Some {| ru_engine := pv_engine_state vault; ru_vault := vault |}.

End Config.
