(* ===== verification/ConfigProofs.v ===== *)
(** * Correctness of configuration and hot reload

    Rule and key files are read back as they are written, the pieces of state
    the watchers replace stay consistent with each other, and a bad key file
    never takes the proxy's keys away. *)

From S2P Require Import Prelude Utf8 RustStr AhoCorasick Externals BudgetQueue BudgetQueueProofs Engine EngineBoundary Config.

(** ** Rules *)

Definition rules_of (source : bytes) : list (bytes * bytes) :=
  omap parse_rule (split_by rule_separator source).

Lemma parse_pii_config_rules source :
  parse_pii_config source = (fst <$> rules_of source, snd <$> rules_of source).
Proof.
  unfold parse_pii_config, rules_of.
  assert (∀ raws ps rs,
    foldl (λ '(patterns, replacements) raw,
           match parse_rule raw with
           | Some (pattern, replacement) => (patterns ++ [pattern], replacements ++ [replacement])
           | None => (patterns, replacements)
           end) (ps, rs) raws
    = (ps ++ (fst <$> omap parse_rule raws), rs ++ (snd <$> omap parse_rule raws))) as K;
    [|by rewrite K].
  induction raws as [|raw raws IH]; intros ps rs; cbn -[parse_rule].
  { by rewrite !app_nil_r. }
  destruct (parse_rule raw) as [[p r]|]; rewrite IH; [|done]. cbn. by rewrite <-!app_assoc.
Qed.

Lemma parse_rule_nonempty raw p r : parse_rule raw = Some (p, r) → p ≠ [] ∧ r ≠ [].
Proof.
  unfold parse_rule. case_bool_decide as He; [done|].
  destruct (split_once _ _) as [[a b]|]; [|by intros [= <- <-]].
  destruct (_ && _) eqn:E; intros [= <- <-]; [|done]. by bool_props.
Qed.

Lemma parse_rule_elem raw p r x : parse_rule raw = Some (p, r) → x ∈ p → x ∈ raw.
Proof.
  unfold parse_rule. case_bool_decide as He; [done|].
  destruct (split_once _ _) as [[a b]|] eqn:Es.
  - apply split_once_spec in Es as [Es _].
    destruct (_ && _); intros [= <- <-] Hx; [|by apply trim_elem].
    apply trim_elem. rewrite Es. apply elem_of_app. left. by apply trim_elem.
  - intros [= <- <-] Hx. by apply trim_elem.
Qed.

(** C31: Whatever the rule file contains, the parser returns as many replacements
    as patterns, and every pattern and replacement is non-empty; no pattern
    contains a separator.  Building the vault from them therefore never fails its
    length check. *)
Theorem pii_config_wf source :
  let '(patterns, replacements) := parse_pii_config source in
  length patterns = length replacements ∧
  Forall (λ p, p ≠ [] ∧ Forall (λ b, rule_separator b = false) p) patterns ∧
  Forall (λ r, r ≠ []) replacements.
Proof.
  rewrite parse_pii_config_rules. split; [by rewrite !length_fmap|].
  assert (Forall (λ '(p, r), (p ≠ [] ∧ Forall (λ b, rule_separator b = false) p) ∧ r ≠ [])
    (rules_of source)) as K.
  { apply Forall_forall. intros [p r] Hin. apply list_elem_of_omap in Hin as (raw & Hraw & E).
    destruct (parse_rule_nonempty _ _ _ E) as [Hp Hr]. split_and!; [done| |done].
    apply Forall_forall. intros x Hx. pose proof (split_by_pieces rule_separator source) as Hs.
    rewrite Forall_forall in Hs. specialize (Hs _ Hraw). rewrite Forall_forall in Hs.
    apply Hs. eauto using parse_rule_elem. }
  split; apply Forall_fmap, (Forall_impl _ _ _ K); intros [p r]; cbn; naive_solver.
Qed.

(** The patterns of a valid text are valid texts. *)
Lemma parse_rule_valid raw p r :
  valid_utf8 raw = true → parse_rule raw = Some (p, r) → valid_utf8 p = true.
Proof.
  intros Hv%trim_valid. unfold parse_rule. case_bool_decide; [done|].
  destruct (split_once _ _) as [[a b]|] eqn:Es; [|by intros [= <- <-]].
  apply split_once_valid in Es as [Ha _]; [|done|done].
  destruct (_ && _); intros [= <- <-]; [by apply trim_valid|done].
Qed.

(** So an engine can be built from any rule file. *)
Lemma parsed_rules_ok source :
  valid_utf8 source = true →
  rules_ok (parse_pii_config source).1 (parse_pii_config source).2 = true.
Proof.
  intros Hv. rewrite parse_pii_config_rules. unfold rules_ok. cbn.
  rewrite !length_fmap, Nat.leb_refl, andb_true_r. apply forallb_forall.
  intros p ([q r] & -> & Hin)%list_elem_of_In%list_elem_of_fmap.
  apply list_elem_of_omap in Hin as (raw & Hraw & E). cbn.
  destruct (parse_rule_nonempty _ _ _ E) as [Hp _]. rewrite bool_decide_false by done. cbn.
  eapply parse_rule_valid, E.
  assert (Forall (λ piece, valid_utf8 piece = true) (split_by rule_separator source)) as Hs.
  { apply split_by_valid; [|done]. intros b. unfold rule_separator, is_byte.
    by intros [E'|E']%orb_prop; apply bool_decide_eq_true in E' as ->. }
  rewrite Forall_forall in Hs. by apply Hs.
Qed.

(** A rule as an operator writes it. *)
Definition writable_rule (rule : bytes * bytes) : Prop :=
  clean rule.1 = true ∧ clean rule.2 = true ∧ (":"%byte ∉ rule.1) ∧
  Forall (λ b, rule_separator b = false) (rule.1 ++ rule.2).

Definition write_rule (rule : bytes * bytes) : bytes := rule.1 ++ ":"%byte :: rule.2.

Lemma split_once_app c a b : c ∉ a → split_once c (a ++ c :: b) = Some (a, b).
Proof.
  induction a as [|x a IH]; intros Hc; cbn; unfold is_byte.
  - by rewrite bool_decide_true.
  - apply (not_elem_of_cons a c x) in Hc as [H1 H2].
    rewrite bool_decide_false by congruence. by rewrite IH.
Qed.

Lemma clean_join a c b : clean a = true → clean b = true → clean (a ++ c :: b) = true.
Proof.
  intros Ha Hb. destruct a as [|x a]; [done|]. destruct b as [|y b]; [done|].
  unfold clean in *. apply andb_prop in Ha as [Ha _]. apply andb_prop in Hb as [_ Hb].
  cbn [app]. rewrite Ha. cbn [andb].
  change (x :: a ++ c :: y :: b) with ((x :: a) ++ [c] ++ (y :: b)).
  rewrite app_assoc, last_app. by destruct (last (y :: b)).
Qed.

Lemma parse_rule_write rule : writable_rule rule → parse_rule (write_rule rule) = Some rule.
Proof.
  intros (Hp & Hr & Hc & _). destruct rule as [p r]. unfold parse_rule, write_rule. cbn [fst snd] in *.
  rewrite trim_clean by (by apply clean_join).
  rewrite bool_decide_false by (by destruct p).
  rewrite split_once_app by done. rewrite !trim_clean by done.
  rewrite !bool_decide_false by (by apply clean_nonempty). done.
Qed.

(** Lines, each ended by a line feed, are split back into themselves. *)
Lemma split_by_unlines p ls :
  p LF = true → Forall (Forall (λ b, p b = false)) ls →
  split_by p (concat ((λ l, l ++ [LF]) <$> ls)) = ls ++ [[]].
Proof.
  intros Hp Hl. induction Hl as [|l ls Hl _ IH]; [done|].
  cbn [fmap list_fmap concat]. rewrite <-app_assoc. cbn [app].
  by rewrite split_by_app, IH.
Qed.

(** C30: Rules written one per line as [pattern:replacement] are read back exactly,
    in order, if they can be written so: neither part is empty, has spaces around it
    or a separator in it, and the pattern has no colon. *)
Theorem pii_config_roundtrip rules :
  Forall writable_rule rules →
  parse_pii_config (concat ((λ r, write_rule r ++ [LF]) <$> rules)) = (fst <$> rules, snd <$> rules).
Proof.
  intros H. rewrite parse_pii_config_rules. unfold rules_of.
  replace ((λ r, write_rule r ++ [LF]) <$> rules) with ((λ l, l ++ [LF]) <$> (write_rule <$> rules))
    by (by rewrite <-list_fmap_compose).
  rewrite split_by_unlines; [|done|].
  - rewrite omap_app. cbn. rewrite app_nil_r.
    assert (omap parse_rule (write_rule <$> rules) = rules) as ->; [|done].
    induction H as [|r rules Hr _ IH]; [done|]. cbn -[parse_rule].
    rewrite parse_rule_write by done. by rewrite IH.
  - apply Forall_fmap. eapply Forall_impl; [exact H|]. intros [p r] (_ & _ & _ & Hs). cbn in *.
    apply Forall_app in Hs as [H1 H2]. apply Forall_app. split; [done|]. by constructor.
Qed.

Section Reload.
Context {ac_api : AhoCorasickApi} {b3_api : Blake3Api} {enc_api : EncodingApi}
  {json_api : SerdeJsonApi} {sem_api : SemaphoreApi} {sem_laws : SemaphoreLaws}.

(** ** Keys *)

Lemma strip_cr_clean t : clean t = true → strip_cr t = t.
Proof.
  intros H. unfold strip_cr, strip_suffix. destruct (ends_with t [CR]) eqn:E; [|done].
  apply ends_with_spec in E as [u ->]. destruct u as [|x u]; [done|].
  unfold clean in H. cbn [app] in H. apply andb_prop in H as [_ H].
  change (x :: u ++ [CR]) with ((x :: u) ++ [CR]) in H. by rewrite last_snoc in H.
Qed.

Lemma lines_of_unlines ls : lines_of (ls ++ [[]]) = strip_cr <$> ls.
Proof.
  induction ls as [|l ls IH]; [done|]. cbn. rewrite IH. by destruct ls.
Qed.

(** A key file with one token per line yields the digests of exactly these
    tokens, in order. *)
Theorem keyring_roundtrip tokens :
  Forall (λ t, clean t = true ∧ LF ∉ t) tokens →
  hash_keyring (concat ((λ t, t ++ [LF]) <$> tokens)) = blake3_hash <$> tokens.
Proof.
  intros H. unfold hash_keyring, lines. rewrite split_by_unlines, lines_of_unlines; [|done|].
  - f_equal. induction H as [|t tokens [Ht _] _ IH]; [done|].
    rewrite !fmap_cons, strip_cr_clean, trim_clean by done.
    rewrite filter_cons, decide_True by (by apply clean_nonempty). by rewrite IH.
  - eapply Forall_impl; [exact H|]. intros t [_ Ht]. apply Forall_forall. intros b Hb.
    apply bool_decide_eq_false. by intros ->.
Qed.

(** A run of the auth watcher. *)
Definition auth_run (path : Path) (t : table_id) (st : AuthState)
    (events : list (option (list Path) * (nat → option bytes))) : AuthState :=
  foldl (λ st '(event, read), auth_event path t st event read) st events.

Lemma auth_event_cases path t st event read :
  auth_event path t st event read = st ∨
  ∃ contents k, read k = Some contents ∧ hash_keyring contents ≠ [] ∧
    auth_event path t st event read =
      {| au_keyring := hash_keyring contents; au_world := clear_table (au_world st) t |}.
Proof.
  unfold auth_event, reload_text. destruct event as [paths|]; [|by left].
  destruct (negb _); [by left|]. unfold read_attempts.
  destruct (read 0%nat) as [c|] eqn:E0; [|destruct (read 1%nat) as [c|] eqn:E1;
    [|destruct (read 2%nat) as [c|] eqn:E2; [|destruct (read 3%nat) as [c|] eqn:E3; [|by left]]]];
    (case_bool_decide; [by left|right; exists c; eauto]).
Qed.

(** Whatever the file watcher reports and whatever the key file contains
    (empty, unreadable, half written), the proxy never ends up without keys, and
    the keys in force are the initial ones or the digests of some text the file
    had: nothing else can become a valid key. *)
Theorem keyring_never_empty path t st events :
  au_keyring st ≠ [] →
  au_keyring (auth_run path t st events) ≠ [] ∧
  (au_keyring (auth_run path t st events) = au_keyring st ∨
   ∃ event read k contents, (event, read) ∈ events ∧ read k = Some contents ∧
     au_keyring (auth_run path t st events) = hash_keyring contents).
Proof.
  unfold auth_run. induction events as [|[event read] events IH] using rev_ind; intros Hne.
  { split; [done|by left]. }
  rewrite foldl_snoc. destruct (IH Hne) as [H1 H2]. set (st' := foldl _ st events) in *.
  destruct (auth_event_cases path t st' event read) as [->|(contents & k & Hk & Hn & ->)].
  - split; [done|]. destruct H2 as [H2|(e & r & k & c & Hin & Hr & Hc)]; [by left|].
    right. exists e, r, k, c. split_and!; [|done|done]. apply elem_of_app. by left.
  - split; [done|]. right. exists event, read, k, contents. split_and!; [|done|done].
    apply elem_of_app. right. left.
Qed.

(** A successful key reload also forgets the tenant budgets: the next stream
    of any tenant gets a fresh semaphore with the full tenant budget, whatever its
    earlier streams still hold. *)
Theorem reload_refreshes_budgets path tb st paths read contents k cap :
  existsb (concerns path) paths = true →
  read_attempts read = Some contents → hash_keyring contents ≠ [] → (0 < cap)%Z →
  let st' := auth_event path (tb_tenant_budgets tb) st (Some paths) read in
  au_keyring st' = hash_keyring contents ∧
  ∃ b w', for_tenant (au_world st') tb k cap = Some (b, w') ∧
    available w' b = TENANT_MEMORY_BUDGET ∧
    w_sems (au_world st') = w_sems (au_world st).
Proof.
  intros Hc Hr Hk Hcap st'. unfold st', auth_event, reload_text. rewrite Hc, Hr. cbn [negb].
  rewrite bool_decide_false by done. cbn [au_keyring au_world]. split; [done|].
  rewrite for_tenant_eq by done. do 2 eexists. split; [done|]. split; [|done].
  assert (table (clear_table (au_world st) (tb_tenant_budgets tb)) (tb_tenant_budgets tb) !! k
    = None) as Hn.
  { unfold clear_table. rewrite table_set_table, decide_True by done. apply lookup_empty. }
  apply tenant_semaphore_fresh in Hn. unfold avail, available in *. cbn [bb_semaphore].
  destruct (w_sems _ !! _); [|done]. by injection Hn.
Qed.

(** ** Rules in force *)

Fixpoint pii_run (path : Path) (st : RulesState)
    (events : list (option (list Path) * (nat → option bytes))) : option RulesState :=
  match events with
  | [] => Some st
  | (event, read) :: events => st ← pii_event path st event read; pii_run path st events
  end.

(** The engine and the vault hold the same rules. *)
Definition rules_consistent (st : RulesState) : Prop :=
  ru_engine st = pv_engine_state (ru_vault st) ∧
  es_patterns (ru_engine st) = pv_patterns (ru_vault st) ∧
  es_replacement_strings (ru_engine st) = pv_replacement_strings (ru_vault st) ∧
  length (es_patterns (ru_engine st)) = length (es_replacement_strings (ru_engine st)).

Lemma PiiVault_new_engine ps rs v :
  PiiVault_new ps rs = Some v →
  EngineState_new ps rs = Some (pv_engine_state v) ∧
  rules_consistent {| ru_engine := pv_engine_state v; ru_vault := v |}.
Proof.
  unfold PiiVault_new. destruct (negb _) eqn:El; [done|].
  apply negb_false_iff, Nat.eqb_eq in El.
  destruct (build_redaction_dfa ps) as [ac|] eqn:Eb; cbn; [|done].
  destruct (mapM escape_replacement rs) as [esc|]; cbn; [|done].
  unfold EngineState_new. rewrite Eb. cbn. intros [= <-]. done.
Qed.

(** The one-shot vault and the streaming engine always hold the same rules,
    with one replacement per pattern, from the start and after every reload;
    reload errors and unrelated events change nothing. *)
Theorem rules_stay_consistent path source st events st' :
  initial_rules source = Some st → pii_run path st events = Some st' → rules_consistent st'.
Proof.
  unfold initial_rules. destruct (parse_pii_config source) as [ps rs].
  destruct (PiiVault_new ps rs) as [v|] eqn:Ev; cbn; [|done]. intros [= <-].
  apply PiiVault_new_engine in Ev as [_ Hc]. revert Hc.
  generalize {| ru_engine := pv_engine_state v; ru_vault := v |}. clear v ps rs.
  induction events as [|[event read] events IH]; intros st Hc; cbn; [by intros [= <-]|].
  unfold pii_event. destruct (reload_text path event read) as [contents|]; [|by apply IH].
  unfold compile_rules. destruct (parse_pii_config contents) as [ps rs].
  destruct (PiiVault_new ps rs) as [v|] eqn:Ev; cbn; [|done].
  apply PiiVault_new_engine in Ev as [-> Hv]. cbn. by apply IH.
Qed.

End Reload.

(** ** Concrete runs *)

Import NaiveSearch Transparent.
Import (hints) CounterSemaphore.

Module ConfigDemo.

Definition rules : list (bytes * bytes) :=
  [(bstr "password", bstr "[PW]"); (bstr "account no", bstr "[AC:CT]")].
Definition tokens : list bytes := [bstr "alpha-key"; bstr "beta key"].
Definition key_file : bytes := concat ((λ t, t ++ [LF]) <$> tokens).
Definition path : Path := [RootDir; Normal (bstr "etc"); Normal (bstr "keys")].
Definition state : AuthState :=
  {| au_keyring := [bstr "old"]; au_world := CounterSemaphore.world |}.
(** The first two reads fail. *)
Definition reads (n : nat) : option bytes := if (n <? 2)%nat then None else Some key_file.
Definition tenant_budget : TenantBudget := {| tb_tenant_budgets := 7; tb_global_memory := 0 |}.

(** The rules for a list of patterns and replacements. *)
Definition rules_state (ps rs : list bytes) (n : nat) : RulesState :=
  let engine := {| es_ac := ps : AhoCorasick; es_max_pattern_len := n; es_patterns := ps;
                   es_replacements := rs; es_replacement_strings := rs |} in
  {| ru_engine := engine;
     ru_vault := {| pv_searcher := ps : AhoCorasick; pv_max_pattern_len := n; pv_patterns := ps;
                    pv_replacements := rs; pv_replacement_strings := rs;
                    pv_escaped_replacements := rs; pv_engine_state := engine |} |}.
Definition first_rules : RulesState :=
  rules_state [bstr "password"; bstr "ssn"] [bstr "[REDACTED]"; bstr "[SSN]"] 8.
Definition second_rules : RulesState := rules_state [bstr "secret"] [bstr "X"] 6.

End ConfigDemo.
Import ConfigDemo.

Lemma pii_config_roundtrip_witness :
  parse_pii_config (concat ((λ r, write_rule r ++ [LF]) <$> rules)) =
    ([bstr "password"; bstr "account no"], [bstr "[PW]"; bstr "[AC:CT]"]).
Proof.
  rewrite (pii_config_roundtrip rules); [reflexivity|].
  apply Forall_cons; split; [|apply Forall_cons; split; [|apply Forall_nil_2]];
    (split; [reflexivity|split; [reflexivity|split]]);
    first [apply (bool_decide_unpack _); vm_compute; exact I|repeat constructor].
Defined.

Lemma keyring_roundtrip_witness :
  hash_keyring key_file = [blake3_hash (bstr "alpha-key"); blake3_hash (bstr "beta key")].
Proof.
  apply (keyring_roundtrip tokens).
  apply Forall_cons; split; [|apply Forall_cons; split; [|apply Forall_nil_2]];
    (split; [reflexivity|apply (bool_decide_unpack _); vm_compute; exact I]).
Defined.

Lemma keyring_never_empty_witness :
  au_keyring (auth_run path 7 state [(Some [path], reads); (Some [path], λ _, Some [])]) ≠ [].
Proof.
  apply (keyring_never_empty path 7 state [(Some [path], reads); (Some [path], λ _, Some [])]).
  discriminate.
Defined.

Lemma reload_refreshes_budgets_witness :
  ∃ b w', for_tenant (au_world (auth_event path 7 state (Some [path]) reads)) tenant_budget
            (bstr "tenant") 100 = Some (b, w') ∧
    available w' b = TENANT_MEMORY_BUDGET.
Proof.
  destruct (reload_refreshes_budgets path tenant_budget state [path] reads key_file
    (bstr "tenant") 100) as (_ & b & w' & H1 & H2 & _).
  - vm_compute. reflexivity.
  - vm_compute. reflexivity.
  - vm_compute. discriminate.
  - reflexivity.
  - exists b, w'. exact (conj H1 H2).
Defined.

Lemma rules_stay_consistent_witness :
  initial_rules (bstr "password, ssn: [SSN]") = Some first_rules ∧
  pii_run path first_rules [(Some [path], λ _, Some (bstr "secret:X"))] = Some second_rules ∧
  rules_consistent second_rules.
Proof.
  assert (initial_rules (bstr "password, ssn: [SSN]") = Some first_rules) as E1 by by_vm.
  assert (pii_run path first_rules [(Some [path], λ _, Some (bstr "secret:X"))]
    = Some second_rules) as E2 by by_vm.
  split; [exact E1|]. split; [exact E2|].
  exact (rules_stay_consistent path (bstr "password, ssn: [SSN]") first_rules
    [(Some [path], λ _, Some (bstr "secret:X"))] second_rules E1 E2).
Defined.
