(* ===== verification/Watchers.v ===== *)
(** * The file watchers as threads ([watch_auth_file] and [watch_pii_config] of
      [src/main.rs])

    Both threads set up a watcher for the directory of their file and then handle
    its events one after the other, as [Config] defines it.  Beside the thread of
    the rules, administrators replace the rules through [update_rules]; the cells
    with the rules are shared, and the thread writes its two cells one after the
    other.  The theorems say which keys and which rules are in force. *)

From S2P Require Import Prelude Utf8 RustStr AhoCorasick Externals BudgetQueue BudgetQueueProofs Engine EngineBoundary Http Endpoints Config ConfigProofs.

(** ** Paths *)

Definition component (first : bool) (piece : bytes) : option Component :=
  if bool_decide (piece = []) then None
  else if bool_decide (piece = bstr ".") then (if first then Some CurDir else None)
  else if bool_decide (piece = bstr "..") then Some ParentDir
  else Some (Normal piece).

(** [Path::components]: repeated slashes and inner dots disappear. *)
Definition components (text : bytes) : Path :=
  match split_by (is_byte "/"%byte) text with
  | [] => []
  | piece :: pieces =>
    (if starts_with text (bstr "/") then [RootDir] else option_list (component true piece))
      ++ omap (component false) pieces
  end.

(** [Path::parent]: none for a root or an empty path. *)
Definition parent (p : Path) : option Path :=
  match last p with
  | None | Some RootDir => None
  | Some _ => Some (take (length p - 1) p)
  end.

(** The directory that is watched. *)
Definition watch_dir (path : Path) : Path := default [CurDir] (parent path).

(** ** Setting up *)

(** Whether a watcher can be made, and which directories it can watch. *)
Record Notify := { nf_create : bool; nf_watch : Path → bool }.

(** What the thread panics with when it cannot watch, [kind] being [auth] or
    [config]. *)
Definition watcher_panic (nf : Notify) (kind : bytes) (path : Path) : option bytes :=
  if negb (nf_create nf) then Some (bstr "failed to create " ++ kind ++ bstr " watcher")
  else if negb (nf_watch nf (watch_dir path))
       then Some (bstr "failed to watch " ++ kind ++ bstr " directory")
       else None.

(** An event, and what the attempts to read the file then give. *)
Abbreviation FileEvent := (option (list Path) * (nat → option bytes))%type.

Section Watchers.
Context {ac_api : AhoCorasickApi} {b3_api : Blake3Api} {enc_api : EncodingApi}
  {json_api : SerdeJsonApi} {sem_api : SemaphoreApi}.

(** ** The keys *)

(** The thread with the events it has received so far: the state it leaves, and
    the message if it died. *)
Definition watch_auth_file (nf : Notify) (path : Path) (t : table_id) (st : AuthState)
    (events : list FileEvent) : AuthState * option bytes :=
  match watcher_panic nf (bstr "auth") path with
  | Some message => (st, Some message)
  | None => (auth_run path t st events, None)
  end.

(** The keyring an event brings: that of a text with at least one key. *)
Definition good_keyring (path : Path) (input : FileEvent) : option (list bytes) :=
  contents ← reload_text path input.1 input.2;
  if bool_decide (hash_keyring contents = []) then None else Some (hash_keyring contents).

(** ** The rules *)

(** The thread waits, has stored the engine and is about to store the vault, or
    has died. *)
Inductive WatcherState := Idle | Storing (next_vault : PiiVault) | Dead.

Record RulesCells := { rc_rules : RulesState; rc_watcher : WatcherState }.

(** What happens to the rules: the thread receives an event, it stores the vault,
    an administrator sends patterns. *)
Inductive RulesInput :=
| FileChanged (input : FileEvent)
| VaultStore
| AdminPost (patterns : list bytes).

Definition set_engine (st : RulesState) (engine : EngineState) : RulesState :=
  {| ru_engine := engine; ru_vault := ru_vault st |}.
Definition set_vault (st : RulesState) (vault : PiiVault) : RulesState :=
  {| ru_engine := ru_engine st; ru_vault := vault |}.

(** The thread before its first event. *)
Definition watch_pii_config_start (nf : Notify) (path : Path) : WatcherState :=
  match watcher_panic nf (bstr "config") path with Some _ => Dead | None => Idle end.

(** One input; [None] for a step the thread cannot take now.  The thread reads and
    builds the rules, which shares nothing, and stores the engine; building may
    panic, which ends the thread and leaves the rules. *)
Definition rules_step (path : Path) (cells : RulesCells) (input : RulesInput) : option RulesCells :=
  let rules := rc_rules cells in
  match input, rc_watcher cells with
  | FileChanged (event, read), Idle =>
    match reload_text path event read with
    | None => Some cells
    | Some contents =>
      match compile_rules contents with
      | None => Some {| rc_rules := rules; rc_watcher := Dead |}
      | Some next => Some {| rc_rules := set_engine rules (ru_engine next);
                             rc_watcher := Storing (ru_vault next) |}
      end
    end
  | FileChanged _, Dead => Some cells
  | FileChanged _, Storing _ => None
  | VaultStore, Storing next_vault =>
    Some {| rc_rules := set_vault rules next_vault; rc_watcher := Idle |}
  | VaultStore, _ => None
  | AdminPost patterns, watcher =>
    Some {| rc_rules := set_engine rules (update_rules (ru_engine rules) patterns).2;
            rc_watcher := watcher |}
  end.

Fixpoint rules_run (path : Path) (cells : RulesCells) (inputs : list RulesInput)
    : option RulesCells :=
  match inputs with
  | [] => Some cells
  | input :: inputs => cells ← rules_step path cells input; rules_run path cells inputs
  end.

(** *** The specification: the last good text or post wins *)

(** What an input offers: rules from a file, or an engine from an administrator. *)
Definition file_rules (path : Path) (input : RulesInput) : option RulesState :=
  match input with
  | FileChanged (event, read) => reload_text path event read ≫= compile_rules
  | _ => None
  end.

Definition offered_engine (path : Path) (input : RulesInput) : option EngineState :=
  match input with
  | AdminPost [] => None
  | AdminPost patterns => EngineState_new patterns ((λ _, bstr "[REDACTED]") <$> patterns)
  | _ => ru_engine <$> file_rules path input
  end.

(** A text whose rules cannot be built. *)
Definition kills_watcher (path : Path) (input : RulesInput) : bool :=
  match input with
  | FileChanged (event, read) =>
    match reload_text path event read with
    | Some contents => match compile_rules contents with Some _ => false | None => true end
    | None => false
    end
  | _ => false
  end.

(** The inputs that are heard: posts always, events while the thread lives. *)
Fixpoint heard (path : Path) (alive : bool) (inputs : list RulesInput) : list RulesInput :=
  match inputs with
  | [] => []
  | FileChanged input :: inputs =>
    if alive
    then FileChanged input :: heard path (negb (kills_watcher path (FileChanged input))) inputs
    else heard path false inputs
  | input :: inputs => input :: heard path alive inputs
  end.

Definition alive (watcher : WatcherState) : bool :=
  match watcher with Dead => false | _ => true end.

(** The vault that is stored or about to be. *)
Definition newest_vault (cells : RulesCells) : PiiVault :=
  match rc_watcher cells with
  | Storing next_vault => next_vault
  | _ => ru_vault (rc_rules cells)
  end.

(** ** Correctness of the keys *)

Lemma auth_event_good path t st input :
  auth_event path t st input.1 input.2 =
  match good_keyring path input with
  | Some keyring => {| au_keyring := keyring; au_world := clear_table (au_world st) t |}
  | None => st
  end.
Proof.
  unfold auth_event, good_keyring. destruct (reload_text _ _ _) as [contents|]; cbn; [|done].
  by case_bool_decide.
Qed.

Lemma clear_table_twice w t : clear_table (clear_table w t) t = clear_table w t.
Proof.
  unfold clear_table, set_table. cbn. f_equal. apply insert_insert_eq.
Qed.

Lemma auth_run_good path t events : ∀ st,
  let good := omap (good_keyring path) events in
  auth_run path t st events =
  {| au_keyring := default (au_keyring st) (last good);
     au_world := match good with [] => au_world st | _ => clear_table (au_world st) t end |}.
Proof.
  unfold auth_run. induction events as [|[event read] events IH]; intros st; cbn; [by destruct st|].
  pose proof (auth_event_good path t st (event, read)) as E. cbn [fst snd] in E. rewrite IH, E.
  destruct (good_keyring path (event, read)) as [keyring|]; cbn; [|done].
  rewrite default_last_cons. f_equal.
  destruct (omap _ events); [done|]. apply clear_table_twice.
Qed.

(** Where the keys in force come from. *)
Lemma keyring_source nf path t st events :
  let keyring := au_keyring (watch_auth_file nf path t st events).1 in
  keyring = au_keyring st ∨
  ∃ input contents, input ∈ events ∧ reload_text path input.1 input.2 = Some contents ∧
    keyring = hash_keyring contents.
Proof.
  unfold watch_auth_file. destruct (watcher_panic _ _ _); [by left|]. cbn -[auth_run].
  rewrite auth_run_good. cbn. destruct (last _) as [keyring|] eqn:E; [|by left]. right.
  apply last_Some_elem_of, list_elem_of_omap in E as (input & Hin & E).
  unfold good_keyring in E. destruct (reload_text _ _ _) as [contents|] eqn:Er; cbn in E; [|done].
  case_bool_decide; [done|]. injection E as <-. by exists input, contents.
Qed.

(** C28: The keys in force are those of the last text of the key file that
    was read after an event and has at least one key, or else those of the start;
    with the first such text the tenant table is emptied, and the thread changes
    nothing else of the shared state.  A thread that could not set up its watcher
    leaves everything as it is. *)
Theorem keys_last_good nf path t st events :
  let '(st', died) := watch_auth_file nf path t st events in
  let good := match died with Some _ => [] | None => omap (good_keyring path) events end in
  au_keyring st' = default (au_keyring st) (last good) ∧
  Forall (λ keyring, keyring ≠ []) good ∧
  au_world st' = match good with [] => au_world st | _ => clear_table (au_world st) t end ∧
  (died = None ↔ nf_create nf = true ∧ nf_watch nf (watch_dir path) = true).
Proof.
  unfold watch_auth_file, watcher_panic.
  destruct (nf_create nf); cbn [negb]; [|by split_and!; naive_solver].
  destruct (nf_watch nf (watch_dir path)); cbn [negb]; [|by split_and!; naive_solver].
  rewrite auth_run_good. cbn. split_and!; try done.
  apply Forall_forall. intros keyring (input & _ & E)%list_elem_of_omap.
  unfold good_keyring in E. destruct (reload_text _ _ _); cbn in E; [|done].
  case_bool_decide; [done|]. by injection E as <-.
Qed.

(** ** Correctness of the rules *)

(** What the types of the source see to: [read_to_string] gives text, and the
    patterns of a request are strings.  A posted pattern may be empty. *)
Definition text_input (input : RulesInput) : Prop :=
  match input with
  | FileChanged (_, read) => ∀ k contents, read k = Some contents → valid_utf8 contents = true
  | VaultStore => True
  | AdminPost patterns => Forall (λ p, valid_utf8 p = true) patterns
  end.

Section RulesInForce.
Context {ac_laws : AhoCorasickLaws}.

Lemma EngineState_new_text ps rs engine :
  EngineState_new ps rs = Some engine → rules_ok ps rs = true → engine_wf engine.
Proof. intros E Hok. by destruct (EngineState_new_wf _ _ _ E Hok). Qed.

Lemma compile_rules_wf contents next :
  valid_utf8 contents = true → compile_rules contents = Some next → engine_wf (ru_engine next).
Proof.
  intros Hv%parsed_rules_ok. unfold compile_rules. destruct (parse_pii_config contents) as [ps rs].
  destruct (PiiVault_new ps rs) as [v|]; cbn; [|done].
  destruct (EngineState_new ps rs) as [e|] eqn:E; cbn; [|done]. intros [= <-].
  by eapply EngineState_new_text.
Qed.

Lemma initial_rules_wf source rules :
  valid_utf8 source = true → initial_rules source = Some rules → engine_wf (ru_engine rules).
Proof.
  intros Hv%parsed_rules_ok. unfold initial_rules. destruct (parse_pii_config source) as [ps rs].
  destruct (PiiVault_new ps rs) as [v|] eqn:E; cbn; [|done]. intros [= <-].
  apply PiiVault_new_engine in E as [E _]. by eapply EngineState_new_text.
Qed.

Lemma reload_text_valid path event read contents :
  text_input (FileChanged (event, read)) → reload_text path event read = Some contents →
  valid_utf8 contents = true.
Proof.
  intros Ht. unfold reload_text. destruct event as [paths|]; [|done]. destruct (negb _); [done|].
  unfold read_attempts. repeat (case_match; [intros [= <-]; by eapply Ht|]). apply Ht.
Qed.

(** The engine was posted by an administrator with an empty pattern among others,
    which [update_rules] accepts. *)
Definition posted_empty (input : RulesInput) (engine : EngineState) : Prop :=
  ∃ patterns, input = AdminPost patterns ∧ [] ∈ patterns ∧ es_patterns engine = patterns.

(** Every engine an input offers is well formed, unless it was posted with an empty
    pattern. *)
Lemma offered_engine_wf path input engine :
  text_input input → offered_engine path input = Some engine →
  engine_wf engine ∨ posted_empty input engine.
Proof.
  destruct input as [[event read]| |[|p ps]]; unfold offered_engine; try done.
  - intros Ht. unfold file_rules. destruct (reload_text path event read) as [contents|] eqn:Er; cbn; [|done].
    destruct (compile_rules contents) as [next|] eqn:Ec; cbn; [|done]. intros [= <-].
    left. eapply compile_rules_wf, Ec. by eapply reload_text_valid.
  - intros Ht E. destruct (decide ([] ∈ p :: ps)) as [He|He].
    + right. exists (p :: ps). split_and!; [done|done|]. unfold EngineState_new in E.
      destruct (build_redaction_dfa _); [|done]. by injection E as <-.
    + left. eapply EngineState_new_text; [exact E|]. unfold rules_ok.
      rewrite length_fmap, Nat.leb_refl, andb_true_r. apply forallb_forall.
      intros q Hq%list_elem_of_In. cbn in Ht. rewrite Forall_forall in Ht.
      rewrite (Ht q Hq), bool_decide_false; [done|]. by intros ->.
Qed.

Lemma update_rules_offer path engine patterns :
  (update_rules engine patterns).2 = default engine (offered_engine path (AdminPost patterns)).
Proof. unfold update_rules, offered_engine. destruct patterns; [done|]. by destruct (EngineState_new _ _). Qed.

(** One input against the specification. *)
Lemma rules_step_spec path cells input cells' :
  rules_step path cells input = Some cells' →
  let now := heard path (alive (rc_watcher cells)) [input] in
  ru_engine (rc_rules cells') =
    default (ru_engine (rc_rules cells)) (last (omap (offered_engine path) now)) ∧
  newest_vault cells' = default (newest_vault cells) (last (ru_vault <$> omap (file_rules path) now)) ∧
  ∀ inputs, heard path (alive (rc_watcher cells)) (input :: inputs)
    = now ++ heard path (alive (rc_watcher cells')) inputs.
Proof.
  destruct cells as [rules watcher]. unfold rules_step, newest_vault. cbn [rc_rules rc_watcher].
  destruct input as [[event read]| |patterns].
  - destruct watcher as [| |]; cbn [alive heard]; [|done|by intros [= <-]].
    cbn [omap list_omap offered_engine file_rules kills_watcher].
    destruct (reload_text path event read) as [contents|]; cbn; [|by intros [= <-]].
    destruct (compile_rules contents) as [next|]; cbn; by intros [= <-].
  - destruct watcher; cbn; [done| |done]. by intros [= <-].
  - intros [= <-]. cbn -[update_rules offered_engine]. rewrite (update_rules_offer path).
    by destruct (offered_engine path (AdminPost patterns)).
Qed.

Lemma rules_run_spec path inputs : ∀ cells cells',
  rules_run path cells inputs = Some cells' →
  let now := heard path (alive (rc_watcher cells)) inputs in
  ru_engine (rc_rules cells') =
    default (ru_engine (rc_rules cells)) (last (omap (offered_engine path) now)) ∧
  newest_vault cells' = default (newest_vault cells) (last (ru_vault <$> omap (file_rules path) now)).
Proof.
  induction inputs as [|input inputs IH]; intros cells cells'; cbn [rules_run].
  { by intros [= <-]. }
  destruct (rules_step path cells input) as [mid|] eqn:E; cbn [mbind option_bind]; [|done].
  intros [H1 H2]%IH. destruct (rules_step_spec _ _ _ _ E) as (H3 & H4 & H5). cbv zeta.
  rewrite H5, !omap_app, fmap_app, !default_last_app. by rewrite H1, H2, H3, H4.
Qed.

Lemma heard_text path inputs : ∀ live,
  Forall text_input inputs → Forall text_input (heard path live inputs).
Proof.
  induction inputs as [|input inputs IH]; intros live Ht; [done|].
  apply Forall_cons in Ht as [Hi Ht]. destruct input; cbn [heard]; [destruct live|..]; auto.
Qed.

(** Whatever changes the rules, they are those of before, well formed, or posted
    with an empty pattern. *)
Lemma rules_run_wf path inputs cells cells' :
  rules_run path cells inputs = Some cells' → Forall text_input inputs →
  let engine := ru_engine (rc_rules cells') in
  engine = ru_engine (rc_rules cells) ∨ engine_wf engine ∨
  ∃ input, input ∈ heard path (alive (rc_watcher cells)) inputs ∧ posted_empty input engine.
Proof.
  intros [-> _]%rules_run_spec Ht.
  destruct (last _) as [engine|] eqn:E; cbn; [right|by left].
  apply last_Some_elem_of, list_elem_of_omap in E as (input & Hin & E).
  pose proof (heard_text path inputs (alive (rc_watcher cells)) Ht) as K.
  rewrite Forall_forall in K. destruct (offered_engine_wf path input engine (K _ Hin) E); eauto.
Qed.

(** No pattern of the rules is empty. *)
Definition no_empty_pattern (engine : EngineState) : Prop := Forall (λ p, p ≠ []) (es_patterns engine).

Lemma posted_empty_not input engine : posted_empty input engine → ~ no_empty_pattern engine.
Proof.
  intros (ps & _ & He & E) H. unfold no_empty_pattern in H. rewrite E, Forall_forall in H. by apply (H [] He).
Qed.

(** Rules without an empty pattern stay well formed. *)
Lemma rules_run_nonempty path inputs cells cells' :
  rules_run path cells inputs = Some cells' → Forall text_input inputs →
  (no_empty_pattern (ru_engine (rc_rules cells)) → engine_wf (ru_engine (rc_rules cells))) →
  no_empty_pattern (ru_engine (rc_rules cells')) → engine_wf (ru_engine (rc_rules cells')).
Proof.
  intros Hrun Ht Hwf Hne. destruct (rules_run_wf _ _ _ _ Hrun Ht) as [E|[H|(input & _ & H)]]; [|done|].
  - rewrite E in Hne |- *. auto.
  - by apply posted_empty_not in H.
Qed.

(** C29: Whatever the rule file, the file watcher and administrators do, in any
    order, the rules a request is redacted with are those of the last post that was
    accepted or of the last text the watcher read, whichever came later, or else
    those of the start.  They are well formed, or they are the rules of a post with
    an empty pattern: no text of the file and no other post gives rules that are
    not.  The vault follows the file alone.  The watcher is heard until a text it
    cannot build rules from, which ends its thread for good. *)
Theorem rules_in_force nf path source rules inputs cells :
  initial_rules source = Some rules → valid_utf8 source = true → Forall text_input inputs →
  rules_run path {| rc_rules := rules; rc_watcher := watch_pii_config_start nf path |} inputs
    = Some cells →
  let now := heard path (alive (watch_pii_config_start nf path)) inputs in
  let engine := ru_engine (rc_rules cells) in
  engine = default (ru_engine rules) (last (omap (offered_engine path) now)) ∧
  (engine_wf engine ∨ ∃ input, input ∈ now ∧ posted_empty input engine) ∧
  newest_vault cells = default (ru_vault rules) (last (ru_vault <$> omap (file_rules path) now)).
Proof.
  intros Hi Hv Ht Hrun now engine. destruct (rules_run_spec _ _ _ _ Hrun) as [E Ev].
  split_and!; [exact E| |].
  - destruct (rules_run_wf _ _ _ _ Hrun Ht) as [H|H]; [left|done]. unfold engine. rewrite H.
    by eapply initial_rules_wf.
  - rewrite Ev. subst now engine. unfold newest_vault, watch_pii_config_start. cbn.
    by destruct (watcher_panic _ _ _).
Qed.

End RulesInForce.
End Watchers.

(** ** Concrete runs *)

Import NaiveSearch Transparent.
Import (hints) CounterSemaphore.
Import ConfigDemo.

Module WatchDemo.
Definition watching : Notify := {| nf_create := true; nf_watch := λ _, true |}.
Definition text (contents : String.string) : RulesInput :=
  FileChanged (Some [path], λ _, Some (bstr contents)).
(** A new file, a post before its vault is stored, and an event of another file. *)
Definition inputs : list RulesInput :=
  [text "secret:X"; AdminPost [bstr "token"]; VaultStore; FileChanged (Some [[RootDir]], λ _, None)].
Definition start : RulesCells :=
  {| rc_rules := first_rules; rc_watcher := watch_pii_config_start watching path |}.
Definition end_cells : RulesCells := default start (rules_run path start inputs).
Definition engine_patterns (cells : RulesCells) : list bytes := es_patterns (ru_engine (rc_rules cells)).

Lemma inputs_text : Forall text_input inputs.
Proof.
  unfold inputs, text. apply Forall_cons; split; [intros k contents [= <-]; by_vm|].
  apply Forall_cons; split.
  { apply Forall_cons; split; [by_vm|apply Forall_nil_2]. }
  apply Forall_cons; split; [exact I|]. apply Forall_cons; split; [|apply Forall_nil_2].
  intros k contents [=].
Qed.
End WatchDemo.
Import WatchDemo.

Lemma rules_in_force_witness :
  engine_wf (ru_engine (rc_rules end_cells)) ∧
  engine_patterns end_cells = [bstr "token"] ∧ pv_patterns (newest_vault end_cells) = [bstr "secret"].
Proof.
  destruct (rules_in_force watching path (bstr "password, ssn: [SSN]") first_rules inputs end_cells)
    as (_ & Hwf & _); [by_vm|by_vm|exact inputs_text|by_vm|].
  assert (engine_patterns end_cells = [bstr "token"]) as E by by_vm. split; [|split; [exact E|by_vm]].
  destruct Hwf as [Hwf|(input & _ & ps & _ & He & Ep)]; [exact Hwf|].
  unfold engine_patterns in E. rewrite E in Ep. subst ps. by apply list_elem_of_singleton in He.
Defined.

(** A post of one empty pattern is accepted, and the rules in force are then not
    well formed. *)
Lemma empty_pattern_accepted :
  let cells := {| rc_rules := set_engine first_rules (update_rules (ru_engine first_rules) [[]]).2;
                  rc_watcher := Idle |} in
  (update_rules (ru_engine first_rules) [[]]).1 = StatusCode_OK ∧
  rules_run path start [AdminPost [[]]] = Some cells ∧
  engine_patterns cells = [[]] ∧ ~ engine_wf (ru_engine (rc_rules cells)).
Proof.
  split_and!; [by_vm|by_vm|by_vm|]. intros [_ H _ _ _]. vm_compute in H. by apply Forall_cons in H as [H _].
Qed.

(** A rule file that is found empty, as while it is being rewritten, leaves the
    proxy without rules: the text that the rules of the start redact passes.  The
    key file and the posts of administrators are refused when they are empty. *)
Lemma empty_rule_file :
  let cells := {| rc_rules := rules_state [] [] 0; rc_watcher := Idle |} in
  let redactor := {| sr_state := ru_engine (rc_rules cells); sr_pending := [];
                     sr_max_capacity := DEFAULT_MAX_BUFFER_CAPACITY |} in
  rules_run path start [text ""; VaultStore] = Some cells ∧
  from_state (ru_engine (rc_rules cells)) = Some redactor ∧
  push redactor (bstr "the password is") = Some (Ok [Input (bstr "the password is")], redactor) ∧
  watch_auth_file watching path 7 state [(Some [path], λ _, Some [])] = (state, None) ∧
  (update_rules (ru_engine first_rules) []).1 = BAD_REQUEST.
Proof. split_and!; by_vm. Qed.

(** Paths. *)
Lemma components_examples :
  components (bstr "/etc//proxy/./keys") = [RootDir; Normal (bstr "etc"); Normal (bstr "proxy"); Normal (bstr "keys")] ∧
  watch_dir (components (bstr "/etc/proxy/keys")) = components (bstr "/etc/proxy") ∧
  watch_dir (components (bstr "keys")) = components [] ∧
  watch_dir (components (bstr "/")) = components (bstr ".").
Proof. split_and!; by_vm. Qed.
