(* ===== verification/Effects.v ===== *)
(** * Programs that talk to the outside

    The start-up code of the proxy reads the environment and files, calls the
    security module and the key service, and panics when something is missing.
    Such code is a tree: [Ret] is its result, [Panic] a panic with its message,
    and [Act c k] does [c] and goes on as [k r] when the answer is [r].  The tree
    does not say what the outside answers; [exec] are its executions with every
    possible answer, as lists of events, and [run] is the execution against a
    given outside.

    [wp p Q tr] says that every execution of [p] that comes after the events [tr],
    also one that has not ended, satisfies [Q]; it computes on [p], so a proof
    walks through the program. *)

From S2P Require Import Prelude.

Section Effects.
Context {Cmd : Type} {Resp : Cmd → Type}.

Inductive Prog (A : Type) : Type :=
| Ret (a : A)
| Panic (message : bytes)
| Act (c : Cmd) (k : Resp c → Prog A).
Arguments Ret {A} a.
Arguments Panic {A} message.
Arguments Act {A} c k.

#[global] Instance prog_ret : MRet Prog := @Ret.

Fixpoint prog_bind_fix {A B} (f : A → Prog B) (p : Prog A) : Prog B :=
  match p with
  | Ret a => f a
  | Panic m => Panic m
  | Act c k => Act c (λ r, prog_bind_fix f (k r))
  end.
#[global] Instance prog_bind : MBind Prog := @prog_bind_fix.
#[global] Instance prog_fmap : FMap Prog := λ A B f p, p ≫= λ a, Ret (f a).

(** One action. *)
Definition act (c : Cmd) : Prog (Resp c) := Act c Ret.

(** [Option::expect], and [Result::expect]. *)
Definition expect {A} (message : bytes) (o : option A) : Prog A :=
  match o with Some a => Ret a | None => Panic message end.
Definition expect_ok {E A} (message : bytes) (r : Result E A) : Prog A :=
  match r with Ok a => Ret a | Err _ => Panic message end.

(** The question mark: [x ←? p; q] goes on with the value of [p] or returns its
    error. *)
Definition try_bind {E A B} (p : Prog (Result E A)) (f : A → Prog (Result E B))
    : Prog (Result E B) :=
  p ≫= λ r, match r with Ok a => f a | Err e => mret (Err e) end.

(** [ok_or]: an answer that may be missing as a result. *)
Definition ok_or {E A} (e : E) (o : option A) : Result E A :=
  match o with Some a => Ok a | None => Err e end.

(** ** Executions *)

Abbreviation Event := {c : Cmd & Resp c}.
Definition event (c : Cmd) (r : Resp c) : Event := existT c r.
Definition command (e : Event) : Cmd := projT1 e.

Inductive Ending (A : Type) :=
| Unfinished
| Returned (a : A)
| Panicked (message : bytes).
Arguments Unfinished {A}.
Arguments Returned {A} a.
Arguments Panicked {A} message.

Inductive exec {A} : Prog A → list Event → Ending A → Prop :=
| exec_stop p : exec p [] Unfinished
| exec_ret a : exec (Ret a) [] (Returned a)
| exec_panic m : exec (Panic m) [] (Panicked m)
| exec_act c k r tr o : exec (k r) tr o → exec (Act c k) (event c r :: tr) o.

(** The execution against an outside with states [S]. *)
Fixpoint run {S A} (outside : S → ∀ c, Resp c * S) (s : S) (p : Prog A)
    : Ending A * list Event * S :=
  match p with
  | Ret a => (Returned a, [], s)
  | Panic m => (Panicked m, [], s)
  | Act c k =>
    let '(r, s) := outside s c in
    let '(o, tr, s) := run outside s (k r) in (o, event c r :: tr, s)
  end.

Lemma run_exec {S A} (outside : S → ∀ c, Resp c * S) (p : Prog A) : ∀ s,
  let '(o, tr, _) := run outside s p in exec p tr o.
Proof.
  induction p as [a|m|c k IH]; intros s; cbn; [constructor|constructor|].
  destruct (outside s c) as [r s1]. specialize (IH r s1).
  destruct (run outside s1 (k r)) as [[o tr] s2]. by constructor.
Qed.

Lemma run_executes {S A} (outside : S → ∀ c, Resp c * S) (p : Prog A) s :
  exec p (run outside s p).1.2 (run outside s p).1.1.
Proof. pose proof (run_exec outside p s) as H. by destruct (run outside s p) as [[o tr] s']. Qed.

(** Against any outside a program ends. *)
Lemma run_ends {S A} (outside : S → ∀ c, Resp c * S) (p : Prog A) : ∀ s,
  (run outside s p).1.1 ≠ Unfinished.
Proof.
  induction p as [a|m|c k IH]; intros s; cbn; try done.
  destruct (outside s c) as [r s1]. specialize (IH r s1).
  by destruct (run outside s1 (k r)) as [[o tr] s2].
Qed.

(** The same without the events. *)
Fixpoint outcome {S A} (outside : S → ∀ c, Resp c * S) (s : S) (p : Prog A) : Ending A * S :=
  match p with
  | Ret a => (Returned a, s)
  | Panic m => (Panicked m, s)
  | Act c k => outcome outside (outside s c).2 (k (outside s c).1)
  end.

Lemma outcome_run {S A} (outside : S → ∀ c, Resp c * S) (p : Prog A) : ∀ s,
  outcome outside s p = ((run outside s p).1.1, (run outside s p).2).
Proof.
  induction p as [a|m|c k IH]; intros s; cbn; [done|done|]. rewrite IH.
  destruct (outside s c) as [r s1]. cbn. by destruct (run outside s1 (k r)) as [[o tr] s2].
Qed.

Lemma outcome_bind {S A B} (outside : S → ∀ c, Resp c * S) (p : Prog A) (f : A → Prog B) : ∀ s,
  outcome outside s (p ≫= f) =
  match outcome outside s p with
  | (Returned a, s) => outcome outside s (f a)
  | (Panicked m, s) => (Panicked m, s)
  | (Unfinished, s) => (Unfinished, s)
  end.
Proof. induction p as [a|m|c k IH]; intros s; [done|done|]. apply IH. Qed.

(** ** Postconditions *)

Fixpoint wp {A} (p : Prog A) (Q : list Event → Ending A → Prop) (tr : list Event) : Prop :=
  Q tr Unfinished ∧
  match p with
  | Ret a => Q tr (Returned a)
  | Panic m => Q tr (Panicked m)
  | Act c k => ∀ r, wp (k r) Q (tr ++ [event c r])
  end.

Lemma wp_exec_from {A} (p : Prog A) Q tr0 tr o : wp p Q tr0 → exec p tr o → Q (tr0 ++ tr) o.
Proof.
  intros Hwp He. revert tr0 Hwp. induction He as [p|a|m|c k r tr o He IH]; intros tr0 Hwp.
  - rewrite app_nil_r. destruct p; apply Hwp.
  - rewrite app_nil_r. apply Hwp.
  - rewrite app_nil_r. apply Hwp.
  - destruct Hwp as [_ Hwp]. specialize (IH _ (Hwp r)). by rewrite <-app_assoc in IH.
Qed.

(** A program satisfies what its walk-through shows. *)
Lemma wp_exec {A} (p : Prog A) Q tr o : wp p Q [] → exec p tr o → Q tr o.
Proof. intros Hwp He. by apply (wp_exec_from p Q [] tr o). Qed.

Lemma wp_mono {A} (p : Prog A) (Q Q' : list Event → Ending A → Prop) : ∀ tr,
  (∀ tr' o, Q (tr ++ tr') o → Q' (tr ++ tr') o) → wp p Q tr → wp p Q' tr.
Proof.
  induction p as [a|m|c k IH]; intros tr HQ Hwp; cbn in *.
  1,2: specialize (HQ []); rewrite app_nil_r in HQ; naive_solver.
  destruct Hwp as [H1 H2]. split.
  - specialize (HQ []). rewrite app_nil_r in HQ. by apply HQ.
  - intros r. apply (IH r); [|done]. intros tr' o. rewrite <-app_assoc. apply HQ.
Qed.

(** The postcondition the rest of a program leaves for its first part. *)
Definition then_wp {A B} (f : A → Prog B) (Q : list Event → Ending B → Prop)
    (tr : list Event) (o : Ending A) : Prop :=
  match o with
  | Unfinished => Q tr Unfinished
  | Returned a => wp (f a) Q tr
  | Panicked m => Q tr (Panicked m)
  end.

Lemma wp_unfinished {A} (p : Prog A) Q tr : wp p Q tr → Q tr Unfinished.
Proof. by destruct p as [| |]; intros [? _]. Qed.

Lemma wp_bind {A B} (p : Prog A) (f : A → Prog B) Q : ∀ tr,
  wp p (then_wp f Q) tr → wp (p ≫= f) Q tr.
Proof.
  induction p as [a|m|c k IH]; intros tr Hwp.
  - exact (proj2 Hwp).
  - exact Hwp.
  - destruct Hwp as [H1 H2]. split; [exact H1|]. intros r. by apply IH.
Qed.

(** Executions of a sequence. *)
Lemma exec_bind {A B} (p : Prog A) (f : A → Prog B) : ∀ tr o,
  exec (p ≫= f) tr o →
  (∃ a tr1 tr2, exec p tr1 (Returned a) ∧ exec (f a) tr2 o ∧ tr = tr1 ++ tr2) ∨
  (exec p tr Unfinished ∧ o = Unfinished) ∨ (∃ m, exec p tr (Panicked m) ∧ o = Panicked m).
Proof.
  assert (∀ q tr o, exec q tr o → ∀ p, q = p ≫= f →
    (∃ a tr1 tr2, exec p tr1 (Returned a) ∧ exec (f a) tr2 o ∧ tr = tr1 ++ tr2) ∨
    (exec p tr Unfinished ∧ o = Unfinished) ∨ (∃ m, exec p tr (Panicked m) ∧ o = Panicked m))
    as K; [|eauto].
  induction 1 as [q|b|m|c k r tr o He IH]; intros p0 E.
  - right. left. split; [constructor|done].
  - destruct p0; try done. left. exists a, [], []. cbn in E. rewrite <-E.
    split_and!; [constructor|constructor|done].
  - destruct p0; try done.
    + left. exists a, [], []. cbn in E. rewrite <-E. split_and!; [constructor|constructor|done].
    + right. right. injection E as ->. eexists. split; [constructor|done].
  - destruct p0 as [a|m|c' k']; try done.
    + left. exists a, [], (event c r :: tr). cbn in E. rewrite <-E.
      split_and!; [constructor|by constructor|done].
    + assert (∃ E' : c' = c, ∀ r, k r = k' (eq_rect_r Resp r E') ≫= f) as [-> Hk].
      { change (Act c k = Act c' (λ r, k' r ≫= f)) in E.
        refine (match E in _ = q return match q with
          | Act c'' k'' => ∃ E' : c'' = c, ∀ r, k r = k'' (eq_rect_r Resp r E')
          | _ => False end with eq_refl => _ end).
        by exists eq_refl. }
      cbn in Hk. destruct (IH (k' r) (Hk r))
        as [(a & t1 & t2 & H1 & H2 & ->)|[[H1 ->]|(m & H1 & ->)]].
      * left. exists a, (event c r :: t1), t2. split_and!; [by constructor|done|done].
      * right. left. split; [by constructor|done].
      * right. right. exists m. split; [by constructor|done].
Qed.

(** An execution that starts with a command. *)
Lemma exec_act_inv {A} c (k : Resp c → Prog A) tr o :
  exec (Act c k) tr o →
  (tr = [] ∧ o = Unfinished) ∨ ∃ r tr', tr = event c r :: tr' ∧ exec (k r) tr' o.
Proof.
  assert (∀ q tr o, exec q tr o → q = Act c k →
    (tr = [] ∧ o = Unfinished) ∨ ∃ r tr', tr = event c r :: tr' ∧ exec (k r) tr' o) as K;
    [|by eauto].
  destruct 1 as [q|a|m|c' k' r tr' o' He]; intros E; try done; [by left|].
  assert (∃ E' : c = c', ∀ x, k' x = k (eq_rect_r Resp x E')) as [-> Hk].
  { refine (match eq_sym E in _ = q return match q with
      | Act c'' k'' => ∃ E' : c = c'', ∀ x, k'' x = k (eq_rect_r Resp x E')
      | _ => False end with eq_refl => _ end).
    by exists eq_refl. }
  cbn in Hk. rewrite Hk in He. right. eauto.
Qed.

(** Inversion of executions that return: one rule per construct. *)
Lemma exec_bind_ret {A B} (p : Prog A) (f : A → Prog B) tr b :
  exec (p ≫= f) tr (Returned b) →
  ∃ a tr1 tr2, exec p tr1 (Returned a) ∧ exec (f a) tr2 (Returned b) ∧ tr = tr1 ++ tr2.
Proof. intros [H|[[_ H]|(m & _ & H)]]%exec_bind; done. Qed.

Lemma exec_act_ret c tr r : exec (act c) tr (Returned r) → tr = [event c r].
Proof.
  intros [[_ ?]|(r' & tr' & -> & He)]%exec_act_inv; [done|]. by inversion He.
Qed.

Lemma exec_ret_ret {A} (a b : A) tr : exec (Ret a) tr (Returned b) → tr = [] ∧ b = a.
Proof. intros H. by inversion H. Qed.

Lemma exec_panic_ret {A} (b : A) m tr : ~ exec (Panic m) tr (Returned b).
Proof. intros H. inversion H. Qed.

Lemma exec_expect_ret {A} m (o : option A) tr b :
  exec (expect m o) tr (Returned b) → tr = [] ∧ o = Some b.
Proof. destruct o; cbn; intros H; inversion H; by subst. Qed.

Lemma exec_expect_ok_ret {E A} m (o : Result E A) tr b :
  exec (expect_ok m o) tr (Returned b) → tr = [] ∧ o = Ok b.
Proof. destruct o; cbn; intros H; inversion H; by subst. Qed.

Lemma exec_try_ok {E A B} (p : Prog (Result E A)) (f : A → Prog (Result E B)) tr b :
  exec (try_bind p f) tr (Returned (Ok b)) →
  ∃ a tr1 tr2, exec p tr1 (Returned (Ok a)) ∧ exec (f a) tr2 (Returned (Ok b)) ∧ tr = tr1 ++ tr2.
Proof.
  intros (r & t1 & t2 & H1 & H2 & ->)%exec_bind_ret. destruct r as [a|e].
  - by exists a, t1, t2.
  - by apply exec_ret_ret in H2 as [_ ?].
Qed.

(** ** Which commands a program may use *)

Fixpoint acts_in {A} (P : Cmd → Prop) (p : Prog A) : Prop :=
  match p with
  | Ret _ | Panic _ => True
  | Act c k => P c ∧ ∀ r, acts_in P (k r)
  end.

Lemma acts_in_bind {A B} P (p : Prog A) (f : A → Prog B) :
  acts_in P p → (∀ a, acts_in P (f a)) → acts_in P (p ≫= f).
Proof. intros Hp Hf. induction p as [a|m|c k IH]; [by apply Hf|done|]. split; [apply Hp|]. intros r. apply IH, Hp. Qed.

Lemma acts_in_try {E A B} P (p : Prog (Result E A)) (f : A → Prog (Result E B)) :
  acts_in P p → (∀ a, acts_in P (f a)) → acts_in P (try_bind p f).
Proof. intros Hp Hf. apply acts_in_bind; [done|]. by intros [a|e]; [apply Hf|]. Qed.

Lemma acts_in_fmap {A B} P (p : Prog A) (f : A → B) : acts_in P p → acts_in P (f <$> p).
Proof. intros Hp. by apply acts_in_bind. Qed.

Lemma acts_in_act (P : Cmd → Prop) c : P c → acts_in P (act c).
Proof. by split. Qed.

Lemma acts_in_expect {A} P m (o : option A) : acts_in P (expect m o).
Proof. by destruct o. Qed.

Lemma acts_in_expect_ok {E A} P m (o : Result E A) : acts_in P (expect_ok m o).
Proof. by destruct o. Qed.

Lemma acts_in_exec {A} P (p : Prog A) tr o :
  acts_in P p → exec p tr o → Forall (λ e, P (command e)) tr.
Proof.
  intros Hp He. induction He as [| | |c k r tr o He IH]; [constructor..|].
  destruct Hp as [Hc Hk]. constructor; [done|]. by apply IH.
Qed.

End Effects.

Arguments Prog {Cmd} Resp A.
Arguments Ret {Cmd Resp A} a.
Arguments Panic {Cmd Resp A} message.
Arguments Act {Cmd Resp A} c k.
Arguments Unfinished {A}.
Arguments Returned {A} a.
Arguments Panicked {A} message.

Module EffectsNotations.
Notation "x ←? p ; q" := (try_bind p (λ x, q))
  (at level 20, p at level 100, q at level 200, only parsing) : stdpp_scope.
Notation "' x ←? p ; q" := (try_bind p (λ x, q))
  (at level 20, x pattern, p at level 100, q at level 200, only parsing) : stdpp_scope.
End EffectsNotations.

(** A walk through a program: compute up to the next command. *)
Ltac wp_step := cbn [wp mbind prog_bind prog_bind_fix fmap prog_fmap act mret prog_ret try_bind expect expect_ok].

(** Case analysis on the answer the program looks at next. *)
Ltac case_head p :=
  lazymatch p with
  | ?q ≫= _ => case_head q
  | prog_bind_fix _ ?q => case_head q
  | if negb ?b then _ else _ => destruct b; cbn [negb]
  | if ?b then _ else _ => first [is_var b; destruct b | destruct b eqn:?]
  | match ?o with Some _ => _ | None => _ end => destruct o
  end.
Ltac wp_case := lazymatch goal with |- wp ?p _ _ => case_head p end.

(** Take an execution that returned apart, construct by construct. *)
Ltac exec_inv H :=
  let a := fresh "a" in let t1 := fresh "tr" in let t2 := fresh "tr" in
  let H1 := fresh "He" in let H2 := fresh "He" in
  lazymatch type of H with
  | exec (try_bind _ _) _ (Returned (Ok _)) =>
    apply exec_try_ok in H as (a & t1 & t2 & H1 & H2 & ->); exec_inv H1; exec_inv H2
  | exec (_ <$> _) _ (Returned _) =>
    apply exec_bind_ret in H as (a & t1 & t2 & H1 & H2 & ->); exec_inv H1; exec_inv H2
  | exec (_ ≫= _) _ (Returned _) =>
    apply exec_bind_ret in H as (a & t1 & t2 & H1 & H2 & ->); exec_inv H1; exec_inv H2
  | exec (@act _ ?R ?c) _ (Returned _) => apply (@exec_act_ret _ R c) in H as ->
  | exec (Ret _) _ (Returned _) => apply exec_ret_ret in H as [-> H]; simplify_eq
  | exec (mret _) _ (Returned _) => apply exec_ret_ret in H as [-> H]; simplify_eq
  | exec (Panic _) _ (Returned _) => by apply exec_panic_ret in H
  | exec (expect _ _) _ (Returned _) => apply exec_expect_ret in H as [-> H]
  | exec (expect_ok _ _) _ (Returned _) => apply exec_expect_ok_ret in H as [-> H]
  | _ => idtac
  end.

(** Walk through a program for the commands it uses. *)
Ltac acts_step :=
  first
    [ done
    | apply acts_in_expect | apply acts_in_expect_ok
    | apply acts_in_act
    | apply acts_in_try; [|intros ?] | apply acts_in_bind; [|intros ?]
    | apply acts_in_fmap
    | progress case_match ].
