(* ===== verification/Bootstrap.v ===== *)
(** * Secrets at start-up ([src/bootloader.rs], [src/attestation.rs],
      [src/vsock_bridge.rs], the upstream client of [src/main.rs])

    How the proxy obtains the token of its clients and the key for the upstream
    service: the ciphertext comes from the environment or a file, the key service
    decrypts it and, in an enclave, wraps the plaintext for an RSA key that the
    security module has attested.

    The code is a program over the commands [Cmd]; what the outside answers is
    not modelled but quantified.  [Join] answers whether a task given to
    [spawn_blocking] came back; [FillRandom n] fills an array of [n] bytes.  RSA ([rsa], [sha2]) is a parameter. *)

From stdpp Require Import pretty vector.
From S2P Require Import Prelude Utf8 RustStr Externals Http Effects.
Import EffectsNotations.
Local Open Scope Z_scope.

(** Decimal digits, as [format!] writes them. *)
Definition show (n : Z) : bytes := bstr (pretty n).
Definition addr_text (ip : bytes) (port : Z) : bytes := ip ++ bstr ":" ++ show port.

(** ** RSA *)

Class RsaApi := {
  RsaPrivateKey : Type;
  rsa_public_der : RsaPrivateKey → option bytes;
  rsa_oaep_decrypt : RsaPrivateKey → bytes → option bytes
}.

(** OAEP encryption with a seed, as its counterpart does it. *)
Class RsaLaws `{!RsaApi} := {
  rsa_oaep_encrypt : bytes → bytes → bytes → bytes;
  rsa_oaep_correct sk der seed m :
    rsa_public_der sk = Some der → rsa_oaep_decrypt sk (rsa_oaep_encrypt der seed m) = Some m
}.

(** ** Build and commands *)

(** The features and the profile of a build. *)
Record Build := { nitro : bool; kind_test : bool; debug_assertions : bool }.

(** The [compile_error!] at the top of [main.rs]. *)
Definition compiles (b : Build) : bool := nitro b || kind_test b || debug_assertions b.

(** What a call of [Decrypt] returns. *)
Record KmsReply := { kr_plaintext : option bytes; kr_for_recipient : option bytes }.

(** Background tasks. *)
Inductive Job :=
| Tunnel (local_port vsock_cid vsock_port : Z)
| ShutdownListener
| WatchRules (path : bytes)
| WatchKeys (path : bytes)
| Watchdog (timeout_secs : Z)
| MetricsServer.

(** The client of the key service: the defaults of the environment, an explicit
    region and endpoint, or no configuration at all. *)
Inductive AwsConfig := AwsDefaults | AwsAt (region endpoint : bytes) | AwsNone.

Section Bootstrap.
Context {rsa_api : RsaApi} {sig_api : Ed25519Api}.

Inductive Cmd :=
| LoadDotenv
| InstallRecorder
| GetEnv (name : bytes)
| SetEnv (name value : bytes)
| ReadFile (path : bytes)
| Zeroize (data : bytes)
| SleepMs (ms : Z)
| FillRandom (n : nat)
| SigningKeyGenerate
| RsaGenerate (bits : Z)
| Join
| OnceStarted
| OnceDone
| BindTcp (addr : bytes)
| Spawn (job : Job)
| NsmInit
| NsmOpen
| NsmAttest (nonce public_key user_data : option bytes)
| NsmExit
| LoadAws (config : AwsConfig)
| KmsDecrypt (config : AwsConfig) (ciphertext : bytes) (recipient : option bytes)
| BuildClient
| GenerateCert
| BuildTlsConfig.

Definition Resp (c : Cmd) : Type :=
  match c with
  | LoadDotenv | SetEnv _ _ | Zeroize _ | SleepMs _ | OnceDone | Spawn _ | NsmExit | LoadAws _ => unit
  | GetEnv _ | ReadFile _ => option bytes
  | FillRandom n => vec Byte.byte n
  | SigningKeyGenerate => SigningKey
  | RsaGenerate _ => option RsaPrivateKey
  | InstallRecorder | Join | OnceStarted | BindTcp _ | NsmOpen | BuildClient | GenerateCert
  | BuildTlsConfig => bool
  | NsmInit => Z
  | NsmAttest _ _ _ => option bytes
  | KmsDecrypt _ _ _ => option KmsReply
  end.

Abbreviation Boot := (Prog Resp).

(** Errors are texts, as in the source.  Most end with the text of a library's own
    error, which is left out: [BootError] is the part the source spells out. *)
Definition BootError : Type := bytes.

(** [spawn_blocking(..).await], with the error of a lost task. *)
Definition blocking {A} (failed : BootError) (p : Boot A) : Boot (Result BootError A) :=
  a ← p; joined ← act Join; mret (if joined : bool then Ok a else Err failed).

(** Flatten the double question mark. *)
Definition flatten {A} (r : Result BootError (Result BootError A)) : Result BootError A :=
  match r with Ok r => r | Err e => Err e end.

(** ** Tunnels of the enclave *)

Definition start_tunnel (local_port vsock_cid vsock_port : Z) : Boot unit :=
  bound ← act (BindTcp (addr_text (bstr "127.0.0.1") local_port));
  if bound : bool then act (Spawn (Tunnel local_port vsock_cid vsock_port))
  else Panic (bstr "called `Result::unwrap()` on an `Err` value").

(** A [OnceCell]: the body runs once in the life of the process. *)
Definition spawn_enclave_tunnels : Boot unit :=
  started ← act OnceStarted;
  if started : bool then mret tt
  else start_tunnel 8000 3 8000;; start_tunnel 8001 3 8001;; act OnceDone.

Definition https_proxy : bytes := bstr "http://127.0.0.1:8000".
Definition metadata_endpoint : bytes := bstr "http://127.0.0.1:8001".

(** The beginning of [decrypt_with_nsm], and that of [NitroKmsProvider::decrypt]. *)
Definition route_through_tunnels : Boot unit :=
  spawn_enclave_tunnels;;
  act (SetEnv (bstr "HTTPS_PROXY") https_proxy);;
  act (SetEnv (bstr "https_proxy") https_proxy);;
  act (SetEnv (bstr "AWS_EC2_METADATA_SERVICE_ENDPOINT") metadata_endpoint).

Definition nitro_route_through_tunnels : Boot unit :=
  spawn_enclave_tunnels;;
  act (SetEnv (bstr "HTTPS_PROXY") https_proxy);;
  act (SetEnv (bstr "https_proxy") https_proxy);;
  act (SetEnv (bstr "AWS_EC2_METADATA_SERVICE_ENDPOINT") metadata_endpoint).

(** ** Decrypting *)

(** [secrecy::SecretString]. *)
Record SecretString := { expose_secret : bytes }.

(** [String::from_utf8], in a protected container, with the error for other bytes. *)
Definition utf8_secret (failed : BootError) (plaintext : bytes) : Result BootError SecretString :=
  if valid_utf8 plaintext then Ok {| expose_secret := plaintext |} else Err failed.

(** The end of [decrypt_with_nsm]: the call of the key service for a recipient, and
    opening its reply. *)
Definition decrypt_for_recipient (ciphertext attestation_document : bytes)
    (private_key : RsaPrivateKey) : Boot (Result BootError SecretString) :=
  response ← act (KmsDecrypt AwsDefaults ciphertext (Some attestation_document));
  response ←? mret (ok_or (bstr "AWS KMS attested decrypt failed") response);
  wrapped_plaintext ←? mret (ok_or (bstr "AWS KMS response omitted CiphertextForRecipient")
    (kr_for_recipient response));
  plaintext ←? (flatten <$> blocking (bstr "RSA decryption task failed")
    (mret (ok_or (bstr "RSA recipient decryption failed")
      (rsa_oaep_decrypt private_key wrapped_plaintext))));
  mret (utf8_secret (bstr "AWS KMS plaintext token was not valid UTF-8") plaintext).

(** [decrypt_with_nsm] of the bootloader. *)
Definition decrypt_with_nsm (ciphertext : bytes) : Boot (Result BootError SecretString) :=
  route_through_tunnels;;
  private_key ←? (flatten <$> blocking (bstr "RSA key generation task failed")
    (k ← act (RsaGenerate 3072); mret (ok_or (bstr "failed to generate RSA recipient key") k)));
  public_key_der ←? mret (ok_or (bstr "failed to encode RSA recipient key")
    (rsa_public_der private_key));
  nsm_fd ← act NsmInit;
  if nsm_fd <? 0 then mret (Err (bstr "NSM initialization failed"))
  else
    nonce ← act (FillRandom 32);
    response ←? blocking (bstr "NSM request task failed")
      (response ← act (NsmAttest (Some (vec_to_list nonce)) (Some public_key_der) None);
       act NsmExit;; mret response);
    attestation_document ←? mret (ok_or (bstr "NSM attestation request failed") response);
    act (LoadAws AwsDefaults);;
    decrypt_for_recipient ciphertext attestation_document private_key.

(** The trait [KmsProvider]. *)
Class KmsProvider (P : Type) :=
  kms_decrypt : P → bytes → Boot (Result BootError SecretString).

Record NitroKmsProvider := {}.

Definition NitroKmsProvider_new : Boot (Result BootError NitroKmsProvider) :=
  mret (Ok Build_NitroKmsProvider).

(** The end of [NitroKmsProvider::decrypt], in its own words. *)
Definition nitro_decrypt_for_recipient (ciphertext attestation_document : bytes)
    (private_key : RsaPrivateKey) : Boot (Result BootError SecretString) :=
  response ← act (KmsDecrypt AwsDefaults ciphertext (Some attestation_document));
  response ←? mret (ok_or (bstr "AWS KMS decrypt failed") response);
  ciphertext_for_recipient ←?
    mret (ok_or (bstr "AWS KMS response did not contain CiphertextForRecipient")
      (kr_for_recipient response));
  plaintext ←? (flatten <$> blocking (bstr "RSA decryption task failed")
    (mret (ok_or (bstr "RSA-OAEP decryption failed")
      (rsa_oaep_decrypt private_key ciphertext_for_recipient))));
  mret (utf8_secret (bstr "AWS KMS plaintext was not valid UTF-8") plaintext).

Definition nitro_decrypt (ciphertext : bytes) : Boot (Result BootError SecretString) :=
  nitro_route_through_tunnels;;
  act (LoadAws AwsDefaults);;
  '(private_key, public_key_der) ←? (flatten <$> blocking (bstr "RSA key generation task failed")
    (k ← act (RsaGenerate 3072);
     mret match k with
          | None => Err (bstr "Failed to generate RSA keypair")
          | Some private_key =>
            match rsa_public_der private_key with
            | None => Err (bstr "Failed to encode SPKI public key")
            | Some public_key_der => Ok (private_key, public_key_der)
            end
          end));
  nsm ← act NsmOpen;
  if negb nsm then mret (Err (bstr "Failed to open /dev/nsm"))
  else
    nonce ← act (FillRandom 32);
    attestation_response ←? blocking (bstr "NSM request task failed")
      (act (NsmAttest (Some (vec_to_list nonce)) (Some public_key_der) None));
    attestation_document ←? mret (ok_or (bstr "NSM attestation request failed") attestation_response);
    nitro_decrypt_for_recipient ciphertext attestation_document private_key.

#[export] Instance nitro_provider : KmsProvider NitroKmsProvider := λ _, nitro_decrypt.

(** Outside an enclave, with the client it was built with. *)
Record LocalMockProvider := { lm_build : Build; lm_config : AwsConfig }.

Definition LocalMockProvider_new (b : Build) : Boot (Result BootError LocalMockProvider) :=
  if kind_test b then mret (Ok {| lm_build := b; lm_config := AwsNone |})
  else
    endpoint ← act (GetEnv (bstr "LOCALSTACK_ENDPOINT"));
    endpoint ←? mret (ok_or (bstr "LOCALSTACK_ENDPOINT is required for LocalMockProvider") endpoint);
    default_region ← act (GetEnv (bstr "AWS_DEFAULT_REGION"));
    region ← match default_region : option bytes with
             | Some r => mret r
             | None => aws_region ← act (GetEnv (bstr "AWS_REGION"));
                       mret (default (bstr "us-east-1") aws_region)
             end;
    act (LoadAws (AwsAt region endpoint));;
    mret (Ok {| lm_build := b; lm_config := AwsAt region endpoint |}).

#[export] Instance local_provider : KmsProvider LocalMockProvider := λ provider ciphertext,
  if kind_test (lm_build provider) then mret (utf8_secret (bstr "Kind mock plaintext was not valid UTF-8") ciphertext)
  else
    response ← act (KmsDecrypt (lm_config provider) ciphertext None);
    response ←? mret (ok_or (bstr "LocalStack KMS decrypt failed") response);
    plaintext ←? mret (ok_or (bstr "LocalStack KMS response did not contain plaintext") (kr_plaintext response));
    mret (utf8_secret (bstr "LocalStack KMS plaintext was not valid UTF-8") plaintext).

Definition decrypt_upstream_api_key {P} `{!KmsProvider P} (provider : P) (ciphertext : bytes)
    : Boot (Result BootError SecretString) :=
  secret ←? kms_decrypt provider ciphertext; mret (Ok secret).

(** ** The token of the clients *)

Context {enc_api : EncodingApi}.

Definition load_proxy_auth_token (b : Build) : Boot (Result BootError bytes) :=
  if nitro b then
    ciphertext ← act (GetEnv (bstr "PROXY_AUTH_TOKEN_CIPHERTEXT"));
    ciphertext ←? mret (ok_or (bstr "PROXY_AUTH_TOKEN_CIPHERTEXT must be configured in Nitro mode") ciphertext);
    ciphertext ←? mret (ok_or (bstr "PROXY_AUTH_TOKEN_CIPHERTEXT is not valid Base64")
      (b64_decode (trim ciphertext)));
    token ←? decrypt_with_nsm ciphertext;
    mret (Ok (expose_secret token))
  else
    token ← act (GetEnv (bstr "PROXY_AUTH_TOKEN"));
    mret (ok_or (bstr "PROXY_AUTH_TOKEN must be configured outside Nitro mode") token).

(** ** The key of the upstream service *)

Definition localstack_path : bytes := bstr ".aws-mock/ciphertext.b64".
Definition secret_path : bytes := bstr "/run/secrets/ciphertext.b64".

(** [for attempt in 1..=10]; after the loop comes [unreachable!()]. *)
Fixpoint localstack_attempts (attempt more : nat) : Boot bytes :=
  match more with
  | O => Panic (bstr "internal error: entered unreachable code")
  | S more =>
    contents ← act (ReadFile localstack_path);
    match contents : option bytes with
    | Some contents =>
      expect (bstr "LocalStack ciphertext fixture is not valid Base64") (b64_decode (trim contents))
    | None =>
      if (attempt <? 10)%nat then act (SleepMs 2000);; localstack_attempts (S attempt) more
      else Panic (bstr "LocalStack ciphertext fixture unavailable after 10 attempts")
    end
  end.
Definition read_localstack_ciphertext : Boot bytes := localstack_attempts 1 10.

Definition read_kind_ciphertext : Boot bytes :=
  contents ← act (ReadFile secret_path);
  contents ← expect (bstr "Kind ciphertext fixture is required") contents;
  expect (bstr "Kind ciphertext fixture is not valid Base64") (b64_decode (trim contents)).

Definition read_nitro_ciphertext : Boot bytes :=
  contents ← act (ReadFile secret_path);
  contents ← expect (bstr "Nitro ciphertext fixture is required") contents;
  ciphertext ← expect (bstr "Nitro ciphertext fixture is not valid Base64")
                 (b64_decode (trim contents));
  act (Zeroize contents);; mret ciphertext.

Context {hdr_api : HeaderApi}.

(** The HTTP client: its default headers and whether the one that authorizes is
    marked sensitive, and its timeouts in seconds. *)
Record Client := {
  cl_default_headers : Headers;
  cl_sensitive : bool;
  cl_pool_idle_timeout : Z;
  cl_tcp_keepalive : Z
}.

(** The end of both variants. *)
Definition client_with (secret : SecretString) (bad_header : bytes) : Boot Client :=
  authorization ← expect bad_header (header_from_str (bstr "Bearer " ++ expose_secret secret));
  built ← act BuildClient;
  if built : bool
  then mret {| cl_default_headers := [(bstr "authorization", authorization)]; cl_sensitive := true;
               cl_pool_idle_timeout := 90; cl_tcp_keepalive := 30 |}
  else Panic (bstr "failed to build upstream HTTP client").

Definition build_upstream_client (b : Build) : Boot Client :=
  if nitro b then
    provider ← NitroKmsProvider_new;
    provider ← expect_ok (bstr "failed to initialize Nitro KMS provider") provider;
    ciphertext ← read_nitro_ciphertext;
    secret ← decrypt_upstream_api_key provider ciphertext;
    secret ← expect_ok (bstr "failed to decrypt Nitro secret; refusing unauthenticated boot") secret;
    client_with secret (bstr "Nitro API key produced an invalid Authorization header")
  else
    endpoint ← (if debug_assertions b then act (GetEnv (bstr "LOCALSTACK_ENDPOINT"))
                else mret (Some []));
    if debug_assertions b && bool_decide (endpoint = None)
    then Panic (bstr "LOCALSTACK_ENDPOINT is required for debug-mode startup")
    else
      provider ← LocalMockProvider_new b;
      provider ← expect_ok (bstr "failed to initialize mock KMS provider") provider;
      ciphertext ← (if kind_test b then read_kind_ciphertext else read_localstack_ciphertext);
      secret ← decrypt_upstream_api_key provider ciphertext;
      secret ← expect_ok
        (bstr "failed to decrypt LocalStack fixture; refusing unauthenticated boot") secret;
      client_with secret (bstr "LocalStack API key produced an invalid Authorization header").

End Bootstrap.
