(* ===== verification/BootstrapProofs.v ===== *)
(** * Correctness of the start-up secrets

    Whatever the outside answers: the key service is asked at most once, only for
    a recipient key the security module has attested in the same run, and the
    secret that comes back is sent nowhere; an outside that keeps its promises
    returns the secret that was sealed; and there is no client without it. *)

From stdpp Require Import vector.
From S2P Require Import Prelude Utf8 RustStr Externals Http HttpProofs Effects Bootstrap.
Import EffectsNotations.
Local Open Scope Z_scope.

Section Proofs.
Context {rsa_api : RsaApi} {sig_api : Ed25519Api} {enc_api : EncodingApi} {hdr_api : HeaderApi}.

(** ** What the two copies of the unsealing code share *)

Lemma nitro_route : nitro_route_through_tunnels = route_through_tunnels.
Proof. done. Qed.

(** The shape of both ends, with the errors of the key service, of a reply without
    a wrapped text, of a lost task, of the decryption and of the text. *)
Definition opening (refused omitted lost failed garbled : BootError) (ciphertext doc : bytes)
    (sk : RsaPrivateKey) : Prog Resp (Result BootError SecretString) :=
  response ← act (KmsDecrypt AwsDefaults ciphertext (Some doc));
  response ←? mret (ok_or refused response);
  wrapped ←? mret (ok_or omitted (kr_for_recipient response));
  plaintext ←? (flatten <$> blocking lost (mret (ok_or failed (rsa_oaep_decrypt sk wrapped))));
  mret (utf8_secret garbled plaintext).

Lemma bootloader_opening ct doc sk :
  decrypt_for_recipient ct doc sk =
  opening (bstr "AWS KMS attested decrypt failed")
    (bstr "AWS KMS response omitted CiphertextForRecipient") (bstr "RSA decryption task failed")
    (bstr "RSA recipient decryption failed") (bstr "AWS KMS plaintext token was not valid UTF-8") ct doc sk.
Proof. done. Qed.

Lemma nitro_opening ct doc sk :
  nitro_decrypt_for_recipient ct doc sk =
  opening (bstr "AWS KMS decrypt failed")
    (bstr "AWS KMS response did not contain CiphertextForRecipient") (bstr "RSA decryption task failed")
    (bstr "RSA-OAEP decryption failed") (bstr "AWS KMS plaintext was not valid UTF-8") ct doc sk.
Proof. done. Qed.

(** ** Requests to the key service *)

Definition is_kms (c : Cmd) : bool := match c with KmsDecrypt _ _ _ => true | _ => false end.

(** Events none of which is a request to the key service. *)
Definition quiet (tr : list {c : Cmd & Resp c}) : Prop := Forall (λ e, is_kms (command e) = false) tr.

Lemma quiet_nil : quiet [].
Proof. constructor. Qed.
Lemma quiet_snoc tr c (r : Resp c) : quiet tr → is_kms c = false → quiet (tr ++ [event c r]).
Proof. intros H Hc. apply Forall_app. split; [done|]. by repeat constructor. Qed.
Hint Resolve quiet_nil quiet_snoc : pxy.

(** The events before the request for the recipient key [sk] attested by [doc]. *)
Record attested (tr : list {c : Cmd & Resp c}) (sk : RsaPrivateKey) (doc : bytes) : Prop := {
  at_quiet : quiet tr;
  at_key : event (RsaGenerate 3072) (Some sk) ∈ tr;
  at_doc : ∃ nonce der, rsa_public_der sk = Some der ∧ event (FillRandom 32) nonce ∈ tr ∧
             event (NsmAttest (Some (vec_to_list nonce)) (Some der) None) (Some doc) ∈ tr
}.

(** What holds of an execution that unseals [ct]. *)
Definition unsealing (ct : bytes) (tr : list {c : Cmd & Resp c})
    (o : Ending (Result BootError SecretString)) : Prop :=
  (quiet tr ∧ ∀ s, o ≠ Returned (Ok s)) ∨
  ∃ pre sk doc reply post,
    tr = pre ++ event (KmsDecrypt AwsDefaults ct (Some doc)) reply :: post ∧
    attested pre sk doc ∧ Forall (λ e, command e = Join) post ∧
    ∀ s, o = Returned (Ok s) →
      ∃ r wrapped, reply = Some r ∧ kr_for_recipient r = Some wrapped ∧
        rsa_oaep_decrypt sk wrapped = Some (expose_secret s) ∧ valid_utf8 (expose_secret s) = true.

Lemma unsealing_quiet ct tr o : quiet tr → (∀ s, o ≠ Returned (Ok s)) → unsealing ct tr o.
Proof. by left. Qed.

Lemma wp_opening e1 e2 e3 e4 e5 ct doc sk tr :
  attested tr sk doc → wp (opening e1 e2 e3 e4 e5 ct doc sk) (unsealing ct) tr.
Proof.
  intros Ha. unfold opening, blocking, utf8_secret. wp_step.
  split; [apply unsealing_quiet; [apply Ha|done]|]. intros reply.
  assert (∀ o post, Forall (λ e, command e = Join) post → (∀ s, o = Returned (Ok s) →
      ∃ r wrapped, reply = Some r ∧ kr_for_recipient r = Some wrapped ∧
        rsa_oaep_decrypt sk wrapped = Some (expose_secret s) ∧
        valid_utf8 (expose_secret s) = true) →
    unsealing ct ((tr ++ [event (KmsDecrypt AwsDefaults ct (Some doc)) reply]) ++ post) o) as K.
  { intros o post Hp Hs. right. exists tr, sk, doc, reply, post. by rewrite <-app_assoc. }
  assert (∀ o, (∀ s, o ≠ Returned (Ok s)) →
    unsealing ct (tr ++ [event (KmsDecrypt AwsDefaults ct (Some doc)) reply]) o) as K0.
  { intros o Ho. rewrite <-(app_nil_r (tr ++ _)). apply K; [done|]. intros s E. by destruct (Ho s E). }
  destruct reply as [r|]; cbn [ok_or]; wp_step; [|by split; apply K0].
  destruct (kr_for_recipient r) as [wrapped|] eqn:Ew; cbn [ok_or]; wp_step; [|by split; apply K0].
  split; [by apply K0|]. intros joined.
  assert (∀ o, (∀ s, o = Returned (Ok s) →
      rsa_oaep_decrypt sk wrapped = Some (expose_secret s) ∧ valid_utf8 (expose_secret s) = true) →
    unsealing ct ((tr ++ [event (KmsDecrypt AwsDefaults ct (Some doc)) (Some r)])
      ++ [event Join joined]) o) as K1.
  { intros o Ho. apply K; [by repeat constructor|]. intros s E. destruct (Ho s E). eauto 8. }
  destruct joined; cbn [flatten]; [|wp_step; by split; apply K1].
  destruct (rsa_oaep_decrypt sk wrapped) as [pt|]; cbn [ok_or]; wp_step; [|by split; apply K1].
  split; [by apply K1|]. apply K1. intros s. destruct (valid_utf8 pt) eqn:Eu; [|done].
  by intros [= <-].
Qed.

(** Commands that are not requests to the key service keep an execution quiet. *)
Ltac quiet_step :=
  repeat first
    [ progress wp_step
    | match goal with |- _ ∧ _ => split end
    | match goal with |- ∀ _, _ => intros ? end
    | wp_case
    | match goal with |- unsealing _ _ _ => apply unsealing_quiet; [by eauto 30 with pxy|done] end ].

Lemma wp_route Q tr :
  quiet tr → (∀ tr' o, quiet (tr ++ tr') → Q (tr ++ tr') o) → wp route_through_tunnels Q tr.
Proof.
  intros Hq HQ.
  assert (∀ tr', quiet tr' → quiet (tr ++ tr')) as K by (intros; by apply Forall_app).
  unfold route_through_tunnels, spawn_enclave_tunnels, start_tunnel.
  repeat first
    [ progress wp_step
    | match goal with |- _ ∧ _ => split end
    | match goal with |- ∀ _, _ => intros ? end
    | wp_case
    | match goal with |- Q _ _ => rewrite <-?app_assoc;
        first [apply HQ; apply K; by repeat constructor
              | rewrite <-(app_nil_r tr); apply HQ; by rewrite app_nil_r] end ].
Qed.

(** Behind the set-up of the tunnels. *)
Lemma wp_after_route {B} (f : unit → Prog Resp (Result BootError B)) Q tr :
  quiet tr → (∀ tr' o, quiet tr' → (∀ s, o ≠ Returned (Ok s)) → Q tr' o) →
  (∀ tr', quiet tr' → wp (f tt) Q tr') → wp (route_through_tunnels ≫= f) Q tr.
Proof.
  intros Hq HQ Hf. apply wp_bind, wp_route; [done|].
  intros tr' [|[]|m] Hq'; cbn; [by apply HQ|by apply Hf|by apply HQ].
Qed.

Ltac in_trace := repeat (rewrite elem_of_app || rewrite elem_of_cons); tauto.
Ltac attested_tac :=
  rewrite ?bootloader_opening, ?nitro_opening; apply wp_opening; split; [by eauto 30 with pxy|in_trace|];
  do 2 eexists; (split; [eassumption|]); split; in_trace.

(** What the answer of a step that may fail is. *)
Ltac answer o := destruct o; cbn [flatten ok_or]; quiet_step.

Lemma wp_nitro_decrypt ct : wp (nitro_decrypt ct) (unsealing ct) [].
Proof.
  unfold nitro_decrypt. rewrite nitro_route. apply wp_after_route; [constructor|by intros; apply unsealing_quiet|].
  intros tr Hq. unfold blocking. quiet_step.
  match goal with joined : Resp Join |- _ => answer joined end.
  match goal with key : Resp (RsaGenerate _) |- _ => destruct key as [sk|]; cbn [ok_or flatten]; quiet_step end.
  destruct (rsa_public_der sk) as [der|] eqn:Eder; quiet_step.
  match goal with joined : Resp Join |- _ => answer joined end.
  match goal with doc : Resp (NsmAttest _ _ _) |- _ => answer doc end.
  attested_tac.
Qed.

Lemma wp_decrypt_with_nsm ct : wp (decrypt_with_nsm ct) (unsealing ct) [].
Proof.
  unfold decrypt_with_nsm. apply wp_after_route; [constructor|by intros; apply unsealing_quiet|].
  intros tr Hq. unfold blocking. quiet_step.
  match goal with joined : Resp Join |- _ => answer joined end.
  match goal with key : Resp (RsaGenerate _) |- _ => destruct key as [sk|]; cbn [ok_or flatten]; quiet_step end.
  destruct (rsa_public_der sk) as [der|] eqn:Eder; cbn [ok_or]; quiet_step.
  match goal with joined : Resp Join |- _ => answer joined end.
  match goal with doc : Resp (NsmAttest _ _ _) |- _ => answer doc end.
  attested_tac.
Qed.

(** C8: Whatever the environment, the security module and the key service answer,
    and wherever an execution stops, both ways of unsealing a secret in an enclave
    send the key service at most one request.  The request carries exactly the
    given ciphertext and, as recipient, a document that the security module issued
    in this run for the public half of an RSA key generated in this run and a
    nonce drawn in this run.  After the reply nothing is sent any more, and a
    secret is returned only if it is valid text that the private key unwraps from
    this reply. *)
Theorem unseal_attested ct tr o :
  exec (nitro_decrypt ct) tr o ∨ exec (decrypt_with_nsm ct) tr o → unsealing ct tr o.
Proof.
  intros [H|H]; [by apply (wp_exec _ _ _ _ (wp_nitro_decrypt ct))|].
  by apply (wp_exec _ _ _ _ (wp_decrypt_with_nsm ct)).
Qed.

(** ** An outside that keeps its promises *)

Section Honest.
Context {rsa_laws : RsaLaws}.

(** The plaintext of a ciphertext, as the key service knows it, and the public key
    a document of the security module attests. *)
Variable sealed : bytes → option bytes.
Variable document_key : bytes → option bytes.

(** Key generation, the module and the tasks work, and the key service returns the
    plaintext encrypted for the attested key, as its documentation says. *)
Definition honest (e : {c : Cmd & Resp c}) : Prop :=
  match e with
  | existT c r =>
    match c return Resp c → Prop with
    | RsaGenerate _ => λ r, ∃ sk der, r = Some sk ∧ rsa_public_der sk = Some der
    | Join | NsmOpen | BindTcp _ => λ r, r = true
    | NsmInit => λ r, 0 ≤ r
    | NsmAttest _ public_key _ => λ r, ∃ doc, r = Some doc ∧ document_key doc = public_key
    | KmsDecrypt _ ct (Some doc) => λ r,
        ∃ der m seed, document_key doc = Some der ∧ sealed ct = Some m ∧
          r = Some {| kr_plaintext := None; kr_for_recipient := Some (rsa_oaep_encrypt der seed m) |}
    | _ => λ _, True
    end r
  end.

Definition unseals (m : bytes) (tr : list {c : Cmd & Resp c})
    (o : Ending (Result BootError SecretString)) : Prop :=
  Forall honest tr → o = Unfinished ∨ o = Returned (Ok {| expose_secret := m |}).

(** Use the honesty of the events gone by. *)
Ltac use_honest :=
  let H := fresh "Hh" in intros H;
  repeat match goal with
  | H : Forall honest (_ ++ _) |- _ => apply Forall_app in H as [? ?]
  | H : Forall honest [_] |- _ => rewrite Forall_singleton in H; cbn in H
  | H : ∃ _, _ |- _ => destruct H
  | H : _ ∧ _ |- _ => destruct H
  end; simplify_eq.

Ltac honest_step :=
  repeat first
    [ progress wp_step
    | match goal with |- _ ∧ _ => split end
    | match goal with |- ∀ _ : Resp _, _ => intros ? end
    | wp_case
    | match goal with |- unseals _ _ Unfinished => by left end
    | match goal with |- unseals _ _ _ => use_honest; try done; try lia end ].

Ltac honest_answer o := destruct o; cbn [flatten ok_or]; honest_step.

Lemma wp_honest_opening e1 e2 e3 e4 e5 ct m sk der doc tr :
  sealed ct = Some m → valid_utf8 m = true → rsa_public_der sk = Some der →
  (Forall honest tr → document_key doc = Some der) →
  wp (opening e1 e2 e3 e4 e5 ct doc sk) (unseals m) tr.
Proof.
  intros Hs Hu Hder Hdoc. unfold opening, blocking, utf8_secret. honest_step.
  match goal with r : Resp (KmsDecrypt _ _ _) |- _ => rename r into reply; cbn in reply end.
  destruct reply as [[pt wr]|]; cbn [ok_or kr_for_recipient]; honest_step.
  destruct wr as [w|]; cbn [ok_or]; honest_step.
  match goal with j : Resp Join |- _ => destruct j; cbn [flatten]; honest_step end.
  assert (unseals m ((tr ++ [event (KmsDecrypt AwsDefaults ct (Some doc))
      (Some {| kr_plaintext := pt; kr_for_recipient := Some w |})]) ++ [event Join true])
    (Returned match rsa_oaep_decrypt sk w with
              | Some p => if valid_utf8 p then Ok {| expose_secret := p |} else Err e5
              | None => Err e4 end)) as K.
  { use_honest. rewrite Hdoc in * by done. simplify_eq.
    erewrite rsa_oaep_correct by done. rewrite Hu. by right. }
  destruct (rsa_oaep_decrypt sk w) as [p|]; cbn [ok_or]; wp_step; (split; [by left|exact K]).
Qed.

Lemma wp_honest_route {B} (f : unit → Prog Resp (Result BootError B)) Q tr :
  (∀ tr' o, (Forall honest tr' → o = Unfinished) → Q tr' o) →
  (∀ tr', wp (f tt) Q tr') → wp (route_through_tunnels ≫= f) Q tr.
Proof.
  intros HQ Hf. unfold route_through_tunnels, spawn_enclave_tunnels, start_tunnel.
  repeat first
    [ match goal with |- wp (f ?u) _ _ => destruct u; apply Hf end
    | progress wp_step
    | match goal with |- _ ∧ _ => split end
    | match goal with |- ∀ _ : Resp _, _ => intros ? end
    | wp_case
    | match goal with |- Q _ Unfinished => by apply HQ end
    | match goal with |- Q _ _ => apply HQ; use_honest end ].
Qed.

Lemma wp_honest_nitro ct m :
  sealed ct = Some m → valid_utf8 m = true → wp (nitro_decrypt ct) (unseals m) [].
Proof.
  intros Hs Hu. unfold nitro_decrypt. rewrite nitro_route. apply wp_honest_route; [by intros ? ? H Hh; left; apply H|].
  intros tr. unfold blocking. honest_step.
  match goal with joined : Resp Join |- _ => honest_answer joined end.
  match goal with key : Resp (RsaGenerate _) |- _ => destruct key as [sk|]; cbn [ok_or flatten]; honest_step end.
  destruct (rsa_public_der sk) as [der|] eqn:Eder; honest_step.
  match goal with joined : Resp Join |- _ => honest_answer joined end.
  match goal with doc : Resp (NsmAttest _ _ _) |- _ => honest_answer doc end.
  rewrite ?bootloader_opening, ?nitro_opening. eapply wp_honest_opening; try done. by use_honest.
Qed.

Lemma wp_honest_nsm ct m :
  sealed ct = Some m → valid_utf8 m = true → wp (decrypt_with_nsm ct) (unseals m) [].
Proof.
  intros Hs Hu. unfold decrypt_with_nsm. apply wp_honest_route; [by intros ? ? H Hh; left; apply H|].
  intros tr. unfold blocking. honest_step.
  match goal with joined : Resp Join |- _ => honest_answer joined end.
  match goal with key : Resp (RsaGenerate _) |- _ => destruct key as [sk|]; cbn [ok_or flatten]; honest_step end.
  destruct (rsa_public_der sk) as [der|] eqn:Eder; cbn [ok_or]; honest_step.
  match goal with joined : Resp Join |- _ => honest_answer joined end.
  match goal with doc : Resp (NsmAttest _ _ _) |- _ => honest_answer doc end.
  rewrite ?bootloader_opening, ?nitro_opening. eapply wp_honest_opening; try done. by use_honest.
Qed.

(** C12: Unsealing gives back what was sealed: when the tasks, the random source
    and the security module work and the key service returns the plaintext of the
    ciphertext encrypted for the attested key, every execution of either unsealing
    program that has ended has returned exactly the sealed text, and against every
    outside both do end. *)
Theorem unseal_roundtrip ct m tr o :
  sealed ct = Some m → valid_utf8 m = true → Forall honest tr → o ≠ Unfinished →
  exec (nitro_decrypt ct) tr o ∨ exec (decrypt_with_nsm ct) tr o →
  o = Returned (Ok {| expose_secret := m |}) ∧
  ∀ S (outside : S → ∀ c, Resp c * S) s,
    (run outside s (nitro_decrypt ct)).1.1 ≠ Unfinished ∧
    (run outside s (decrypt_with_nsm ct)).1.1 ≠ Unfinished.
Proof.
  intros Hs Hu Hh Ho Hx. split; [|intros; split; apply run_ends].
  assert (unseals m tr o) as K.
  { destruct Hx as [H|H]; [by apply (wp_exec _ _ _ _ (wp_honest_nitro ct m Hs Hu))|].
    by apply (wp_exec _ _ _ _ (wp_honest_nsm ct m Hs Hu)). }
  by destruct (K Hh).
Qed.

End Honest.

(** ** The two copies of the unsealing code *)

(** How a program ends when the answer depends only on the command. *)
Definition ending {A} (answers : ∀ c, Resp c) (p : Prog Resp A) : Ending A :=
  (run (λ _ c, (answers c, tt)) tt p).1.1.

Lemma ending_act {A} answers c (k : Resp c → Prog Resp A) :
  ending answers (Act c k) = ending answers (k (answers c)).
Proof. unfold ending. cbn. by destruct (run _ _ _) as [[o tr] []]. Qed.

Lemma ending_bind {A B} answers (p : Prog Resp A) (f : A → Prog Resp B) :
  ending answers (p ≫= f) =
    match ending answers p with
    | Returned a => ending answers (f a)
    | Panicked m => Panicked m
    | Unfinished => Unfinished
    end.
Proof.
  induction p as [a|m|c k IH]; [done|done|]. cbn [mbind prog_bind prog_bind_fix].
  rewrite !ending_act. apply IH.
Qed.

Lemma ending_ret {A} answers (a : A) : ending answers (Ret a) = Returned a.
Proof. done. Qed.

Ltac ending_step :=
  repeat first
    [ rewrite ending_act
    | rewrite ending_ret
    | progress cbn [mbind prog_bind prog_bind_fix fmap prog_fmap act mret prog_ret try_bind
                    flatten ok_or] ].

(** The messages of the two copies for the same failure: of the bootloader, and of
    the provider. *)
Definition same_failure : list (BootError * BootError) :=
  [(bstr "RSA key generation task failed", bstr "RSA key generation task failed");
   (bstr "failed to generate RSA recipient key", bstr "Failed to generate RSA keypair");
   (bstr "failed to encode RSA recipient key", bstr "Failed to encode SPKI public key");
   (bstr "NSM initialization failed", bstr "Failed to open /dev/nsm");
   (bstr "NSM request task failed", bstr "NSM request task failed");
   (bstr "NSM attestation request failed", bstr "NSM attestation request failed");
   (bstr "AWS KMS attested decrypt failed", bstr "AWS KMS decrypt failed");
   (bstr "AWS KMS response omitted CiphertextForRecipient",
    bstr "AWS KMS response did not contain CiphertextForRecipient");
   (bstr "RSA decryption task failed", bstr "RSA decryption task failed");
   (bstr "RSA recipient decryption failed", bstr "RSA-OAEP decryption failed");
   (bstr "AWS KMS plaintext token was not valid UTF-8", bstr "AWS KMS plaintext was not valid UTF-8")].

(** The same secret, or each copy's message for the same failure, or the same
    panic. *)
Definition alike (o o' : Ending (Result BootError SecretString)) : Prop :=
  match o, o' with
  | Returned (Ok s), Returned (Ok s') => s = s'
  | Returned (Err e), Returned (Err e') => (e, e') ∈ same_failure
  | Panicked m, Panicked m' => m = m'
  | _, _ => False
  end.

Lemma alike_opening answers ct doc sk :
  alike (ending answers (decrypt_for_recipient ct doc sk))
        (ending answers (nitro_decrypt_for_recipient ct doc sk)).
Proof.
  rewrite bootloader_opening, nitro_opening. unfold opening, blocking, utf8_secret. ending_step.
  destruct (answers (KmsDecrypt _ _ _) : option KmsReply) as [r|]; ending_step; [|cbn; set_solver].
  destruct (kr_for_recipient r) as [wrapped|]; ending_step; [|cbn; set_solver].
  destruct (answers Join : bool); ending_step; [|cbn; set_solver].
  destruct (rsa_oaep_decrypt sk wrapped) as [p|]; ending_step; [|cbn; set_solver].
  destruct (valid_utf8 p); cbn; [done|set_solver].
Qed.

(** C21: The bootloader and the key-service provider contain two copies of the
    unsealing code, which open the security module differently, do some steps in
    another order and word most of their errors differently.  Against an outside
    whose answers depend only on the command they end alike, provided both ways of
    opening the module work or both fail: with the same secret, with each copy's own
    message for one and the same failure, or with the same panic. *)
Theorem unseal_copies_agree (answers : ∀ c, Resp c) ct :
  ((answers NsmInit : Z) <? 0) = negb (answers NsmOpen) →
  alike (ending answers (decrypt_with_nsm ct)) (ending answers (nitro_decrypt ct)).
Proof.
  intros Hn. unfold decrypt_with_nsm, nitro_decrypt, blocking. rewrite nitro_route, !ending_bind.
  pose proof (run_ends (λ _ c, (answers c, tt)) route_through_tunnels tt) as Hu. fold (ending answers route_through_tunnels) in Hu.
  destruct (ending answers route_through_tunnels) as [|u|m]; [done| |done].
  ending_step. destruct (answers Join : bool) eqn:Ej; ending_step; [|cbn; set_solver].
  destruct (answers (RsaGenerate 3072) : option RsaPrivateKey) as [sk|]; ending_step; [|cbn; set_solver].
  destruct (rsa_public_der sk) as [der|]; ending_step; [|cbn; set_solver].
  rewrite Hn. destruct (negb (answers NsmOpen)); ending_step; [cbn; set_solver|].
  rewrite Ej. ending_step.
  destruct (answers (NsmAttest _ _ None) : option bytes) as [doc|]; ending_step; [|cbn; set_solver].
  apply alike_opening.
Qed.

(** ** Waiting for the ciphertext *)

(** [k] attempts without success, each followed by two seconds. *)
Definition waits (k : nat) : list {c : Cmd & Resp c} :=
  concat (replicate k [event (ReadFile localstack_path) None; event (SleepMs 2000) tt]).

(** The end of an execution after [k] unsuccessful attempts, of which there are at
    most [n] more. *)
Definition retried (n : nat) (tr : list {c : Cmd & Resp c}) (o : Ending bytes) : Prop :=
  (∃ k contents, (k ≤ n)%nat ∧
     tr = waits k ++ [event (ReadFile localstack_path) (Some contents)] ∧
     o = match b64_decode (trim contents) with
         | Some ciphertext => Returned ciphertext
         | None => Panicked (bstr "LocalStack ciphertext fixture is not valid Base64")
         end) ∨
  (tr = waits n ++ [event (ReadFile localstack_path) None] ∧
   o = Panicked (bstr "LocalStack ciphertext fixture unavailable after 10 attempts")).

Lemma localstack_attempts_spec n : ∀ attempt tr o,
  (attempt + n = 10)%nat → o ≠ Unfinished →
  exec (localstack_attempts attempt (S n)) tr o → retried n tr o.
Proof.
  induction n as [|n IH]; intros attempt tr o Ha Ho He; cbn in He;
    apply exec_act_inv in He as [[_ ?]|(r & tr' & -> & He)]; try done;
    destruct r as [contents|].
  1,3: left; exists 0%nat, contents; destruct (b64_decode (trim contents)); inversion He;
    subst; try done; (split_and!; [lia|done|done]).
  - rewrite (proj2 (Nat.ltb_ge attempt 10)) in He by lia. right. by inversion He; subst.
  - rewrite (proj2 (Nat.ltb_lt attempt 10)) in He by lia.
    apply exec_act_inv in He as [[_ ?]|([] & tr2 & -> & He)]; [done|].
    destruct (IH (S attempt) tr2 o) as [(k & c & Hk & -> & ->)|[-> ->]]; [lia|done|exact He| |].
    + left. exists (S k), c. by split_and!; [lia|..].
    + by right.
Qed.

(** The loop that waits for the fixture asks at most ten times and sleeps two
    seconds after each failure but the last, eighteen seconds in all; it returns
    the decoded content the first time the file can be read, panics if that is not
    Base64 or if all ten attempts fail, and the code behind the loop is never
    reached. *)
Theorem localstack_retries tr o :
  exec read_localstack_ciphertext tr o → o ≠ Unfinished → retried 9 tr o.
Proof. intros He Ho. by apply (localstack_attempts_spec 9 1). Qed.

(** ** The upstream client *)

(** A file read during the run, decoded. *)
Definition decoded_from (tr : list {c : Cmd & Resp c}) (path ct : bytes) : Prop :=
  ∃ contents, event (ReadFile path) (Some contents) ∈ tr ∧ b64_decode (trim contents) = Some ct.

(** Where the upstream key comes from: in an enclave it is unsealed, the test
    cluster has it in the clear, and otherwise the local key service gives it. *)
Definition key_from (b : Build) (tr : list {c : Cmd & Resp c}) (secret : bytes) : Prop :=
  ∃ ct,
  if nitro b then
    decoded_from tr secret_path ct ∧
    ∃ t, within t tr ∧ exec (nitro_decrypt ct) t (Returned (Ok {| expose_secret := secret |}))
  else if kind_test b then decoded_from tr secret_path ct ∧ secret = ct
  else decoded_from tr localstack_path ct ∧
    ∃ region endpoint r, event (GetEnv (bstr "LOCALSTACK_ENDPOINT")) (Some endpoint) ∈ tr ∧
      event (KmsDecrypt (AwsAt region endpoint) ct None) (Some r) ∈ tr ∧
      kr_plaintext r = Some secret.

(** A client carries the secret it was given. *)
Definition authorized (cl : Client) (secret : bytes) : Prop :=
  ∃ v, header_from_str (bstr "Bearer " ++ secret) = Some v ∧
    cl_default_headers cl = [(bstr "authorization", v)] ∧ cl_sensitive cl = true.

Lemma client_with_ret secret bad tr cl :
  exec (client_with secret bad) tr (Returned cl) → authorized cl (expose_secret secret).
Proof.
  unfold client_with. intros He. exec_inv He. rename He0 into Hv.
  destruct a0; exec_inv He2. by exists a.
Qed.

Lemma utf8_secret_Ok e pt s : utf8_secret e pt = Ok s → s = {| expose_secret := pt |}.
Proof. unfold utf8_secret. destruct (valid_utf8 pt); [by intros [= <-]|done]. Qed.

Lemma read_localstack_ret tr ct :
  exec read_localstack_ciphertext tr (Returned ct) → decoded_from tr localstack_path ct.
Proof.
  intros He. destruct (localstack_attempts_spec 9 1 tr (Returned ct) eq_refl ltac:(done) He)
    as [(k & c & _ & -> & E)|[_ ?]]; [|done].
  destruct (b64_decode (trim c)) as [x|] eqn:Ex; [|done]. injection E as ->.
  exists c. split; [|done]. apply elem_of_app. right. by left.
Qed.

Lemma decrypt_upstream_ret {P} `{!KmsProvider P} (p : P) ct tr s :
  exec (decrypt_upstream_api_key p ct) tr (Returned (Ok s)) →
  exec (kms_decrypt p ct) tr (Returned (Ok s)).
Proof.
  unfold decrypt_upstream_api_key. intros He. exec_inv He. by rewrite app_nil_r.
Qed.

Lemma local_decrypt_ret p ct tr s :
  exec (kms_decrypt (P := LocalMockProvider) p ct) tr (Returned (Ok s)) →
  if kind_test (lm_build p) then expose_secret s = ct
  else ∃ r, event (KmsDecrypt (lm_config p) ct None) (Some r) ∈ tr ∧
         kr_plaintext r = Some (expose_secret s).
Proof.
  unfold kms_decrypt, local_provider. destruct (kind_test _); intros He; exec_inv He.
  - by rewrite (utf8_secret_Ok _ _ _ (eq_sym He)).
  - destruct a as [r|]; [|done]. cbn [ok_or] in *. simplify_eq.
    destruct (kr_plaintext r) as [pt|] eqn:Ep; [|done]. cbn [ok_or] in *. simplify_eq.
    exists r. split; [by left|].
    match goal with H : Ok _ = utf8_secret _ _ |- _ => by rewrite (utf8_secret_Ok _ _ _ (eq_sym H)) end.
Qed.

Lemma local_new_ret b tr p :
  exec (LocalMockProvider_new b) tr (Returned (Ok p)) →
  lm_build p = b ∧
  (kind_test b = false → ∃ region endpoint, lm_config p = AwsAt region endpoint ∧
     event (GetEnv (bstr "LOCALSTACK_ENDPOINT")) (Some endpoint) ∈ tr).
Proof.
  unfold LocalMockProvider_new. destruct (kind_test b); intros He; exec_inv He; [done|].
  destruct a as [endpoint|]; [|done]. cbn [ok_or] in *. simplify_eq. split; [done|].
  intros _. eexists _, _. split; [done|]. by left.
Qed.

(** There is no upstream client without a key: whatever the outside answers, a
    client is built only after the key has been obtained the way the build
    prescribes (unsealed for an attested key in an enclave), and it then carries
    exactly this key as its authorization, marked sensitive. *)
Lemma client_never_unauthenticated b tr cl :
  exec (build_upstream_client b) tr (Returned cl) →
  ∃ secret, authorized cl secret ∧ key_from b tr secret.
Proof.
  intros He. unfold build_upstream_client in He. unfold key_from. destruct (nitro b) eqn:En.
  - unfold NitroKmsProvider_new, read_nitro_ciphertext in He. exec_inv He. subst.
    match goal with H : exec (client_with _ _) _ _ |- _ => apply client_with_ret in H as Hc end.
    match goal with H : exec (decrypt_upstream_api_key _ _) _ _ |- _ =>
      apply decrypt_upstream_ret in H as Hd end.
    match type of Hc with authorized _ (expose_secret ?s) => destruct s as [secret] end.
    exists secret. split; [done|]. match goal with H : b64_decode _ = Some ?x |- _ => exists x end.
    split; [eexists; split; [|eassumption]; by left|]. eexists. split; [|exact Hd].
    by eauto 10 with pxy.
  - set (endpoint := if debug_assertions b then _ else _) in He. clearbody endpoint.
    apply exec_bind_ret in He as (e & t0 & t1 & _ & He & ->). destruct (_ && _); exec_inv He. subst.
    match goal with H : exec (client_with _ _) _ _ |- _ => apply client_with_ret in H as Hc end.
    match goal with H : exec (decrypt_upstream_api_key _ _) _ _ |- _ =>
      apply decrypt_upstream_ret in H as Hd end.
    match goal with H : exec (LocalMockProvider_new _) _ _ |- _ =>
      apply local_new_ret in H as [Hb Hcfg] end.
    apply local_decrypt_ret in Hd as Hs. rewrite Hb in Hs.
    match type of Hc with authorized _ (expose_secret ?s) => exists (expose_secret s) end.
    split; [done|]. match type of Hd with exec (kms_decrypt _ ?ct) _ _ => exists ct end.
    match goal with H : exec (if _ then read_kind_ciphertext else _) ?t _ |- _ =>
      rename H into Hread; rename t into tread end.
    assert (∀ path ct t, within tread t → decoded_from tread path ct → decoded_from t path ct) as Hdec.
    { intros path ct t Hin (c & Hc1 & Hc2). exists c. split; [by eapply within_elem|done]. }
    destruct (kind_test b).
    + split; [|done]. apply Hdec; [by eauto 10 with pxy|]. unfold read_kind_ciphertext in Hread.
      exec_inv Hread. subst. eexists. split; [by left|done].
    + split; [apply Hdec; [by eauto 10 with pxy|by apply read_localstack_ret]|].
      destruct (Hcfg eq_refl) as (region & ep & Ecfg & Hep), Hs as (r & Hr & Hp). rewrite Ecfg in Hr.
      exists region, ep, r. split_and!; [in_trace|in_trace|done].
Qed.

End Proofs.

(** ** Concrete runs *)

Module BootDemo.

(** A key is its own public half, and a message is wrapped by putting the key in
    front of it. *)
#[export] Instance transparent_rsa : RsaApi := {|
  RsaPrivateKey := bytes; rsa_public_der := Some; rsa_oaep_decrypt sk c := strip_prefix sk c
|}.
#[export] Instance transparent_rsa_laws : RsaLaws.
Proof.
  refine {| rsa_oaep_encrypt der seed m := der ++ m |}. intros sk der seed m [= <-]. cbn.
  unfold strip_prefix. rewrite (proj2 (starts_with_spec (sk ++ m) sk)) by eauto.
  by rewrite drop_app_length.
Defined.

Import Transparent.

(** A module whose documents are the keys they attest, and a key service whose
    ciphertexts are the reversed texts. *)
Definition sealed (ct : bytes) : option bytes := Some (rev ct).
Definition document_key (doc : bytes) : option bytes := Some doc.

Definition answers (c : Cmd) : Resp c :=
  match c with
  | LoadDotenv | SetEnv _ _ | Zeroize _ | SleepMs _ | OnceDone | Spawn _ | NsmExit | LoadAws _ => tt
  | GetEnv _ => None
  | ReadFile _ => Some (bstr " yek-terces ")
  | FillRandom n => vreplicate n "x"%byte
  | SigningKeyGenerate => bstr "signing-key"
  | RsaGenerate _ => Some (bstr "rsa-key")
  | InstallRecorder | Join | BindTcp _ | NsmOpen | BuildClient | GenerateCert | BuildTlsConfig => true
  | OnceStarted => false
  | NsmInit => 3
  | NsmAttest _ public_key _ => public_key
  | KmsDecrypt _ ct recipient =>
      Some {| kr_plaintext := None;
              kr_for_recipient := (λ key, key ++ rev ct) <$> recipient |}
  end.

Definition outside (s : unit) (c : Cmd) : Resp c * unit := (answers c, s).
End BootDemo.
Import (hints) BootDemo Transparent AsciiHeaders.

Lemma unseal_attested_witness :
  ∃ tr, unsealing (bstr "yek-terces") tr
    (Returned (Ok {| expose_secret := bstr "secret-key" |})) ∧ length tr = 18%nat.
Proof.
  exists (run BootDemo.outside tt (nitro_decrypt (bstr "yek-terces"))).1.2.
  split; [|by_vm]. apply unseal_attested. left.
  assert ((run BootDemo.outside tt (nitro_decrypt (bstr "yek-terces"))).1.1
    = Returned (Ok {| expose_secret := bstr "secret-key" |})) as <- by by_vm.
  apply run_executes.
Defined.

Lemma unseal_roundtrip_witness :
  (run BootDemo.outside tt (decrypt_with_nsm (bstr "yek-terces"))).1.1
    = Returned (Ok {| expose_secret := bstr "secret-key" |}).
Proof.
  apply (unseal_roundtrip BootDemo.sealed BootDemo.document_key (bstr "yek-terces")
    (bstr "secret-key") (run BootDemo.outside tt (decrypt_with_nsm (bstr "yek-terces"))).1.2).
  - reflexivity.
  - reflexivity.
  - repeat constructor; try (by_vm || done); eauto; try (eexists _, _; split; reflexivity).
    + exists (bstr "rsa-key"). split; reflexivity.
    + exists (bstr "rsa-key"), (bstr "secret-key"), []. split; [|split]; reflexivity.
  - discriminate.
  - right. apply run_executes.
Defined.

(** The key service refuses both. *)
Definition refusing (c : Cmd) : Resp c :=
  match c with KmsDecrypt _ _ _ => None | c => BootDemo.answers c end.

Lemma unseal_copies_agree_witness :
  ending refusing (decrypt_with_nsm (bstr "yek-terces"))
    = Returned (Err (bstr "AWS KMS attested decrypt failed")) ∧
  ending refusing (nitro_decrypt (bstr "yek-terces")) = Returned (Err (bstr "AWS KMS decrypt failed")) ∧
  alike (ending BootDemo.answers (decrypt_with_nsm (bstr "yek-terces")))
        (ending BootDemo.answers (nitro_decrypt (bstr "yek-terces"))) ∧
  alike (ending refusing (decrypt_with_nsm (bstr "yek-terces")))
        (ending refusing (nitro_decrypt (bstr "yek-terces"))).
Proof.
  split; [by_vm|]. split; [by_vm|].
  split; [apply (unseal_copies_agree BootDemo.answers (bstr "yek-terces")); reflexivity|].
  apply (unseal_copies_agree refusing (bstr "yek-terces")). reflexivity.
Defined.

Lemma localstack_retries_witness :
  retried 9 [event (ReadFile localstack_path) (Some (bstr " yek-terces "))]
    (Returned (bstr "yek-terces")).
Proof.
  apply (localstack_retries
    [event (ReadFile localstack_path) (Some (bstr " yek-terces "))] (Returned (bstr "yek-terces"))).
  - exact (run_executes BootDemo.outside read_localstack_ciphertext tt).
  - discriminate.
Defined.
