(* ===== verification/Startup.v ===== *)
(** * Starting the proxy ([main] of [src/main.rs])

    [main] up to the point where it serves: it insists on an identity, reads the
    configuration, makes the signing key and has it attested, obtains the clients'
    tokens, the administrator's token and the upstream key, starts the background
    tasks and only then opens its ports.  It is a program over the commands of
    the start-up code; the order of the commands is that of the source.

    [prepare_state] is everything up to the shared state, [open_ports] the rest. *)

From stdpp Require Import vector.
From S2P Require Import Prelude Utf8 RustStr AhoCorasick Externals BudgetQueue Engine Http Endpoints Proxy Config Effects Bootstrap.
Import EffectsNotations.
Local Open Scope Z_scope.

Definition u16_max : Z := 65535.
Definition u64_max : Z := 2 ^ 64 - 1.

Section Startup.
Context {rsa_api : RsaApi} {sig_api : Ed25519Api} {enc_api : EncodingApi} {hdr_api : HeaderApi}
  {ac_api : AhoCorasickApi} {b3_api : Blake3Api} {json_api : SerdeJsonApi} {cbor_api : CborApi}
  {sem_api : SemaphoreApi}.

Abbreviation Boot := (Prog Resp).

(** ** Configuration *)

(** [PCR0_HASH], or else [MOCK_PCR0]; one of them must be set. *)
Definition pcr0_identity : Boot bytes :=
  pcr0_hash ← act (GetEnv (bstr "PCR0_HASH"));
  match pcr0_hash : option bytes with
  | Some identity => mret identity
  | None =>
    mock_pcr0 ← act (GetEnv (bstr "MOCK_PCR0"));
    expect (bstr "CRITICAL: PCR0_HASH or MOCK_PCR0 environment variable must be set. System failing closed to preserve cryptographic integrity.") mock_pcr0
  end.

(** A number from the environment, or its default. *)
Definition env_number (name : bytes) (max dflt : Z) : Boot Z :=
  value ← act (GetEnv name);
  mret (default dflt ((value : option bytes) ≫= parse_unsigned max)).

Definition default_upstream_url : bytes := bstr "https://api.openai.com/v1/chat/completions".

Definition load_upstream_url : Boot bytes :=
  url ← act (GetEnv (bstr "UPSTREAM_API_URL")); mret (default default_upstream_url url).

Definition load_allowed_origins : Boot (list bytes) :=
  origins ← act (GetEnv (bstr "ALLOWED_ORIGINS")); mret (parse_allowed_origins origins).

(** The text of the rules, as [Config.pii_source] defines it. *)
Definition load_pii_source : Boot bytes :=
  config_path ← act (GetEnv (bstr "PII_CONFIG_PATH"));
  content ← match config_path : option bytes with
            | Some path => act (ReadFile path)
            | None => mret None
            end;
  match content : option bytes with
  | Some content => mret content
  | None =>
    pii_patterns ← act (GetEnv (bstr "PII_PATTERNS"));
    mret (default default_pii_patterns pii_patterns)
  end.

(** ** Secrets *)

(** [attestation_document]: of the security module in an enclave, else the mock.
    Without [MOCK_PCR0] the mock panics. *)
Definition attestation_document (b : Build) (public_key : bytes) (nonce : option bytes)
    : Boot (Result bytes bytes) :=
  match validate_nonce nonce with
  | Err e => mret (Err e)
  | Ok _ =>
    if nitro b then
      nsm_fd ← act NsmOpen;
      if negb nsm_fd then mret (Err (bstr "Failed to open /dev/nsm"))
      else
        response ← act (NsmAttest nonce None (Some public_key));
        joined ← act Join;
        if negb joined then mret (Err (bstr "NSM request task failed"))
        else mret (ok_or (bstr "NSM attestation request failed") response)
    else
      mock_pcr0 ← act (GetEnv (bstr "MOCK_PCR0"));
      expect (bstr "CRITICAL: MOCK_PCR0 must be set for attestation.")
        (attestation_document_mock mock_pcr0 public_key nonce)
  end.

(** The key pair of the receipts, and a document for its public half and a fresh
    nonce. *)
Definition attested_key (b : Build) : Boot (SigningKey * bytes) :=
  proxy_private_key ← act SigningKeyGenerate;
  attestation_nonce ← act (FillRandom 32);
  document ← attestation_document b (vk_as_bytes (verifying_key proxy_private_key))
               (Some (vec_to_list attestation_nonce));
  document ← expect_ok (bstr "failed to obtain NSM attestation document") document;
  mret (proxy_private_key, document).

(** The text with the clients' tokens, and the file it came from: in an enclave
    it is a single unsealed token. *)
Definition load_auth_source (b : Build) : Boot (bytes * option bytes) :=
  nitro_env ← act (GetEnv (bstr "NITRO_ENV"));
  match nitro_env : option bytes with
  | Some _ =>
    token ← load_proxy_auth_token b;
    token ← expect_ok (bstr "failed to unseal PROXY_AUTH_TOKEN with NSM/KMS") token;
    mret (token, None)
  | None =>
    auth_file ← act (GetEnv (bstr "PROXY_AUTH_FILE"));
    auth_file ← expect (bstr "PROXY_AUTH_FILE must be configured") auth_file;
    contents ← act (ReadFile auth_file);
    contents ← expect (bstr "PROXY_AUTH_FILE must be readable") contents;
    mret (contents, Some auth_file)
  end.

Definition load_keyring (b : Build) : Boot (list bytes * option bytes) :=
  '(auth_source, auth_file) ← load_auth_source b;
  act (Zeroize auth_source);;
  mret (hash_keyring auth_source, auth_file).

Definition load_admin_hash : Boot bytes :=
  token ← act (GetEnv (bstr "ADMIN_BEARER_TOKEN"));
  token ← expect (bstr "ADMIN_BEARER_TOKEN must be configured") token;
  act (Zeroize token);;
  mret (blake3_hash token).

(** ** The shared state *)

(** The static stream limit, then the global memory and an empty tenant table. *)
Definition shared_memory : sem_id * TenantBudget * World :=
  let w := {| w_sems := ∅; w_tables := ∅; w_in_use := 0; w_next := 0 |} in
  let '(limit, w) := alloc_sem w MAX_ACTIVE_UPSTREAM_STREAMS in
  let '(memory, w) := alloc_sem w (256 * 1024 * 1024) in
  let '(tenants, w) := TenantBudget_new w memory in
  (limit, tenants, w).

(** The parts of [AppState]: for the handler, for the router, and the cells. *)
Record BootState := {
  bs_app : AppState;
  bs_router : RouterState;
  bs_rules : RulesState;
  bs_client : Client;
  bs_document : bytes;
  bs_world : World
}.

(** The port, the state and the file with the tokens. *)
Definition prepare_state (b : Build) : Boot (Z * BootState * option bytes) :=
  act LoadDotenv;;
  pcr0_identity;;
  installed ← act InstallRecorder;
  if negb installed then Panic (bstr "failed to install metrics recorder")
  else
    proxy_port ← env_number (bstr "PROXY_PORT") u16_max 3000;
    url ← load_upstream_url;
    origins ← load_allowed_origins;
    source ← load_pii_source;
    rules ← expect (bstr "failed to build aho-corasick automaton") (initial_rules source);
    '(key, document) ← attested_key b;
    '(keyring, auth_file) ← load_keyring b;
    admin_hash ← load_admin_hash;
    client ← build_upstream_client b;
    let '(limit, tenants, w) := shared_memory in
    mret (proxy_port,
      {| bs_app := {| upstream_url := url; proxy_private_key := key; stream_limit := limit;
                      global_memory := tb_global_memory tenants;
                      tenant_budgets := tb_tenant_budgets tenants |};
         bs_router := {| auth_keyring := keyring; admin_bearer_token_hash := admin_hash;
                         allowed_origins := origins |};
         bs_rules := rules; bs_client := client; bs_document := document; bs_world := w |},
      auth_file).

(** ** Opening the ports *)

(** The watchers' threads: one for the rules if their file is configured, one
    for the tokens if they came from a file. *)
Definition spawn_watchers (auth_file : option bytes) : Boot unit :=
  act (Spawn ShutdownListener);;
  config_path ← act (GetEnv (bstr "PII_CONFIG_PATH"));
  match config_path : option bytes with
  | Some path => act (Spawn (WatchRules path))
  | None => mret tt
  end;;
  match auth_file with
  | Some path => act (Spawn (WatchKeys path))
  | None => mret tt
  end.

(** A self-signed certificate, made at every start. *)
Definition build_tls_acceptor : Boot unit :=
  certified ← act GenerateCert;
  if negb certified then Panic (bstr "failed to generate ephemeral enclave TLS certificate")
  else
    built ← act BuildTlsConfig;
    if built : bool then mret tt
    else Panic (bstr "failed to build enclave TLS server configuration").

Definition any_address (port : Z) : bytes := addr_text (bstr "0.0.0.0") port.
Definition metrics_address : bytes := bstr "0.0.0.0:9090".

(** What is served where: the shared state, the port, whether behind TLS, and
    the seconds the watchdog waits. *)
Record Serving := {
  sv_state : BootState;
  sv_port : Z;
  sv_tls : bool;
  sv_shutdown_timeout : Z
}.

Definition open_ports (proxy_port : Z) (st : BootState) (auth_file : option bytes)
    : Boot Serving :=
  spawn_watchers auth_file;;
  bound ← act (BindTcp (any_address proxy_port));
  if negb bound then Panic (bstr "called `Result::unwrap()` on an `Err` value")
  else
    metrics_bound ← act (BindTcp metrics_address);
    if negb metrics_bound then Panic (bstr "failed to bind metrics listener")
    else
      shutdown_timeout ← env_number (bstr "SHUTDOWN_TIMEOUT_SEC") u64_max 110;
      act (Spawn (Watchdog shutdown_timeout));;
      act (Spawn MetricsServer);;
      nitro_env ← act (GetEnv (bstr "NITRO_ENV"));
      tls ← match nitro_env : option bytes with
            | Some _ => build_tls_acceptor;; mret true
            | None => mret false
            end;
      mret {| sv_state := st; sv_port := proxy_port; sv_tls := tls;
              sv_shutdown_timeout := shutdown_timeout |}.

Definition boot (b : Build) : Boot Serving :=
  '(proxy_port, st, auth_file) ← prepare_state b; open_ports proxy_port st auth_file.

End Startup.
