(* ===== verification/StartupProofs.v ===== *)
(** * Correctness of the start

    Whatever the environment, the files, the security module and the key service
    answer: no port of the proxy is open before its identity, its attested key,
    the clients' and the administrator's tokens, the upstream key and the rules
    are there. *)

From stdpp Require Import vector.
From S2P Require Import Prelude Utf8 RustStr AhoCorasick Externals BudgetQueue Engine Http HttpProofs Endpoints Proxy Config BudgetQueueProofs Effects Bootstrap BootstrapProofs Startup.
Import EffectsNotations.
Local Open Scope Z_scope.

Section Proofs.
Context {rsa_api : RsaApi} {sig_api : Ed25519Api} {enc_api : EncodingApi} {hdr_api : HeaderApi}
  {ac_api : AhoCorasickApi} {b3_api : Blake3Api} {json_api : SerdeJsonApi} {cbor_api : CborApi}
  {sem_api : SemaphoreApi}.

Abbreviation Trace := (list {c : Cmd & Resp c}).

(** ** What the start obtains *)

(** The value of a variable or of a file in an execution. *)
Definition env_is (tr : Trace) (name v : bytes) : Prop := event (GetEnv name) (Some v) ∈ tr.
Definition file_is (tr : Trace) (path v : bytes) : Prop := event (ReadFile path) (Some v) ∈ tr.

(** The text with the clients' tokens: a file, or in an enclave the variable
    with the token, or the token unsealed from the variable with its ciphertext. *)
Definition tokens_from (b : Build) (tr : Trace) (source : bytes) : Prop :=
  (∃ path, event (GetEnv (bstr "NITRO_ENV")) None ∈ tr ∧
     env_is tr (bstr "PROXY_AUTH_FILE") path ∧ file_is tr path source) ∨
  (∃ v, env_is tr (bstr "NITRO_ENV") v ∧
     if nitro b then
       ∃ text ct sub, env_is tr (bstr "PROXY_AUTH_TOKEN_CIPHERTEXT") text ∧
         b64_decode (trim text) = Some ct ∧ within sub tr ∧
         exec (decrypt_with_nsm ct) sub (Returned (Ok {| expose_secret := source |}))
     else env_is tr (bstr "PROXY_AUTH_TOKEN") source).

(** The document for a public key: of the module for a random nonce, or the
    mock's with the nonce and the configured identity. *)
Definition document_for (b : Build) (tr : Trace) (key : SigningKey) (doc : bytes) : Prop :=
  event SigningKeyGenerate key ∈ tr ∧
  ∃ nonce, event (FillRandom 32) nonce ∈ tr ∧
    let vk := vk_as_bytes (verifying_key key) in
    if nitro b then event (NsmAttest (Some (vec_to_list nonce)) None (Some vk)) (Some doc) ∈ tr
    else ∃ pcr0, env_is tr (bstr "MOCK_PCR0") pcr0 ∧
           cbor_encode (mock_document vk (vec_to_list nonce) pcr0) = Some doc.

(** The text of the rules. *)
Definition rules_from (tr : Trace) (source : bytes) : Prop :=
  ∃ config_path read pii_patterns,
    source = pii_source config_path read pii_patterns ∧
    event (GetEnv (bstr "PII_CONFIG_PATH")) config_path ∈ tr ∧
    (∀ path, config_path = Some path → event (ReadFile path) (read path) ∈ tr) ∧
    (from_option read None config_path = None →
     event (GetEnv (bstr "PII_PATTERNS")) pii_patterns ∈ tr).

(** The environment and the files answer with text, as [env::var] and
    [read_to_string] check. *)
Definition text_event (e : {c : Cmd & Resp c}) : bool :=
  match e with
  | existT (GetEnv _) (Some v) | existT (ReadFile _) (Some v) => valid_utf8 v
  | _ => true
  end.

(** Then the rules are text. *)
Lemma rules_from_text tr source :
  forallb text_event tr = true → rules_from tr source → valid_utf8 source = true.
Proof.
  rewrite forallb_forall. intros Ht (config_path & read & pats & -> & H1 & H2 & H3).
  unfold pii_source. destruct (from_option read None config_path) as [content|] eqn:E.
  - destruct config_path as [path|]; cbn in E |- *; [|done]. rewrite E. specialize (H2 _ eq_refl). rewrite E in H2.
    by apply list_elem_of_In, Ht in H2.
  - specialize (H3 eq_refl). apply list_elem_of_In, Ht in H3.
    replace (config_path ≫= read) with (@None bytes) by (by destruct config_path).
    by destruct pats.
Qed.

Record secured (b : Build) (tr : Trace) (st : BootState) : Prop := {
  se_identity : ∃ v, env_is tr (bstr "PCR0_HASH") v ∨ env_is tr (bstr "MOCK_PCR0") v;
  se_rules : ∃ source, rules_from tr source ∧ initial_rules source = Some (bs_rules st);
  se_document : document_for b tr (proxy_private_key (bs_app st)) (bs_document st);
  se_tokens : ∃ source, tokens_from b tr source ∧
                auth_keyring (bs_router st) = hash_keyring source ∧
                event (Zeroize source) tt ∈ tr;
  se_admin : ∃ token, env_is tr (bstr "ADMIN_BEARER_TOKEN") token ∧
               admin_bearer_token_hash (bs_router st) = blake3_hash token ∧
               event (Zeroize token) tt ∈ tr;
  se_client : ∃ secret sub, within sub tr ∧
                authorized (bs_client st) secret ∧ key_from b sub secret;
  se_memory : shared_memory =
    (stream_limit (bs_app st),
     {| tb_tenant_budgets := tenant_budgets (bs_app st); tb_global_memory := global_memory (bs_app st) |},
     bs_world st)
}.

(** ** The stages *)

Lemma pcr0_identity_ret tr v :
  exec pcr0_identity tr (Returned v) →
  env_is tr (bstr "PCR0_HASH") v ∨ env_is tr (bstr "MOCK_PCR0") v.
Proof.
  unfold pcr0_identity, env_is. intros He. exec_inv He. destruct a as [h|]; exec_inv He1.
  - left. by left.
  - subst. right. right. by left.
Qed.

Lemma load_pii_source_ret tr source :
  exec load_pii_source tr (Returned source) → rules_from tr source.
Proof.
  unfold load_pii_source. intros He.
  apply exec_bind_ret in He as (path & t1 & t2 & H1 & He & ->).
  apply exec_bind_ret in He as (content & t3 & t4 & H3 & He & ->).
  exec_inv H1.
  destruct content as [content|].
  - apply exec_ret_ret in He as [-> ->]. destruct path as [path|].
    2: { apply exec_ret_ret in H3 as [_ ?]. done. }
    exec_inv H3.
    exists (Some path), (λ _, Some content), None. split_and!; try done.
    + by left.
    + intros ? [= <-]. right. by left.
  - apply exec_bind_ret in He as (pats & t5 & t6 & H5 & He & ->).
    exec_inv H5. apply exec_ret_ret in He as [-> ->].
    exists path, (λ _, None), pats. split_and!.
    + by destruct path.
    + by left.
    + intros p ->. exec_inv H3. right. by left.
    + intros _. apply elem_of_app; right; apply elem_of_app; right; by left.
Qed.

Lemma attestation_document_ret b vk nonce tr doc :
  exec (attestation_document b vk (Some nonce)) tr (Returned (Ok doc)) →
  if nitro b then event (NsmAttest (Some nonce) None (Some vk)) (Some doc) ∈ tr
  else ∃ pcr0, env_is tr (bstr "MOCK_PCR0") pcr0 ∧
         cbor_encode (mock_document vk nonce pcr0) = Some doc.
Proof.
  unfold attestation_document. destruct (validate_nonce (Some nonce)) as [[]|] eqn:Ev.
  2: { intros He. exec_inv He. }
  destruct (nitro b); intros He; apply exec_bind_ret in He as (r & t1 & t2 & H1 & He & ->);
    exec_inv H1.
  - destruct r; cbn [negb] in He; exec_inv He.
    match goal with H : exec (if negb ?j then _ else _) _ _ |- _ => destruct j; cbn [negb] in H; exec_inv H end.
    match goal with H : Ok _ = ok_or _ ?o |- _ => destruct o; [|done]; injection H as -> end.
    right. by left.
  - exec_inv He. unfold attestation_document_mock in He. rewrite Ev in He.
    destruct r as [pcr0|]; [|done]. cbn in He. exists pcr0. split; [by left|].
    destruct (cbor_encode _); [|done]. by injection He as ->.
Qed.

Lemma attested_key_ret b tr key doc :
  exec (attested_key b) tr (Returned (key, doc)) → document_for b tr key doc.
Proof.
  unfold attested_key. intros He. exec_inv He. subst.
  match goal with H : exec (attestation_document _ _ _) _ _ |- _ =>
    apply attestation_document_ret in H as Hd end.
  split; [by left|]. eexists. split; [right; by left|].
  destruct (nitro b).
  - apply elem_of_app. right. apply elem_of_app. right. apply elem_of_app. by left.
  - destruct Hd as (pcr0 & Hp & E). exists pcr0. split; [|done].
    apply elem_of_app. right. apply elem_of_app. right. apply elem_of_app. by left.
Qed.

Lemma load_proxy_auth_token_ret b tr token :
  exec (load_proxy_auth_token b) tr (Returned (Ok token)) →
  if nitro b then
    ∃ text ct sub, env_is tr (bstr "PROXY_AUTH_TOKEN_CIPHERTEXT") text ∧
      b64_decode (trim text) = Some ct ∧ within sub tr ∧
      exec (decrypt_with_nsm ct) sub (Returned (Ok {| expose_secret := token |}))
  else env_is tr (bstr "PROXY_AUTH_TOKEN") token.
Proof.
  unfold load_proxy_auth_token. destruct (nitro b); intros He; exec_inv He.
  - destruct a as [text|]; [|done]. cbn [ok_or] in *. simplify_eq.
    destruct (b64_decode (trim text)) as [ct|] eqn:Ect; [|done]. cbn [ok_or] in *. simplify_eq.
    match goal with H : exec (decrypt_with_nsm _) ?t (Returned (Ok ?s)) |- _ =>
      exists text, ct, t; destruct s as [secret] end.
    split_and!; [by left|done|by eauto 10 with pxy|done].
  - destruct a as [t|]; [|done]. cbn [ok_or] in *. simplify_eq. by left.
Qed.

(** Facts about a part of an execution hold of the whole. *)
Lemma tokens_from_within b tr tr' source :
  within tr tr' → tokens_from b tr source → tokens_from b tr' source.
Proof.
  intros Hw [(path & H1 & H2 & H3)|(v & H1 & H2)]; [left|right].
  - exists path. split_and!; by eapply within_elem.
  - exists v. split; [by eapply within_elem|]. destruct (nitro b); [|by eapply within_elem].
    destruct H2 as (text & ct & sub & H2 & H3 & H4 & H5). exists text, ct, sub.
    split_and!; [by eapply within_elem|done|by eapply within_trans|done].
Qed.

Lemma rules_from_within tr tr' source :
  within tr tr' → rules_from tr source → rules_from tr' source.
Proof.
  intros Hw (path & read & pats & H1 & H2 & H3 & H4). exists path, read, pats.
  split_and!; [done|by eapply within_elem|..]; intros; eapply within_elem; eauto.
Qed.

Lemma document_for_within b tr tr' key doc :
  within tr tr' → document_for b tr key doc → document_for b tr' key doc.
Proof.
  intros Hw (H1 & nonce & H2 & H3). split; [by eapply within_elem|]. exists nonce.
  split; [by eapply within_elem|]. destruct (nitro b); [by eapply within_elem|].
  destruct H3 as (pcr0 & H3 & H4). exists pcr0. split; [by eapply within_elem|done].
Qed.

Lemma load_auth_source_ret b tr source file :
  exec (load_auth_source b) tr (Returned (source, file)) →
  tokens_from b tr source ∧ (file = None → ∃ v, env_is tr (bstr "NITRO_ENV") v).
Proof.
  unfold load_auth_source. intros He. apply exec_bind_ret in He as (env & t1 & t2 & H1 & He & ->).
  exec_inv H1. destruct env as [v|].
  - exec_inv He. subst. split; [|intros _; exists v; by left]. right. exists v. split; [by left|].
    match goal with H : exec (load_proxy_auth_token _) _ _ |- _ =>
      apply load_proxy_auth_token_ret in H as Ht end.
    destruct (nitro b); [|apply elem_of_app; right; apply elem_of_app; by left].
    destruct Ht as (text & ct & sub & H2 & H3 & H4 & H5). exists text, ct, sub.
    split_and!; [|done|by eauto 10 with pxy|done].
    apply elem_of_app; right; apply elem_of_app; by left.
  - exec_inv He. subst. split; [|done]. left. eexists. split_and!; [by left|right; by left|].
    do 2 right. by left.
Qed.

Lemma load_keyring_ret b tr keyring file :
  exec (load_keyring b) tr (Returned (keyring, file)) →
  (∃ source, tokens_from b tr source ∧ keyring = hash_keyring source ∧
     event (Zeroize source) tt ∈ tr) ∧
  (file = None → ∃ v, env_is tr (bstr "NITRO_ENV") v).
Proof.
  unfold load_keyring. intros He. apply exec_bind_ret in He as ([source f] & t1 & t2 & H1 & He & ->).
  exec_inv He. apply load_auth_source_ret in H1 as [H1 H2].
  split; [exists source; split_and!; [|done|]|].
  - eapply tokens_from_within; [|done]. eauto with pxy.
  - apply elem_of_app. right. apply elem_of_app. left. destruct a. by left.
  - intros Hf. destruct (H2 Hf) as [v Hv]. exists v. apply elem_of_app. by left.
Qed.

Lemma load_admin_hash_ret tr h :
  exec load_admin_hash tr (Returned h) →
  ∃ token, env_is tr (bstr "ADMIN_BEARER_TOKEN") token ∧ h = blake3_hash token ∧
    event (Zeroize token) tt ∈ tr.
Proof.
  unfold load_admin_hash. intros He. exec_inv He. subst. eexists.
  split_and!; [by left|done|]. right.
  match goal with u : Resp (Zeroize _) |- _ => destruct u end. by left.
Qed.

(** Split off the first stage of a sequence. *)
Tactic Notation "stage" hyp(He) ident(x) ident(H) :=
  let t1 := fresh "t" in let t2 := fresh "t" in
  apply exec_bind_ret in He as (x & t1 & t2 & H & He & ->).

Lemma prepare_state_ret b tr port st file :
  exec (prepare_state b) tr (Returned (port, st, file)) →
  secured b tr st ∧ (file = None → ∃ v, env_is tr (bstr "NITRO_ENV") v).
Proof.
  unfold prepare_state. intros He.
  stage He x1 H1. stage He identity Hid. stage He installed H3. destruct installed; cbn [negb] in He.
  2: { exec_inv He. }
  stage He p H4. stage He url H5. stage He origins H6. stage He source Hrules.
  stage He rules Hinit. stage He kd Hkey. destruct kd as [key document].
  stage He kf Hring. destruct kf as [keyring auth_file]. stage He admin_hash Hadmin.
  stage He client Hclient. destruct shared_memory as [[limit tenants] w] eqn:Em. exec_inv He.
  apply exec_expect_ret in Hinit as [-> Hinit].
  destruct (load_keyring_ret _ _ _ _ Hring) as [(text & Ht & Ek & Hz) Hfile]. split.
  2: { intros Hf. destruct (Hfile Hf) as [v Hv]. exists v. eapply within_elem; [|exact Hv].
       eauto 20 with pxy. }
  split; cbn.
  - exists identity. destruct (pcr0_identity_ret _ _ Hid) as [H|H]; [left|right];
      (eapply within_elem; [|exact H]); eauto 10 with pxy.
  - exists source. split; [|done]. eapply rules_from_within; [|by apply load_pii_source_ret].
    eauto 20 with pxy.
  - eapply document_for_within; [|by apply attested_key_ret]. eauto 20 with pxy.
  - exists text. split_and!.
    + eapply tokens_from_within; [|done]. eauto 20 with pxy.
    + exact Ek.
    + eapply within_elem; [|exact Hz]. eauto 20 with pxy.
  - clear Ht Hz. destruct (load_admin_hash_ret _ _ Hadmin) as (token & Ht & -> & Hz). exists token.
    split_and!; [|done|]; (eapply within_elem; [|eassumption]); eauto 20 with pxy.
  - destruct (client_never_unauthenticated _ _ _ Hclient) as (secret & Ha & Hk).
    exists secret. eexists. split_and!; [|exact Ha|exact Hk]. eauto 20 with pxy.
  - destruct tenants. exact Em.
Qed.

(** ** Nothing listens before *)

(** An address of the outside world. *)
Definition public_address (addr : bytes) : Prop := bstr "0.0.0.0:" `prefix_of` addr.
Definition private (c : Cmd) : Prop :=
  match c with BindTcp addr => ¬ public_address addr | _ => True end.

Lemma loopback_private port : private (BindTcp (addr_text (bstr "127.0.0.1") port)).
Proof. intros [k Hk]. discriminate Hk. Qed.

Lemma acts_route : acts_in private route_through_tunnels.
Proof.
  unfold route_through_tunnels, spawn_enclave_tunnels, start_tunnel.
  repeat first [apply loopback_private | acts_step].
Qed.

Lemma acts_decrypt_for ct doc sk : acts_in private (decrypt_for_recipient ct doc sk).
Proof. unfold decrypt_for_recipient, blocking. repeat acts_step. Qed.

Lemma acts_nitro_decrypt_for ct doc sk : acts_in private (nitro_decrypt_for_recipient ct doc sk).
Proof. unfold nitro_decrypt_for_recipient, blocking. repeat acts_step. Qed.

Lemma acts_decrypt_with_nsm ct : acts_in private (decrypt_with_nsm ct).
Proof.
  unfold decrypt_with_nsm, blocking.
  repeat first [apply acts_route | apply acts_decrypt_for | acts_step].
Qed.

Lemma acts_nitro_decrypt ct : acts_in private (nitro_decrypt ct).
Proof.
  unfold nitro_decrypt, blocking. rewrite nitro_route.
  repeat first [apply acts_route | apply acts_nitro_decrypt_for | acts_step].
Qed.

Lemma acts_localstack n : ∀ k, acts_in private (localstack_attempts k n).
Proof. induction n as [|n IH]; intros k; cbn [localstack_attempts]; repeat first [apply IH | acts_step]. Qed.

Lemma acts_client b : acts_in private (build_upstream_client b).
Proof.
  unfold build_upstream_client, NitroKmsProvider_new, LocalMockProvider_new, read_nitro_ciphertext,
    read_kind_ciphertext, read_localstack_ciphertext, decrypt_upstream_api_key, kms_decrypt,
    nitro_provider, local_provider, client_with.
  repeat first [done | simple apply acts_nitro_decrypt | simple apply acts_localstack | acts_step].
Qed.

Lemma acts_prepare b : acts_in private (prepare_state b).
Proof.
  unfold prepare_state, pcr0_identity, env_number, load_upstream_url, load_allowed_origins,
    load_pii_source, attested_key, attestation_document, load_keyring, load_auth_source,
    load_admin_hash, load_proxy_auth_token.
  repeat first [done | simple apply acts_decrypt_with_nsm | simple apply acts_client | acts_step].
Qed.

Lemma open_ports_ret port st file tr sv :
  exec (open_ports port st file) tr (Returned sv) → sv_state sv = st.
Proof.
  unfold open_ports. intros He. exec_inv He.
  repeat match goal with H : exec (if negb ?x then _ else _) _ _ |- _ =>
    destruct x; cbn [negb] in H; exec_inv H end. done.
Qed.

Lemma boot_secured b tr sv :
  exec (boot b) tr (Returned sv) → ∃ pre, pre `prefix_of` tr ∧ secured b pre (sv_state sv).
Proof.
  unfold boot. intros He. stage He x H1. destruct x as [[port st] file].
  apply prepare_state_ret in H1 as [H1 _]. apply open_ports_ret in He as ->. eexists. split; [|done].
  by eexists.
Qed.

(** Outside an enclave the thread that watches the key file is always running. *)
Lemma key_watcher_started b tr sv :
  exec (boot b) tr (Returned sv) →
  (∃ v, env_is tr (bstr "NITRO_ENV") v) ∨ ∃ path, event (Spawn (WatchKeys path)) tt ∈ tr.
Proof.
  unfold boot. intros He. stage He x H1. destruct x as [[port st] file].
  apply prepare_state_ret in H1 as [_ Hf]. destruct file as [path|].
  - right. exists path. unfold open_ports in He. stage He u Hw. unfold spawn_watchers in Hw.
    stage Hw u1 Hs. stage Hw c Hc. stage Hw u2 Hr. exec_inv Hw. destruct u.
    eapply within_elem; [|by left]. eauto 20 with pxy.
  - left. destruct (Hf eq_refl) as [v Hv]. exists v. apply elem_of_app. by left.
Qed.

(** C5: The proxy fails closed: in every execution of its start, also one that
    is still going on or has panicked, a port is opened to the outside only after
    the identity is configured, the rules are compiled, a fresh signing key is
    attested, the clients' and the administrator's tokens are loaded (and wiped
    from memory), and the upstream key is obtained; the state that is then served
    consists of exactly these. *)
Theorem no_listener_before_secrets b tr o addr r :
  exec (boot b) tr o → event (BindTcp addr) r ∈ tr → public_address addr →
  ∃ pre st, pre `prefix_of` tr ∧ (event (BindTcp addr) r ∉ pre) ∧ secured b pre st ∧
    ∀ sv, o = Returned sv → sv_state sv = st.
Proof.
  unfold boot. intros He Hin Hpub.
  assert (∀ t o', exec (prepare_state b) t o' → event (BindTcp addr) r ∉ t) as Hno.
  { intros t o' Ht Hbad. pose proof (acts_in_exec _ _ _ _ (acts_prepare b) Ht) as Hall.
    rewrite Forall_forall in Hall. by apply (Hall _ Hbad). }
  apply exec_bind in He as [(((port & st) & file) & t1 & t2 & H1 & H2 & ->)|[[H1 ->]|(m & H1 & ->)]];
    [|by destruct (Hno _ _ H1)..].
  exists t1, st. split_and!; [by exists t2|by eapply Hno|by eapply (prepare_state_ret b t1)|].
  intros sv ->. by eapply open_ports_ret.
Qed.

End Proofs.

(** ** Concrete runs *)

Import (hints) BootDemo Transparent AsciiHeaders NaiveSearch CounterSemaphore EndpointDemo.

Module StartDemo.

Definition env := list (bytes * bytes).

(** The outside of the unsealing examples with an environment. *)
Definition answers (e : env) (c : Cmd) : Resp c :=
  match c with
  | GetEnv name => snd <$> List.find (λ kv, bool_decide (kv.1 = name)) e
  | NsmAttest _ public_key user_data => match public_key with Some k => Some k | None => user_data end
  | c => BootDemo.answers c
  end.
Definition outside (e : env) (s : unit) (c : Cmd) : Resp c * unit := (answers e c, s).

Definition enclave : Build := {| nitro := true; kind_test := false; debug_assertions := false |}.

Definition enclave_env : env :=
  [(bstr "PCR0_HASH", bstr "pcr0"); (bstr "NITRO_ENV", bstr "1");
   (bstr "PROXY_AUTH_TOKEN_CIPHERTEXT", bstr "nekot-tneilc");
   (bstr "ADMIN_BEARER_TOKEN", bstr "admin-token"); (bstr "PROXY_PORT", bstr "8443")].

(** The variables of the [docker run] line of the README. *)
Definition docker_env : env :=
  [(bstr "PROXY_AUTH_FILE", bstr "/run/secrets/proxy-auth");
   (bstr "ADMIN_BEARER_TOKEN", bstr "admin-token")].

Definition start (b : Build) (e : env) := run (outside e) tt (boot b).
End StartDemo.
Import StartDemo.

Lemma no_listener_before_secrets_witness :
  ∃ pre st, secured enclave pre st ∧ auth_keyring (bs_router st) = [bstr "client-token"].
Proof.
  pose (o := (start enclave enclave_env).1.1). pose (tr := (start enclave enclave_env).1.2).
  assert (match o with
          | Returned sv => auth_keyring (bs_router (sv_state sv)) = [bstr "client-token"]
          | _ => False
          end) as Hk by (vm_compute; reflexivity).
  destruct (no_listener_before_secrets enclave tr o (any_address 8443) true) as (pre & st & _ & _ & H & E).
  - apply run_executes.
  - apply (list_elem_of_lookup_2 _ 60). vm_compute. reflexivity.
  - by exists (bstr "8443").
  - exists pre, st. split; [done|]. destruct o as [|sv|]; [done| |done]. by rewrite <-(E sv eq_refl).
Defined.

(** The documented [docker run] names no identity, so the container stops at
    once, whatever the build. *)
Lemma documented_docker_run b :
  (start b docker_env).1.1 = Panicked (bstr "CRITICAL: PCR0_HASH or MOCK_PCR0 environment variable must be set. System failing closed to preserve cryptographic integrity.").
Proof. by_vm. Qed.
