(* ===== verification/Listeners.v ===== *)
(** * Listeners and tunnels ([src/tls.rs], [src/vsock_bridge.rs],
      [src/vsock_host_bridge.rs], [src/bin/vsock_host_bridge.rs],
      [src/bin/host_relay.rs])

    The accept loops of the system.  A listening socket is the list of what
    [accept] gives in turn, and the end of the list is where a loop still waits.
    The loops of the source never return on their own, so a loop is a function of
    that list: what it has done with it, and how it stopped if it did.

    - [tls_accept] is one call of [Listener::accept] of the TLS listener, and
      [tls_serve] the calls that [axum::serve] makes, one after the other;
    - [tunnel_loop] is the task of [start_tunnel], in the enclave;
    - [run_host_vsock_relay] is the loop of the KMS relay, [bridge_main] the tunnel
      binary. *)

From S2P Require Import Prelude Utf8 RustStr NetAddr HostBridge.
Local Open Scope Z_scope.

(** What [accept] gives. *)
Inductive Arrival (C : Type) := AcceptOk (c : C) | AcceptErr.
Arguments AcceptOk {C} c.
Arguments AcceptErr {C}.

(** The connections among the arrivals, and those before the first error. *)
Definition connections {C} (arrivals : list (Arrival C)) : list C :=
  omap (λ a, match a with AcceptOk c => Some c | AcceptErr => None end) arrivals.
Fixpoint before_error {C} (arrivals : list (Arrival C)) : list C :=
  match arrivals with
  | AcceptOk c :: arrivals => c :: before_error arrivals
  | _ => []
  end.
Definition any_error {C} (arrivals : list (Arrival C)) : bool :=
  existsb (λ a, match a with AcceptErr => true | AcceptOk _ => false end) arrivals.

(** ** The TLS listener *)

(** How the peer's side of the handshake goes: it completes, it fails, or the
    peer sends nothing more. *)
Inductive Handshake := HsDone | HsFailed | HsSilent.

#[global] Instance handshake_eq_dec : EqDecision Handshake.
Proof. solve_decision. Defined.

(** A client and its handshake. *)
Record TlsPeer := { tp_address : SocketAddr; tp_handshake : Handshake }.

(** A call of [accept]: the session and the arrivals it has left, or where it
    waits, for a connection or for a peer. *)
Inductive TlsAccept :=
| TlsReady (address : SocketAddr) (rest : list (Arrival TlsPeer))
| TlsNoArrival
| TlsHandshaking (address : SocketAddr).

Fixpoint tls_accept (arrivals : list (Arrival TlsPeer)) : TlsAccept :=
  match arrivals with
  | [] => TlsNoArrival
  | AcceptErr :: arrivals => tls_accept arrivals
  | AcceptOk peer :: arrivals =>
    match tp_handshake peer with
    | HsDone => TlsReady (tp_address peer) arrivals
    | HsFailed => tls_accept arrivals
    | HsSilent => TlsHandshaking (tp_address peer)
    end
  end.

(** The sessions that reach the router.  Every round takes an arrival, so their
    number is enough fuel. *)
Fixpoint tls_serve_fuel (fuel : nat) (arrivals : list (Arrival TlsPeer)) : list SocketAddr :=
  match fuel with
  | O => []
  | S fuel =>
    match tls_accept arrivals with
    | TlsReady address rest => address :: tls_serve_fuel fuel rest
    | TlsNoArrival | TlsHandshaking _ => []
    end
  end.
Definition tls_serve (arrivals : list (Arrival TlsPeer)) : list SocketAddr :=
  tls_serve_fuel (length arrivals) arrivals.

(** ** The tunnels of the enclave *)

(** A connection to the tunnel: whether VSOCK connects. *)
Record TunnelPeer := { tn_connects : bool }.

(** What its task does: it splices the two ends, or returns. *)
Inductive TunnelTask := Spliced (cid port : Z) | Dropped.

Definition tunnel_task (vsock_cid vsock_port : Z) (peer : TunnelPeer) : TunnelTask :=
  if tn_connects peer then Spliced vsock_cid vsock_port else Dropped.

(** The tasks it has spawned, and whether it has panicked: [accept().await.unwrap()]. *)
Fixpoint tunnel_loop (vsock_cid vsock_port : Z) (arrivals : list (Arrival TunnelPeer))
    : list TunnelTask * bool :=
  match arrivals with
  | [] => ([], false)
  | AcceptErr :: _ => ([], true)
  | AcceptOk peer :: arrivals =>
    let '(tasks, panicked) := tunnel_loop vsock_cid vsock_port arrivals in
    (tunnel_task vsock_cid vsock_port peer :: tasks, panicked)
  end.

(** ** The KMS relay of the host *)

(** An enclave that connects: its CID, what it sends, and the actions taken when
    the three seconds were over, if they were. *)
Record RelayPeer := { rp_cid : Z; rp_input : bytes; rp_timed_out : option nat }.

Inductive RelayStop := BindFailed | AcceptFailed.

(** What has become of the connections, and the error the function returned with. *)
Fixpoint relay_loop (net : Network) (target_host : bytes) (arrivals : list (Arrival RelayPeer))
    : list (option (Result RelayError unit * list RelayAction)) * option RelayStop :=
  match arrivals with
  | [] => ([], None)
  | AcceptErr :: _ => ([], Some AcceptFailed)
  | AcceptOk peer :: arrivals =>
    let '(done, stopped) := relay_loop net target_host arrivals in
    (accept_connection net (rp_cid peer) (rp_input peer) target_host (rp_timed_out peer) :: done,
     stopped)
  end.

Definition run_host_vsock_relay (net : Network) (bound : bool) (target_host : bytes)
    (arrivals : list (Arrival RelayPeer)) :=
  if bound then relay_loop net target_host arrivals else ([], Some BindFailed).

Definition daemon_port : Z := 8000.

(** [start_host_daemon], the whole of the binary [host_relay]: the only port it
    binds, and its loop there. *)
Definition start_host_daemon (net : Network) (aws_region : option bytes) (bound : bool)
    (arrivals : list (Arrival RelayPeer)) :=
  (daemon_port, run_host_vsock_relay net bound (daemon_target aws_region) arrivals).

(** ** The tunnel binary *)

Inductive BridgeError := BridgeArgs (e : ArgsError) | BridgeBind | BridgeConnect | BridgeCopy.

(** A client: whether the enclave can be reached for it, and whether the copy ends
    cleanly. *)
Record BridgePeer := { bp_connects : Z → Z → bool; bp_copies : bool }.

Definition bridge_connection (config : BridgeConfig) (peer : BridgePeer)
    : Result BridgeError unit :=
  if negb (bp_connects peer (enclave_cid config) (enclave_port config)) then Err BridgeConnect
  else if negb (bp_copies peer) then Err BridgeCopy else Ok tt.

(** Every connection gets a task; an error is logged. *)
Fixpoint bridge_loop (config : BridgeConfig) (arrivals : list (Arrival BridgePeer))
    : list (Result BridgeError unit) :=
  match arrivals with
  | [] => []
  | AcceptErr :: arrivals => bridge_loop config arrivals
  | AcceptOk peer :: arrivals => bridge_connection config peer :: bridge_loop config arrivals
  end.

(** It exits after [--help], returns an error, or serves for ever. *)
Inductive BridgeMain :=
| BridgeExit
| BridgeFailed (e : BridgeError)
| BridgeServing (config : BridgeConfig) (tasks : list (Result BridgeError unit)).

Definition bridge_main (args : list bytes) (bound : SocketAddr → bool)
    (arrivals : list (Arrival BridgePeer)) : BridgeMain :=
  match parse_args args with
  | ExitHelp => BridgeExit
  | ArgsErr e => BridgeFailed (BridgeArgs e)
  | ArgsOk config =>
    if negb (bound (listen_addr config)) then BridgeFailed BridgeBind
    else BridgeServing config (bridge_loop config arrivals)
  end.

(** ** Correctness *)

(** The peers a TLS listener gets to: all before the first silent one. *)
Fixpoint until_silent (peers : list TlsPeer) : list TlsPeer :=
  match peers with
  | peer :: peers =>
    if bool_decide (tp_handshake peer = HsSilent) then [] else peer :: until_silent peers
  | [] => []
  end.

Definition sessions (peers : list TlsPeer) : list SocketAddr :=
  omap (λ peer, if bool_decide (tp_handshake peer = HsDone) then Some (tp_address peer) else None)
    peers.

Lemma tls_accept_sessions arrivals :
  match tls_accept arrivals with
  | TlsReady address rest =>
    (length rest < length arrivals)%nat ∧
    sessions (until_silent (connections arrivals)) =
      address :: sessions (until_silent (connections rest))
  | TlsNoArrival | TlsHandshaking _ => sessions (until_silent (connections arrivals)) = []
  end.
Proof.
  induction arrivals as [|[peer|] arrivals IH]; [done| |].
  - unfold connections. cbn [tls_accept omap list_omap until_silent].
    fold (connections arrivals).
    destruct (tp_handshake peer) eqn:Eh; cbn [sessions].
    + rewrite bool_decide_eq_false_2 by done. unfold sessions. cbn. rewrite Eh. cbn.
      split; [lia|done].
    + rewrite bool_decide_eq_false_2 by done. unfold sessions. cbn. rewrite Eh. cbn.
      destruct (tls_accept arrivals); [|done..]. destruct IH. split; [lia|done].
    + by rewrite bool_decide_eq_true_2.
  - change (connections (AcceptErr :: arrivals)) with (connections arrivals). cbn [tls_accept].
    destruct (tls_accept arrivals); [|done..]. cbn [length]. destruct IH. split; [lia|done].
Qed.

Lemma tls_serve_fuel_sessions fuel : ∀ arrivals,
  (length arrivals ≤ fuel)%nat →
  tls_serve_fuel fuel arrivals = sessions (until_silent (connections arrivals)).
Proof.
  induction fuel as [|fuel IH]; intros arrivals Hl; cbn [tls_serve_fuel].
  - by destruct arrivals; [|cbn in Hl; lia].
  - pose proof (tls_accept_sessions arrivals) as H.
    destruct (tls_accept arrivals) as [address rest| |address]; [|done..].
    destruct H as [Hr ->]. f_equal. apply IH. lia.
Qed.

(** C22: The router behind TLS sees exactly the clients whose handshake has
    completed, in order, whatever errors [accept] and other handshakes give, up to
    the first client that stays silent: the handshake is awaited inside [accept]
    without a time limit, so nobody behind that client is served. *)
Theorem tls_serves_until_silent arrivals :
  tls_serve arrivals = sessions (until_silent (connections arrivals)).
Proof. by apply tls_serve_fuel_sessions. Qed.

(** The tunnels and the relay work up to the first error of [accept]. *)
Lemma tunnel_loop_spec cid port arrivals :
  tunnel_loop cid port arrivals =
    (tunnel_task cid port <$> before_error arrivals, any_error arrivals).
Proof.
  induction arrivals as [|[peer|] arrivals IH]; [done| |done].
  cbn [tunnel_loop]. by rewrite IH.
Qed.

Definition relayed (net : Network) (target : bytes) (peer : RelayPeer) :=
  accept_connection net (rp_cid peer) (rp_input peer) target (rp_timed_out peer).

Lemma relay_loop_spec net target arrivals :
  relay_loop net target arrivals =
    (relayed net target <$> before_error arrivals,
     if any_error arrivals then Some AcceptFailed else None).
Proof.
  induction arrivals as [|[peer|] arrivals IH]; [done| |done].
  cbn [relay_loop]. by rewrite IH.
Qed.

Lemma bridge_loop_spec config arrivals :
  bridge_loop config arrivals = bridge_connection config <$> connections arrivals.
Proof.
  induction arrivals as [|[peer|] arrivals IH]; [done| |done].
  cbn [bridge_loop]. by rewrite IH.
Qed.
