(* ===== verification/Lifecycle.v ===== *)
(** * Shutting down ([main] and [shutdown_signal] of [src/main.rs])

    A signal changes a [watch] channel; the servers stop accepting and drain, and
    a watchdog task ends the process if that takes too long.  The model is a timed
    state machine, in seconds: an action is something a task, a client or the
    operator does, and [Tick] lets time pass.  A task that is ready runs before
    time passes ([urgent]), and a timer fires when it is due.

    When [main] returns, the runtime is dropped: tokio cancels its tasks, among
    them the watchdog, and waits for the threads given to [spawn_blocking].  The
    two file watchers are such threads; [watchers] is how many were started.  A
    watcher's thread ends only when it panics or its channel closes
    ([WatcherEnds]). *)

From S2P Require Import Prelude.
Local Open Scope Z_scope.

(** The task behind [tokio::spawn] in [main]. *)
Inductive WatchdogTask :=
| WdWaiting
| WdSleeping (until : Z)
| WdLast (until : Z)
| WdCancelled.

(** [main] itself: in [axum::serve], draining, or dropping the runtime. *)
Inductive MainTask := MnServing | MnDraining | MnReturned.

Record Life := {
  lf_now : Z;
  lf_changed : option Z;
  lf_value : bool;
  lf_watchdog : WatchdogTask;
  lf_main : MainTask;
  lf_open : nat;
  lf_watchers : nat;
  lf_kills : Z;
  lf_exited : option Z
}.

Definition life_start (watchers : nat) : Life := {|
  lf_now := 0; lf_changed := None; lf_value := false; lf_watchdog := WdWaiting;
  lf_main := MnServing; lf_open := 0; lf_watchers := watchers; lf_kills := 0; lf_exited := None
|}.

Inductive LifeAction :=
| Connect
| Disconnect
| Signal (installed : bool)
| WatchdogWakes
| WatchdogExpires
| WatchdogExits
| StartDraining
| MainReturns
| WatcherEnds
| RuntimeDropped
| Tick (seconds : Z).

Definition set_watchdog (s : Life) (w : WatchdogTask) (kills : Z) : Life :=
  {| lf_now := lf_now s; lf_changed := lf_changed s; lf_value := lf_value s; lf_watchdog := w;
     lf_main := lf_main s; lf_open := lf_open s; lf_watchers := lf_watchers s; lf_kills := kills; lf_exited := lf_exited s |}.
Definition set_main (s : Life) (m : MainTask) (w : WatchdogTask) : Life :=
  {| lf_now := lf_now s; lf_changed := lf_changed s; lf_value := lf_value s; lf_watchdog := w;
     lf_main := m; lf_open := lf_open s; lf_watchers := lf_watchers s; lf_kills := lf_kills s; lf_exited := lf_exited s |}.
Definition set_open (s : Life) (n : nat) : Life :=
  {| lf_now := lf_now s; lf_changed := lf_changed s; lf_value := lf_value s;
     lf_watchdog := lf_watchdog s; lf_main := lf_main s; lf_open := n; lf_watchers := lf_watchers s; lf_kills := lf_kills s;
     lf_exited := lf_exited s |}.
Definition set_watchers (s : Life) (n : nat) : Life :=
  {| lf_now := lf_now s; lf_changed := lf_changed s; lf_value := lf_value s;
     lf_watchdog := lf_watchdog s; lf_main := lf_main s; lf_open := lf_open s; lf_watchers := n;
     lf_kills := lf_kills s; lf_exited := lf_exited s |}.
Definition set_now (s : Life) (now : Z) : Life :=
  {| lf_now := now; lf_changed := lf_changed s; lf_value := lf_value s;
     lf_watchdog := lf_watchdog s; lf_main := lf_main s; lf_open := lf_open s; lf_watchers := lf_watchers s;
     lf_kills := lf_kills s; lf_exited := lf_exited s |}.
Definition exit_process (s : Life) : Life :=
  {| lf_now := lf_now s; lf_changed := lf_changed s; lf_value := lf_value s;
     lf_watchdog := lf_watchdog s; lf_main := lf_main s; lf_open := lf_open s; lf_watchers := lf_watchers s;
     lf_kills := lf_kills s; lf_exited := Some (lf_now s) |}.

(** The task of [shutdown_signal] ends: after a signal it has sent [true]; if the
    handler could not be installed it has panicked.  Its sender is dropped either
    way, so [changed] resolves for every receiver. *)
Definition signal_task_ends (s : Life) (installed : bool) : Life :=
  {| lf_now := lf_now s; lf_changed := Some (lf_now s); lf_value := installed;
     lf_watchdog := lf_watchdog s; lf_main := lf_main s; lf_open := lf_open s; lf_watchers := lf_watchers s;
     lf_kills := lf_kills s; lf_exited := lf_exited s |}.

Definition seconds_last : Z := 3.

Section Lifecycle.
Context (shutdown_timeout : Z) (watchers : nat).

(** Some task is ready. *)
Definition urgent (s : Life) : bool :=
  (bool_decide (is_Some (lf_changed s)) &&
     (match lf_watchdog s with WdWaiting => true | _ => false end
      || match lf_main s with MnServing => true | _ => false end))
  || match lf_watchdog s with WdSleeping u | WdLast u => u <=? lf_now s | _ => false end
  || match lf_main s with
     | MnDraining => (lf_open s =? 0)%nat
     | MnReturned => (lf_watchers s =? 0)%nat
     | MnServing => false
     end.

(** The next timer. *)
Definition timer_allows (s : Life) (now : Z) : bool :=
  match lf_watchdog s with WdSleeping u | WdLast u => now <=? u | _ => true end.

Definition life_next (a : LifeAction) (s : Life) : option Life :=
  if bool_decide (is_Some (lf_exited s)) then None
  else match a with
       | Connect =>
         match lf_main s with MnServing => Some (set_open s (S (lf_open s))) | _ => None end
       | Disconnect =>
         match lf_open s with S n => Some (set_open s n) | O => None end
       | Signal installed =>
         match lf_changed s with
         | None => Some (signal_task_ends s installed)
         | Some _ => None
         end
       | WatchdogWakes =>
         match lf_watchdog s, lf_changed s with
         | WdWaiting, Some _ =>
           Some (set_watchdog s (WdSleeping (lf_now s + shutdown_timeout)) (lf_kills s))
         | _, _ => None
         end
       | WatchdogExpires =>
         match lf_watchdog s with
         | WdSleeping u =>
           if u <=? lf_now s
           then Some (set_watchdog s (WdLast (lf_now s + seconds_last)) (lf_kills s + 1))
           else None
         | _ => None
         end
       | WatchdogExits =>
         match lf_watchdog s with
         | WdLast u => if u <=? lf_now s then Some (exit_process s) else None
         | _ => None
         end
       | StartDraining =>
         match lf_main s, lf_changed s with
         | MnServing, Some _ => Some (set_main s MnDraining (lf_watchdog s))
         | _, _ => None
         end
       | MainReturns =>
         match lf_main s, lf_open s with
         | MnDraining, O => Some (set_main s MnReturned WdCancelled)
         | _, _ => None
         end
       | WatcherEnds =>
         match lf_watchers s with S n => Some (set_watchers s n) | O => None end
       | RuntimeDropped =>
         match lf_main s with
         | MnReturned => if (lf_watchers s =? 0)%nat then Some (exit_process s) else None
         | _ => None
         end
       | Tick d =>
         if (0 <? d) && negb (urgent s) && timer_allows s (lf_now s + d)
         then Some (set_now s (lf_now s + d)) else None
       end.

Fixpoint life_run (acts : list LifeAction) (s : Life) : option Life :=
  match acts with
  | [] => Some s
  | a :: acts => s ← life_next a s; life_run acts s
  end.

(** ** Invariant *)

Definition life_deadline (t : Z) : Z := t + shutdown_timeout + seconds_last.

(** Before the signal nothing has happened; after it, at [t], the timers are those
    of the signal's time, and time has not passed them. *)
Definition life_inv (s : Life) : Prop :=
  (lf_watchers s ≤ watchers)%nat ∧
  match lf_changed s with
  | None => lf_watchdog s = WdWaiting ∧ lf_main s = MnServing ∧ lf_kills s = 0 ∧ lf_exited s = None
  | Some t =>
    (lf_main s = MnServing → lf_now s = t) ∧
    match lf_watchdog s with
    | WdWaiting => lf_now s = t ∧ lf_kills s = 0 ∧ lf_main s ≠ MnReturned
    | WdSleeping u => u = t + shutdown_timeout ∧ lf_now s ≤ u ∧ lf_kills s = 0 ∧ lf_main s ≠ MnReturned
    | WdLast u => u = life_deadline t ∧ lf_now s ≤ u ∧ lf_kills s = 1 ∧ lf_main s ≠ MnReturned
    | WdCancelled => lf_main s = MnReturned ∧ (watchers ≠ 0%nat ∨ lf_now s ≤ life_deadline t)
    end ∧
    match lf_exited s with
    | None => True
    | Some e => e = lf_now s ∧ (watchers ≠ 0%nat ∨ e ≤ life_deadline t) ∧
        (lf_main s = MnReturned ∧ lf_open s = O ∧ lf_watchers s = O ∨
         lf_kills s = 1 ∧ lf_main s ≠ MnReturned ∧ e = life_deadline t)
    end ∧
    (lf_main s = MnReturned → lf_open s = O)
  end.

Context (Htimeout : 0 ≤ shutdown_timeout).

Lemma life_start_inv : life_inv (life_start watchers).
Proof. done. Qed.

Lemma life_next_alive a s s' : life_next a s = Some s' → lf_exited s = None.
Proof. unfold life_next. case_bool_decide as H; [done|]. by destruct (lf_exited s); [destruct H|]. Qed.

Lemma life_next_inv a s s' : life_inv s → life_next a s = Some s' → life_inv s'.
Proof.
  intros Hi E. pose proof (life_next_alive _ _ _ E) as Ex.
  destruct s as [now ch v wd mn op wa k ex]; cbn in Ex; subst ex.
  unfold life_inv, life_next, urgent, timer_allows, life_deadline, seconds_last in *; cbn in *.
  destruct a, ch as [t|], wd, mn; cbn in *; try discriminate E;
    repeat match type of E with context [match ?x with _ => _ end] => destruct x eqn:? end;
    try discriminate E; injection E as <-; cbn;
    destruct_and?; split_and?; try done; try lia.
  all: try naive_solver.
  - right. split_and!; [done|done|lia].
  - right. split_and!; [done|done|lia].
  - left. apply Nat.eqb_eq in Heqb. auto.
  - left. destruct wa; [|lia]. cbn in *. bool_props; done.
Qed.

Lemma life_run_inv acts : ∀ s s', life_inv s → life_run acts s = Some s' → life_inv s'.
Proof.
  induction acts as [|a acts IH]; intros s s' Hi; cbn; [by intros [= <-]|].
  destruct (life_next a s) as [s1|] eqn:E; [|done]. apply IH. by eapply life_next_inv.
Qed.

Lemma life_run_app acts acts' s s1 s2 :
  life_run acts s = Some s1 → life_run acts' s1 = Some s2 → life_run (acts ++ acts') s = Some s2.
Proof.
  revert s. induction acts as [|a acts IH]; intros s; cbn; [by intros [= <-]|].
  destruct (life_next a s); [|done]. apply IH.
Qed.

(** ** Progress *)

(** Actions of the proxy itself and of the clock: no client and no panic of a watcher
    helps. *)
Definition unaided (a : LifeAction) : bool :=
  match a with Connect | Disconnect | Signal _ | WatcherEnds => false | _ => true end.

(** The states of the watchdog and of [main] once both have seen the signal. *)
Definition awake (s : Life) : Prop :=
  lf_watchdog s ≠ WdWaiting ∧ lf_main s ≠ MnServing.

Lemma wakes s t :
  lf_exited s = None → lf_changed s = Some t →
  ∃ acts s', forallb unaided acts = true ∧ life_run acts s = Some s' ∧ awake s' ∧
    lf_exited s' = None ∧ lf_changed s' = Some t.
Proof.
  destruct s as [now ch v wd mn op wa k ex]; cbn. intros -> ->.
  exists (match wd with WdWaiting => [WatchdogWakes] | _ => [] end
     ++ match mn with MnServing => [StartDraining] | _ => [] end).
  by destruct wd, mn; (eexists; split_and!; [done|reflexivity|done|done|done]).
Qed.

Lemma drained_exits s t :
  lf_watchers s = O → lf_exited s = None → lf_changed s = Some t → lf_main s = MnDraining →
  lf_open s = O →
  ∃ s', life_run [MainReturns; RuntimeDropped] s = Some s' ∧ is_Some (lf_exited s').
Proof.
  destruct s as [now ch v wd mn op wa k ex]; cbn. intros -> -> -> -> ->. cbn.
  eexists. split; [reflexivity|]. by eexists.
Qed.

(** While connections are open, time passes up to the next timer. *)
Lemma tick_to s u :
  lf_exited s = None → is_Some (lf_changed s) → lf_main s = MnDraining → lf_open s ≠ O →
  lf_watchdog s = WdSleeping u ∨ lf_watchdog s = WdLast u → lf_now s ≤ u →
  ∃ acts, forallb unaided acts = true ∧ life_run acts s = Some (set_now s u).
Proof.
  destruct s as [now ch v wd mn op wa k ex]; cbn. intros -> [t ->] -> Ho Hwd Hu.
  destruct (decide (now = u)) as [->|]; [by exists []|].
  exists [Tick (u - now)]. split; [done|].
  assert ((0 <? u - now) = true ∧ (u <=? now) = false ∧ (op =? 0)%nat = false ∧
          now + (u - now) = u) as (E1 & E2 & E3 & E4)
    by (split_and!; [lia|lia|by apply Nat.eqb_neq|lia]).
  by destruct Hwd as [-> | ->]; cbn; unfold urgent, timer_allows; cbn;
    rewrite E1, E2, E3, E4, Z.leb_refl.
Qed.

Lemma last_exits s u :
  lf_exited s = None → is_Some (lf_changed s) → lf_main s = MnDraining → lf_open s ≠ O →
  lf_watchdog s = WdLast u → lf_now s ≤ u →
  ∃ acts s', forallb unaided acts = true ∧ life_run acts s = Some s' ∧ is_Some (lf_exited s').
Proof.
  intros Ex Hc Hm Ho Hw Hu. destruct (tick_to s u) as (acts & Ha & Hr); auto.
  exists (acts ++ [WatchdogExits]). eexists. split_and!.
  - by rewrite forallb_app, Ha.
  - eapply life_run_app; [exact Hr|]. destruct s; cbn in *; subst; cbn. by rewrite Z.leb_refl.
  - by eexists.
Qed.

Lemma sleep_exits s u :
  lf_exited s = None → is_Some (lf_changed s) → lf_main s = MnDraining → lf_open s ≠ O →
  lf_watchdog s = WdSleeping u → lf_now s ≤ u →
  ∃ acts s', forallb unaided acts = true ∧ life_run acts s = Some s' ∧ is_Some (lf_exited s').
Proof.
  intros Ex Hc Hm Ho Hw Hu. destruct (tick_to s u) as (acts & Ha & Hr); auto.
  destruct (last_exits (set_watchdog (set_now s u) (WdLast (u + seconds_last)) (lf_kills s + 1))
              (u + seconds_last)) as (acts' & s' & Ha' & Hr' & He); auto; [cbn; unfold seconds_last; lia|].
  exists (acts ++ WatchdogExpires :: acts'), s'. split_and!; [|..|done].
  - by rewrite forallb_app, Ha.
  - eapply life_run_app; [exact Hr|]. destruct s; cbn in *; subst; cbn. by rewrite Z.leb_refl.
Qed.

Lemma awake_exits s t :
  lf_watchers s = O → life_inv s → lf_exited s = None → lf_changed s = Some t → awake s →
  ∃ acts s', forallb unaided acts = true ∧ life_run acts s = Some s' ∧ is_Some (lf_exited s').
Proof.
  intros Hw Hi Ex Hc [Ha1 Ha2].
  destruct (lf_main s) eqn:Em; [done| |].
  - destruct (decide (lf_open s = O)) as [Ho|Ho].
    { destruct (drained_exits s t) as (s' & Hr & He); eauto. by exists [MainReturns; RuntimeDropped], s'. }
    unfold life_inv in Hi. rewrite Hc, Em in Hi. destruct Hi as (_ & _ & Hi & _).
    destruct (lf_watchdog s) as [|u|u|] eqn:Ew; [done|..].
    + apply (sleep_exits s u); eauto. lia.
    + apply (last_exits s u); eauto. lia.
    + by destruct Hi.
  - exists [RuntimeDropped], (exit_process s). destruct s; cbn in *; subst; cbn.
    split_and!; [done|done|by eexists].
Qed.

(** C11: The proxy does shut down: in every run in which a signal has come, as
    long as the process is up at most the configured time and three seconds have
    passed since, and whatever the clients do the process can and, as time goes
    on, must end by then on its own; it ends early only after every connection is
    closed, and else exactly at the deadline, counted as a forced kill.  This is
    for a proxy without file watchers. *)
Theorem shutdown_completes acts s t :
  watchers = 0%nat → life_run acts (life_start watchers) = Some s → lf_changed s = Some t →
  lf_now s ≤ life_deadline t ∧
  match lf_exited s with
  | None => ∃ acts' s', forallb unaided acts' = true ∧ life_run acts' s = Some s' ∧
              is_Some (lf_exited s')
  | Some e => e ≤ life_deadline t ∧
      (lf_main s = MnReturned ∧ lf_open s = O ∨ lf_kills s = 1 ∧ e = life_deadline t)
  end.
Proof.
  intros Hw Hr Hc. pose proof (life_run_inv _ _ _ life_start_inv Hr) as Hi.
  pose proof Hi as Hi'. unfold life_inv in Hi'. rewrite Hc in Hi'.
  destruct Hi' as (_ & H1 & H2 & H3 & H4). split.
  { unfold life_deadline, seconds_last in *. destruct (lf_watchdog s); destruct_and?; lia. }
  destruct (lf_exited s) as [e|] eqn:Ex; [naive_solver|].
  destruct (wakes s t) as (acts1 & s1 & Ha1 & Hr1 & Haw & Ex1 & Hc1); [done..|].
  assert (life_inv s1) as Hi1 by (by eapply life_run_inv).
  destruct (awake_exits s1 t) as (acts2 & s2 & Ha2 & Hr2 & He); [|done..|].
  { destruct Hi1 as [Hle _]. lia. }
  exists (acts1 ++ acts2), s2. split_and!; [by rewrite forallb_app, Ha1|by eapply life_run_app|done].
Qed.

(** Why the process ends: in every run, the watchdog ended it at the deadline while
    [main] had not returned, or [main] had returned after all connections were
    closed and no watcher's thread was left. *)
Lemma exit_reasons acts s e :
  life_run acts (life_start watchers) = Some s → lf_exited s = Some e →
  ∃ t, lf_changed s = Some t ∧
    (lf_main s = MnReturned ∧ lf_open s = O ∧ lf_watchers s = O ∨
     lf_kills s = 1 ∧ lf_main s ≠ MnReturned ∧ e = life_deadline t).
Proof.
  intros Hr Ee. destruct (life_run_inv _ _ _ life_start_inv Hr) as [_ Hi]. rewrite Ee in Hi.
  destruct (lf_changed s) as [t|]; [|naive_solver]. exists t. naive_solver.
Qed.

End Lifecycle.

(** ** Concrete runs *)

Module LifeDemo.
(** A client keeps its connection; two seconds after the signal it leaves. *)
Definition stubborn : list LifeAction :=
  [Connect; Tick 7; Signal true; WatchdogWakes; StartDraining; Tick 110; WatchdogExpires; Tick 3;
   WatchdogExits].
Definition leaving : list LifeAction :=
  [Connect; Tick 7; Signal true; WatchdogWakes; StartDraining; Tick 2; Disconnect; MainReturns].
End LifeDemo.

Lemma shutdown_completes_witness :
  120 ≤ life_deadline 110 7 ∧ ∃ s, life_run 110 LifeDemo.stubborn (life_start 0) = Some s ∧
    lf_exited s = Some 120 ∧ lf_kills s = 1.
Proof.
  split.
  - apply (shutdown_completes 110 0 ltac:(lia) LifeDemo.stubborn
      (exit_process (default (life_start 0) (life_run 110 (take 8 LifeDemo.stubborn) (life_start 0))))
      7 eq_refl); reflexivity.
  - eexists. split_and!; reflexivity.
Defined.

(** With a file watcher a drained proxy stays up: [main] has returned, the watchdog
    is cancelled, and the runtime waits for the watcher's thread long after the
    deadline, until that thread ends. *)
Lemma drained_with_watcher :
  let s := default (life_start 1) (life_run 110 (LifeDemo.leaving ++ [Tick 1000]) (life_start 1)) in
  let s' := default s (life_run 110 [WatcherEnds; RuntimeDropped] s) in
  life_run 110 (LifeDemo.leaving ++ [Tick 1000]) (life_start 1) = Some s ∧
  lf_main s = MnReturned ∧ lf_exited s = None ∧ (life_deadline 110 7 <? lf_now s) = true ∧
  life_run 110 [WatcherEnds; RuntimeDropped] s = Some s' ∧ lf_exited s' = Some 1009.
Proof. split_and!; by_vm. Qed.
