(* ===== verification/TaskProgram.v ===== *)
(** * The streaming task as a program

    [Proxy] defines the rounds of the streaming task by what they write to a sink.
    Here a round is a program, in the sense of [Effects], that stops wherever the
    source awaits: at every [enqueue_with_timeout], and before every look at the
    clock and the request hasher, which others change while the task waits.  The
    running server ([Live]) interleaves such programs.

    [task_round_runs] shows that the two descriptions agree: run against a sink
    and a sequence of moments, the program of a round does what [task_step] says. *)

From S2P Require Import Prelude Utf8 AhoCorasick Externals Receipt DoneDetector BudgetQueue Engine Http Proxy Effects.
Local Open Scope Z_scope.

Section TaskProgram.
Context {ac_api : AhoCorasickApi} {b3_api : Blake3Api} {sig_api : Ed25519Api}
  {enc_api : EncodingApi} {rj_api : ReceiptJsonApi}.

(** The task hands bytes to the queue and waits for the outcome, or looks at the
    clock and the request hasher. *)
Inductive TaskCmd := CmdSend (payload : bytes) | CmdMoment.
Definition TaskResp (c : TaskCmd) : Type :=
  match c with CmdSend _ => Result EnqueueError unit | CmdMoment => Moment end.

Abbreviation TaskProg := (Prog TaskResp).

Definition task_send (payload : bytes) : TaskProg (Result EnqueueError unit) :=
  @act _ TaskResp (CmdSend payload).
Definition task_moment : TaskProg Moment := @act _ TaskResp CmdMoment.

Definition send_terminal_error_prog (reason : bytes) : TaskProg unit :=
  _ ← task_send (terminal_frame reason); mret tt.

Fixpoint forward_stream_events_prog (events : list StreamEvent) : TaskProg (Result unit unit) :=
  match events with
  | [] => mret (Ok tt)
  | event :: events =>
    r ← task_send (wire_bytes event);
    match r with
    | Ok _ => forward_stream_events_prog events
    | Err _ => mret (Err tt)
    end
  end.

(** The panics of the detector and of the redactor; their messages are not told
    apart. *)
Definition detector_panic : bytes := bstr "DoneDetector".
Definition redactor_panic : bytes := bstr "StreamRedactor".

Fixpoint forward_outputs_prog (report : bool) (t : Task) (outputs : list OutputSegment)
    : TaskProg (Result unit Task) :=
  match outputs with
  | [] => mret (Ok t)
  | output :: outputs =>
    let bytes := segment_bytes output in
    if tk_is_sse t then
      mo ← task_moment;
      '(events, d, h) ← expect detector_panic
        (inspect (tk_detector t) bytes (tk_private_key t) (tk_hasher t)
           (mo_request_hasher mo) (mo_now mo));
      r ← forward_stream_events_prog events;
      match r with
      | Ok _ => forward_outputs_prog report (set_detector t d h) outputs
      | Err _ => mret (Err tt)
      end
    else
      let h := hasher_update (tk_hasher t) bytes in
      r ← task_send bytes;
      match r with
      | Ok _ => forward_outputs_prog report (set_detector t (tk_detector t) h) outputs
      | Err e =>
        if report then _ ← send_terminal_error_prog (enqueue_failure e); mret (Err tt)
        else mret (Err tt)
      end
  end.

Definition finalize_prog (reached_eof : bool) (t : Task) : TaskProg TaskState :=
  '(res, r) ← expect redactor_panic (finish (tk_redactor t));
  let t := set_redactor t r in
  match res with
  | Err _ => _ ← send_terminal_error_prog (bstr "redaction_finish_failed"); mret (Ended t EndAborted)
  | Ok outputs =>
    res ← forward_outputs_prog false t outputs;
    match res with
    | Err _ => mret (Ended t EndAborted)
    | Ok t =>
      if tk_is_sse t then
        let '(events, d, h) := DoneDetector_finish (tk_detector t) (tk_hasher t) in
        r ← forward_stream_events_prog events;
        match r with
        | Ok _ => mret (Ended (set_detector t d h) (EndFinished reached_eof))
        | Err _ => mret (Ended t EndAborted)
        end
      else mret (Ended t (EndFinished reached_eof))
    end
  end.

Definition on_chunk_prog (t : Task) (chunk : bytes) : TaskProg TaskState :=
  '(res, r) ← expect redactor_panic (push (tk_redactor t) chunk);
  let t := set_redactor t r in
  match res with
  | Err _ => _ ← send_terminal_error_prog (bstr "redaction_failed"); mret (Ended t EndAborted)
  | Ok outputs =>
    res ← forward_outputs_prog true t outputs;
    match res with
    | Err _ => mret (Ended t EndAborted)
    | Ok t => mret (Running t)
    end
  end.

Definition on_shutdown_prog (t : Task) : TaskProg TaskState :=
  mo ← task_moment;
  '(events, d, h) ← expect detector_panic
    (shutdown_events (tk_detector t) (tk_private_key t) (tk_hasher t)
       (mo_request_hasher mo) (mo_now mo));
  let t := set_detector t d h in
  r ← forward_stream_events_prog events;
  match r with
  | Err _ => mret (Ended t EndAborted)
  | Ok _ => finalize_prog false t
  end.

(** A round of the [select!] loop, and what follows the loop if it is left. *)
Definition task_round (t : Task) (ev : TaskEvent) : TaskProg TaskState :=
  match ev with
  | EvClosed => mret (Ended t EndClosed)
  | EvShutdown true => on_shutdown_prog t
  | EvShutdown false => mret (Running t)
  | EvIdle => _ ← send_terminal_error_prog (bstr "upstream_idle_timeout"); mret (Ended t EndAborted)
  | EvItem None => finalize_prog true t
  | EvItem (Some (Err _)) =>
    _ ← send_terminal_error_prog (bstr "upstream_read_failed"); mret (Ended t EndAborted)
  | EvItem (Some (Ok chunk)) => on_chunk_prog t chunk
  end.

(** ** Against a sink *)

Section Agreement.
Context {S : Type} {sink : Sink S}.

Definition sink_outside (σ : S * Moments) (c : TaskCmd) : TaskResp c * (S * Moments) :=
  match c with
  | CmdSend b => ((sink_enqueue σ.1 b).1, ((sink_enqueue σ.1 b).2, σ.2))
  | CmdMoment => (σ.2 0%nat, (σ.1, later σ.2))
  end.

(** The program ends as the function says. *)
Definition agrees {A} (o : option (A * S)) (x : Ending A * (S * Moments)) : Prop :=
  match o with
  | Some (a, s) => ∃ mos, x = (Returned a, (s, mos))
  | None => ∃ m σ, x = (Panicked m, σ)
  end.

Lemma terminal_outcome reason s mos :
  outcome sink_outside (s, mos) (send_terminal_error_prog reason)
    = (Returned tt, (send_terminal_error s reason, mos)).
Proof. done. Qed.

Lemma events_outcome events mos : ∀ s,
  outcome sink_outside (s, mos) (forward_stream_events_prog events)
    = (Returned (forward_stream_events events s).1, ((forward_stream_events events s).2, mos)).
Proof.
  induction events as [|e events IH]; intros s; [done|].
  cbn [forward_stream_events_prog forward_stream_events]. rewrite outcome_bind. cbn.
  destruct (sink_enqueue s (wire_bytes e)) as [[u|er] s1]; cbn; [apply IH|done].
Qed.

(** The parts of a round, one after the other. *)
Lemma agrees_ret {A} (a : A) s mos : agrees (Some (a, s)) (outcome sink_outside (s, mos) (mret a)).
Proof. by exists mos. Qed.

Lemma agrees_terminal {A} reason (a : A) s mos :
  agrees (Some (a, send_terminal_error s reason))
    (outcome sink_outside (s, mos) (_ ← send_terminal_error_prog reason; mret a)).
Proof. rewrite outcome_bind, terminal_outcome. apply agrees_ret. Qed.

Lemma agrees_expect {A B} m (o : option A) (f : A → option (B * S)) (g : A → TaskProg B) σ :
  (∀ a, agrees (f a) (outcome sink_outside σ (g a))) →
  agrees (o ≫= f) (outcome sink_outside σ (expect m o ≫= g)).
Proof. intros H. destruct o as [a|]; [apply H|by exists m, σ]. Qed.

Lemma agrees_bind {A B} (o : option (A * S)) (p : TaskProg A) (f : A * S → option (B * S))
    (g : A → TaskProg B) σ :
  agrees o (outcome sink_outside σ p) →
  (∀ a s mos, agrees (f (a, s)) (outcome sink_outside (s, mos) (g a))) →
  agrees (o ≫= f) (outcome sink_outside σ (p ≫= g)).
Proof.
  intros Hp Hg. rewrite outcome_bind. destruct o as [[a s]|]; cbn.
  - destruct Hp as [mos ->]. apply Hg.
  - destruct Hp as (m & σ' & ->). by exists m, σ'.
Qed.

Lemma agrees_events {B} events s mos (f : Result unit unit * S → option (B * S))
    (g : Result unit unit → TaskProg B) :
  (∀ r s, agrees (f (r, s)) (outcome sink_outside (s, mos) (g r))) →
  agrees (f (forward_stream_events events s))
    (outcome sink_outside (s, mos) (forward_stream_events_prog events ≫= g)).
Proof.
  intros Hg. rewrite outcome_bind, events_outcome. specialize (Hg (forward_stream_events events s).1).
  by destruct (forward_stream_events events s).
Qed.

Lemma outputs_agree report outputs : ∀ t mos s,
  agrees (forward_outputs report t mos outputs s)
    (outcome sink_outside (s, mos) (forward_outputs_prog report t outputs)).
Proof.
  induction outputs as [|o outputs IH]; intros t mos s; [apply agrees_ret|].
  cbn [forward_outputs forward_outputs_prog]. destruct (tk_is_sse t).
  - rewrite outcome_bind. cbn [task_moment act outcome sink_outside fst snd].
    apply agrees_expect. intros [[events d] h].
    apply (agrees_events events s (later mos) (λ '(r, s), match r with
      | Ok _ => forward_outputs report (set_detector t d h) (later mos) outputs s
      | Err _ => Some (Err tt, s) end)).
    intros [u|u] s1; [apply IH|apply agrees_ret].
  - rewrite outcome_bind. cbn [task_send act outcome sink_outside fst snd].
    destruct (sink_enqueue s (segment_bytes o)) as [[u|e] s1]; cbn [fst snd]; [apply IH|].
    destruct report; [apply agrees_terminal|apply agrees_ret].
Qed.

Lemma finalize_agrees eof t mos s :
  agrees (finalize eof t mos s) (outcome sink_outside (s, mos) (finalize_prog eof t)).
Proof.
  apply agrees_expect. intros [[outs|e] r]; [|apply agrees_terminal].
  apply agrees_bind; [apply outputs_agree|]. intros [t1|u] s1 mos1; [|apply agrees_ret].
  destruct (tk_is_sse t1); [|apply agrees_ret].
  destruct (DoneDetector_finish _ _) as [[events d] h].
  apply (agrees_events events s1 mos1 (λ '(r, s), match r with
    | Ok _ => Some (Ended (set_detector t1 d h) (EndFinished eof), s)
    | Err _ => Some (Ended t1 EndAborted, s) end)).
  intros [u|u] s2; apply agrees_ret.
Qed.

(** The two descriptions of the task agree: run against any sink, whatever the
    clock and the request hasher show meanwhile, the program of a round ends in the
    state and leaves the sink that the function of the round gives, and it panics
    exactly when the function does. *)
Theorem task_round_runs t mos ev s :
  agrees (task_step t mos ev s) (outcome sink_outside (s, mos) (task_round t ev)).
Proof.
  destruct ev as [|[|]| |[[chunk|[]]|]]; cbn [task_step task_round];
    try apply agrees_ret; try apply agrees_terminal; try apply finalize_agrees.
  - unfold on_shutdown, on_shutdown_prog. rewrite outcome_bind.
    cbn [task_moment act outcome sink_outside fst snd].
    apply agrees_expect. intros [[events d] h].
    apply (agrees_events events s (later mos) (λ '(r, s), match r with
      | Err _ => Some (Ended (set_detector t d h) EndAborted, s)
      | Ok _ => finalize false (set_detector t d h) (later mos) s end)).
    intros [u|u] s1; [apply finalize_agrees|apply agrees_ret].
  - apply agrees_expect. intros [[outs|e] r]; [|apply agrees_terminal].
    apply agrees_bind; [apply outputs_agree|]. intros [t1|u] s1 mos1; apply agrees_ret.
Qed.

End Agreement.
End TaskProgram.

Abbreviation TaskProg := (Prog TaskResp).
