(* ===== verification/Server.v ===== *)
(** * The running server ([src/lib.rs], [src/main.rs])

    All requests of the proxy at once, on the shared semaphores, tenant table and
    counters.  A request waits to be admitted, sends, and then streams: its task
    fills the queue of the stream while the client empties it.  [server_step]
    interleaves the operations of the handler, of the queue and of the key
    watcher in any order, with any data and any timing; the operations themselves
    are those of the handler and of the queue. *)

From S2P Require Import Prelude AhoCorasick Externals Receipt BudgetQueue BudgetQueueProofs Engine Http Proxy Config.
Local Open Scope Z_scope.

Section Server.
Context {hdr_api : HeaderApi} {sem_api : SemaphoreApi} {ac_api : AhoCorasickApi}
  {b3_api : Blake3Api} {sig_api : Ed25519Api} {enc_api : EncodingApi} {json_api : SerdeJsonApi}
  {rj_api : ReceiptJsonApi} {tj_api : TerminalJsonApi}.

(** A streaming response: its budget and channel, the call of [enqueue] its task
    is in, the body (until the client leaves), the task with its two permits
    (until it ends), and the history of the queue. *)
Record Stream := {
  sm_budget : ByteBudget;
  sm_channel : Channel;
  sm_enqueue : EnqueueState;
  sm_body : option BudgetedBody;
  sm_task : option (Task * Permit * Permit);
  sm_accepted : bytes;
  sm_sent : bytes;
  sm_received : bytes
}.

(** When the handler returns the response. *)
Definition stream_start (t : Task) (b : ByteBudget) (ch : Channel) (slot memory : Permit) : Stream := {|
  sm_budget := b; sm_channel := ch; sm_enqueue := EnqDone (Ok tt);
  sm_body := Some BudgetedBody_new; sm_task := Some (t, slot, memory);
  sm_accepted := []; sm_sent := []; sm_received := []
|}.

(** What the task, its timers and the client do to the queue of a stream. *)
Inductive StreamAction := SaEnqueue (data : bytes) | SaPoll | SaTimeout | SaRead | SaLeave.

Definition stream_next (a : StreamAction) (s : Stream) (w : World) : option (Stream * World) :=
  match a with
  | SaEnqueue data =>
    match sm_task s, sm_enqueue s with
    | Some _, EnqDone _ =>
      Some ({| sm_budget := sm_budget s; sm_channel := sm_channel s;
               sm_enqueue := enqueue_start (sm_budget s) data; sm_body := sm_body s;
               sm_task := sm_task s; sm_accepted := sm_sent s ++ data; sm_sent := sm_sent s;
               sm_received := sm_received s |}, w)
    | _, _ => None
    end
  | SaPoll =>
    let '(st, ch, w) := enqueue_step (sm_budget s) w (sm_channel s) (sm_enqueue s) in
    Some ({| sm_budget := sm_budget s; sm_channel := ch; sm_enqueue := st; sm_body := sm_body s;
             sm_task := sm_task s; sm_accepted := sm_accepted s;
             sm_sent := sm_sent s ++ newly_queued (sm_channel s) ch;
             sm_received := sm_received s |}, w)
  | SaTimeout =>
    let '(st, w) := enqueue_timeout w (sm_enqueue s) in
    Some ({| sm_budget := sm_budget s; sm_channel := sm_channel s; sm_enqueue := st;
             sm_body := sm_body s; sm_task := sm_task s; sm_accepted := sm_accepted s;
             sm_sent := sm_sent s; sm_received := sm_received s |}, w)
  | SaRead =>
    body ← sm_body s;
    let '(frame, body, ch, w) := poll_frame w (sm_channel s) body in
    Some ({| sm_budget := sm_budget s; sm_channel := ch; sm_enqueue := sm_enqueue s;
             sm_body := Some body; sm_task := sm_task s; sm_accepted := sm_accepted s;
             sm_sent := sm_sent s; sm_received := sm_received s ++ frame_bytes frame |}, w)
  | SaLeave =>
    body ← sm_body s;
    let '(ch, w) := drop_body w (sm_channel s) body in
    Some ({| sm_budget := sm_budget s; sm_channel := ch; sm_enqueue := sm_enqueue s;
             sm_body := None; sm_task := sm_task s; sm_accepted := sm_accepted s;
             sm_sent := sm_sent s; sm_received := sm_received s |}, w)
  end.

(** The end of the task drops the sender. *)
Definition stream_end (s : Stream) : Stream := {|
  sm_budget := sm_budget s; sm_channel := drop_sender (sm_channel s); sm_enqueue := sm_enqueue s;
  sm_body := sm_body s; sm_task := None; sm_accepted := sm_accepted s; sm_sent := sm_sent s;
  sm_received := sm_received s
|}.

Inductive Conn := ConnAdmit (a : AdmitState) | ConnStream (s : Stream) | ConnOver.

Record Server := { sv_pw : ProxyWorld; sv_conns : list Conn }.

(** The permits of a request that is being admitted. *)
Definition waiting_permits (a : AdmitState) : list Permit :=
  match a with
  | WaitSlot | Refused _ => []
  | WaitMemory slot => [slot]
  | AdmitDone slot memory => [memory; slot]
  end.

Definition with_world (pw : ProxyWorld) (w : World) : ProxyWorld :=
  {| pw_world := w; pw_active := pw_active pw |}.

(** The connection after the upstream reply. *)
Definition conn_of (out : Outcome) : Conn :=
  match out with
  | Replied _ => ConnOver
  | Spawned _ t b ch slot memory => ConnStream (stream_start t b ch slot memory)
  end.

(** - [sv_arrive]: a request reaches the handler;
    - [sv_admit], [sv_admit_timeout]: it waits for its permits;
    - [sv_abandon]: the client disconnects, or the handler panics, before there is
      a response: the handler's future is dropped with the permits it holds;
    - [sv_send]: the result of the upstream request;
    - [sv_stream]: the queue of a stream; [sv_task_end]: its task ends, between two
      calls of [enqueue];
    - [sv_reload]: the key watcher empties the tenant table. *)
Inductive server_step (st : AppState) : Server → Server → Prop :=
| sv_arrive pw cs :
    server_step st {| sv_pw := pw; sv_conns := cs |}
      {| sv_pw := pw; sv_conns := cs ++ [ConnAdmit WaitSlot] |}
| sv_admit pw cs i a a' w :
    cs !! i = Some (ConnAdmit a) → admit_step st (pw_world pw) a = (a', w) →
    server_step st {| sv_pw := pw; sv_conns := cs |}
      {| sv_pw := with_world pw w; sv_conns := <[i := ConnAdmit a']> cs |}
| sv_admit_timeout pw cs i a a' w :
    cs !! i = Some (ConnAdmit a) → admit_timeout (pw_world pw) a = (a', w) →
    server_step st {| sv_pw := pw; sv_conns := cs |}
      {| sv_pw := with_world pw w; sv_conns := <[i := ConnAdmit a']> cs |}
| sv_abandon pw cs i a :
    cs !! i = Some (ConnAdmit a) →
    server_step st {| sv_pw := pw; sv_conns := cs |}
      {| sv_pw := with_world pw (foldl drop_permit (pw_world pw) (waiting_permits a));
         sv_conns := <[i := ConnOver]> cs |}
| sv_send pw cs i slot memory p engine rh now res out pw' :
    cs !! i = Some (ConnAdmit (AdmitDone slot memory)) →
    after_send st p engine rh now slot memory pw res = Some (out, pw') →
    server_step st {| sv_pw := pw; sv_conns := cs |}
      {| sv_pw := pw'; sv_conns := <[i := conn_of out]> cs |}
| sv_stream pw cs i a s s' w :
    cs !! i = Some (ConnStream s) → stream_next a s (pw_world pw) = Some (s', w) →
    server_step st {| sv_pw := pw; sv_conns := cs |}
      {| sv_pw := with_world pw w; sv_conns := <[i := ConnStream s']> cs |}
| sv_task_end pw cs i s t slot memory r :
    cs !! i = Some (ConnStream s) → sm_task s = Some (t, slot, memory) → sm_enqueue s = EnqDone r →
    server_step st {| sv_pw := pw; sv_conns := cs |}
      {| sv_pw := task_cleanup t slot memory pw; sv_conns := <[i := ConnStream (stream_end s)]> cs |}
| sv_reload pw cs :
    server_step st {| sv_pw := pw; sv_conns := cs |}
      {| sv_pw := with_world pw (clear_table (pw_world pw) (tenant_budgets st)); sv_conns := cs |}.

(** ** What is held *)

Definition stream_segments (s : Stream) : list BudgetedSegment :=
  enqueue_segments (sm_enqueue s) ++ ch_segments (sm_channel s) ++ body_segments (sm_body s).

Definition conn_segments (c : Conn) : list BudgetedSegment :=
  match c with ConnStream s => stream_segments s | _ => [] end.

Definition conn_permits (c : Conn) : list Permit :=
  match c with
  | ConnAdmit a => waiting_permits a
  | ConnStream s => match sm_task s with Some (_, slot, memory) => [memory; slot] | None => [] end
  | ConnOver => []
  end.

Definition all_segments (cs : list Conn) : list BudgetedSegment := concat (conn_segments <$> cs).
Definition all_permits (cs : list Conn) : list Permit := concat (conn_permits <$> cs).

(** The bytes held for clients, of all streams or of those that draw from the
    tenant semaphore [id]. *)
Definition buffered (cs : list Conn) : Z :=
  foldr (λ s n, blen (seg_bytes s) + n) 0 (all_segments cs).
Definition buffered_at (id : sem_id) (cs : list Conn) : Z :=
  foldr (λ s n, blen (seg_bytes s) + n) 0
    (filter (λ s, p_sem (seg_local_permit s) = id) (all_segments cs)).

(** Requests with a stream slot, with a memory chunk, and open event streams. *)
Definition has_slot (c : Conn) : bool :=
  match c with
  | ConnAdmit (WaitMemory _) | ConnAdmit (AdmitDone _ _) => true
  | ConnStream s => bool_decide (is_Some (sm_task s))
  | _ => false
  end.
Definition has_chunk (c : Conn) : bool :=
  match c with
  | ConnAdmit (AdmitDone _ _) => true
  | ConnStream s => bool_decide (is_Some (sm_task s))
  | _ => false
  end.
Definition event_stream (c : Conn) : bool :=
  match c with
  | ConnStream s => match sm_task s with Some (t, _, _) => tk_is_sse t | None => false end
  | _ => false
  end.
Definition count (p : Conn → bool) (cs : list Conn) : Z :=
  Z.of_nat (length (filter (λ c, p c = true) cs)).

End Server.
