(* ===== verification/ServerProofs.v ===== *)
(** * Correctness of the running server

    Whatever the requests, the clients, the timers and the key watcher do, in any
    order: the memory held for clients, the number of streams and every tenant's
    share stay within their limits, nothing is lost, and every stream is delivered
    in order. *)

From S2P Require Import Prelude AhoCorasick Externals Receipt BudgetQueue BudgetQueueProofs Engine Http Endpoints Proxy Config Effects Bootstrap BootstrapProofs Startup StartupProofs Server HttpProofs ProxyTheorems.
Local Open Scope Z_scope.

Section Proofs.
Context {hdr_api : HeaderApi} {sem_api : SemaphoreApi} {sem_laws : SemaphoreLaws}
  {ac_api : AhoCorasickApi} {b3_api : Blake3Api} {sig_api : Ed25519Api} {enc_api : EncodingApi}
  {json_api : SerdeJsonApi} {rj_api : ReceiptJsonApi} {tj_api : TerminalJsonApi}.

(** ** Worlds that evolve *)

(** No semaphore is overdrawn. *)
Definition solvent (w : World) : Prop :=
  ∀ id s, w_sems w !! id = Some s → 0 ≤ available_permits s.

(** Taking and returning permits keeps the addresses and the tables. *)
Record evolves (w w' : World) : Prop := {
  ev_dom id : is_Some (w_sems w' !! id) ↔ is_Some (w_sems w !! id);
  ev_tables : w_tables w' = w_tables w;
  ev_next : w_next w' = w_next w;
  ev_solvent : solvent w → solvent w'
}.

#[global] Instance evolves_preorder : PreOrder evolves.
Proof.
  split; [by split|]. intros w1 w2 w3 [H1 H2 H3 H4] [H5 H6 H7 H8].
  split; [intros id; by rewrite H5, H1|congruence|congruence|auto].
Qed.

Lemma evolves_insert w id s s' n :
  w_sems w !! id = Some s → (0 ≤ available_permits s → 0 ≤ available_permits s') →
  evolves w (set_in_use (set_sems w (<[id := s']> (w_sems w))) n).
Proof.
  intros Hs Ha. split; cbn; try done.
  - intros i. rewrite lookup_insert. case_decide; [subst; rewrite Hs; split; eauto|done].
  - intros Hw i x. cbn. rewrite lookup_insert. case_decide; [intros [= <-]; eauto|apply Hw].
Qed.

Lemma evolves_in_use w n : evolves w (set_in_use w n).
Proof. by split. Qed.

Lemma evolves_acquire w id n p w' : 0 ≤ n → acquire w id n = Some (p, w') → evolves w w'.
Proof.
  intros Hn. unfold acquire. destruct (w_sems w !! id) as [s|] eqn:Es; cbn; [|done].
  destruct (try_acquire_many s n) as [s'|] eqn:Ea; cbn; [|done]. intros [= <- <-].
  apply (evolves_insert w id s s' (w_in_use w) Es). intros _.
  destruct (decide (n ≤ available_permits s)) as [Hle|Hgt].
  - destruct (try_acquire_enough s n Hn Hle) as (s2 & E2 & ?). assert (s' = s2) by congruence. subst. lia.
  - rewrite try_acquire_short in Ea by lia. done.
Qed.

Lemma evolves_drop w p : 0 ≤ num_permits p → evolves w (drop_permit w p).
Proof.
  intros Hn. unfold drop_permit. destruct (w_sems w !! p_sem p) as [s|] eqn:Es; [|done].
  apply (evolves_insert w _ s _ (w_in_use w) Es). rewrite add_permits_available by done. lia.
Qed.

Lemma evolves_drop_segment b w s : segment_ok b s → evolves w (drop_segment w s).
Proof.
  intros (Hl & Hg & _). unfold drop_segment, record_budget_in_use.
  etrans; [apply evolves_in_use|]. etrans; [apply (evolves_drop _ (seg_global_permit s)); rewrite Hg; cbn; unfold blen; lia|].
  apply evolves_drop. rewrite Hl. cbn. unfold blen. lia.
Qed.

Lemma evolves_drop_segments b segs : ∀ w,
  Forall (segment_ok b) segs → evolves w (foldl drop_segment w segs).
Proof.
  induction segs as [|s segs IH]; intros w; cbn; [done|]. intros [H1 H2]%Forall_cons.
  etrans; [by eapply evolves_drop_segment|by apply IH].
Qed.

Lemma evolves_drop_option b w o :
  Forall (segment_ok b) (option_list o) → evolves w (drop_option w o).
Proof. destruct o; cbn; [|done]. intros [H _]%Forall_cons. by eapply evolves_drop_segment. Qed.

Lemma evolves_reserve w b data r w' : BudgetedSegment_reserve w b data = (r, w') → evolves w w'.
Proof.
  unfold BudgetedSegment_reserve. destruct data as [|x data]; [by intros [= <- <-]|].
  set (d := x :: data). assert (0 ≤ blen d) as Hd by (unfold blen; lia).
  destruct (tenant_permit w b (blen d)) as [[lp|e] w1] eqn:Et.
  2:{ intros [= <- <-]. by rewrite (tenant_permit_Err _ _ _ _ _ Et). }
  apply tenant_permit_Ok in Et as (_ & _ & Ea). pose proof (evolves_acquire _ _ _ _ _ Hd Ea) as E1.
  destruct (acquire w1 (bb_global_memory b) (blen d)) as [[gp w2]|] eqn:Eg; intros [= <- <-].
  - etrans; [exact E1|]. etrans; [by eapply evolves_acquire|apply evolves_in_use].
  - etrans; [exact E1|]. apply evolves_drop.
    unfold acquire in Ea. destruct (w_sems w !! bb_semaphore b); cbn in Ea; [|done].
    destruct (try_acquire_many _ _); cbn in Ea; [|done]. by injection Ea as <- <-.
Qed.

(** ** A stream as a queue *)

Definition stream_sys (w : World) os op (s : Stream) : Sys := {|
  sy_world := w; sy_channel := sm_channel s; sy_enqueue := sm_enqueue s; sy_body := sm_body s;
  sy_other_segments := os; sy_other_permits := op; sy_accepted := sm_accepted s;
  sy_sent := sm_sent s; sy_received := sm_received s
|}.

Lemma live_segments_stream w os op s :
  live_segments (stream_sys w os op s) = stream_segments s ++ os.
Proof. unfold live_segments, stream_segments. cbn. by rewrite <-!app_assoc. Qed.

(** The invariant of the queue, apart from what is shared. *)
Definition stream_ok (s : Stream) : Prop :=
  ∃ total w os op, sys_inv total (stream_sys w os op s).

Lemma stream_inv total w os op s :
  stream_ok s → accounted total w (stream_segments s ++ os) op → sys_inv total (stream_sys w os op s).
Proof.
  intros (t' & w' & os' & op' & [H1 H2 H3 H4 H5 H6 H7 H8 H9]) Ha. split; try done.
  by rewrite live_segments_stream.
Qed.

(** What the invariant of the queue says of the bytes of a stream. *)
Lemma stream_ok_order s :
  stream_ok s →
  sm_received s `prefix_of` sm_sent s ∧ sm_sent s `prefix_of` sm_accepted s ∧
  (sm_enqueue s = EnqDone (Ok tt) → sm_sent s = sm_accepted s) ∧
  (length (ch_segments (sm_channel s)) ≤ ch_items (sm_channel s))%nat ∧
  ∀ body, sm_body s = Some body →
    sm_received s ++ queued (sm_channel s) = sm_sent s ∧
    (is_end_stream body = true → sm_received s = sm_sent s ∧ ch_sender (sm_channel s) = false).
Proof.
  intros (t & w & os & op & [_ Hb Hrc Hd Hen Hs Hf Hq Ht]). cbn in *. split_and!; [done| | |done|].
  - destruct (sm_enqueue s) as [todo|sg todo|[[]|e]]; [..|done]; rewrite <-Ht; by apply prefix_app_r.
  - intros E. rewrite E in Ht. cbn in Ht. by rewrite app_nil_r in Ht.
  - intros body Hbody. rewrite Hbody in Hq. specialize (Hq ltac:(done)). split; [done|].
    intros Hend. destruct (Hen body Hbody Hend) as (E & _ & Hsend). split; [|done].
    unfold queued in Hq. rewrite E in Hq. cbn in Hq. by rewrite app_nil_r in Hq.
Qed.

Lemma stream_next_step a s w s' w' os op :
  stream_next a s w = Some (s', w') → (is_Some (sm_task s) → ch_sender (sm_channel s) = true) →
  step (sm_budget s) (stream_sys w os op s) (stream_sys w' os op s') ∧
  sm_budget s' = sm_budget s ∧ sm_task s' = sm_task s ∧
  ch_sender (sm_channel s') = ch_sender (sm_channel s).
Proof.
  destruct s as [b ch st body task acc sent rcv]. unfold stream_next, stream_sys. cbn.
  destruct a; intros E Hs.
  - destruct task as [t|]; [|done]. destruct st; try done. injection E as <- <-. cbn.
    split; [|done]. constructor. apply Hs. eauto.
  - destruct (enqueue_step b w ch st) as [[st1 ch1] w1] eqn:Ee. injection E as <- <-. cbn.
    split; [by constructor|]. split_and!; try done.
    destruct st as [[|d todo]|sg todo|r]; cbn in Ee.
    + by injection Ee as <- <- <-.
    + destruct (BudgetedSegment_reserve w b d) as [[sg|e] w2]; by injection Ee as <- <- <-.
    + destruct (ch_receiver ch); cbn in Ee; [destruct (_ <? _)%nat|]; by injection Ee as <- <- <-.
    + by injection Ee as <- <- <-.
  - destruct (enqueue_timeout w st) as [st1 w1] eqn:Ee. injection E as <- <-. cbn.
    split; [by constructor|done].
  - destruct body as [body|]; cbn in E; [|done].
    destruct (poll_frame w ch body) as [[[f body1] ch1] w1] eqn:Ee. injection E as <- <-. cbn.
    split; [by constructor|]. split_and!; try done. unfold poll_frame in Ee.
    destruct (ended body); [by injection Ee as <- <- <- <-|].
    destruct (ch_segments ch); [|by injection Ee as <- <- <- <-].
    destruct (ch_sender ch) eqn:Es; injection Ee as <- <- <- <-; by rewrite Es.
  - destruct body as [body|]; cbn in E; [|done].
    destruct (drop_body w ch body) as [ch1 w1] eqn:Ee. injection E as <- <-. cbn.
    split; [by constructor|]. split_and!; done.
Qed.

(** Its segments keep their shape, and the shared world evolves. *)
Lemma enqueue_step_shape total b w ch st st' ch' w' segs ps :
  accounted total w segs ps →
  enqueue_step b w ch st = (st', ch', w') →
  Forall (segment_ok b) (enqueue_segments st ++ ch_segments ch) →
  Forall (segment_ok b) (enqueue_segments st' ++ ch_segments ch') ∧ evolves w w'.
Proof.
  intros Ha E Hf. destruct st as [[|d todo]|sg todo|r]; cbn in E.
  - by injection E as <- <- <-.
  - destruct (BudgetedSegment_reserve w b d) as [r w1] eqn:Er.
    pose proof (evolves_reserve _ _ _ _ _ Er) as Ev.
    pose proof (accounted_reserve _ _ _ _ _ _ _ _ Ha Er) as Hr.
    destruct r as [sg|e]; injection E as <- <- <-; [|done].
    split; [|done]. constructor; [apply Hr|done].
  - apply Forall_cons in Hf as [Hs Hf].
    destruct (ch_receiver ch); cbn in E; [destruct (_ <? _)%nat|]; injection E as <- <- <-.
    + cbn. rewrite Forall_app. split; [split; [done|by apply Forall_singleton]|done].
    + cbn. split; [by constructor|done].
    + split; [done|by eapply evolves_drop_segment].
  - by injection E as <- <- <-.
Qed.

Lemma stream_next_shape total a s w s' w' segs ps :
  accounted total w segs ps → stream_next a s w = Some (s', w') →
  Forall (segment_ok (sm_budget s)) (stream_segments s) →
  Forall (segment_ok (sm_budget s)) (stream_segments s') ∧ evolves w w'.
Proof.
  destruct s as [b ch st body task acc sent rcv]. unfold stream_next, stream_segments. cbn.
  intros Ha E Hf. apply Forall_app in Hf as [Hf1 Hf]. apply Forall_app in Hf as [Hf2 Hf3].
  destruct a.
  - destruct task as [t|]; [|done]. destruct st; try done. injection E as <- <-. cbn.
    split; [|done]. unfold enqueue_start. destruct data; cbn; by apply Forall_app.
  - destruct (enqueue_step b w ch st) as [[st1 ch1] w1] eqn:Ee. injection E as <- <-. cbn.
    destruct (enqueue_step_shape _ _ _ _ _ _ _ _ _ _ Ha Ee) as [Hg Ev]; [by apply Forall_app|].
    split; [|done]. rewrite app_assoc. by apply Forall_app.
  - destruct (enqueue_timeout w st) as [st1 w1] eqn:Ee. injection E as <- <-. cbn.
    destruct st as [todo|sg todo|r]; cbn in Ee; injection Ee as <- <-; cbn in *;
      (split; [by apply Forall_app|]); try done.
    apply Forall_cons in Hf1 as [Hs _]. by eapply evolves_drop_segment.
  - destruct body as [body|]; cbn in E; [|done]. cbn in Hf3.
    destruct (poll_frame w ch body) as [[[f body1] ch1] w1] eqn:Ee. injection E as <- <-. cbn.
    unfold poll_frame in Ee. destruct (ended body).
    { injection Ee as <- <- <- <-. split; [|done]. by rewrite !Forall_app. }
    pose proof (evolves_drop_option b w _ Hf3) as Ev.
    destruct (ch_segments ch) as [|sg q] eqn:Eq.
    + assert (w1 = drop_option w (in_flight body) ∧ body_segments (Some body1) = [] ∧
        ch_segments ch1 = []) as (-> & Eb & Ec)
        by (destruct (ch_sender ch); injection Ee as <- <- <- <-; done).
      cbn in Eb. rewrite Eb, Ec. split; [|done]. by rewrite !app_nil_r.
    + injection Ee as <- <- <- <-. cbn. apply Forall_cons in Hf2 as [Hs Hq].
      split; [|done]. rewrite !Forall_app, Forall_singleton. done.
  - destruct body as [body|]; cbn in E; [|done]. injection E as <- <-. cbn.
    split; [by rewrite app_nil_r|].
    etrans; [exact (evolves_drop_segments b _ w Hf2)|by eapply evolves_drop_option].
Qed.

(** ** The invariant *)

Section Invariant.
Context (st : AppState).

(** How many permits there are: slots, bytes of global memory, bytes of a tenant. *)
Definition totals (id : sem_id) : Z :=
  if decide (id = stream_limit st) then MAX_ACTIVE_UPSTREAM_STREAMS
  else if decide (id = global_memory st) then DEFAULT_GLOBAL_MEMORY_BUDGET
  else TENANT_MEMORY_BUDGET.

Definition slot_permit : Permit := {| p_sem := stream_limit st; num_permits := 1 |}.
Definition chunk_permit : Permit :=
  {| p_sem := global_memory st; num_permits := GLOBAL_MEMORY_CHUNK |}.

Definition budget_ok (b : ByteBudget) : Prop :=
  bb_global_memory b = global_memory st ∧ 0 < bb_capacity b ∧
  bb_semaphore b ≠ global_memory st ∧ bb_semaphore b ≠ stream_limit st.

Definition conn_ok (c : Conn) : Prop :=
  match c with
  | ConnAdmit (WaitMemory slot) => slot = slot_permit
  | ConnAdmit (AdmitDone slot memory) => slot = slot_permit ∧ memory = chunk_permit
  | ConnAdmit _ | ConnOver => True
  | ConnStream s =>
      stream_ok s ∧ budget_ok (sm_budget s) ∧
      Forall (segment_ok (sm_budget s)) (stream_segments s) ∧
      match sm_task s with
      | Some (_, slot, memory) =>
          slot = slot_permit ∧ memory = chunk_permit ∧ ch_sender (sm_channel s) = true
      | None => True
      end
  end.

Record world_ok (w : World) : Prop := {
  wo_wf : world_wf w;
  wo_solvent : solvent w;
  wo_limit : is_Some (w_sems w !! stream_limit st);
  wo_memory : is_Some (w_sems w !! global_memory st);
  wo_tenants t k id : table w t !! k = Some id → id ≠ global_memory st ∧ id ≠ stream_limit st
}.

Record server_inv (pw : ProxyWorld) (cs : list Conn) : Prop := {
  si_accounted : accounted totals (pw_world pw) (all_segments cs) (all_permits cs);
  si_conns : Forall conn_ok cs;
  si_world : world_ok (pw_world pw);
  si_active : pw_active pw = count event_stream cs mod 2 ^ 64
}.

Lemma world_ok_evolves w w' : evolves w w' → world_ok w → world_ok w'.
Proof.
  intros [H1 H2 H3 H4] [[W1 W2 W3] Hs Hl Hm Ht].
  assert (∀ t, table w' t = table w t) as Et by (intros t; unfold table; by rewrite H2).
  split; [split| | | |].
  - intros id Hid. rewrite H3. by apply W1, H1.
  - intros t k id. rewrite Et, H1. apply W2.
  - intros t k k' id. rewrite Et. apply W3.
  - by apply H4.
  - by apply H1.
  - by apply H1.
  - intros t k id. rewrite Et. apply Ht.
Qed.

Lemma count_cons p c cs : count p (c :: cs) = (if p c then 1 else 0) + count p cs.
Proof.
  unfold count. rewrite filter_cons. destruct (p c); cbn; [rewrite decide_True by done; cbn|
    rewrite decide_False by done]; lia.
Qed.

#[global] Instance count_proper p : Proper (Permutation ==> eq) (count p).
Proof. intros a b H. unfold count. by rewrite H. Qed.
#[global] Instance all_segments_proper : Proper (Permutation ==> Permutation) all_segments.
Proof. intros a b H. unfold all_segments. by rewrite H. Qed.
#[global] Instance all_permits_proper : Proper (Permutation ==> Permutation) all_permits.
Proof. intros a b H. unfold all_permits. by rewrite H. Qed.

#[global] Instance server_inv_proper pw : Proper (Permutation ==> iff) (server_inv pw).
Proof.
  assert (∀ cs cs', cs ≡ₚ cs' → server_inv pw cs → server_inv pw cs') as K.
  { intros cs cs' H [H1 H2 H3 H4]. split; [by rewrite <-H|by rewrite <-H|done|by rewrite <-H]. }
  intros a b H. split; apply K; [done|by symmetry].
Qed.

(** A connection among the others. *)
Lemma conn_at (cs : list Conn) i c :
  cs !! i = Some c → ∃ rest, cs ≡ₚ c :: rest ∧ ∀ c', <[i := c']> cs ≡ₚ c' :: rest.
Proof.
  intros H. exists (take i cs ++ drop (S i) cs). split.
  - rewrite <-(take_drop_middle cs i c H) at 1. by rewrite Permutation_middle.
  - intros c'. rewrite insert_take_drop by (by eapply lookup_lt_Some). by rewrite Permutation_middle.
Qed.

(** One connection changes with the shared world. *)
Lemma server_inv_change pw pw' c c' rest :
  server_inv pw (c :: rest) → conn_ok c' →
  accounted totals (pw_world pw') (conn_segments c' ++ all_segments rest)
    (conn_permits c' ++ all_permits rest) →
  world_ok (pw_world pw') →
  pw_active pw' = ((if event_stream c' then 1 else 0) + count event_stream rest) mod 2 ^ 64 →
  server_inv pw' (c' :: rest).
Proof.
  intros [H1 H2 H3 H4] Hc Ha Hw Hn. split; [done| |done|by rewrite count_cons].
  constructor; [done|]. by apply Forall_cons in H2 as [_ H2].
Qed.

(** The same for a change that keeps the count of event streams. *)
Lemma server_inv_keep pw w c c' rest :
  server_inv pw (c :: rest) → conn_ok c' → event_stream c' = event_stream c →
  accounted totals w (conn_segments c' ++ all_segments rest) (conn_permits c' ++ all_permits rest) →
  evolves (pw_world pw) w → server_inv (with_world pw w) (c' :: rest).
Proof.
  intros Hi Hc Hn Ha Hw. apply (server_inv_change pw _ c); try done.
  - by eapply world_ok_evolves, Hi.
  - cbn. rewrite (si_active _ _ Hi), count_cons. by rewrite Hn.
Qed.

(** ** Permits *)

Lemma accounted_acquire total w segs ps id n p w' :
  accounted total w segs ps → 0 ≤ n → acquire w id n = Some (p, w') →
  accounted total w' segs (p :: ps) ∧ p = {| p_sem := id; num_permits := n |}.
Proof.
  intros [Hc Hu] Hn E. destruct (conserved_acquire _ _ _ _ _ _ _ Hc Hn E) as (Hc' & Hp & Hu').
  split; [|done]. split; [|by rewrite Hu']. eapply conserved_proper; [|exact Hc'].
  by rewrite Permutation_middle.
Qed.

Lemma accounted_release total w segs p ps :
  accounted total w segs (p :: ps) → accounted total (drop_permit w p) segs ps.
Proof.
  intros [Hc Hu]. split; [|by rewrite drop_permit_in_use]. apply conserved_drop.
  eapply conserved_proper; [|exact Hc]. by rewrite Permutation_middle.
Qed.

Lemma accounted_release_all total segs ps' ps : ∀ w,
  accounted total w segs (ps' ++ ps) → accounted total (foldl drop_permit w ps') segs ps.
Proof.
  induction ps' as [|p ps' IH]; intros w H; cbn in *; [done|]. apply IH. by apply accounted_release.
Qed.

Lemma evolves_release_all ps : ∀ w,
  Forall (λ p, 0 ≤ num_permits p) ps → evolves w (foldl drop_permit w ps).
Proof.
  induction ps as [|p ps IH]; intros w; cbn; [done|]. intros [Hp Hps]%Forall_cons.
  etrans; [by apply evolves_drop|by apply IH].
Qed.

Lemma conn_permits_pos c : conn_ok c → Forall (λ p, 0 ≤ num_permits p) (conn_permits c).
Proof.
  destruct c as [[|slot|slot memory|r]|s|]; cbn; try done.
  - intros ->. by apply Forall_singleton.
  - intros [-> ->]. by apply Forall_cons; split; [|apply Forall_singleton].
  - intros (_ & _ & _ & Ht). destruct (sm_task s) as [[[t slot] memory]|]; [|done].
    destruct Ht as (-> & -> & _). by apply Forall_cons; split; [|apply Forall_singleton].
Qed.

(** ** Steps of one connection *)

Lemma inv_parts pw c rest :
  server_inv pw (c :: rest) →
  conn_ok c ∧ accounted totals (pw_world pw) (conn_segments c ++ all_segments rest)
                (conn_permits c ++ all_permits rest).
Proof. intros [H1 H2 _ _]. apply Forall_cons in H2 as [H2 _]. done. Qed.

Lemma inv_admit pw a a' w rest :
  server_inv pw (ConnAdmit a :: rest) → admit_step st (pw_world pw) a = (a', w) →
  server_inv (with_world pw w) (ConnAdmit a' :: rest).
Proof.
  intros Hi E. destruct (inv_parts _ _ _ Hi) as [Hc Ha].
  assert (server_inv (with_world pw (pw_world pw)) (ConnAdmit a :: rest)) as Hsame by (by destruct pw).
  destruct a as [|slot|slot memory|r]; cbn in E, Hc, Ha.
  - destruct (acquire _ _ _) as [[slot w1]|] eqn:Eq; injection E as <- <-; [|done].
    destruct (accounted_acquire _ _ _ _ _ 1 _ _ Ha ltac:(lia) Eq) as [Ha' ->].
    eapply (server_inv_keep pw w1); [exact Hi|done..|]. eapply evolves_acquire; [|exact Eq]. lia.
  - destruct (acquire _ _ _) as [[memory w1]|] eqn:Eq; injection E as <- <-; [|done].
    destruct (accounted_acquire _ _ _ _ _ GLOBAL_MEMORY_CHUNK _ _ Ha ltac:(done) Eq) as [Ha' ->].
    eapply (server_inv_keep pw w1); [exact Hi|done..|]. by eapply evolves_acquire; [|exact Eq].
  - by injection E as <- <-.
  - by injection E as <- <-.
Qed.

Lemma inv_abandon pw c rest :
  server_inv pw (c :: rest) → conn_segments c = [] → event_stream c = false →
  server_inv (with_world pw (foldl drop_permit (pw_world pw) (conn_permits c))) (ConnOver :: rest).
Proof.
  intros Hi Hs He. destruct (inv_parts _ _ _ Hi) as [Hc Ha]. rewrite Hs in Ha.
  eapply server_inv_keep; [exact Hi|done|by rewrite He|by apply accounted_release_all|].
  by apply evolves_release_all, conn_permits_pos.
Qed.

Lemma inv_admit_timeout pw a a' w rest :
  server_inv pw (ConnAdmit a :: rest) → admit_timeout (pw_world pw) a = (a', w) →
  server_inv (with_world pw w) (ConnAdmit a' :: rest).
Proof.
  intros Hi E. destruct (inv_parts _ _ _ Hi) as [Hc Ha].
  assert (server_inv (with_world pw (pw_world pw)) (ConnAdmit a :: rest)) as Hsame by (by destruct pw).
  destruct a as [|slot|slot memory|r]; cbn in E, Hc, Ha; injection E as <- <-; try done.
  eapply server_inv_keep; [exact Hi|done|done|by apply accounted_release|].
  apply evolves_drop. by rewrite Hc.
Qed.

Lemma inv_stream pw a s s' w rest :
  server_inv pw (ConnStream s :: rest) → stream_next a s (pw_world pw) = Some (s', w) →
  server_inv (with_world pw w) (ConnStream s' :: rest).
Proof.
  intros Hi E. destruct (inv_parts _ _ _ Hi) as [(Hok & Hb & Hf & Ht) Ha]. cbn in Ha.
  destruct (stream_next_shape _ _ _ _ _ _ _ _ Ha E Hf) as [Hf' Ev].
  destruct (stream_next_step _ _ _ _ _ (all_segments rest) (conn_permits (ConnStream s) ++ all_permits rest) E)
    as (Hstep & Eb & Et & Es).
  { intros [[[t slot] memory] Hx]. rewrite Hx in Ht. apply Ht. }
  pose proof (inv_step _ (proj1 (proj2 Hb)) _ _ _ Hstep (stream_inv _ _ _ _ _ Hok Ha)) as Hinv.
  pose proof (inv_accounted _ _ Hinv) as Ha'. rewrite live_segments_stream in Ha'. cbn in Ha'.
  eapply server_inv_keep; [exact Hi| | | |exact Ev].
  - cbn. rewrite Eb, Et, Es. split_and!; try done. by do 4 eexists.
  - cbn. by rewrite Et.
  - cbn. by rewrite Et.
Qed.

Lemma task_cleanup_world t slot memory pw :
  pw_world (task_cleanup t slot memory pw) = drop_permit (drop_permit (pw_world pw) memory) slot.
Proof. unfold task_cleanup. by destruct (tk_is_sse t). Qed.

Lemma mod_pred n c : n = (1 + c) mod 2 ^ 64 → (n - 1) mod 2 ^ 64 = c mod 2 ^ 64.
Proof. intros ->. rewrite Zminus_mod_idemp_l. f_equal. lia. Qed.

Lemma inv_task_end pw s t slot memory r rest :
  server_inv pw (ConnStream s :: rest) → sm_task s = Some (t, slot, memory) →
  sm_enqueue s = EnqDone r →
  server_inv (task_cleanup t slot memory pw) (ConnStream (stream_end s) :: rest).
Proof.
  intros Hi Et Er. destruct (inv_parts _ _ _ Hi) as [(Hok & Hb & Hf & Ht) Ha].
  cbn in Ha. rewrite Et in Ha, Ht. destruct Ht as (-> & -> & _).
  assert (accounted totals (pw_world (task_cleanup t slot_permit chunk_permit pw))
    (stream_segments s ++ all_segments rest) (all_permits rest)) as Ha'.
  { rewrite task_cleanup_world. by apply accounted_release, accounted_release. }
  eapply server_inv_change; [exact Hi| |done| |].
  - cbn. split_and!; try done. destruct s as [b ch e body task acc sent rcv]; cbn in *. subst.
    pose proof (stream_inv _ _ _ _ _ Hok Ha') as Hinv. do 4 eexists.
    refine (inv_step b (proj1 (proj2 Hb)) _ _ _ _ Hinv). apply step_drop_sender.
  - rewrite task_cleanup_world. eapply world_ok_evolves, Hi.
    etrans; [by apply (evolves_drop _ chunk_permit)|by apply evolves_drop].
  - pose proof (si_active _ _ Hi) as Hn. rewrite count_cons in Hn. cbn in Hn. rewrite Et in Hn.
    cbn [event_stream stream_end sm_task]. unfold task_cleanup.
    destruct (tk_is_sse t); cbn; [by apply mod_pred|done].
Qed.

(** A tenant's semaphore may be new; it is neither of the two others. *)
Lemma tenant_semaphore_ok w segs ps k t :
  world_ok w → accounted totals w segs ps →
  let '(id, w') := tenant_semaphore w t k in
  world_ok w' ∧ accounted totals w' segs ps ∧ id ≠ global_memory st ∧ id ≠ stream_limit st.
Proof.
  intros [Hwf Hs Hl Hm Ht] [[H1 H2] Hu].
  pose proof (tenant_semaphore_wf w t k Hwf) as Hwf'. revert Hwf'.
  unfold tenant_semaphore. destruct (table w t !! k) as [id|] eqn:E; cbn -[table].
  { intros _. split_and!; [by split|by split|by eapply Ht|by eapply Ht]. }
  intros Hwf'.
  assert (∀ id, is_Some (w_sems w !! id) → id ≠ w_next w) as Hnext.
  { intros id Hid. apply Hwf in Hid. lia. }
  assert (w_next w ≠ global_memory st ∧ w_next w ≠ stream_limit st) as [Hne1 Hne2]
    by (split; intros He; [by apply (Hnext _ Hm)|by apply (Hnext _ Hl)]).
  assert (w_sems w !! w_next w = None) as Hfresh
    by (destruct (w_sems w !! w_next w) eqn:El; [by destruct (Hnext (w_next w)); eauto|done]).
  split_and!; [split| |done|done].
  - done.
  - intros id x. cbn. rewrite lookup_insert. case_decide; [|apply Hs].
    intros [= <-]. by rewrite sem_new_available.
  - cbn. rewrite lookup_insert. case_decide; [eauto|done].
  - cbn. rewrite lookup_insert. case_decide; [eauto|done].
  - intros t' k' id. rewrite table_set_table. case_decide as Ht'; [|apply Ht].
    rewrite lookup_insert. case_decide; [intros [= <-]; done|apply Ht].
  - split; [|done]. split; cbn.
    + intros id x. rewrite lookup_insert. case_decide as Hd; [|apply H1]. subst id. intros [= <-].
      rewrite sem_new_available. unfold totals. rewrite !decide_False by done.
      assert (∀ qs, (∀ p, p ∈ qs → is_Some (w_sems w !! p_sem p)) → held qs (w_next w) = 0) as K.
      { induction qs as [|q qs IH]; intros Hq; [done|]. rewrite held_cons, IH.
        - rewrite decide_False; [done|]. apply Hnext, Hq. by left.
        - intros p Hp. apply Hq. by right. }
      rewrite K; [done|]. intros p Hp. by apply H2.
    + intros p Hp. destruct (H2 p Hp) as [Hk ?]. split; [|done]. rewrite lookup_insert.
      case_decide; [eauto|done].
Qed.

Lemma inv_send pw slot memory p engine rh now res out pw' rest :
  server_inv pw (ConnAdmit (AdmitDone slot memory) :: rest) →
  after_send st p engine rh now slot memory pw res = Some (out, pw') →
  server_inv pw' (conn_of out :: rest).
Proof.
  intros Hi. pose proof (inv_abandon _ _ _ Hi eq_refl eq_refl) as Hdrop. cbn in Hdrop.
  destruct (inv_parts _ _ _ Hi) as [[-> ->] Ha]. cbn in Ha.
  unfold after_send. destruct res as [status headers|e|]; [|by intros [= <- <-]..].
  destruct (negb (is_success status)).
  { destruct (terminal_error_response _ _ _ _ _ _); cbn; [|done]. by intros [= <- <-]. }
  unfold start_stream. set (sse := is_event_stream _).
  destruct (channel 32) as [ch|] eqn:Ech; cbn [mbind option_bind]; [|done].
  assert (pw_world (if sse then increment_active_sse_streams pw else pw) = pw_world pw) as ->
    by (by destruct sse).
  unfold ByteBudget_with_tenant. cbn [Z.ltb OUTPUT_BYTE_BUDGET].
  pose proof (tenant_semaphore_ok _ _ _ (pp_tenant_id p) (tenant_budgets st) (si_world _ _ Hi) Ha) as Hten.
  destruct (tenant_semaphore _ _ _) as [id w]. destruct Hten as (Hw & Ha' & Hne1 & Hne2).
  change (0 <? OUTPUT_BYTE_BUDGET) with true. cbn [mbind option_bind].
  destruct (from_state engine) as [rd|]; cbn [mbind option_bind]; [|done].
  intros [= <- <-]. cbn [conn_of]. set (s := stream_start _ _ _ _ _).
  assert (stream_segments s = []) as Eseg.
  { unfold stream_segments. cbn. unfold channel in Ech. by injection Ech as <-. }
  eapply server_inv_change; [exact Hi| | |done|].
  - cbn -[s]. rewrite Eseg. split_and!; try done.
    + exists totals, w, (all_segments rest), (chunk_permit :: slot_permit :: all_permits rest).
      by apply (inv_init _ _ _ _ _ _ Ha' Ech).
    + unfold channel in Ech. by injection Ech as <-.
  - cbn -[s]. by rewrite Eseg.
  - pose proof (si_active _ _ Hi) as Hn. rewrite count_cons in Hn. cbn in Hn. cbn.
    destruct sse; cbn; rewrite Hn; [|done]. rewrite Zplus_mod_idemp_l. f_equal. lia.
Qed.

Lemma inv_reload pw cs :
  server_inv pw cs →
  server_inv (with_world pw (clear_table (pw_world pw) (tenant_budgets st))) cs.
Proof.
  intros [[[H1 H2] Hu] Hc [[W1 W2 W3] Hs Hl Hm Ht] Hn].
  assert (∀ t k id, table (clear_table (pw_world pw) (tenant_budgets st)) t !! k = Some id →
    table (pw_world pw) t !! k = Some id) as K.
  { intros t k id. unfold clear_table. rewrite table_set_table. case_decide; [|done].
    by rewrite lookup_empty. }
  split; [by split; [split|]|done| |done]. split; try done; [split|].
  - done.
  - intros t k id H. by eapply W2, K.
  - intros t k k' id Ha Hb. by eapply W3; apply K.
  - intros t k id H. by eapply Ht, K.
Qed.

Lemma inv_arrive pw cs : server_inv pw cs → server_inv pw (cs ++ [ConnAdmit WaitSlot]).
Proof.
  intros [H1 H2 H3 H4]. rewrite <-Permutation_cons_append.
  split; [done|by constructor|done|by rewrite count_cons].
Qed.

Lemma server_step_inv sv sv' :
  server_step st sv sv' → server_inv (sv_pw sv) (sv_conns sv) →
  server_inv (sv_pw sv') (sv_conns sv').
Proof.
  intros H. destruct H as
    [pw cs|pw cs i a a' w Hl E|pw cs i a a' w Hl E|pw cs i a Hl|pw cs i slot memory p en rh now res out pw' Hl E
    |pw cs i a s s' w Hl E|pw cs i s t slot memory r Hl Et Er|pw cs]; cbn; intros Hi;
    [by apply inv_arrive| | | | | | |by apply inv_reload];
    destruct (conn_at _ _ _ Hl) as (rest & E1 & E2); rewrite E1 in Hi; rewrite E2.
  - by eapply inv_admit.
  - by eapply inv_admit_timeout.
  - exact (inv_abandon _ _ _ Hi eq_refl eq_refl).
  - by eapply inv_send.
  - by eapply inv_stream.
  - by eapply inv_task_end.
Qed.

(** ** What is held, in bytes and requests *)

Context (Hdistinct : stream_limit st ≠ global_memory st).

Definition sum_bytes (segs : list BudgetedSegment) : Z :=
  foldr (λ s n, blen (seg_bytes s) + n) 0 segs.

Definition segment_shape (s : BudgetedSegment) : Prop :=
  ∃ b, budget_ok b ∧ segment_ok b s.

Lemma segments_shape cs : Forall conn_ok cs → Forall segment_shape (all_segments cs).
Proof.
  induction cs as [|c cs IH]; [done|]. intros [Hc Hcs]%Forall_cons.
  unfold all_segments. cbn. apply Forall_app. split; [|by apply IH].
  destruct c as [a|s|]; cbn; [done| |done]. destruct Hc as (_ & Hb & Hf & _).
  eapply Forall_impl; [exact Hf|]. intros sg Hs. by exists (sm_budget s).
Qed.

Lemma held_segments id segs :
  Forall segment_shape segs →
  held (permits_of segs) id =
    if decide (id = global_memory st) then sum_bytes segs
    else if decide (id = stream_limit st) then 0
    else sum_bytes (filter (λ s, p_sem (seg_local_permit s) = id) segs).
Proof.
  induction segs as [|s segs IH]; [by repeat case_decide|]. intros [(b & (Hg & _ & Hn1 & Hn2) & Hs) Hsegs]%Forall_cons.
  specialize (IH Hsegs). destruct Hs as (El & Eg & _).
  unfold permits_of. cbn [fmap list_fmap concat segment_permits app].
  fold (permits_of segs). rewrite !held_cons, IH, Eg, El. cbn [p_sem num_permits].
  rewrite filter_cons, El. cbn [p_sem]. rewrite Hg.
  unfold sum_bytes. repeat case_decide; cbn; lia || congruence.
Qed.

Lemma held_permits cs :
  Forall conn_ok cs →
  held (all_permits cs) (stream_limit st) = count has_slot cs ∧
  held (all_permits cs) (global_memory st) = GLOBAL_MEMORY_CHUNK * count has_chunk cs ∧
  ∀ id, id ≠ stream_limit st → id ≠ global_memory st → held (all_permits cs) id = 0.
Proof.
  induction cs as [|c cs IH]; [done|]. intros [Hc Hcs]%Forall_cons.
  destruct (IH Hcs) as (H1 & H2 & H3). unfold all_permits. cbn [fmap list_fmap concat].
  fold (all_permits cs). rewrite !count_cons.
  assert (held (conn_permits c) (stream_limit st) = (if has_slot c then 1 else 0) ∧
    held (conn_permits c) (global_memory st) = (if has_chunk c then GLOBAL_MEMORY_CHUNK else 0) ∧
    ∀ id, id ≠ stream_limit st → id ≠ global_memory st → held (conn_permits c) id = 0) as (K1 & K2 & K3).
  { destruct c as [[|slot|slot memory|r]|s|];
      cbn [conn_ok conn_permits waiting_permits has_slot has_chunk] in Hc |- *; try done.
    - subst. split_and!; intros; rewrite held_cons; cbn [p_sem num_permits slot_permit]; by repeat case_decide.
    - destruct Hc as [-> ->]. split_and!; intros; rewrite !held_cons;
        cbn [p_sem num_permits slot_permit chunk_permit]; by repeat case_decide.
    - destruct Hc as (_ & _ & _ & Ht). destruct (sm_task s) as [[[t slot] memory]|]; [|done].
      destruct Ht as (-> & -> & _). rewrite bool_decide_eq_true_2 by eauto.
      split_and!; intros; rewrite !held_cons;
        cbn [p_sem num_permits slot_permit chunk_permit]; by repeat case_decide. }
  split_and!.
  - rewrite held_app, K1, H1. done.
  - rewrite held_app, K2, H2. destruct (has_chunk c); lia.
  - intros id N1 N2. rewrite held_app, K3, H3; done.
Qed.

Lemma local_total_bytes segs : Forall segment_shape segs → local_total segs = sum_bytes segs.
Proof.
  induction segs as [|s segs IH]; [done|]. intros [(b & _ & (El & _)) Hsegs]%Forall_cons.
  rewrite local_total_cons, IH by done. unfold permit_count. by rewrite El.
Qed.

Lemma sum_bytes_pos segs : 0 ≤ sum_bytes segs.
Proof.
  induction segs as [|s segs IH]; [done|].
  change (0 ≤ Z.of_nat (length (seg_bytes s)) + sum_bytes segs). lia.
Qed.

Lemma count_le p q cs : (∀ c, p c = true → q c = true) → 0 ≤ count p cs ≤ count q cs.
Proof.
  intros Hpq. induction cs as [|c cs IH]; [done|]. rewrite !count_cons.
  specialize (Hpq c). destruct (p c), (q c); naive_solver lia.
Qed.

Lemma server_inv_bounds pw cs :
  server_inv pw cs →
  buffered cs + GLOBAL_MEMORY_CHUNK * count has_chunk cs ≤ DEFAULT_GLOBAL_MEMORY_BUDGET ∧
  count has_slot cs ≤ MAX_ACTIVE_UPSTREAM_STREAMS ∧
  (∀ id, id ≠ stream_limit st → id ≠ global_memory st → buffered_at id cs ≤ TENANT_MEMORY_BUDGET) ∧
  w_in_use (pw_world pw) = buffered cs ∧
  pw_active pw = count event_stream cs.
Proof.
  intros [[[H1 H2] Hu] Hc [Hwf Hs [sl Hl] [sg Hg] Ht] Hn].
  pose proof (segments_shape _ Hc) as Hsh. destruct (held_permits _ Hc) as (P1 & P2 & P3).
  assert (∀ id s, w_sems (pw_world pw) !! id = Some s →
    held (permits_of (all_segments cs)) id + held (all_permits cs) id ≤ totals id) as Hle.
  { intros id s Hid. specialize (H1 _ _ Hid). specialize (Hs _ _ Hid). rewrite held_app in H1. lia. }
  assert (buffered cs + GLOBAL_MEMORY_CHUNK * count has_chunk cs ≤ DEFAULT_GLOBAL_MEMORY_BUDGET) as B1.
  { specialize (Hle _ _ Hg). rewrite held_segments, decide_True, P2 in Hle by done.
    unfold totals in Hle. by rewrite decide_False, decide_True in Hle. }
  assert (count has_slot cs ≤ MAX_ACTIVE_UPSTREAM_STREAMS) as B2.
  { specialize (Hle _ _ Hl). rewrite held_segments, decide_False, decide_True, P1 in Hle by done.
    unfold totals in Hle. by rewrite decide_True in Hle. }
  split_and!; [done|done| | |].
  - intros id N1 N2. assert (held (permits_of (all_segments cs)) id = buffered_at id cs) as Eb
      by (rewrite held_segments, !decide_False by done; done).
    rewrite <-Eb. destruct (w_sems (pw_world pw) !! id) as [s|] eqn:Es.
    + specialize (Hle _ _ Es). rewrite P3 in Hle by done.
      unfold totals in Hle. rewrite !decide_False in Hle by done. lia.
    + assert (∀ qs, (∀ p, p ∈ qs → is_Some (w_sems (pw_world pw) !! p_sem p)) → held qs id = 0) as K.
      { induction qs as [|q qs IH]; intros Hq; [done|]. rewrite held_cons, IH.
        - rewrite decide_False; [done|]. intros E. destruct (Hq q ltac:(left)) as [x Hx]. congruence.
        - intros p Hp. apply Hq. by right. }
      rewrite K; [done|]. intros p Hp. apply H2, elem_of_app. by left.
  - rewrite Hu, local_total_bytes by done. change (buffered cs) with (sum_bytes (all_segments cs)) in *.
    pose proof (sum_bytes_pos (all_segments cs)). pose proof (count_le has_chunk has_chunk cs ltac:(done)).
    apply Z.mod_small. unfold DEFAULT_GLOBAL_MEMORY_BUDGET, GLOBAL_MEMORY_CHUNK in *. lia.
  - rewrite Hn. apply Z.mod_small.
    assert (0 ≤ count event_stream cs ≤ count has_slot cs) as ?.
    { apply count_le. intros [a|s|]; cbn; try done. destruct (sm_task s) as [[[t ?] ?]|]; [|done].
      intros _. by apply bool_decide_eq_true_2. }
    unfold MAX_ACTIVE_UPSTREAM_STREAMS in *. lia.
Qed.
End Invariant.

(** ** The server the start leaves *)

Context {rsa_api : RsaApi} {cbor_api : CborApi}.

Definition server_start (boot : BootState) : Server :=
  {| sv_pw := {| pw_world := bs_world boot; pw_active := 0 |}; sv_conns := [] |}.

Lemma started_inv b tr boot :
  secured b tr boot →
  stream_limit (bs_app boot) ≠ global_memory (bs_app boot) ∧
  server_inv (bs_app boot) (sv_pw (server_start boot)) [].
Proof.
  intros Hs. pose proof (se_memory _ _ _ Hs) as Em. unfold shared_memory in Em. cbn in Em.
  injection Em as El Et Eg Ew. cbn. rewrite <-Ew, <-El, <-Eg. split; [done|].
  split; cbn; [|done| |done].
  - split; [|done]. split; cbn; [|by intros p Hp%elem_of_nil].
    intros id s. rewrite !lookup_insert. unfold totals. rewrite <-El, <-Eg.
    repeat case_decide; subst; try done; intros [= <-]; by rewrite sem_new_available.
  - split; rewrite <-?El, <-?Eg; cbn.
    + split; cbn.
      * intros id. rewrite !lookup_insert. repeat case_decide; subst; try lia.
        rewrite lookup_empty. by intros [? ?].
      * intros t k id. unfold table. cbn. rewrite lookup_insert. case_decide; cbn; by rewrite lookup_empty.
      * intros t k k' id. unfold table. cbn. rewrite lookup_insert. case_decide; cbn; by rewrite lookup_empty.
    + intros id s. cbn. rewrite !lookup_insert. repeat case_decide; subst;
        [intros [= <-]; by rewrite sem_new_available..|by rewrite lookup_empty].
    + rewrite !lookup_insert. repeat case_decide; eauto; done.
    + rewrite !lookup_insert. repeat case_decide; eauto; done.
    + intros t k id. unfold table. cbn. rewrite lookup_insert. case_decide; cbn; by rewrite lookup_empty.
Qed.

Lemma served_inv b tr sv s :
  exec (boot b) tr (Returned sv) →
  rtc (server_step (bs_app (sv_state sv))) (server_start (sv_state sv)) s →
  stream_limit (bs_app (sv_state sv)) ≠ global_memory (bs_app (sv_state sv)) ∧
  server_inv (bs_app (sv_state sv)) (sv_pw s) (sv_conns s).
Proof.
  intros He Hr. destruct (boot_secured _ _ _ He) as (pre & _ & Hs).
  destruct (started_inv _ _ _ Hs) as [Hd Hi]. split; [done|]. revert Hi.
  change [] with (sv_conns (server_start (sv_state sv))).
  induction Hr as [s|s1 s2 s3 Hstep _ IH]; [done|]. intros Hi. apply IH. by eapply server_step_inv.
Qed.

Lemma served_stream b tr sv s i sm :
  exec (boot b) tr (Returned sv) →
  rtc (server_step (bs_app (sv_state sv))) (server_start (sv_state sv)) s →
  sv_conns s !! i = Some (ConnStream sm) →
  stream_ok sm ∧ (is_Some (sm_task sm) → ch_sender (sm_channel sm) = true).
Proof.
  intros He Hr Hl. destruct (served_inv _ _ _ _ He Hr) as [_ [_ Hc _ _]].
  rewrite Forall_lookup in Hc. specialize (Hc _ _ Hl) as (Hok & _ & _ & Htask). split; [done|].
  intros [[[t slot] memory] Et]. rewrite Et in Htask. by destruct Htask as (_ & _ & ?).
Qed.

(** C6: The proxy's memory is bounded: once started, whatever requests arrive and
    whatever the clients, the timers and the key watcher do, the bytes held for
    clients together with 64 KiB for every admitted request never exceed 256 MiB,
    at most 1000 requests hold a stream slot, the streams that draw on one tenant
    semaphore never hold more than 16 MiB, and the gauges of bytes in use and of
    open event streams are exact. *)
Theorem server_memory_bounded b tr sv s :
  exec (boot b) tr (Returned sv) →
  rtc (server_step (bs_app (sv_state sv))) (server_start (sv_state sv)) s →
  buffered (sv_conns s) + GLOBAL_MEMORY_CHUNK * count has_chunk (sv_conns s) ≤ 256 * 1024 * 1024 ∧
  count has_slot (sv_conns s) ≤ 1000 ∧
  (∀ id, id ≠ stream_limit (bs_app (sv_state sv)) → id ≠ global_memory (bs_app (sv_state sv)) →
     buffered_at id (sv_conns s) ≤ 16 * 1024 * 1024) ∧
  w_in_use (pw_world (sv_pw s)) = buffered (sv_conns s) ∧
  pw_active (sv_pw s) = count event_stream (sv_conns s).
Proof.
  intros He Hr. destruct (served_inv _ _ _ _ He Hr) as [Hd Hi].
  by apply (server_inv_bounds (bs_app (sv_state sv))).
Qed.

Lemma no_permits_no_stream cs : all_permits cs = [] → count event_stream cs = 0.
Proof.
  unfold all_permits, count. induction cs as [|c cs IH]; [done|].
  rewrite fmap_cons, concat_cons, filter_cons. intros [Hc Hcs]%app_eq_nil. rewrite decide_False; [by apply IH|].
  destruct c as [a|s|]; cbn in *; [done| |done]. by destruct (sm_task s) as [[[t slot] memory]|].
Qed.

(** C9: Nothing leaks: when no request waits or streams and every body is gone,
    however the requests have ended, all stream slots, the whole global memory and
    every tenant's budget are available again and both gauges are zero. *)
Theorem server_returns_all b tr sv s :
  exec (boot b) tr (Returned sv) →
  rtc (server_step (bs_app (sv_state sv))) (server_start (sv_state sv)) s →
  all_segments (sv_conns s) = [] → all_permits (sv_conns s) = [] →
  avail (pw_world (sv_pw s)) (stream_limit (bs_app (sv_state sv))) = Some 1000 ∧
  avail (pw_world (sv_pw s)) (global_memory (bs_app (sv_state sv))) = Some (256 * 1024 * 1024) ∧
  (∀ id n, id ≠ stream_limit (bs_app (sv_state sv)) → id ≠ global_memory (bs_app (sv_state sv)) →
     avail (pw_world (sv_pw s)) id = Some n → n = 16 * 1024 * 1024) ∧
  w_in_use (pw_world (sv_pw s)) = 0 ∧ pw_active (sv_pw s) = 0.
Proof.
  intros He Hr Es Ep. destruct (served_inv _ _ _ _ He Hr) as [Hd Hi].
  destruct (server_inv_bounds _ Hd _ _ Hi) as (_ & _ & _ & _ & Ha). rewrite (no_permits_no_stream _ Ep) in Ha.
  destruct Hi as [[[H1 _] Hu] _ Hw _].
  rewrite Es, Ep in *. unfold avail.
  assert (∀ id x, w_sems (pw_world (sv_pw s)) !! id = Some x →
    available_permits x = totals (bs_app (sv_state sv)) id) as K.
  { intros id x Hx. specialize (H1 _ _ Hx). unfold held in H1; cbn in H1. lia. }
  split_and!.
  - destruct (wo_limit _ _ Hw) as [x Hx]. rewrite Hx. cbn. rewrite (K _ _ Hx).
    unfold totals. by rewrite decide_True.
  - destruct (wo_memory _ _ Hw) as [x Hx]. rewrite Hx. cbn. rewrite (K _ _ Hx).
    unfold totals. by rewrite decide_False, decide_True.
  - intros id n N1 N2. destruct (w_sems _ !! id) as [x|] eqn:Hx; cbn; [|done].
    intros [= <-]. rewrite (K _ _ Hx). unfold totals. by rewrite !decide_False.
  - by rewrite Hu.
  - done.
Qed.

(** C38: Every stream is delivered in order, however many there are: its client
    has received a prefix of what its task has handed over, what is missing waits
    in the stream's own bounded channel, and when the body ends the
    stream nothing is missing. *)
Theorem server_streams_in_order b tr sv s i sm :
  exec (boot b) tr (Returned sv) →
  rtc (server_step (bs_app (sv_state sv))) (server_start (sv_state sv)) s →
  sv_conns s !! i = Some (ConnStream sm) →
  sm_received sm `prefix_of` sm_sent sm ∧ sm_sent sm `prefix_of` sm_accepted sm ∧
  (sm_enqueue sm = EnqDone (Ok tt) → sm_sent sm = sm_accepted sm) ∧
  (length (ch_segments (sm_channel sm)) ≤ ch_items (sm_channel sm))%nat ∧
  ∀ body, sm_body sm = Some body →
    sm_received sm ++ queued (sm_channel sm) = sm_sent sm ∧
    (is_end_stream body = true → sm_received sm = sm_sent sm ∧ sm_task sm = None).
Proof.
  intros He Hr Hl. destruct (served_stream _ _ _ _ _ _ He Hr Hl) as [Hok Htask].
  destruct (stream_ok_order sm Hok) as (H1 & H2 & H3 & H4 & H5). split_and!; try done.
  intros body Hbody. destruct (H5 body Hbody) as [H6 H7]. split; [done|].
  intros Hend. destruct (H7 Hend) as [H8 Hsend]. split; [done|].
  destruct (sm_task sm); [|done]. specialize (Htask ltac:(done)). congruence.
Qed.

End Proofs.

(** ** Concrete runs *)

Import StartDemo.
Import (hints) BootDemo Transparent AsciiHeaders NaiveSearch CounterSemaphore EndpointDemo TransparentReceipt ProxyDemo.

Module ServerDemo.

Definition prepared : Prepared := {|
  pp_request_id_header := None; pp_request_id := bstr "missing"; pp_tenant_id := bstr "tenant-1";
  pp_content_type := None; pp_policy_digest := bstr "policy-1"; pp_pcr0 := bstr "pcr0"
|}.

(** One request is admitted. *)
Definition admitted (boot : BootState) : option (Permit * Permit * ProxyWorld) :=
  let st := bs_app boot in
  let '(a, w) := admit_step st (bs_world boot) WaitSlot in
  let '(a, w) := admit_step st w a in
  match a with
  | AdmitDone slot memory => Some (slot, memory, {| pw_world := w; pw_active := 0 |})
  | _ => None
  end.

(** The actions of a stream, in a row. *)
Fixpoint stream_run (acts : list StreamAction) (s : Stream) (w : World) : option (Stream * World) :=
  match acts with
  | [] => Some (s, w)
  | a :: acts => '(s, w) ← stream_next a s w; stream_run acts s w
  end.

(** Its stream then goes through [acts]. *)
Definition served (acts : list StreamAction) (boot : BootState) : option Server :=
  '(slot, memory, pw) ← admitted boot;
  '(out, pw) ← after_send (bs_app boot) prepared (ru_engine (bs_rules boot)) hasher_new 0 slot memory
                 pw (Sent 200 [(bstr "content-type", bstr "text/event-stream")]);
  match conn_of out with
  | ConnStream s =>
    '(s, w) ← stream_run acts s (pw_world pw);
    Some {| sv_pw := with_world pw w; sv_conns := [ConnStream s] |}
  | _ => None
  end.

Lemma stream_run_steps st acts : ∀ s pw s' w,
  stream_run acts s (pw_world pw) = Some (s', w) →
  rtc (server_step st) {| sv_pw := pw; sv_conns := [ConnStream s] |}
    {| sv_pw := with_world pw w; sv_conns := [ConnStream s'] |}.
Proof.
  induction acts as [|a acts IH]; intros s pw s' w E; cbn in E.
  - injection E as <- <-. by destruct pw.
  - destruct (stream_next a s (pw_world pw)) as [[s1 w1]|] eqn:Es; cbn in E; [|done].
    eapply rtc_l; [by apply (sv_stream _ pw [ConnStream s] 0 a s s1 w1)|].
    exact (IH s1 (with_world pw w1) _ _ E).
Qed.

Lemma admitted_steps boot slot memory pw :
  admitted boot = Some (slot, memory, pw) →
  rtc (server_step (bs_app boot)) (server_start boot)
    {| sv_pw := pw; sv_conns := [ConnAdmit (AdmitDone slot memory)] |}.
Proof.
  unfold admitted. destruct (admit_step _ _ WaitSlot) as [a1 w1] eqn:E1.
  destruct (admit_step _ w1 a1) as [a2 w2] eqn:E2. destruct a2; try done. intros [= <- <- <-].
  eapply rtc_l; [apply sv_arrive|].
  eapply rtc_l; [by apply (sv_admit _ _ [ConnAdmit WaitSlot] 0 WaitSlot a1 w1)|].
  eapply rtc_l; [exact (sv_admit (bs_app boot) {| pw_world := w1; pw_active := 0 |} [ConnAdmit a1] 0 a1 _ w2 eq_refl E2)|]. done.
Qed.

Lemma served_steps acts boot s :
  served acts boot = Some s → rtc (server_step (bs_app boot)) (server_start boot) s.
Proof.
  unfold served. destruct (admitted boot) as [[[slot memory] pw]|] eqn:E1; cbn [mbind option_bind]; [|done].
  destruct (after_send _ _ _ _ _ _ _ _ _) as [[out pw1]|] eqn:E2; cbn [mbind option_bind]; [|done].
  destruct (conn_of out) as [a|s1|] eqn:Eo; [done| |done].
  destruct (stream_run acts s1 _) as [[s2 w]|] eqn:E3; cbn [mbind option_bind]; [|done]. intros [= <-].
  etrans; [by apply admitted_steps|]. eapply rtc_l; [by eapply (sv_send _ _ _ 0)|].
  cbn. rewrite Eo. by eapply stream_run_steps.
Qed.

Definition reading : list StreamAction :=
  [SaEnqueue (bstr "hello"); SaPoll; SaPoll; SaPoll; SaRead].
End ServerDemo.
Import ServerDemo.

(** The start of the examples, for a check on what it returns. *)
Lemma demo_start (P : list {c : Cmd & Resp c} → Serving → bool) :
  match (start enclave enclave_env).1 with (Returned sv, tr) => P tr sv | _ => false end = true →
  ∃ tr sv, exec (boot enclave) tr (Returned sv) ∧ P tr sv = true.
Proof.
  intros H. pose proof (run_executes (outside enclave_env) (boot enclave) tt) as He.
  change (run _ tt (boot enclave)) with (start enclave enclave_env) in He.
  destruct (start enclave enclave_env).1 as [[|sv|] tr]; [discriminate H| |discriminate H].
  by exists tr, sv.
Qed.

Lemma server_memory_bounded_witness :
  ∃ sv s, served reading (sv_state sv) = Some s ∧ count has_chunk (sv_conns s) = 1 ∧
    buffered (sv_conns s) = 5 ∧ 5 + GLOBAL_MEMORY_CHUNK * 1 ≤ 256 * 1024 * 1024.
Proof.
  destruct (demo_start (λ _ sv, match served reading (sv_state sv) with
    | Some s => (count has_chunk (sv_conns s) =? 1) && (buffered (sv_conns s) =? 5)
    | None => false end)) as (tr & sv & He & Hp); [by_vm|].
  destruct (served reading (sv_state sv)) as [s|] eqn:Es; [|discriminate Hp].
  apply andb_prop in Hp as [H1%Z.eqb_eq H2%Z.eqb_eq].
  destruct (server_memory_bounded enclave tr sv s He (served_steps _ _ _ Es)) as (Hb & _).
  exists sv, s. rewrite H1, H2 in Hb. split; [exact Es|]. split; [exact H1|]. split; [exact H2|exact Hb].
Defined.

Lemma server_streams_in_order_witness :
  ∃ sv s sm, served reading (sv_state sv) = Some s ∧ sv_conns s !! 0%nat = Some (ConnStream sm) ∧
    sm_received sm = bstr "hello" ∧ sm_received sm `prefix_of` sm_sent sm.
Proof.
  destruct (demo_start (λ _ sv, match served reading (sv_state sv) with
    | Some {| sv_conns := [ConnStream sm] |} => bool_decide (sm_received sm = bstr "hello")
    | _ => false end)) as (tr & sv & He & Hp); [by_vm|].
  destruct (served reading (sv_state sv)) as [s|] eqn:Es; [|discriminate Hp].
  destruct s as [pw cs]. destruct cs as [|[a|sm|] [|c cs]]; try discriminate Hp.
  apply bool_decide_eq_true in Hp.
  destruct (server_streams_in_order enclave tr sv _ 0 sm He (served_steps _ _ _ Es) eq_refl) as (Hf & _).
  exists sv, {| sv_pw := pw; sv_conns := [ConnStream sm] |}, sm.
  split; [exact Es|]. split; [reflexivity|]. split; [exact Hp|exact Hf].
Defined.
