(* ===== verification/EndToEnd.v ===== *)
(** * From the client's request to the bytes it receives

    The parts put together: the start of the proxy, the file watchers and the
    administrators, authentication, the handler, the streaming task and the queue
    under it. *)

From S2P Require Import Prelude Utf8 AhoCorasick Externals Receipt DoneDetector BudgetQueue BudgetQueueProofs Matching Engine EngineBoundary EngineProofs EngineTheorems Http HttpProofs Endpoints Proxy ProxyProofs ProxyTheorems Config ConfigProofs Watchers Effects Bootstrap BootstrapProofs Startup StartupProofs Server ServerProofs.
Local Open Scope Z_scope.

Section EndToEnd.
Context {rsa_api : RsaApi} {sig_api : Ed25519Api} {sig_laws : Ed25519Laws}
  {enc_api : EncodingApi} {enc_laws : EncodingLaws} {hdr_api : HeaderApi}
  {ac_api : AhoCorasickApi} {ac_laws : AhoCorasickLaws} {b3_api : Blake3Api} {b3_laws : Blake3Laws}
  {json_api : SerdeJsonApi} {cbor_api : CborApi} {rj_api : ReceiptJsonApi}
  {rj_laws : ReceiptJsonLaws} {sem_api : SemaphoreApi} {tj_api : TerminalJsonApi}.

(** A frame with a receipt for the fields [f] whose signature verifies. *)
Definition verified_frame (vk : VerifyingKey) (f : ReceiptFields) (now : Z) (frame : bytes) : Prop :=
  ∃ json sig64 sig,
    frame = build_proxy_audit_frame json sig64 ∧
    json_receipt (attested_receipt f now) = Some json ∧
    b64_decode sig64 = Some sig ∧ verify vk (canonical_receipt_digest f) sig = true.

Lemma audit_frame_verified f key now frame :
  audit_frame f key now = Some frame → verified_frame (verifying_key key) f now frame.
Proof.
  unfold audit_frame. destruct (json_receipt _) as [json|] eqn:Ej; cbn; [|done]. intros [= <-].
  eexists json, _, _. split_and!; [done|done|apply b64_decode_encode|apply verify_sign].
Qed.

Lemma prepare_fields env engine ext req p tenant :
  prepare env engine ext req = Some p → rq_tenant req = Some tenant →
  pp_tenant_id p = tenant ∧ policy_digest engine = Some (pp_policy_digest p) ∧
  (PCR0_HASH env = Some (pp_pcr0 p) ∨ MOCK_PCR0 env = Some (pp_pcr0 p)).
Proof.
  unfold prepare. intros E Ht. destruct (policy_digest engine) as [d|]; cbn [mbind option_bind] in E; [|done].
  destruct (PCR0_HASH env) as [v|]; cbn [mbind option_bind] in E.
  - injection E as <-. cbn. rewrite Ht. auto.
  - destruct (MOCK_PCR0 env) as [v|]; cbn [mbind option_bind] in E; [|done].
    injection E as <-. cbn. rewrite Ht. auto.
Qed.

(** A request that authentication passes on carries its token's tenant. *)
Lemma authenticated keyring req req' :
  (∀ next, require_auth keyring req next = Ok (next req')) →
  ∃ token, bearer_token req = Some token ∧ blake3_hash token ∈ keyring ∧
    rq_tenant req' = Some (blake3_hash token).
Proof.
  intros H. specialize (H (λ r, {| rs_status := match rq_tenant r with Some _ => 1 | None => 0 end;
    rs_headers := []; rs_body := Full (default [] (rq_tenant r)) |})). rewrite require_auth_eq in H.
  destruct (bearer_token req) as [token|]; [|done].
  case_bool_decide as Hk; [|done]. exists token. split_and!; [done|done|].
  cbn in H. destruct (rq_tenant req'); [|done]. cbn in H. congruence.
Qed.

Lemma start_stream_capacity st p engine headers slot memory pw r t b ch pw' :
  start_stream st p engine headers slot memory pw = Some (Spawned r t b ch slot memory, pw') →
  0 < bb_capacity b.
Proof.
  unfold start_stream, ByteBudget_with_tenant. change (0 <? OUTPUT_BYTE_BUDGET) with true.
  destruct (channel 32) as [ch0|]; cbn [mbind option_bind]; [|done].
  destruct (tenant_semaphore _ _ _) as [id w]; cbn [mbind option_bind].
  destruct (from_state engine) as [rd|]; cbn [mbind option_bind]; [|done]. by intros [= <- <- <- <- <-].
Qed.

Lemma boot_rules_wf b tr pre st :
  forallb text_event tr = true → pre `prefix_of` tr → secured b pre st →
  engine_wf (ru_engine (bs_rules st)).
Proof.
  intros Ht [post ->] Hsec. rewrite forallb_app in Ht. apply andb_prop in Ht as [Ht _].
  destruct (se_rules _ _ _ Hsec) as (source & Hs & Hi).
  eapply initial_rules_wf, Hi. by eapply rules_from_text.
Qed.

(** The events of the task, each with the times at which its outputs are inspected
    and the numbers of chunks of the request that had been uploaded by then. *)
Definition beside_upload (body : list (Result DynError bytes))
    (events : list ((nat → Z * nat) * TaskEvent)) : list (Moments * TaskEvent) :=
  (λ '(at_, ev),
     (λ i, {| mo_now := (at_ i).1; mo_request_hasher := upload hasher_new (take (at_ i).2 body) |}, ev))
    <$> events.

(** The bytes of chunks that were read. *)
Definition sent_bytes (body : list (Result DynError bytes)) : bytes :=
  concat (omap (λ r, match r with Ok chunk => Some chunk | Err _ => None end) body).

Lemma upload_absorbed body : ∀ h d,
  absorbed h d → absorbed (upload h body) (d ++ sent_bytes body).
Proof.
  unfold sent_bytes. induction body as [|[chunk|e] body IH]; intros h d Hd; cbn.
  - by rewrite app_nil_r.
  - rewrite app_assoc. eauto with pxy.
  - by apply IH.
Qed.

Lemma beside_upload_hash body events mo :
  met (beside_upload body events) mo →
  ∃ k, hasher_finalize (mo_request_hasher mo) = blake3_hash (sent_bytes (take k body)).
Proof.
  intros (mos & i & ([mos' ev] & -> & Hin)%list_elem_of_fmap & ->).
  apply list_elem_of_fmap in Hin as ([at_ ev'] & [= -> ->] & _). exists (at_ i).2.
  apply absorbed_finalize. apply (upload_absorbed (take (at_ i).2 body) hasher_new []). apply absorbed_new.
Qed.

(** What a receipt that reaches a client of the running proxy stands for: it is
    signed with the key whose public half the attestation document of the start
    covers, for the tenant of the client's own token, a part of its request, after
    a number of chunks that is one of [uploaded], the policy in force when the request came in, and the configured
    upstream and measurement. *)
Definition trusted_receipt (b : Build) (tr : list {c : Cmd & Resp c}) (boot : BootState) (env : Env)
    (engine : EngineState) (body : list (Result DynError bytes)) (uploaded : nat → Prop)
    (token frame : bytes) : Prop :=
  ∃ f now k, uploaded k ∧
    rf_request_hash f = hex_encode (blake3_hash (sent_bytes (take k body))) ∧
    verified_frame (verifying_key (proxy_private_key (bs_app boot))) f now frame ∧
    document_for b tr (proxy_private_key (bs_app boot)) (bs_document boot) ∧
    rf_tenant_id f = hex_encode (blake3_hash token) ∧
    policy_digest engine = Some (rf_policy_digest f) ∧
    rf_upstream_url f = upstream_url (bs_app boot) ∧
    (PCR0_HASH env = Some (rf_pcr0 f) ∨ MOCK_PCR0 env = Some (rf_pcr0 f)).

(** The keys of the running proxy, after the events of the key file so far. *)
Definition keys_now (boot : BootState) (nf : Notify) (path : Path) (events : list FileEvent)
    : list bytes :=
  au_keyring (watch_auth_file nf path (tenant_budgets (bs_app boot))
    {| au_keyring := auth_keyring (bs_router boot); au_world := bs_world boot |} events).1.

(** A text with tokens: that of the start, or one the key file had at an event. *)
Definition key_text (b : Build) (tr : list {c : Cmd & Resp c}) (path : Path)
    (events : list FileEvent) (source : bytes) : Prop :=
  tokens_from b tr source ∨
  ∃ input, input ∈ events ∧ reload_text path input.1 input.2 = Some source.

Lemma keys_now_source b pre st nf path events :
  secured b pre st →
  ∃ source, key_text b pre path events source ∧ keys_now st nf path events = hash_keyring source.
Proof.
  intros Hsec. unfold keys_now. edestruct keyring_source as [->|(input & source & H1 & H2 & ->)].
  - destruct (se_tokens _ _ _ Hsec) as (source & Hs & Hk & _). exists source. split; [by left|done].
  - exists source. split; [|done]. right. eauto.
Qed.

(** End to end: after a successful start, and however the key file, the
    rule file and the administrators have changed keys and rules since, a request
    that passes authentication belongs to a client whose token is in the key source
    of the start or in a text of the key file; whatever upstream, the client, the
    timers and other streams then do, what goes into its queue is a prefix of text
    redacted by the rules in force when the reply came, in order, with at most one
    receipt, and that receipt verifies under the key that was attested at the
    start, for this client's tenant, the bytes of its request that had been sent and
    the policy at its arrival.  The rules must not be those of a post with an empty
    pattern. *)
Theorem end_to_end b tr sv nf keys key_events rules watcher inputs cells inputs' cells'
    req req' ext env p headers slot memory pw r t bb ch pw' events q :
  exec (boot b) tr (Returned sv) → forallb text_event tr = true →
  rules_run rules {| rc_rules := bs_rules (sv_state sv); rc_watcher := watcher |} inputs = Some cells →
  rules_run rules cells inputs' = Some cells' → Forall text_input (inputs ++ inputs') →
  (∀ next, require_auth (keys_now (sv_state sv) nf keys key_events) req next = Ok (next req')) →
  let engine := ru_engine (rc_rules cells) in
  let engine' := ru_engine (rc_rules cells') in
  prepare env engine ext req' = Some p →
  start_stream (bs_app (sv_state sv)) p engine' headers slot memory pw
    = Some (Spawned r t bb ch slot memory, pw') →
  no_empty_pattern engine' →
  ∃ token source pre state (q' : QueueSink) outs log x y,
    bearer_token req = Some token ∧ blake3_hash token ∈ hash_keyring source ∧
    pre `prefix_of` tr ∧ key_text b pre keys key_events source ∧
    @run_task QueueSink (queue_sink bb) _ _ _ _ _ t (beside_upload (rq_body req') events) q
      = Some (state, q') ∧
    qs_sent q' = qs_sent q ++ x ++ y ∧ x `prefix_of` wire log ∧
    (y = [] ∨ ∃ reason, y `prefix_of` terminal_frame reason) ∧
    payload log `prefix_of` render outs ∧ Forall (clean_segment engine') outs ∧
    (receipts log ≤ 1)%nat ∧
    ∀ frame, AuditReceipt frame ∈ log → trusted_receipt b pre (sv_state sv) env engine (rq_body req') (λ _, True) token frame.
Proof.
  intros Hboot Htext Hrules Hrules' [Hi1 Hi2]%Forall_app Hauth engine engine' Hprep Hstart Hne.
  destruct (boot_secured _ _ _ Hboot) as (pre & Hpre & Hsec).
  assert (engine_wf engine') as Hwf.
  { eapply rules_run_nonempty; [exact Hrules'|done| |done]. eapply rules_run_nonempty; [exact Hrules|done|].
    intros _. by eapply boot_rules_wf. }
  destruct (authenticated _ _ _ Hauth) as (token & Et & Ek & Htenant).
  destruct (keys_now_source b pre (sv_state sv) nf keys key_events Hsec) as (source & Hsrc & Hring).
  rewrite Hring in Ek.
  pose proof (queue_sink_laws bb (start_stream_capacity _ _ _ _ _ _ _ _ _ _ _ _ Hstart)) as Hlaws.
  destruct (prepare_fields _ _ _ _ _ _ Hprep Htenant) as (Hp1 & Hp2 & Hp3).
  destruct (task_run_spec (sink := queue_sink bb) (sink_laws := Hlaws) _ _ _ _ _ _ _ _ _ _ _ _
    (beside_upload (rq_body req') events) q Hstart Hwf)
    as (state & q' & outs & log & H1 & H2 & (x & y & H3 & H4 & H5 & H6) & H7 & H8 & _).
  exists token, source, pre, state, q', outs, log, x, y. split_and!; try done.
  intros frame Hin. destruct (H6 _ Hin) as (mo & ph & Hmo & Hf).
  apply beside_upload_hash in Hmo as [k Hk].
  eexists _, (mo_now mo), k. split; [done|]. split; [|split; [by apply audit_frame_verified|]]; cbn.
  - by rewrite Hk.
  - rewrite Hp1. split_and!; try done. apply Hsec.
Qed.

End EndToEnd.

(** ** A concrete run *)

Import StartDemo ServerDemo.
Import (hints) BootDemo Transparent AsciiHeaders NaiveSearch CounterSemaphore EndpointDemo TransparentReceipt ProxyDemo.

Module EndDemo.
Definition client_request : Request := {|
  rq_method := bstr "POST"; rq_path := bstr "/v1/chat/completions";
  rq_headers := [(bstr "authorization", bstr "Bearer new-token")]; rq_tenant := None; rq_body := []
|}.
Definition tagged : Request := set_tenant client_request (bstr "new-token").
Definition environment : Env := {| PCR0_HASH := Some (bstr "pcr0"); MOCK_PCR0 := None |}.
Definition queue : QueueSink :=
  {| qs_world := pw_world (ProxyDemo.pworld' true); qs_channel := ProxyDemo.chan;
     qs_body := Some BudgetedBody_new; qs_client := []; qs_sent := [] |}.

(** A new rule file, and an administrator's post before the reply arrives. *)
Definition watching : Notify := {| nf_create := true; nf_watch := λ _, true |}.
Definition rule_path : Path := [Normal (bstr "rules")].
Definition inputs : list RulesInput := [FileChanged (Some [rule_path], λ _, Some (bstr "secret:X")); VaultStore].
Definition inputs' : list RulesInput := [AdminPost [bstr "token"]].
(** A new key file. *)
Definition key_events : list FileEvent := [(Some [[Normal (bstr "keys")]], λ _, Some (bstr "new-token"))].

Lemma reloads_text : Forall text_input (inputs ++ inputs').
Proof.
  unfold inputs, inputs'. apply Forall_cons; split; [intros k contents [= <-]; by_vm|].
  apply Forall_cons; split; [exact I|]. apply Forall_cons; split; [|apply Forall_nil_2].
  apply Forall_cons; split; [by_vm|apply Forall_nil_2].
Qed.

Definition rules_now (sv : Serving) : option (RulesCells * RulesCells) :=
  cells ← rules_run rule_path {| rc_rules := bs_rules (sv_state sv); rc_watcher := Idle |} inputs;
  cells' ← rules_run rule_path cells inputs'; Some (cells, cells').

(** The stream the running proxy opens for a prepared request. *)
Definition open_stream (sv : Serving) (p : Prepared) (cells : RulesCells) :=
  start_stream (bs_app (sv_state sv)) p (ru_engine (rc_rules cells)) ProxyDemo.sse_headers
    ProxyDemo.slot ProxyDemo.memory ProxyDemo.pworld.

Definition opens (tr : list {c : Cmd & Resp c}) (sv : Serving) : bool :=
  forallb text_event tr &&
  bool_decide (keys_now (sv_state sv) watching [Normal (bstr "keys")] key_events = [bstr "new-token"]) &&
  match rules_now sv with
  | Some (cells, cells') =>
    bool_decide (es_patterns (ru_engine (rc_rules cells')) = [bstr "token"]) &&
    match prepare environment (ru_engine (rc_rules cells)) None tagged with
    | Some p => match open_stream sv p cells' with Some (Spawned _ _ _ _ _ _, _) => true | _ => false end
    | None => false
    end
  | None => false
  end.

Lemma start_stream_permits {hdr_api : HeaderApi} {sem_api : SemaphoreApi} {ac_api : AhoCorasickApi}
    {b3_api : Blake3Api} {sig_api : Ed25519Api} {enc_api : EncodingApi}
    st p engine headers slot memory pw r t b ch slot' memory' pw' :
  start_stream st p engine headers slot memory pw = Some (Spawned r t b ch slot' memory', pw') →
  slot' = slot ∧ memory' = memory.
Proof.
  unfold start_stream. destruct (channel 32) as [ch0|]; cbn [mbind option_bind]; [|done].
  destruct (ByteBudget_with_tenant _ _ _ _ _) as [[b0 w]|]; cbn [mbind option_bind]; [|done].
  destruct (from_state engine) as [rd|]; cbn [mbind option_bind]; [|done]. by intros [= <- <- <- <- <- <- <-].
Qed.

Lemma client_authenticated keyring :
  keyring = [bstr "new-token"] →
  ∀ next, require_auth keyring client_request next = Ok (next tagged).
Proof. by intros ->. Qed.
End EndDemo.
Import EndDemo.

Lemma end_to_end_witness :
  ∃ token, bearer_token client_request = Some token ∧ token = bstr "new-token".
Proof.
  destruct (demo_start opens) as (tr & sv & He & Hp); [by_vm|].
  apply andb_prop in Hp as [[Ht Hk%bool_decide_eq_true]%andb_prop Hp]. unfold rules_now in Hp.
  destruct (rules_run _ {| rc_rules := _ |} _) as [cells|] eqn:E1; [|discriminate Hp].
  cbn [mbind option_bind] in Hp.
  destruct (rules_run rule_path cells inputs') as [cells'|] eqn:E2; [|discriminate Hp].
  cbn [mbind option_bind] in Hp.
  apply andb_prop in Hp as [Hn%bool_decide_eq_true Hp].
  destruct (prepare environment _ None tagged) as [p|] eqn:Ep; [|discriminate Hp].
  destruct (open_stream sv p cells') as [[[|r t b ch slot memory] pw']|] eqn:Es; try discriminate Hp.
  destruct (start_stream_permits _ _ _ _ _ _ _ _ _ _ _ _ _ _ Es) as [-> ->].
  destruct (end_to_end enclave tr sv watching [Normal (bstr "keys")] key_events rule_path Idle
    inputs cells inputs' cells' client_request tagged None environment p
    _ _ _ _ r t b ch pw' [(λ _, (0, 0%nat), EvClosed)] queue He Ht E1 E2 reloads_text
    (client_authenticated _ Hk) Ep Es)
    as (token & _ & _ & _ & _ & _ & _ & _ & _ & Et & _).
  { unfold no_empty_pattern. rewrite Hn. by apply Forall_singleton. }
  exists token. split; [exact Et|]. vm_compute in Et. by injection Et as <-.
Defined.
