(* ===== verification/Live.v ===== *)
(** * The proxy at work ([src/lib.rs], [src/main.rs])

    All parts of the started proxy at once.  Requests pass the router with the keys
    in force, are prepared with the rules in force, wait for their permits, are
    sent while their bodies are uploaded, and stream: the task of a stream is its
    program ([TaskProgram]), which goes on until its next wait; the queue, the
    client, the timers, other streams, the two file watchers and the administrators
    act in between, in any order.  [live_next] is one action, [live_step] any.

    [as_server] forgets everything but the shared semaphores and the queues: what is
    left is a step of [Server]. *)

From S2P Require Import Prelude Utf8 AhoCorasick Externals Receipt DoneDetector BudgetQueue BudgetQueueProofs Engine Http Endpoints Proxy Config Watchers Effects Bootstrap Startup TaskProgram Server.
Local Open Scope Z_scope.

Section Live.
Context {rsa_api : RsaApi} {hdr_api : HeaderApi} {sem_api : SemaphoreApi} {ac_api : AhoCorasickApi}
  {b3_api : Blake3Api} {sig_api : Ed25519Api} {enc_api : EncodingApi} {json_api : SerdeJsonApi}
  {rj_api : ReceiptJsonApi} {tj_api : TerminalJsonApi}.

(** What the start leaves, the environment the handler reads, and the files that
    are watched. *)
Record Deployment := {
  dp_boot : BootState;
  dp_env : Env;
  dp_notify : Notify;
  dp_keys : Path;
  dp_rules : Path
}.

(** ** Requests *)

(** A request from its arrival on: what the client sent, what the middleware passed
    on, what the handler made of it with which rules, how many chunks of its body
    have been sent upstream, and how many had been whenever its task looked. *)
Record Exchange := {
  ex_request : Request;
  ex_passed : Request;
  ex_prepared : Prepared;
  ex_engine : EngineState;
  ex_uploaded : nat;
  ex_looks : list nat
}.

Definition upload_one (x : Exchange) : Exchange := {|
  ex_request := ex_request x; ex_passed := ex_passed x; ex_prepared := ex_prepared x;
  ex_engine := ex_engine x; ex_uploaded := S (ex_uploaded x); ex_looks := ex_looks x
|}.

Definition look (x : Exchange) : Exchange := {|
  ex_request := ex_request x; ex_passed := ex_passed x; ex_prepared := ex_prepared x;
  ex_engine := ex_engine x; ex_uploaded := ex_uploaded x; ex_looks := ex_looks x ++ [ex_uploaded x]
|}.

(** The request hasher now. *)
Definition request_hasher (x : Exchange) : Hasher :=
  upload hasher_new (take (ex_uploaded x) (rq_body (ex_passed x))).

(** Where the task of a stream is: at the head of its loop, in a round, waiting
    for [enqueue_with_timeout], or over ([None] after a panic). *)
Inductive TaskRun :=
| AtSelect (t : Task)
| InRound (p : TaskProg TaskState)
| InEnqueue (payload : bytes) (k : Result EnqueueError unit → TaskProg TaskState)
| TaskOver (e : option TaskEnd).

(** [LvStreaming] also records the rules the stream is redacted with and the events
    its task has taken. *)
Inductive LiveConn :=
| LvArrived (request passed : Request)
| LvWaiting (x : Exchange) (a : AdmitState)
| LvStreaming (x : Exchange) (engine : EngineState) (run : TaskRun) (events : list TaskEvent)
    (s : Stream)
| LvClosed.

(** The shared state: semaphores, tables and counters, connections, keys and rules,
    with what has happened to keys and rules so far. *)
Record Live := {
  lv_pw : ProxyWorld;
  lv_conns : list LiveConn;
  lv_keys : list bytes;
  lv_rules : RulesCells;
  lv_key_log : list FileEvent;
  lv_rule_log : list RulesInput
}.

Definition live_start (dp : Deployment) : Live := {|
  lv_pw := {| pw_world := bs_world (dp_boot dp); pw_active := 0 |};
  lv_conns := [];
  lv_keys := auth_keyring (bs_router (dp_boot dp));
  lv_rules := {| rc_rules := bs_rules (dp_boot dp);
                 rc_watcher := watch_pii_config_start (dp_notify dp) (dp_rules dp) |};
  lv_key_log := []; lv_rule_log := []
|}.

Definition current_engine (s : Live) : EngineState := ru_engine (rc_rules (lv_rules s)).

(** The router with the keys in force. *)
Definition current_router (dp : Deployment) (s : Live) : RouterState := {|
  auth_keyring := lv_keys s;
  admin_bearer_token_hash := admin_bearer_token_hash (bs_router (dp_boot dp));
  allowed_origins := allowed_origins (bs_router (dp_boot dp))
|}.

(** The router hands [req] to the proxy handler as [passed]: whatever the handlers
    are, the client gets the body of that reply. *)
Definition reached (st : RouterState) (req passed : Request) : Prop :=
  ∀ h, rs_body (make_router st h req) = rs_body (h_proxy h passed).

Definition set_conn (s : Live) (i : nat) (c : LiveConn) : Live := {|
  lv_pw := lv_pw s; lv_conns := <[i := c]> (lv_conns s); lv_keys := lv_keys s;
  lv_rules := lv_rules s; lv_key_log := lv_key_log s; lv_rule_log := lv_rule_log s
|}.
Definition set_pw (s : Live) (pw : ProxyWorld) : Live := {|
  lv_pw := pw; lv_conns := lv_conns s; lv_keys := lv_keys s;
  lv_rules := lv_rules s; lv_key_log := lv_key_log s; lv_rule_log := lv_rule_log s
|}.
Definition set_world (s : Live) (w : World) : Live := set_pw s (with_world (lv_pw s) w).

(** ** Actions *)

(** - [LaPrepare]: the handler starts; - [LaAdmit], [LaAdmitTimeout]: it waits for its
    permits; - [LaAbandon]: the client disconnects or the handler panics;
    - [LaUpload]: a chunk of the body is read; - [LaReply]: the result of the request
    to upstream; - [LaEvent]: the task's [select!] yields an event; - [LaTask]: the
    task goes on, at the time [now]; - [LaQueue]: a poll or a timeout of the pending
    [enqueue], a read of the client, or the client leaves; - [LaKeys]: an event of the
    key file. *)
Inductive LiveAction :=
| LaPrepare (i : nat) (ext_request_id : option bytes)
| LaAdmit (i : nat)
| LaAdmitTimeout (i : nat)
| LaAbandon (i : nat)
| LaUpload (i : nat)
| LaReply (i : nat) (now : Z) (res : SendResult)
| LaEvent (i : nat) (ev : TaskEvent)
| LaTask (i : nat) (now : Z)
| LaQueue (i : nat) (a : StreamAction)
| LaKeys (input : FileEvent).

(** The task goes on: it ends its round, looks at the clock and the request hasher,
    or starts to wait for the queue, or its wait is over. *)
Definition go_on (x : Exchange) (run : TaskRun) (s : Stream) (pw : ProxyWorld) (now : Z)
    : option (Exchange * TaskRun * Stream * ProxyWorld) :=
  match run with
  | AtSelect _ | TaskOver _ => None
  | InEnqueue payload k =>
    match sm_enqueue s with EnqDone r => Some (x, InRound (k r), s, pw) | _ => None end
  | InRound p =>
    let over e :=
      '(t, slot, memory) ← sm_task s;
      Some (x, TaskOver e, stream_end s, task_cleanup t slot memory pw) in
    match p with
    | Ret (Running t) => Some (x, AtSelect t, s, pw)
    | Ret (Ended _ e) => over (Some e)
    | Panic _ => over None
    | Act c k =>
      match c as c return (TaskResp c → TaskProg TaskState) → _ with
      | CmdMoment => λ k,
        Some (look x, InRound (k {| mo_now := now; mo_request_hasher := request_hasher x |}), s, pw)
      | CmdSend payload => λ k,
        '(s, w) ← stream_next (SaEnqueue payload) s (pw_world pw);
        Some (x, InEnqueue payload k, s, with_world pw w)
      end k
    end
  end.

Definition streaming (s : Live) (i : nat)
    : option (Exchange * EngineState * TaskRun * list TaskEvent * Stream) :=
  match lv_conns s !! i with
  | Some (LvStreaming x engine run events sm) => Some (x, engine, run, events, sm)
  | _ => None
  end.
Definition waiting (s : Live) (i : nat) : option (Exchange * AdmitState) :=
  match lv_conns s !! i with Some (LvWaiting x a) => Some (x, a) | _ => None end.

Definition live_next (dp : Deployment) (action : LiveAction) (s : Live) : option Live :=
  let st := bs_app (dp_boot dp) in
  match action with
  | LaPrepare i ext =>
    match lv_conns s !! i with
    | Some (LvArrived req passed) =>
      match prepare (dp_env dp) (current_engine s) ext passed with
      | Some p =>
        Some (set_conn s i (LvWaiting {| ex_request := req; ex_passed := passed; ex_prepared := p;
                                         ex_engine := current_engine s; ex_uploaded := 0;
                                         ex_looks := [] |} WaitSlot))
      | None => Some (set_conn s i LvClosed)
      end
    | _ => None
    end
  | LaAdmit i =>
    '(x, a) ← waiting s i;
    let '(a, w) := admit_step st (pw_world (lv_pw s)) a in
    Some (set_conn (set_world s w) i (LvWaiting x a))
  | LaAdmitTimeout i =>
    '(x, a) ← waiting s i;
    let '(a, w) := admit_timeout (pw_world (lv_pw s)) a in
    Some (set_conn (set_world s w) i (LvWaiting x a))
  | LaAbandon i =>
    match lv_conns s !! i with
    | Some (LvArrived _ _) => Some (set_conn s i LvClosed)
    | Some (LvWaiting _ a) =>
      Some (set_conn (set_world s (foldl drop_permit (pw_world (lv_pw s)) (waiting_permits a))) i LvClosed)
    | _ => None
    end
  | LaUpload i =>
    match lv_conns s !! i with
    | Some (LvWaiting x (AdmitDone slot memory)) =>
      Some (set_conn s i (LvWaiting (upload_one x) (AdmitDone slot memory)))
    | Some (LvStreaming x engine run events sm) =>
      Some (set_conn s i (LvStreaming (upload_one x) engine run events sm))
    | _ => None
    end
  | LaReply i now res =>
    '(x, a) ← waiting s i;
    match a with
    | AdmitDone slot memory =>
      '(out, pw) ← after_send st (ex_prepared x) (current_engine s) (request_hasher x) now
                     slot memory (lv_pw s) res;
      Some (set_conn (set_pw s pw) i
              match out with
              | Replied _ => LvClosed
              | Spawned _ t b ch slot memory =>
                LvStreaming x (current_engine s) (AtSelect t) [] (stream_start t b ch slot memory)
              end)
    | _ => None
    end
  | LaEvent i ev =>
    '(x, engine, run, events, sm) ← streaming s i;
    match run, ev with
    | AtSelect t, EvClosed =>
      if ch_receiver (sm_channel sm) then None
      else Some (set_conn s i (LvStreaming x engine (InRound (task_round t ev)) (events ++ [ev]) sm))
    | AtSelect t, _ =>
      Some (set_conn s i (LvStreaming x engine (InRound (task_round t ev)) (events ++ [ev]) sm))
    | _, _ => None
    end
  | LaTask i now =>
    '(x, engine, run, events, sm) ← streaming s i;
    '(x, run, sm, pw) ← go_on x run sm (lv_pw s) now;
    Some (set_conn (set_pw s pw) i (LvStreaming x engine run events sm))
  | LaQueue i a =>
    '(x, engine, run, events, sm) ← streaming s i;
    match a with
    | SaEnqueue _ => None
    | _ =>
      '(sm, w) ← stream_next a sm (pw_world (lv_pw s));
      Some (set_conn (set_world s w) i (LvStreaming x engine run events sm))
    end
  | LaKeys (event, read) =>
    match watcher_panic (dp_notify dp) (bstr "auth") (dp_keys dp) with
    | Some _ => None
    | None =>
      let au := auth_event (dp_keys dp) (tenant_budgets st)
                  {| au_keyring := lv_keys s; au_world := pw_world (lv_pw s) |} event read in
      Some {| lv_pw := with_world (lv_pw s) (au_world au); lv_conns := lv_conns s;
              lv_keys := au_keyring au; lv_rules := lv_rules s;
              lv_key_log := lv_key_log s ++ [(event, read)]; lv_rule_log := lv_rule_log s |}
    end
  end.

(** Actions one after the other. *)
Fixpoint live_run (dp : Deployment) (actions : list LiveAction) (s : Live) : option Live :=
  match actions with
  | [] => Some s
  | a :: actions => s ← live_next dp a s; live_run dp actions s
  end.

(** A new request, a change of the rules, whose texts and patterns are UTF-8 as
    [read_to_string] and the JSON parser see to it, or an action.  An administrator
    may post any patterns, empty ones too. *)
Inductive live_step (dp : Deployment) : Live → Live → Prop :=
| lv_request s req passed :
    reached (current_router dp s) req passed →
    live_step dp s
      {| lv_pw := lv_pw s; lv_conns := lv_conns s ++ [LvArrived req passed]; lv_keys := lv_keys s;
         lv_rules := lv_rules s; lv_key_log := lv_key_log s; lv_rule_log := lv_rule_log s |}
| lv_change s input cells :
    text_input input → rules_step (dp_rules dp) (lv_rules s) input = Some cells →
    live_step dp s
      {| lv_pw := lv_pw s; lv_conns := lv_conns s; lv_keys := lv_keys s; lv_rules := cells;
         lv_key_log := lv_key_log s; lv_rule_log := lv_rule_log s ++ [input] |}
| lv_act s action s' :
    live_next dp action s = Some s' → live_step dp s s'.

(** ** The server in it *)

Definition as_conn (c : LiveConn) : Conn :=
  match c with
  | LvArrived _ _ => ConnAdmit WaitSlot
  | LvWaiting _ a => ConnAdmit a
  | LvStreaming _ _ _ _ s => ConnStream s
  | LvClosed => ConnOver
  end.

Definition as_server (s : Live) : Server :=
  {| sv_pw := lv_pw s; sv_conns := as_conn <$> lv_conns s |}.

End Live.
