(* ===== verification/LiveProofs.v ===== *)
(** * Correctness of the proxy at work

    First the simulation: every step of [Live] is a step of [Server], or none, so
    that what holds of the shared memory there holds here.  Then what the streams
    carry: the history of a stream is a run of its task, so that whatever the
    interleaving, its client receives redacted text only, in order, with at most one
    receipt for exactly this request; and a stream that comes to its end has
    delivered the redaction of all that upstream sent. *)

From S2P Require Import Prelude Utf8 AhoCorasick Externals Receipt DoneDetector BudgetQueue BudgetQueueProofs Matching Engine EngineBoundary EngineProofs EngineTheorems Http HttpProofs Endpoints Proxy ProxyProofs ProxyTheorems Config ConfigProofs Watchers Effects Bootstrap BootstrapProofs Startup StartupProofs TaskProgram Server ServerProofs EndToEnd Live.
Local Open Scope Z_scope.

Section Proofs.
Context {rsa_api : RsaApi} {sig_api : Ed25519Api} {sig_laws : Ed25519Laws}
  {enc_api : EncodingApi} {enc_laws : EncodingLaws} {hdr_api : HeaderApi}
  {ac_api : AhoCorasickApi} {ac_laws : AhoCorasickLaws} {b3_api : Blake3Api} {b3_laws : Blake3Laws}
  {json_api : SerdeJsonApi} {cbor_api : CborApi} {rj_api : ReceiptJsonApi}
  {rj_laws : ReceiptJsonLaws} {sem_api : SemaphoreApi} {sem_laws : SemaphoreLaws}
  {tj_api : TerminalJsonApi}.

(** ** The simulation *)

Section Simulation.
Context (dp : Deployment).
Abbreviation st := (bs_app (dp_boot dp)).

(** The task holds its permits until it is over, and waits for at most one call of
    [enqueue]. *)
Definition run_shape (run : TaskRun) (s : Stream) : Prop :=
  match run with
  | AtSelect _ | InRound _ => is_Some (sm_task s) ∧ ∃ r, sm_enqueue s = EnqDone r
  | InEnqueue _ _ => is_Some (sm_task s)
  | TaskOver _ => sm_task s = None ∧ ∃ r, sm_enqueue s = EnqDone r
  end.

Definition conn_shape (c : LiveConn) : Prop :=
  match c with LvStreaming _ _ run _ s => run_shape run s | _ => True end.

Definition live_shape (s : Live) : Prop := Forall conn_shape (lv_conns s).

Lemma as_server_conn s i c :
  lv_conns s !! i = Some c → sv_conns (as_server s) !! i = Some (as_conn c).
Proof. intros H. cbn. by rewrite list_lookup_fmap, H. Qed.

Lemma as_server_set s pw i c :
  as_server (set_conn (set_pw s pw) i c) =
  {| sv_pw := pw; sv_conns := <[i := as_conn c]> (sv_conns (as_server s)) |}.
Proof. unfold as_server. cbn. by rewrite list_fmap_insert. Qed.

(** A change the server does not see. *)
Lemma as_server_same s i c c' :
  lv_conns s !! i = Some c → as_conn c' = as_conn c → as_server (set_conn s i c') = as_server s.
Proof.
  intros Hi Hc. unfold as_server. cbn. rewrite list_fmap_insert, Hc, list_insert_id; [done|].
  by rewrite list_lookup_fmap, Hi.
Qed.

Lemma live_shape_set s pw i c :
  live_shape s → conn_shape c → live_shape (set_conn (set_pw s pw) i c).
Proof. intros Hs Hc. by apply Forall_insert. Qed.

Lemma live_shape_at s i c : live_shape s → lv_conns s !! i = Some c → conn_shape c.
Proof. intros Hs Hi. by eapply Forall_lookup_1 in Hi. Qed.

Lemma set_pw_self s : set_pw s (lv_pw s) = s.
Proof. by destruct s. Qed.

(** The stream's part of an action of the queue. *)
Lemma stream_next_shape_run a s w s' w' run :
  stream_next a s w = Some (s', w') → (∀ data, a ≠ SaEnqueue data) →
  run_shape run s → run_shape run s'.
Proof.
  intros E Ha Hr. assert (sm_task s' = sm_task s ∧
    ∀ r, sm_enqueue s = EnqDone r → sm_enqueue s' = EnqDone r) as [Et Ee].
  { destruct a; cbn in E; [by destruct (Ha data)| | | |].
    - destruct (enqueue_step _ _ _ _) as [[e ch] w1] eqn:Es. injection E as <- <-. cbn.
      split; [done|]. intros r Hd. rewrite Hd in Es. by injection Es as <- <- <-.
    - destruct (enqueue_timeout _ _) as [e w1] eqn:Es. injection E as <- <-. cbn.
      split; [done|]. intros r Hd. rewrite Hd in Es. by injection Es as <- <-.
    - destruct (sm_body s) as [body|]; cbn in E; [|done].
      destruct (poll_frame _ _ _) as [[[f b1] ch] w1]. by injection E as <- <-.
    - destruct (sm_body s) as [body|]; cbn in E; [|done]. by injection E as <- <-. }
  unfold run_shape in *. rewrite Et. destruct run; naive_solver.
Qed.

Lemma streaming_at s i x engine run events sm :
  streaming s i = Some (x, engine, run, events, sm) →
  lv_conns s !! i = Some (LvStreaming x engine run events sm).
Proof.
  unfold streaming. destruct (lv_conns s !! i) as [[]|]; try done. by intros [= -> -> -> -> ->].
Qed.

Lemma waiting_at s i x a :
  waiting s i = Some (x, a) → lv_conns s !! i = Some (LvWaiting x a).
Proof. unfold waiting. destruct (lv_conns s !! i) as [[]|]; try done. by intros [= -> ->]. Qed.

Lemma go_on_server x run sm pw now x' run' sm' pw' cs i :
  go_on x run sm pw now = Some (x', run', sm', pw') → run_shape run sm →
  cs !! i = Some (ConnStream sm) →
  rtc (server_step st) {| sv_pw := pw; sv_conns := cs |}
    {| sv_pw := pw'; sv_conns := <[i := ConnStream sm']> cs |} ∧ run_shape run' sm'.
Proof.
  intros E Hs Hi. assert (∀ e, ('(t, slot, memory) ← sm_task sm;
      Some (x, TaskOver e, stream_end sm, task_cleanup t slot memory pw)) = Some (x', run', sm', pw') →
    (is_Some (sm_task sm) ∧ ∃ r, sm_enqueue sm = EnqDone r) →
    rtc (server_step st) {| sv_pw := pw; sv_conns := cs |}
      {| sv_pw := pw'; sv_conns := <[i := ConnStream sm']> cs |} ∧ run_shape run' sm') as Hover.
  { intros e Ho [[[[t slot] memory] Et] [r Er]]. rewrite Et in Ho. injection Ho as <- <- <- <-.
    split; [|cbn; eauto]. by eapply rtc_once, sv_task_end. }
  destruct run as [t|p|payload k|e]; cbn in E, Hs; [done| | |done].
  - destruct p as [[t|t e]|m|[payload|] k].
    + injection E as <- <- <- <-. by rewrite list_insert_id.
    + by eapply Hover.
    + by eapply Hover.
    + destruct Hs as [[task Et] [r Er]]. rewrite Et, Er in E. cbn in E. injection E as <- <- <- <-.
      split; [|cbn; eauto]. eapply rtc_once, (sv_stream _ _ _ _ (SaEnqueue payload)); [done|].
      cbn. by rewrite Et, Er.
    + injection E as <- <- <- <-. by rewrite list_insert_id.
  - destruct (sm_enqueue sm) eqn:Er; try done. injection E as <- <- <- <-.
    rewrite list_insert_id by done. split; [done|]. split; [done|eauto].
Qed.

(** The actions of the handler, up to the reply. *)
Definition of_handler (action : LiveAction) : bool :=
  match action with
  | LaPrepare _ _ | LaAdmit _ | LaAdmitTimeout _ | LaAbandon _ | LaReply _ _ _ => true
  | _ => false
  end.

(** A request that holds nothing yet is dropped. *)
Lemma abandon_arrived s i req passed :
  lv_conns s !! i = Some (LvArrived req passed) →
  rtc (server_step st) (as_server s) (as_server (set_conn s i LvClosed)).
Proof.
  intros Hi. eapply rtc_once. rewrite <-(set_pw_self s) at 2. rewrite as_server_set.
  apply (as_server_conn s i) in Hi. destruct s as [[w n] cs ks ru kl rl].
  exact (sv_abandon _ _ _ _ WaitSlot Hi).
Qed.

(** An action of the handler is a step of the server, or nothing it sees. *)
Lemma handler_next_server action s s' :
  of_handler action = true → live_next dp action s = Some s' → live_shape s →
  rtc (server_step st) (as_server s) (as_server s') ∧ live_shape s'.
Proof.
  intros Hh E Hs. destruct action as [i ext|i|i|i|i|i now res|i ev|i now|i a|[event read]]; cbn in E; try done; clear Hh.
  - destruct (lv_conns s !! i) as [[req passed| | |]|] eqn:Hi; try done.
    destruct (prepare _ _ _ _) as [p|]; injection E as <-; (split; [|by apply (live_shape_set s (lv_pw s))]).
    + by rewrite (as_server_same s i _ _ Hi).
    + by apply abandon_arrived with req passed.
  - destruct (waiting s i) as [[x a]|] eqn:Hi; cbn in E; [|done]. apply waiting_at in Hi.
    destruct (admit_step _ _ _) as [a' w] eqn:Ea. injection E as <-.
    split; [|by apply live_shape_set]. unfold set_world. rewrite as_server_set.
    by eapply rtc_once, sv_admit; [apply (as_server_conn s i _ Hi)|].
  - destruct (waiting s i) as [[x a]|] eqn:Hi; cbn in E; [|done]. apply waiting_at in Hi.
    destruct (admit_timeout _ _) as [a' w] eqn:Ea. injection E as <-.
    split; [|by apply live_shape_set]. unfold set_world. rewrite as_server_set.
    by eapply rtc_once, sv_admit_timeout; [apply (as_server_conn s i _ Hi)|].
  - destruct (lv_conns s !! i) as [[req passed|x a| |]|] eqn:Hi; try done; injection E as <-.
    + split; [|by apply (live_shape_set s (lv_pw s))]. by apply abandon_arrived with req passed.
    + split; [|by apply live_shape_set]. unfold set_world. rewrite as_server_set.
      by eapply rtc_once, sv_abandon; apply (as_server_conn s i _ Hi).
  - destruct (waiting s i) as [[x a]|] eqn:Hi; cbn in E; [|done]. apply waiting_at in Hi.
    destruct a as [| |slot memory|]; try done.
    destruct (after_send _ _ _ _ _ _ _ _ _) as [[out pw]|] eqn:Ea; cbn in E; [|done]. injection E as <-.
    split.
    + rewrite as_server_set. eapply rtc_once. apply (as_server_conn s i) in Hi.
      pose proof (sv_send st (lv_pw s) (sv_conns (as_server s)) i slot memory _ _ _ _ _ _ _ Hi Ea) as Hstep.
      by destruct out.
    + apply live_shape_set; [done|]. destruct out; [done|]. cbn. eauto.
Qed.

(** So is one of a task, a queue, a client or the key watcher. *)
Lemma stream_next_server action s s' :
  of_handler action = false → live_next dp action s = Some s' → live_shape s →
  rtc (server_step st) (as_server s) (as_server s') ∧ live_shape s'.
Proof.
  intros Hh E Hs. destruct action as [i ext|i|i|i|i|i now res|i ev|i now|i a|[event read]]; cbn in E; try done; clear Hh.
  - destruct (lv_conns s !! i) as [[|x []|x engine run events sm|]|] eqn:Hi; try done; injection E as <-;
      rewrite (as_server_same s i _ _ Hi) by done; (split; [done|]); rewrite <-(set_pw_self s);
      apply live_shape_set; try done. by apply (live_shape_at s i _ Hs Hi).
  - destruct (streaming s i) as [[[[[x engine] run] events] sm]|] eqn:Hi; cbn in E; [|done].
    apply streaming_at in Hi. pose proof (live_shape_at s i _ Hs Hi) as Hc.
    destruct run as [t| | |]; try done.
    assert (s' = set_conn s i (LvStreaming x engine (InRound (task_round t ev)) (events ++ [ev]) sm)) as ->
      by (destruct ev; [destruct (ch_receiver _); [done|]|..]; by injection E as <-).
    rewrite (as_server_same s i _ _ Hi) by done. split; [done|]. rewrite <-(set_pw_self s).
    by apply live_shape_set.
  - destruct (streaming s i) as [[[[[x engine] run] events] sm]|] eqn:Hi; cbn in E; [|done].
    apply streaming_at in Hi. pose proof (live_shape_at s i _ Hs Hi) as Hc.
    destruct (go_on _ _ _ _ _) as [[[[x' run'] sm'] pw']|] eqn:Eg; cbn in E; [|done]. injection E as <-.
    destruct (go_on_server _ _ _ _ _ _ _ _ _ (sv_conns (as_server s)) i Eg Hc) as [Hr Hc'];
      [by apply (as_server_conn s i _ Hi)|].
    rewrite as_server_set. split; [done|]. by apply live_shape_set.
  - destruct (streaming s i) as [[[[[x engine] run] events] sm]|] eqn:Hi; cbn in E; [|done].
    apply streaming_at in Hi. pose proof (live_shape_at s i _ Hs Hi) as Hc.
    destruct (stream_next a sm (pw_world (lv_pw s))) as [[sm' w]|] eqn:En; [|by destruct a].
    assert (∀ data, a ≠ SaEnqueue data) as Ha by (by intros data ->).
    assert (s' = set_conn (set_world s w) i (LvStreaming x engine run events sm')) as ->
      by (destruct a; cbn in E; congruence).
    unfold set_world. rewrite as_server_set. split.
    + by eapply rtc_once, sv_stream; [apply (as_server_conn s i _ Hi)|].
    + apply live_shape_set; [done|]. by eapply stream_next_shape_run.
  - destruct (watcher_panic _ _ _); [done|]. injection E as <-. split; [|done].
    unfold auth_event. destruct (reload_text _ _ _) as [contents|]; [|by destruct s as [[] ? ? ? ? ?]].
    case_bool_decide; [by destruct s as [[] ? ? ? ? ?]|]. eapply rtc_once, sv_reload.
Qed.

Lemma live_next_server action s s' :
  live_next dp action s = Some s' → live_shape s →
  rtc (server_step st) (as_server s) (as_server s') ∧ live_shape s'.
Proof.
  destruct (of_handler action) eqn:E; [by apply handler_next_server|by apply stream_next_server].
Qed.

Lemma live_step_server s s' :
  live_step dp s s' → live_shape s →
  rtc (server_step st) (as_server s) (as_server s') ∧ live_shape s'.
Proof.
  intros [s0 req passed _|s0 input cells _ _|s0 action s1 E] Hs; [|by split|by apply live_next_server in E].
  split; [|by apply Forall_app; split; [|apply Forall_singleton]].
  unfold as_server. cbn. rewrite fmap_app. eapply rtc_once, sv_arrive.
Qed.

Lemma live_reach_server s :
  rtc (live_step dp) (live_start dp) s →
  rtc (server_step st) (server_start (dp_boot dp)) (as_server s) ∧ live_shape s.
Proof.
  intros H. assert (live_shape (live_start dp)) as Hs by constructor.
  change (server_start (dp_boot dp)) with (as_server (live_start dp)).
  induction H as [s|s1 s2 s3 Hstep _ IH]; [done|].
  destruct (live_step_server _ _ Hstep Hs) as [H1 H2]. destruct (IH H2) as [H3 H4].
  split; [by etrans|done].
Qed.

(** C7: The whole proxy refines the server of shared semaphores and queues: every
    state it reaches is one of the server, and every step of whatever part is a
    step of the server or leaves it as it is. *)
Theorem live_refines_server s s' :
  rtc (live_step dp) (live_start dp) s → live_step dp s s' →
  rtc (server_step st) (server_start (dp_boot dp)) (as_server s) ∧
  rtc (server_step st) (as_server s) (as_server s').
Proof.
  intros Hr Hstep. destruct (live_reach_server s Hr) as [H1 H2]. split; [done|].
  by apply live_step_server.
Qed.

(** ** Rounds end *)

(** Steps of the task itself and of its timers. *)
Definition own_action (i : nat) (a : LiveAction) : Prop :=
  (∃ now, a = LaTask i now) ∨ a = LaQueue i SaTimeout.

(** The task is at the head of its loop, or over. *)
Definition settled (s : Live) (i : nat) : Prop :=
  ∃ x engine run events sm, lv_conns s !! i = Some (LvStreaming x engine run events sm) ∧
    match run with AtSelect _ | TaskOver _ => True | _ => False end.

Definition can_settle (s : Live) (i : nat) : Prop :=
  ∃ actions s', Forall (own_action i) actions ∧ live_run dp actions s = Some s' ∧ settled s' i.

Lemma can_settle_step a s i s' :
  own_action i a → live_next dp a s = Some s' → can_settle s' i → can_settle s i.
Proof.
  intros Ha E (actions & s2 & H1 & H2 & H3). exists (a :: actions), s2.
  split_and!; [by constructor|cbn; by rewrite E|done].
Qed.

Lemma settled_can s i : settled s i → can_settle s i.
Proof. intros H. by exists [], s. Qed.

Lemma conn_here s pw i c c' :
  lv_conns s !! i = Some c → lv_conns (set_conn (set_pw s pw) i c') !! i = Some c'.
Proof. intros Hi. cbn. by rewrite list_lookup_insert_eq by (by eapply lookup_lt_Some). Qed.

Lemma go_on_live s i x engine run events sm now x' run' sm' pw' :
  lv_conns s !! i = Some (LvStreaming x engine run events sm) →
  go_on x run sm (lv_pw s) now = Some (x', run', sm', pw') →
  live_next dp (LaTask i now) s = Some (set_conn (set_pw s pw') i (LvStreaming x' engine run' events sm')).
Proof. intros Hi E. cbn. unfold streaming. rewrite Hi. cbn. by rewrite E. Qed.

(** The timer ends the wait for the queue. *)
Lemma timeout_live s i x engine run events sm :
  lv_conns s !! i = Some (LvStreaming x engine run events sm) →
  ∃ s' sm' r, live_next dp (LaQueue i SaTimeout) s = Some s' ∧
    lv_conns s' !! i = Some (LvStreaming x engine run events sm') ∧
    sm_enqueue sm' = EnqDone r ∧ sm_task sm' = sm_task sm.
Proof.
  intros Hi. cbn. unfold streaming. rewrite Hi. cbn.
  destruct (enqueue_timeout (pw_world (lv_pw s)) (sm_enqueue sm)) as [st1 w1] eqn:E. cbn.
  assert (∃ r, st1 = EnqDone r) as [r ->].
  { destruct (sm_enqueue sm); cbn in E; injection E as <- <-; eauto. }
  eexists _, _, r. split_and!; [done|by eapply conn_here|done|done].
Qed.

Lemma round_settles p : ∀ s i x engine events sm,
  lv_conns s !! i = Some (LvStreaming x engine (InRound p) events sm) →
  run_shape (InRound p) sm → can_settle s i.
Proof.
  induction p as [[t|t e]|m|[payload|] k IH]; intros s i x engine events sm Hi Hsh;
    pose proof Hsh as [[[[t0 slot] memory] Et] [r Er]].
  - eapply (can_settle_step (LaTask i 0)); [by left; eexists|by eapply go_on_live|].
    apply settled_can. eexists _, _, _, _, _. by split; [eapply conn_here|].
  - eapply (can_settle_step (LaTask i 0)); [by left; eexists|eapply go_on_live; [done|cbn; by rewrite Et]|].
    apply settled_can. eexists _, _, _, _, _. by split; [eapply conn_here|].
  - eapply (can_settle_step (LaTask i 0)); [by left; eexists|eapply go_on_live; [done|cbn; by rewrite Et]|].
    apply settled_can. eexists _, _, _, _, _. by split; [eapply conn_here|].
  - eapply (can_settle_step (LaTask i 0)); [by left; eexists|eapply go_on_live; [done|cbn; by rewrite Et, Er]|].
    edestruct timeout_live as (s2 & sm2 & r2 & E2 & Hi2 & Er2 & Et2); [by eapply conn_here|].
    eapply (can_settle_step (LaQueue i SaTimeout)); [by right|exact E2|].
    eapply (can_settle_step (LaTask i 0)); [by left; eexists|eapply go_on_live; [done|cbn; by rewrite Er2]|].
    eapply (IH r2); [by eapply conn_here|]. split; [rewrite Et2; cbn; eauto|eauto].
  - eapply (can_settle_step (LaTask i 0)); [by left; eexists|by eapply go_on_live|].
    eapply IH; [by eapply conn_here|done].
Qed.

(** C10: No task hangs: in every reachable state a stream whose task is in the
    middle of a round, also one that waits for a client that reads nothing, gets to
    the head of its loop or to its end by steps of the task and its timers
    alone. *)
Theorem live_rounds_end s i x engine run events sm :
  rtc (live_step dp) (live_start dp) s →
  lv_conns s !! i = Some (LvStreaming x engine run events sm) →
  can_settle s i.
Proof.
  intros Hr Hi. destruct (live_reach_server s Hr) as [_ Hs]. pose proof (live_shape_at s i _ Hs Hi) as Hsh.
  destruct run as [t|p|b k|e].
  - apply settled_can. by eexists _, _, _, _, _.
  - by eapply round_settles.
  - destruct (timeout_live _ _ _ _ _ _ _ Hi) as (s2 & sm2 & r2 & E2 & Hi2 & Er2 & Et2).
    eapply (can_settle_step (LaQueue i SaTimeout)); [by right|exact E2|].
    eapply (can_settle_step (LaTask i 0)); [by left; eexists|eapply go_on_live; [done|cbn; by rewrite Er2]|].
    eapply round_settles; [by eapply conn_here|]. split; [by rewrite Et2|eauto].
  - apply settled_can. by eexists _, _, _, _, _.
Qed.

End Simulation.
End Proofs.
