(* ===== verification/LiveStreams.v ===== *)
(** * What the streams of the proxy carry

    The history of a stream in [Live] is a run of its task: the answers its queue
    has given so far are replayed by a sink ([Replay]), and at any point, also in
    the middle of a round or of a call of [enqueue], what has entered the queue is
    what the task delivers to that sink.  So the theorems about the task hold of
    every stream in every interleaving. *)

From S2P Require Import Prelude Utf8 AhoCorasick Externals Receipt DoneDetector BudgetQueue BudgetQueueProofs Matching Engine EngineBoundary EngineProofs EngineTheorems Http HttpProofs Endpoints Proxy ProxyProofs ProxyTheorems Config ConfigProofs Watchers Effects Bootstrap BootstrapProofs Startup StartupProofs TaskProgram Server ServerProofs EndToEnd Live LiveProofs.
Local Open Scope Z_scope.

(** ** A sink that replays answers *)

(** What was delivered, and the answers still to give; a refusal lets some bytes
    through.  Without an answer left it refuses everything. *)
Record Replay := { rp_delivered : bytes; rp_script : list (Result EnqueueError unit * nat) }.

Definition replay_enqueue (s : Replay) (b : bytes) : Result EnqueueError unit * Replay :=
  match rp_script s with
  | [] => (Err EnqueueClosed, s)
  | (Ok _, _) :: script => (Ok tt, {| rp_delivered := rp_delivered s ++ b; rp_script := script |})
  | (Err e, n) :: script =>
    (Err e, {| rp_delivered := rp_delivered s ++ take n b; rp_script := script |})
  end.

#[global] Instance replay_sink : Sink Replay :=
  {| sink_enqueue := replay_enqueue; sink_delivered := rp_delivered |}.

#[global] Instance replay_laws : SinkLaws Replay.
Proof.
  split; cbn; unfold replay_enqueue; intros [d sc] s' b; cbn.
  - destruct sc as [|[[u|e] n] sc]; [done| |done]. by intros [= <-].
  - intros e. destruct sc as [|[[u|e'] n] sc]; [|done|]; intros [= <- <-]; cbn.
    + exists []. split; [apply prefix_nil|by rewrite app_nil_r].
    + exists (take n b). split; [|done]. exists (drop n b). by rewrite take_drop.
Qed.

Section Streams.
Context {rsa_api : RsaApi} {sig_api : Ed25519Api} {sig_laws : Ed25519Laws}
  {enc_api : EncodingApi} {enc_laws : EncodingLaws} {hdr_api : HeaderApi}
  {ac_api : AhoCorasickApi} {ac_laws : AhoCorasickLaws} {b3_api : Blake3Api} {b3_laws : Blake3Laws}
  {json_api : SerdeJsonApi} {cbor_api : CborApi} {rj_api : ReceiptJsonApi}
  {rj_laws : ReceiptJsonLaws} {sem_api : SemaphoreApi} {sem_laws : SemaphoreLaws}
  {tj_api : TerminalJsonApi}.

(** ** Rounds as runs *)

(** The moments [ms], then [mos]. *)
Fixpoint prepend (ms : list Moment) (mos : Moments) : Moments :=
  match ms with
  | [] => mos
  | mo :: ms => λ i, match i with O => mo | S i => prepend ms mos i end
  end.

Lemma prepend_app ms1 ms2 mos : prepend (ms1 ++ ms2) mos = prepend ms1 (prepend ms2 mos).
Proof. induction ms1 as [|mo ms1 IH]; [done|]. cbn. by rewrite IH. Qed.

Lemma prepend_all (P : Moment → Prop) ms mos :
  Forall P ms → (∀ i, P (mos i)) → ∀ i, P (prepend ms mos i).
Proof. intros Hms Hmos. induction Hms as [|mo ms Hmo _ IH]; [done|]. by intros [|i]; cbn. Qed.

(** The rest of a run after the round in which the task is. *)
Definition after (x : Ending TaskState * (Replay * Moments)) (evs : list (Moments * TaskEvent))
    : option (TaskState * Replay) :=
  match x with
  | (Returned (Running t), (σ, _)) => run_task t evs σ
  | (Returned (Ended t e), (σ, _)) => Some (Ended t e, σ)
  | _ => None
  end.

Lemma run_task_round t mos ev evs σ :
  run_task t ((mos, ev) :: evs) σ = after (outcome sink_outside (σ, mos) (task_round t ev)) evs.
Proof.
  cbn [run_task]. pose proof (task_round_runs t mos ev σ) as H.
  destruct (task_step t mos ev σ) as [[st σ']|]; cbn in H.
  - destruct H as [mos' ->]. by destruct st.
  - by destruct H as (m & σ' & ->).
Qed.

(** A task whose every send is refused delivers nothing more. *)
Lemma outcome_refused {A} (p : TaskProg A) d : ∀ mos,
  rp_delivered (outcome sink_outside ({| rp_delivered := d; rp_script := [] |}, mos) p).2.1 = d.
Proof. induction p as [a|m|[b|] k IH]; intros mos; [done|done| |]; apply IH. Qed.

(** ** Histories *)

Section Histories.
Context (t0 : Task).

Definition replaying (d : bytes) (script : list (Result EnqueueError unit * nat)) : Replay :=
  {| rp_delivered := d; rp_script := script |}.

(** The request hasher as the task has seen it when it looked. *)
Definition good (x : Exchange) (mo : Moment) : Prop :=
  ∃ k, k ∈ ex_looks x ∧ mo_request_hasher mo = upload hasher_new (take k (rq_body (ex_passed x))).

(** Rounds with the moments they have read. *)
Abbreviation Rounds := (list (list Moment * TaskEvent)).

Definition good_rounds (x : Exchange) (rs : Rounds) : Prop := Forall (λ r, Forall (good x) r.1) rs.

(** The rounds for [run_task]: a round reads no more than its moments. *)
Definition filled (mos : Moments) (rs : Rounds) : list (Moments * TaskEvent) :=
  (λ '(ms, ev), (prepend ms mos, ev)) <$> rs.

(** With the answers so far the task has taken [events] and delivered [d], and
    whatever comes next, the run goes on as the task itself does: from the head of
    its loop, with the program [p], or it is over. *)
Definition at_select (x : Exchange) (events : list TaskEvent) (t : Task) (d : bytes) : Prop :=
  ∃ rs sc, rs.*2 = events ∧ good_rounds x rs ∧
    ∀ mos evs sc', run_task t0 (filled mos rs ++ evs) (replaying [] (sc ++ sc')) =
      run_task t evs (replaying d sc').

Definition in_round (x : Exchange) (events : list TaskEvent) (p : TaskProg TaskState) (d : bytes)
    : Prop :=
  ∃ rs ms ev sc, rs.*2 ++ [ev] = events ∧ good_rounds x rs ∧ Forall (good x) ms ∧
    ∀ mos evs mos' sc',
      run_task t0 (filled mos rs ++ (prepend ms mos', ev) :: evs) (replaying [] (sc ++ sc')) =
      after (outcome sink_outside (replaying d sc', mos') p) evs.

Definition is_over (x : Exchange) (events : list TaskEvent) (e : TaskEnd) (d : bytes) : Prop :=
  ∃ rs sc t, rs.*2 = events ∧ good_rounds x rs ∧
    ∀ mos, run_task t0 (filled mos rs) (replaying [] sc) = Some (Ended t e, replaying d []).

Definition run_inv (x : Exchange) (run : TaskRun) (events : list TaskEvent) (s : Stream) : Prop :=
  match run with
  | AtSelect t => at_select x events t (sm_sent s)
  | InRound p => in_round x events p (sm_sent s)
  | InEnqueue b k => ∃ d,
      in_round x events (Act (CmdSend b : TaskCmd) k) d ∧ sm_accepted s = d ++ b ∧
      d `prefix_of` sm_sent s
  | TaskOver (Some e) => is_over x events e (sm_sent s)
  | TaskOver None => False
  end.

Lemma filled_app mos rs rs' : filled mos (rs ++ rs') = filled mos rs ++ filled mos rs'.
Proof. apply fmap_app. Qed.

Lemma at_select_start x : at_select x [] t0 [].
Proof. exists [], []. split_and!; [done|constructor|done]. Qed.

Lemma at_select_event x events t d ev :
  at_select x events t d → in_round x (events ++ [ev]) (task_round t ev) d.
Proof.
  intros (rs & sc & <- & Hg & Hrun). exists rs, [], ev, sc. split_and!; [done|done|constructor|].
  intros mos evs mos' sc'. cbn [prepend]. by rewrite Hrun, run_task_round.
Qed.

Lemma in_round_moment x events k d mo :
  in_round x events (Act (CmdMoment : TaskCmd) k) d → good x mo → in_round x events (k mo) d.
Proof.
  intros (rs & ms & ev & sc & <- & Hg & Hms & Hrun) Hmo. exists rs, (ms ++ [mo]), ev, sc.
  split_and!; [done|done|by apply Forall_app; split; [|apply Forall_singleton]|].
  intros mos evs mos' sc'. rewrite prepend_app. apply Hrun.
Qed.

(** The answer of the queue, and the bytes it has let through. *)
Definition answer_ok (b : bytes) (r : Result EnqueueError unit) (through : bytes) : Prop :=
  match r with Ok _ => through = b | Err _ => through `prefix_of` b end.

Lemma in_round_answer x events b k d r through :
  in_round x events (Act (CmdSend b : TaskCmd) k) d → answer_ok b r through →
  in_round x events (k r) (d ++ through).
Proof.
  intros (rs & ms & ev & sc & <- & Hg & Hms & Hrun) Ha.
  exists rs, ms, ev, (sc ++ [(r, length through)]). split_and!; [done|done|done|].
  intros mos evs mos' sc'. rewrite <-app_assoc, Hrun. cbn. unfold replay_enqueue. cbn.
  destruct r as [[]|e]; cbn in *; [by subst|].
  destruct Ha as [z ->]. by rewrite take_app_length.
Qed.

(** The round taken as complete. *)
Lemma in_round_closed x events p d :
  in_round x events p d →
  ∃ rs sc, rs.*2 = events ∧ good_rounds x rs ∧
    ∀ mos evs sc', run_task t0 (filled mos rs ++ evs) (replaying [] (sc ++ sc')) =
      after (outcome sink_outside (replaying d sc', mos) p) evs.
Proof.
  intros (rs & ms & ev & sc & <- & Hg & Hms & Hrun).
  exists (rs ++ [(ms, ev)]), sc. split_and!; [by rewrite fmap_app| |].
  - apply Forall_app. split; [done|]. by apply Forall_singleton.
  - intros mos evs sc'. rewrite filled_app, <-app_assoc. apply Hrun.
Qed.

Lemma in_round_running x events t d :
  in_round x events (Ret (Running t)) d → at_select x events t d.
Proof. intros (rs & sc & H1 & H2 & H3)%in_round_closed. by exists rs, sc. Qed.

Lemma in_round_ended x events t e d :
  in_round x events (Ret (Ended t e)) d → is_over x events e d.
Proof.
  intros (rs & sc & H1 & H2 & H3)%in_round_closed. exists rs, sc, t. split_and!; [done..|].
  intros mos. specialize (H3 mos [] []). by rewrite !app_nil_r in H3.
Qed.

(** The history of a stream: a run of the task that has delivered what has entered
    the queue. *)
Definition history (x : Exchange) (events : list TaskEvent) (d : bytes) : Prop :=
  ∃ rs sc, rs.*2 = events ∧ good_rounds x rs ∧
    ∀ mos state σ, run_task t0 (filled mos rs) (replaying [] sc) = Some (state, σ) → rp_delivered σ = d.

Lemma in_round_history x events p d : in_round x events p d → history x events d.
Proof.
  intros (rs & sc & H1 & H2 & H3)%in_round_closed. exists rs, sc. split_and!; [done..|].
  intros mos state σ. specialize (H3 mos [] []). rewrite !app_nil_r in H3. rewrite H3.
  pose proof (outcome_refused p d mos) as Ho. fold (replaying d []) in Ho.
  destruct (outcome _ _ p) as [[|[t|t e]|m] [σ' mos']]; cbn in *; try done; by intros [= <- <-].
Qed.

Lemma run_inv_history x run events s :
  run_inv x run events s → stream_ok s → history x events (sm_sent s).
Proof.
  intros Hr Hok. destruct run as [t|p|b k|[e|]]; cbn in Hr; [| | | |done].
  - destruct Hr as (rs & sc & H1 & H2 & H3). exists rs, sc. split_and!; [done..|].
    intros mos state σ. specialize (H3 mos [] []). rewrite !app_nil_r in H3. rewrite H3. by intros [= <- <-].
  - by eapply in_round_history.
  - destruct Hr as (d & Hr & Ha & [z Hz]). destruct (stream_ok_order s Hok) as (_ & Hp & _).
    rewrite Ha, Hz in Hp. apply prefix_app_inv in Hp.
    apply (in_round_answer _ _ _ _ _ (Err EnqueueClosed) z) in Hr; [|done].
    rewrite Hz. by eapply in_round_history.
  - destruct Hr as (rs & sc & t & H1 & H2 & H3). exists rs, sc. split_and!; [done..|].
    intros mos state σ. rewrite H3. by intros [= <- <-].
Qed.

(** ** The invariant is kept *)

(** The same request later: more is uploaded, and the task has looked again. *)
Definition later_exchange (x x' : Exchange) : Prop :=
  ex_request x' = ex_request x ∧ ex_passed x' = ex_passed x ∧ ex_prepared x' = ex_prepared x ∧
  ex_engine x' = ex_engine x ∧ ex_looks x `prefix_of` ex_looks x'.

Lemma later_refl x : later_exchange x x.
Proof. by split_and!. Qed.
Lemma later_upload x : later_exchange x (upload_one x).
Proof. by split_and!. Qed.
Lemma later_look x : later_exchange x (look x).
Proof. split_and!; try done. by apply prefix_app_r. Qed.

Lemma run_inv_later x x' run events s :
  later_exchange x x' → run_inv x run events s → run_inv x' run events s.
Proof.
  intros (_ & Ep & _ & _ & [more El]).
  assert (∀ ms, Forall (good x) ms → Forall (good x') ms) as Hms.
  { intros ms H. eapply Forall_impl; [exact H|]. intros mo (k & Hk & E). exists k.
    rewrite El, Ep. split; [apply elem_of_app; by left|done]. }
  assert (∀ rs, good_rounds x rs → good_rounds x' rs) as Hrs.
  { intros rs H. eapply Forall_impl; [exact H|]. intros r. apply Hms. }
  assert (∀ p d, in_round x events p d → in_round x' events p d) as K.
  { intros p d (rs & ms & ev & sc & H1 & H2 & H3 & H4). exists rs, ms, ev, sc. split_and!; auto. }
  destruct run as [t|p|b k|[e|]]; cbn; [| | | |done].
  - intros (rs & sc & H1 & H2 & H3). exists rs, sc. split_and!; auto.
  - apply K.
  - intros (d & H1 & H2 & H3). exists d. split_and!; auto.
  - intros (rs & sc & t & H1 & H2 & H3). exists rs, sc, t. split_and!; auto.
Qed.

Lemma good_look x now :
  good (look x) {| mo_now := now; mo_request_hasher := request_hasher x |}.
Proof. exists (ex_uploaded x). split; [|done]. apply elem_of_app. right. by apply list_elem_of_singleton. Qed.

(** The task never panics. *)
Definition steady : Prop := ∀ evs (σ : Replay), run_task t0 evs σ ≠ None.

Lemma in_round_steady x events m d : steady → ~ in_round x events (Panic m) d.
Proof.
  intros Hs (rs & sc & _ & _ & H)%in_round_closed.
  specialize (H (λ _, {| mo_now := 0; mo_request_hasher := hasher_new |}) [] []). by apply Hs in H.
Qed.

Lemma go_on_later x run s pw now x' run' s' pw' :
  go_on x run s pw now = Some (x', run', s', pw') → later_exchange x x'.
Proof.
  destruct run as [t|[[t|t e]|m|[b|] k]|b k|e]; cbn; intros E; try done.
  - injection E as <- <- <- <-. apply later_refl.
  - destruct (sm_task s) as [[[? ?] ?]|]; [|done]. injection E as <- <- <- <-. apply later_refl.
  - destruct (sm_task s) as [[[? ?] ?]|]; [|done]. injection E as <- <- <- <-. apply later_refl.
  - destruct (sm_task s), (sm_enqueue s); try done. injection E as <- <- <- <-. apply later_refl.
  - injection E as <- <- <- <-. apply later_look.
  - destruct (sm_enqueue s); try done. injection E as <- <- <- <-. apply later_refl.
Qed.

Lemma go_on_inv x run events s pw now x' run' s' pw' :
  go_on x run s pw now = Some (x', run', s', pw') → steady → stream_ok s → run_shape run s →
  run_inv x run events s → run_inv x' run' events s'.
Proof.
  intros E Hst Hok Hsh Hr. destruct run as [t|p|b k|e]; cbn in E, Hsh, Hr; [done| | |done].
  - destruct Hsh as [[[[t0' slot] memory] Et] [r0 Er]]. rewrite Et in E.
    destruct p as [[t|t e]|m|[b|] k]; cbn in E.
    + injection E as <- <- <- <-. by apply in_round_running.
    + injection E as <- <- <- <-. by eapply in_round_ended.
    + by apply in_round_steady in Hr.
    + rewrite Er in E. injection E as <- <- <- <-. cbn. exists (sm_sent s). done.
    + injection E as <- <- <- <-. apply in_round_moment; [|apply good_look].
      by apply (run_inv_later x (look x) (InRound _) events s (later_look x)).
  - destruct (sm_enqueue s) as [|sg todo|r] eqn:Er; try done. injection E as <- <- <- <-.
    destruct Hr as (d & Hr & Ha & [z Hz]). destruct (stream_ok_order s Hok) as (_ & Hp & Hd & _).
    cbn. rewrite Hz. apply (in_round_answer _ _ b); [done|]. rewrite Ha, Hz in *.
    destruct r as [[]|er]; cbn; [by specialize (Hd Er); simplify_list_eq|].
    by apply prefix_app_inv in Hp.
Qed.

Lemma queue_inv a x run events s w s' w' :
  stream_next a s w = Some (s', w') → (∀ data, a ≠ SaEnqueue data) → run_shape run s →
  run_inv x run events s → run_inv x run events s'.
Proof.
  intros E Ha Hsh. assert (sm_accepted s' = sm_accepted s ∧ sm_sent s `prefix_of` sm_sent s' ∧
    ∀ r, sm_enqueue s = EnqDone r → sm_sent s' = sm_sent s) as (H1 & H2 & H3).
  { destruct a; cbn in E; [by destruct (Ha data)| | | |].
    - destruct (enqueue_step _ _ _ _) as [[e ch] w1] eqn:Es. injection E as <- <-. cbn.
      split_and!; [done|by apply prefix_app_r|]. intros r Hr. rewrite Hr in Es.
      injection Es as <- <- <-. unfold newly_queued. by rewrite drop_all, app_nil_r.
    - destruct (enqueue_timeout _ _). by injection E as <- <-.
    - destruct (sm_body s) as [body|]; cbn in E; [|done].
      destruct (poll_frame _ _ _) as [[[f b1] ch] w1]. by injection E as <- <-.
    - destruct (sm_body s) as [body|]; cbn in E; [|done]. by injection E as <- <-. }
  destruct run as [t|p|b k|[e|]]; cbn in *; [| | | |done].
  - destruct Hsh as [_ [r Hr]]. by rewrite (H3 _ Hr).
  - destruct Hsh as [_ [r Hr]]. by rewrite (H3 _ Hr).
  - intros (d & H4 & H5 & H6). exists d. rewrite H1. split_and!; [done|done|by etrans].
  - destruct Hsh as [_ [r Hr]]. by rewrite (H3 _ Hr).
Qed.

End Histories.
End Streams.
