(* ===== verification/LiveTheorems.v ===== *)
(** * The proxy as a whole

    The start, the reloads, the router, the handler, the uploads, the tasks, the
    queues and the clients in every interleaving: where a stream comes from, what
    its client receives, and what a stream that has come to its end has delivered. *)

From S2P Require Import Prelude Utf8 AhoCorasick Externals Receipt DoneDetector BudgetQueue BudgetQueueProofs Matching Engine EngineBoundary EngineProofs EngineTheorems Http HttpProofs Endpoints Proxy ProxyProofs ProxyTheorems Config ConfigProofs Watchers Effects Bootstrap BootstrapProofs Startup StartupProofs TaskProgram Server ServerProofs EndToEnd Live LiveProofs LiveStreams.
Local Open Scope Z_scope.

#[global] Instance dyn_error_eq_dec : EqDecision DynError.
Proof. solve_decision. Defined.

Section Theorems.
Context {rsa_api : RsaApi} {sig_api : Ed25519Api} {sig_laws : Ed25519Laws}
  {enc_api : EncodingApi} {enc_laws : EncodingLaws} {hdr_api : HeaderApi}
  {ac_api : AhoCorasickApi} {ac_laws : AhoCorasickLaws} {b3_api : Blake3Api} {b3_laws : Blake3Laws}
  {json_api : SerdeJsonApi} {cbor_api : CborApi} {rj_api : ReceiptJsonApi}
  {rj_laws : ReceiptJsonLaws} {sem_api : SemaphoreApi} {sem_laws : SemaphoreLaws}
  {tj_api : TerminalJsonApi}.

(** ** Through the router *)

(** A proxy handler that answers with bytes of its choice, alone. *)
Definition answering (f : Request → bytes) : Handlers :=
  let none := λ _, empty_response StatusCode_OK in
  {| h_proxy r := {| rs_status := StatusCode_OK; rs_headers := []; rs_body := Full (f r) |};
     h_update_rules := none; h_metrics := none; h_attestation := none; h_fallback := none |}.

Lemma router_proxy st req :
  (∃ body, ∀ f, rs_body (make_router st (answering f) req) = body) ∨
  (∃ token, bearer_token req = Some token ∧ blake3_hash token ∈ auth_keyring st ∧
     ∀ f, rs_body (make_router st (answering f) req) =
       Full (f (set_tenant (set_body req (limited_stream 0 (rq_body req))) (blake3_hash token)))).
Proof.
  unfold make_router, cors_middleware, enforce_body_limit, routes. cbn zeta.
  repeat (match goal with |- context [if ?c then Err _ else _] => destruct c; [left; by eexists|] end).
  destruct (bool_decide (rq_method req = _)); [left; by eexists|].
  repeat (match goal with |- context [if ?c then Err _ else _] => destruct c; [left; by eexists|] end).
  cbn [into_response rs_body set_headers rq_path set_body].
  destruct (bool_decide (rq_path req = bstr "/_attestation")); [left; destruct (is_get _); eexists; intros f; cbn; done|].
  destruct (bool_decide (rq_path req = bstr "/v1/chat/completions")).
  2:{ left. repeat (case_bool_decide || destruct (is_post _) || destruct (is_get _)); eexists; intros f; cbn; done. }
  pose proof (λ f, require_auth_eq (auth_keyring st) (set_body req (limited_stream 0 (rq_body req)))
    (λ req, if is_post req then h_proxy (answering f) req else h_fallback (answering f) req)) as Ha.
  change (bearer_token (set_body req _)) with (bearer_token req) in Ha.
  destruct (bearer_token req) as [token|]; [|left; eexists; intros f; rewrite Ha; cbn; done].
  case_bool_decide as Hk; [|left; eexists; intros f; rewrite Ha; cbn; done].
  cbn beta in Ha. change (is_post (set_tenant _ _)) with (is_post req) in Ha.
  destruct (is_post req); [|left; eexists; intros f; rewrite Ha; cbn; done].
  right. exists token. split_and!; [done|done|]. intros f. by rewrite Ha.
Qed.

(** What reaches the proxy handler was authenticated, carries the tenant of its
    token and has a limited body. *)
Lemma reached_authenticated st req passed :
  reached st req passed →
  ∃ token, bearer_token req = Some token ∧ blake3_hash token ∈ auth_keyring st ∧
    rq_tenant passed = Some (blake3_hash token) ∧ rq_body passed = limited_stream 0 (rq_body req).
Proof.
  intros Hr. destruct (router_proxy st req) as [[body H]|(token & Ht & Hk & H)].
  - pose proof (Hr (answering (λ _, []))) as H1. pose proof (Hr (answering (λ _, [newline]))) as H2.
    rewrite H in H1, H2. cbn in H1, H2. congruence.
  - exists token. split_and!; [done|done| |].
    + pose proof (Hr (answering (λ r, match rq_tenant r with Some t => newline :: t | None => [] end))) as H1.
      rewrite H in H1. cbn in H1. destruct (rq_tenant passed); congruence.
    + pose proof (Hr (answering (λ r,
        if decide (rq_body r = limited_stream 0 (rq_body req)) then [] else [newline]))) as H1.
      rewrite H in H1. cbn in H1. rewrite decide_True in H1 by done. by case_decide.
Qed.

(** A reply that starts a stream. *)
Lemma after_send_started st p engine rh now slot memory pw res r t bb ch slot' memory' pw' :
  after_send st p engine rh now slot memory pw res = Some (Spawned r t bb ch slot' memory', pw') →
  ∃ headers, slot' = slot ∧ memory' = memory ∧
    start_stream st p engine headers slot memory pw = Some (Spawned r t bb ch slot memory, pw').
Proof.
  unfold after_send. destruct res as [status headers|e|]; [|done|done].
  destruct (negb (is_success status)); [by destruct (terminal_error_response _ _ _ _ _ _)|].
  intros E. exists headers. by destruct (EndDemo.start_stream_permits _ _ _ _ _ _ _ _ _ _ _ _ _ _ E) as [-> ->].
Qed.

(** An event of the key file leaves the keys or brings those of a text. *)
Lemma auth_event_text path t st event read :
  au_keyring (auth_event path t st event read) = au_keyring st ∨
  ∃ contents, reload_text path event read = Some contents ∧
    au_keyring (auth_event path t st event read) = hash_keyring contents.
Proof.
  unfold auth_event. destruct (reload_text path event read) as [contents|]; [|by left].
  case_bool_decide; [by left|]. right. by exists contents.
Qed.

(** ** Where streams come from *)

Section Invariant.
Context (b : Build) (pre : list {c : Cmd & Resp c}) (dp : Deployment).
Abbreviation st := (bs_app (dp_boot dp)).

(** The client has a token of the start or of the key file, and the request was
    passed on with its tenant and a limited body. *)
Definition entered (key_log : list FileEvent) (req passed : Request) : Prop :=
  ∃ token source, bearer_token req = Some token ∧ blake3_hash token ∈ hash_keyring source ∧
    key_text b pre (dp_keys dp) key_log source ∧ rq_tenant passed = Some (blake3_hash token) ∧
    rq_body passed = limited_stream 0 (rq_body req).

Definition first_cells : RulesCells := lv_rules (live_start dp).

(** [engine] was in force at some point, and [engine'] then or later. *)
Definition rules_between (log : list RulesInput) (engine engine' : EngineState) : Prop :=
  ∃ inputs inputs' cells cells', inputs ++ inputs' `prefix_of` log ∧
    rules_run (dp_rules dp) first_cells inputs = Some cells ∧ ru_engine (rc_rules cells) = engine ∧
    rules_run (dp_rules dp) cells inputs' = Some cells' ∧ ru_engine (rc_rules cells') = engine'.

Definition exchange_ok (key_log : list FileEvent) (x : Exchange) : Prop :=
  entered key_log (ex_request x) (ex_passed x) ∧
  ∃ ext, prepare (dp_env dp) (ex_engine x) ext (ex_passed x) = Some (ex_prepared x).

(** The stream of a task that was started with these rules; what happened to it is a
    run of the task unless the task can panic. *)
Definition stream_inv (x : Exchange) (engine : EngineState) (run : TaskRun)
    (events : list TaskEvent) (sm : Stream) : Prop :=
  ∃ t headers slot memory pw r bb ch pw',
    start_stream st (ex_prepared x) engine headers slot memory pw
      = Some (Spawned r t bb ch slot memory, pw') ∧
    (steady t → run_inv t x run events sm).

Definition conn_inv (key_log : list FileEvent) (rule_log : list RulesInput) (c : LiveConn) : Prop :=
  match c with
  | LvArrived req passed => entered key_log req passed
  | LvWaiting x _ =>
      exchange_ok key_log x ∧ rules_between rule_log (ex_engine x) (ex_engine x)
  | LvStreaming x engine run events sm =>
      exchange_ok key_log x ∧ rules_between rule_log (ex_engine x) engine ∧
      stream_inv x engine run events sm
  | LvClosed => True
  end.

Record live_inv (s : Live) : Prop := {
  li_keys : ∃ source, key_text b pre (dp_keys dp) (lv_key_log s) source ∧
                      lv_keys s = hash_keyring source;
  li_rules : rules_run (dp_rules dp) first_cells (lv_rule_log s) = Some (lv_rules s);
  li_texts : Forall text_input (lv_rule_log s);
  li_conns : Forall (conn_inv (lv_key_log s) (lv_rule_log s)) (lv_conns s)
}.

Lemma rules_run_app path cells inputs inputs' :
  rules_run path cells (inputs ++ inputs') =
  (cells ← rules_run path cells inputs; rules_run path cells inputs').
Proof.
  revert cells. induction inputs as [|input inputs IH]; intros cells; [done|]. cbn.
  destruct (rules_step path cells input) as [cells1|]; cbn; [apply IH|done].
Qed.

(** Logs only grow. *)
Lemma entered_mono kl kl' req passed :
  kl `prefix_of` kl' → entered kl req passed → entered kl' req passed.
Proof.
  intros [more ->] (token & source & H1 & H2 & H3 & H4 & H5). exists token, source. split_and!; try done.
  destruct H3 as [H3|(input & Hin & H3)]; [by left|]. right. exists input. split; [|done].
  apply elem_of_app. by left.
Qed.

Lemma conn_inv_mono kl kl' rl rl' c :
  kl `prefix_of` kl' → rl `prefix_of` rl' → conn_inv kl rl c → conn_inv kl' rl' c.
Proof.
  intros Hk Hr. pose proof (λ req passed, entered_mono kl kl' req passed Hk) as He.
  assert (∀ e e', rules_between rl e e' → rules_between rl' e e') as Hb.
  { intros e e' (i1 & i2 & c1 & c2 & H1 & H2). exists i1, i2, c1, c2. split; [by etrans|done]. }
  unfold conn_inv, exchange_ok. destruct c; naive_solver.
Qed.

Lemma conns_inv_mono kl kl' rl rl' cs :
  kl `prefix_of` kl' → rl `prefix_of` rl' → Forall (conn_inv kl rl) cs → Forall (conn_inv kl' rl') cs.
Proof. intros Hk Hr H. eapply Forall_impl; [exact H|]. intros c. by apply conn_inv_mono. Qed.

Lemma conn_inv_at s i c : live_inv s → lv_conns s !! i = Some c → conn_inv (lv_key_log s) (lv_rule_log s) c.
Proof. intros [_ _ _ H] Hi. by eapply Forall_lookup_1 in Hi. Qed.

(** One connection changes, and what is shared with it. *)
Lemma live_inv_set s pw i c :
  live_inv s → conn_inv (lv_key_log s) (lv_rule_log s) c → live_inv (set_conn (set_pw s pw) i c).
Proof. intros [H1 H2 H3 H4] Hc. split; [done|done|done|]. by apply Forall_insert. Qed.

(** The rules in force now, after those of an earlier point. *)
Lemma rules_now_between s engine :
  live_inv s → rules_between (lv_rule_log s) engine engine →
  rules_between (lv_rule_log s) engine (current_engine s).
Proof.
  intros [_ Hrun _ _] (i1 & i2 & c1 & c2 & [more E] & H1 & H2 & H3 & H4).
  rewrite E, <-app_assoc, rules_run_app, H1 in Hrun. cbn in Hrun.
  exists i1, (i2 ++ more), c1, (lv_rules s). split_and!; [|done|done|done|done].
  by rewrite E, app_assoc.
Qed.

Lemma rules_now s : live_inv s → rules_between (lv_rule_log s) (current_engine s) (current_engine s).
Proof.
  intros [_ Hrun _ _]. exists (lv_rule_log s), [], (lv_rules s), (lv_rules s).
  by rewrite app_nil_r.
Qed.

Lemma between_wf s engine engine' :
  live_inv s → engine_wf (ru_engine (bs_rules (dp_boot dp))) →
  rules_between (lv_rule_log s) engine engine' → no_empty_pattern engine' → engine_wf engine'.
Proof.
  intros [_ _ Ht _] Hwf (i1 & i2 & c1 & c2 & [more E] & H1 & <- & H3 & <-).
  rewrite E in Ht. apply Forall_app in Ht as [[Ht1 Ht2]%Forall_app _].
  eapply rules_run_nonempty; [exact H3|done|]. eapply rules_run_nonempty; [exact H1|done|]. by intros _.
Qed.

Lemma started_steady p engine headers slot memory pw r t bb ch pw' :
  start_stream st p engine headers slot memory pw = Some (Spawned r t bb ch slot memory, pw') →
  engine_wf engine → steady t.
Proof.
  intros E Hwf evs σ.
  destruct (task_run_spec _ _ _ _ _ _ _ _ _ _ _ _ evs σ E Hwf) as (state & s' & outs & log & Hrun & _).
  by rewrite Hrun.
Qed.

(** The streams of [s] are those of a reachable server. *)
Definition streams_ok (s : Live) : Prop :=
  ∀ i x engine run events sm,
    lv_conns s !! i = Some (LvStreaming x engine run events sm) → stream_ok sm ∧ run_shape run sm.

(** A change of the stream that keeps the run. *)
Lemma stream_conn_inv s i x engine run events sm x' run' events' sm' :
  live_inv s → lv_conns s !! i = Some (LvStreaming x engine run events sm) →
  later_exchange x x' →
  (∀ t, steady t → run_inv t x run events sm → run_inv t x' run' events' sm') →
  conn_inv (lv_key_log s) (lv_rule_log s) (LvStreaming x' engine run' events' sm').
Proof.
  intros Hinv Hi Hx Hr. destruct (conn_inv_at _ _ _ Hinv Hi)
    as (He & Hb & (t & hd & sl & me & pw & r & bb & ch & pw' & Hstart & Hrun)).
  destruct Hx as (E1 & E2 & E3 & E4 & _). cbn. unfold exchange_ok, stream_inv in *. rewrite E1, E2, E3, E4. split_and!; [apply He..|done|].
  exists t, hd, sl, me, pw, r, bb, ch, pw'. split; [done|]. intros Hst. by apply Hr, Hrun.
Qed.

Lemma handler_next_inv action s s' :
  of_handler action = true → live_next dp action s = Some s' → live_inv s → live_inv s'.
Proof.
  intros Hh E Hinv. destruct action as [i ext|i|i|i|i|i now res|i ev|i now|i a|[event read]]; cbn in E; try done; clear Hh.
  - destruct (lv_conns s !! i) as [[req passed| | |]|] eqn:Hi; try done.
    pose proof (conn_inv_at _ _ _ Hinv Hi) as Hc.
    destruct (prepare _ _ _ _) as [p|] eqn:Ep; injection E as <-;
      apply (live_inv_set s (lv_pw s)); try done. split; [|by apply rules_now].
    split; [done|]. by exists ext.
  - destruct (waiting s i) as [[x a]|] eqn:Hi; cbn in E; [|done]. apply waiting_at in Hi.
    destruct (admit_step _ _ _) as [a' w]. injection E as <-.
    apply live_inv_set; [done|]. exact (conn_inv_at _ _ _ Hinv Hi).
  - destruct (waiting s i) as [[x a]|] eqn:Hi; cbn in E; [|done]. apply waiting_at in Hi.
    destruct (admit_timeout _ _) as [a' w]. injection E as <-.
    apply live_inv_set; [done|]. exact (conn_inv_at _ _ _ Hinv Hi).
  - destruct (lv_conns s !! i) as [[| | |]|]; try done; injection E as <-.
    + by apply (live_inv_set s (lv_pw s)).
    + by apply live_inv_set.
  - destruct (waiting s i) as [[x a]|] eqn:Hi; cbn in E; [|done]. apply waiting_at in Hi.
    destruct (conn_inv_at _ _ _ Hinv Hi) as [He Hb]. destruct a as [| |slot memory|]; try done.
    destruct (after_send _ _ _ _ _ _ _ _ _) as [[out pw]|] eqn:Ea; cbn in E; [|done]. injection E as <-.
    apply live_inv_set; [done|]. destruct out as [r|r t bb ch slot' memory']; [done|].
    destruct (after_send_started _ _ _ _ _ _ _ _ _ _ _ _ _ _ _ _ Ea) as (headers & -> & -> & Hs).
    split_and!; [done|by apply rules_now_between|].
    exists t, headers, slot, memory, (lv_pw s), r, bb, ch, pw. split; [done|].
    intros _. apply at_select_start.
Qed.

Lemma stream_next_inv action s s' :
  of_handler action = false → live_next dp action s = Some s' → streams_ok s → live_inv s → live_inv s'.
Proof.
  intros Hh E Hok Hinv. destruct action as [i ext|i|i|i|i|i now res|i ev|i now|i a|[event read]]; cbn in E; try done; clear Hh.
  - destruct (lv_conns s !! i) as [[|x []|x engine run events sm|]|] eqn:Hi; try done; injection E as <-;
      apply (live_inv_set s (lv_pw s)); try done; [exact (conn_inv_at _ _ _ Hinv Hi)|].
    eapply stream_conn_inv; [done|done|apply later_upload|]. intros t _. apply run_inv_later, later_upload.
  - destruct (streaming s i) as [[[[[x engine] run] events] sm]|] eqn:Hi; cbn in E; [|done].
    apply streaming_at in Hi. destruct run as [t| | |]; try done.
    assert (s' = set_conn s i (LvStreaming x engine (InRound (task_round t ev)) (events ++ [ev]) sm)) as ->
      by (destruct ev; [destruct (ch_receiver _); [done|]|..]; by injection E as <-).
    apply (live_inv_set s (lv_pw s)); [done|]. eapply stream_conn_inv; [done|done|apply later_refl|].
    intros t0 _. apply at_select_event.
  - destruct (streaming s i) as [[[[[x engine] run] events] sm]|] eqn:Hi; cbn in E; [|done].
    apply streaming_at in Hi. destruct (Hok _ _ _ _ _ _ Hi) as [Hsm Hsh].
    destruct (go_on _ _ _ _ _) as [[[[x' run'] sm'] pw']|] eqn:Eg; cbn in E; [|done]. injection E as <-.
    apply live_inv_set; [done|]. eapply stream_conn_inv; [done|done|by eapply go_on_later|].
    intros t Hst Hr. by eapply go_on_inv.
  - destruct (streaming s i) as [[[[[x engine] run] events] sm]|] eqn:Hi; cbn in E; [|done].
    apply streaming_at in Hi. destruct (Hok _ _ _ _ _ _ Hi) as [Hsm Hsh].
    destruct (stream_next a sm (pw_world (lv_pw s))) as [[sm' w]|] eqn:En; [|by destruct a].
    assert (∀ data, a ≠ SaEnqueue data) as Ha by (by intros data ->).
    assert (s' = set_conn (set_world s w) i (LvStreaming x engine run events sm')) as ->
      by (destruct a; cbn in E; congruence).
    apply live_inv_set; [done|]. eapply stream_conn_inv; [done|done|apply later_refl|].
    intros t _ Hr. by eapply queue_inv.
  - destruct (watcher_panic _ _ _); [done|]. injection E as <-.
    destruct Hinv as [(source & Hs & Hk) H2 H3 H4]. split; cbn; [|done|done|].
    + destruct (auth_event_text (dp_keys dp) (tenant_budgets st)
        {| au_keyring := lv_keys s; au_world := pw_world (lv_pw s) |} event read) as [Ek|(contents & Hc & Ek)];
        rewrite Ek; cbn.
      * exists source. split; [|done]. destruct Hs as [Hs|(input & Hin & Hs)]; [by left|].
        right. exists input. split; [|done]. apply elem_of_app. by left.
      * exists contents. split; [|done]. right. exists (event, read). split; [|done].
        apply elem_of_app. right. by apply list_elem_of_singleton.
    + eapply conns_inv_mono; [| |exact H4]; [by apply prefix_app_r|done].
Qed.

Lemma live_next_inv action s s' :
  live_next dp action s = Some s' → streams_ok s → live_inv s → live_inv s'.
Proof.
  intros E Hok. destruct (of_handler action) eqn:Eh; [by eapply handler_next_inv|by eapply stream_next_inv].
Qed.

Lemma live_step_inv s s' : live_step dp s s' → streams_ok s → live_inv s → live_inv s'.
Proof.
  intros [s0 req passed Hreach|s0 input cells Hin Hr|s0 action s1 E] Hok Hinv;
    [| |by eapply live_next_inv].
  - destruct Hinv as [(source & Hs & Hk) H2 H3 H4]. split; cbn; [by exists source|done|done|].
    apply Forall_app. split; [done|]. apply Forall_singleton. cbn.
    destruct (reached_authenticated _ _ _ Hreach) as (token & G1 & G2 & G3 & G4). cbn in G2.
    rewrite Hk in G2. by exists token, source.
  - destruct Hinv as [H1 H2 H3 H4]. split; cbn [lv_conns lv_keys lv_rules lv_key_log lv_rule_log]; [done| | |].
    + rewrite rules_run_app, H2. cbn [mbind option_bind rules_run]. by rewrite Hr.
    + apply Forall_app. split; [done|by apply Forall_singleton].
    + eapply conns_inv_mono; [| |exact H4]; [done|by apply prefix_app_r].
Qed.
End Invariant.

(** ** Reachable states *)

Section Reachable.
Context (b : Build) (tr : list {c : Cmd & Resp c}) (sv : Serving) (dp : Deployment).
Hypothesis booted : exec (boot b) tr (Returned sv).
Hypothesis texts : forallb text_event tr = true.
Hypothesis deployed : dp_boot dp = sv_state sv.

Lemma reachable_streams s :
  rtc (live_step dp) (live_start dp) s → streams_ok s ∧
  ∀ i x engine run events sm, lv_conns s !! i = Some (LvStreaming x engine run events sm) →
    is_Some (sm_task sm) → ch_sender (sm_channel sm) = true.
Proof.
  intros Hr. destruct (live_reach_server dp s Hr) as [Hs Hsh]. rewrite deployed in Hs.
  assert (∀ i x engine run events sm, lv_conns s !! i = Some (LvStreaming x engine run events sm) →
    stream_ok sm ∧ (is_Some (sm_task sm) → ch_sender (sm_channel sm) = true)) as K.
  { intros i x engine run events sm Hi. eapply (served_stream b tr sv (as_server s) i sm); [done..|].
    apply (as_server_conn s i _ Hi). }
  split; [|intros; by eapply K]. intros i x engine run events sm Hi.
  destruct (K _ _ _ _ _ _ Hi) as [H1 _]. split; [done|]. exact (live_shape_at s i _ Hsh Hi).
Qed.

Lemma reachable_inv :
  ∃ pre, pre `prefix_of` tr ∧ secured b pre (dp_boot dp) ∧
    engine_wf (ru_engine (bs_rules (dp_boot dp))) ∧
    ∀ s, rtc (live_step dp) (live_start dp) s → live_inv b pre dp s.
Proof.
  destruct (boot_secured _ _ _ booted) as (pre & Hpre & Hsec). rewrite <-deployed in Hsec.
  pose proof (boot_rules_wf _ _ _ _ texts Hpre Hsec) as Hwf.
  exists pre. split_and!; [done|done|done|]. apply rtc_ind_r.
  - destruct (se_tokens _ _ _ Hsec) as (source & Hs & Hk & _).
    split; cbn; [|done|constructor|constructor]. exists source. split; [by left|done].
  - intros s1 s2 Hr Hstep IH. apply (live_step_inv b pre dp s1 s2 Hstep); [|done].
    by apply reachable_streams.
Qed.

(** A stream of a reachable state, with the run of its task. *)
Lemma reachable_stream s i x engine run events sm :
  rtc (live_step dp) (live_start dp) s →
  lv_conns s !! i = Some (LvStreaming x engine run events sm) →
  ∃ pre, pre `prefix_of` tr ∧ secured b pre (dp_boot dp) ∧
    (no_empty_pattern engine → engine_wf engine) ∧ stream_ok sm ∧
    exchange_ok b pre dp (lv_key_log s) x ∧ rules_between dp (lv_rule_log s) (ex_engine x) engine ∧
    stream_inv dp x engine run events sm.
Proof.
  intros Hr Hi. destruct reachable_inv as (pre & Hpre & Hsec & Hwf & Hinv). specialize (Hinv s Hr).
  destruct (conn_inv_at _ _ _ _ _ _ Hinv Hi) as (He & Hb & Hs). exists pre. split_and!; try done.
  - by eapply between_wf.
  - by eapply (proj1 (reachable_streams s Hr)).
Qed.

(** What the task has seen of the upload, or would see now. *)
Lemma met_good x rs now mo :
  good_rounds x rs →
  met (filled (λ _, {| mo_now := now; mo_request_hasher := request_hasher x |}) rs) mo →
  ∃ k, (k ∈ ex_looks x ∨ k = ex_uploaded x) ∧
       hasher_finalize (mo_request_hasher mo) = blake3_hash (sent_bytes (take k (rq_body (ex_passed x)))).
Proof.
  intros Hg (mos & i & ([mos' ev] & -> & Hin)%list_elem_of_fmap & ->).
  apply list_elem_of_fmap in Hin as ([ms ev'] & [= -> ->] & Hin).
  unfold good_rounds in Hg. rewrite Forall_forall in Hg. specialize (Hg _ Hin).
  assert (∃ k, (k ∈ ex_looks x ∨ k = ex_uploaded x) ∧ ∀ mo', mo' =
      prepend ms (λ _, {| mo_now := now; mo_request_hasher := request_hasher x |}) i →
      mo_request_hasher mo' = upload hasher_new (take k (rq_body (ex_passed x)))) as (k & Hk & E).
  { apply (prepend_all (λ mo, ∃ k, (k ∈ ex_looks x ∨ k = ex_uploaded x) ∧ ∀ mo', mo' = mo →
      mo_request_hasher mo' = upload hasher_new (take k (rq_body (ex_passed x))))).
    - eapply Forall_impl; [exact Hg|]. intros mo (k & Hk & E). exists k. split; [by left|by intros ? ->].
    - intros _. exists (ex_uploaded x). split; [by right|by intros ? ->]. }
  exists k. split; [done|]. cbn. rewrite (E _ eq_refl).
  apply absorbed_finalize. apply (upload_absorbed _ hasher_new []). apply absorbed_new.
Qed.

End Reachable.

(** C1: The whole proxy, in every interleaving: after a successful start, whatever
    requests arrive, whatever files change and administrators post, and however
    uploads, tasks, timers and clients take turns, a stream belongs to a request
    that the router passed on for a token of the key source of the start or of a
    text of the key file, with a body cut off at the limit, and what its client has
    received is a prefix of what entered its queue.  If no pattern of the rules in
    force when the reply came is empty (an administrator may post an empty one), the
    task has not panicked, and what entered the queue is a prefix of a log, perhaps
    with part of one terminal error.  The text of the log is redacted with these
    rules, in order; the log has at most one receipt, which verifies under the key
    attested at the start, for this client's tenant, the bytes of its request that
    had been uploaded when the task looked, and the rules in force when the request
    was prepared, never later ones. *)
Theorem live_end_to_end b tr sv dp s i x engine run events sm :
  exec (boot b) tr (Returned sv) → forallb text_event tr = true → dp_boot dp = sv_state sv →
  rtc (live_step dp) (live_start dp) s →
  lv_conns s !! i = Some (LvStreaming x engine run events sm) →
  ∃ token source pre,
    bearer_token (ex_request x) = Some token ∧ blake3_hash token ∈ hash_keyring source ∧
    pre `prefix_of` tr ∧ key_text b pre (dp_keys dp) (lv_key_log s) source ∧
    rq_body (ex_passed x) = limited_stream 0 (rq_body (ex_request x)) ∧
    rules_between dp (lv_rule_log s) (ex_engine x) engine ∧
    sm_received sm `prefix_of` sm_sent sm ∧
    (no_empty_pattern engine → run ≠ TaskOver None ∧
     ∃ outs log u v, sm_sent sm = u ++ v ∧ u `prefix_of` wire log ∧
       (v = [] ∨ ∃ reason, v `prefix_of` terminal_frame reason) ∧
       payload log `prefix_of` render outs ∧ Forall (clean_segment engine) outs ∧
       (receipts log ≤ 1)%nat ∧
       ∀ frame, AuditReceipt frame ∈ log →
         trusted_receipt b pre (dp_boot dp) (dp_env dp) (ex_engine x) (rq_body (ex_passed x))
           (λ k, k ∈ ex_looks x ∨ k = ex_uploaded x) token frame).
Proof.
  intros Hboot Htext Hdp Hr Hi.
  destruct (reachable_stream b tr sv dp Hboot Htext Hdp s i x engine run events sm Hr Hi)
    as (pre & Hpre & Hsec & Hwf & Hok & [(token & source & Et & Ek & Hsrc & Hten & Hbody) [ext Hprep]] & Hb &
      (t & hd & sl & me & pw & r & bb & ch & pw' & Hstart & Hrun)).
  destruct (stream_ok_order sm Hok) as (Ho & _).
  exists token, source, pre. split_and!; try done. intros Hne. specialize (Hwf Hne).
  specialize (Hrun (started_steady dp _ _ _ _ _ _ _ _ _ _ _ Hstart Hwf)).
  destruct (run_inv_history _ _ _ _ _ Hrun Hok) as (rs & sc & _ & Hg & Hd).
  set (mos := λ _ : nat, {| mo_now := 0; mo_request_hasher := request_hasher x |}).
  destruct (task_run_spec _ _ _ _ _ _ _ _ _ _ _ _ (filled mos rs) (replaying [] sc) Hstart Hwf)
    as (state & σ & outs & log & H1 & H2 & (u & v & H3 & H4 & H5 & H6) & H7 & H8 & _).
  specialize (Hd _ _ _ H1). cbn in H3. rewrite Hd in H3.
  destruct (prepare_fields _ _ _ _ _ _ Hprep Hten) as (P1 & P2 & P3).
  split; [by intros ->|]. exists outs, log, u, v. split_and!; try done.
  intros frame Hin. destruct (H6 _ Hin) as (mo & ph & Hmo & Hf).
  destruct (met_good x rs 0 mo Hg Hmo) as (k & Hk1 & Hk).
  eexists _, (mo_now mo), k. split; [done|]. split; [|split; [by apply audit_frame_verified|]]; cbn.
  - by rewrite Hk.
  - rewrite P1. split_and!; try done. apply Hsec.
Qed.

(** ** Streams that have come to their end *)

(** What upstream had sent when the task saw the end of the reply. *)
Fixpoint taken_chunks (events : list TaskEvent) : list bytes :=
  match events with
  | EvItem (Some (Ok c)) :: events => c :: taken_chunks events
  | EvShutdown false :: events => taken_chunks events
  | _ => []
  end.

Lemma chunks_of_taken rs : chunks_of rs = taken_chunks rs.*2.
Proof.
  induction rs as [|[mos [|[]| |[[c|]|]]] rs IH]; cbn; try done. by rewrite IH.
Qed.

Lemma filled_events mos rs : (filled mos rs).*2 = rs.*2.
Proof. unfold filled. rewrite <-list_fmap_compose. by apply list_fmap_ext; intros ? [ms ev]. Qed.

(** C2: In every interleaving, a stream whose task has ended normally after the end
    of the upstream reply, and whose body has ended for its client, has delivered
    everything: what the client has received is, apart from at most one receipt,
    exactly the one-shot redaction of all that upstream sent, with the rules in
    force when the reply came.  The conditions are those of [stream_equals_one_shot]:
    the rules are those of a vault without empty patterns that fit into the buffer;
    the reply is UTF-8 and [separated] for them, so that occurrences do not overlap
    and no part of a pattern runs past the end of one; and no chunk ends inside a
    pattern in another case. *)
Theorem live_delivers b tr sv dp s i x engine events sm body ps rs v :
  exec (boot b) tr (Returned sv) → forallb text_event tr = true → dp_boot dp = sv_state sv →
  rtc (live_step dp) (live_start dp) s →
  lv_conns s !! i = Some (LvStreaming x engine (TaskOver (Some (EndFinished true))) events sm) →
  sm_body sm = Some body → is_end_stream body = true →
  PiiVault_new ps rs = Some v → pv_engine_state v = engine → rules_ok ps rs = true →
  Z.of_nat (max_len ps) + 3 ≤ DEFAULT_MAX_BUFFER_CAPACITY →
  let chunks := taken_chunks events in
  separated ps (concat chunks) → valid_utf8 (concat chunks) = true →
  chunks_exact ps [] chunks = true →
  ∃ log c, sm_received sm = wire log ∧ redact_text (concat chunks) v = Some c ∧
    payload log = cow_bytes c ∧ (receipts log ≤ 1)%nat.
Proof.
  intros Hboot Htext Hdp Hr Hi Hbody Hend Hv Heng Hrules Hcap chunks Hsep Hutf Hex.
  destruct (reachable_stream b tr sv dp Hboot Htext Hdp s i _ _ _ _ _ Hr Hi)
    as (pre & _ & _ & Hwf & Hok & _ & _ & (t & hd & sl & me & pw & r & bb & ch & pw' & Hstart & Hrun)).
  assert (engine_wf engine) as Hwf'.
  { apply (EngineState_new_wf ps rs); [|done]. apply PiiVault_new_engine in Hv as [Hv _]. by rewrite <-Heng. }
  destruct (Hrun (started_steady dp _ _ _ _ _ _ _ _ _ _ _ Hstart Hwf')) as (rds & sc & t' & Hev & _ & Hrun').
  set (mos := λ _ : nat, {| mo_now := 0; mo_request_hasher := hasher_new |}). specialize (Hrun' mos).
  destruct (task_run_spec _ _ _ _ _ _ _ _ _ _ _ _ (filled mos rds) (replaying [] sc) Hstart Hwf')
    as (state & σ & outs & log & H1 & _ & _ & _ & Hrec & Hfin).
  rewrite Hrun' in H1. injection H1 as <- <-.
  destruct (Hfin t' eq_refl) as (H2 & H3 & r' & H4). cbn in H2.
  rewrite chunks_of_taken, filled_events, Hev in H4. fold chunks in H4.
  destruct (stream_ok_order sm Hok) as (_ & _ & _ & _ & Ho).
  destruct (Ho body Hbody) as [_ Hrcv]. destruct (Hrcv Hend) as [Hrcv' _].
  subst engine. destruct (started_one_shot _ _ _ _ _ _ _ _ _ _ _ _ _ _ _ Hv Hrules Hsep Hcap Hstart Hutf Hex)
    as (out & r2 & c & Hout & Hc & Ec). rewrite H4 in Hout. injection Hout as -> ->.
  exists log, c. split_and!; [congruence|done|by rewrite H3|done].
Qed.

End Theorems.

(** ** A concrete run *)

Import StartDemo ServerDemo EndDemo.
Import (hints) BootDemo Transparent AsciiHeaders NaiveSearch CounterSemaphore EndpointDemo TransparentReceipt ProxyDemo.

Module LiveDemo.
Definition visitor : Request := {|
  rq_method := bstr "POST"; rq_path := bstr "/v1/chat/completions";
  rq_headers := [(bstr "authorization", bstr "Bearer client-token")]; rq_tenant := None;
  rq_body := [Ok (bstr "a question")]
|}.
Definition passed : Request := set_tenant visitor (bstr "client-token").

Definition deployment (sv : Serving) : Deployment := {|
  dp_boot := sv_state sv; dp_env := environment; dp_notify := watching;
  dp_keys := [Normal (bstr "keys")]; dp_rules := rule_path
|}.

(** An administrator's post, then the visitor's request. *)
Definition post : RulesInput := AdminPost [bstr "password"].
Definition posted (s : Live) : option Live :=
  cells ← rules_step rule_path (lv_rules s) post;
  Some {| lv_pw := lv_pw s; lv_conns := lv_conns s; lv_keys := lv_keys s; lv_rules := cells;
          lv_key_log := lv_key_log s; lv_rule_log := lv_rule_log s ++ [post] |}.
Definition arrived (s : Live) : Live :=
  {| lv_pw := lv_pw s; lv_conns := lv_conns s ++ [LvArrived visitor passed]; lv_keys := lv_keys s;
     lv_rules := lv_rules s; lv_key_log := lv_key_log s; lv_rule_log := lv_rule_log s |}.

(** The task of the first connection goes on, with its queue, until it waits. *)
Fixpoint settle (fuel : nat) (dp : Deployment) (s : Live) : Live :=
  match fuel with
  | O => s
  | S fuel =>
    match live_next dp (LaTask 0 0) s with
    | Some s => settle fuel dp s
    | None =>
      match streaming s 0 with
      | Some (_, _, InEnqueue _ _, _, _) =>
        match live_next dp (LaQueue 0 SaPoll) s with Some s => settle fuel dp s | None => s end
      | _ => s
      end
    end
  end.

(** A reply in chunks, each read to the end of the round, and its end. *)
Fixpoint reply (dp : Deployment) (items : list TaskEvent) (s : Live) : option Live :=
  match items with
  | [] => Some s
  | ev :: items => s ← live_next dp (LaEvent 0 ev) s; reply dp items (settle 40 dp s)
  end.

Definition chunks : list TaskEvent :=
  [EvItem (Some (Ok (bstr "data: my pass"))); EvItem (Some (Ok (bstr "word data: [DO")));
   EvItem (Some (Ok (bstr "NE]"))); EvItem None].

Definition opened (sv : Serving) : option Live :=
  let dp := deployment sv in
  s ← posted (live_start dp);
  live_run dp [LaPrepare 0 None; LaAdmit 0; LaAdmit 0; LaUpload 0;
               LaReply 0 0 (Sent 200 ProxyDemo.sse_headers)] (arrived s).

Definition visit (sv : Serving) : option Live :=
  let dp := deployment sv in
  s ← opened sv;
  s ← reply dp chunks s;
  live_run dp (replicate 7 (LaQueue 0 SaRead)) s.

(** The task has something to send, and waits. *)
Definition middle (sv : Serving) : option Live :=
  s ← opened sv;
  live_run (deployment sv) [LaEvent 0 EvIdle; LaTask 0 0] s.
Definition in_the_middle (sv : Serving) : bool :=
  match middle sv with
  | Some {| lv_conns := [LvStreaming _ _ (InEnqueue _ _) _ _] |} => true
  | _ => false
  end.

Lemma visitor_reached st : auth_keyring st = [bstr "client-token"] → reached st visitor passed.
Proof. destruct st as [keys admin origins]. cbn. intros -> h. vm_compute. reflexivity. Qed.

Lemma post_text : text_input post.
Proof. apply Forall_cons; split; [by_vm|apply Forall_nil_2]. Qed.

Lemma live_run_steps dp actions : ∀ s s', live_run dp actions s = Some s' → rtc (live_step dp) s s'.
Proof.
  induction actions as [|a actions IH]; intros s s' E; cbn in E; [by injection E as <-|].
  destruct (live_next dp a s) as [s1|] eqn:E1; cbn in E; [|done].
  eapply rtc_l; [by eapply lv_act|by apply IH].
Qed.

Lemma settle_steps dp fuel : ∀ s, rtc (live_step dp) s (settle fuel dp s).
Proof.
  induction fuel as [|fuel IH]; intros s; cbn [settle]; [done|].
  destruct (live_next dp (LaTask 0 0) s) as [s1|] eqn:E1; [eapply rtc_l; [by eapply lv_act|apply IH]|].
  destruct (streaming s 0) as [[[[[x engine] [| | |]] events] sm]|]; try done.
  destruct (live_next dp (LaQueue 0 SaPoll) s) as [s1|] eqn:E2; [|done].
  eapply rtc_l; [by eapply lv_act|apply IH].
Qed.

Lemma reply_steps dp items : ∀ s s', reply dp items s = Some s' → rtc (live_step dp) s s'.
Proof.
  induction items as [|ev items IH]; intros s s' E; cbn [reply] in E; [by injection E as <-|].
  destruct (live_next dp (LaEvent 0 ev) s) as [s1|] eqn:E1; cbn [mbind option_bind] in E; [|done].
  eapply rtc_l; [by eapply lv_act|]. etrans; [apply settle_steps|by apply IH].
Qed.

Lemma opened_steps sv s :
  auth_keyring (bs_router (sv_state sv)) = [bstr "client-token"] → opened sv = Some s →
  rtc (live_step (deployment sv)) (live_start (deployment sv)) s.
Proof.
  intros Hk. unfold opened, posted. set (dp := deployment sv).
  destruct (rules_step _ _ post) as [cells|] eqn:E1; cbn [mbind option_bind]; [|done].
  set (s1 := Build_Live _ _ _ _ _ _). intros E.
  eapply rtc_l; [by eapply (lv_change dp (live_start dp) post), E1; apply post_text|].
  eapply rtc_l; [by apply (lv_request dp s1 visitor passed), visitor_reached|].
  by apply (live_run_steps _ _ _ _ E).
Qed.

Lemma visit_steps sv s :
  auth_keyring (bs_router (sv_state sv)) = [bstr "client-token"] → visit sv = Some s →
  rtc (live_step (deployment sv)) (live_start (deployment sv)) s.
Proof.
  intros Hk. unfold visit. destruct (opened sv) as [s2|] eqn:E2; cbn [mbind option_bind]; [|done].
  destruct (reply _ chunks s2) as [s3|] eqn:E3; cbn [mbind option_bind]; [|done]. intros E.
  etrans; [by apply opened_steps|]. etrans; [by apply (reply_steps _ _ _ _ E3)|].
  by apply (live_run_steps _ _ _ _ E).
Qed.

(** Its call of [enqueue] has reserved its first segment. *)
Definition reserved (sv : Serving) : option Live :=
  s ← middle sv; live_next (deployment sv) (LaQueue 0 SaPoll) s.

Lemma reserved_steps sv s :
  auth_keyring (bs_router (sv_state sv)) = [bstr "client-token"] → reserved sv = Some s →
  rtc (live_step (deployment sv)) (live_start (deployment sv)) s.
Proof.
  intros Hk. unfold reserved, middle. destruct (opened sv) as [s1|] eqn:E1; cbn [mbind option_bind]; [|done].
  destruct (live_run _ _ s1) as [s2|] eqn:E2; cbn [mbind option_bind]; [|done]. intros E3.
  etrans; [by apply opened_steps|]. eapply rtc_r; [by apply (live_run_steps _ _ _ _ E2)|by eapply lv_act].
Qed.

(** How much has entered the queue of the only stream. *)
Definition sent_length (s : Live) : nat :=
  match sv_conns (as_server s) with [ConnStream sm] => length (sm_sent sm) | _ => 0 end.
Definition polled (sv : Serving) : bool :=
  match reserved sv with
  | Some s =>
    match live_next (deployment sv) (LaQueue 0 SaPoll) s with
    | Some s' => (sent_length s =? 0)%nat && (0 <? sent_length s')%nat
    | None => false
    end
  | None => false
  end.

(** After the visit a second request is admitted and its client leaves. *)
Definition departed (sv : Serving) : option Live :=
  s ← visit sv;
  if bool_decide (lv_keys s = [bstr "client-token"])
  then live_run (deployment sv) [LaPrepare 1 None; LaAdmit 1; LaAdmit 1; LaAbandon 1] (arrived s)
  else None.
Definition all_gone (sv : Serving) : bool :=
  match departed sv with
  | Some s =>
    (length (lv_conns s) =? 2)%nat && (length (all_segments (sv_conns (as_server s))) =? 0)%nat &&
    (length (all_permits (sv_conns (as_server s))) =? 0)%nat
  | None => false
  end.

Lemma all_gone_departed sv :
  auth_keyring (bs_router (sv_state sv)) = [bstr "client-token"] → all_gone sv = true →
  ∃ s, departed sv = Some s ∧ length (lv_conns s) = 2%nat ∧
    rtc (server_step (bs_app (sv_state sv))) (server_start (sv_state sv)) (as_server s) ∧
    all_segments (sv_conns (as_server s)) = [] ∧ all_permits (sv_conns (as_server s)) = [].
Proof.
  intros Hk. unfold all_gone. destruct (departed sv) as [s|] eqn:Ed; [|done].
  intros [[H1%Nat.eqb_eq H2%Nat.eqb_eq]%andb_prop H3%Nat.eqb_eq]%andb_prop.
  exists s. split_and!; [done|done| |by apply nil_length_inv|by apply nil_length_inv].
  unfold departed in Ed. destruct (visit sv) as [s1|] eqn:Ev; cbn [mbind option_bind] in Ed; [|done].
  case_bool_decide as Hkeys; [|done].
  apply (live_reach_server (deployment sv)). etrans; [by apply visit_steps|].
  eapply rtc_l; [by apply (lv_request (deployment sv) s1 visitor passed), visitor_reached|].
  by apply (live_run_steps _ _ _ _ Ed).
Qed.

Lemma middle_reached sv :
  auth_keyring (bs_router (sv_state sv)) = [bstr "client-token"] → in_the_middle sv = true →
  ∃ s payload k x engine events sm,
    rtc (live_step (deployment sv)) (live_start (deployment sv)) s ∧
    lv_conns s !! 0%nat = Some (LvStreaming x engine (InEnqueue payload k) events sm).
Proof.
  intros Hk. unfold in_the_middle, middle.
  destruct (opened sv) as [s1|] eqn:E1; cbn [mbind option_bind]; [|done].
  destruct (live_run _ _ s1) as [s2|] eqn:E2; [|done]. destruct s2 as [pw cs ks ru kl rl].
  destruct cs as [|[|x a|x engine [|p|payload k|e] events sm|] [|c cs]]; try done. intros _.
  eexists _, payload, k, x, engine, events, sm.
  split; [etrans; [by apply opened_steps|by apply (live_run_steps _ _ _ _ E2)]|done].
Qed.

(** The rules of the post. *)
Definition vault : option PiiVault := PiiVault_new [bstr "password"] [bstr "[REDACTED]"].
Definition answer : bytes := bstr "data: my [REDACTED] data: [DONE]".

(** The visit ends, the visitor's stream is redacted with these rules and is over,
    and its body has ended. *)
Definition visited (sv : Serving) (s : Live) (v : PiiVault) (x : Exchange) (sm : Stream)
    (body : BudgetedBody) : Prop :=
  visit sv = Some s ∧ vault = Some v ∧
  lv_conns s !! 0%nat =
    Some (LvStreaming x (pv_engine_state v) (TaskOver (Some (EndFinished true))) chunks sm) ∧
  sm_body sm = Some body ∧ is_end_stream body = true.

#[local] Instance task_event_eq_dec : EqDecision TaskEvent.
Proof. solve_decision. Defined.

Definition same_engine (e e' : EngineState) : bool :=
  bool_decide ((es_ac e : list bytes) = es_ac e') &&
  bool_decide (es_max_pattern_len e = es_max_pattern_len e') &&
  bool_decide (es_patterns e = es_patterns e') &&
  bool_decide (es_replacements e = es_replacements e') &&
  bool_decide (es_replacement_strings e = es_replacement_strings e').

Lemma same_engine_eq e e' : same_engine e e' = true → e = e'.
Proof.
  unfold same_engine. rewrite !andb_true_iff, !bool_decide_eq_true.
  destruct e, e'; cbn. naive_solver.
Qed.

Definition finished (sv : Serving) : bool :=
  match visit sv, vault with
  | Some {| lv_conns := [LvStreaming _ engine (TaskOver (Some (EndFinished true))) events sm] |}, Some v =>
    same_engine engine (pv_engine_state v) && bool_decide (events = chunks) &&
    match sm_body sm with Some body => is_end_stream body | None => false end
  | _, _ => false
  end.

Lemma finished_visited sv :
  finished sv = true → ∃ s v x sm body, visited sv s v x sm body.
Proof.
  unfold finished, visited. destruct (visit sv) as [[pw cs ks ru kl rl]|]; [|done].
  destruct cs as [|[|x a|x engine [|p|d k|[[| |[]]|]] events sm|] [|c cs]]; try done.
  destruct vault as [v|]; [|done]. intros [[He%same_engine_eq Hev%bool_decide_eq_true]%andb_prop Hb]%andb_prop.
  destruct (sm_body sm) as [body|] eqn:Eb; [|done]. subst.
  eexists _, v, x, sm, body. split_and!; done.
Qed.

Lemma demo_visit :
  ∃ tr sv s v x sm body, exec (boot enclave) tr (Returned sv) ∧ forallb text_event tr = true ∧
    rtc (live_step (deployment sv)) (live_start (deployment sv)) s ∧ visited sv s v x sm body.
Proof.
  destruct (demo_start (λ tr sv, forallb text_event tr &&
    bool_decide (auth_keyring (bs_router (sv_state sv)) = [bstr "client-token"]) && finished sv))
    as (tr & sv & He & Hp); [by_vm|].
  apply andb_prop in Hp as [[Ht Hk%bool_decide_eq_true]%andb_prop Hf].
  destruct (finished_visited sv Hf) as (s & v & x & sm & body & Hv).
  exists tr, sv, s, v, x, sm, body. split_and!; try done. apply visit_steps; [done|]. apply Hv.
Qed.

(** The same visit, but the administrator posts after the request was prepared and
    before the reply. *)
Definition swapped (sv : Serving) : option Live :=
  let dp := deployment sv in
  s ← live_run dp [LaPrepare 0 None; LaAdmit 0; LaAdmit 0; LaUpload 0] (arrived (live_start dp));
  s ← posted s;
  s ← live_run dp [LaReply 0 0 (Sent 200 ProxyDemo.sse_headers)] s;
  s ← reply dp chunks s;
  live_run dp (replicate 7 (LaQueue 0 SaRead)) s.

Lemma posted_steps sv s s' :
  posted s = Some s' → rtc (live_step (deployment sv)) s s'.
Proof.
  unfold posted. destruct (rules_step _ _ post) as [cells|] eqn:E; cbn [mbind option_bind]; [|done].
  intros [= <-]. by eapply rtc_once, (lv_change (deployment sv) s post), E; apply post_text.
Qed.

Lemma swapped_steps sv s :
  auth_keyring (bs_router (sv_state sv)) = [bstr "client-token"] → swapped sv = Some s →
  rtc (live_step (deployment sv)) (live_start (deployment sv)) s.
Proof.
  intros Hk. unfold swapped. set (dp := deployment sv). set (s0 := live_start dp).
  destruct (live_run dp _ (arrived s0)) as [s1|] eqn:E1; cbn [mbind option_bind]; [|done].
  destruct (posted s1) as [s2|] eqn:E2; cbn [mbind option_bind]; [|done].
  destruct (live_run dp _ s2) as [s3|] eqn:E3; cbn [mbind option_bind]; [|done].
  destruct (reply dp chunks s3) as [s4|] eqn:E4; cbn [mbind option_bind]; [|done]. intros E5.
  eapply rtc_l; [by apply (lv_request dp s0 visitor passed), visitor_reached|].
  etrans; [by apply (live_run_steps _ _ _ _ E1)|]. etrans; [by apply (posted_steps sv _ _ E2)|].
  etrans; [by apply (live_run_steps _ _ _ _ E3)|]. etrans; [by apply (reply_steps _ _ _ _ E4)|].
  by apply (live_run_steps _ _ _ _ E5).
Qed.

(** The receipt over the text [redacted] for the question of the visitor. *)
Definition visit_receipt (sv : Serving) (x : Exchange) (redacted : bytes) : ReceiptFields := {|
  rf_request_id := pp_request_id (ex_prepared x); rf_tenant_id := bstr "client-token";
  rf_upstream_url := upstream_url (bs_app (sv_state sv)); rf_request_hash := bstr "a question";
  rf_policy_digest := pp_policy_digest (ex_prepared x); rf_pcr0 := pp_pcr0 (ex_prepared x);
  rf_response_hash := redacted
|}.

(** The client has the redacted text, this receipt and the marker; the receipt
    names the policy of the request, and the stream has another. *)
Definition swapped_receipt (sv : Serving) : bool :=
  match swapped sv with
  | Some {| lv_conns := [LvStreaming x engine (TaskOver (Some (EndFinished true))) _ sm] |} =>
    let f := visit_receipt sv x (bstr "data: my [REDACTED] ") in
    match audit_frame f (proxy_private_key (bs_app (sv_state sv))) 0 with
    | Some frame =>
      bool_decide (sm_received sm = bstr "data: my [REDACTED] " ++ frame ++ bstr "data: [DONE]") &&
      bool_decide (policy_digest (ex_engine x) = Some (rf_policy_digest f)) &&
      negb (bool_decide (policy_digest engine = Some (rf_policy_digest f)))
    | None => false
    end
  | _ => false
  end.
End LiveDemo.
Import LiveDemo.


Lemma vault_patterns v : vault = Some v → no_empty_pattern (pv_engine_state v).
Proof.
  intros Hv. assert (match vault with
    | Some v => bool_decide (es_patterns (pv_engine_state v) = [bstr "password"]) | None => true end = true)
    as H by by_vm.
  rewrite Hv in H. apply bool_decide_eq_true in H. unfold no_empty_pattern. rewrite H. by apply Forall_singleton.
Qed.

Lemma live_end_to_end_witness :
  ∃ s x engine run sm token, lv_conns s !! 0%nat = Some (LvStreaming x engine run chunks sm) ∧
    bearer_token (ex_request x) = Some token ∧ run ≠ TaskOver None.
Proof.
  destruct demo_visit as (tr & sv & s & v & x & sm & body & He & Ht & Hr & _ & Hv & Hc & _).
  destruct (live_end_to_end enclave tr sv (deployment sv) s 0 x _ _ chunks sm He Ht eq_refl Hr Hc)
    as (token & source & pre & Et & _ & _ & _ & _ & _ & _ & Hrun).
  destruct (Hrun (vault_patterns v Hv)) as [Hover _].
  exists s, x, (pv_engine_state v), (TaskOver (Some (EndFinished true))), sm, token.
  split; [exact Hc|]. split; [exact Et|exact Hover].
Defined.

Lemma live_delivers_witness :
  ∃ sm log c, sm_received sm = wire log ∧ payload log = cow_bytes c ∧ cow_bytes c = answer.
Proof.
  destruct demo_visit as (tr & sv & s & v & x & sm & body & He & Ht & Hr & _ & Hv & Hc & Hb & Hend).
  destruct (live_delivers enclave tr sv (deployment sv) s 0 x _ chunks sm body
    [bstr "password"] [bstr "[REDACTED]"] v He Ht eq_refl Hr Hc Hb Hend Hv eq_refl)
    as (log & c & H1 & H2 & H3 & _); [by_vm|by vm_compute|apply independent_separated; by_vm|by_vm|by_vm|].
  exists sm, log, c. split; [exact H1|]. split; [exact H3|].
  assert (match vault ≫= redact_text (concat (taken_chunks chunks)) with
          | Some c => bool_decide (cow_bytes c = answer) | None => false end = true) as Ha by by_vm.
  rewrite Hv in Ha. cbn [mbind option_bind] in Ha. rewrite H2 in Ha. by apply bool_decide_eq_true in Ha.
Defined.

(** The task waits for the queue, and its call is polled after it has reserved: the
    first bytes enter the channel. *)
Lemma live_refines_server_witness :
  ∃ sv s s', live_next (deployment sv) (LaQueue 0 SaPoll) s = Some s' ∧ sent_length s = 0%nat ∧
    (0 < sent_length s')%nat ∧ rtc (server_step (bs_app (sv_state sv))) (as_server s) (as_server s').
Proof.
  destruct (demo_start (λ _ sv,
    bool_decide (auth_keyring (bs_router (sv_state sv)) = [bstr "client-token"]) && polled sv))
    as (tr & sv & He & Hp); [by_vm|].
  apply andb_prop in Hp as [Hk%bool_decide_eq_true Hp]. unfold polled in Hp.
  destruct (reserved sv) as [s|] eqn:Em; [|discriminate Hp].
  destruct (live_next _ _ s) as [s'|] eqn:En; [|discriminate Hp].
  apply andb_prop in Hp as [H1%Nat.eqb_eq H2%Nat.ltb_lt].
  destruct (live_refines_server (deployment sv) s s' (reserved_steps sv s Hk Em) (lv_act _ _ _ _ En)) as [_ H].
  exists sv, s, s'. split; [exact En|]. split; [exact H1|]. split; [exact H2|exact H].
Defined.

(** One request was streamed to its end, another left while it held its permits. *)
Lemma server_returns_all_witness :
  ∃ sv s, departed sv = Some s ∧ length (lv_conns s) = 2%nat ∧
    avail (pw_world (lv_pw s)) (stream_limit (bs_app (sv_state sv))) = Some 1000 ∧
    w_in_use (pw_world (lv_pw s)) = 0 ∧ pw_active (lv_pw s) = 0.
Proof.
  destruct (demo_start (λ _ sv,
    bool_decide (auth_keyring (bs_router (sv_state sv)) = [bstr "client-token"]) && all_gone sv))
    as (tr & sv & He & Hp); [by_vm|].
  apply andb_prop in Hp as [Hk%bool_decide_eq_true Hp].
  destruct (all_gone_departed sv Hk Hp) as (s & Ed & Hl & Hr & Hs & Hq).
  destruct (server_returns_all enclave tr sv (as_server s) He Hr Hs Hq) as (H1 & _ & _ & H2 & H3).
  exists sv, s. split; [exact Ed|]. split; [exact Hl|]. split; [exact H1|]. split; [exact H2|exact H3].
Defined.

(** The visit up to the point where the task waits for the queue. *)
Lemma live_rounds_end_witness :
  ∃ sv s payload k x engine events sm,
    lv_conns s !! 0%nat = Some (LvStreaming x engine (InEnqueue payload k) events sm) ∧
    can_settle (deployment sv) s 0.
Proof.
  destruct (demo_start (λ _ sv, bool_decide (auth_keyring (bs_router (sv_state sv)) = [bstr "client-token"]) &&
    in_the_middle sv)) as (tr & sv & He & Hp); [by_vm|].
  apply andb_prop in Hp as [Hk%bool_decide_eq_true Hm].
  destruct (middle_reached sv Hk Hm) as (s & payload & k & x & engine & events & sm & Hr & Hi).
  exists sv, s, payload, k, x, engine, events, sm. split; [exact Hi|].
  exact (live_rounds_end (deployment sv) s 0 x engine _ events sm Hr Hi).
Defined.
